(* ===== verification/_CoqProject ===== *)
-Q . S2P
Prelude.v
Types.v
Hash.v
Index.v
Freelist.v
Dictionary.v
DirtyRing.v
PeerFrontier.v
IO.v
CellStore.v
CellSlots.v
CellInv.v
CellOps.v
CellMerge.v
CellExpire.v
GossipFrame.v
CellTyped.v
View.v
StoreSpec.v
Window.v
Bytes.v
WireHeader.v
WireBody.v
WirePlan.v
WireCodec.v
Wire.v
WireTyped.v
Exchange.v
Str.v
Rules.v
DashMap.v
Mirror.v
Limiter.v
Queue.v
Lease.v
ShmTable.v
NginxRules.v
Access.v
Shm.v
Runtime.v
RuntimeSend.v
RuntimeAdmin.v
RuntimeInv.v
RuntimeStep.v
RuntimeLoop.v
RuntimeView.v
RuntimeSpec.v
RuntimeNet.v
RuntimeExchange.v
NetAddr.v
Sim.v
SimSpec.v
ServerConfig.v
Server.v
Discovery.v
DiscoverySpec.v
ServerPeers.v
Admin.v
AdminSpec.v
Leader.v
LeaderSpec.v
NginxModule.v
NginxModuleSpec.v
Engine.v
EngineSpec.v
