(* ===== verification/Prelude.v ===== *)
(** * Gabion: a verified model of a distributed rate limiter

    Gabion counts hits per rate-limit rule, key and time bucket on every node of
    a cluster, spreads the counts by gossip, and decides requests against the
    sum.  This library models the program's own logic ([src/crates/gabion],
    [src/crates/server], [src/crates/nginx]) and proves what makes it correct.

    ** The program and the files

    - Counter store ([gabion/src/crdt.rs] and [gabion/src/crdt/]): cells keyed by
      (rule, key, bucket, origin) in columns, with a free list, a hash index, rule
      and node dictionaries, two dirty rings, a peer frontier table and batches.
      [Types], [Hash], [Index] (Robin Hood table), [Freelist], [Dictionary],
      [DirtyRing], [PeerFrontier], [IO] and [CellStore] hold the data and the
      operations under the source's names; [CellSlots], [CellInv], [CellOps],
      [CellMerge], [CellExpire], [GossipFrame] and [CellTyped] hold the invariant
      and the lemmas of each operation; [View] is the abstract store, a bounded
      machine of counts, known rules and known origins on which every call is a
      function; [StoreSpec] states that every call sequence refines it, and what
      the single operations do.
    - Wire format ([gabion/src/wire.rs], [wire/header.rs], [wire/body.rs],
      [wire/auth.rs]): [Bytes], [WireHeader], [WireBody], [WirePlan], [WireCodec],
      [Wire], [WireTyped]; [Exchange] composes two stores over the wire.
    - Window arithmetic ([gabion/src/window.rs]): [Window].
    - Rules ([gabion/src/rules.rs]): [Str] (strings, UTF-8, number parsing) and
      [Rules].
    - Count stores ([gossip/store.rs], [server/src/store.rs]): [DashMap], whose
      [AggregateStore] and [AggregateLaws] classes are the contract of the trait of
      that name; [Mirror] shows that the rows of the cell store's two channels keep
      any implementation of it equal to the totals of the cells.
    - Event loop ([gossip/runtime.rs], [gossip/client.rs], [gossip/admin.rs]):
      [Runtime] has the state, the select and one definition per handler;
      [RuntimeSend] (the outbound pool), [RuntimeAdmin], [RuntimeInv] (invariant and
      handlers), [RuntimeStep], [RuntimeLoop] (an iteration, every run) and
      [RuntimeView] (a run replayed on the [View]) carry the proofs; [RuntimeSpec], [RuntimeNet] and [RuntimeExchange] state what callers,
      the network and a pair of nodes see.  The loop is generic in the count store.
    - Simulated network and clocks ([gossip/sim.rs], [gossip/clock.rs]): [NetAddr]
      (addresses, read and printed), [Sim] and [SimSpec].
    - Discovery ([discovery.rs], [discovery/kubernetes.rs]): [Discovery] (Service
      filters, slices, streams as state machines) and [DiscoverySpec].
    - gRPC server ([server/src/]): [ServerConfig] (settings, environment, derived
      configurations), [Limiter] (admission and evaluation), [Server] (start-up and
      what the running server decides), [ServerPeers] (discovery feeding the loop),
      [Admin] and [AdminSpec] (the admin endpoint's answers).
    - nginx workers' shared memory ([nginx/src/shm.rs], [nginx/src/shm/]): [Shm]
      (layout of the zone and its header), [Queue] and [Lease], both as
      interleavings of atomic accesses, and [ShmTable] (the count table behind the
      same contract as [DashMap]).
    - nginx module ([nginx/src/rules.rs], [access.rs], [headers.rs], [leader.rs],
      [identity.rs], [module.rs]): [NginxRules] (bindings and compilation),
      [Access] (one request), [Leader] and [LeaderSpec] (a leader's term, its drain
      passes), [NginxModule] and [NginxModuleSpec] (directives, inheritance,
      post-configuration, zone set-up, the request handler, worker hooks).
    - Visualizer engine ([gabion-wasm/src/]): [Engine] (nodes, network and virtual
      time driven by commands; each node is the event loop of [Runtime] over the
      network of [Sim]) and [EngineSpec].

    A request reaches [Limiter.evaluate] (gRPC) or [gabion_access_handler] (nginx),
    which reads window totals from its count store and records hits; the hits
    reach the event loop through the client, or through [Queue] and
    [Leader.drain_pass].  The loop feeds them to [CellStore.ingest_local], applies
    the delta rows with [AggregateStore.apply] and acknowledges; frames composed by
    [fill_gossip_frame] are encoded by [Wire.next_into], sent to the peers that
    [Discovery] reports, decoded there by [Wire.decode_inner] and merged by
    [merge_remote].

    ** Conventions

    An unsigned integer is a [Z] with its range in the invariants; [checked] is an
    arithmetic operation that panics on overflow, [wrapping_]/[saturating_]/[as_uN]
    are Rust's.  An [option] result is [None] for a panic (index out of bounds,
    overflow, failed assertion) and for a loop that runs out of fuel; a theorem
    that an operation returns [Some] therefore shows absence of panics and
    termination.  Overflow of a plain operator is such a panic, so no theorem
    relies on wrapping that only a build without overflow checks has; where the
    overflow is reachable and the release build's result matters
    ([Engine.addr_of_id]) the definition wraps and says so.  [debug_assert] is off,
    as in a release build, where the definition says so ([encode_packets_for]);
    elsewhere an assertion, debug or not, is a check that the theorems show to
    pass, which covers both builds.  [Result] is a sum with [Ok] on the left.  Structs are records with the update notation
    [r <| f := v |>].  What an operation awaits (a channel, a socket, a clock, a
    random pick, the order of a hash map, the turns of an executor) is an argument, so a theorem holds for
    every outcome; code outside the repository (XXH3, HMAC-SHA256, humantime, the
    config crate, nginx's own functions) is a parameter.

    ** Bounds and fuel

    Fuel is never a hidden bound: table walks get the table's capacity, the bucket
    walk the number of live buckets, the encoding loop one more than the free
    buffers, a query string's search its length, the halving in [Layout.fit] 64
    steps (a table has at most 2^64 slots), number printing as many digits as 128
    bits have in the radix, a lone queue call its twelve accesses; each is proved
    enough, by the theorem that the call returns.
    Runs of the event loop are bounded by 2^50 wake-ups and peers, below which no
    64-bit statistic overflows; cell counts are at most 32 bits wide in what is
    proved of the loop ([narrow]), so that totals fit 64 bits; the coverage fan-out
    is a table of powers of e up to e^23, above 2^32 peers; a zone has at most 2^60
    bytes.

    ** What the theorems show

    - Store: with capacities the store supports ([CellOps.config_ok]) every sequence
      of calls runs without panic and does to the store what it does to the view,
      row by row: a row is dropped only for lack of room; merging is a join, insensitive to order, grouping and
      repetition; counts only grow; deltas and expirations account for every
      change of the totals; expiration drops exactly the aged cells.
    - Index and rings: the hash table is a finite map; a ring keeps the latest
      entries.
    - Wire: packets round-trip; encoding a frame makes progress and ends; decoding
      arbitrary bytes never panics; forged frames are rejected; exchanging a frame
      joins the sender's cells into the receiver.
    - Rules, window: hash inputs identify rules and keys; matching, rate parsing
      and scaling are exact on every branch; the retry delay is the first instant
      at which the request fits.
    - Event loop: no run panics, the cells are those that replaying the dispatched
      requests, datagrams and ticks on the view gives, and after every iteration the
      count store reads their totals; a hit is visible when it is acknowledged; requests
      are served and the send queue drains whatever else is ready; a flush is asked
      for when the pending count passes the error budget; every datagram decodes at
      a peer with the same limits; a gossip round joins one node into another.
    - Discovery: when addresses are not shared, the peers are the ready endpoints
      of the watched Services; two scenarios in which the code departs from that
      are theorems of their own.
    - Server: the decision, what it records and its reset time; every request is
      answered; a booted server decides against the totals of the replayed cells; an
      introspection shows the remote cells of the store with their counts.
    - Shared memory: under every interleaving each queued event is delivered intact
      to one consumer and none is lost; a live lease is changed only by its owner,
      by the clock of the worker that acts; the table is a finite map that, read
      between writes, reads as the server's store does, and a full table only
      undercounts; the regions of the zone fit and do not overlap.
    - nginx: every sequence of directives keeps the configuration well formed; a
      request of a configured location is decided by the location's rules, counted
      at most once, with exact headers; leader terms never reuse an identity and a
      drain pass moves each event once.
    - Simulation: the simulated network loses packets but never forges, repeats or
      reorders them; through at most 65536 joins, leaves and any turns of the nodes' loops, the
      engine's books agree with the live nodes and their peers are each other.

    ** Not modelled

    Sockets, channels, timers, futures and threads themselves; gRPC, HTTP and JSON
    encoding; the Kubernetes client; the config crate; gabiond's argument parsing,
    signals and supervision; of the nginx module, diagnostics, logging, the
    allocation of configuration blocks and the shutdown watcher; torn reads of the
    count table, which its sequence counters rule out in the source.  Log lines are
    omitted.  The benchmark, the load generator and the visualizer's browser
    bindings measure or show the library and have no logic of its own.  The
    interleaving models assume sequentially consistent memory. *)

From stdpp Require Export base tactics list gmap numbers sets.
From Stdlib Require Export ZArith Lia.

(** ** Record update

    [r <| f := v |>] replaces one field of a struct.  A record type opts in by
    declaring its eta expansion as an instance of [Eta]; the setter of a field
    is then read off that expansion. *)
Class Eta (R : Type) := eta_expand : R → R.

Class Setter {R F : Type} (field : R → F) := set_field : F → R → R.
Arguments set_field {R F} field {_} v r.

Ltac derive_setter :=
  lazymatch goal with
  | |- @Setter ?R ?F ?fld =>
    let e := constr:(_ : Eta R) in
    let b := eval hnf in e in
    lazymatch eval pattern fld in b with
    | ?g _ =>
      let r := eval cbv beta in (fun (v : F) (x : R) => g (fun _ => v) x) in
      exact r
    end
  end.

#[global] Hint Extern 1 (Setter _) => derive_setter : typeclass_instances.

Declare Scope rust_scope.
Delimit Scope rust_scope with rust.
#[global] Open Scope rust_scope.
#[global] Open Scope Z_scope.

#[warnings="-postfix-notation-not-level-1"]
Notation "r <| f := v |>" := (set_field f v r)
  (at level 12, f constr at level 200, v constr at level 200,
   left associativity) : rust_scope.

(** ** Machine integers

    A Rust [uN] is a [Z] in [0 .. 2^N - 1].  [as_uN] is the truncating cast,
    the [wrapping_]/[saturating_] operations are Rust's, and a plain [+], [-]
    or [*] is a checked operation: [None] is the overflow panic of a build
    with overflow checks. *)
Definition U8_MAX : Z := 255.
Definition U16_MAX : Z := 65535.
Definition U32_MAX : Z := 4294967295.
Definition U64_MAX : Z := 18446744073709551615.
Definition U128_MAX : Z := 340282366920938463463374607431768211455.

Definition uint (w z : Z) : Prop := 0 ≤ z < 2 ^ w.

Definition as_u8 (z : Z) : Z := z mod 2 ^ 8.
Definition as_u16 (z : Z) : Z := z mod 2 ^ 16.
Definition as_u32 (z : Z) : Z := z mod 2 ^ 32.
Definition as_u64 (z : Z) : Z := z mod 2 ^ 64.

Definition checked (w z : Z) : option Z :=
  if (0 <=? z) && (z <? 2 ^ w) then Some z else None.

Definition wrapping_add (w a b : Z) : Z := (a + b) mod 2 ^ w.
Definition wrapping_sub (w a b : Z) : Z := (a - b) mod 2 ^ w.
Definition wrapping_mul (w a b : Z) : Z := (a * b) mod 2 ^ w.
Definition saturating_add (w a b : Z) : Z := Z.min (a + b) (2 ^ w - 1).
Definition saturating_mul (w a b : Z) : Z := Z.min (a * b) (2 ^ w - 1).
Definition saturating_sub (a b : Z) : Z := Z.max 0 (a - b).
Definition div_ceil (a b : Z) : Z := if a mod b =? 0 then a / b else a / b + 1.

Definition is_power_of_two (z : Z) : bool :=
  (0 <? z) && (2 ^ Z.log2 z =? z).

(** ** Slices and vectors, indexed as Rust indexes them

    [zget] and [zset] are [None] out of range, where Rust panics. *)
Definition zlen {A} (l : list A) : Z := Z.of_nat (length l).

Definition zget {A} (l : list A) (i : Z) : option A :=
  if 0 <=? i then l !! Z.to_nat i else None.

Definition zupd {A} (l : list A) (i : Z) (v : A) : list A :=
  if 0 <=? i then <[Z.to_nat i := v]> l else l.

Definition zset {A} (l : list A) (i : Z) (v : A) : option (list A) :=
  if (0 <=? i) && (i <? zlen l) then Some (zupd l i v) else None.

(** [Result<T, E>] is [T + E]. *)
Abbreviation Ok := inl (only parsing).
Abbreviation Err := inr (only parsing).

(** [assert!] and [debug_assert!]: [None] is the panic. *)
Definition assert_ (b : bool) : option unit := if b then Some () else None.

(** [for x in l { body }] over a mutable state; [continue] is [Some]. *)
Fixpoint for_each {A S} (l : list A) (st : S) (body : S → A → option S) :
    option S :=
  match l with
  | [] => Some st
  | x :: l' => st' ← body st x; for_each l' st' body
  end.

(** The same loop with [break]: the body says whether to go on. *)
Fixpoint for_each_while {A S} (l : list A) (st : S) (body : S → A → option (S * bool)) :
    option S :=
  match l with
  | [] => Some st
  | x :: l' =>
    '(st', continue) ← body st x;
    if (continue : bool) then for_each_while l' st' body else Some st'
  end.

(** The range [lo .. hi]. *)
Definition zrange (lo hi : Z) : list Z := seqZ lo (hi - lo).

(** ** Lemmas on machine integers *)
Lemma checked_ok w z : 0 ≤ z < 2 ^ w → checked w z = Some z.
Proof.
  intros [H1 H2]. unfold checked.
  apply Z.leb_le in H1 as ->. by apply Z.ltb_lt in H2 as ->.
Qed.

Lemma checked_Some w z z' : checked w z = Some z' → z' = z ∧ 0 ≤ z < 2 ^ w.
Proof. unfold checked. destruct (_ && _) eqn:E; [|done]. intros [= <-]. lia. Qed.

Lemma wrapping_sub_range w a b : 0 ≤ w → uint w (wrapping_sub w a b).
Proof. intros ?. apply Z.mod_pos_bound. apply Z.pow_pos_nonneg; lia. Qed.

Lemma is_power_of_two_pow k : 0 ≤ k → is_power_of_two (2 ^ k) = true.
Proof.
  intros Hk. unfold is_power_of_two. rewrite Z.log2_pow2 by done.
  pose proof (Z.pow_pos_nonneg 2 k). lia.
Qed.

Lemma is_power_of_two_inv z :
  is_power_of_two z = true → ∃ k, 0 ≤ k ∧ z = 2 ^ k.
Proof.
  unfold is_power_of_two. intros H. exists (Z.log2 z).
  pose proof (Z.log2_nonneg z). lia.
Qed.

Lemma land_mask_mod a k : 0 ≤ k → Z.land a (2 ^ k - 1) = a mod 2 ^ k.
Proof. intros. rewrite <- Z.land_ones by lia. by rewrite Z.ones_equiv, <- Z.sub_1_r. Qed.

Lemma mod_mod_pow a k w : 0 ≤ k ≤ w → (a mod 2 ^ w) mod 2 ^ k = a mod 2 ^ k.
Proof.
  intros. pose proof (Z.pow_pos_nonneg 2 k). pose proof (Z.pow_pos_nonneg 2 w).
  apply Z.mod_mod_divide. exists (2 ^ (w - k)).
  rewrite <- Z.pow_add_r by lia. f_equal. lia.
Qed.

Lemma div_ceil_spec a b :
  0 ≤ a → 0 < b → b * (div_ceil a b - 1) < a ≤ b * div_ceil a b ∨
                  (a = 0 ∧ div_ceil a b = 0).
Proof.
  intros Ha Hb. unfold div_ceil.
  pose proof (Z.div_mod a b ltac:(lia)). pose proof (Z.mod_pos_bound a b Hb).
  destruct (a mod b =? 0) eqn:E; [|left; nia].
  destruct (decide (a = 0)) as [->|]; [right; by rewrite Z.div_0_l by lia|left; nia].
Qed.

(** ** Lemmas on slices *)
Section slices.
Context {A : Type}.
Implicit Types (l : list A) (i j : Z) (v : A).

Lemma zlen_nonneg l : 0 ≤ zlen l.
Proof. unfold zlen. lia. Qed.

Lemma zget_Some_range l i v : zget l i = Some v → 0 ≤ i < zlen l.
Proof.
  unfold zget, zlen. destruct (0 <=? i) eqn:E; [|done].
  intros ?%lookup_lt_Some. lia.
Qed.

Lemma zget_lookup l i : 0 ≤ i → zget l i = l !! Z.to_nat i.
Proof. intros. unfold zget. by rewrite (proj2 (Z.leb_le 0 i)). Qed.

Lemma zget_elem_of l i v : zget l i = Some v → v ∈ l.
Proof. unfold zget. case_match; [|done]. apply list_elem_of_lookup_2. Qed.

Lemma zget_nat l (n : nat) : zget l (Z.of_nat n) = l !! n.
Proof. rewrite zget_lookup by lia. by rewrite Nat2Z.id. Qed.

Lemma zget_in_range l i : 0 ≤ i < zlen l → ∃ v, zget l i = Some v.
Proof.
  intros ?. rewrite zget_lookup by lia. apply lookup_lt_is_Some_2.
  unfold zlen in *. lia.
Qed.

Lemma zget_out l i : ¬ (0 ≤ i < zlen l) → zget l i = None.
Proof.
  intros H. destruct (zget l i) eqn:E; [|done].
  by apply zget_Some_range in E.
Qed.

Lemma zset_ok l i v : 0 ≤ i < zlen l → zset l i v = Some (zupd l i v).
Proof. intros. unfold zset. by replace ((0 <=? i) && (i <? zlen l)) with true by lia. Qed.

Lemma zset_Some l i v l' : zset l i v = Some l' → 0 ≤ i < zlen l ∧ l' = zupd l i v.
Proof. unfold zset. destruct (_ && _) eqn:E; [|done]. intros [= <-]. split; [lia|done]. Qed.

Lemma zlen_zupd l i v : zlen (zupd l i v) = zlen l.
Proof. unfold zupd, zlen. case_match; [|done]. by rewrite length_insert. Qed.

Lemma zget_zupd_eq l i v : 0 ≤ i < zlen l → zget (zupd l i v) i = Some v.
Proof.
  intros. rewrite zget_lookup by lia. unfold zupd.
  rewrite (proj2 (Z.leb_le 0 i)) by lia. apply list_lookup_insert_eq.
  unfold zlen in *. lia.
Qed.

Lemma zget_zupd_ne l i j v : i ≠ j → zget (zupd l i v) j = zget l j.
Proof.
  intros. unfold zget, zupd. destruct (0 <=? i) eqn:?, (0 <=? j) eqn:?; try done.
  apply list_lookup_insert_ne. lia.
Qed.

Lemma zget_zupd l i j v :
  0 ≤ i < zlen l → zget (zupd l i v) j = if decide (i = j) then Some v else zget l j.
Proof.
  intros. case_decide; subst; [by apply zget_zupd_eq|by apply zget_zupd_ne].
Qed.

Lemma zlen_replicate (n : nat) v : zlen (replicate n v) = Z.of_nat n.
Proof. unfold zlen. by rewrite length_replicate. Qed.

Lemma zget_replicate (n : nat) v i :
  0 ≤ i < Z.of_nat n → zget (replicate n v) i = Some v.
Proof. intros. rewrite zget_lookup by lia. apply lookup_replicate_2. lia. Qed.

Lemma list_eq_zget l l' :
  zlen l = zlen l' → (∀ i, 0 ≤ i < zlen l → zget l i = zget l' i) → l = l'.
Proof.
  intros Hlen H. apply list_eq. intros n.
  destruct (decide (Z.of_nat n < zlen l)).
  - rewrite <- !zget_nat. apply H. lia.
  - rewrite !lookup_ge_None_2; [done|unfold zlen in *; lia..].
Qed.

Lemma zlen_app l l' : zlen (l ++ l') = zlen l + zlen l'.
Proof. unfold zlen. rewrite length_app. lia. Qed.

Lemma zget_app_l l l' i : i < zlen l → zget (l ++ l') i = zget l i.
Proof.
  intros. unfold zget, zlen in *. case_match; [|done]. apply lookup_app_l. lia.
Qed.
End slices.

Lemma zlen_fmap {A B} (f : A → B) (l : list A) : zlen (f <$> l) = zlen l.
Proof. unfold zlen. by rewrite length_fmap. Qed.

Lemma zget_fmap {A B} (f : A → B) (l : list A) i : zget (f <$> l) i = f <$> zget l i.
Proof. unfold zget. case_match; [|done]. apply list_lookup_fmap. Qed.

Lemma sublist_Forall {A} (P : A → Prop) (l k : list A) :
  l `sublist_of` k → Forall P k → Forall P l.
Proof. induction 1; intros Hf; [done|inversion Hf; subst; constructor; auto..|inversion Hf; auto]. Qed.

Lemma elem_of_zrange lo hi x : x ∈ zrange lo hi ↔ lo ≤ x < hi.
Proof. unfold zrange. rewrite elem_of_seqZ. lia. Qed.

Lemma NoDup_zrange lo hi : NoDup (zrange lo hi).
Proof. apply NoDup_seqZ. Qed.

Lemma zlen_zrange lo hi : lo ≤ hi → zlen (zrange lo hi) = hi - lo.
Proof. intros. unfold zlen, zrange. rewrite length_seqZ. lia. Qed.

Lemma zrange_cons lo hi : lo < hi → zrange lo hi = lo :: zrange (lo + 1) hi.
Proof.
  intros. unfold zrange. rewrite seqZ_cons by lia.
  f_equal. f_equal; lia.
Qed.

Lemma zrange_nil lo hi : hi ≤ lo → zrange lo hi = [].
Proof. intros. unfold zrange. apply seqZ_nil. lia. Qed.

(** ** Sets and maps whose keys are slots below a capacity *)
Section slot_sets.
Context (cap : Z) (Hcap : 0 ≤ cap).
Implicit Types (L : gset Z).

Lemma set_size_le_range L : (∀ s, s ∈ L → 0 ≤ s < cap) → Z.of_nat (size L) ≤ cap.
Proof using Hcap.
  intros Hr. assert (elements L ⊆+ zrange 0 cap) as Hsub%submseteq_length.
  { apply NoDup_submseteq; [apply NoDup_elements|]. intros s Hs%elem_of_elements.
    by apply elem_of_zrange, Hr. }
  pose proof (zlen_zrange 0 cap Hcap). unfold zlen, size, set_size in *. simpl. lia.
Qed.

Lemma set_size_full L :
  (∀ s, s ∈ L → 0 ≤ s < cap) → (∀ s, 0 ≤ s < cap → ¬ ¬ s ∈ L) →
  Z.of_nat (size L) = cap.
Proof using Hcap.
  intros Hr Hf. apply Z.le_antisymm; [by apply set_size_le_range|].
  assert (zrange 0 cap ⊆+ elements L) as Hsub%submseteq_length.
  { apply NoDup_submseteq; [apply NoDup_zrange|]. intros s Hs%elem_of_zrange.
    apply elem_of_elements. destruct (decide (s ∈ L)); [done|]. by destruct (Hf s). }
  pose proof (zlen_zrange 0 cap Hcap). unfold zlen, size, set_size in *. simpl. lia.
Qed.

Lemma set_size_add L s :
  (∀ s, s ∈ L → 0 ≤ s < cap) → 0 ≤ s < cap → s ∉ L →
  Z.of_nat (size ({[ s ]} ∪ L)) = Z.of_nat (size L) + 1 ∧ Z.of_nat (size L) + 1 ≤ cap.
Proof using Hcap.
  intros Hr Hs Hn.
  assert (size ({[ s ]} ∪ L) = S (size L)) as Hsz.
  { rewrite size_union by (by apply disjoint_singleton_l). by rewrite size_singleton. }
  split; [lia|]. assert (Z.of_nat (size ({[ s ]} ∪ L)) ≤ cap); [|lia].
  apply set_size_le_range. intros s'. rewrite elem_of_union, elem_of_singleton.
  intros [->|?]; eauto.
Qed.

Lemma size_le_range {A} (m : gmap Z A) :
  (∀ s, is_Some (m !! s) → 0 ≤ s < cap) → Z.of_nat (size m) ≤ cap.
Proof using Hcap.
  intros Hr. rewrite <- size_dom. apply set_size_le_range.
  intros s ?%elem_of_dom. by apply Hr.
Qed.

Lemma size_lt_range {A} (m : gmap Z A) s :
  (∀ s, is_Some (m !! s) → 0 ≤ s < cap) → 0 ≤ s < cap → m !! s = None →
  Z.of_nat (size m) + 1 ≤ cap.
Proof using Hcap.
  intros Hr Hs Hn. rewrite <- size_dom. apply (set_size_add (dom m) s); [|done|].
  - intros s' ?%elem_of_dom. by apply Hr.
  - by apply not_elem_of_dom.
Qed.

Lemma size_full_range {A} (m : gmap Z A) :
  (∀ s, is_Some (m !! s) → 0 ≤ s < cap) → (∀ s, 0 ≤ s < cap → ¬ ¬ is_Some (m !! s)) →
  Z.of_nat (size m) = cap.
Proof using Hcap.
  intros Hr Hf. rewrite <- size_dom. apply set_size_full.
  - intros s ?%elem_of_dom. by apply Hr.
  - intros s Hs. rewrite elem_of_dom. by apply Hf.
Qed.
End slot_sets.

(** A loop whose body keeps an invariant runs to the end of its range. *)
Lemma for_each_inv {A S} (I : list A → S → Prop) (l : list A) st body :
  (∀ x l' st, I (x :: l') st → ∃ st', body st x = Some st' ∧ I l' st') →
  I l st → ∃ st', for_each l st body = Some st' ∧ I [] st'.
Proof.
  intros Hstep. revert st. induction l as [|x l IH]; intros st HI; simpl; [by eauto|].
  destruct (Hstep _ _ _ HI) as (st' & -> & HI'). simpl. by apply IH.
Qed.

(** The same with [break]: the invariant [I] while the loop runs, [Q] after. *)
Lemma for_each_while_inv {A S} (I : list A → S → Prop) (Q : S → Prop) (l : list A) st body :
  (∀ x l' st, I (x :: l') st → ∃ st' (b : bool), body st x = Some (st', b) ∧
                                if b then I l' st' else Q st') →
  (∀ st, I [] st → Q st) →
  I l st → ∃ st', for_each_while l st body = Some st' ∧ Q st'.
Proof.
  intros Hstep Hend. revert st. induction l as [|x l IH]; intros st HI; simpl; [by eauto|].
  destruct (Hstep _ _ _ HI) as (st' & b & -> & HI'). simpl.
  destruct b; [by apply IH|by eauto].
Qed.

Lemma for_each_app {A S} (l1 l2 : list A) (st : S) body :
  for_each (l1 ++ l2) st body = (st' ← for_each l1 st body; for_each l2 st' body).
Proof.
  revert st. induction l1 as [|x l1 IH]; intros st; simpl; [done|].
  destruct (body st x); simpl; auto.
Qed.

(** [for i in 0..v.len() { .. v[i] .. }], by the prefix already processed. *)
Lemma for_each_index {A S} (l : list A) (st : S) body (P : list A → S → Prop) :
  P [] st →
  (∀ pre x suf st, l = pre ++ x :: suf → P pre st →
     ∃ st', body st (zlen pre) = Some st' ∧ P (pre ++ [x]) st') →
  ∃ st', for_each (zrange 0 (zlen l)) st body = Some st' ∧ P l st'.
Proof.
  intros H0 Hstep.
  assert (∀ suf pre st, l = pre ++ suf → P pre st →
    ∃ st', for_each (zrange (zlen pre) (zlen l)) st body = Some st' ∧ P l st') as Hgen.
  { induction suf as [|x suf IH]; intros pre st1 -> HP.
    - rewrite app_nil_r. rewrite zrange_nil by lia. simpl. by exists st1.
    - rewrite zrange_cons by (rewrite zlen_app; unfold zlen; simpl; lia). simpl.
      destruct (Hstep pre x suf st1 eq_refl HP) as (st2 & -> & HP2). simpl.
      destruct (IH (pre ++ [x]) st2) as (st3 & He & HP3); [by rewrite <- app_assoc|done|].
      exists st3. split; [|done]. by rewrite (zlen_app pre [x]) in He. }
  by apply (Hgen l [] st).
Qed.

(** ** Automation *)
Create HintDb gabion.
Create Rewrite HintDb slice.
#[export] Hint Rewrite @zlen_zupd @zlen_replicate @zlen_fmap @zlen_app : slice.
#[export] Hint Resolve zlen_nonneg : gabion.

(** Discharge the checked operations of a straight-line piece of code: index
    reads and writes whose bounds are in the context, and arithmetic that does
    not overflow. *)
Ltac rsimp :=
  repeat first
    [ progress simpl
    | rewrite zset_ok by (autorewrite with slice; lia)
    | rewrite checked_ok by lia
    | match goal with
      | H : zget ?l ?i = Some _ |- context [zget ?l ?i] => rewrite H
      | H : ?b = true |- context [assert_ ?b] => rewrite H
      end ].

(** Reduce reads of updated slices. *)
Ltac zsimp :=
  repeat first
    [ rewrite zget_zupd_eq by (autorewrite with slice; lia)
    | rewrite zget_zupd_ne by (first [done | lia])
    | rewrite zlen_zupd ].

(** Membership in unions, differences and singletons, by cases. *)
Ltac set_cases :=
  rewrite ?elem_of_union, ?elem_of_difference, ?elem_of_singleton in *;
  intuition congruence.

Ltac bool_solve :=
  repeat match goal with
  | H : (_ =? _) = true |- _ => apply Z.eqb_eq in H
  | H : (_ =? _) = false |- _ => apply Z.eqb_neq in H
  | H : (_ <? _) = true |- _ => apply Z.ltb_lt in H
  | H : (_ <? _) = false |- _ => apply Z.ltb_ge in H
  | H : (_ <=? _) = true |- _ => apply Z.leb_le in H
  | H : (_ <=? _) = false |- _ => apply Z.leb_gt in H
  | H : (_ && _) = true |- _ => apply andb_true_iff in H as [? ?]
  end.
