(* ===== verification/Types.v ===== *)
(** * CRDT identities and the [Count] trait

    The plain data of [crates/gabion/src/crdt.rs]: cell identities, handles,
    the rows of the delta and expiration channels, rejections, statistics, and
    the count-width abstraction [Count] with its three implementations. *)

From S2P Require Import Prelude.

(** [KeyHash] and [NodeId] are newtypes over [u128]; [RuleSlot] and [NodeSlot]
    are [u16]; [BucketEpoch] and [Incarnation] are [u32]. *)
Abbreviation KeyHash := Z (only parsing).
Abbreviation NodeId := Z (only parsing).
Abbreviation RuleSlot := Z (only parsing).
Abbreviation NodeSlot := Z (only parsing).
Abbreviation BucketEpoch := Z (only parsing).
Abbreviation Incarnation := Z (only parsing).

Record NodeIdentity := {
  node_id : NodeId;
  ni_incarnation : Incarnation;
}.
#[export] Instance NodeIdentity_eq_dec : EqDecision NodeIdentity.
Proof. solve_decision. Defined.

(** Interned counter identity, local to one process. *)
Record CompactCellKey := {
  ck_rule : RuleSlot;
  ck_key_hash : KeyHash;
  ck_bucket : BucketEpoch;
  ck_origin : NodeSlot;
  ck_incarnation : Incarnation;
}.
#[export] Instance CompactCellKey_eq_dec : EqDecision CompactCellKey.
Proof. solve_decision. Defined.

(** Portable cell identity at the aggregate-store boundary. *)
Record CellIdentity := {
  rule_fingerprint : Z;
  key_hash : KeyHash;
  bucket : BucketEpoch;
}.
#[export] Instance CellIdentity_eq_dec : EqDecision CellIdentity.
Proof. solve_decision. Defined.
#[export] Instance CellIdentity_countable : Countable CellIdentity.
Proof.
  apply (inj_countable'
    (λ c, (rule_fingerprint c, key_hash c, bucket c))
    (λ x, {| rule_fingerprint := x.1.1; key_hash := x.1.2; bucket := x.2 |})).
  by intros [].
Defined.

Record CellHandle := {
  h_index : Z;
  h_generation : Z;
}.
#[export] Instance CellHandle_eq_dec : EqDecision CellHandle.
Proof. solve_decision. Defined.

Definition CellHandle_default : CellHandle := {| h_index := 0; h_generation := 0 |}.

Record CellDelta := {
  d_handle : CellHandle;
  d_key : CellIdentity;
  d_previous_count : Z;
  d_current_count : Z;
  d_delta : Z;
  d_applies_locally : bool;
}.

Record CellExpiration := {
  e_handle : CellHandle;
  e_key : CellIdentity;
  e_last_count : Z;
  e_last_update_millis : Z;
  e_applies_locally : bool;
}.

Record UpdateOutcome := {
  uo_handle : CellHandle;
  uo_changed : bool;
  uo_delta : option CellDelta;
}.

Record CellRow := {
  cr_handle : CellHandle;
  cr_key : CompactCellKey;
  cr_count : Z;
  cr_last_update_millis : Z;
  cr_origin_sequence : Z;
}.

Inductive InsertReject := CellStoreFull | RuleDictionaryFull | NodeDictionaryFull.

Record CellStoreStats := {
  active_cells : Z;
  cell_capacity_stat : Z;
  rule_slots_used : Z;
  rule_slots_capacity : Z;
  node_slots_used : Z;
  node_slots_capacity : Z;
  stat_cell_store_full_rejects : Z;
  stat_rule_dictionary_full_rejects : Z;
  stat_node_dictionary_full_rejects : Z;
}.

Record CellStoreConfig := {
  cell_capacity : Z;
  rule_dictionary_capacity : Z;
  node_dictionary_capacity : Z;
  local_dirty_capacity : Z;
  forwarded_dirty_capacity : Z;
  peer_capacity : Z;
}.

Definition CellStoreConfig_default : CellStoreConfig := {|
  cell_capacity := 256;
  rule_dictionary_capacity := 32;
  node_dictionary_capacity := 32;
  local_dirty_capacity := 64;
  forwarded_dirty_capacity := 64;
  peer_capacity := 16;
|}.

(** ** The [Count] trait

    A count column is monomorphised to one width; the operations are the
    trait's, [count_size] is [std::mem::size_of::<C>()]. *)
Class Count := {
  count_MAX : Z;
  count_size : Z;
  saturating_from_u64 : Z → Z;
  saturating_add_hits : Z → Z → Z;
  saturating_delta : Z → Z → Z;
}.

Definition Count_u16 : Count := {|
  count_MAX := U16_MAX;
  count_size := 2;
  saturating_from_u64 value := as_u16 (Z.min value U16_MAX);
  saturating_add_hits self hits :=
    let sum := saturating_add 64 self hits in
    as_u16 (Z.min sum U16_MAX);
  saturating_delta new old := saturating_sub new old;
|}.

Definition Count_u32 : Count := {|
  count_MAX := U32_MAX;
  count_size := 4;
  saturating_from_u64 value := as_u32 (Z.min value U32_MAX);
  saturating_add_hits self hits :=
    let sum := saturating_add 64 self hits in
    as_u32 (Z.min sum U32_MAX);
  saturating_delta new old := saturating_sub new old;
|}.

Definition Count_u64 : Count := {|
  count_MAX := U64_MAX;
  count_size := 8;
  saturating_from_u64 value := value;
  saturating_add_hits self hits := saturating_add 64 self hits;
  saturating_delta new old := saturating_sub new old;
|}.

(** What the rest of the crate relies on in an implementation of [Count]. *)
Class CountLaws `(C : Count) := {
  count_MAX_bounds : 0 < count_MAX ≤ U64_MAX;
  count_MAX_size : count_MAX = 2 ^ (8 * count_size) - 1;
  count_size_bounds : 0 < count_size ≤ 8;
  saturating_from_u64_min v :
    0 ≤ v ≤ U64_MAX → saturating_from_u64 v = Z.min v count_MAX;
  saturating_add_hits_min c h :
    0 ≤ c ≤ count_MAX → 0 ≤ h ≤ U64_MAX →
    saturating_add_hits c h = Z.min (c + h) count_MAX;
  saturating_delta_sub a b : saturating_delta a b = Z.max 0 (a - b);
}.

#[export] Instance Count_u16_laws : CountLaws Count_u16.
Proof.
  split; simpl; unfold saturating_add, saturating_sub, as_u16, U16_MAX, U64_MAX in *;
    try lia; intros; rewrite Z.mod_small; lia.
Qed.
#[export] Instance Count_u32_laws : CountLaws Count_u32.
Proof.
  split; simpl; unfold saturating_add, saturating_sub, as_u32, U32_MAX, U64_MAX in *;
    try lia; intros; rewrite Z.mod_small; lia.
Qed.
#[export] Instance Count_u64_laws : CountLaws Count_u64.
Proof.
  split; simpl; unfold saturating_add, saturating_sub, U64_MAX in *; lia.
Qed.
