(* ===== verification/Hash.v ===== *)
(** * Hash mixers

    [crates/gabion/src/crdt/hash.rs]: the 64-bit finaliser [mix64] and the
    three identity hashes built on it.  [mix64] is shown to be a bijection of
    [u64], so the mixer itself never adds collisions. *)

From S2P Require Import Prelude Types.

Definition mix64 (h : Z) : Z :=
  let h := Z.lxor h (Z.shiftr h 33) in
  let h := wrapping_mul 64 h 0xff51afd7ed558ccd in
  let h := Z.lxor h (Z.shiftr h 33) in
  let h := wrapping_mul 64 h 0xc4ceb9fe1a85ec53 in
  Z.lxor h (Z.shiftr h 33).

Definition hash_compact_cell_key (key : CompactCellKey) : Z :=
  let lo := as_u64 (ck_key_hash key) in
  let hi := as_u64 (Z.shiftr (ck_key_hash key) 64) in
  let pack_a :=
    Z.lor (Z.lor (ck_rule key) (Z.shiftl (ck_origin key) 16))
          (Z.shiftl (ck_bucket key) 32) in
  let pack_b := ck_incarnation key in
  Z.lxor (mix64 (Z.lxor lo pack_a))
         (mix64 (wrapping_add 64 (wrapping_add 64 hi pack_b) 0x9E3779B97F4A7C15)).

Definition hash_fingerprint (fingerprint : Z) : Z :=
  let lo := as_u64 fingerprint in
  let hi := as_u64 (Z.shiftr fingerprint 64) in
  Z.lxor (mix64 lo) (mix64 (wrapping_add 64 hi 0x517CC1B727220A95)).

Definition hash_node_identity (node_id : NodeId) (incarnation : Incarnation) : Z :=
  let lo := as_u64 node_id in
  let hi := as_u64 (Z.shiftr node_id 64) in
  Z.lxor (mix64 (Z.lxor lo incarnation)) (mix64 (wrapping_add 64 hi 0xBF58476D1CE4E5B9)).

(** ** [mix64] is a bijection of [u64] *)

Definition xorshift33 (h : Z) : Z := Z.lxor h (Z.shiftr h 33).

(** The inverse: the two odd multipliers have inverses modulo [2^64], and the
    shift by 33 is its own inverse because a second one shifts everything out. *)
Definition unmix64 (h : Z) : Z :=
  let h := xorshift33 h in
  let h := wrapping_mul 64 h 11291846944257947611 in
  let h := xorshift33 h in
  let h := wrapping_mul 64 h 5725274745694666757 in
  xorshift33 h.

Lemma uint_testbit_high w z i : uint w z → w ≤ i → Z.testbit z i = false.
Proof.
  intros [H0 H1] Hi. destruct (decide (z = 0)) as [->|]; [apply Z.bits_0|].
  apply Z.bits_above_log2; [done|]. eapply Z.lt_le_trans; [|exact Hi].
  apply Z.log2_lt_pow2; lia.
Qed.

Lemma testbit_high_uint w z :
  0 ≤ w → 0 ≤ z → (∀ i, w ≤ i → Z.testbit z i = false) → uint w z.
Proof.
  intros Hw Hz H. split; [done|].
  destruct (Z.lt_ge_cases z (2 ^ w)) as [|Hge]; [done|].
  assert (0 < z) by (pose proof (Z.pow_pos_nonneg 2 w); lia).
  assert (w ≤ Z.log2 z) by (by apply Z.log2_le_pow2).
  pose proof (Z.bit_log2 z ltac:(done)) as Hbit. by rewrite H in Hbit.
Qed.

Lemma uint_lxor w a b : 0 ≤ w → uint w a → uint w b → uint w (Z.lxor a b).
Proof.
  intros Hw Ha Hb. apply testbit_high_uint; [done| |].
  - apply Z.lxor_nonneg. destruct Ha, Hb. lia.
  - intros i Hi. by rewrite Z.lxor_spec, !(uint_testbit_high w) by done.
Qed.

Lemma uint_shiftr w a n : 0 ≤ n → 0 ≤ w → uint w a → uint w (Z.shiftr a n).
Proof.
  intros Hn Hw Ha. apply testbit_high_uint; [done| |].
  - apply Z.shiftr_nonneg. by destruct Ha.
  - intros i Hi. rewrite Z.shiftr_spec by lia. apply (uint_testbit_high w); [done|lia].
Qed.

Lemma uint_wrapping_mul w a b : 0 ≤ w → uint w (wrapping_mul w a b).
Proof. intros. apply Z.mod_pos_bound. apply Z.pow_pos_nonneg; lia. Qed.

Lemma xorshift33_range h : uint 64 h → uint 64 (xorshift33 h).
Proof. intros. apply uint_lxor; [lia|done|]. by apply uint_shiftr. Qed.

Lemma xorshift33_involutive h : uint 64 h → xorshift33 (xorshift33 h) = h.
Proof.
  intros Hh. apply Z.bits_inj'. intros i Hi. unfold xorshift33.
  rewrite !Z.lxor_spec, !Z.shiftr_spec, !Z.lxor_spec, Z.shiftr_spec by lia.
  rewrite (uint_testbit_high 64 h (i + 33 + 33)) by (done || lia).
  by destruct (Z.testbit h i), (Z.testbit h (i + 33)).
Qed.

Lemma wrapping_mul_inverse c c' h :
  (c * c') mod 2 ^ 64 = 1 → uint 64 h →
  wrapping_mul 64 (wrapping_mul 64 h c) c' = h.
Proof.
  intros Hc Hh. unfold wrapping_mul. rewrite Z.mul_mod_idemp_l by lia.
  rewrite <- Z.mul_assoc, <- Z.mul_mod_idemp_r by lia. rewrite Hc, Z.mul_1_r.
  by apply Z.mod_small.
Qed.

Lemma mix64_range h : uint 64 h → uint 64 (mix64 h).
Proof.
  intros. unfold mix64. apply (xorshift33_range (wrapping_mul _ _ _)).
  by apply uint_wrapping_mul.
Qed.

Lemma unmix64_mix64 h : uint 64 h → unmix64 (mix64 h) = h.
Proof.
  intros Hh. unfold unmix64.
  change (mix64 h) with
    (xorshift33 (wrapping_mul 64 (xorshift33 (wrapping_mul 64 (xorshift33 h)
       0xff51afd7ed558ccd)) 0xc4ceb9fe1a85ec53)).
  rewrite xorshift33_involutive by (by apply uint_wrapping_mul).
  rewrite wrapping_mul_inverse;
    [|done|apply xorshift33_range; by apply uint_wrapping_mul].
  rewrite xorshift33_involutive by (by apply uint_wrapping_mul).
  rewrite wrapping_mul_inverse by (done || by apply xorshift33_range).
  by apply xorshift33_involutive.
Qed.

Lemma mix64_unmix64 h : uint 64 h → mix64 (unmix64 h) = h.
Proof.
  intros Hh. unfold unmix64.
  change (mix64 ?x) with
    (xorshift33 (wrapping_mul 64 (xorshift33 (wrapping_mul 64 (xorshift33 x)
       0xff51afd7ed558ccd)) 0xc4ceb9fe1a85ec53)).
  rewrite xorshift33_involutive by (by apply uint_wrapping_mul).
  rewrite wrapping_mul_inverse;
    [|done|apply xorshift33_range; by apply uint_wrapping_mul].
  rewrite xorshift33_involutive by (by apply uint_wrapping_mul).
  rewrite wrapping_mul_inverse by (done || by apply xorshift33_range).
  by apply xorshift33_involutive.
Qed.

(** The finalizer [mix64] is a bijection on 64-bit words: it loses no hash
    bits, and its inverse is the five steps run backwards with the
    multiplicative inverses of its constants. *)
Theorem mix64_bijective h :
  uint 64 h → uint 64 (mix64 h) ∧ unmix64 (mix64 h) = h ∧ mix64 (unmix64 h) = h.
Proof. intros Hh. auto using mix64_range, unmix64_mix64, mix64_unmix64. Qed.

Lemma mix64_bijective_witness : uint 64 (mix64 1) ∧ unmix64 (mix64 1) = 1 ∧ mix64 (unmix64 1) = 1.
Proof. apply mix64_bijective. unfold uint. lia. Defined.
