(* ===== verification/Index.v ===== *)
(** * The Robin Hood hash index

    [crates/gabion/src/crdt/index.rs]: open addressing over a power-of-two
    table of [(hash, slot_index)] pairs, Robin Hood displacement on insert,
    backshift deletion.  [CellIndex] holds the data and the operations;
    the theorems show that the table represents a finite map from slot index
    to hash, and that [find], [insert_unchecked] and [remove] are lookup,
    insertion and deletion in that map, with no panic and within the fuel
    [capacity] given to each loop. *)

From S2P Require Import Prelude.

Module CellIndex.

Definition EMPTY_INDEX_SLOT : Z := U32_MAX.

Record t := mk {
  slot_indexes : list Z;
  hashes : list Z;
  len : Z;
  capacity : Z;
  mask : Z;
}.

#[global] Instance eta_t : Eta t := λ x,
  mk (slot_indexes x) (hashes x) (len x) (capacity x) (mask x).

Definition with_capacity (cap : Z) : option t :=
  assert_ (0 <? cap);;
  assert_ (is_power_of_two cap);;
  Some {|
    slot_indexes := replicate (Z.to_nat cap) EMPTY_INDEX_SLOT;
    hashes := replicate (Z.to_nat cap) 0;
    len := 0;
    capacity := cap;
    mask := cap - 1;
  |}.

Definition is_empty (self : t) : bool := len self =? 0.

Definition probe_distance (self : t) (slot hash : Z) : Z :=
  let ideal := Z.land (as_u32 hash) (mask self) in
  Z.land (wrapping_sub 32 slot ideal) (mask self).

(** The body of [find]'s loop; [eq] may itself index a slice. *)
Fixpoint find_loop (fuel : nat) (self : t) (hash : Z) (eq : Z → option bool)
    (slot dist : Z) : option (option Z) :=
  match fuel with
  | O => None
  | S fuel =>
    stored_slot ← zget (slot_indexes self) slot;
    if stored_slot =? EMPTY_INDEX_SLOT then Some None else
    stored_hash ← zget (hashes self) slot;
    let stored_dist := probe_distance self slot stored_hash in
    if stored_dist <? dist then Some None else
    hit ← (if stored_hash =? hash then eq stored_slot else Some false);
    if (hit : bool) then Some (Some stored_slot) else
    slot1 ← checked 32 (slot + 1);
    dist ← checked 32 (dist + 1);
    if dist =? capacity self then Some None else
    find_loop fuel self hash eq (Z.land slot1 (mask self)) dist
  end.

Definition find (self : t) (hash : Z) (eq : Z → option bool) : option (option Z) :=
  if len self =? 0 then Some None else
  find_loop (Z.to_nat (capacity self)) self hash eq
    (Z.land (as_u32 hash) (mask self)) 0.

Fixpoint insert_loop (fuel : nat) (self : t) (slot cur_hash cur_slot_idx cur_dist : Z) :
    option t :=
  match fuel with
  | O => None
  | S fuel =>
    existing ← zget (slot_indexes self) slot;
    if existing =? EMPTY_INDEX_SLOT then
      si ← zset (slot_indexes self) slot cur_slot_idx;
      hs ← zset (hashes self) slot cur_hash;
      n ← checked 32 (len self + 1);
      Some (self <| slot_indexes := si |> <| hashes := hs |> <| len := n |>)
    else
    existing_hash ← zget (hashes self) slot;
    let existing_dist := probe_distance self slot existing_hash in
    slot1 ← checked 32 (slot + 1);
    if existing_dist <? cur_dist then
      (* Steal: place ours here, continue moving the displaced entry. *)
      hs ← zset (hashes self) slot cur_hash;
      si ← zset (slot_indexes self) slot cur_slot_idx;
      cur_dist ← checked 32 (existing_dist + 1);
      assert_ (cur_dist <? capacity self);;
      insert_loop fuel (self <| hashes := hs |> <| slot_indexes := si |>)
        (Z.land slot1 (mask self)) existing_hash existing cur_dist
    else
      cur_dist ← checked 32 (cur_dist + 1);
      assert_ (cur_dist <? capacity self);;
      insert_loop fuel self (Z.land slot1 (mask self)) cur_hash cur_slot_idx cur_dist
  end.

Definition insert_unchecked (self : t) (hash slot_index : Z) : option t :=
  assert_ (negb (slot_index =? EMPTY_INDEX_SLOT));;
  assert_ (len self <? capacity self);;
  insert_loop (Z.to_nat (capacity self)) self
    (Z.land (as_u32 hash) (mask self)) hash slot_index 0.

Fixpoint backshift (fuel : nat) (self : t) (slot : Z) : option t :=
  match fuel with
  | O => None
  | S fuel =>
    slot1 ← checked 32 (slot + 1);
    let next := Z.land slot1 (mask self) in
    let clear_slot :=
      si ← zset (slot_indexes self) slot EMPTY_INDEX_SLOT;
      hs ← zset (hashes self) slot 0;
      Some (self <| slot_indexes := si |> <| hashes := hs |>) in
    next_slot_idx ← zget (slot_indexes self) next;
    if next_slot_idx =? EMPTY_INDEX_SLOT then clear_slot else
    next_hash ← zget (hashes self) next;
    if probe_distance self next next_hash =? 0 then clear_slot else
    si ← zset (slot_indexes self) slot next_slot_idx;
    hs ← zset (hashes self) slot next_hash;
    backshift fuel (self <| slot_indexes := si |> <| hashes := hs |>) next
  end.

Fixpoint remove_loop (fuel : nat) (self : t) (hash slot_index : Z) (slot dist : Z) :
    option t :=
  match fuel with
  | O => None
  | S fuel =>
    stored_slot ← zget (slot_indexes self) slot;
    if stored_slot =? EMPTY_INDEX_SLOT then Some self else
    stored_hash ← zget (hashes self) slot;
    let stored_dist := probe_distance self slot stored_hash in
    if stored_dist <? dist then Some self else
    if (stored_hash =? hash) && (stored_slot =? slot_index) then
      self ← backshift (Z.to_nat (capacity self)) self slot;
      n ← checked 32 (len self - 1);
      Some (self <| len := n |>)
    else
    slot1 ← checked 32 (slot + 1);
    dist ← checked 32 (dist + 1);
    if dist =? capacity self then Some self else
    remove_loop fuel self hash slot_index (Z.land slot1 (mask self)) dist
  end.

Definition remove (self : t) (hash slot_index : Z) : option t :=
  if len self =? 0 then Some self else
  remove_loop (Z.to_nat (capacity self)) self hash slot_index
    (Z.land (as_u32 hash) (mask self)) 0.

Definition clear (self : t) : t :=
  self <| slot_indexes := (λ _, EMPTY_INDEX_SLOT) <$> slot_indexes self |>
       <| hashes := (λ _, 0) <$> hashes self |>
       <| len := 0 |>.

(** [max_probe_distance]: a scan of the whole table. *)
Definition max_probe_distance (self : t) : option Z :=
  for_each (zrange 0 (capacity self)) 0 (λ max slot,
    stored ← zget (slot_indexes self) slot;
    if stored =? EMPTY_INDEX_SLOT then Some max else
    h ← zget (hashes self) slot;
    let d := probe_distance self slot h in
    Some (if max <? d then d else max)).

(** ** Circular arithmetic on table positions *)

Definition next_pos (cap p : Z) : Z := (p + 1) mod cap.
Definition dist (cap p h : Z) : Z := (p - h) mod cap.

Section circular.
Context (cap : Z) (Hcap : 0 < cap).

Lemma next_pos_range p : 0 ≤ next_pos cap p < cap.
Proof using Hcap. by apply Z.mod_pos_bound. Qed.

Lemma dist_range p h : 0 ≤ dist cap p h < cap.
Proof using Hcap. by apply Z.mod_pos_bound. Qed.

Lemma dist_next p h :
  dist cap (next_pos cap p) h =
  if decide (dist cap p h + 1 = cap) then 0 else dist cap p h + 1.
Proof using Hcap.
  unfold dist, next_pos. rewrite Zminus_mod_idemp_l.
  replace (p + 1 - h) with ((p - h) + 1) by lia.
  rewrite <- Zplus_mod_idemp_l. pose proof (Z.mod_pos_bound (p - h) cap Hcap).
  case_decide as E.
  - rewrite E. by rewrite Z.mod_same by lia.
  - rewrite Z.mod_small; lia.
Qed.

Lemma dist_home p h : dist cap ((h + p) mod cap) h = p mod cap.
Proof using Hcap.
  unfold dist. rewrite Zminus_mod_idemp_l. f_equal. lia.
Qed.

Lemma home_dist p h : 0 ≤ p < cap → (h + dist cap p h) mod cap = p.
Proof using Hcap.
  intros. unfold dist. rewrite Zplus_mod_idemp_r.
  replace (h + (p - h)) with p by lia. by apply Z.mod_small.
Qed.

Lemma next_pos_home j h :
  next_pos cap ((h + j) mod cap) = (h + (j + 1)) mod cap.
Proof using Hcap.
  unfold next_pos. rewrite Zplus_mod_idemp_l. f_equal. lia.
Qed.

Lemma next_pos_inj p q :
  0 ≤ p < cap → 0 ≤ q < cap → next_pos cap p = next_pos cap q → p = q.
Proof using Hcap.
  intros Hp Hq Heq. unfold next_pos in Heq.
  destruct (decide (p + 1 = cap)) as [E1|], (decide (q + 1 = cap)) as [E2|];
    rewrite ?E1, ?E2, ?Z.mod_same, ?(Z.mod_small (p + 1)), ?(Z.mod_small (q + 1)) in Heq;
    lia.
Qed.

Lemma next_pos_ne p : 1 < cap → 0 ≤ p < cap → next_pos cap p ≠ p.
Proof using Hcap.
  intros ? Hp. unfold next_pos.
  destruct (decide (p + 1 = cap)) as [E|].
  - rewrite E, Z.mod_same by lia. lia.
  - rewrite Z.mod_small by lia. lia.
Qed.

(** Moving towards [e]: the remaining distance drops by one. *)
Lemma dist_towards e p :
  0 ≤ p < cap → 0 ≤ e < cap → p ≠ e →
  dist cap e (next_pos cap p) = dist cap e p - 1.
Proof using Hcap.
  intros Hp He Hne. unfold dist, next_pos. rewrite Zminus_mod_idemp_r.
  destruct (decide (p < e)).
  - rewrite !Z.mod_small by lia. lia.
  - rewrite <- (Z.mod_add (e - p) 1), <- (Z.mod_add (e - (p + 1)) 1) by lia.
    rewrite !Z.mod_small by lia. lia.
Qed.
End circular.

(** ** The Robin Hood invariant

    [T p] is the entry at position [p].  An entry away from its home has an
    occupied predecessor whose own displacement is at most one less. *)
Definition robin_hood (cap : Z) (T : Z → option (Z * Z)) : Prop :=
  ∀ p h s, 0 ≤ p < cap → T (next_pos cap p) = Some (h, s) →
    0 < dist cap (next_pos cap p) h →
    ∃ h' s', T p = Some (h', s') ∧ dist cap (next_pos cap p) h ≤ dist cap p h' + 1.

Section robin_hood.
Context (cap : Z) (Hcap : 0 < cap) (T : Z → option (Z * Z)).
Context (HRH : robin_hood cap T).

(** Every probe position between an entry's home and the entry is occupied by
    an entry at least as far from its own home. *)
Lemma robin_hood_chain q h s j :
  0 ≤ q < cap → T q = Some (h, s) → 0 ≤ j ≤ dist cap q h →
  ∃ h' s', T ((h + j) mod cap) = Some (h', s') ∧ j ≤ dist cap ((h + j) mod cap) h'.
Proof using Hcap HRH.
  intros Hq Hqs Hj.
  remember (Z.to_nat (dist cap q h - j)) as n eqn:Hn.
  revert j Hj Hn. induction n as [|n IH]; intros j Hj Hn.
  { assert (j = dist cap q h) as -> by lia. rewrite home_dist by done.
    exists h, s. split; [done|]. lia. }
  destruct (IH (j + 1)) as (h1 & s1 & H1 & Hd1); [lia..|].
  rewrite <- next_pos_home in H1, Hd1 by done.
  destruct (HRH ((h + j) mod cap) h1 s1) as (h2 & s2 & H2 & Hd2);
    [by apply Z.mod_pos_bound|done|lia|].
  exists h2, s2. split; [done|]. lia.
Qed.

(** With a vacant position, no displacement reaches [cap - 1]. *)
Lemma robin_hood_dist_bound e q h s :
  0 ≤ e < cap → T e = None → 0 ≤ q < cap → T q = Some (h, s) →
  dist cap q h + 1 < cap.
Proof using Hcap HRH.
  intros He HeN Hq Hqs. pose proof (dist_range cap Hcap q h).
  pose proof (dist_range cap Hcap e h).
  destruct (decide (dist cap q h + 1 = cap)); [|lia].
  destruct (robin_hood_chain q h s (dist cap e h)) as (h' & s' & Hn & _); [done..|lia|].
  rewrite home_dist in Hn by done. congruence.
Qed.
End robin_hood.

(** Point update of a table. *)
Definition table_set (T : Z → option (Z * Z)) (p : Z) (v : option (Z * Z)) :
    Z → option (Z * Z) :=
  λ q, if decide (q = p) then v else T q.

Lemma table_set_eq T p v : table_set T p v p = v.
Proof. unfold table_set. by rewrite decide_True. Qed.
Lemma table_set_ne T p q v : q ≠ p → table_set T p v q = T q.
Proof. intros. unfold table_set. by rewrite decide_False. Qed.

Section robin_hood_update.
Context (cap : Z) (Hcap : 1 < cap) (T : Z → option (Z * Z)).
Context (HRH : robin_hood cap T).

(** An entry [(ch, cs)] may be placed at [slot] when it is home there or the
    predecessor is at most one step less displaced. *)
Definition placeable (slot ch : Z) : Prop :=
  0 < dist cap slot ch →
  ∀ p, 0 ≤ p < cap → next_pos cap p = slot →
    ∃ h' s', T p = Some (h', s') ∧ dist cap slot ch ≤ dist cap p h' + 1.

Lemma robin_hood_place slot ch cs :
  0 ≤ slot < cap → placeable slot ch →
  (∀ h s, T (next_pos cap slot) = Some (h, s) →
     dist cap (next_pos cap slot) h ≤ dist cap slot ch + 1) →
  robin_hood cap (table_set T slot (Some (ch, cs))).
Proof using HRH Hcap.
  intros Hslot Hpl Hnext p h s Hp Hat Hd.
  destruct (decide (next_pos cap p = slot)) as [E|E].
  - rewrite E, table_set_eq in Hat. injection Hat as <- <-.
    destruct (Hpl ltac:(by rewrite <- E) p Hp E) as (h' & s' & H1 & H2).
    exists h', s'. rewrite E. split; [|done].
    rewrite table_set_ne; [done|]. intros ->. apply next_pos_ne in E; lia.
  - rewrite table_set_ne in Hat by done.
    destruct (decide (p = slot)) as [->|].
    + exists ch, cs. rewrite table_set_eq. split; [done|]. eauto.
    + destruct (HRH p h s) as (h' & s' & ? & ?); [done..|].
      exists h', s'. by rewrite table_set_ne.
Qed.

(** Clearing [slot] is fine when the next position is vacant or home. *)
Lemma robin_hood_clear slot :
  0 ≤ slot < cap →
  (∀ h s, T (next_pos cap slot) = Some (h, s) → dist cap (next_pos cap slot) h = 0) →
  robin_hood cap (table_set T slot None).
Proof using HRH Hcap.
  intros Hslot Hnext p h s Hp Hat Hd.
  destruct (decide (next_pos cap p = slot)) as [E|E].
  { by rewrite E, table_set_eq in Hat. }
  rewrite table_set_ne in Hat by done.
  destruct (decide (p = slot)) as [->|].
  { apply Hnext in Hat. lia. }
  destruct (HRH p h s) as (h' & s' & ? & ?); [done..|].
  exists h', s'. by rewrite table_set_ne.
Qed.
End robin_hood_update.

(** ** Tables as finite maps

    A table represents the map from slot index to hash of its entries. *)
Record represents (cap : Z) (T : Z → option (Z * Z)) (m : gmap Z Z) : Prop := {
  rep_robin_hood : robin_hood cap T;
  rep_map s h : m !! s = Some h ↔ ∃ p, 0 ≤ p < cap ∧ T p = Some (h, s);
  rep_inj p q h h' s :
    0 ≤ p < cap → 0 ≤ q < cap → T p = Some (h, s) → T q = Some (h', s) → p = q;
}.

Lemma represents_ext cap T T' m :
  0 < cap → (∀ p, 0 ≤ p < cap → T p = T' p) → represents cap T m → represents cap T' m.
Proof.
  intros Hcap Heq [Hrh Hmap Hinj]. split.
  - intros p h s Hp. rewrite <- !Heq by (done || by apply next_pos_range). by apply Hrh.
  - intros s h. rewrite Hmap. split; intros (p & Hp & Hat); exists p;
      (split; [done|]); [by rewrite <- Heq|by rewrite Heq].
  - intros p q h h' s Hp Hq. rewrite <- !Heq by done. by apply Hinj.
Qed.

(** A table that represents fewer entries than it has positions has a vacancy. *)
Lemma represents_vacant cap T m :
  represents cap T m → Z.of_nat (size m) < cap →
  ∃ e, 0 ≤ e < cap ∧ T e = None.
Proof.
  intros [_ Hmap Hinj] Hsize.
  destruct (decide (Exists (λ p, T p = None) (zrange 0 cap))) as [He|He].
  { apply Exists_exists in He as (e & He & HN). apply elem_of_zrange in He. by exists e. }
  rewrite <- Forall_Exists_neg in He. rewrite Forall_forall in He.
  set (slots := (λ p, from_option snd 0 (T p)) <$> zrange 0 cap).
  assert (NoDup slots) as Hnd.
  { apply NoDup_fmap_2_strong; [|apply NoDup_zrange].
    intros p q Hp Hq. pose proof (He _ Hp). pose proof (He _ Hq).
    apply elem_of_zrange in Hp, Hq.
    destruct (T p) as [[h s]|] eqn:Ep, (T q) as [[h' s']|] eqn:Eq; try done.
    simpl. intros ->. by eapply Hinj. }
  assert (slots ⊆+ elements (dom m)) as Hsub.
  { apply NoDup_submseteq; [done|]. intros x (p & -> & Hp)%list_elem_of_fmap.
    pose proof (He _ Hp). apply elem_of_zrange in Hp. apply elem_of_elements, elem_of_dom.
    destruct (T p) as [[h s]|] eqn:Ep; [|done]. exists h. apply Hmap. eauto. }
  apply submseteq_length in Hsub. unfold slots in Hsub. rewrite length_fmap in Hsub.
  change (length (elements (dom m))) with (size (dom m)) in Hsub.
  rewrite size_dom in Hsub. pose proof (zlen_zrange 0 cap). unfold zlen in *. lia.
Qed.

(** Writing an entry over a position. *)
Lemma represents_place cap T m slot ch cs :
  1 < cap → represents cap T m → 0 ≤ slot < cap → m !! cs = None →
  placeable cap T slot ch →
  (∀ h s, T slot = Some (h, s) → dist cap slot h ≤ dist cap slot ch) →
  represents cap (table_set T slot (Some (ch, cs)))
    (<[cs := ch]> match T slot with Some (_, es) => delete es m | None => m end).
Proof.
  intros Hcap Hrep Hslot Hcs Hpl Hle. pose proof Hrep as [Hrh Hmap Hinj].
  assert (∀ p h, 0 ≤ p < cap → T p ≠ Some (h, cs)) as Hfresh.
  { intros p h Hp Hat. rewrite (proj2 (Hmap cs h)) in Hcs by eauto. done. }
  split.
  - apply robin_hood_place; [done..|]. intros h s Hat.
    destruct (decide (dist cap (next_pos cap slot) h = 0)) as [->|].
    { pose proof (dist_range cap ltac:(lia) slot ch). lia. }
    destruct (Hrh slot h s) as (h' & s' & Ho & Hd); [done..| |].
    { pose proof (dist_range cap ltac:(lia) (next_pos cap slot) h). lia. }
    apply Hle in Ho. lia.
  - intros s h. destruct (decide (s = cs)) as [->|Hne].
    + rewrite lookup_insert_eq. split.
      * intros [= <-]. exists slot. by rewrite table_set_eq.
      * intros (p & Hp & Hat). destruct (decide (p = slot)) as [->|].
        -- rewrite table_set_eq in Hat. congruence.
        -- rewrite table_set_ne in Hat by done. by apply Hfresh in Hat.
    + rewrite lookup_insert_ne by done. split.
      * intros Hm. assert (m !! s = Some h ∧ T slot ≠ Some (h, s)) as [Hm' Hns].
        { destruct (T slot) as [[eh es]|]; [|done].
          destruct (decide (es = s)) as [->|]; [by rewrite lookup_delete_eq in Hm|].
          rewrite lookup_delete_ne in Hm by done. split; [done|congruence]. }
        apply Hmap in Hm' as (p & Hp & Hat). exists p. split; [done|].
        rewrite table_set_ne; [done|congruence].
      * intros (p & Hp & Hat). destruct (decide (p = slot)) as [->|].
        { rewrite table_set_eq in Hat. congruence. }
        rewrite table_set_ne in Hat by done.
        assert (m !! s = Some h) as Hm by (apply Hmap; eauto).
        destruct (T slot) as [[eh es]|] eqn:Es; [|done].
        rewrite lookup_delete_ne; [done|]. intros ->.
        assert (p = slot) by (by eapply Hinj). done.
  - intros p q h h' s Hp Hq.
    destruct (decide (p = slot)) as [->|], (decide (q = slot)) as [->|];
      rewrite ?table_set_eq, ?table_set_ne by done; intros H1 H2; [done|..].
    + injection H1 as <- <-. by apply Hfresh in H2.
    + injection H2 as <- <-. by apply Hfresh in H1.
    + by eapply Hinj.
Qed.

(** ** The concrete table *)
Definition at_ (self : t) (p : Z) : option (Z * Z) :=
  match zget (slot_indexes self) p, zget (hashes self) p with
  | Some s, Some h => if s =? EMPTY_INDEX_SLOT then None else Some (h, s)
  | _, _ => None
  end.

Record shape (self : t) : Prop := {
  shape_cap : ∃ k, 1 ≤ k ≤ 31 ∧ capacity self = 2 ^ k;
  shape_mask : mask self = capacity self - 1;
  shape_slots : zlen (slot_indexes self) = capacity self;
  shape_hashes : zlen (hashes self) = capacity self;
}.

(** [rep self m]: the index is well formed and holds exactly the entries of [m],
    leaving at least one position vacant. *)
Record rep (self : t) (m : gmap Z Z) : Prop := {
  rep_shape : shape self;
  rep_entries : represents (capacity self) (at_ self) m;
  rep_len : len self = Z.of_nat (size m);
  rep_room : Z.of_nat (size m) < capacity self;
}.

Section shape.
Context (self : t) (Hsh : shape self).

Lemma shape_cap_bounds : 1 < capacity self ≤ 2 ^ 31.
Proof using Hsh.
  destruct (shape_cap _ Hsh) as (k & Hk & ->). split.
  - apply Z.pow_gt_1; lia.
  - apply Z.pow_le_mono_r; lia.
Qed.

Lemma land_mask x : Z.land x (mask self) = x mod capacity self.
Proof using Hsh.
  rewrite (shape_mask _ Hsh). destruct (shape_cap _ Hsh) as (k & Hk & ->).
  apply land_mask_mod. lia.
Qed.

Lemma home_mod h : Z.land (as_u32 h) (mask self) = h mod capacity self.
Proof using Hsh.
  rewrite land_mask. destruct (shape_cap _ Hsh) as (k & Hk & ->).
  apply mod_mod_pow. lia.
Qed.

Lemma probe_distance_dist slot h :
  probe_distance self slot h = dist (capacity self) slot h.
Proof using Hsh.
  unfold probe_distance, wrapping_sub. rewrite home_mod, land_mask.
  pose proof shape_cap_bounds. destruct (shape_cap _ Hsh) as (k & Hk & Ek).
  rewrite Ek. rewrite mod_mod_pow by lia. unfold dist. apply Zminus_mod_idemp_r.
Qed.

Lemma next_mod slot : Z.land (slot + 1) (mask self) = next_pos (capacity self) slot.
Proof using Hsh. apply land_mask. Qed.

Lemma at_read p :
  0 ≤ p < capacity self →
  ∃ s h, zget (slot_indexes self) p = Some s ∧ zget (hashes self) p = Some h ∧
         at_ self p = if s =? EMPTY_INDEX_SLOT then None else Some (h, s).
Proof using Hsh.
  intros Hp.
  destruct (zget_in_range (slot_indexes self) p) as [s Hs]; [by rewrite shape_slots|].
  destruct (zget_in_range (hashes self) p) as [h Hh]; [by rewrite shape_hashes|].
  exists s, h. unfold at_. by rewrite Hs, Hh.
Qed.
End shape.

(** The effect of writing both columns of one position. *)
Lemma at_write self slot s h p :
  shape self → 0 ≤ slot < capacity self →
  at_ (self <| slot_indexes := zupd (slot_indexes self) slot s |>
            <| hashes := zupd (hashes self) slot h |>) p =
  table_set (at_ self) slot (if s =? EMPTY_INDEX_SLOT then None else Some (h, s)) p.
Proof.
  intros Hsh Hslot. unfold at_. simpl.
  rewrite !zget_zupd by (rewrite ?shape_slots, ?shape_hashes by done; done).
  destruct (decide (slot = p)) as [->|].
  - by rewrite table_set_eq.
  - by rewrite table_set_ne.
Qed.

Lemma shape_write self slot s h :
  shape self →
  shape (self <| slot_indexes := zupd (slot_indexes self) slot s |>
              <| hashes := zupd (hashes self) slot h |>).
Proof. intros []. split; simpl; by rewrite ?zlen_zupd. Qed.

Lemma shape_len self n : shape self → shape (self <| len := n |>).
Proof. intros []. by split. Qed.

Lemma at_not_empty self p h s : at_ self p = Some (h, s) → s ≠ EMPTY_INDEX_SLOT.
Proof.
  unfold at_. destruct (zget (slot_indexes self) p); [|done].
  destruct (zget (hashes self) p); [|done].
  destruct (_ =? _) eqn:E; [done|]. intros [= <- <-]. lia.
Qed.

(** ** Probing *)

(** A probe that meets a vacant position, or an entry closer to its home than
    the probe is to its own, has passed every entry with the probed hash. *)
Lemma probe_miss cap T hash d p s :
  0 < cap → robin_hood cap T → 0 ≤ d →
  (∀ h' s', T ((hash + d) mod cap) = Some (h', s') →
     dist cap ((hash + d) mod cap) h' < d) →
  0 ≤ p < cap → T p = Some (hash, s) → dist cap p hash < d.
Proof.
  intros Hcap Hrh Hd Hstop Hp Hat.
  destruct (Z.lt_ge_cases (dist cap p hash) d) as [|Hge]; [done|].
  destruct (robin_hood_chain cap Hcap T Hrh p hash s d) as (h' & s' & H1 & H2); [done..|].
  apply Hstop in H1. lia.
Qed.

Section find.
Context (self : t) (m : gmap Z Z) (Hsh : shape self).
Context (Hrep : represents (capacity self) (at_ self) m).
Context (hash : Z) (eq : Z → option bool).
Context (Heq : ∀ s, m !! s = Some hash → ∃ b, eq s = Some b).

Definition find_post (r : option Z) : Prop :=
  match r with
  | Some s => m !! s = Some hash ∧ eq s = Some true
  | None => ∀ s, m !! s = Some hash → eq s = Some false
  end.

Lemma find_none d :
  (∀ j s, 0 ≤ j < d → at_ self ((hash + j) mod capacity self) = Some (hash, s) →
     eq s = Some false) →
  (∀ p s, 0 ≤ p < capacity self → at_ self p = Some (hash, s) →
     dist (capacity self) p hash < d) →
  find_post None.
Proof using Hrep Hsh.
  intros Hseen Hbelow s Hs. apply (rep_map _ _ _ Hrep) in Hs as (p & Hp & Hat).
  pose proof (shape_cap_bounds self Hsh).
  apply (Hseen (dist (capacity self) p hash)).
  - pose proof (dist_range (capacity self) ltac:(lia) p hash).
    pose proof (Hbelow p s Hp Hat). lia.
  - by rewrite home_dist by lia.
Qed.

Lemma find_loop_ok fuel d :
  0 ≤ d < capacity self → (Z.to_nat (capacity self - d) ≤ fuel)%nat →
  (∀ j s, 0 ≤ j < d → at_ self ((hash + j) mod capacity self) = Some (hash, s) →
     eq s = Some false) →
  ∃ r, find_loop fuel self hash eq ((hash + d) mod capacity self) d = Some r ∧
       find_post r.
Proof using Hsh Hrep Heq.
  pose proof (shape_cap_bounds self Hsh) as Hcap.
  revert d. induction fuel as [|fuel IH]; intros d Hd Hfuel Hseen; [lia|].
  set (slot := (hash + d) mod capacity self).
  assert (0 ≤ slot < capacity self) as Hslot by (apply Z.mod_pos_bound; lia).
  destruct (at_read self Hsh slot Hslot) as (s & h & Hs & Hh & Hat).
  cbn [find_loop]. rewrite Hs. simpl.
  destruct (s =? EMPTY_INDEX_SLOT) eqn:Hempty.
  { exists None. split; [done|]. eapply find_none; [done|]. intros p s' Hp Hp'.
    eapply probe_miss; [lia|apply Hrep|lia| |done..].
    fold slot. rewrite Hat. done. }
  rewrite Hh. simpl. rewrite probe_distance_dist by done.
  destruct (dist (capacity self) slot h <? d) eqn:Hdist.
  { exists None. split; [done|]. eapply find_none; [done|]. intros p s' Hp Hp'.
    eapply probe_miss; [lia|apply Hrep|lia| |done..].
    fold slot. rewrite Hat. intros h' s'' [= <- <-]. lia. }
  assert (h = hash → m !! s = Some hash) as Hin.
  { intros ->. apply (rep_map _ _ _ Hrep). eauto. }
  assert (∃ b, (if h =? hash then eq s else Some false) = Some b ∧
            (b = true → m !! s = Some hash ∧ eq s = Some true) ∧
            (b = false → h = hash → eq s = Some false)) as (b & -> & Ht & Hf).
  { destruct (h =? hash) eqn:E.
    - apply Z.eqb_eq in E. destruct (Heq s (Hin E)) as [[|] Hb]; rewrite Hb;
        eexists; (split; [done|]); split; intros; try done; eauto.
    - exists false. split; [done|]. split; [done|]. lia. }
  simpl. destruct b.
  { exists (Some s). split; [done|]. by apply Ht. }
  rewrite !checked_ok by lia. simpl. rewrite next_mod by done.
  assert (∀ j s', 0 ≤ j < d + 1 →
    at_ self ((hash + j) mod capacity self) = Some (hash, s') → eq s' = Some false) as Hseen'.
  { intros j s' Hj Hj'. destruct (decide (j = d)) as [->|]; [|apply (Hseen j); [lia|done]].
    fold slot in Hj'. rewrite Hat in Hj'. injection Hj' as -> ->. by apply Hf. }
  destruct (d + 1 =? capacity self) eqn:Hend.
  { exists None. split; [done|]. eapply find_none; [done|]. intros p s' _ _.
    pose proof (dist_range (capacity self) ltac:(lia) p hash). lia. }
  unfold slot. rewrite next_pos_home by lia. apply IH; [lia..|done].
Qed.
End find.

(** [find] returns an entry with the given hash that satisfies [eq] when the
    index holds one, and [None] when it holds none.  [eq] only has to be
    defined on the entries with that hash. *)
Lemma find_ok self m hash eq :
  rep self m →
  (∀ s, m !! s = Some hash → ∃ b, eq s = Some b) →
  ∃ r, find self hash eq = Some r ∧ find_post m hash eq r.
Proof.
  intros [Hsh Hrep Hlen Hroom] Heq. unfold find. pose proof (shape_cap_bounds _ Hsh).
  destruct (len self =? 0) eqn:E.
  { exists None. split; [done|]. intros s Hs. assert (size m = 0%nat) as Hsz by lia.
    apply map_size_empty_inv in Hsz as ->. done. }
  rewrite home_mod by done.
  replace (hash mod capacity self) with ((hash + 0) mod capacity self)
    by (by rewrite Z.add_0_r).
  apply find_loop_ok; [done..|lia|lia|]. intros. lia.
Qed.

(** ** Insertion *)

(** One probe step past an occupied position, while a vacancy remains. *)
Lemma occupied_step cap T m slot h s e :
  1 < cap → represents cap T m → 0 ≤ slot < cap → T slot = Some (h, s) →
  0 ≤ e < cap → T e = None →
  slot ≠ e ∧ dist cap slot h + 1 < cap ∧
  dist cap (next_pos cap slot) h = dist cap slot h + 1 ∧
  dist cap e (next_pos cap slot) = dist cap e slot - 1 ∧ 0 < dist cap e slot.
Proof.
  intros Hcap Hrep Hslot Hat He HeN.
  assert (slot ≠ e) as Hne by congruence.
  pose proof (robin_hood_dist_bound cap ltac:(lia) T (rep_robin_hood _ _ _ Hrep) e slot h s
                He HeN Hslot Hat).
  pose proof (dist_next cap ltac:(lia) slot h) as Hn. rewrite decide_False in Hn by lia.
  pose proof (dist_towards cap ltac:(lia) e slot Hslot He Hne).
  pose proof (dist_range cap ltac:(lia) e (next_pos cap slot)).
  split_and!; try done; lia.
Qed.

Lemma placeable_next cap T slot h s ch :
  1 < cap → 0 ≤ slot < cap → T slot = Some (h, s) →
  dist cap (next_pos cap slot) ch ≤ dist cap slot h + 1 →
  placeable cap T (next_pos cap slot) ch.
Proof.
  intros Hcap Hslot Hat Hle _ p Hp Heq. apply next_pos_inj in Heq as ->; [|lia..]. eauto.
Qed.

(** The entry in hand lands on a vacant position. *)
Lemma insert_vacant self m slot ch cs :
  shape self → represents (capacity self) (at_ self) m →
  m !! cs = None → cs ≠ EMPTY_INDEX_SLOT → 0 ≤ slot < capacity self →
  placeable (capacity self) (at_ self) slot ch → at_ self slot = None →
  represents (capacity self)
    (at_ (self <| slot_indexes := zupd (slot_indexes self) slot cs |>
               <| hashes := zupd (hashes self) slot ch |>))
    (<[cs := ch]> m).
Proof.
  intros Hsh Hrep Hcs Hcse Hslot Hpl Hat. pose proof (shape_cap_bounds self Hsh).
  eapply represents_ext; [lia|intros p Hp; symmetry; by apply at_write|].
  rewrite (proj2 (Z.eqb_neq _ _) Hcse).
  pose proof (represents_place (capacity self) _ m slot ch cs ltac:(lia) Hrep Hslot Hcs Hpl)
    as Hp.
  rewrite Hat in Hp. by apply Hp.
Qed.

(** The entry in hand takes the place of a less displaced one. *)
Lemma insert_steal self m slot ch cs h s :
  shape self → represents (capacity self) (at_ self) m →
  m !! cs = None → cs ≠ EMPTY_INDEX_SLOT → 0 ≤ slot < capacity self →
  placeable (capacity self) (at_ self) slot ch →
  at_ self slot = Some (h, s) → dist (capacity self) slot h < dist (capacity self) slot ch →
  let self1 := self <| hashes := zupd (hashes self) slot ch |>
                    <| slot_indexes := zupd (slot_indexes self) slot cs |> in
  let m1 := <[cs := ch]> (delete s m) in
  shape self1 ∧ represents (capacity self) (at_ self1) m1 ∧ m1 !! s = None ∧
  <[s := h]> m1 = <[cs := ch]> m ∧
  (∀ p, at_ self1 p = table_set (at_ self) slot (Some (ch, cs)) p).
Proof.
  intros Hsh Hrep Hcs Hcse Hslot Hpl Hat Hlt self1 m1.
  pose proof (shape_cap_bounds self Hsh).
  assert (m !! s = Some h) as Hms by (apply (rep_map _ _ _ Hrep); eauto).
  assert (s ≠ cs) by congruence.
  assert (∀ p, at_ self1 p = table_set (at_ self) slot (Some (ch, cs)) p) as Hat1.
  { intros p. pose proof (at_write self slot cs ch p Hsh Hslot) as Hw.
    by rewrite (proj2 (Z.eqb_neq _ _) Hcse) in Hw. }
  split; [exact (shape_write self slot cs ch Hsh)|]. split_and!; [|..|done].
  - eapply represents_ext; [lia|intros; symmetry; apply Hat1|].
    pose proof (represents_place (capacity self) _ m slot ch cs ltac:(lia) Hrep Hslot Hcs Hpl)
      as Hrep1.
    rewrite Hat in Hrep1. apply Hrep1. intros ? ? [= <- <-]. lia.
  - unfold m1. rewrite lookup_insert_ne by done. apply lookup_delete_eq.
  - unfold m1. rewrite insert_insert_ne by done.
    by rewrite insert_delete_eq, (insert_id m s h).
Qed.

Lemma insert_loop_ok self m fuel slot ch cs e :
  shape self → represents (capacity self) (at_ self) m →
  0 ≤ len self → len self + 1 < 2 ^ 32 →
  m !! cs = None → cs ≠ EMPTY_INDEX_SLOT →
  0 ≤ slot < capacity self → placeable (capacity self) (at_ self) slot ch →
  0 ≤ e < capacity self → at_ self e = None →
  (Z.to_nat (dist (capacity self) e slot) < fuel)%nat →
  ∃ self', insert_loop fuel self slot ch cs (dist (capacity self) slot ch) = Some self' ∧
    shape self' ∧ capacity self' = capacity self ∧ len self' = len self + 1 ∧
    represents (capacity self) (at_ self') (<[cs := ch]> m).
Proof.
  revert self m slot ch cs. induction fuel as [|fuel IH];
    intros self m slot ch cs Hsh Hrep Hlen Hlen' Hcs Hcse Hslot Hpl He HeN Hfuel; [lia|].
  pose proof (shape_cap_bounds self Hsh) as Hcap.
  destruct (at_read self Hsh slot Hslot) as (s & h & Hs & Hh & Hat).
  cbn [insert_loop]. rewrite Hs. simpl.
  rewrite !zset_ok by (rewrite ?shape_slots, ?shape_hashes by done; done).
  destruct (s =? EMPTY_INDEX_SLOT) eqn:Hempty.
  { simpl. rewrite checked_ok by lia. simpl. eexists. split; [done|].
    split; [by apply shape_len, (shape_write self slot cs ch)|]. do 2 (split; [done|]).
    exact (insert_vacant self m slot ch cs Hsh Hrep Hcs Hcse Hslot Hpl Hat). }
  rewrite Hh. simpl. rewrite (checked_ok 32 (slot + 1)) by lia. simpl.
  rewrite probe_distance_dist, next_mod by done.
  destruct (occupied_step (capacity self) _ m slot h s e ltac:(lia) Hrep Hslot Hat He HeN)
    as (Hne & Hdb & Hnh & Htow).
  pose proof (dist_range (capacity self) ltac:(lia) slot h).
  pose proof (dist_range (capacity self) ltac:(lia) slot ch).
  pose proof (next_pos_range (capacity self) ltac:(lia) slot).
  destruct (dist (capacity self) slot h <? dist (capacity self) slot ch) eqn:Hsteal.
  - rewrite checked_ok by lia. simpl. rewrite (proj2 (Z.ltb_lt _ _) Hdb). simpl.
    destruct (insert_steal self m slot ch cs h s) as (Hsh1 & Hrep1 & Hs1 & Hm1 & Hat1);
      try done; [lia|]. rewrite <- Hnh, <- Hm1.
    apply (IH _ _ (next_pos (capacity self) slot) h s Hsh1 Hrep1); try done; try (simpl; lia).
    + apply (placeable_next _ _ slot ch cs); [simpl; lia..|by rewrite Hat1, table_set_eq|].
      simpl. lia.
    + rewrite Hat1, table_set_ne; done.
  - pose proof (dist_next (capacity self) ltac:(lia) slot ch) as Hnch.
    rewrite decide_False in Hnch by lia. rewrite checked_ok by lia. simpl.
    replace (dist (capacity self) slot ch + 1 <? capacity self) with true by lia. simpl.
    rewrite <- Hnch. apply IH; try done; try lia.
    apply (placeable_next _ _ slot h s); [lia..|done|lia].
Qed.

(** [insert_unchecked] adds one entry; it needs a fresh slot index and room to
    keep one position vacant. *)
Lemma insert_ok self m hash s :
  rep self m → m !! s = None → s ≠ EMPTY_INDEX_SLOT →
  Z.of_nat (size m) + 1 < capacity self →
  ∃ self', insert_unchecked self hash s = Some self' ∧ rep self' (<[s := hash]> m) ∧
           capacity self' = capacity self.
Proof.
  intros [Hsh Hrep Hlen Hroom] Hs Hse Hroom'. unfold insert_unchecked.
  pose proof (shape_cap_bounds _ Hsh) as Hcap.
  rewrite (proj2 (Z.eqb_neq _ _) Hse). simpl.
  replace (len self <? capacity self) with true by lia. simpl.
  destruct (represents_vacant _ _ _ Hrep Hroom) as (e & He & HeN).
  assert (dist (capacity self) (hash mod capacity self) hash = 0) as Hhome.
  { pose proof (dist_home (capacity self) ltac:(lia) 0 hash) as Hd.
    rewrite Z.add_0_r in Hd. by rewrite Hd, Z.mod_0_l by lia. }
  rewrite home_mod by done. rewrite <- Hhome.
  assert (0 ≤ hash mod capacity self < capacity self) by (apply Z.mod_pos_bound; lia).
  destruct (insert_loop_ok self m (Z.to_nat (capacity self)) (hash mod capacity self)
              hash s e) as (self' & -> & ? & Hc & ? & ?); try done; try lia.
  - intros Hd. rewrite Hhome in Hd. lia.
  - pose proof (dist_range (capacity self) ltac:(lia) e (hash mod capacity self)). lia.
  - exists self'. split; [done|]. split; [|done].
    split; [done|by rewrite Hc| |]; rewrite map_size_insert_None by done; lia.
Qed.

(** ** Removal *)

(** While an entry is being removed, position [hole] holds a stale entry and
    the others hold the entries of [m]. *)
Record represents_hole (cap : Z) (T : Z → option (Z * Z)) (hole : Z) (m : gmap Z Z) :
    Prop := {
  hole_robin_hood : robin_hood cap T;
  hole_occupied : is_Some (T hole);
  hole_map s h :
    m !! s = Some h ↔ ∃ p, 0 ≤ p < cap ∧ p ≠ hole ∧ T p = Some (h, s);
  hole_inj p q h h' s :
    0 ≤ p < cap → 0 ≤ q < cap → p ≠ hole → q ≠ hole →
    T p = Some (h, s) → T q = Some (h', s) → p = q;
}.

Lemma represents_hole_start cap T m slot h0 s0 :
  represents cap T m → 0 ≤ slot < cap → T slot = Some (h0, s0) →
  represents_hole cap T slot (delete s0 m).
Proof.
  intros [Hrh Hmap Hinj] Hslot H0. split; [done|by eauto| |].
  - intros s h. destruct (decide (s = s0)) as [->|].
    + rewrite lookup_delete_eq. split; [done|].
      intros (p & Hp & Hne & Hat). destruct Hne.
      exact (Hinj _ _ _ _ _ Hp Hslot Hat H0).
    + rewrite lookup_delete_ne, Hmap by done. split.
      * intros (p & Hp & Hat). exists p. split; [done|]. split; [congruence|done].
      * intros (p & Hp & _ & Hat). eauto.
  - intros p q h h' s Hp Hq _ _. by apply Hinj.
Qed.

Lemma represents_hole_clear cap T m slot :
  1 < cap → represents_hole cap T slot m → 0 ≤ slot < cap →
  (∀ h s, T (next_pos cap slot) = Some (h, s) → dist cap (next_pos cap slot) h = 0) →
  represents cap (table_set T slot None) m.
Proof.
  intros Hcap [Hrh _ Hmap Hinj] Hslot Hnext. split.
  - by apply robin_hood_clear.
  - intros s h. rewrite Hmap. split.
    + intros (p & ? & ? & ?). exists p. by rewrite table_set_ne.
    + intros (p & ? & Hat). destruct (decide (p = slot)) as [->|].
      * by rewrite table_set_eq in Hat.
      * rewrite table_set_ne in Hat by done. eauto.
  - intros p q h h' s Hp Hq. unfold table_set. do 2 case_decide; try done.
    by apply Hinj.
Qed.

Lemma represents_hole_shift cap T m slot nh ns :
  1 < cap → represents_hole cap T slot m → 0 ≤ slot < cap →
  T (next_pos cap slot) = Some (nh, ns) → dist cap (next_pos cap slot) nh ≠ 0 →
  represents_hole cap (table_set T slot (Some (nh, ns))) (next_pos cap slot) m.
Proof.
  intros Hcap [Hrh [[oh os] Ho] Hmap Hinj] Hslot Hn Hnd.
  pose proof (next_pos_ne cap ltac:(lia) slot Hcap Hslot) as Hne.
  pose proof (next_pos_range cap ltac:(lia) slot) as Hnr.
  pose proof (dist_range cap ltac:(lia) (next_pos cap slot) nh).
  pose proof (dist_next cap ltac:(lia) slot nh) as Hdn. case_decide; [lia|].
  destruct (Hrh slot nh ns) as (? & ? & Ho' & Hle); [done..|lia|].
  rewrite Ho in Ho'. injection Ho' as <- <-. split.
  - apply robin_hood_place; [done..| |].
    + intros Hd p Hp <-.
      destruct (Hrh p oh os) as (h' & s' & ? & ?); [done..|lia|].
      exists h', s'. split; [done|lia].
    + intros h s. rewrite Hn. intros [= <- <-]. lia.
  - rewrite table_set_ne by done. eauto.
  - intros s h. rewrite Hmap. split.
    + intros (p & Hp & Hps & Hat). destruct (decide (p = next_pos cap slot)) as [->|].
      * exists slot. rewrite table_set_eq. split; [done|]. split; [done|congruence].
      * exists p. by rewrite table_set_ne.
    + intros (p & Hp & Hpn & Hat). destruct (decide (p = slot)) as [->|].
      * rewrite table_set_eq in Hat. injection Hat as <- <-. eauto.
      * rewrite table_set_ne in Hat by done. eauto.
  - intros p q h h' s Hp Hq Hpn Hqn. unfold table_set.
    destruct (decide (p = slot)), (decide (q = slot)); [congruence|..].
    + intros [= <- <-] Hq'. destruct Hqn.
      by apply (Hinj q (next_pos cap slot) h' nh ns).
    + intros Hp' [= <- <-]. destruct Hpn.
      by apply (Hinj p (next_pos cap slot) h nh ns).
    + by apply Hinj.
Qed.

Lemma backshift_ok self m fuel slot e :
  shape self → represents_hole (capacity self) (at_ self) slot m →
  0 ≤ slot < capacity self → 0 ≤ e < capacity self → at_ self e = None →
  (Z.to_nat (dist (capacity self) e slot) < fuel)%nat →
  ∃ self', backshift fuel self slot = Some self' ∧ shape self' ∧
    capacity self' = capacity self ∧ len self' = len self ∧
    represents (capacity self) (at_ self') m.
Proof.
  revert self slot. induction fuel as [|fuel IH]; intros self slot Hsh Hrep Hslot He HeN Hfuel;
    [lia|].
  pose proof (shape_cap_bounds self Hsh) as Hcap.
  pose proof (next_pos_range (capacity self) ltac:(lia) slot) as Hnr.
  assert (slot ≠ e) as Hne.
  { intros ->. destruct (hole_occupied _ _ _ _ Hrep). congruence. }
  destruct (at_read self Hsh _ Hnr) as (s & h & Hs & Hh & Hat).
  cbn [backshift]. rewrite checked_ok by lia. simpl. rewrite next_mod, Hs by done. simpl.
  rewrite !zset_ok by (rewrite ?shape_slots, ?shape_hashes by done; done). simpl.
  assert ((∀ h s, at_ self (next_pos (capacity self) slot) = Some (h, s) →
             dist (capacity self) (next_pos (capacity self) slot) h = 0) →
    ∃ self', Some (self <| slot_indexes := zupd (slot_indexes self) slot EMPTY_INDEX_SLOT |>
                        <| hashes := zupd (hashes self) slot 0 |>) = Some self' ∧
      shape self' ∧ capacity self' = capacity self ∧ len self' = len self ∧
      represents (capacity self) (at_ self') m) as Hclear.
  { intros Hcond. eexists. split; [done|]. split; [by apply shape_write|].
    do 2 (split; [done|]). eapply represents_ext; [lia| |].
    - intros p Hp. symmetry. by apply at_write.
    - rewrite Z.eqb_refl. by apply represents_hole_clear; [lia|..]. }
  destruct (s =? EMPTY_INDEX_SLOT) eqn:Hempty.
  { apply Hclear. intros h' s' Hat'. congruence. }
  rewrite Hh. simpl. rewrite probe_distance_dist by done.
  destruct (dist _ _ h =? 0) eqn:Hd.
  { apply Hclear. intros h' s'. rewrite Hat. intros [= <- <-]. lia. }
  rewrite !zset_ok by (rewrite ?shape_slots, ?shape_hashes by done; done). simpl.
  set (self1 := self <| slot_indexes := _ |> <| hashes := _ |>).
  assert (∀ p, at_ self1 p = table_set (at_ self) slot (Some (h, s)) p) as Hat1.
  { intros p. pose proof (at_write self slot s h p Hsh Hslot) as Hw. by rewrite Hempty in Hw. }
  pose proof (dist_towards (capacity self) ltac:(lia) e slot Hslot He Hne).
  pose proof (dist_range (capacity self) ltac:(lia) e (next_pos (capacity self) slot)).
  destruct (IH self1 (next_pos (capacity self) slot)) as (self' & Hb & ?); try done.
  - by apply shape_write.
  - pose proof (represents_hole_shift _ _ _ _ h s ltac:(apply Hcap) Hrep Hslot Hat ltac:(lia))
      as [Hrh Hocc Hmap Hinj].
    split.
    + intros p h' s' Hp. rewrite !Hat1. by apply Hrh.
    + by rewrite Hat1.
    + intros s' h'. rewrite Hmap. by setoid_rewrite Hat1.
    + intros p q h1 h2 s'. rewrite !Hat1. by apply Hinj.
  - rewrite Hat1, table_set_ne; done.
  - simpl. lia.
  - by exists self'.
Qed.

Section remove.
Context (self : t) (m : gmap Z Z) (Hrep : rep self m) (hash s0 : Z).

Definition remove_post (self' : t) : Prop :=
  rep self' (if decide (m !! s0 = Some hash) then delete s0 m else m) ∧
  capacity self' = capacity self.

Lemma remove_none d :
  (∀ j, 0 ≤ j < d → at_ self ((hash + j) mod capacity self) ≠ Some (hash, s0)) →
  (∀ p, 0 ≤ p < capacity self → at_ self p = Some (hash, s0) →
     dist (capacity self) p hash < d) →
  remove_post self.
Proof using Hrep.
  intros Hseen Hbelow. split; [|done]. rewrite decide_False; [done|]. intros Hm.
  destruct Hrep as [Hsh Hr _ _]. pose proof (shape_cap_bounds self Hsh).
  apply (rep_map _ _ _ Hr) in Hm as (p & Hp & Hat).
  apply (Hseen (dist (capacity self) p hash)).
  - pose proof (dist_range (capacity self) ltac:(lia) p hash).
    pose proof (Hbelow p Hp Hat). lia.
  - by rewrite home_dist by lia.
Qed.

Lemma remove_hit slot :
  0 ≤ slot < capacity self → at_ self slot = Some (hash, s0) →
  ∃ self', (self ← backshift (Z.to_nat (capacity self)) self slot;
            n ← checked 32 (len self - 1); Some (self <| len := n |>)) = Some self' ∧
    remove_post self'.
Proof using Hrep.
  intros Hslot Hat. destruct Hrep as [Hsh Hr Hlen Hroom].
  pose proof (shape_cap_bounds self Hsh).
  assert (m !! s0 = Some hash) as Hm by (apply (rep_map _ _ _ Hr); eauto).
  assert (size m ≠ 0%nat) by (intros Hz%map_size_empty_inv; by rewrite Hz in Hm).
  destruct (represents_vacant _ _ _ Hr Hroom) as (e & He & HeN).
  destruct (backshift_ok self (delete s0 m) (Z.to_nat (capacity self)) slot e)
    as (self' & -> & Hsh' & Hc & Hl & Hr'); try done.
  - by eapply represents_hole_start.
  - pose proof (dist_range (capacity self) ltac:(lia) e slot). lia.
  - simpl. rewrite checked_ok by lia. simpl. eexists. split; [done|].
    unfold remove_post. rewrite decide_True by done. split; [|done].
    assert (size (delete s0 m) = pred (size m)) as Hsz by (by eapply map_size_delete_Some).
    split; simpl; [by apply shape_len| |lia..]. by rewrite Hc.
Qed.

Lemma remove_loop_ok fuel d :
  0 ≤ d < capacity self → (Z.to_nat (capacity self - d) ≤ fuel)%nat →
  (∀ j, 0 ≤ j < d → at_ self ((hash + j) mod capacity self) ≠ Some (hash, s0)) →
  ∃ self', remove_loop fuel self hash s0 ((hash + d) mod capacity self) d = Some self' ∧
    remove_post self'.
Proof using Hrep.
  pose proof Hrep as [Hsh Hr Hlen Hroom]. pose proof (shape_cap_bounds self Hsh) as Hcap.
  revert d. induction fuel as [|fuel IH]; intros d Hd Hfuel Hseen; [lia|].
  set (slot := (hash + d) mod capacity self).
  assert (0 ≤ slot < capacity self) as Hslot by (apply Z.mod_pos_bound; lia).
  destruct (at_read self Hsh slot Hslot) as (s & h & Hs & Hh & Hat).
  cbn [remove_loop]. rewrite Hs. simpl.
  destruct (s =? EMPTY_INDEX_SLOT) eqn:Hempty.
  { exists self. split; [done|]. eapply remove_none; [done|]. intros p Hp Hp'.
    eapply probe_miss; [lia|apply Hr|lia| |done..]. fold slot. by rewrite Hat. }
  rewrite Hh. simpl. rewrite probe_distance_dist by done.
  destruct (dist (capacity self) slot h <? d) eqn:Hdist.
  { exists self. split; [done|]. eapply remove_none; [done|]. intros p Hp Hp'.
    eapply probe_miss; [lia|apply Hr|lia| |done..].
    fold slot. rewrite Hat. intros h' s'' [= <- <-]. lia. }
  destruct ((h =? hash) && (s =? s0)) eqn:Hhit.
  { apply remove_hit; [done|]. rewrite Hat. f_equal. f_equal; lia. }
  rewrite !checked_ok by lia. simpl. rewrite next_mod by done.
  assert (∀ j, 0 ≤ j < d + 1 →
    at_ self ((hash + j) mod capacity self) ≠ Some (hash, s0)) as Hseen'.
  { intros j Hj. destruct (decide (j = d)) as [->|]; [|apply (Hseen j); lia].
    fold slot. rewrite Hat. intros [= -> ->]. by rewrite !Z.eqb_refl in Hhit. }
  destruct (d + 1 =? capacity self) eqn:Hend.
  { exists self. split; [done|]. eapply remove_none; [done|]. intros p _ _.
    pose proof (dist_range (capacity self) ltac:(lia) p hash). lia. }
  unfold slot. rewrite next_pos_home by lia. apply IH; [lia..|done].
Qed.
End remove.

(** [remove] deletes the entry when the index holds it, and is a no-op when it
    does not. *)
Lemma remove_ok self m hash s :
  rep self m →
  ∃ self', remove self hash s = Some self' ∧
    rep self' (if decide (m !! s = Some hash) then delete s m else m) ∧
    capacity self' = capacity self.
Proof.
  intros Hrep. pose proof Hrep as [Hsh Hr Hlen Hroom]. unfold remove.
  pose proof (shape_cap_bounds _ Hsh).
  destruct (len self =? 0) eqn:E.
  { exists self. split; [done|]. split; [|done]. rewrite decide_False; [done|].
    assert (size m = 0%nat) as Hsz by lia. by apply map_size_empty_inv in Hsz as ->. }
  rewrite home_mod by done.
  replace (hash mod capacity self) with ((hash + 0) mod capacity self)
    by (by rewrite Z.add_0_r).
  apply remove_loop_ok; [done|lia..].
Qed.

(** An index built by [with_capacity] is empty. *)
Lemma index_with_capacity_ok k :
  1 ≤ k ≤ 31 → ∃ self, with_capacity (2 ^ k) = Some self ∧ rep self ∅ ∧
    capacity self = 2 ^ k.
Proof.
  intros Hk. pose proof (Z.pow_pos_nonneg 2 k). unfold with_capacity.
  rewrite is_power_of_two_pow by lia. replace (0 <? 2 ^ k) with true by lia. simpl.
  eexists. split; [done|]. split; [|done].
  assert (∀ p, 0 ≤ p < 2 ^ k → at_ (mk (replicate (Z.to_nat (2 ^ k)) EMPTY_INDEX_SLOT)
    (replicate (Z.to_nat (2 ^ k)) 0) 0 (2 ^ k) (2 ^ k - 1)) p = None) as Hat.
  { intros p Hp. unfold at_. simpl. by rewrite !zget_replicate by lia. }
  split; simpl.
  - split; simpl; [eauto|done|rewrite zlen_replicate; lia..].
  - split.
    + intros p h s Hp Hs. rewrite Hat in Hs; [done|]. apply next_pos_range; lia.
    + intros s h. rewrite lookup_empty. split; [done|]. intros (p & Hp & Hs).
      by rewrite Hat in Hs.
    + intros p q h h' s Hp Hq Hs. by rewrite Hat in Hs.
  - done.
  - rewrite map_size_empty. lia.
Qed.

(** ** Sequences of insertions and removals *)
Inductive index_op :=
  | OpInsert (hash slot : Z)
  | OpRemove (hash slot : Z).

Definition exec_op (self : t) (o : index_op) : option t :=
  match o with
  | OpInsert hash slot => insert_unchecked self hash slot
  | OpRemove hash slot => remove self hash slot
  end.

(** The same operations on the map from slot to hash. *)
Definition map_op (m : gmap Z Z) (o : index_op) : gmap Z Z :=
  match o with
  | OpInsert hash slot => <[slot := hash]> m
  | OpRemove hash slot => if decide (m !! slot = Some hash) then delete slot m else m
  end.

(** What the caller owes: fresh slots, and one position left vacant. *)
Definition op_allowed (cap : Z) (m : gmap Z Z) (o : index_op) : bool :=
  match o with
  | OpInsert hash slot =>
    bool_decide (m !! slot = None) && negb (slot =? EMPTY_INDEX_SLOT) &&
    (Z.of_nat (size m) + 1 <? cap)
  | OpRemove _ _ => true
  end.
Fixpoint ops_allowed (cap : Z) (m : gmap Z Z) (os : list index_op) : bool :=
  match os with
  | [] => true
  | o :: os => op_allowed cap m o && ops_allowed cap (map_op m o) os
  end.

Lemma exec_op_ok self m o :
  rep self m → op_allowed (capacity self) m o = true →
  ∃ self', exec_op self o = Some self' ∧ rep self' (map_op m o) ∧ capacity self' = capacity self.
Proof.
  intros Hrep Ho. destruct o as [hash slot|hash slot]; simpl in *.
  - rewrite !andb_true_iff in Ho. destruct Ho as [[Hn He] Hr]. apply bool_decide_eq_true in Hn.
    apply insert_ok; [done..| |]; destruct (slot =? EMPTY_INDEX_SLOT) eqn:E; simpl in *; lia.
  - by apply remove_ok.
Qed.

Lemma exec_ops_ok os : ∀ self m,
  rep self m → ops_allowed (capacity self) m os = true →
  ∃ self', for_each os self exec_op = Some self' ∧ rep self' (foldl map_op m os).
Proof.
  induction os as [|o os IH]; intros self m Hrep Hok; cbn [for_each]; [by exists self|].
  cbn [ops_allowed] in Hok. apply andb_true_iff in Hok as [Ho Hok].
  destruct (exec_op_ok self m o Hrep Ho) as (self1 & -> & Hrep1 & Hcap1).
  cbn [mbind option_bind]. apply IH; [done|]. by rewrite Hcap1.
Qed.

(** C24: the Robin Hood index implements a finite map.  Any sequence of insertions
    of fresh slots and removals, starting from an empty index and leaving one
    position vacant, terminates without panicking; afterwards a lookup by hash
    and equality test finds a slot exactly when the map has a slot with that
    hash for which the test succeeds. *)
Theorem index_refines_map k os hash (eq : Z → bool) :
  1 ≤ k ≤ 31 → ops_allowed (2 ^ k) ∅ os = true →
  ∃ self0 self r, with_capacity (2 ^ k) = Some self0 ∧ for_each os self0 exec_op = Some self ∧
    len self = Z.of_nat (size (foldl map_op ∅ os)) ∧
    find self hash (λ s, Some (eq s)) = Some r ∧
    match r with
    | Some s => foldl map_op ∅ os !! s = Some hash ∧ eq s = true
    | None => ∀ s, foldl map_op ∅ os !! s = Some hash → eq s = false
    end.
Proof.
  intros Hk Hok. destruct (index_with_capacity_ok k Hk) as (self0 & H0 & Hrep0 & Hcap).
  rewrite <- Hcap in Hok. destruct (exec_ops_ok os self0 ∅ Hrep0 Hok) as (self & He & Hrep).
  destruct (find_ok self _ hash (λ s, Some (eq s)) Hrep) as (r & Hf & Hr); [eauto|].
  exists self0, self, r. split; [done|]. split; [done|]. split; [apply Hrep|]. split; [done|].
  destruct r as [s|]; simpl in Hr.
  - destruct Hr as [? [= ?]]. done.
  - intros s Hs. by injection (Hr s Hs).
Qed.

Lemma index_refines_map_witness :
  ∃ self0 self, with_capacity (2 ^ 2) = Some self0 ∧
    for_each [OpInsert 5 0; OpInsert 9 1; OpInsert 1 2; OpRemove 5 0] self0 exec_op = Some self ∧
    find self 9 (λ s, Some (s =? 1)) = Some (Some 1).
Proof.
  destruct (index_refines_map 2 [OpInsert 5 0; OpInsert 9 1; OpInsert 1 2; OpRemove 5 0] 9
    (λ s, s =? 1)) as (self0 & self & r & H0 & H1 & _ & H2 & Hr);
    [lia|vm_compute; reflexivity|].
  exists self0, self. split; [exact H0|]. split; [exact H1|]. rewrite H2. destruct r as [s|].
  - destruct Hr as [_ Hs]. apply Z.eqb_eq in Hs. by subst s.
  - specialize (Hr 1 ltac:(vm_compute; reflexivity)). discriminate Hr.
Defined.

End CellIndex.
