(* ===== verification/Freelist.v ===== *)
(** * Intrusive free lists

    The cell store and both identity dictionaries keep their unused slots in a
    list threaded through a [free_next] column, ended by a sentinel.  [chain]
    says which slots are on the list. *)

From S2P Require Import Prelude.

(** [for i in 0..cap { free_next[i] = if i + 1 < cap { i + 1 } else { nil } }] *)
Definition initial_free_next (nil cap : Z) : list Z :=
  (λ i, if i + 1 <? cap then i + 1 else nil) <$> zrange 0 cap.

Fixpoint chain (nil : Z) (next : list Z) (head : Z) (l : list Z) : Prop :=
  match l with
  | [] => head = nil
  | s :: l' =>
    head = s ∧ s ≠ nil ∧ ∃ n, zget next s = Some n ∧ chain nil next n l'
  end.

(** [free_slots nil next head cap live]: the free list holds every slot below
    [cap] that is not [live], once. *)
Definition free_slots (nil : Z) (next : list Z) (head cap : Z) (live : Z → Prop) : Prop :=
  ∃ l, chain nil next head l ∧ NoDup l ∧ ∀ s, s ∈ l ↔ 0 ≤ s < cap ∧ ¬ live s.

Section chain.
Context (nil : Z).
Implicit Types (next l : list Z).

Lemma chain_upd next head l s v :
  s ∉ l → chain nil next head l → chain nil (zupd next s v) head l.
Proof.
  revert head. induction l as [|x l IH]; intros head Hs; [done|].
  simpl. intros (-> & Hx & n & Hn & Hc). apply not_elem_of_cons in Hs as [Hne Hs].
  split; [done|]. split; [done|]. exists n. rewrite zget_zupd_ne by done. eauto.
Qed.

Lemma chain_push next head l s :
  0 ≤ s < zlen next → s ≠ nil → s ∉ l → chain nil next head l →
  chain nil (zupd next s head) s (s :: l).
Proof.
  intros Hs Hn Hl Hc. split; [done|]. split; [done|]. exists head.
  rewrite zget_zupd_eq by done. split; [done|]. by apply chain_upd.
Qed.

Lemma chain_initial_from next cap lo :
  0 ≤ lo < cap → (∀ i, 0 ≤ i < cap → i ≠ nil) →
  (∀ i, 0 ≤ i < cap → zget next i = Some (if i + 1 <? cap then i + 1 else nil)) →
  chain nil next lo (zrange lo cap).
Proof.
  intros Hlo Hnil Hnext. remember (Z.to_nat (cap - lo)) as n eqn:Hn.
  revert lo Hlo Hn. induction n as [|n IH]; intros lo Hlo Hn; [lia|].
  rewrite zrange_cons by lia. split; [done|]. split; [apply Hnil; lia|].
  exists (if lo + 1 <? cap then lo + 1 else nil). split; [apply Hnext; lia|].
  destruct (lo + 1 <? cap) eqn:E; [apply IH; lia|].
  rewrite zrange_nil by lia. done.
Qed.
End chain.

Lemma zlen_initial_free_next nil cap : 0 ≤ cap → zlen (initial_free_next nil cap) = cap.
Proof. intros. unfold initial_free_next. rewrite zlen_fmap, zlen_zrange by lia. lia. Qed.

Lemma zget_zrange cap i : 0 ≤ i < cap → zget (zrange 0 cap) i = Some i.
Proof.
  intros. rewrite zget_lookup by lia. apply lookup_seqZ. lia.
Qed.

(** A fresh column links all slots in increasing order. *)
Lemma free_slots_initial nil cap :
  0 < cap → (∀ i, 0 ≤ i < cap → i ≠ nil) →
  free_slots nil (initial_free_next nil cap) 0 cap (λ _, False).
Proof.
  intros Hcap Hnil. exists (zrange 0 cap). split; [|split; [apply NoDup_zrange|]].
  - apply chain_initial_from; [lia|done|]. intros i Hi. unfold initial_free_next.
    by rewrite zget_fmap, zget_zrange.
  - intros s. rewrite elem_of_zrange. tauto.
Qed.

(** Either the list is exhausted and every slot is live, or its head is a
    slot that is not live and popping it makes exactly that slot live. *)
Lemma free_slots_pop nil next head cap (live : Z → Prop) :
  free_slots nil next head cap live →
  (head = nil ∧ (∀ s, 0 ≤ s < cap → ¬ ¬ live s)) ∨
  (head ≠ nil ∧ 0 ≤ head < cap ∧ ¬ live head ∧
   ∃ n, zget next head = Some n ∧
     ∀ next' (live' : Z → Prop),
       (∀ s, s ≠ head → zget next' s = zget next s) →
       (∀ s, live' s ↔ live s ∨ s = head) →
       free_slots nil next' n cap live').
Proof.
  intros ([|x l] & Hc & Hnd & Hin).
  { left. split; [done|]. intros s Hs Hn. by apply (not_elem_of_nil s), Hin. }
  right. destruct Hc as (-> & Hx & n & Hn & Hc).
  assert (x ∈ x :: l) as Hxl by (apply elem_of_cons; by left). apply Hin in Hxl as [Hr Hnl].
  do 3 (split; [done|]). exists n. split; [done|].
  apply NoDup_cons in Hnd as [Hxl Hnd].
  intros next' live' Hnext Hlive. exists l. split; [|split; [done|]].
  - clear Hin Hn. revert n Hc. induction l as [|y l IH]; intros n Hc; [done|].
    destruct Hc as (-> & Hy & k & Hk & Hc). apply not_elem_of_cons in Hxl as [Hxy Hxl].
    split; [done|]. split; [done|]. exists k. rewrite Hnext by done. split; [done|].
    apply NoDup_cons in Hnd as [_ Hnd]. eauto.
  - intros s. rewrite Hlive. specialize (Hin s). rewrite elem_of_cons in Hin.
    destruct (decide (s = x)) as [->|]; [tauto|]. destruct Hin. split; tauto.
Qed.

(** Pushing a slot that stops being live. *)
Lemma free_slots_push nil next head cap (live live' : Z → Prop) s :
  free_slots nil next head cap live → zlen next = cap →
  0 ≤ s < cap → s ≠ nil → live s → ¬ live' s →
  (∀ s', s' ≠ s → live' s' ↔ live s') →
  free_slots nil (zupd next s head) s cap live'.
Proof.
  intros (l & Hc & Hnd & Hin) Hlen Hs Hnil Hl Hl' Hother.
  assert (s ∉ l) as Hsl by (rewrite Hin; tauto).
  exists (s :: l). split; [apply chain_push; [lia|done..]|].
  split; [by apply NoDup_cons|]. intros s'. rewrite elem_of_cons, Hin.
  destruct (decide (s' = s)) as [->|Hne]; [tauto|]. specialize (Hother s' Hne). tauto.
Qed.

Lemma free_slots_proper nil next head cap (live live' : Z → Prop) :
  (∀ s, live' s ↔ live s) →
  free_slots nil next head cap live → free_slots nil next head cap live'.
Proof.
  intros Heq (l & Hc & Hnd & Hin). exists l. split; [done|]. split; [done|].
  intros s. by rewrite Heq.
Qed.
