(* ===== verification/Dictionary.v ===== *)
(** * Rule and node identity dictionaries

    [crates/gabion/src/crdt/dictionary.rs].  [RuleDictionary] and
    [NodeDictionary] are two copies of one bounded interning table; [Dict]
    models the table once, over the descriptor type, its key and the key's
    hash, and [RuleDictionary]/[NodeDictionary] are the two uses, each with
    the operations written as that struct writes them.  The invariant
    [Dict.inv] ties the descriptor column, the hash index and the free list to
    one map from live slot to descriptor. *)

From S2P Require Import Prelude Types Hash Index Freelist.

Definition EMPTY_DICT_SLOT : Z := U16_MAX.

(** [u32::next_power_of_two], which panics when the result does not fit. *)
Definition next_power_of_two_u32 (z : Z) : option Z := checked 32 (2 ^ Z.log2_up z).

Definition pow2_index_capacity_for (capacity : Z) : option Z :=
  base ← next_power_of_two_u32 (Z.max capacity 1);
  Some (Z.max (saturating_mul 32 base 2) 2).

Module Dict.

Record t (D : Type) := mk {
  descriptors : list D;
  refcounts : list Z;
  index : CellIndex.t;
  free_next : list Z;
  free_head : Z;
  len : Z;
  capacity : Z;
}.
Arguments mk {D}.
Arguments descriptors {D}.
Arguments refcounts {D}.
Arguments index {D}.
Arguments free_next {D}.
Arguments free_head {D}.
Arguments len {D}.
Arguments capacity {D}.

#[global] Instance eta_t D : Eta (t D) := λ x,
  mk (descriptors x) (refcounts x) (index x) (free_next x) (free_head x) (len x)
     (capacity x).

Section ops.
Context {D K : Type} `{EqDecision K} (key_of : D → K) (hash_of : K → Z) (dflt : D).
Implicit Types (self : t D).

Definition with_capacity (cap : Z) : option (t D) :=
  assert_ (0 <? cap);;
  assert_ (cap <? EMPTY_DICT_SLOT);;
  index_cap ← pow2_index_capacity_for cap;
  idx ← CellIndex.with_capacity index_cap;
  Some {|
    descriptors := replicate (Z.to_nat cap) dflt;
    refcounts := replicate (Z.to_nat cap) 0;
    index := idx;
    free_next := initial_free_next EMPTY_DICT_SLOT cap;
    free_head := 0;
    len := 0;
    capacity := cap;
  |}.

Definition descriptor self (slot : Z) : option (option D) :=
  if slot <? capacity self then
    rc ← zget (refcounts self) slot;
    if 0 <? rc then d ← zget (descriptors self) slot; Some (Some d) else Some None
  else Some None.

Definition refcount self (slot : Z) : Z := default 0 (zget (refcounts self) slot).

Definition find self (k : K) : option (option Z) :=
  r ← CellIndex.find (index self) (hash_of k) (λ slot,
        d ← zget (descriptors self) slot; Some (bool_decide (key_of d = k)));
  Some (option_map as_u16 r).

(** The tail of [intern], once [find] has missed. *)
Definition intern_new self (d : D) : option (t D * option Z) :=
  if free_head self =? EMPTY_DICT_SLOT then Some (self, None) else
  let slot := free_head self in
  nxt ← zget (free_next self) slot;
  ds ← zset (descriptors self) slot d;
  rcs ← zset (refcounts self) slot 0;
  idx ← CellIndex.insert_unchecked (index self) (hash_of (key_of d)) slot;
  n ← checked 16 (len self + 1);
  Some (self <| free_head := nxt |> <| descriptors := ds |> <| refcounts := rcs |>
             <| index := idx |> <| len := n |>, Some slot).

Definition inc_ref self (slot : Z) : option (t D) :=
  rc ← zget (refcounts self) slot;
  rcs ← zset (refcounts self) slot (saturating_add 32 rc 1);
  Some (self <| refcounts := rcs |>).

(** Decrement a refcount; [true] when the slot was freed. *)
Definition dec_ref self (slot : Z) : option (t D * bool) :=
  rc ← zget (refcounts self) slot;
  if rc =? 0 then Some (self, false) else
  rc ← checked 32 (rc - 1);
  rcs ← zset (refcounts self) slot rc;
  let self := self <| refcounts := rcs |> in
  if rc =? 0 then
    d ← zget (descriptors self) slot;
    idx ← CellIndex.remove (index self) (hash_of (key_of d)) slot;
    ds ← zset (descriptors self) slot dflt;
    fn ← zset (free_next self) slot (free_head self);
    n ← checked 16 (len self - 1);
    Some (self <| index := idx |> <| descriptors := ds |> <| free_next := fn |>
               <| free_head := slot |> <| len := n |>, true)
  else Some (self, false).
End ops.

End Dict.

(** ** Rule descriptors *)
Record RuleDescriptor := {
  fingerprint : Z;
  window_millis : Z;
  bucket_millis : Z;
  limit : Z;
  flags : Z;
  local_rule_id : Z;
}.
#[export] Instance RuleDescriptor_eq_dec : EqDecision RuleDescriptor.
Proof. solve_decision. Defined.
#[global] Instance eta_RuleDescriptor : Eta RuleDescriptor := λ x,
  {| fingerprint := fingerprint x; window_millis := window_millis x;
     bucket_millis := bucket_millis x; limit := limit x; flags := flags x;
     local_rule_id := local_rule_id x |}.

Definition RuleDescriptor_default : RuleDescriptor := {|
  fingerprint := 0;
  window_millis := 60000;
  bucket_millis := 1000;
  limit := 0;
  flags := 0;
  local_rule_id := U32_MAX;
|}.

Definition applies_locally (d : RuleDescriptor) : bool :=
  negb (local_rule_id d =? U32_MAX).

Definition current_epoch (d : RuleDescriptor) (now_millis : Z) : BucketEpoch :=
  if bucket_millis d =? 0 then 0 else as_u32 (now_millis / bucket_millis d).

Definition live_buckets (d : RuleDescriptor) : Z :=
  if bucket_millis d =? 0 then 0
  else Z.max (div_ceil (window_millis d) (bucket_millis d)) 1.

Definition oldest_live_epoch (d : RuleDescriptor) (now_millis : Z) : BucketEpoch :=
  saturating_sub (current_epoch d now_millis) (live_buckets d).

Module RuleDictionary.
Abbreviation t := (Dict.t RuleDescriptor).
Definition with_capacity : Z → option t := Dict.with_capacity RuleDescriptor_default.
Definition descriptor (self : t) (slot : RuleSlot) : option (option RuleDescriptor) :=
  Dict.descriptor self slot.
Definition refcount (self : t) (slot : RuleSlot) : Z := Dict.refcount self slot.
Definition find (self : t) (fp : Z) : option (option RuleSlot) :=
  Dict.find fingerprint hash_fingerprint self fp.

(** An already interned rule has its descriptor replaced. *)
Definition intern (self : t) (d : RuleDescriptor) : option (t * option RuleSlot) :=
  found ← find self (fingerprint d);
  match found with
  | Some slot =>
    ds ← zset (Dict.descriptors self) slot d;
    Some (self <| Dict.descriptors := ds |>, Some slot)
  | None => Dict.intern_new fingerprint hash_fingerprint self d
  end.

Definition inc_ref (self : t) (slot : RuleSlot) : option t := Dict.inc_ref self slot.
Definition dec_ref (self : t) (slot : RuleSlot) : option t :=
  '(self, _) ← Dict.dec_ref fingerprint hash_fingerprint RuleDescriptor_default self slot;
  Some self.
End RuleDictionary.

(** ** Node descriptors *)
Abbreviation NodeDescriptor := NodeIdentity (only parsing).
Definition NodeDescriptor_default : NodeDescriptor :=
  {| node_id := 0; ni_incarnation := 0 |}.

(** The key of a node descriptor is the whole pair. *)
Definition node_key (d : NodeDescriptor) : NodeDescriptor := d.

Definition hash_node (d : NodeDescriptor) : Z :=
  hash_node_identity (node_id d) (ni_incarnation d).

Module NodeDictionary.
Abbreviation t := (Dict.t NodeDescriptor).
Definition with_capacity : Z → option t := Dict.with_capacity NodeDescriptor_default.
Definition descriptor (self : t) (slot : NodeSlot) : option (option NodeDescriptor) :=
  Dict.descriptor self slot.
Definition refcount (self : t) (slot : NodeSlot) : Z := Dict.refcount self slot.
Definition find (self : t) (id : NodeId) (inc : Incarnation) : option (option NodeSlot) :=
  Dict.find node_key hash_node self {| node_id := id; ni_incarnation := inc |}.

(** An already interned pair keeps its slot. *)
Definition intern (self : t) (id : NodeId) (inc : Incarnation) :
    option (t * option NodeSlot) :=
  found ← find self id inc;
  match found with
  | Some slot => Some (self, Some slot)
  | None =>
    Dict.intern_new node_key hash_node self {| node_id := id; ni_incarnation := inc |}
  end.

Definition inc_ref (self : t) (slot : NodeSlot) : option t := Dict.inc_ref self slot.
Definition dec_ref (self : t) (slot : NodeSlot) : option (t * bool) :=
  Dict.dec_ref node_key hash_node NodeDescriptor_default self slot.
End NodeDictionary.

(** ** The invariant *)

Lemma pow2_index_capacity_ok cap :
  0 < cap ≤ 2 ^ 30 → ∃ k, 1 ≤ k ≤ 31 ∧ 2 * cap ≤ 2 ^ k ∧
    pow2_index_capacity_for cap = Some (2 ^ k).
Proof.
  intros Hcap. exists (Z.log2_up cap + 1).
  pose proof (Z.log2_up_nonneg cap).
  assert (Z.log2_up cap ≤ 30) by (apply Z.log2_up_le_pow2; lia).
  assert (cap ≤ 2 ^ Z.log2_up cap) by (apply Z.log2_up_le_pow2; lia).
  assert (2 ^ Z.log2_up cap ≤ 2 ^ 30) by (apply Z.pow_le_mono_r; lia).
  rewrite Z.pow_add_r by lia. split; [lia|]. split; [lia|].
  unfold pow2_index_capacity_for, next_power_of_two_u32.
  rewrite Z.max_l by lia. rewrite checked_ok by lia. simpl. f_equal.
  unfold saturating_mul. lia.
Qed.

Section dict_facts.
Context {D K : Type} `{EqDecision K} (key_of : D → K) (hash_of : K → Z) (dflt : D).
Implicit Types (self : Dict.t D) (m : gmap Z D).

(** [dict_inv self m]: the live slots of [self] and their descriptors are
    [m], keys are distinct, the index finds exactly the live slots by key,
    the free list holds exactly the others, and those have refcount 0. *)
Record dict_inv self m : Prop := {
  di_cap : 0 < Dict.capacity self < EMPTY_DICT_SLOT;
  di_descs : zlen (Dict.descriptors self) = Dict.capacity self;
  di_rcs : zlen (Dict.refcounts self) = Dict.capacity self;
  di_next : zlen (Dict.free_next self) = Dict.capacity self;
  di_live s d : m !! s = Some d → 0 ≤ s < Dict.capacity self ∧
                                  zget (Dict.descriptors self) s = Some d;
  di_free : free_slots EMPTY_DICT_SLOT (Dict.free_next self) (Dict.free_head self)
              (Dict.capacity self) (λ s, is_Some (m !! s));
  di_index : CellIndex.rep (Dict.index self) ((λ d, hash_of (key_of d)) <$> m);
  di_index_cap : 2 * Dict.capacity self ≤ CellIndex.capacity (Dict.index self);
  di_keys s s' d d' :
    m !! s = Some d → m !! s' = Some d' → key_of d = key_of d' → s = s';
  di_rc s rc : zget (Dict.refcounts self) s = Some rc →
    0 ≤ rc ≤ U32_MAX ∧ (m !! s = None → rc = 0);
  di_len : Dict.len self = Z.of_nat (size m);
}.

Lemma dict_with_capacity_ok cap :
  0 < cap < EMPTY_DICT_SLOT →
  ∃ self, Dict.with_capacity dflt cap = Some self ∧ dict_inv self ∅ ∧
          Dict.capacity self = cap.
Proof.
  intros Hcap. unfold EMPTY_DICT_SLOT, U16_MAX in Hcap.
  destruct (pow2_index_capacity_ok cap ltac:(lia)) as (k & Hk & Hle & Hp).
  destruct (CellIndex.index_with_capacity_ok k Hk) as (idx & Hidx & Hrep & Hc).
  unfold Dict.with_capacity, EMPTY_DICT_SLOT, U16_MAX.
  replace (0 <? cap) with true by lia. replace (cap <? 65535) with true by lia.
  simpl. rewrite Hp. simpl. rewrite Hidx. simpl. eexists. split; [done|]. split; [|done].
  split; simpl; try done.
  - rewrite zlen_replicate. lia.
  - rewrite zlen_replicate. lia.
  - apply zlen_initial_free_next. lia.
  - eapply free_slots_proper; [|apply free_slots_initial; [lia|]].
    + intros s. rewrite lookup_empty. by split; [intros [? ?]|].
    + unfold EMPTY_DICT_SLOT, U16_MAX. intros. lia.
  - lia.
  - intros s rc Hs. pose proof (zget_Some_range _ _ _ Hs). rewrite zlen_replicate in *.
    rewrite zget_replicate in Hs by lia. injection Hs as <-. unfold U32_MAX. lia.
Qed.

Section inv.
Context self m (Hinv : dict_inv self m).

Lemma dict_live_range s : is_Some (m !! s) → 0 ≤ s < Dict.capacity self.
Proof using Hinv. intros [d Hd]. by eapply di_live. Qed.

(** [find k] returns the live slot with key [k], if there is one. *)
Lemma dict_find_ok k :
  ∃ r, Dict.find key_of hash_of self k = Some r ∧
    match r with
    | Some s => ∃ d, m !! s = Some d ∧ key_of d = k
    | None => ∀ s d, m !! s = Some d → key_of d ≠ k
    end.
Proof using Hinv.
  pose proof (di_cap _ _ Hinv) as Hcap. unfold EMPTY_DICT_SLOT, U16_MAX in Hcap.
  unfold Dict.find.
  edestruct (CellIndex.find_ok _ _ (hash_of k)
    (λ slot, d ← zget (Dict.descriptors self) slot; Some (bool_decide (key_of d = k)))
    (di_index _ _ Hinv)) as ([s|] & -> & Hr).
  - intros s. rewrite lookup_fmap. intros (d & Hd & _)%fmap_Some.
    destruct (di_live _ _ Hinv s d Hd) as [_ ->]. simpl. eauto.
  - simpl. destruct Hr as [Hs Heq]. rewrite lookup_fmap in Hs.
    apply fmap_Some in Hs as (d & Hd & _).
    destruct (di_live _ _ Hinv s d Hd) as [Hrange Hs]. rewrite Hs in Heq. simpl in Heq.
    injection Heq as Heq%bool_decide_eq_true. unfold as_u16. rewrite Z.mod_small by lia.
    exists (Some s). split; [done|]. by exists d.
  - simpl. eexists. split; [done|]. intros s d Hd Hk. specialize (Hr s).
    rewrite lookup_fmap, Hd in Hr. simpl in Hr. rewrite Hk in Hr.
    destruct (di_live _ _ Hinv s d Hd) as [_ Hs]. rewrite Hs in Hr. simpl in Hr.
    specialize (Hr eq_refl). injection Hr as Hr%bool_decide_eq_false. done.
Qed.

Lemma dict_find_Some s d :
  m !! s = Some d → Dict.find key_of hash_of self (key_of d) = Some (Some s).
Proof using Hinv.
  intros Hd. destruct (dict_find_ok (key_of d)) as ([s'|] & -> & Hr).
  - destruct Hr as (d' & Hd' & Hk). by rewrite (di_keys _ _ Hinv s' s d' d).
  - by destruct (Hr s d Hd).
Qed.

Lemma dict_find_None k :
  (∀ s d, m !! s = Some d → key_of d ≠ k) →
  Dict.find key_of hash_of self k = Some None.
Proof using Hinv.
  intros Hn. destruct (dict_find_ok k) as ([s|] & -> & Hr); [|done].
  destruct Hr as (d & Hd & Hk). by destruct (Hn s d Hd).
Qed.

(** Replacing the descriptor of a live slot by one with the same key. *)
Lemma dict_replace_ok s d d' :
  m !! s = Some d → key_of d' = key_of d →
  zset (Dict.descriptors self) s d' = Some (zupd (Dict.descriptors self) s d') ∧
  dict_inv (self <| Dict.descriptors := zupd (Dict.descriptors self) s d' |>)
           (<[s := d']> m).
Proof using Hinv.
  intros Hd Hk. destruct Hinv. destruct (di_live0 s d Hd) as [Hs _].
  split; [apply zset_ok; lia|]. split; simpl; try done.
  - by rewrite zlen_zupd.
  - intros s' e. destruct (decide (s' = s)) as [->|].
    + rewrite lookup_insert_eq. intros [= <-]. rewrite zget_zupd_eq by lia. done.
    + rewrite lookup_insert_ne, zget_zupd_ne by done. eauto.
  - eapply free_slots_proper; [|done]. intros s'.
    rewrite lookup_insert_is_Some'. split; [intros [->|]; eauto|tauto].
  - rewrite fmap_insert, insert_id; [done|]. rewrite lookup_fmap, Hd. simpl. by rewrite Hk.
  - intros s1 s2 d1 d2. rewrite !lookup_insert.
    destruct (decide (s = s1)), (decide (s = s2)); subst; try done.
    + intros [= <-] H2. rewrite Hk. by eapply di_keys0.
    + intros H1 [= <-]. rewrite Hk. by eapply di_keys0.
    + by apply di_keys0.
  - intros s' rc Hrc. destruct (di_rc0 s' rc Hrc) as [? Hz]. split; [done|].
    rewrite lookup_insert. case_decide; [done|]. done.
  - rewrite map_size_insert_Some; eauto.
Qed.

(** Interning a new key takes a free slot with refcount 0, or reports that
    every slot is live. *)
Lemma dict_intern_new_ok d :
  (∀ s d', m !! s = Some d' → key_of d' ≠ key_of d) →
  (Dict.intern_new key_of hash_of self d = Some (self, None) ∧
   Z.of_nat (size m) = Dict.capacity self) ∨
  (∃ s self', Dict.intern_new key_of hash_of self d = Some (self', Some s) ∧
    m !! s = None ∧ 0 ≤ s < Dict.capacity self ∧ dict_inv self' (<[s := d]> m) ∧
    Dict.capacity self' = Dict.capacity self ∧
    Dict.refcounts self' = zupd (Dict.refcounts self) s 0).
Proof using Hinv.
  intros Hfresh. pose proof Hinv as []. unfold Dict.intern_new.
  destruct (free_slots_pop _ _ _ _ _ di_free0)
    as [[-> Hfull]|(Hne & Hr & Hnl & n & Hn & Hpop)].
  { left. rewrite Z.eqb_refl. split; [done|].
    apply size_full_range; [lia|apply dict_live_range|done]. }
  right. rewrite (proj2 (Z.eqb_neq _ _) Hne).
  set (s := Dict.free_head self) in *.
  assert (m !! s = None) as Hms by (by apply eq_None_not_Some).
  pose proof (size_lt_range (Dict.capacity self) ltac:(lia) m s dict_live_range Hr Hms).
  unfold EMPTY_DICT_SLOT, U16_MAX in *.
  edestruct (CellIndex.insert_ok _ _ (hash_of (key_of d)) s di_index0)
    as (idx & Hidx & Hrep & Hic).
  { by rewrite lookup_fmap, Hms. }
  { unfold CellIndex.EMPTY_INDEX_SLOT, U32_MAX. lia. }
  { rewrite map_size_fmap. lia. }
  rewrite Hn. simpl. rewrite !zset_ok by lia. simpl. rewrite Hidx. simpl.
  rewrite checked_ok by lia. simpl. exists s. eexists. split; [done|].
  do 2 (split; [done|]). split; [|done]. split; simpl; try done.
  - by rewrite zlen_zupd.
  - by rewrite zlen_zupd.
  - intros s' e. destruct (decide (s' = s)) as [->|].
    + rewrite lookup_insert_eq. intros [= <-]. by rewrite zget_zupd_eq by lia.
    + rewrite lookup_insert_ne, zget_zupd_ne by done. eauto.
  - apply Hpop; [done|]. intros s'. rewrite lookup_insert_is_Some'.
    split; intros [?|?]; eauto using eq_sym.
  - by rewrite fmap_insert.
  - lia.
  - intros s1 s2 d1 d2. rewrite !lookup_insert. do 2 case_decide; subst; try done.
    + intros [= <-] H2 Hk. by destruct (Hfresh s2 d2).
    + intros H1 [= <-] Hk. by destruct (Hfresh s1 d1).
    + by apply di_keys0.
  - intros s' rc. rewrite zget_zupd, lookup_insert by lia. case_decide; subst.
    + intros [= <-]. unfold U32_MAX. lia.
    + apply di_rc0.
  - rewrite map_size_insert_None by done. lia.
Qed.

Lemma dict_inc_ref_ok s d rc :
  m !! s = Some d → zget (Dict.refcounts self) s = Some rc →
  ∃ self', Dict.inc_ref self s = Some self' ∧ dict_inv self' m ∧
    self' = self <| Dict.refcounts :=
              zupd (Dict.refcounts self) s (Z.min (rc + 1) U32_MAX) |>.
Proof using Hinv.
  intros Hd Hrc. destruct Hinv. pose proof (zget_Some_range _ _ _ Hrc).
  unfold Dict.inc_ref. rewrite Hrc. simpl. rewrite zset_ok by lia. simpl.
  eexists. split; [done|]. split; [|done]. split; simpl; try done.
  - by rewrite zlen_zupd.
  - intros s' rc'. rewrite zget_zupd by lia. case_decide; subst; [|apply di_rc0].
    intros [= <-]. destruct (di_rc0 _ _ Hrc). unfold saturating_add, U32_MAX in *.
    split; [lia|congruence].
Qed.

(** Releasing a reference frees the slot exactly when it was the last one. *)
Lemma dict_dec_ref_ok s d rc :
  m !! s = Some d → zget (Dict.refcounts self) s = Some rc → 0 < rc →
  ∃ self', Dict.dec_ref key_of hash_of dflt self s = Some (self', rc =? 1) ∧
    dict_inv self' (if rc =? 1 then delete s m else m) ∧
    Dict.capacity self' = Dict.capacity self ∧
    Dict.refcounts self' = zupd (Dict.refcounts self) s (rc - 1).
Proof using Hinv.
  intros Hd Hrc Hpos. pose proof Hinv as []. pose proof (zget_Some_range _ _ _ Hrc).
  destruct (di_rc0 _ _ Hrc) as [Hb _]. destruct (di_live0 _ _ Hd) as [_ Hds].
  unfold EMPTY_DICT_SLOT, U16_MAX, U32_MAX in *.
  unfold Dict.dec_ref. rewrite Hrc. simpl. rewrite (proj2 (Z.eqb_neq rc 0)) by lia.
  rewrite (checked_ok 32 (rc - 1)) by lia. simpl.
  rewrite (zset_ok (Dict.refcounts self)) by lia. simpl.
  assert ((rc - 1 =? 0) = (rc =? 1)) as ->.
  { destruct (rc =? 1) eqn:?; bool_solve; lia. }
  destruct (rc =? 1) eqn:E.
  - assert (size m ≠ 0%nat) by (intros Hz%map_size_empty_inv; by rewrite Hz in Hd).
    assert (size (delete s m) = pred (size m)) as Hsz
      by (by eapply map_size_delete_Some).
    pose proof (size_le_range (Dict.capacity self) ltac:(lia) m dict_live_range).
    destruct (CellIndex.remove_ok _ _ (hash_of (key_of d)) s di_index0)
      as (idx & Hidx & Hrep & Hic).
    rewrite decide_True in Hrep by (by rewrite lookup_fmap, Hd).
    rewrite Hds. simpl. rewrite Hidx. simpl. rewrite !zset_ok by lia. simpl.
    rewrite checked_ok by lia. simpl. eexists. split; [done|]. split; [|done].
    split; simpl; rewrite ?zlen_zupd; try done.
    + intros s' e. rewrite lookup_delete_Some. intros [Hne He].
      rewrite zget_zupd_ne by done. eauto.
    + eapply free_slots_push; [done|done|lia|unfold EMPTY_DICT_SLOT, U16_MAX; lia|..].
      * simpl. eauto.
      * simpl. rewrite lookup_delete_eq. by intros [? ?].
      * simpl. intros s' Hne. by rewrite lookup_delete_ne.
    + by rewrite fmap_delete.
    + lia.
    + intros s1 s2 d1 d2 [_ ?]%lookup_delete_Some [_ ?]%lookup_delete_Some. eauto.
    + intros s' rc'. rewrite zget_zupd by lia. case_decide; subst.
      * intros [= <-]. unfold U32_MAX. lia.
      * rewrite lookup_delete_ne by congruence. apply di_rc0.
    + lia.
  - eexists. split; [done|]. split; [|done]. split; simpl; rewrite ?zlen_zupd; try done.
    intros s' rc'. rewrite zget_zupd by lia. case_decide; subst; [|apply di_rc0].
    intros [= <-]. unfold U32_MAX. split; [lia|congruence].
Qed.

Lemma dict_descriptor_ok s rc :
  zget (Dict.refcounts self) s = Some rc →
  Dict.descriptor self s = Some (if 0 <? rc then m !! s else None).
Proof using Hinv.
  intros Hrc. pose proof (zget_Some_range _ _ _ Hrc). destruct Hinv.
  unfold Dict.descriptor. replace (s <? Dict.capacity self) with true by lia.
  rewrite Hrc. simpl. destruct (0 <? rc) eqn:E; [|done].
  destruct (di_rc0 _ _ Hrc) as [_ Hz].
  destruct (m !! s) as [d|] eqn:Hd; [|specialize (Hz eq_refl); lia].
  destruct (di_live0 _ _ Hd) as [_ ->]. done.
Qed.
End inv.

(** A dictionary that just took an entry had room for it. *)
Lemma dict_room self m s d :
  m !! s = None → dict_inv self (<[s := d]> m) → Z.of_nat (size m) < Dict.capacity self.
Proof.
  intros Hs Hi. pose proof (di_cap _ _ Hi).
  pose proof (size_le_range (Dict.capacity self) ltac:(lia) (<[s := d]> m) (dict_live_range _ _ Hi)) as Hle.
  rewrite map_size_insert_None in Hle by done. lia.
Qed.

(** What looking a descriptor up by its key, or else adding it, did. *)
Definition interned (cap : Z) (m m' : gmap Z D) (d : D) (r : option Z) : Prop :=
  match r with
  | Some slot =>
    (m' = m ∧ ∃ d0, m !! slot = Some d0 ∧ key_of d0 = key_of d) ∨
    (m' = <[slot := d]> m ∧ m !! slot = None ∧
     (∀ s d', m !! s = Some d' → key_of d' ≠ key_of d) ∧ Z.of_nat (size m) < cap)
  | None => m' = m ∧ (∀ s d', m !! s = Some d' → key_of d' ≠ key_of d) ∧ Z.of_nat (size m) = cap
  end.
End dict_facts.
