(* ===== verification/DirtyRing.v ===== *)
(** * The dirty-change ring

    [crates/gabion/src/crdt/dirty_ring.rs]: the bounded ring of recent changes
    behind each gossip lane.  [contents] is the abstract queue; [push] is
    "append, dropping the oldest entry when full", and both readers ([iter]
    and [ring_entry_at]) read that queue oldest first. *)

From S2P Require Import Prelude Types.

Record DirtyEntry := {
  de_handle : CellHandle;
  de_origin_sequence : Z;
}.
#[export] Instance DirtyEntry_eq_dec : EqDecision DirtyEntry.
Proof. solve_decision. Defined.

Module DirtyRing.

Record t := mk {
  entries : list DirtyEntry;
  head : Z;
  len : Z;
  overflow_seq : Z;
}.

#[global] Instance eta_t : Eta t := λ x,
  mk (entries x) (head x) (len x) (overflow_seq x).

Definition with_capacity (cap : Z) : t := {|
  entries := replicate (Z.to_nat cap)
    {| de_handle := CellHandle_default; de_origin_sequence := 0 |};
  head := 0;
  len := 0;
  overflow_seq := 0;
|}.

Definition capacity (self : t) : Z := as_u32 (zlen (entries self)).
Definition is_empty (self : t) : bool := len self =? 0.
Definition overflowed (self : t) : bool := 0 <? overflow_seq self.

Definition push (self : t) (entry : DirtyEntry) : option t :=
  let cap := as_u32 (zlen (entries self)) in
  if cap =? 0 then
    Some (self <| overflow_seq := saturating_add 64 (overflow_seq self) 1 |>)
  else
  self ← (if len self =? cap
          then Some (self <| overflow_seq := saturating_add 64 (overflow_seq self) 1 |>)
          else n ← checked 32 (len self + 1); Some (self <| len := n |>));
  es ← zset (entries self) (head self) entry;
  h ← checked 32 (head self + 1);
  Some (self <| entries := es |> <| head := h mod cap |>).

(** [ring_entry_at], the reader of the frame builders. *)
Definition ring_entry_at (ring : t) (offset : Z) : option DirtyEntry :=
  let cap := as_u32 (zlen (entries ring)) in
  let start := if len ring =? cap then head ring else 0 in
  i ← checked 32 (start + offset);
  zget (entries ring) (i mod cap).

Definition iter (self : t) : option (list DirtyEntry) :=
  let cap := as_u32 (zlen (entries self)) in
  let start := if len self =? cap then head self else 0 in
  mapM (λ offset, i ← checked 32 (start + offset); zget (entries self) (i mod cap))
    (zrange 0 (len self)).

Definition clear (self : t) : t :=
  self <| head := 0 |> <| len := 0 |> <| overflow_seq := 0 |>.

(** ** Invariant and abstract contents *)
Record inv (self : t) : Prop := {
  ri_cap : zlen (entries self) ≤ 2 ^ 31;
  ri_len : 0 ≤ len self ≤ zlen (entries self);
  ri_head : 0 ≤ head self ∧ (0 < zlen (entries self) → head self < zlen (entries self));
  ri_fill : len self < zlen (entries self) → head self = len self;
  ri_over : 0 ≤ overflow_seq self ≤ U64_MAX;
}.

Definition contents (self : t) : list DirtyEntry :=
  if len self =? zlen (entries self)
  then drop (Z.to_nat (head self)) (entries self) ++ take (Z.to_nat (head self)) (entries self)
  else take (Z.to_nat (len self)) (entries self).

(** The abstract bounded queue: keep the last [n] entries. *)
Definition last_n {A} (n : nat) (l : list A) : list A := drop (length l - n) l.

Lemma ring_with_capacity_ok cap :
  0 ≤ cap ≤ 2 ^ 31 →
  inv (with_capacity cap) ∧ contents (with_capacity cap) = [] ∧
  zlen (entries (with_capacity cap)) = cap.
Proof.
  intros Hcap.
  assert (zlen (entries (with_capacity cap)) = cap) as Hlen
    by (simpl; rewrite zlen_replicate; lia).
  split; [|split; [|done]].
  - split; try rewrite Hlen; simpl; unfold U64_MAX; lia.
  - unfold contents. rewrite Hlen. destruct (_ =? _) eqn:E; [|done].
    bool_solve. simpl in E. by subst cap.
Qed.

Section inv.
Context (self : t) (Hinv : inv self).

Lemma cap_u32 : as_u32 (zlen (entries self)) = zlen (entries self).
Proof using Hinv.
  destruct Hinv. unfold as_u32. apply Z.mod_small.
  pose proof (zlen_nonneg (entries self)). lia.
Qed.

Lemma contents_length : zlen (contents self) = len self.
Proof using Hinv.
  destruct Hinv. unfold contents, zlen in *.
  destruct (_ =? _) eqn:E; rewrite ?length_app, ?length_drop, ?length_take; lia.
Qed.

(** Both readers see [contents], oldest entry first. *)
Lemma ring_entry_at_ok offset :
  0 ≤ offset < len self → ring_entry_at self offset = zget (contents self) offset.
Proof using Hinv.
  intros Ho. unfold ring_entry_at. rewrite cap_u32. destruct Hinv as [? ? ? Hf ?].
  unfold contents. destruct (_ =? _) eqn:E; bool_solve.
  - rewrite checked_ok by lia. simpl. unfold zlen in *.
    pose proof (Z.mod_pos_bound (head self + offset) (Z.of_nat (length (entries self)))).
    rewrite !zget_lookup by lia.
    destruct (decide (head self + offset < Z.of_nat (length (entries self)))).
    + rewrite Z.mod_small by lia. rewrite lookup_app_l by (rewrite length_drop; lia).
      rewrite lookup_drop. f_equal. lia.
    + rewrite <- (Z.mod_add _ (-1)) by lia. rewrite Z.mod_small by lia.
      rewrite lookup_app_r by (rewrite length_drop; lia). rewrite length_drop.
      rewrite lookup_take_lt by lia. f_equal. lia.
  - rewrite checked_ok by lia. simpl. rewrite Z.mod_small by lia.
    rewrite !zget_lookup by lia. by rewrite lookup_take_lt by lia.
Qed.

Lemma iter_ok : iter self = Some (contents self).
Proof using Hinv.
  unfold iter. apply mapM_Some_2. apply Forall2_same_length_lookup_2.
  { pose proof contents_length. unfold zlen, zrange in *. rewrite length_seqZ.
    destruct Hinv. lia. }
  intros n offset e Hn He. apply lookup_seqZ in Hn as [-> Hn].
  rewrite <- zget_nat in He. rewrite <- He.
  replace (0 + Z.of_nat n) with (Z.of_nat n) by lia.
  apply (ring_entry_at_ok (Z.of_nat n)). lia.
Qed.

(** The slot [push] overwrites splits the entries. *)
Lemma entries_split :
  0 < zlen (entries self) →
  ∃ l1 x l2, entries self = l1 ++ x :: l2 ∧ Z.to_nat (head self) = length l1 ∧
    head self = zlen l1 ∧ (head self + 1) mod zlen (entries self) =
      match l2 with [] => 0 | _ => zlen l1 + 1 end ∧
    ∀ e, zupd (entries self) (head self) e = l1 ++ e :: l2.
Proof using Hinv.
  intros Hpos. pose proof Hinv as [Hcap Hlen [Hh0 Hh] Hfill Hov]. specialize (Hh Hpos).
  destruct (zget_in_range (entries self) (head self)) as [x Hx]; [lia|].
  rewrite zget_lookup in Hx by lia. apply list_elem_of_split_length in Hx as (l1 & l2 & Hs & Hl).
  exists l1, x, l2. unfold zlen in *. rewrite Hs in *. rewrite length_app in *. simpl in *.
  split_and!; [done|done|lia| |].
  - destruct l2; simpl in *.
    + replace (head self + 1) with (Z.of_nat (length l1 + 1)) by lia.
      apply Z.mod_same. lia.
    + rewrite Z.mod_small; lia.
  - intros e. unfold zupd. replace (0 <=? head self) with true by lia.
    rewrite Hl. by rewrite insert_app_r_alt, Nat.sub_diag by lia.
Qed.

Lemma push_ok e :
  ∃ self', push self e = Some self' ∧ inv self' ∧
    zlen (entries self') = zlen (entries self) ∧
    contents self' = last_n (length (entries self)) (contents self ++ [e]) ∧
    overflow_seq self' =
      (if len self =? zlen (entries self)
       then Z.min (overflow_seq self + 1) U64_MAX else overflow_seq self).
Proof using Hinv.
  unfold push. rewrite cap_u32. pose proof contents_length as Hcl.
  pose proof Hinv as [Hcap Hlen [Hh0 Hh] Hfill Hov].
  pose proof (zlen_nonneg (entries self)).
  destruct (zlen (entries self) =? 0) eqn:E0; bool_solve.
  { eexists. split; [done|].
    assert (entries self = []) as Hnil by (apply nil_length_inv; unfold zlen in *; lia).
    assert ((len self =? 0) = true) as Hl by lia.
    unfold contents, last_n. simpl. rewrite E0, Hnil, Hl. simpl.
    rewrite drop_nil, take_nil. simpl. split_and!; try done.
    split; simpl; rewrite ?E0; unfold saturating_add, U64_MAX in *; lia. }
  destruct entries_split as (l1 & x & l2 & Hs & Hl1 & Hhd & Hnext & Hupd); [lia|].
  assert (zlen (entries self) = zlen l1 + 1 + zlen l2) as Hsum
    by (rewrite Hs; unfold zlen; rewrite length_app; simpl; lia).
  assert (0 ≤ (head self + 1) mod zlen (entries self) < zlen (entries self))
    by (apply Z.mod_pos_bound; lia).
  assert (drop (S (length l1)) (l1 ++ e :: l2) = l2) as Hdrop
    by (rewrite drop_app_ge by lia; by replace (S _ - _)%nat with 1%nat by lia).
  assert (take (S (length l1)) (l1 ++ e :: l2) = l1 ++ [e]) as Htake
    by (rewrite take_app_ge by lia; by replace (S _ - _)%nat with 1%nat by lia).
  destruct (len self =? zlen (entries self)) eqn:E; bool_solve; simpl;
    [|rewrite (checked_ok 32 (len self + 1)) by lia; simpl];
    rewrite zset_ok by lia; simpl; rewrite checked_ok by lia; simpl;
    rewrite Hnext in *; (eexists; split; [done|]);
    (split; [split; simpl; rewrite ?zlen_zupd; unfold saturating_add, U64_MAX in *;
             try lia; destruct l2; unfold zlen in *; simpl in *; lia|]);
    simpl; rewrite zlen_zupd; (split; [done|]); (split; [|done]);
    unfold contents, last_n; simpl; rewrite zlen_zupd.
  - rewrite E, Z.eqb_refl, Hupd, Hs, Hl1, length_app. simpl.
    rewrite drop_app_length, take_app_length, !length_app. simpl.
    replace (S (length l2 + length l1 + 1) - _)%nat with 1%nat by lia. simpl. rewrite drop_0.
    destruct l2; [by rewrite app_nil_r|]. unfold zlen.
    replace (Z.to_nat (Z.of_nat (length l1) + 1)) with (S (length l1)) by lia.
    by rewrite Hdrop, Htake, app_assoc.
  - rewrite (proj2 (Z.eqb_neq (len self) _)) by lia.
    rewrite length_app, length_take. simpl.
    assert (Z.to_nat (len self) = length l1) as -> by (rewrite <- Hl1, Hfill; lia).
    assert (length (entries self) = length l1 + 1 + length l2)%nat as -> by (unfold zlen in *; lia).
    replace (length l1 `min` _ + 1 - _)%nat with 0%nat by lia. rewrite drop_0.
    rewrite Hupd, Hs, take_app_length.
    assert (len self = zlen l1) as Hll by (rewrite <- Hhd, Hfill; lia).
    destruct l2 as [|y l2]; unfold zlen in *; rewrite length_app; simpl in *.
    + rewrite (proj2 (Z.eqb_eq (len self + 1) _)) by lia.
      rewrite drop_0. by rewrite app_nil_r.
    + rewrite (proj2 (Z.eqb_neq (len self + 1) _)) by lia.
      replace (Z.to_nat (len self + 1)) with (S (length l1)) by (rewrite <- Hl1, Hfill; lia).
      done.
Qed.
End inv.

(** Successive pushes keep exactly the most recent [capacity] entries. *)
Lemma push_all_ok self es :
  inv self →
  ∃ self', for_each es self push = Some self' ∧ inv self' ∧
    zlen (entries self') = zlen (entries self) ∧
    contents self' = last_n (length (entries self)) (contents self ++ es).
Proof.
  revert self. induction es as [|e es IH]; intros self Hinv; simpl.
  { exists self. split_and!; try done. rewrite app_nil_r. unfold last_n.
    pose proof (contents_length self Hinv). pose proof (ri_len _ Hinv). unfold zlen in *.
    by replace (length (contents self) - _)%nat with 0%nat by lia. }
  destruct (push_ok self Hinv e) as (s1 & -> & Hinv1 & Hl1 & Hc1 & _). simpl.
  destruct (IH s1 Hinv1) as (s2 & -> & Hinv2 & Hl2 & Hc2).
  exists s2. split_and!; [done|done|congruence|]. rewrite Hc2, Hc1.
  replace (length (entries s1)) with (length (entries self)) by (unfold zlen in *; lia).
  rewrite (cons_middle e (contents self) es), app_assoc. unfold last_n.
  set (l := contents self ++ [e]). set (n := length (entries self)).
  rewrite !length_app, length_drop.
  destruct (decide (length l ≤ n)%nat).
  { replace (length l - n)%nat with 0%nat by lia. by rewrite drop_0, Nat.sub_0_r. }
  rewrite <- (drop_app_le l es (length l - n)) by lia.
  rewrite drop_drop. f_equal. lia.
Qed.

Lemma ring_clear_ok self : inv self → inv (clear self) ∧ contents (clear self) = [].
Proof.
  intros []. pose proof (zlen_nonneg (entries self)). split.
  - split; simpl; unfold U64_MAX; lia.
  - unfold contents. destruct (_ =? _) eqn:E; [|done]. bool_solve. simpl in *.
    rewrite drop_0, take_0. rewrite app_nil_r. apply nil_length_inv. unfold zlen in E. lia.
Qed.

(** A dirty ring keeps exactly the most recent [capacity] entries: pushing any
    list of entries into a fresh ring succeeds, and iterating yields the last
    [capacity] of them, oldest first. *)
Theorem ring_keeps_latest cap es :
  0 ≤ cap ≤ 2 ^ 31 →
  ∃ self, for_each es (with_capacity cap) push = Some self ∧
    iter self = Some (last_n (Z.to_nat cap) es).
Proof.
  intros Hcap. destruct (ring_with_capacity_ok cap Hcap) as (Hi & Hc & Hl).
  destruct (push_all_ok (with_capacity cap) es Hi) as (self & He & Hi' & _ & Hc').
  exists self. split; [done|]. rewrite (iter_ok self Hi'), Hc', Hc. simpl.
  f_equal. f_equal. by rewrite length_replicate.
Qed.

Definition sample_entry (i : Z) : DirtyEntry :=
  {| de_handle := {| h_index := i; h_generation := 1 |}; de_origin_sequence := i |}.

Lemma ring_keeps_latest_witness :
  ∃ self, for_each (sample_entry <$> [1; 2; 3]) (with_capacity 2) push = Some self ∧
    iter self = Some (sample_entry <$> [2; 3]).
Proof.
  destruct (ring_keeps_latest 2 (sample_entry <$> [1; 2; 3])) as (self & H1 & H2); [lia|].
  exists self. split; [exact H1|]. rewrite H2. reflexivity.
Defined.

End DirtyRing.
