(* ===== verification/PeerFrontier.v ===== *)
(** * The per-peer, per-origin frontier table

    [crates/gabion/src/crdt/peer_frontier.rs]: what was last sent to and acked
    by each peer for each origin slot, as two flattened matrices.  The
    theorems: the table is a function of (peer, origin); [record_*] raises one
    entry to a maximum and moves no other, [clear_node_slot] zeroes one
    column, [remove_peer] one row. *)

From S2P Require Import Prelude Types.

(** [slice[lo..hi].fill(v)] *)
Definition zfill {A} (l : list A) (lo hi : Z) (v : A) : option (list A) :=
  if (0 <=? lo) && (lo <=? hi) && (hi <=? zlen l)
  then Some (take (Z.to_nat lo) l ++ replicate (Z.to_nat (hi - lo)) v ++ drop (Z.to_nat hi) l)
  else None.

Lemma zfill_ok {A} (l : list A) lo hi v :
  0 ≤ lo ≤ hi → hi ≤ zlen l →
  ∃ l', zfill l lo hi v = Some l' ∧ zlen l' = zlen l ∧
    ∀ i, zget l' i = if decide (lo ≤ i < hi) then Some v else zget l i.
Proof.
  intros Hlo Hhi. unfold zfill.
  replace ((0 <=? lo) && (lo <=? hi) && (hi <=? zlen l)) with true by lia.
  eexists. split; [done|]. unfold zlen in *. split.
  { rewrite !length_app, length_take, length_replicate, length_drop. lia. }
  intros i. unfold zget. destruct (0 <=? i) eqn:Hi; bool_solve.
  2:{ case_decide; [lia|done]. }
  destruct (decide (i < lo)).
  { rewrite decide_False by lia.
    rewrite lookup_app_l by (rewrite length_take; lia). by rewrite lookup_take_lt by lia. }
  rewrite lookup_app_r by (rewrite length_take; lia). rewrite length_take.
  case_decide.
  - rewrite lookup_app_l by (rewrite length_replicate; lia). apply lookup_replicate_2. lia.
  - rewrite lookup_app_r by (rewrite length_replicate; lia). rewrite length_replicate, lookup_drop.
    f_equal. lia.
Qed.

Module PeerFrontierTable.

Record t := mk {
  peer_ids : list (option NodeId);
  last_acked_seq : list Z;
  last_sent_seq : list Z;
  peer_capacity : Z;
  node_capacity : Z;
  full_rejects : Z;
}.

#[global] Instance eta_t : Eta t := λ x,
  mk (peer_ids x) (last_acked_seq x) (last_sent_seq x) (peer_capacity x)
     (node_capacity x) (full_rejects x).

Definition new (peer_cap node_cap : Z) : t :=
  let flat := saturating_mul 64 peer_cap node_cap in
  {| peer_ids := replicate (Z.to_nat peer_cap) None;
     last_acked_seq := replicate (Z.to_nat flat) 0;
     last_sent_seq := replicate (Z.to_nat flat) 0;
     peer_capacity := peer_cap;
     node_capacity := node_cap;
     full_rejects := 0 |}.

(** [iter().position(p)]: the first index satisfying [p]. *)
Fixpoint position {A} (p : A → bool) (l : list A) (i : Z) : option Z :=
  match l with
  | [] => None
  | x :: l' => if p x then Some i else position p l' (i + 1)
  end.

Definition find_peer (self : t) (peer : NodeId) : option Z :=
  option_map as_u16
    (position (λ p, bool_decide (p = Some peer)) (peer_ids self) 0).

Definition intern_peer (self : t) (peer : NodeId) : option (t * option Z) :=
  match find_peer self peer with
  | Some slot => Some (self, Some slot)
  | None =>
    match position (λ p, bool_decide (p = None)) (peer_ids self) 0 with
    | Some i =>
      ids ← zset (peer_ids self) i (Some peer);
      Some (self <| peer_ids := ids |>, Some (as_u16 i))
    | None =>
      Some (self <| full_rejects := saturating_add 64 (full_rejects self) 1 |>, None)
    end
  end.

Definition remove_peer (self : t) (peer : NodeId) : option t :=
  match find_peer self peer with
  | None => Some self
  | Some peer_slot =>
    ids ← zset (peer_ids self) peer_slot None;
    let base := peer_slot * node_capacity self in
    let end_ := base + node_capacity self in
    acked ← zfill (last_acked_seq self) base end_ 0;
    sent ← zfill (last_sent_seq self) base end_ 0;
    Some (self <| peer_ids := ids |> <| last_acked_seq := acked |>
               <| last_sent_seq := sent |>)
  end.

Definition flat_index (self : t) (peer_slot : Z) (node_slot : NodeSlot) : Z :=
  peer_slot * node_capacity self + node_slot.

Definition last_acked (self : t) (peer_slot : Z) (node_slot : NodeSlot) : option Z :=
  zget (last_acked_seq self) (flat_index self peer_slot node_slot).

Definition last_sent (self : t) (peer_slot : Z) (node_slot : NodeSlot) : option Z :=
  zget (last_sent_seq self) (flat_index self peer_slot node_slot).

Definition record_sent (self : t) (peer_slot : Z) (node_slot : NodeSlot) (sequence : Z) :
    option t :=
  let i := flat_index self peer_slot node_slot in
  cur ← zget (last_sent_seq self) i;
  if cur <? sequence then
    sent ← zset (last_sent_seq self) i sequence;
    Some (self <| last_sent_seq := sent |>)
  else Some self.

Definition record_acked (self : t) (peer_slot : Z) (node_slot : NodeSlot) (sequence : Z) :
    option t :=
  let i := flat_index self peer_slot node_slot in
  cur ← zget (last_acked_seq self) i;
  if cur <? sequence then
    acked ← zset (last_acked_seq self) i sequence;
    Some (self <| last_acked_seq := acked |>)
  else Some self.

Definition clear_node_slot (self : t) (node_slot : NodeSlot) : option t :=
  for_each (zrange 0 (peer_capacity self)) self (λ self peer_slot,
    let i := flat_index self peer_slot node_slot in
    acked ← zset (last_acked_seq self) i 0;
    sent ← zset (last_sent_seq self) i 0;
    Some (self <| last_acked_seq := acked |> <| last_sent_seq := sent |>)).

Definition lacks_indices (self : t) (peer_slot : Z) (active_origins : list NodeSlot)
    (origin_sequences : list Z) (active_indices : list Z) : option (list Z) :=
  for_each active_indices [] (λ out idx,
    origin ← zget active_origins idx;
    last ← last_acked self peer_slot origin;
    seq ← zget origin_sequences idx;
    Some (if last <? seq then out ++ [idx] else out)).

(** ** Invariant *)
Record inv (self : t) : Prop := {
  fi_peer_cap : 0 ≤ peer_capacity self ≤ U16_MAX;
  fi_node_cap : 0 ≤ node_capacity self ≤ U16_MAX;
  fi_ids : zlen (peer_ids self) = peer_capacity self;
  fi_acked : zlen (last_acked_seq self) = peer_capacity self * node_capacity self;
  fi_sent : zlen (last_sent_seq self) = peer_capacity self * node_capacity self;
  fi_distinct i j p : zget (peer_ids self) i = Some (Some p) →
                      zget (peer_ids self) j = Some (Some p) → i = j;
}.

(** A valid (peer, origin) coordinate. *)
Definition coord (self : t) (p n : Z) : Prop :=
  0 ≤ p < peer_capacity self ∧ 0 ≤ n < node_capacity self.

Lemma flat_index_range self p n :
  coord self p n → 0 ≤ flat_index self p n < peer_capacity self * node_capacity self.
Proof. unfold coord, flat_index. nia. Qed.

Lemma flat_index_inj self p n p' n' :
  coord self p n → coord self p' n' → flat_index self p n = flat_index self p' n' →
  p = p' ∧ n = n'.
Proof.
  unfold coord, flat_index. intros [? ?] [? ?] Heq.
  assert (p = p') by (destruct (Z.lt_trichotomy p p') as [?|[?|?]]; [nia|done|nia]).
  subst. lia.
Qed.

Lemma frontier_new_ok peer_cap node_cap :
  0 ≤ peer_cap ≤ U16_MAX → 0 ≤ node_cap ≤ U16_MAX →
  inv (new peer_cap node_cap) ∧ peer_capacity (new peer_cap node_cap) = peer_cap ∧
  node_capacity (new peer_cap node_cap) = node_cap.
Proof.
  intros Hp Hn. split; [|done]. unfold U16_MAX in *.
  assert (saturating_mul 64 peer_cap node_cap = peer_cap * node_cap) as Hf.
  { unfold saturating_mul. apply Z.min_l. nia. }
  split; unfold new; simpl; rewrite ?Hf, ?zlen_replicate; unfold U16_MAX; try nia.
  intros i j p Hi. pose proof (zget_Some_range _ _ _ Hi) as Hr.
  rewrite zlen_replicate in Hr. rewrite zget_replicate in Hi by done. done.
Qed.

Section position.
Context {A : Type} (p : A → bool).
Implicit Types (l : list A).

Lemma position_Some l k i :
  position p l k = Some i → k ≤ i ∧ ∃ x, zget l (i - k) = Some x ∧ p x = true.
Proof.
  revert k. induction l as [|x l IH]; intros k; simpl; [done|].
  destruct (p x) eqn:Hx.
  - intros [= <-]. split; [lia|]. exists x. by rewrite Z.sub_diag.
  - intros (Hk & y & Hy & Hpy)%IH. split; [lia|]. exists y. split; [|done].
    rewrite zget_lookup in * by lia.
    by replace (Z.to_nat (i - k)) with (S (Z.to_nat (i - (k + 1)))) by lia.
Qed.

Lemma position_None l k x : position p l k = None → x ∈ l → p x = false.
Proof.
  revert k. induction l as [|y l IH]; intros k; simpl; [by intros _ ?%elem_of_nil|].
  destruct (p y) eqn:Hy; [done|]. intros Hn [->|Hx]%elem_of_cons; eauto.
Qed.
End position.

Section inv.
Context (self : t) (Hinv : inv self).

Lemma find_peer_ok peer :
  match find_peer self peer with
  | Some s => zget (peer_ids self) s = Some (Some peer)
  | None => ∀ s, zget (peer_ids self) s ≠ Some (Some peer)
  end.
Proof using Hinv.
  unfold find_peer. destruct (position _ _ _) as [i|] eqn:E; simpl.
  - apply position_Some in E as (Hi & x & Hx & Hp%bool_decide_eq_true). subst x.
    rewrite Z.sub_0_r in Hx. pose proof (zget_Some_range _ _ _ Hx).
    destruct Hinv. unfold as_u16, U16_MAX in *. by rewrite Z.mod_small by lia.
  - intros s Hs. pose proof (zget_Some_range _ _ _ Hs). rewrite zget_lookup in Hs by lia.
    apply list_elem_of_lookup_2 in Hs. eapply position_None in E; [|done].
    by rewrite bool_decide_eq_false in E.
Qed.

(** Interning: the peer's slot if it has one, else the first vacant slot,
    else nothing but the reject counter moves. *)
Lemma intern_peer_ok peer :
  ∃ self' r, intern_peer self peer = Some (self', r) ∧ inv self' ∧
    last_acked_seq self' = last_acked_seq self ∧
    last_sent_seq self' = last_sent_seq self ∧
    match r with
    | Some s => zget (peer_ids self') s = Some (Some peer) ∧
                ∀ s', s' ≠ s → zget (peer_ids self') s' = zget (peer_ids self) s'
    | None => peer_ids self' = peer_ids self ∧
              ∀ s, zget (peer_ids self) s ≠ Some None
    end.
Proof using Hinv.
  unfold intern_peer. pose proof (find_peer_ok peer) as Hf.
  destruct (find_peer self peer) as [s|]; [by eauto 10|].
  destruct (position _ _ _) as [i|] eqn:E.
  - apply position_Some in E as (Hi & x & Hx & Hp%bool_decide_eq_true). subst x.
    rewrite Z.sub_0_r in Hx. pose proof (zget_Some_range _ _ _ Hx).
    rewrite zset_ok by done. simpl. destruct Hinv. unfold as_u16, U16_MAX in *.
    rewrite Z.mod_small by lia. do 2 eexists. split; [done|]. simpl. split; [|split_and!].
    + split; simpl; rewrite ?zlen_zupd; unfold U16_MAX; try done.
      intros a b q. rewrite !zget_zupd by done.
      destruct (decide (i = a)), (decide (i = b)); subst; try done.
      * intros [= ->] Hq. by destruct (Hf b).
      * intros Hq [= ->]. by destruct (Hf a).
      * apply fi_distinct0.
    + done.
    + done.
    + by rewrite zget_zupd_eq by done.
    + intros s' Hs'. by rewrite zget_zupd_ne by done.
  - do 2 eexists. split; [done|]. simpl. split; [by destruct Hinv|]. split_and!; try done.
    intros s Hs. pose proof (zget_Some_range _ _ _ Hs). rewrite zget_lookup in Hs by lia.
    apply list_elem_of_lookup_2 in Hs. eapply position_None in E; [|done].
    by rewrite bool_decide_eq_false in E.
Qed.

Lemma record_acked_ok p n seq :
  coord self p n →
  ∃ self', record_acked self p n seq = Some self' ∧ inv self' ∧
    last_sent_seq self' = last_sent_seq self ∧
    ∀ p' n', coord self p' n' →
      last_acked self' p' n' =
        if decide (p' = p ∧ n' = n)
        then Z.max seq <$> last_acked self p n else last_acked self p' n'.
Proof using Hinv.
  intros Hc. pose proof (flat_index_range _ _ _ Hc). unfold record_acked.
  destruct (zget_in_range (last_acked_seq self) (flat_index self p n)) as [cur Hcur];
    [destruct Hinv; lia|].
  assert (zlen (last_acked_seq self) = peer_capacity self * node_capacity self) as Hl
    by apply Hinv.
  rewrite Hcur. simpl. destruct (cur <? seq) eqn:E; bool_solve.
  - rewrite zset_ok by lia. simpl. eexists. split; [done|].
    split; [destruct Hinv; split; simpl; rewrite ?zlen_zupd; done|]. split; [done|].
    intros p' n' Hc'. unfold last_acked in *. simpl.
    change (flat_index (_ <| _ := _ |>) p' n') with (flat_index self p' n').
    rewrite zget_zupd by lia.
    destruct (decide (flat_index self p n = flat_index self p' n')) as [Heq|Hne].
    + apply flat_index_inj in Heq as [-> ->]; [|done..].
      rewrite decide_True, Hcur by done. simpl. f_equal. lia.
    + rewrite decide_False; [done|]. by intros [-> ->].
  - eexists. split; [done|]. split; [done|]. split; [done|].
    intros p' n' _. case_decide as Hd; [|done]. destruct Hd as [-> ->].
    unfold last_acked. rewrite Hcur. simpl. f_equal. lia.
Qed.

Lemma record_sent_ok p n seq :
  coord self p n →
  ∃ self', record_sent self p n seq = Some self' ∧ inv self' ∧
    peer_capacity self' = peer_capacity self ∧ node_capacity self' = node_capacity self ∧
    last_acked_seq self' = last_acked_seq self.
Proof using Hinv.
  intros Hc. pose proof (flat_index_range _ _ _ Hc). unfold record_sent.
  assert (zlen (last_sent_seq self) = peer_capacity self * node_capacity self) as Hl by apply Hinv.
  destruct (zget_in_range (last_sent_seq self) (flat_index self p n)) as [cur ->]; [lia|]. simpl.
  destruct (cur <? seq); [|by eexists]. rewrite zset_ok by lia. simpl. eexists. split; [done|].
  split; [destruct Hinv; split; simpl; rewrite ?zlen_zupd; done|done].
Qed.

Lemma clear_node_slot_ok n :
  0 ≤ n < node_capacity self →
  ∃ self', clear_node_slot self n = Some self' ∧ inv self' ∧
    peer_capacity self' = peer_capacity self ∧ node_capacity self' = node_capacity self ∧
    peer_ids self' = peer_ids self ∧
    ∀ p' n', coord self p' n' →
      last_acked self' p' n' = (if decide (n' = n) then Some 0 else last_acked self p' n') ∧
      last_sent self' p' n' = (if decide (n' = n) then Some 0 else last_sent self p' n').
Proof using Hinv.
  intros Hn. unfold clear_node_slot.
  edestruct (for_each_inv (λ todo st,
    inv st ∧ peer_capacity st = peer_capacity self ∧ node_capacity st = node_capacity self ∧
    peer_ids st = peer_ids self ∧ NoDup todo ∧
    (∀ p, p ∈ todo → 0 ≤ p < peer_capacity self) ∧
    ∀ p' n', coord self p' n' →
      last_acked st p' n' =
        (if decide (n' = n ∧ p' ∉ todo) then Some 0 else last_acked self p' n') ∧
      last_sent st p' n' =
        (if decide (n' = n ∧ p' ∉ todo) then Some 0 else last_sent self p' n')))
    as (st & -> & Hi & Hpc & Hnc & Hids & _ & _ & Hv).
  3:{ exists st. split_and!; try done. intros p' n' Hc.
      destruct (Hv p' n' Hc) as [-> ->]. destruct (decide (n' = n)) as [->|].
      - rewrite !decide_True; [done|..]; (split; [done|]; by intros ?%elem_of_nil).
      - rewrite !decide_False by tauto. done. }
  2:{ split_and!; try done; [apply NoDup_zrange|intros p; by rewrite elem_of_zrange|].
      intros p' n' [Hp _]. rewrite !decide_False; [done|..];
        rewrite elem_of_zrange; tauto. }
  intros p todo st (Hi & Hpc & Hnc & Hids & [Hp_todo Hnd]%NoDup_cons & Hr & Hv).
  assert (0 ≤ p < peer_capacity self) as Hp by (apply Hr, elem_of_cons; by left).
  assert (coord st p n) as Hc by (split; lia).
  pose proof (flat_index_range _ _ _ Hc). pose proof Hi as [_ _ ? Ha Hs Hd].
  rewrite !zset_ok by lia. simpl. eexists. split; [done|]. split_and!; try done.
  { split; simpl; rewrite ?zlen_zupd; unfold U16_MAX; try done; apply Hi. }
  { intros q Hq. apply Hr, elem_of_cons. by right. }
  intros p' n' Hc'. specialize (Hv p' n' Hc').
  assert (coord st p' n') as Hc'' by (unfold coord; rewrite Hpc, Hnc; apply Hc').
  unfold last_acked, last_sent in *. simpl.
  change (flat_index (_ <| _ := _ |>) p' n') with (flat_index st p' n').
  rewrite !zget_zupd by lia.
  destruct (decide (flat_index st p n = flat_index st p' n')) as [Heq|Hne].
  - apply flat_index_inj in Heq as [-> ->]; [|done..].
    rewrite !decide_True by done. done.
  - destruct Hv as [-> ->].
    assert ((n' = n ∧ p' ∉ p :: todo) ↔ (n' = n ∧ p' ∉ todo)) as Hiff.
    { rewrite not_elem_of_cons. split; [tauto|]. intros [-> ?]. split_and!; try done.
      intros ->. by destruct Hne. }
    split; apply decide_ext, Hiff.
Qed.

(** Removing a peer vacates its slot and zeroes its row. *)
Lemma remove_peer_ok peer :
  ∃ self', remove_peer self peer = Some self' ∧ inv self' ∧
    peer_capacity self' = peer_capacity self ∧ node_capacity self' = node_capacity self ∧
    (∀ s, zget (peer_ids self') s =
       if decide (zget (peer_ids self) s = Some (Some peer)) then Some None
       else zget (peer_ids self) s) ∧
    ∀ p n, coord self p n →
      last_acked self' p n =
        if decide (zget (peer_ids self) p = Some (Some peer)) then Some 0 else last_acked self p n.
Proof using Hinv.
  unfold remove_peer. pose proof (find_peer_ok peer) as Hf.
  destruct (find_peer self peer) as [i|].
  2:{ exists self. split; [done|]. split; [done|]. split; [done|]. split; [done|].
      split; [intros s; by rewrite decide_False|]. intros p n _. by rewrite decide_False. }
  pose proof (zget_Some_range _ _ _ Hf) as Hi. pose proof Hinv as [Hpc Hnc Hids Ha Hs Hd].
  rewrite zset_ok by done. simpl.
  assert (i * node_capacity self + node_capacity self ≤ peer_capacity self * node_capacity self) by nia.
  destruct (zfill_ok (last_acked_seq self) (i * node_capacity self)
    (i * node_capacity self + node_capacity self) 0) as (acked & -> & Hal & Hag); [nia|lia|]. simpl.
  destruct (zfill_ok (last_sent_seq self) (i * node_capacity self)
    (i * node_capacity self + node_capacity self) 0) as (sent & -> & Hsl & Hsg); [nia|lia|]. simpl.
  assert (∀ s, zget (zupd (peer_ids self) i None) s =
    if decide (zget (peer_ids self) s = Some (Some peer)) then Some None
    else zget (peer_ids self) s) as Hget.
  { intros s. rewrite zget_zupd by done. destruct (decide (i = s)) as [<-|Hne].
    - by rewrite decide_True.
    - rewrite decide_False; [done|]. intros Hsp. by destruct Hne; eapply Hd. }
  eexists. split; [done|]. split; [|split; [done|]; split; [done|]; split; [done|]].
  - split; simpl; rewrite ?zlen_zupd; try done; try lia.
    intros a b q. rewrite !Hget. case_decide; [done|]. case_decide; [done|]. apply Hd.
  - intros p n [Hp Hn]. unfold last_acked, flat_index. simpl. rewrite Hag.
    destruct (decide (p = i)) as [->|Hne].
    + rewrite decide_True by lia. by rewrite decide_True.
    + rewrite decide_False by nia. rewrite decide_False; [done|]. intros Hsp. by destruct Hne; eapply Hd.
Qed.

(** Interning and recording keep the dimensions. *)
Lemma intern_peer_caps peer self' r :
  intern_peer self peer = Some (self', r) →
  peer_capacity self' = peer_capacity self ∧ node_capacity self' = node_capacity self.
Proof using.
  unfold intern_peer. destruct (find_peer self peer); [by intros [= <- _]|].
  destruct (position _ _ _); [|by intros [= <- _]].
  intros (ids & _ & He)%bind_Some. by injection He as <- _.
Qed.

Lemma record_acked_caps p n seq self' :
  record_acked self p n seq = Some self' →
  peer_capacity self' = peer_capacity self ∧ node_capacity self' = node_capacity self ∧
  peer_ids self' = peer_ids self.
Proof using.
  unfold record_acked. intros (cur & _ & He)%bind_Some. destruct (_ <? _); [|by injection He as <-].
  apply bind_Some in He as (a & _ & He). by injection He as <-.
Qed.
End inv.

End PeerFrontierTable.
