(* ===== verification/IO.v ===== *)
(** * Column-oriented batches and sinks

    [crates/gabion/src/crdt/io.rs]: [ObservationBatch], [DeltaSink] and
    [ExpirationSink] store one vector per field.  [batch_rows], [delta_rows]
    and [expiration_rows] say which list of rows a set of columns holds; every
    consumer in the cell store is specified on rows. *)

From S2P Require Import Prelude Types.

Record Observation := {
  o_rule_fingerprint : Z;
  o_key_hash : KeyHash;
  o_bucket : BucketEpoch;
  o_origin : NodeId;
  o_incarnation : Incarnation;
  o_count : Z;
  o_last_update_millis : Z;
}.

Module ObservationBatch.

Record t := mk {
  rule_fingerprints : list Z;
  key_hashes : list KeyHash;
  buckets : list BucketEpoch;
  origin_node_ids : list NodeId;
  incarnations : list Incarnation;
  counts : list Z;
  last_update_millis : list Z;
}.

#[global] Instance eta_t : Eta t := λ x,
  mk (rule_fingerprints x) (key_hashes x) (buckets x) (origin_node_ids x)
     (incarnations x) (counts x) (last_update_millis x).

(** [Vec::with_capacity] reserves; the vectors start empty. *)
Definition with_capacity (capacity : Z) : t := mk [] [] [] [] [] [] [].

Definition assert_consistent (self : t) : option unit :=
  let n := zlen (rule_fingerprints self) in
  assert_ (zlen (key_hashes self) =? n);;
  assert_ (zlen (buckets self) =? n);;
  assert_ (zlen (origin_node_ids self) =? n);;
  assert_ (zlen (incarnations self) =? n);;
  assert_ (zlen (counts self) =? n);;
  assert_ (zlen (last_update_millis self) =? n).

Definition len (self : t) : Z := zlen (rule_fingerprints self).
Definition is_empty (self : t) : bool := len self =? 0.
Definition clear (self : t) : t := mk [] [] [] [] [] [] [].

Definition push (self : t) (row : Observation) : t :=
  self <| rule_fingerprints := rule_fingerprints self ++ [o_rule_fingerprint row] |>
       <| key_hashes := key_hashes self ++ [o_key_hash row] |>
       <| buckets := buckets self ++ [o_bucket row] |>
       <| origin_node_ids := origin_node_ids self ++ [o_origin row] |>
       <| incarnations := incarnations self ++ [o_incarnation row] |>
       <| counts := counts self ++ [o_count row] |>
       <| last_update_millis := last_update_millis self ++ [o_last_update_millis row] |>.

(** The columns of a list of rows. *)
Definition of_rows (rows : list Observation) : t := {|
  rule_fingerprints := o_rule_fingerprint <$> rows;
  key_hashes := o_key_hash <$> rows;
  buckets := o_bucket <$> rows;
  origin_node_ids := o_origin <$> rows;
  incarnations := o_incarnation <$> rows;
  counts := o_count <$> rows;
  last_update_millis := o_last_update_millis <$> rows;
|}.

(** Every batch built by [push] holds the pushed rows. *)
Lemma obs_push_of_rows rows row : push (of_rows rows) row = of_rows (rows ++ [row]).
Proof. unfold push, of_rows. simpl. by rewrite !fmap_app. Qed.

Lemma assert_consistent_of_rows rows : assert_consistent (of_rows rows) = Some ().
Proof.
  unfold assert_consistent, of_rows. simpl. rewrite !zlen_fmap, Z.eqb_refl. done.
Qed.

Lemma obs_len_of_rows rows : len (of_rows rows) = zlen rows.
Proof. unfold len. simpl. by rewrite zlen_fmap. Qed.

End ObservationBatch.

Definition u8_of_bool (b : bool) : Z := if b then 1 else 0.

Module DeltaSink.

Record t := mk {
  handles : list CellHandle;
  keys : list CellIdentity;
  previous : list Z;
  current : list Z;
  deltas : list Z;
  applies_locally : list Z;
}.

#[global] Instance eta_t : Eta t := λ x,
  mk (handles x) (keys x) (previous x) (current x) (deltas x) (applies_locally x).

Definition with_capacity (capacity : Z) : t := mk [] [] [] [] [] [].
Definition len (self : t) : Z := zlen (handles self).
Definition is_empty (self : t) : bool := len self =? 0.
Definition clear (self : t) : t := mk [] [] [] [] [] [].

Definition row (self : t) (i : Z) : option (option CellDelta) :=
  if len self <=? i then Some None else
  h ← zget (handles self) i;
  k ← zget (keys self) i;
  p ← zget (previous self) i;
  c ← zget (current self) i;
  d ← zget (deltas self) i;
  a ← zget (applies_locally self) i;
  Some (Some {| d_handle := h; d_key := k; d_previous_count := p;
                d_current_count := c; d_delta := d;
                d_applies_locally := negb (a =? 0) |}).

Definition push (self : t) (handle : CellHandle) (key : CellIdentity)
    (prev cur delta : Z) (applies : bool) : t :=
  self <| handles := handles self ++ [handle] |>
       <| keys := keys self ++ [key] |>
       <| previous := previous self ++ [prev] |>
       <| current := current self ++ [cur] |>
       <| deltas := deltas self ++ [delta] |>
       <| applies_locally := applies_locally self ++ [u8_of_bool applies] |>.

Definition of_rows (rows : list CellDelta) : t := {|
  handles := d_handle <$> rows;
  keys := d_key <$> rows;
  previous := d_previous_count <$> rows;
  current := d_current_count <$> rows;
  deltas := d_delta <$> rows;
  applies_locally := (λ r, u8_of_bool (d_applies_locally r)) <$> rows;
|}.

Lemma delta_push_of_rows rows h k p c d a :
  push (of_rows rows) h k p c d a =
  of_rows (rows ++ [{| d_handle := h; d_key := k; d_previous_count := p;
                       d_current_count := c; d_delta := d; d_applies_locally := a |}]).
Proof. unfold push, of_rows. simpl. by rewrite !fmap_app. Qed.

Lemma delta_len_of_rows rows : len (of_rows rows) = zlen rows.
Proof. unfold len. simpl. by rewrite zlen_fmap. Qed.

Lemma delta_row_of_rows rows i : 0 ≤ i → row (of_rows rows) i = Some (zget rows i).
Proof.
  intros Hi. unfold row. rewrite delta_len_of_rows. destruct (_ <=? _) eqn:E; bool_solve.
  { by rewrite zget_out by lia. }
  destruct (zget_in_range rows i) as [r Hr]; [lia|].
  simpl. rewrite !zget_fmap, Hr. simpl. by destruct r as [? ? ? ? ? []].
Qed.

(** Reading back the row just pushed. *)
Lemma row_last rows r :
  row (of_rows (rows ++ [r])) (len (of_rows (rows ++ [r])) - 1) = Some (Some r).
Proof.
  rewrite delta_len_of_rows, zlen_app. pose proof (zlen_nonneg rows).
  replace (zlen rows + zlen [r] - 1) with (zlen rows) by (unfold zlen; simpl; lia).
  rewrite delta_row_of_rows by done. f_equal. unfold zlen.
  rewrite zget_nat, lookup_app_r, Nat.sub_diag by lia. done.
Qed.

End DeltaSink.

Module ExpirationSink.

Record t := mk {
  handles : list CellHandle;
  keys : list CellIdentity;
  last_counts : list Z;
  last_update_millis : list Z;
  applies_locally : list Z;
}.

#[global] Instance eta_t : Eta t := λ x,
  mk (handles x) (keys x) (last_counts x) (last_update_millis x) (applies_locally x).

Definition with_capacity (capacity : Z) : t := mk [] [] [] [] [].
Definition len (self : t) : Z := zlen (handles self).
Definition is_empty (self : t) : bool := len self =? 0.
Definition clear (self : t) : t := mk [] [] [] [] [].

Definition row (self : t) (i : Z) : option (option CellExpiration) :=
  if len self <=? i then Some None else
  h ← zget (handles self) i;
  k ← zget (keys self) i;
  c ← zget (last_counts self) i;
  u ← zget (last_update_millis self) i;
  a ← zget (applies_locally self) i;
  Some (Some {| e_handle := h; e_key := k; e_last_count := c;
                e_last_update_millis := u; e_applies_locally := negb (a =? 0) |}).

Definition push (self : t) (handle : CellHandle) (key : CellIdentity)
    (last_count last_update : Z) (applies : bool) : t :=
  self <| handles := handles self ++ [handle] |>
       <| keys := keys self ++ [key] |>
       <| last_counts := last_counts self ++ [last_count] |>
       <| last_update_millis := last_update_millis self ++ [last_update] |>
       <| applies_locally := applies_locally self ++ [u8_of_bool applies] |>.

Definition of_rows (rows : list CellExpiration) : t := {|
  handles := e_handle <$> rows;
  keys := e_key <$> rows;
  last_counts := e_last_count <$> rows;
  last_update_millis := e_last_update_millis <$> rows;
  applies_locally := (λ r, u8_of_bool (e_applies_locally r)) <$> rows;
|}.

Lemma exp_push_of_rows rows h k c u a :
  push (of_rows rows) h k c u a =
  of_rows (rows ++ [{| e_handle := h; e_key := k; e_last_count := c;
                       e_last_update_millis := u; e_applies_locally := a |}]).
Proof. unfold push, of_rows. simpl. by rewrite !fmap_app. Qed.

Lemma exp_len_of_rows rows : len (of_rows rows) = zlen rows.
Proof. unfold len. simpl. by rewrite zlen_fmap. Qed.

Lemma exp_row_of_rows rows i : 0 ≤ i → row (of_rows rows) i = Some (zget rows i).
Proof.
  intros Hi. unfold row. rewrite exp_len_of_rows. destruct (_ <=? _) eqn:E; bool_solve.
  { by rewrite zget_out by lia. }
  destruct (zget_in_range rows i) as [r Hr]; [lia|].
  simpl. rewrite !zget_fmap, Hr. simpl. by destruct r as [? ? ? ? []].
Qed.

End ExpirationSink.
