(* ===== verification/CellStore.v ===== *)
(** * The cell store: data and operations

    [CellStore] of [crates/gabion/src/crdt.rs]: one row per active counter in
    parallel columns, an identity index, two identity dictionaries, the dirty
    rings of the gossip lanes, the repair cursor, the frame-dedup marks and
    the peer frontier.  Every method of the source is a definition here; a
    method that takes [&mut self] returns the new store. *)

From S2P Require Import Prelude Types Hash Index Freelist Dictionary DirtyRing PeerFrontier IO.

Definition NO_FREE : Z := U32_MAX.

Inductive UpsertMode :=
  | Accumulate (hits : Z)
  | MaxMerge (observed : Z).

Record UpsertSpec := {
  us_rule_slot : RuleSlot;
  us_key_hash : KeyHash;
  us_bucket : BucketEpoch;
  us_origin_slot : NodeSlot;
  us_incarnation : Incarnation;
  us_now_millis : Z;
  us_mode : UpsertMode;
}.

Module CellStore.

Record t := mk {
  rules : list RuleSlot;
  key_hashes : list KeyHash;
  buckets : list BucketEpoch;
  origins : list NodeSlot;
  incarnations : list Incarnation;
  counts : list Z;
  last_update_millis : list Z;
  origin_sequences : list Z;
  generations : list Z;
  free_next : list Z;
  free_head : Z;
  active_len : Z;
  capacity : Z;
  index : CellIndex.t;
  local_dirty : DirtyRing.t;
  forwarded_dirty : DirtyRing.t;
  repair_cursor : Z;
  selection_marks : list Z;
  selection_epoch : Z;
  next_sequence_by_origin : list Z;
  expire_current_epoch_scratch : list BucketEpoch;
  expire_live_buckets_scratch : list Z;
  rule_dictionary : RuleDictionary.t;
  node_dictionary : NodeDictionary.t;
  peer_frontiers : PeerFrontierTable.t;
  local_identity : NodeIdentity;
  local_node_slot : NodeSlot;
  cell_store_full_rejects : Z;
  rule_dictionary_full_rejects : Z;
  node_dictionary_full_rejects : Z;
}.

#[global] Instance eta_t : Eta t := λ x,
  mk (rules x) (key_hashes x) (buckets x) (origins x) (incarnations x) (counts x)
     (last_update_millis x) (origin_sequences x) (generations x) (free_next x)
     (free_head x) (active_len x) (capacity x) (index x) (local_dirty x)
     (forwarded_dirty x) (repair_cursor x) (selection_marks x) (selection_epoch x)
     (next_sequence_by_origin x) (expire_current_epoch_scratch x)
     (expire_live_buckets_scratch x) (rule_dictionary x) (node_dictionary x)
     (peer_frontiers x) (local_identity x) (local_node_slot x)
     (cell_store_full_rejects x) (rule_dictionary_full_rejects x)
     (node_dictionary_full_rejects x).

Definition new (config : CellStoreConfig) (identity : NodeIdentity) : option t :=
  assert_ (0 <? cell_capacity config);;
  assert_ (0 <? rule_dictionary_capacity config);;
  assert_ (0 <? node_dictionary_capacity config);;
  let cap := cell_capacity config in
  let n := Z.to_nat cap in
  index_cap ← pow2_index_capacity_for cap;
  nodes ← NodeDictionary.with_capacity (node_dictionary_capacity config);
  '(nodes, slot) ← NodeDictionary.intern nodes (node_id identity) (ni_incarnation identity);
  slot ← (slot : option Z);
  (* Pin the local slot so it cannot be freed via dec_ref. *)
  nodes ← NodeDictionary.inc_ref nodes slot;
  idx ← CellIndex.with_capacity index_cap;
  rule_dict ← RuleDictionary.with_capacity (rule_dictionary_capacity config);
  let scratch := replicate (Z.to_nat (rule_dictionary_capacity config)) 0 in
  Some {|
    rules := replicate n 0;
    key_hashes := replicate n 0;
    buckets := replicate n 0;
    origins := replicate n 0;
    incarnations := replicate n 0;
    counts := replicate n 0;
    last_update_millis := replicate n 0;
    origin_sequences := replicate n 0;
    generations := replicate n 0;
    free_next := initial_free_next NO_FREE cap;
    free_head := 0;
    active_len := 0;
    capacity := cap;
    index := idx;
    local_dirty := DirtyRing.with_capacity (local_dirty_capacity config);
    forwarded_dirty := DirtyRing.with_capacity (forwarded_dirty_capacity config);
    repair_cursor := 0;
    selection_marks := replicate n 0;
    selection_epoch := 0;
    next_sequence_by_origin :=
      replicate (Z.to_nat (node_dictionary_capacity config)) 0;
    expire_current_epoch_scratch := scratch;
    expire_live_buckets_scratch := scratch;
    rule_dictionary := rule_dict;
    node_dictionary := nodes;
    peer_frontiers :=
      PeerFrontierTable.new (peer_capacity config) (node_dictionary_capacity config);
    local_identity := identity;
    local_node_slot := slot;
    cell_store_full_rejects := 0;
    rule_dictionary_full_rejects := 0;
    node_dictionary_full_rejects := 0;
  |}.

Definition is_empty (self : t) : bool := active_len self =? 0.

Definition stats (self : t) : CellStoreStats := {|
  active_cells := active_len self;
  cell_capacity_stat := capacity self;
  rule_slots_used := Dict.len (rule_dictionary self);
  rule_slots_capacity := Dict.capacity (rule_dictionary self);
  node_slots_used := Dict.len (node_dictionary self);
  node_slots_capacity := Dict.capacity (node_dictionary self);
  stat_cell_store_full_rejects := cell_store_full_rejects self;
  stat_rule_dictionary_full_rejects := rule_dictionary_full_rejects self;
  stat_node_dictionary_full_rejects := node_dictionary_full_rejects self;
|}.

(** ** Capacity-pressure counters (the log lines are not modelled) *)
Definition note_cell_store_full (self : t) : t :=
  self <| cell_store_full_rejects := saturating_add 64 (cell_store_full_rejects self) 1 |>.
Definition note_rule_dictionary_full (self : t) : t :=
  self <| rule_dictionary_full_rejects :=
            saturating_add 64 (rule_dictionary_full_rejects self) 1 |>.
Definition note_node_dictionary_full (self : t) : t :=
  self <| node_dictionary_full_rejects :=
            saturating_add 64 (node_dictionary_full_rejects self) 1 |>.

(** ** Dictionary access *)
Definition intern_rule (self : t) (descriptor : RuleDescriptor) :
    option (t * option RuleSlot) :=
  known ← RuleDictionary.find (rule_dictionary self) (fingerprint descriptor);
  '(dict, result) ← RuleDictionary.intern (rule_dictionary self) descriptor;
  let self := self <| rule_dictionary := dict |> in
  match result with
  | Some slot =>
    match known with
    | Some _ => Some (self, Some slot)
    | None =>
      dict ← RuleDictionary.inc_ref (rule_dictionary self) slot;
      Some (self <| rule_dictionary := dict |>, Some slot)
    end
  | None => Some (note_rule_dictionary_full self, None)
  end.

Definition intern_node (self : t) (id : NodeId) (incarnation : Incarnation) :
    option (t * option NodeSlot) :=
  '(dict, result) ← NodeDictionary.intern (node_dictionary self) id incarnation;
  let self := self <| node_dictionary := dict |> in
  match result with
  | Some slot => Some (self, Some slot)
  | None => Some (note_node_dictionary_full self, None)
  end.

Definition find_rule (self : t) (fp : Z) : option (option RuleSlot) :=
  RuleDictionary.find (rule_dictionary self) fp.
Definition find_node (self : t) (id : NodeId) (inc : Incarnation) : option (option NodeSlot) :=
  NodeDictionary.find (node_dictionary self) id inc.

(** ** Cell lookups *)
Definition handle_for (self : t) (i : Z) : option CellHandle :=
  g ← zget (generations self) i;
  Some {| h_index := i; h_generation := g |}.

Definition is_active (self : t) (i : Z) : option bool :=
  g ← zget (generations self) i;
  Some (Z.land g 1 =? 1).

(** The row's identity columns, read at one slot. *)
Definition key_at (self : t) (i : Z) : option CompactCellKey :=
  r ← zget (rules self) i;
  h ← zget (key_hashes self) i;
  b ← zget (buckets self) i;
  o ← zget (origins self) i;
  n ← zget (incarnations self) i;
  Some {| ck_rule := r; ck_key_hash := h; ck_bucket := b; ck_origin := o;
          ck_incarnation := n |}.

Definition lookup_index (self : t) (key : CompactCellKey) : option (option Z) :=
  CellIndex.find (index self) (hash_compact_cell_key key) (λ slot,
    k ← key_at self slot; Some (bool_decide (k = key))).

Definition find (self : t) (key : CompactCellKey) : option (option CellHandle) :=
  r ← lookup_index self key;
  match r with
  | Some i => h ← handle_for self i; Some (Some h)
  | None => Some None
  end.

Definition resolve (self : t) (handle : CellHandle) : option (option Z) :=
  if capacity self <=? h_index handle then Some None else
  g ← zget (generations self) (h_index handle);
  if negb (g =? h_generation handle) then Some None else
  if negb (Z.land (h_generation handle) 1 =? 1) then Some None else
  Some (Some (h_index handle)).

Definition get (self : t) (handle : CellHandle) : option (option CellRow) :=
  r ← resolve self handle;
  match r with
  | None => Some None
  | Some i =>
    k ← key_at self i;
    c ← zget (counts self) i;
    u ← zget (last_update_millis self) i;
    q ← zget (origin_sequences self) i;
    Some (Some {| cr_handle := handle; cr_key := k; cr_count := c;
                  cr_last_update_millis := u; cr_origin_sequence := q |})
  end.

Definition count_of (self : t) (handle : CellHandle) : option (option Z) :=
  r ← resolve self handle;
  match r with
  | None => Some None
  | Some i => c ← zget (counts self) i; Some (Some c)
  end.

Definition active_handles (self : t) : option (list CellHandle) :=
  for_each (zrange 0 (capacity self)) [] (λ out i,
    a ← is_active self i;
    if (a : bool) then h ← handle_for self i; Some (out ++ [h]) else Some out).

(** ** Slot lifecycle *)
Definition alloc_slot (self : t) : option (t * option Z) :=
  if free_head self =? NO_FREE then Some (self, None) else
  let slot := free_head self in
  nxt ← zget (free_next self) slot;
  fn ← zset (free_next self) slot NO_FREE;
  g ← zget (generations self) slot;
  gs ← zset (generations self) slot (wrapping_add 32 g 1);
  let self := self <| free_head := nxt |> <| free_next := fn |> <| generations := gs |> in
  a ← is_active self slot;
  assert_ a;;
  n ← checked 32 (active_len self + 1);
  Some (self <| active_len := n |>, Some slot).

Definition free_slot (self : t) (slot : Z) : option t :=
  a ← is_active self slot;
  assert_ a;;
  g ← zget (generations self) slot;
  gs ← zset (generations self) slot (wrapping_add 32 g 1);
  fn ← zset (free_next self) slot (free_head self);
  n ← checked 32 (active_len self - 1);
  Some (self <| generations := gs |> <| free_next := fn |> <| free_head := slot |>
             <| active_len := n |>).

Definition free_cell_at (self : t) (slot : Z) : option t :=
  key ← key_at self slot;
  idx ← CellIndex.remove (index self) (hash_compact_cell_key key) slot;
  rd ← RuleDictionary.dec_ref (rule_dictionary self) (ck_rule key);
  '(nd, freed_node) ← NodeDictionary.dec_ref (node_dictionary self) (ck_origin key);
  let self := self <| index := idx |> <| rule_dictionary := rd |>
                   <| node_dictionary := nd |> in
  self ← (if (freed_node : bool) then
            pf ← PeerFrontierTable.clear_node_slot (peer_frontiers self) (ck_origin key);
            seqs ← zset (next_sequence_by_origin self) (ck_origin key) 0;
            Some (self <| peer_frontiers := pf |> <| next_sequence_by_origin := seqs |>)
          else Some self);
  free_slot self slot.

(** ** Update primitives *)
Definition next_origin_sequence (self : t) (origin : NodeSlot) : option (t * Z) :=
  seq ← zget (next_sequence_by_origin self) origin;
  let seq := saturating_add 64 seq 1 in
  seqs ← zset (next_sequence_by_origin self) origin seq;
  Some (self <| next_sequence_by_origin := seqs |>, seq).

Definition push_dirty (self : t) (origin : NodeSlot) (handle : CellHandle) (sequence : Z) :
    option t :=
  let entry := {| de_handle := handle; de_origin_sequence := sequence |} in
  if origin =? local_node_slot self then
    r ← DirtyRing.push (local_dirty self) entry;
    Some (self <| local_dirty := r |>)
  else
    r ← DirtyRing.push (forwarded_dirty self) entry;
    Some (self <| forwarded_dirty := r |>).

(** [expect]: a rule slot without a live descriptor is a panic. *)
Definition live_descriptor (self : t) (rule_slot : RuleSlot) : option RuleDescriptor :=
  d ← RuleDictionary.descriptor (rule_dictionary self) rule_slot;
  (d : option RuleDescriptor).

Definition identity_at (self : t) (slot : Z) (d : RuleDescriptor) : option CellIdentity :=
  kh ← zget (key_hashes self) slot;
  b ← zget (buckets self) slot;
  Some {| rule_fingerprint := fingerprint d; key_hash := kh; bucket := b |}.

Definition emit_delta (self : t) (sink : DeltaSink.t) (slot previous current delta : Z)
    (rule_slot : RuleSlot) : option DeltaSink.t :=
  handle ← handle_for self slot;
  d ← live_descriptor self rule_slot;
  key ← identity_at self slot d;
  Some (DeltaSink.push sink handle key previous current delta (applies_locally d)).

Definition emit_expiration (self : t) (sink : ExpirationSink.t) (slot : Z) :
    option ExpirationSink.t :=
  rule_slot ← zget (rules self) slot;
  handle ← handle_for self slot;
  d ← live_descriptor self rule_slot;
  key ← identity_at self slot d;
  c ← zget (counts self) slot;
  u ← zget (last_update_millis self) slot;
  Some (ExpirationSink.push sink handle key c u (applies_locally d)).

Section count.
Context `{C : Count}.

Definition apply_mode (mode : UpsertMode) (previous : Z) : Z :=
  match mode with
  | Accumulate hits => saturating_add_hits previous hits
  | MaxMerge observed => if previous <? observed then observed else previous
  end.

Definition initial_of_mode (mode : UpsertMode) : Z :=
  match mode with
  | Accumulate hits => saturating_add_hits 0 hits
  | MaxMerge observed => observed
  end.

(** The key already has a row at [slot]. *)
Definition update_row (self : t) (sink : DeltaSink.t) (spec : UpsertSpec) (slot : Z) :
    option (t * DeltaSink.t * (UpdateOutcome + InsertReject)) :=
  previous ← zget (counts self) slot;
  let next := apply_mode (us_mode spec) previous in
  if next =? previous then
    handle ← handle_for self slot;
    Some (self, sink, inl {| uo_handle := handle; uo_changed := false; uo_delta := None |})
  else
  cs ← zset (counts self) slot next;
  us ← zset (last_update_millis self) slot (us_now_millis spec);
  '(self, seq) ← next_origin_sequence
    (self <| counts := cs |> <| last_update_millis := us |>) (us_origin_slot spec);
  qs ← zset (origin_sequences self) slot seq;
  let self := self <| origin_sequences := qs |> in
  handle ← handle_for self slot;
  self ← push_dirty self (us_origin_slot spec) handle seq;
  let delta := saturating_delta next previous in
  sink ← emit_delta self sink slot previous next delta (us_rule_slot spec);
  row ← DeltaSink.row sink (DeltaSink.len sink - 1);
  Some (self, sink, inl {| uo_handle := handle; uo_changed := true; uo_delta := row |}).

(** Write the identity and the initial value of a freshly allocated row. *)
Definition write_row (self : t) (spec : UpsertSpec) (slot initial : Z) : option t :=
  rs ← zset (rules self) slot (us_rule_slot spec);
  hs ← zset (key_hashes self) slot (us_key_hash spec);
  bs ← zset (buckets self) slot (us_bucket spec);
  os ← zset (origins self) slot (us_origin_slot spec);
  ns ← zset (incarnations self) slot (us_incarnation spec);
  cs ← zset (counts self) slot initial;
  us ← zset (last_update_millis self) slot (us_now_millis spec);
  Some (self <| rules := rs |> <| key_hashes := hs |> <| buckets := bs |>
             <| origins := os |> <| incarnations := ns |> <| counts := cs |>
             <| last_update_millis := us |>).

Definition insert_row (self : t) (sink : DeltaSink.t) (spec : UpsertSpec)
    (key : CompactCellKey) (slot : Z) :
    option (t * DeltaSink.t * (UpdateOutcome + InsertReject)) :=
  let initial := initial_of_mode (us_mode spec) in
  self ← write_row self spec slot initial;
  '(self, seq) ← next_origin_sequence self (us_origin_slot spec);
  qs ← zset (origin_sequences self) slot seq;
  let self := self <| origin_sequences := qs |> in
  (* Hold dictionary references on behalf of this cell. *)
  rd ← RuleDictionary.inc_ref (rule_dictionary self) (us_rule_slot spec);
  nd ← NodeDictionary.inc_ref (node_dictionary self) (us_origin_slot spec);
  idx ← CellIndex.insert_unchecked (index self) (hash_compact_cell_key key) slot;
  let self := self <| rule_dictionary := rd |> <| node_dictionary := nd |>
                   <| index := idx |> in
  handle ← handle_for self slot;
  self ← push_dirty self (us_origin_slot spec) handle seq;
  sink ← emit_delta self sink slot 0 initial initial (us_rule_slot spec);
  row ← DeltaSink.row sink (DeltaSink.len sink - 1);
  Some (self, sink, inl {| uo_handle := handle; uo_changed := true; uo_delta := row |}).

Definition spec_key (spec : UpsertSpec) : CompactCellKey :=
  {| ck_rule := us_rule_slot spec; ck_key_hash := us_key_hash spec;
     ck_bucket := us_bucket spec; ck_origin := us_origin_slot spec;
     ck_incarnation := us_incarnation spec |}.

Definition upsert (self : t) (spec : UpsertSpec) (sink : DeltaSink.t) :
    option (t * DeltaSink.t * (UpdateOutcome + InsertReject)) :=
  let key := spec_key spec in
  found ← lookup_index self key;
  match found with
  | Some slot => update_row self sink spec slot
  | None =>
    '(self, slot) ← alloc_slot self;
    match slot with
    | None => Some (note_cell_store_full self, sink, inr CellStoreFull)
    | Some slot => insert_row self sink spec key slot
    end
  end.
End count.

(** A rule seen on the wire only: the default descriptor under its fingerprint. *)
Definition wire_only_descriptor (fp : Z) : RuleDescriptor :=
  RuleDescriptor_default <| fingerprint := fp |>.

(** The first half of [translate_identity], which [ingest_local] repeats. *)
Definition translate_rule (self : t) (fp : Z) : option (t * option RuleSlot) :=
  found ← RuleDictionary.find (rule_dictionary self) fp;
  match found with
  | Some slot => Some (self, Some slot)
  | None =>
    '(dict, r) ← RuleDictionary.intern (rule_dictionary self) (wire_only_descriptor fp);
    let self := self <| rule_dictionary := dict |> in
    match r with
    | Some slot => Some (self, Some slot)
    | None => Some (note_rule_dictionary_full self, None)
    end
  end.

Definition translate_node (self : t) (id : NodeId) (inc : Incarnation) :
    option (t * option NodeSlot) :=
  found ← NodeDictionary.find (node_dictionary self) id inc;
  match found with
  | Some slot => Some (self, Some slot)
  | None =>
    '(dict, r) ← NodeDictionary.intern (node_dictionary self) id inc;
    let self := self <| node_dictionary := dict |> in
    match r with
    | Some slot => Some (self, Some slot)
    | None => Some (note_node_dictionary_full self, None)
    end
  end.

Definition translate_identity (self : t) (fp : Z) (id : NodeId) (inc : Incarnation) :
    option (t * option (RuleSlot * NodeSlot)) :=
  '(self, rule_slot) ← translate_rule self fp;
  match rule_slot with
  | None => Some (self, None)
  | Some rule_slot =>
    '(self, node_slot) ← translate_node self id inc;
    match node_slot with
    | None => Some (self, None)
    | Some node_slot => Some (self, Some (rule_slot, node_slot))
    end
  end.

Section entry_points.
Context `{C : Count}.

(** The body of [ingest_local]'s loop, on the columns of row [i]. *)
Definition ingest_row (obs : ObservationBatch.t) (st : t * DeltaSink.t) (i : Z) :
    option (t * DeltaSink.t) :=
  let '(self, sink) := st in
  fp ← zget (ObservationBatch.rule_fingerprints obs) i;
  '(self, rule_slot) ← translate_rule self fp;
  match rule_slot with
  | None => Some (self, sink)
  | Some rule_slot =>
    hits ← zget (ObservationBatch.counts obs) i;
    kh ← zget (ObservationBatch.key_hashes obs) i;
    b ← zget (ObservationBatch.buckets obs) i;
    now ← zget (ObservationBatch.last_update_millis obs) i;
    '(self, sink, _) ← upsert self
      {| us_rule_slot := rule_slot; us_key_hash := kh; us_bucket := b;
         us_origin_slot := local_node_slot self;
         us_incarnation := ni_incarnation (local_identity self);
         us_now_millis := now; us_mode := Accumulate hits |} sink;
    Some (self, sink)
  end.

Definition ingest_local (self : t) (obs : ObservationBatch.t) (sink : DeltaSink.t) :
    option (t * DeltaSink.t) :=
  ObservationBatch.assert_consistent obs;;
  for_each (zrange 0 (ObservationBatch.len obs)) (self, sink) (ingest_row obs).

Definition merge_row (obs : ObservationBatch.t) (st : t * DeltaSink.t) (i : Z) :
    option (t * DeltaSink.t) :=
  let '(self, sink) := st in
  fp ← zget (ObservationBatch.rule_fingerprints obs) i;
  id ← zget (ObservationBatch.origin_node_ids obs) i;
  inc ← zget (ObservationBatch.incarnations obs) i;
  '(self, slots) ← translate_identity self fp id inc;
  match slots with
  | None => Some (self, sink)
  | Some (rule_slot, node_slot) =>
    kh ← zget (ObservationBatch.key_hashes obs) i;
    b ← zget (ObservationBatch.buckets obs) i;
    now ← zget (ObservationBatch.last_update_millis obs) i;
    observed ← zget (ObservationBatch.counts obs) i;
    '(self, sink, _) ← upsert self
      {| us_rule_slot := rule_slot; us_key_hash := kh; us_bucket := b;
         us_origin_slot := node_slot; us_incarnation := inc;
         us_now_millis := now; us_mode := MaxMerge observed |} sink;
    Some (self, sink)
  end.

Definition merge_remote (self : t) (obs : ObservationBatch.t) (sink : DeltaSink.t) :
    option (t * DeltaSink.t) :=
  ObservationBatch.assert_consistent obs;;
  for_each (zrange 0 (ObservationBatch.len obs)) (self, sink) (merge_row obs).
End entry_points.

(** ** Expiration *)
Definition expire_slot (current_epoch_by_rule live_buckets_by_rule : list Z)
    (st : t * ExpirationSink.t) (slot : Z) : option (t * ExpirationSink.t) :=
  let '(self, sink) := st in
  a ← is_active self slot;
  if negb a then Some (self, sink) else
  rule ← zget (rules self) slot;
  if (zlen current_epoch_by_rule <=? rule) || (zlen live_buckets_by_rule <=? rule)
  then Some (self, sink) else
  current ← zget current_epoch_by_rule rule;
  live ← zget live_buckets_by_rule rule;
  b ← zget (buckets self) slot;
  (* u32 operands widened to u64: the sum cannot overflow *)
  if b + live <? current then
    sink ← emit_expiration self sink slot;
    self ← free_cell_at self slot;
    Some (self, sink)
  else Some (self, sink).

Definition expire (self : t) (current_epoch_by_rule live_buckets_by_rule : list Z)
    (sink : ExpirationSink.t) : option (t * ExpirationSink.t) :=
  for_each (zrange 0 (capacity self)) (self, sink)
    (expire_slot current_epoch_by_rule live_buckets_by_rule).

(** The scratch columns: one [(current_epoch, live_buckets)] per rule slot. *)
Definition fill_expire_scratch (self : t) (now_millis : Z) : option t :=
  for_each (zrange 0 (Dict.capacity (rule_dictionary self))) self (λ self slot,
    d ← RuleDictionary.descriptor (rule_dictionary self) (as_u16 slot);
    let '(current, live) :=
      match d with
      | Some d => (current_epoch d now_millis, live_buckets d)
      | None => (0, 0)
      end in
    cs ← zset (expire_current_epoch_scratch self) slot current;
    ls ← zset (expire_live_buckets_scratch self) slot live;
    Some (self <| expire_current_epoch_scratch := cs |>
               <| expire_live_buckets_scratch := ls |>)).

Definition expire_at (self : t) (now_millis : Z) (sink : ExpirationSink.t) :
    option (t * ExpirationSink.t) :=
  let dict_cap := Dict.capacity (rule_dictionary self) in
  assert_ (zlen (expire_current_epoch_scratch self) =? dict_cap);;
  assert_ (zlen (expire_live_buckets_scratch self) =? dict_cap);;
  self ← fill_expire_scratch self now_millis;
  let current := expire_current_epoch_scratch self in
  let live := expire_live_buckets_scratch self in
  '(self, sink) ← expire
    (self <| expire_current_epoch_scratch := [] |>
          <| expire_live_buckets_scratch := [] |>) current live sink;
  Some (self <| expire_current_epoch_scratch := current |>
             <| expire_live_buckets_scratch := live |>, sink).

Definition clear_dirty (self : t) : t :=
  self <| local_dirty := DirtyRing.clear (local_dirty self) |>
       <| forwarded_dirty := DirtyRing.clear (forwarded_dirty self) |>.

Definition clear (self : t) : option t :=
  self ← for_each (zrange 0 (capacity self)) self (λ self slot,
    a ← is_active self slot;
    if (a : bool) then free_cell_at self slot else Some self);
  Some (clear_dirty self <| repair_cursor := 0 |> <| selection_epoch := 0 |>
          <| selection_marks := (λ _, 0) <$> selection_marks self |>).

(** ** Gossip frame composition *)
Definition bump_selection_epoch (self : t) : t :=
  let next := wrapping_add 32 (selection_epoch self) 1 in
  if next =? 0 then
    self <| selection_marks := (λ _, 0) <$> selection_marks self |>
         <| selection_epoch := 1 |>
  else self <| selection_epoch := next |>.

Definition mark_selected (self : t) (slot : Z) : option (t * bool) :=
  m ← zget (selection_marks self) slot;
  if m =? selection_epoch self then Some (self, false) else
  ms ← zset (selection_marks self) slot (selection_epoch self);
  Some (self <| selection_marks := ms |>, true).

Definition dirty_entry_current (self : t) (entry : DirtyEntry) : option bool :=
  let i := h_index (de_handle entry) in
  if capacity self <=? i then Some false else
  g ← zget (generations self) i;
  if negb (g =? h_generation (de_handle entry)) then Some false else
  q ← zget (origin_sequences self) i;
  if negb (q =? de_origin_sequence entry) then Some false else
  Some true.

Section visit.
(** A visitor closure with captured state [S]; [false] halts the scan. *)
Context {S : Type}.

Definition visit_ring (self : t) (ring : DirtyRing.t) (st : S)
    (visit : S → CellHandle → S * bool) : option S :=
  es ← DirtyRing.iter ring;
  for_each_while es st (λ st entry,
    c ← dirty_entry_current self entry;
    if negb c then Some (st, true) else Some (visit st (de_handle entry))).

Definition visit_local_dirty (self : t) := visit_ring self (local_dirty self).
Definition visit_forwarded_dirty (self : t) := visit_ring self (forwarded_dirty self).

Fixpoint visit_repair_loop (fuel : nat) (self : t) (max_cells : Z) (st : S)
    (visit : S → CellHandle → S * bool) (visited emitted next_cursor : Z) :
    option (t * S * Z * Z) :=
  match fuel with
  | O => None
  | Datatypes.S fuel =>
    let cap := capacity self in
    if negb ((visited <? cap) && (emitted <? max_cells))
    then Some (self, st, emitted, next_cursor) else
    p ← checked 32 (repair_cursor self + visited);
    let slot := p mod cap in
    visited ← checked 32 (visited + 1);
    n ← checked 32 (slot + 1);
    let next_cursor := n mod cap in
    a ← is_active self slot;
    if negb a then visit_repair_loop fuel self max_cells st visit visited emitted next_cursor
    else
    '(self, fresh) ← mark_selected self slot;
    if negb fresh
    then visit_repair_loop fuel self max_cells st visit visited emitted next_cursor
    else
    handle ← handle_for self slot;
    emitted ← checked 64 (emitted + 1);
    let '(st, continue) := visit st handle in
    if (continue : bool)
    then visit_repair_loop fuel self max_cells st visit visited emitted next_cursor
    else Some (self, st, emitted, next_cursor)
  end.

Definition visit_repair_slice (self : t) (max_cells : Z) (st : S)
    (visit : S → CellHandle → S * bool) : option (t * S * Z) :=
  if (capacity self =? 0) || (max_cells =? 0) || (active_len self =? 0)
  then Some (self, st, 0) else
  let self := bump_selection_epoch self in
  '(self, st, emitted, next_cursor) ←
    visit_repair_loop (Datatypes.S (Z.to_nat (capacity self))) self max_cells st visit
      0 0 (repair_cursor self);
  Some (self <| repair_cursor := next_cursor |>, st, emitted).
End visit.

(** One dirty lane of a frame.  [wanted] is the extra test of the peer-aware
    frame; the plain frame passes the constant [true]. *)
Definition dirty_lane (ring : DirtyRing.t) (max_cells : Z)
    (wanted : t → Z → option bool) (self : t) (out : list CellHandle) :
    option (t * list CellHandle) :=
  for_each_while (zrange 0 (DirtyRing.len ring)) (self, out) (λ '(self, out) offset,
    if max_cells <=? zlen out then Some ((self, out), false) else
    entry ← DirtyRing.ring_entry_at ring offset;
    c ← dirty_entry_current self entry;
    if negb c then Some ((self, out), true) else
    w ← wanted self (h_index (de_handle entry));
    if negb w then Some ((self, out), true) else
    '(self, fresh) ← mark_selected self (h_index (de_handle entry));
    if negb fresh then Some ((self, out), true) else
    Some ((self, out ++ [de_handle entry]), true)).

Fixpoint repair_loop (fuel : nat) (self : t) (max_cells visited next_cursor : Z)
    (out : list CellHandle) : option (t * list CellHandle * Z) :=
  match fuel with
  | O => None
  | S fuel =>
    let cap := capacity self in
    if negb ((visited <? cap) && (zlen out <? max_cells))
    then Some (self, out, next_cursor) else
    p ← checked 32 (repair_cursor self + visited);
    let slot := p mod cap in
    visited ← checked 32 (visited + 1);
    n ← checked 32 (slot + 1);
    let next_cursor := n mod cap in
    a ← is_active self slot;
    if negb a then repair_loop fuel self max_cells visited next_cursor out else
    '(self, fresh) ← mark_selected self slot;
    if negb fresh then repair_loop fuel self max_cells visited next_cursor out else
    handle ← handle_for self slot;
    repair_loop fuel self max_cells visited next_cursor (out ++ [handle])
  end.

Definition repair_lane (max_cells : Z) (self : t) (out : list CellHandle) :
    option (t * list CellHandle) :=
  '(self, out, next_cursor) ←
    repair_loop (S (Z.to_nat (capacity self))) self max_cells 0 (repair_cursor self) out;
  Some (self <| repair_cursor := next_cursor |>, out).

(** The three lanes in order, with the early returns of the source; the
    returned list is [out], its length the return value. *)
Definition fill_frame (wanted : t → Z → option bool) (self : t) (max_cells : Z) :
    option (t * list CellHandle) :=
  if max_cells =? 0 then Some (self, []) else
  let self := bump_selection_epoch self in
  '(self, out) ← dirty_lane (local_dirty self) max_cells wanted self [];
  if max_cells <=? zlen out then Some (self, out) else
  '(self, out) ← dirty_lane (forwarded_dirty self) max_cells wanted self out;
  if max_cells <=? zlen out then Some (self, out) else
  repair_lane max_cells self out.

Definition fill_gossip_frame (self : t) (max_cells : Z) : option (t * list CellHandle) :=
  fill_frame (λ _ _, Some true) self max_cells.

Definition peer_lacks (self : t) (peer_slot cell_index : Z) : option bool :=
  origin ← zget (origins self) cell_index;
  last ← PeerFrontierTable.last_acked (peer_frontiers self) peer_slot origin;
  q ← zget (origin_sequences self) cell_index;
  Some (last <? q).

Definition fill_gossip_frame_for_peer (self : t) (max_cells peer_slot : Z) :
    option (t * list CellHandle) :=
  fill_frame (λ self i, peer_lacks self peer_slot i) self max_cells.

End CellStore.
