(* ===== verification/CellSlots.v ===== *)
(** * The cell store: slots, rows and the identity index

    The part of the store's invariant that concerns one slot at a time.
    [slots_inv] ties the generation column, the free list and [active_len] to
    the set of live slots; [rows_inv] ties the identity columns and the index
    to a map from live slot to key.  The lemmas say what each primitive of the
    slot lifecycle does to the two. *)

From S2P Require Import Prelude Types Hash Index Freelist Dictionary DirtyRing PeerFrontier IO CellStore.
Import CellStore.

(** ** Generation parity *)
Lemma land_1_odd g : (Z.land g 1 =? 1) = Z.odd g.
Proof.
  change 1 with (2 ^ 1 - 1) at 1. rewrite land_mask_mod by lia.
  change (2 ^ 1) with 2. rewrite Zmod_odd. by destruct (Z.odd g).
Qed.

Lemma wrapping_succ_odd g : Z.odd (wrapping_add 32 g 1) = negb (Z.odd g).
Proof.
  unfold wrapping_add. rewrite <- land_1_odd, <- (land_1_odd g).
  change 1 with (2 ^ 1 - 1). rewrite !land_mask_mod by lia. rewrite mod_mod_pow by lia.
  change (2 ^ 1) with 2. rewrite !Zmod_odd, Z.odd_add. by destruct (Z.odd g).
Qed.

Lemma wrapping_add_uint g n : uint 32 (wrapping_add 32 g n).
Proof. apply Z.mod_pos_bound. lia. Qed.

Record slots_inv (self : t) (L : gset Z) : Prop := {
  si_cap : 0 < capacity self ≤ 2 ^ 30;
  si_rules : zlen (rules self) = capacity self;
  si_key_hashes : zlen (key_hashes self) = capacity self;
  si_buckets : zlen (buckets self) = capacity self;
  si_origins : zlen (origins self) = capacity self;
  si_incarnations : zlen (incarnations self) = capacity self;
  si_counts : zlen (counts self) = capacity self;
  si_updates : zlen (last_update_millis self) = capacity self;
  si_sequences : zlen (origin_sequences self) = capacity self;
  si_generations : zlen (generations self) = capacity self;
  si_free_next : zlen (free_next self) = capacity self;
  si_marks : zlen (selection_marks self) = capacity self;
  si_gen s g : zget (generations self) s = Some g →
    uint 32 g ∧ Z.odd g = bool_decide (s ∈ L);
  si_live s : s ∈ L → 0 ≤ s < capacity self;
  si_free : free_slots NO_FREE (free_next self) (free_head self) (capacity self) (.∈ L);
  si_active : active_len self = Z.of_nat (size L);
}.

Record rows_inv (self : t) (A : gmap Z CompactCellKey) : Prop := {
  wi_key s k : A !! s = Some k → 0 ≤ s < capacity self ∧ key_at self s = Some k;
  wi_inj s s' k : A !! s = Some k → A !! s' = Some k → s = s';
  wi_index : CellIndex.rep (index self) (hash_compact_cell_key <$> A);
  wi_index_cap : 2 * capacity self ≤ CellIndex.capacity (index self);
}.

Section slots.
Context (self : t) (L : gset Z) (Hinv : slots_inv self L).

Lemma is_active_ok s :
  0 ≤ s < capacity self → is_active self s = Some (bool_decide (s ∈ L)).
Proof using Hinv.
  intros Hs. unfold is_active.
  destruct (zget_in_range (generations self) s) as [g Hg]; [by rewrite (si_generations _ _ Hinv)|].
  rewrite Hg. simpl. f_equal. rewrite land_1_odd.
  by apply (si_gen _ _ Hinv s g Hg).
Qed.

(** The current handle of a slot. *)
Lemma handle_for_ok s :
  0 ≤ s < capacity self →
  ∃ g, handle_for self s = Some {| h_index := s; h_generation := g |} ∧
       zget (generations self) s = Some g.
Proof using Hinv.
  intros Hs. unfold handle_for.
  destruct (zget_in_range (generations self) s) as [g Hg]; [by rewrite (si_generations _ _ Hinv)|].
  rewrite Hg. eauto.
Qed.

(** Allocation takes a slot that is not live, or fails on a full store. *)
Lemma alloc_slot_ok :
  (alloc_slot self = Some (self, None) ∧ Z.of_nat (size L) = capacity self) ∨
  ∃ s g nxt, (s ∉ L) ∧ 0 ≤ s < capacity self ∧ zget (generations self) s = Some g ∧
    let self' := self <| free_head := nxt |>
                      <| free_next := zupd (free_next self) s NO_FREE |>
                      <| generations := zupd (generations self) s (wrapping_add 32 g 1) |>
                      <| active_len := active_len self + 1 |> in
    alloc_slot self = Some (self', Some s) ∧ slots_inv self' ({[ s ]} ∪ L).
Proof using Hinv.
  pose proof Hinv as []. unfold alloc_slot.
  destruct (free_slots_pop _ _ _ _ _ si_free0)
    as [[-> Hfull]|(Hne & Hr & Hnl & n & Hn & Hpop)].
  { left. rewrite Z.eqb_refl. split; [done|]. by apply set_size_full; [lia|..]. }
  right. rewrite (proj2 (Z.eqb_neq _ _) Hne). set (s := free_head self) in *.
  destruct (zget_in_range (generations self) s) as [g Hg]; [lia|].
  destruct (si_gen0 s g Hg) as [Hu Hp].
  destruct (set_size_add (capacity self) ltac:(lia) L s) as [Hsz Hle]; [done..|].
  exists s, g, n. do 3 (split; [done|]). cbv zeta.
  rewrite Hn. simpl. rewrite zset_ok by lia. simpl. rewrite Hg. simpl.
  rewrite zset_ok by lia. simpl. unfold is_active. simpl.
  rewrite zget_zupd_eq by lia. simpl. rewrite land_1_odd, wrapping_succ_odd.
  rewrite bool_decide_false in Hp by done. rewrite Hp. simpl. rewrite checked_ok by lia. simpl. split; [done|].
  split; simpl; rewrite ?zlen_zupd; try done.
  - intros s' g'. rewrite zget_zupd by lia. case_decide; subst.
    + intros [= <-]. split; [apply wrapping_add_uint|].
      rewrite wrapping_succ_odd, Hp, bool_decide_true by set_cases. done.
    + intros Hg'. destruct (si_gen0 _ _ Hg') as [? ->]. split; [done|].
      apply bool_decide_ext. set_cases.
  - intros s' [->%elem_of_singleton|?]%elem_of_union; eauto.
  - apply Hpop; [intros; by rewrite zget_zupd_ne by done|].
    intros s'. rewrite elem_of_union, elem_of_singleton. tauto.
  - lia.
Qed.

(** Release of a live slot. *)
Lemma free_slot_ok s :
  s ∈ L →
  ∃ g, zget (generations self) s = Some g ∧
    let self' := self <| generations := zupd (generations self) s (wrapping_add 32 g 1) |>
                      <| free_next := zupd (free_next self) s (free_head self) |>
                      <| free_head := s |>
                      <| active_len := active_len self - 1 |> in
    free_slot self s = Some self' ∧ slots_inv self' (L ∖ {[ s ]}).
Proof using Hinv.
  intros HsL. pose proof Hinv as []. pose proof (si_live0 s HsL) as Hs.
  destruct (zget_in_range (generations self) s) as [g Hg]; [lia|].
  destruct (si_gen0 s g Hg) as [Hu Hp]. exists g. split; [done|]. cbv zeta.
  pose proof (set_size_le_range (capacity self) ltac:(lia) L si_live0).
  assert (Z.of_nat (size (L ∖ {[ s ]})) = Z.of_nat (size L) - 1 ∧ 0 < Z.of_nat (size L))
    as [Hsz Hpos].
  { rewrite size_difference by (by apply singleton_subseteq_l). rewrite size_singleton.
    assert (size L ≠ 0%nat) by (intros ?%size_empty_inv; set_solver). lia. }
  unfold free_slot. rewrite is_active_ok, bool_decide_true by done. simpl.
  rewrite Hg. simpl. rewrite !zset_ok by lia. simpl. rewrite checked_ok by lia. simpl.
  split; [done|]. split; simpl; rewrite ?zlen_zupd; try done.
  - intros s' g'. rewrite zget_zupd by lia. destruct (decide (s = s')) as [<-|].
    + intros Heq. injection Heq as <-. split; [apply wrapping_add_uint|].
      rewrite wrapping_succ_odd, Hp, bool_decide_true, bool_decide_false by set_cases. done.
    + intros Hg'. destruct (si_gen0 _ _ Hg') as [? ->]. split; [done|].
      apply bool_decide_ext. set_cases.
  - intros s' Hs'. apply si_live0. set_cases.
  - eapply free_slots_push; [done..| | | |]; simpl.
    + unfold NO_FREE, U32_MAX. lia.
    + done.
    + set_cases.
    + intros s' Hne. set_cases.
  - lia.
Qed.
End slots.

Section rows.
Context (self : t) (A : gmap Z CompactCellKey) (Hinv : rows_inv self A).

Lemma rows_inv_range s : is_Some (A !! s) → 0 ≤ s < capacity self.
Proof using Hinv. intros [k Hk]. by eapply wi_key. Qed.

(** [lookup_index] finds the row of a key, if it has one. *)
Lemma lookup_index_ok k :
  ∃ r, lookup_index self k = Some r ∧
    match r with
    | Some s => A !! s = Some k
    | None => ∀ s, A !! s ≠ Some k
    end.
Proof using Hinv.
  unfold lookup_index.
  edestruct (CellIndex.find_ok _ _ (hash_compact_cell_key k)
    (λ slot, k' ← key_at self slot; Some (bool_decide (k' = k)))
    (wi_index _ _ Hinv)) as ([s|] & -> & Hr).
  - intros s. rewrite lookup_fmap. intros (k' & Hk' & _)%fmap_Some.
    destruct (wi_key _ _ Hinv s k' Hk') as [_ ->]. simpl. eauto.
  - destruct Hr as [Hs Heq]. rewrite lookup_fmap in Hs.
    apply fmap_Some in Hs as (k' & Hk' & _).
    destruct (wi_key _ _ Hinv s k' Hk') as [_ Hka]. rewrite Hka in Heq. simpl in Heq.
    injection Heq as Heq%bool_decide_eq_true. subst k'. by exists (Some s).
  - exists None. split; [done|]. intros s Hk. specialize (Hr s).
    rewrite lookup_fmap, Hk in Hr. destruct (wi_key _ _ Hinv s k Hk) as [_ Hka].
    rewrite Hka in Hr. simpl in Hr. specialize (Hr eq_refl).
    by rewrite bool_decide_true in Hr.
Qed.

Lemma lookup_index_Some s k : A !! s = Some k → lookup_index self k = Some (Some s).
Proof using Hinv.
  intros Hk. destruct (lookup_index_ok k) as ([s'|] & -> & Hr).
  - by rewrite (wi_inj _ _ Hinv s' s k).
  - by destruct (Hr s).
Qed.

Lemma lookup_index_None k : (∀ s, A !! s ≠ Some k) → lookup_index self k = Some None.
Proof using Hinv.
  intros Hn. destruct (lookup_index_ok k) as ([s'|] & -> & Hr); [|done].
  by destruct (Hn s').
Qed.

(** Indexing a written row, and dropping one from the index. *)
Lemma rows_insert_ok s k :
  A !! s = None → (∀ s, A !! s ≠ Some k) → 0 ≤ s < capacity self → capacity self ≤ 2 ^ 30 →
  key_at self s = Some k →
  ∃ idx, CellIndex.insert_unchecked (index self) (hash_compact_cell_key k) s = Some idx ∧
    rows_inv (self <| index := idx |>) (<[s := k]> A).
Proof using Hinv.
  intros Hs Hk Hr Hcap Hka. pose proof Hinv as [].
  pose proof (size_lt_range (capacity self) ltac:(lia) A s rows_inv_range ltac:(lia) Hs).
  edestruct (CellIndex.insert_ok _ _ (hash_compact_cell_key k) s wi_index0)
    as (idx & Hidx & Hrep & Hic).
  { by rewrite lookup_fmap, Hs. }
  { unfold CellIndex.EMPTY_INDEX_SLOT, U32_MAX. lia. }
  { rewrite map_size_fmap. lia. }
  exists idx. split; [done|]. split; simpl.
  - intros s' k'. destruct (decide (s' = s)) as [->|].
    + rewrite lookup_insert_eq. intros [= <-]. split; [lia|done].
    + rewrite lookup_insert_ne by done. apply wi_key0.
  - intros s1 s2 k'. rewrite !lookup_insert.
    destruct (decide (s = s1)), (decide (s = s2)); subst; try done.
    + intros [= <-] H2. by destruct (Hk s2).
    + intros H1 [= <-]. by destruct (Hk s1).
    + apply wi_inj0.
  - by rewrite fmap_insert.
  - lia.
Qed.

Lemma rows_remove_ok s k :
  A !! s = Some k →
  ∃ idx, CellIndex.remove (index self) (hash_compact_cell_key k) s = Some idx ∧
    rows_inv (self <| index := idx |>) (delete s A).
Proof using Hinv.
  intros Hs. pose proof Hinv as [].
  destruct (CellIndex.remove_ok _ _ (hash_compact_cell_key k) s wi_index0)
    as (idx & Hidx & Hrep & Hic).
  rewrite decide_True in Hrep by (by rewrite lookup_fmap, Hs).
  exists idx. split; [done|]. split; simpl.
  - intros s' k'. rewrite lookup_delete_Some. intros [_ ?]. by apply wi_key0.
  - intros s1 s2 k'. rewrite !lookup_delete_Some. intros [_ ?] [_ ?]. by eapply wi_inj0.
  - by rewrite fmap_delete.
  - lia.
Qed.
End rows.

(** Writing the row of a slot that is not indexed. *)
Lemma write_row_ok self L A spec s c :
  slots_inv self L → rows_inv self A → A !! s = None → 0 ≤ s < capacity self →
  let self' := self <| rules := zupd (rules self) s (us_rule_slot spec) |>
                    <| key_hashes := zupd (key_hashes self) s (us_key_hash spec) |>
                    <| buckets := zupd (buckets self) s (us_bucket spec) |>
                    <| origins := zupd (origins self) s (us_origin_slot spec) |>
                    <| incarnations := zupd (incarnations self) s (us_incarnation spec) |>
                    <| counts := zupd (counts self) s c |>
                    <| last_update_millis :=
                         zupd (last_update_millis self) s (us_now_millis spec) |> in
  write_row self spec s c = Some self' ∧ slots_inv self' L ∧ rows_inv self' A ∧
  key_at self' s = Some (spec_key spec).
Proof.
  intros Hs Hr HA Hrange. cbv zeta. pose proof Hs as []. unfold write_row.
  rewrite !zset_ok by lia. simpl. split; [done|]. split; [|split].
  - split; simpl; rewrite ?zlen_zupd; done.
  - destruct Hr. split; try done. simpl. intros s' k Hk. destruct (wi_key0 s' k Hk) as [? Hka].
    split; [done|]. assert (s' ≠ s) by congruence.
    unfold key_at in *. simpl. by rewrite !zget_zupd_ne by done.
  - unfold key_at. simpl. rewrite !zget_zupd_eq by lia. done.
Qed.
