(* ===== verification/CellInv.v ===== *)
(** * The cell store: invariant and abstract contents

    [inv self V]: [self] is well formed and its contents are [V], a finite map
    from cell name (rule fingerprint, key hash, bucket, origin node,
    incarnation) to count.  [new] establishes it with [V = ∅] and every
    mutating method preserves it; the ghost data (live slots, dictionary
    contents, pinned rules) is existentially quantified. *)

From S2P Require Import Prelude Types Hash Index Freelist Dictionary DirtyRing PeerFrontier IO CellStore CellSlots.
Import CellStore.

(** The cluster-wide name of a counter: what travels on the wire. *)
Record CellName := {
  cn_fingerprint : Z;
  cn_key_hash : KeyHash;
  cn_bucket : BucketEpoch;
  cn_node : NodeId;
  cn_incarnation : Incarnation;
}.
#[export] Instance CellName_eq_dec : EqDecision CellName.
Proof. solve_decision. Defined.
#[export] Instance CellName_countable : Countable CellName.
Proof.
  apply (inj_countable'
    (λ n, (cn_fingerprint n, cn_key_hash n, cn_bucket n, cn_node n, cn_incarnation n))
    (λ '(f, h, b, i, n), {| cn_fingerprint := f; cn_key_hash := h; cn_bucket := b;
                            cn_node := i; cn_incarnation := n |})).
  by intros [].
Defined.

(** ** Counting the cells that reference a slot *)
Definition refs (f : CompactCellKey → Z) (A : gmap Z CompactCellKey) (r : Z) : Z :=
  Z.of_nat (size (filter (λ p, f p.2 = r) A)).

Section refs.
Context (f : CompactCellKey → Z).
Implicit Types (A : gmap Z CompactCellKey).

Lemma refs_empty r : refs f ∅ r = 0.
Proof. unfold refs. by rewrite map_filter_empty, map_size_empty. Qed.

Lemma refs_insert A s k r :
  A !! s = None → refs f (<[s := k]> A) r = refs f A r + (if decide (f k = r) then 1 else 0).
Proof.
  intros Hs. unfold refs. case_decide as Hk.
  - rewrite map_filter_insert_True by done. rewrite map_size_insert_None; [lia|].
    apply map_lookup_filter_None. by left.
  - rewrite map_filter_insert_False, delete_id by done. lia.
Qed.

Lemma refs_delete A s k r :
  A !! s = Some k →
  refs f (delete s A) r = refs f A r - (if decide (f k = r) then 1 else 0).
Proof.
  intros Hs. rewrite <- (insert_delete_id A s k) at 2 by done.
  rewrite refs_insert by apply lookup_delete_eq. lia.
Qed.

Lemma refs_nonneg A r : 0 ≤ refs f A r.
Proof. unfold refs. lia. Qed.

Lemma refs_pos A s k r : A !! s = Some k → f k = r → 0 < refs f A r.
Proof.
  intros Hs Hk. pose proof (refs_delete A s k r Hs) as Hd.
  rewrite decide_True in Hd by done. pose proof (refs_nonneg (delete s A) r). lia.
Qed.

Lemma refs_zero A r : (∀ s k, A !! s = Some k → f k ≠ r) → refs f A r = 0.
Proof.
  intros Hn. unfold refs.
  assert (filter (λ p, f p.2 = r) A = ∅) as ->; [|by rewrite map_size_empty].
  apply map_eq. intros s. rewrite lookup_empty. apply map_lookup_filter_None.
  right. intros k Hk. simpl. by eapply Hn.
Qed.

Lemma refs_le A r cap :
  0 ≤ cap → (∀ s, is_Some (A !! s) → 0 ≤ s < cap) → refs f A r ≤ cap.
Proof.
  intros Hcap Hr. unfold refs. apply size_le_range; [done|].
  intros s [k Hk]. apply map_lookup_filter_Some in Hk as [Hk _]. eauto.
Qed.
End refs.

(** ** Dictionaries and the references held by cells *)
Record dicts_inv (self : t) (A : gmap Z CompactCellKey) (Mr : gmap Z RuleDescriptor)
    (Mn : gmap Z NodeDescriptor) (pins : gset Z) : Prop := {
  ti_rules : dict_inv fingerprint hash_fingerprint (rule_dictionary self) Mr;
  ti_nodes : dict_inv node_key hash_node (node_dictionary self) Mn;
  ti_rule_refs r d : Mr !! r = Some d →
    zget (Dict.refcounts (rule_dictionary self)) r =
      Some (refs ck_rule A r + if decide (r ∈ pins) then 1 else 0);
  ti_node_refs n d : Mn !! n = Some d →
    zget (Dict.refcounts (node_dictionary self)) n =
      Some (refs ck_origin A n + if decide (n = local_node_slot self) then 1 else 0);
  ti_cells s k : A !! s = Some k →
    is_Some (Mr !! ck_rule k) ∧
    ∃ d, Mn !! ck_origin k = Some d ∧ ni_incarnation d = ck_incarnation k;
  ti_local : Mn !! local_node_slot self = Some (local_identity self);
  ti_pins r : r ∈ pins → is_Some (Mr !! r);
}.

(** ** Gossip lanes, sequences, scratch columns *)
Definition ring_ok (r : DirtyRing.t) : Prop :=
  DirtyRing.inv r ∧
  ∀ e, e ∈ DirtyRing.contents r → Z.odd (h_generation (de_handle e)) = true ∧
                                  0 ≤ h_index (de_handle e).

Record lanes_inv (self : t) : Prop := {
  li_local : ring_ok (local_dirty self);
  li_forwarded : ring_ok (forwarded_dirty self);
  li_cursor : 0 ≤ repair_cursor self < capacity self;
  li_epoch : uint 32 (selection_epoch self);
  li_marks s m : zget (selection_marks self) s = Some m → 0 ≤ m ≤ selection_epoch self;
  li_sequences :
    zlen (next_sequence_by_origin self) = Dict.capacity (node_dictionary self);
  li_scratch_epoch :
    zlen (expire_current_epoch_scratch self) = Dict.capacity (rule_dictionary self);
  li_scratch_live :
    zlen (expire_live_buckets_scratch self) = Dict.capacity (rule_dictionary self);
  li_frontier : PeerFrontierTable.inv (peer_frontiers self);
  li_frontier_nodes :
    PeerFrontierTable.node_capacity (peer_frontiers self) =
    Dict.capacity (node_dictionary self);
}.

(** ** Abstract contents *)
Definition name_of (dr : RuleDescriptor) (dn : NodeDescriptor) (k : CompactCellKey) : CellName :=
  {| cn_fingerprint := fingerprint dr; cn_key_hash := ck_key_hash k;
     cn_bucket := ck_bucket k; cn_node := node_id dn;
     cn_incarnation := ni_incarnation dn |}.

(** [cell_at]: the cell at slot [s] has name [n] and count [c]. *)
Definition cell_at (self : t) (A : gmap Z CompactCellKey) (Mr : gmap Z RuleDescriptor)
    (Mn : gmap Z NodeDescriptor) (s : Z) (n : CellName) (c : Z) : Prop :=
  ∃ k dr dn, A !! s = Some k ∧ Mr !! ck_rule k = Some dr ∧ Mn !! ck_origin k = Some dn ∧
    n = name_of dr dn k ∧ zget (counts self) s = Some c.

Definition contents_are (self : t) A Mr Mn (V : gmap CellName Z) : Prop :=
  ∀ n c, V !! n = Some c ↔ ∃ s, cell_at self A Mr Mn s n c.

(** Well-formed store with contents [V], and its ghost data. *)
Record inv_at `{C : Count} (self : t) A Mr Mn pins (V : gmap CellName Z) : Prop := {
  iv_slots : slots_inv self (dom A);
  iv_rows : rows_inv self A;
  iv_dicts : dicts_inv self A Mr Mn pins;
  iv_lanes : lanes_inv self;
  iv_counts s c : zget (counts self) s = Some c → 0 ≤ c ≤ count_MAX;
  iv_contents : contents_are self A Mr Mn V;
}.

Definition inv `{C : Count} (self : t) (V : gmap CellName Z) : Prop :=
  ∃ A Mr Mn pins, inv_at self A Mr Mn pins V.

(** ** The rules this process enforces

    [L] is the set of registered fingerprints when it is tracked: each is
    pinned by a slot of its own, and a descriptor applies locally exactly when
    its fingerprint is registered. *)
Definition enforced (L : option (gset Z)) (Mr : gmap Z RuleDescriptor) (pins : gset Z) : Prop :=
  match L with
  | None => True
  | Some L =>
    (∀ fp, fp ∈ L → ∃ s d, s ∈ pins ∧ Mr !! s = Some d ∧ fingerprint d = fp) ∧
    (∀ s d, Mr !! s = Some d → applies_locally d = bool_decide (fingerprint d ∈ L))
  end.

Definition flagged (L : option (gset Z)) (fp : Z) (b : bool) : Prop :=
  match L with None => True | Some L => b = bool_decide (fp ∈ L) end.

Definition inv_on `{C : Count} (L : option (gset Z)) (self : t) (V : gmap CellName Z) : Prop :=
  ∃ A Mr Mn pins, inv_at self A Mr Mn pins V ∧ enforced L Mr pins.

Lemma inv_on_inv `{C : Count} L self V : inv_on L self V → inv self V.
Proof. intros (A & Mr & Mn & pins & ? & _). by exists A, Mr, Mn, pins. Qed.
Lemma inv_inv_on `{C : Count} self V : inv self V → inv_on None self V.
Proof. intros (A & Mr & Mn & pins & ?). by exists A, Mr, Mn, pins. Qed.

Section enforced.
Implicit Types (L : option (gset Z)) (Mr : gmap Z RuleDescriptor) (pins : gset Z).

Lemma enforced_flag L Mr pins s d :
  enforced L Mr pins → Mr !! s = Some d → flagged L (fingerprint d) (applies_locally d).
Proof. destruct L as [L|]; [|done]. intros [_ He] Hd. by apply (He s). Qed.

(** Releasing slots that are not pinned. *)
Lemma enforced_shrink L Mr Mr' pins :
  enforced L Mr pins → Mr' ⊆ Mr → (∀ r, r ∈ pins → is_Some (Mr' !! r)) → enforced L Mr' pins.
Proof.
  destruct L as [L|]; [|done]. intros [Hp Hf] Hsub Hkeep. split.
  - intros fp (s & d & Hs & Hd & Hfp)%Hp. destruct (Hkeep s Hs) as [d' Hd'].
    pose proof (lookup_weaken _ _ _ _ Hd' Hsub). exists s, d'. split_and!; congruence.
  - intros s d Hd. by apply (Hf s), (lookup_weaken _ _ _ _ Hd Hsub).
Qed.

(** Interning a fingerprint that is not registered, as not applying locally. *)
Lemma enforced_grow L Mr Mr' pins d0 :
  enforced L Mr pins → Mr ⊆ Mr' → applies_locally d0 = false →
  (∀ s d, Mr' !! s = Some d → Mr !! s = Some d ∨
     d = d0 ∧ ∀ s' d', Mr !! s' = Some d' → fingerprint d' ≠ fingerprint d0) →
  enforced L Mr' pins.
Proof.
  destruct L as [L|]; [|done]. intros [Hp Hf] Hsub Hd0 Hnew. split.
  - intros fp (s & d & Hs & Hd & Hfp)%Hp. exists s, d. split; [done|].
    split; [by eapply lookup_weaken|done].
  - intros s d [Hd|[-> Hfresh]]%Hnew; [by apply (Hf s)|]. rewrite Hd0. symmetry.
    apply bool_decide_false. intros (s' & d' & _ & Hd' & Hfp)%Hp. by apply (Hfresh s' d').
Qed.
End enforced.

(** A component of the invariant survives a change of fields it does not read. *)
Ltac reframe H := destruct H; split; simpl; done.

(** ** References held by cells *)

(** The dictionary contents after a release: slot [x] goes when its last
    reference does. *)
Lemma release_map {D} (m : gmap Z D) x rc :
  ∃ m', (if rc =? 1 then delete x m else m) = m' ∧ m' ⊆ m ∧
    (rc = 1 → m' !! x = None) ∧ ∀ r, r ≠ x ∨ rc ≠ 1 → m' !! r = m !! r.
Proof.
  eexists. split; [done|]. destruct (rc =? 1) eqn:E; bool_solve.
  - split; [apply delete_subseteq|]. split; [intros _; apply lookup_delete_eq|].
    intros r [?|?]; [by apply lookup_delete_ne|done].
  - done.
Qed.

(** A dictionary slot that [before] cells referred to and [after] still do is
    released: the last reference went and nothing pins it. *)
Definition released (P : Prop) `{!Decision P} (before after : Z) : bool :=
  negb (bool_decide P) && (0 <? before) && (after =? 0).

Section dicts.
Context (self : t) A Mr Mn pins (Hinv : dicts_inv self A Mr Mn pins).
Context (cap : Z) (Hcap : 0 ≤ cap ≤ 2 ^ 30) (HA : ∀ s, is_Some (A !! s) → 0 ≤ s < cap).

Lemma rule_live s k :
  A !! s = Some k → ∃ d, Mr !! ck_rule k = Some d ∧ live_descriptor self (ck_rule k) = Some d.
Proof using Hinv.
  intros Hk. destruct (ti_cells _ _ _ _ _ Hinv s k Hk) as [[d Hd] _]. exists d.
  split; [done|]. unfold live_descriptor, RuleDictionary.descriptor.
  erewrite dict_descriptor_ok; [|apply Hinv|by eapply (ti_rule_refs _ _ _ _ _ Hinv)].
  simpl. pose proof (refs_pos ck_rule A s k _ Hk eq_refl).
  replace (0 <? _) with true; [done|]. case_decide; lia.
Qed.

(** A new cell takes a reference on its rule and on its origin. *)
Lemma dicts_acquire s k dr dn :
  A !! s = None → 0 ≤ s < cap → Mr !! ck_rule k = Some dr → Mn !! ck_origin k = Some dn →
  ni_incarnation dn = ck_incarnation k →
  ∃ rd nd, RuleDictionary.inc_ref (rule_dictionary self) (ck_rule k) = Some rd ∧
    NodeDictionary.inc_ref (node_dictionary self) (ck_origin k) = Some nd ∧
    Dict.capacity rd = Dict.capacity (rule_dictionary self) ∧
    Dict.capacity nd = Dict.capacity (node_dictionary self) ∧
    dicts_inv (self <| rule_dictionary := rd |> <| node_dictionary := nd |>)
      (<[s := k]> A) Mr Mn pins.
Proof using Hinv Hcap HA.
  intros Hs Hr Hdr Hdn Hinc. pose proof Hinv as [].
  pose proof (refs_le ck_rule A (ck_rule k) cap ltac:(lia) HA).
  pose proof (refs_le ck_origin A (ck_origin k) cap ltac:(lia) HA).
  pose proof (refs_nonneg ck_rule A (ck_rule k)).
  pose proof (refs_nonneg ck_origin A (ck_origin k)).
  destruct (dict_inc_ref_ok _ _ _ _ ti_rules0 _ _ _ Hdr (ti_rule_refs0 _ _ Hdr))
    as (rd & Hrd & Hri & Hre).
  destruct (dict_inc_ref_ok _ _ _ _ ti_nodes0 _ _ _ Hdn (ti_node_refs0 _ _ Hdn))
    as (nd & Hnd & Hni & Hne).
  exists rd, nd. split; [done|]. split; [done|]. split; [by rewrite Hre|].
  split; [by rewrite Hne|]. split; simpl; try done.
  - intros r d Hd. pose proof (zget_Some_range _ _ _ (ti_rule_refs0 _ _ Hdr)).
    rewrite Hre. simpl. rewrite zget_zupd by done. rewrite refs_insert by done.
    destruct (decide (ck_rule k = r)) as [<-|]; [|rewrite Z.add_0_r; eauto].
    f_equal. unfold U32_MAX. destruct (decide (ck_rule k ∈ pins)); lia.
  - intros n d Hd. pose proof (zget_Some_range _ _ _ (ti_node_refs0 _ _ Hdn)).
    rewrite Hne. simpl. rewrite zget_zupd by done. rewrite refs_insert by done.
    destruct (decide (ck_origin k = n)) as [<-|]; [|rewrite Z.add_0_r; eauto].
    f_equal. unfold U32_MAX. destruct (decide (ck_origin k = local_node_slot self)); lia.
  - intros s' k'. rewrite lookup_insert. destruct (decide (s = s')); [|eauto].
    intros [= <-]. eauto.
Qed.

(** Releasing a cell's references: a slot is freed from its dictionary
    exactly when nothing refers to it any more. *)
Lemma dicts_release s k :
  A !! s = Some k →
  ∃ rd nd freed, RuleDictionary.dec_ref (rule_dictionary self) (ck_rule k) = Some rd ∧
    NodeDictionary.dec_ref (node_dictionary self) (ck_origin k) = Some (nd, freed) ∧
    Dict.capacity rd = Dict.capacity (rule_dictionary self) ∧
    Dict.capacity nd = Dict.capacity (node_dictionary self) ∧
    (0 ≤ ck_origin k < Dict.capacity (node_dictionary self)) ∧
    ∃ Mr' Mn', Mr' ⊆ Mr ∧ Mn' ⊆ Mn ∧
      (∀ r, Mr' !! r = if released (r ∈ pins) (refs ck_rule A r) (refs ck_rule (delete s A) r) then None else Mr !! r) ∧
      (∀ n, Mn' !! n = if released (n = local_node_slot self) (refs ck_origin A n) (refs ck_origin (delete s A) n)
                       then None else Mn !! n) ∧
      dicts_inv (self <| rule_dictionary := rd |> <| node_dictionary := nd |>)
        (delete s A) Mr' Mn' pins.
Proof using Hinv Hcap HA.
  intros Hk. pose proof Hinv as [].
  destruct (ti_cells0 s k Hk) as ([dr Hdr] & dn & Hdn & Hinc).
  pose proof (refs_pos ck_rule A s k _ Hk eq_refl).
  pose proof (refs_pos ck_origin A s k _ Hk eq_refl).
  pose proof (ti_rule_refs0 _ _ Hdr) as Hrr. pose proof (ti_node_refs0 _ _ Hdn) as Hnr.
  pose proof (zget_Some_range _ _ _ Hrr). pose proof (zget_Some_range _ _ _ Hnr).
  set (rr := refs ck_rule A (ck_rule k) + _) in *.
  set (nr := refs ck_origin A (ck_origin k) + _) in *.
  assert (0 < rr) by (unfold rr; case_decide; lia).
  assert (0 < nr) by (unfold nr; case_decide; lia).
  destruct (dict_dec_ref_ok _ _ RuleDescriptor_default _ _ ti_rules0 _ _ _ Hdr Hrr)
    as (rd & Hrd & Hri & Hrc & Hre); [done|].
  destruct (dict_dec_ref_ok _ _ NodeDescriptor_default _ _ ti_nodes0 _ _ _ Hdn Hnr)
    as (nd & Hnd & Hni & Hnc & Hne); [done|].
  exists rd, nd, (nr =? 1). unfold RuleDictionary.dec_ref, NodeDictionary.dec_ref.
  rewrite Hrd. simpl. rewrite Hnd. split; [done|]. split; [done|]. split; [done|].
  split; [done|]. split; [rewrite <- (di_rcs _ _ _ _ ti_nodes0); done|].
  destruct (release_map Mr (ck_rule k) rr) as (Mr' & HMr & Hmr & Hmr0 & Hmr').
  destruct (release_map Mn (ck_origin k) nr) as (Mn' & HMn & Hmn & Hmn0 & Hmn').
  rewrite HMr in Hri. rewrite HMn in Hni.
  assert (∀ r, 0 < refs ck_rule (delete s A) r ∨ r ∈ pins → Mr' !! r = Mr !! r) as Hkr.
  { intros r Hr. apply Hmr'. rewrite (refs_delete _ _ _ _ _ Hk) in Hr. unfold rr.
    destruct (decide (r = ck_rule k)) as [->|]; [right|by left].
    rewrite decide_True in Hr by done.
    destruct (decide (ck_rule k ∈ pins)); destruct Hr as [?|?]; try done; lia. }
  assert (∀ n, 0 < refs ck_origin (delete s A) n ∨ n = local_node_slot self →
    Mn' !! n = Mn !! n) as Hkn.
  { intros n Hn. apply Hmn'. rewrite (refs_delete _ _ _ _ _ Hk) in Hn. unfold nr.
    destruct (decide (n = ck_origin k)) as [->|]; [right|by left].
    rewrite decide_True in Hn by done.
    destruct (decide (ck_origin k = local_node_slot self)); destruct Hn as [?|?]; try done; lia. }
  exists Mr', Mn'. split; [done|]. split; [done|].
  split.
  { intros r. rewrite (refs_delete _ _ _ _ _ Hk). unfold released. unfold rr in Hmr0, Hmr'.
    destruct (decide (ck_rule k = r)) as [<-|]; [|rewrite Hmr' by (left; congruence); by destruct (_ && _ && _) eqn:E; [lia|]].
    case_bool_decide; simpl; [rewrite Hmr'; [done|rewrite decide_True by done; lia]|].
    rewrite decide_False in Hmr0, Hmr' by done. destruct (_ && _) eqn:E; [apply Hmr0; lia|apply Hmr'; lia]. }
  split.
  { intros n. rewrite (refs_delete _ _ _ _ _ Hk). unfold released. unfold nr in Hmn0, Hmn'.
    destruct (decide (ck_origin k = n)) as [<-|]; [|rewrite Hmn' by (left; congruence); by destruct (_ && _ && _) eqn:E; [lia|]].
    case_bool_decide; simpl; [rewrite Hmn'; [done|rewrite decide_True by done; lia]|].
    rewrite decide_False in Hmn0, Hmn' by done. destruct (_ && _) eqn:E; [apply Hmn0; lia|apply Hmn'; lia]. }
  split; simpl; try done.
  - intros r d Hd. pose proof (lookup_weaken _ _ _ _ Hd Hmr).
    rewrite Hre, zget_zupd, (refs_delete _ _ _ _ _ Hk) by done.
    destruct (decide (ck_rule k = r)) as [<-|]; [|rewrite Z.sub_0_r; eauto].
    f_equal. unfold rr. lia.
  - intros n d Hd. pose proof (lookup_weaken _ _ _ _ Hd Hmn).
    rewrite Hne, zget_zupd, (refs_delete _ _ _ _ _ Hk) by done.
    destruct (decide (ck_origin k = n)) as [<-|]; [|rewrite Z.sub_0_r; eauto].
    f_equal. unfold nr. lia.
  - intros s' k' Hk'. pose proof (refs_pos ck_rule _ s' k' _ Hk' eq_refl).
    pose proof (refs_pos ck_origin _ s' k' _ Hk' eq_refl).
    apply lookup_delete_Some in Hk' as [_ Hk']. rewrite Hkr, Hkn by (by left). eauto.
  - rewrite Hkn by (by right). done.
  - intros r Hr. rewrite Hkr by (by right). eauto.
Qed.
End dicts.

(** ** Frame conditions: what no operation on cells changes *)
Record stable (self self' : t) : Prop := {
  st_capacity : capacity self' = capacity self;
  st_identity : local_identity self' = local_identity self;
  st_local : local_node_slot self' = local_node_slot self;
  st_rule_cap : Dict.capacity (rule_dictionary self') = Dict.capacity (rule_dictionary self);
  st_node_cap : Dict.capacity (node_dictionary self') = Dict.capacity (node_dictionary self);
  st_peer_cap : PeerFrontierTable.peer_capacity (peer_frontiers self') =
    PeerFrontierTable.peer_capacity (peer_frontiers self);
}.

#[export] Instance stable_preorder : PreOrder stable.
Proof.
  split; [done|]. intros x y z [] []. split; congruence.
Qed.

(** ** Sequences and dirty lanes *)
Lemma next_origin_sequence_ok self o :
  0 ≤ o < zlen (next_sequence_by_origin self) →
  ∃ q, next_origin_sequence self o =
    Some (self <| next_sequence_by_origin := zupd (next_sequence_by_origin self) o q |>, q).
Proof.
  intros Ho. unfold next_origin_sequence.
  destruct (zget_in_range _ _ Ho) as [q ->]. simpl. rewrite zset_ok by done. eauto.
Qed.

Lemma ring_push_ok r e :
  ring_ok r → Z.odd (h_generation (de_handle e)) = true → 0 ≤ h_index (de_handle e) →
  ∃ r', DirtyRing.push r e = Some r' ∧ ring_ok r'.
Proof.
  intros [Hi Ho] He Hix. destruct (DirtyRing.push_ok r Hi e) as (r' & Hp & Hi' & _ & Hc & _).
  exists r'. split; [done|]. split; [done|]. rewrite Hc. unfold DirtyRing.last_n.
  intros e' Hin. eapply subseteq_drop, elem_of_app in Hin as [?|?%list_elem_of_singleton];
    [by apply Ho|by subst].
Qed.

Lemma push_dirty_ok self o h q :
  ring_ok (local_dirty self) → ring_ok (forwarded_dirty self) →
  Z.odd (h_generation h) = true → 0 ≤ h_index h →
  ∃ r1 r2, push_dirty self o h q =
      Some (self <| local_dirty := r1 |> <| forwarded_dirty := r2 |>) ∧
    ring_ok r1 ∧ ring_ok r2.
Proof.
  intros Hl Hf Hh Hi. unfold push_dirty.
  set (e := {| de_handle := h; de_origin_sequence := q |}).
  destruct (o =? local_node_slot self).
  - destruct (ring_push_ok _ e Hl) as (r & -> & ?); [done..|]. simpl.
    exists r, (forwarded_dirty self). done.
  - destruct (ring_push_ok _ e Hf) as (r & -> & ?); [done..|]. simpl.
    exists (local_dirty self), r. done.
Qed.

(** ** Names identify cells *)
Lemma name_inj self A Mr Mn pins s s' k k' dr dr' dn dn' :
  dicts_inv self A Mr Mn pins → rows_inv self A →
  A !! s = Some k → A !! s' = Some k' →
  Mr !! ck_rule k = Some dr → Mr !! ck_rule k' = Some dr' →
  Mn !! ck_origin k = Some dn → Mn !! ck_origin k' = Some dn' →
  name_of dr dn k = name_of dr' dn' k' → s = s'.
Proof.
  intros Hd Hr Hk Hk' Hdr Hdr' Hdn Hdn' [= Hf Hkh Hb Hni Hinc].
  assert (dn = dn') as -> by (destruct dn, dn'; simpl in *; congruence).
  pose proof (di_keys _ _ _ _ (ti_rules _ _ _ _ _ Hd) _ _ _ _ Hdr Hdr' Hf) as Hrs.
  pose proof (di_keys _ _ _ _ (ti_nodes _ _ _ _ _ Hd) _ _ _ _ Hdn Hdn' eq_refl) as Hos.
  destruct (ti_cells _ _ _ _ _ Hd s k Hk) as (_ & d1 & Hd1 & Hi1).
  destruct (ti_cells _ _ _ _ _ Hd s' k' Hk') as (_ & d2 & Hd2 & Hi2).
  assert (k = k') as ->; [|by eapply (wi_inj _ _ Hr)].
  destruct k, k'; simpl in *. simplify_eq. congruence.
Qed.

(** A cell has exactly one name and count. *)
Lemma cell_at_name self A Mr Mn pins s s' n c c' :
  dicts_inv self A Mr Mn pins → rows_inv self A →
  cell_at self A Mr Mn s n c → cell_at self A Mr Mn s' n c' → s = s'.
Proof.
  intros Hd Hr (k & dr & dn & ? & ? & ? & -> & _) (k' & dr' & dn' & ? & ? & ? & Hn & _).
  by eapply (name_inj _ _ _ _ _ s s').
Qed.

(** ** Contents under point updates *)
Section contents.
Context (self self' : t) (A : gmap Z CompactCellKey) (Mr : gmap Z RuleDescriptor)
  (Mn : gmap Z NodeDescriptor) (pins : gset Z) (V : gmap CellName Z).
Context (Hd : dicts_inv self A Mr Mn pins) (Hr : rows_inv self A).
Context (HV : contents_are self A Mr Mn V).

Lemma contents_update s k dr dn c :
  A !! s = Some k → Mr !! ck_rule k = Some dr → Mn !! ck_origin k = Some dn →
  zget (counts self') s = Some c → (∀ s', s' ≠ s → zget (counts self') s' = zget (counts self) s') →
  contents_are self' A Mr Mn (<[name_of dr dn k := c]> V).
Proof using Hd Hr HV.
  intros Hk Hdr Hdn Hc Hother n c'. rewrite lookup_insert_Some. split.
  - intros [[<- <-]|[Hne (s' & k' & dr' & dn' & Hk' & ? & ? & -> & Hc')%HV]].
    + exists s, k, dr, dn. done.
    + exists s', k', dr', dn'. split_and!; try done. rewrite Hother; [done|].
      intros ->. simplify_eq.
  - intros (s' & k' & dr' & dn' & Hk' & Hdr' & Hdn' & -> & Hc').
    destruct (decide (s' = s)) as [->|Hne]; [left; by simplify_eq|].
    right. split.
    + intros Hn. apply Hne. by eapply (name_inj self A Mr Mn pins s' s).
    + apply HV. exists s', k', dr', dn'. rewrite <- Hother by done. done.
Qed.

(** A key without a row has a name without a count. *)
Lemma fresh_name k dr dn s' k' dr' dn' :
  Mr !! ck_rule k = Some dr → Mn !! ck_origin k = Some dn →
  ni_incarnation dn = ck_incarnation k → (∀ s, A !! s ≠ Some k) →
  A !! s' = Some k' → Mr !! ck_rule k' = Some dr' → Mn !! ck_origin k' = Some dn' →
  name_of dr dn k ≠ name_of dr' dn' k'.
Proof using Hd.
  intros Hdr Hdn Hinc Hfresh Hk' Hdr' Hdn' [= Hf Hkh Hb Hni Hi]. apply (Hfresh s').
  assert (dn = dn') as -> by (destruct dn, dn'; simpl in *; congruence).
  pose proof (di_keys _ _ _ _ (ti_rules _ _ _ _ _ Hd) _ _ _ _ Hdr Hdr' Hf).
  pose proof (di_keys _ _ _ _ (ti_nodes _ _ _ _ _ Hd) _ _ _ _ Hdn Hdn' eq_refl).
  destruct (ti_cells _ _ _ _ _ Hd s' k' Hk') as (_ & d2 & Hd2 & Hi2).
  rewrite Hk'. f_equal. destruct k, k'; simpl in *. simplify_eq. congruence.
Qed.

Lemma contents_fresh k dr dn :
  Mr !! ck_rule k = Some dr → Mn !! ck_origin k = Some dn →
  ni_incarnation dn = ck_incarnation k → (∀ s, A !! s ≠ Some k) →
  V !! name_of dr dn k = None.
Proof using Hd HV.
  intros Hdr Hdn Hinc Hfresh. destruct (V !! name_of dr dn k) as [c'|] eqn:E; [|done].
  apply HV in E as (s' & k' & dr' & dn' & ? & ? & ? & Hn & _).
  by destruct (fresh_name k dr dn s' k' dr' dn').
Qed.

Lemma contents_insert s k dr dn c :
  A !! s = None → Mr !! ck_rule k = Some dr → Mn !! ck_origin k = Some dn →
  ni_incarnation dn = ck_incarnation k → (∀ s, A !! s ≠ Some k) →
  zget (counts self') s = Some c → (∀ s', s' ≠ s → zget (counts self') s' = zget (counts self) s') →
  contents_are self' (<[s := k]> A) Mr Mn (<[name_of dr dn k := c]> V).
Proof using Hd HV.
  intros Hs Hdr Hdn Hinc Hfresh Hc Hother.
  intros n c'. rewrite lookup_insert_Some. split.
  - intros [[<- <-]|[Hne (s' & k' & dr' & dn' & Hk' & ? & ? & -> & Hc')%HV]].
    + exists s, k, dr, dn. by rewrite lookup_insert_eq.
    + assert (s' ≠ s) by congruence. exists s', k', dr', dn'.
      rewrite lookup_insert_ne, Hother by done. done.
  - intros (s' & k' & dr' & dn' & Hk' & Hdr' & Hdn' & -> & Hc').
    destruct (decide (s' = s)) as [->|Hne].
    + rewrite lookup_insert_eq in Hk'. left. by simplify_eq.
    + rewrite lookup_insert_ne in Hk' by done. right. split; [by eapply fresh_name|].
      apply HV. exists s', k', dr', dn'. rewrite <- Hother by done. done.
Qed.

Lemma contents_delete s k dr dn Mr' Mn' :
  A !! s = Some k → Mr !! ck_rule k = Some dr → Mn !! ck_origin k = Some dn →
  Mr' ⊆ Mr → Mn' ⊆ Mn → dicts_inv self' (delete s A) Mr' Mn' pins →
  counts self' = counts self →
  contents_are self' (delete s A) Mr' Mn' (delete (name_of dr dn k) V).
Proof using Hd Hr HV.
  intros Hk Hdr Hdn HMr HMn Hd' Hcs n c. rewrite lookup_delete_Some. split.
  - intros [Hne (s' & k' & dr' & dn' & Hk' & Hdr' & Hdn' & -> & Hc')%HV].
    assert (delete s A !! s' = Some k') as Hk''.
    { apply lookup_delete_Some. split; [|done]. intros <-. by simplify_eq. }
    destruct (ti_cells _ _ _ _ _ Hd' _ _ Hk'') as ([d1 H1] & d2 & H2 & _).
    pose proof (lookup_weaken _ _ _ _ H1 HMr). pose proof (lookup_weaken _ _ _ _ H2 HMn).
    exists s', k', dr', dn'. rewrite Hcs. split_and!; try done; congruence.
  - intros (s' & k' & dr' & dn' & [Hne Hk']%lookup_delete_Some & Hdr' & Hdn' & -> & Hc').
    pose proof (lookup_weaken _ _ _ _ Hdr' HMr). pose proof (lookup_weaken _ _ _ _ Hdn' HMn).
    split.
    + intros Hn. apply Hne. by eapply (name_inj self A Mr Mn pins s s').
    + apply HV. exists s', k', dr', dn'. rewrite <- Hcs. done.
Qed.
End contents.
