(* ===== verification/CellOps.v ===== *)
(** * The cell store: every operation keeps the invariant

    For each mutating method of [CellStore]: it does not panic, it keeps
    [inv_at], and its effect on the abstract contents and on its sink is the
    stated one. *)

From S2P Require Import Prelude Types Hash Index Freelist Dictionary DirtyRing PeerFrontier IO CellStore CellSlots CellInv.
Import CellStore.

(** ** Releasing a cell *)
Section free.
Context {C : Count}.
Context (self : t) A Mr Mn pins V (Hinv : inv_at self A Mr Mn pins V).

Lemma inv_range s : is_Some (A !! s) → 0 ≤ s < capacity self.
Proof using Hinv. apply (rows_inv_range _ _ (iv_rows _ _ _ _ _ _ Hinv)). Qed.

Lemma key_at_ok s k : A !! s = Some k → key_at self s = Some k.
Proof using Hinv. intros Hk. by apply (wi_key _ _ (iv_rows _ _ _ _ _ _ Hinv)). Qed.

Lemma free_cell_at_ok s k dr dn :
  A !! s = Some k → Mr !! ck_rule k = Some dr → Mn !! ck_origin k = Some dn →
  ∃ self' Mr' Mn', free_cell_at self s = Some self' ∧ Mr' ⊆ Mr ∧ Mn' ⊆ Mn ∧
    (∀ r, Mr' !! r = if released (r ∈ pins) (refs ck_rule A r) (refs ck_rule (delete s A) r) then None else Mr !! r) ∧
    (∀ n, Mn' !! n = if released (n = local_node_slot self) (refs ck_origin A n) (refs ck_origin (delete s A) n)
                     then None else Mn !! n) ∧
    inv_at self' (delete s A) Mr' Mn' pins (delete (name_of dr dn k) V) ∧
    stable self self' ∧ buckets self' = buckets self ∧ counts self' = counts self ∧
    last_update_millis self' = last_update_millis self ∧
    expire_current_epoch_scratch self' = expire_current_epoch_scratch self ∧
    expire_live_buckets_scratch self' = expire_live_buckets_scratch self.
Proof using Hinv.
  intros Hk Hdr Hdn. pose proof Hinv as [Hsl Hrows Hd Hl Hc HV].
  pose proof (si_cap _ _ Hsl).
  destruct (dicts_release _ _ _ _ _ Hd (capacity self) ltac:(lia) inv_range s k Hk)
    as (rd & nd & freed & Hrd & Hnd & Hrc & Hnc & Ho & Mr' & Mn' & HMr & HMn & HrMr & HrMn & Hd').
  destruct (rows_remove_ok _ _ Hrows s k Hk) as (idx & Hidx & Hrows').
  unfold free_cell_at. rewrite (key_at_ok s k Hk). simpl. rewrite Hidx. simpl.
  rewrite Hrd. simpl. rewrite Hnd. simpl.
  assert (∃ pf seqs, (if freed then
      pf ← PeerFrontierTable.clear_node_slot (peer_frontiers self) (ck_origin k);
      seqs ← zset (next_sequence_by_origin self) (ck_origin k) 0;
      Some (self <| index := idx |> <| rule_dictionary := rd |> <| node_dictionary := nd |>
            <| peer_frontiers := pf |> <| next_sequence_by_origin := seqs |>)
    else Some (self <| index := idx |> <| rule_dictionary := rd |>
               <| node_dictionary := nd |>)) =
    Some (self <| index := idx |> <| rule_dictionary := rd |> <| node_dictionary := nd |>
            <| peer_frontiers := pf |> <| next_sequence_by_origin := seqs |>) ∧
    PeerFrontierTable.inv pf ∧
    PeerFrontierTable.node_capacity pf = Dict.capacity (node_dictionary self) ∧
    zlen seqs = Dict.capacity (node_dictionary self) ∧
    PeerFrontierTable.peer_capacity pf = PeerFrontierTable.peer_capacity (peer_frontiers self))
    as (pf & seqs & Heq & Hpf & Hpn & Hsq & Hpp).
  { pose proof Hl as []. destruct freed.
    - destruct (PeerFrontierTable.clear_node_slot_ok _ li_frontier (ck_origin k))
        as (pf & -> & Hpi & Hpp & Hpn & _); [lia|]. simpl.
      rewrite zset_ok by lia. simpl. do 2 eexists. split; [done|].
      rewrite zlen_zupd. split_and!; [done|congruence|done|done].
    - exists (peer_frontiers self), (next_sequence_by_origin self). done. }
  rewrite Heq. simpl. clear Heq.
  set (self1 := self <| index := idx |> <| rule_dictionary := rd |>
    <| node_dictionary := nd |> <| peer_frontiers := pf |>
    <| next_sequence_by_origin := seqs |>).
  assert (slots_inv self1 (dom A)) as Hsl1 by (reframe Hsl).
  destruct (free_slot_ok self1 (dom A) Hsl1 s) as (g & _ & -> & Hsl2).
  { apply elem_of_dom. eauto. }
  eexists _, Mr', Mn'. split; [done|]. split; [done|]. split; [done|].
  split; [exact HrMr|]. split; [exact HrMn|]. split; [|by split_and!].
  split.
  - rewrite dom_delete_L. done.
  - reframe Hrows'.
  - reframe Hd'.
  - destruct Hl. split; simpl; try done; congruence.
  - done.
  - eapply (contents_delete self _ A Mr Mn pins); try done. reframe Hd'.
Qed.
End free.

(** ** Inserting or raising a cell *)
Definition delta_row (dr : RuleDescriptor) (spec : UpsertSpec) (h : CellHandle)
    (previous current : Z) : CellDelta :=
  {| d_handle := h;
     d_key := {| rule_fingerprint := fingerprint dr; key_hash := us_key_hash spec;
                 bucket := us_bucket spec |};
     d_previous_count := previous; d_current_count := current;
     d_delta := current - previous; d_applies_locally := applies_locally dr |}.

Definition spec_name (dr : RuleDescriptor) (dn : NodeDescriptor) (spec : UpsertSpec) : CellName :=
  name_of dr dn (spec_key spec).

(** [emit_delta] on a row whose rule is live. *)
Lemma emit_delta_ok self rows spec s g dr previous current :
  zget (generations self) s = Some g → key_at self s = Some (spec_key spec) →
  live_descriptor self (us_rule_slot spec) = Some dr →
  emit_delta self (DeltaSink.of_rows rows) s previous current (current - previous)
    (us_rule_slot spec) =
  Some (DeltaSink.of_rows
    (rows ++ [delta_row dr spec {| h_index := s; h_generation := g |} previous current])).
Proof.
  intros Hg Hk Hd. unfold emit_delta, handle_for. rewrite Hg. simpl. rewrite Hd. simpl.
  unfold identity_at. unfold key_at in Hk.
  destruct (zget (rules self) s); [|done]. destruct (zget (key_hashes self) s); [|done].
  destruct (zget (buckets self) s); [|done]. destruct (zget (origins self) s); [|done].
  destruct (zget (incarnations self) s); [|done]. simpl in *.
  injection Hk as -> -> -> -> ->. by rewrite DeltaSink.delta_push_of_rows.
Qed.

Section upsert.
Context {C : Count} {CL : CountLaws C}.

Definition mode_ok (mode : UpsertMode) : Prop :=
  match mode with
  | Accumulate hits => 0 ≤ hits ≤ U64_MAX
  | MaxMerge observed => 0 ≤ observed ≤ count_MAX
  end.

Lemma apply_mode_bounds mode c :
  mode_ok mode → 0 ≤ c ≤ count_MAX → c ≤ apply_mode mode c ≤ count_MAX.
Proof using CL.
  destruct mode; simpl; intros Hm Hc.
  - rewrite saturating_add_hits_min by done. lia.
  - destruct (_ <? _) eqn:E; bool_solve; lia.
Qed.

Lemma initial_of_mode_eq mode : mode_ok mode → initial_of_mode mode = apply_mode mode 0.
Proof using CL.
  destruct mode; simpl; intros Hm; [done|]. destruct (_ <? _) eqn:E; bool_solve; lia.
Qed.

Context (self : t) A Mr Mn pins V (Hinv : inv_at self A Mr Mn pins V).
Context (spec : UpsertSpec) (dr : RuleDescriptor) (dn : NodeDescriptor).
Context (Hdr : Mr !! us_rule_slot spec = Some dr) (Hdn : Mn !! us_origin_slot spec = Some dn).
Context (Hinc : ni_incarnation dn = us_incarnation spec) (Hmode : mode_ok (us_mode spec)).

Lemma origin_in_range :
  0 ≤ us_origin_slot spec < zlen (next_sequence_by_origin self).
Proof using Hinv Hdn.
  pose proof Hinv as [_ _ Hd Hl _ _]. rewrite (li_sequences _ Hl).
  by apply (di_live _ _ _ _ (ti_nodes _ _ _ _ _ Hd) _ _ Hdn).
Qed.

Lemma live_gen_odd s k g :
  A !! s = Some k → zget (generations self) s = Some g → Z.odd g = true.
Proof using Hinv.
  intros Hk Hg. destruct (si_gen _ _ (iv_slots _ _ _ _ _ _ Hinv) s g Hg) as [_ ->].
  apply bool_decide_true, elem_of_dom. eauto.
Qed.

(** The key has a row: its count becomes [apply_mode]; a delta is emitted
    exactly when it rose. *)
Lemma update_row_ok rows s c :
  A !! s = Some (spec_key spec) → zget (counts self) s = Some c →
  let c' := apply_mode (us_mode spec) c in
  ∃ self' h outcome,
    zget (generations self) s = Some (h_generation h) ∧ h_index h = s ∧
    update_row self (DeltaSink.of_rows rows) spec s =
      Some (self', DeltaSink.of_rows
              (rows ++ if c' =? c then [] else [delta_row dr spec h c c']), inl outcome) ∧
    inv_at self' A Mr Mn pins (<[spec_name dr dn spec := c']> V) ∧ stable self self'.
Proof using CL Hinv Hdr Hdn Hinc Hmode.
  intros Hk Hc. cbv zeta. pose proof Hinv as [Hsl Hrows Hd Hl Hcs HV].
  destruct (wi_key _ _ Hrows _ _ Hk) as [Hs Hka].
  destruct (zget_in_range (generations self) s) as [g Hg];
    [by rewrite (si_generations _ _ Hsl)|].
  pose proof (apply_mode_bounds (us_mode spec) c Hmode (Hcs _ _ Hc)) as Hb.
  set (c' := apply_mode (us_mode spec) c) in *.
  unfold update_row. rewrite Hc. simpl. fold c'.
  destruct (c' =? c) eqn:E; bool_solve.
  { unfold handle_for. rewrite Hg. simpl. rewrite app_nil_r.
    exists self, {| h_index := s; h_generation := g |}. eexists. split; [done|].
    split; [done|]. split; [done|]. split; [|done]. rewrite E, insert_id; [done|].
    apply HV. by exists s, (spec_key spec), dr, dn. }
  assert (zlen (counts self) = capacity self) as Hlc by apply Hsl.
  assert (zlen (last_update_millis self) = capacity self) as Hlu by apply Hsl.
  assert (zlen (origin_sequences self) = capacity self) as Hlq by apply Hsl.
  rewrite !zset_ok by lia. simpl.
  edestruct (next_origin_sequence_ok (self <| counts := zupd (counts self) s c' |>
    <| last_update_millis := zupd (last_update_millis self) s (us_now_millis spec) |>)
    (us_origin_slot spec)) as (q & ->); [apply origin_in_range|]. simpl.
  rewrite zset_ok by lia. simpl. unfold handle_for at 1. simpl. rewrite Hg. simpl.
  set (h := {| h_index := s; h_generation := g |}).
  match goal with |- context [push_dirty ?x _ _ _] => set (self1 := x) end.
  destruct (push_dirty_ok self1 (us_origin_slot spec) h q) as (r1 & r2 & -> & Hr1 & Hr2);
    [apply Hl|apply Hl|by eapply live_gen_odd|simpl; lia|]. simpl.
  rewrite saturating_delta_sub, Z.max_r by lia.
  destruct (rule_live _ _ _ _ _ Hd s _ Hk) as (dr' & Hdr' & Hlive).
  assert (dr' = dr) as -> by (simpl in *; congruence).
  rewrite (emit_delta_ok _ _ _ _ g dr) by done. simpl.
  rewrite DeltaSink.row_last. simpl.
  eexists _, h, _. split; [done|]. split; [done|]. split; [done|].
  split; [|by split].
  split.
  - destruct Hsl. split; simpl; rewrite ?zlen_zupd; done.
  - reframe Hrows.
  - reframe Hd.
  - destruct Hl. split; simpl; rewrite ?zlen_zupd; done.
  - simpl. intros s' c0. rewrite zget_zupd by lia.
    destruct (decide (s = s')); [intros [= <-]; specialize (Hcs _ _ Hc); lia|apply Hcs].
  - eapply (contents_update self); try done; simpl.
    + by rewrite zget_zupd_eq by lia.
    + intros. by rewrite zget_zupd_ne by done.
Qed.

(** A new key in a freshly allocated slot: the cell appears with the initial
    count, which is also its delta. *)
Lemma insert_row_ok rows s g nxt :
  s ∉ dom A → 0 ≤ s < capacity self → (∀ s, A !! s ≠ Some (spec_key spec)) →
  zget (generations self) s = Some g →
  let g' := wrapping_add 32 g 1 in
  let self0 := self <| free_head := nxt |>
                    <| free_next := zupd (free_next self) s NO_FREE |>
                    <| generations := zupd (generations self) s g' |>
                    <| active_len := active_len self + 1 |> in
  slots_inv self0 ({[ s ]} ∪ dom A) →
  let c' := apply_mode (us_mode spec) 0 in
  ∃ self' outcome,
    insert_row self0 (DeltaSink.of_rows rows) spec (spec_key spec) s =
      Some (self', DeltaSink.of_rows (rows ++
        [delta_row dr spec {| h_index := s; h_generation := g' |} 0 c']), inl outcome) ∧
    V !! spec_name dr dn spec = None ∧
    inv_at self' (<[s := spec_key spec]> A) Mr Mn pins (<[spec_name dr dn spec := c']> V) ∧
    stable self self'.
Proof using CL Hinv Hdr Hdn Hinc Hmode.
  intros HsA Hs Hfresh Hg g' self0 Hsl0 c'. pose proof Hinv as [Hsl Hrows Hd Hl Hcs HV].
  apply not_elem_of_dom in HsA. pose proof (si_cap _ _ Hsl).
  assert (zget (generations self0) s = Some g') as Hg'.
  { simpl. apply zget_zupd_eq. by rewrite (si_generations _ _ Hsl). }
  assert (Z.odd g' = true) as Hodd.
  { destruct (si_gen _ _ Hsl0 s g' Hg') as [_ ->]. apply bool_decide_true.
    apply elem_of_union_l, elem_of_singleton. done. }
  pose proof (apply_mode_bounds (us_mode spec) 0 Hmode) as Hb.
  pose proof (count_MAX_bounds (CountLaws := CL)).
  assert (rows_inv self0 A) as Hrows0 by reframe Hrows.
  destruct (write_row_ok self0 _ A spec s c' Hsl0 Hrows0 HsA Hs) as (Hw & Hsl1 & Hrows1 & Hka).
  match type of Hsl1 with slots_inv ?x _ => set (self1 := x) in * end.
  unfold insert_row. rewrite initial_of_mode_eq by done. fold c'. rewrite Hw. simpl.
  destruct (next_origin_sequence_ok self1 (us_origin_slot spec)) as (q & ->);
    [apply origin_in_range|]. simpl.
  assert (zlen (origin_sequences self) = capacity self) as Hlq by apply Hsl.
  rewrite zset_ok by lia. simpl.
  edestruct (dicts_acquire self A Mr Mn pins Hd (capacity self) ltac:(lia)
    (inv_range _ _ _ _ _ _ Hinv) s (spec_key spec) dr dn)
    as (rd & nd & Hrd & Hnd & Hrc & Hnc & Hd'); [done..|].
  simpl in Hrd, Hnd. rewrite Hrd. simpl. rewrite Hnd. simpl.
  edestruct (rows_insert_ok self1 A Hrows1 s (spec_key spec)) as (idx & Hidx & Hrows2);
    [done|done|done|simpl; lia|done|].
  simpl in Hidx. rewrite Hidx. simpl. unfold handle_for at 1. simpl in Hg'. simpl.
  rewrite Hg'. simpl.
  set (h := {| h_index := s; h_generation := g' |}).
  match goal with |- context [push_dirty ?x _ _ _] => set (self2 := x) end.
  destruct (push_dirty_ok self2 (us_origin_slot spec) h q) as (r1 & r2 & -> & Hr1 & Hr2);
    [apply Hl|apply Hl|done|simpl; lia|]. simpl.
  destruct (rule_live _ _ _ _ _ Hd' s (spec_key spec)) as (dr' & Hdr' & Hlive);
    [by rewrite lookup_insert_eq|].
  assert (dr' = dr) as -> by (simpl in *; congruence).
  pose proof (emit_delta_ok (self2 <| local_dirty := r1 |> <| forwarded_dirty := r2 |>)
    rows spec s g' dr 0 c' Hg' Hka Hlive) as He.
  rewrite Z.sub_0_r in He. rewrite He. simpl. rewrite DeltaSink.row_last. simpl.
  assert (zlen (counts self) = capacity self) as Hlc by apply Hsl.
  pose proof (contents_fresh self A Mr Mn pins V Hd HV (spec_key spec) dr dn Hdr Hdn Hinc Hfresh).
  eexists _, _. split; [done|]. split; [done|]. split; [|by split].
  split; try done.
  - rewrite dom_insert_L. destruct Hsl1. split; simpl; rewrite ?zlen_zupd;
      first [done|apply Hsl].
  - reframe Hrows2.
  - reframe Hd'.
  - destruct Hl. split; simpl; rewrite ?zlen_zupd, ?Hrc, ?Hnc; done.
  - simpl. intros s' c0. rewrite zget_zupd by lia.
    destruct (decide (s = s')); [intros [= <-]; lia|apply Hcs].
  - eapply (contents_insert self); try done; simpl.
    + by rewrite zget_zupd_eq by lia.
    + intros. by rewrite zget_zupd_ne by done.
Qed.

(** What [upsert] does: the named cell moves to [apply_mode] of its old
    count (0 if absent), with one delta row if that changed anything; a new
    cell is refused only by a full store, and then nothing else moves. *)
Lemma upsert_ok rows :
  let n := spec_name dr dn spec in
  let old := V !! n in
  let c' := apply_mode (us_mode spec) (default 0 old) in
  ∃ self' A' outcome rows',
    upsert self spec (DeltaSink.of_rows rows) =
      Some (self', DeltaSink.of_rows (rows ++ rows'), outcome) ∧
    stable self self' ∧ (size A' ≤ S (size A))%nat ∧
    ((∃ h o, outcome = inl o ∧ inv_at self' A' Mr Mn pins (<[n := c']> V) ∧
       rows' = match old with
               | Some c => if c' =? c then [] else [delta_row dr spec h c c']
               | None => [delta_row dr spec h 0 c']
               end) ∨
     (outcome = inr CellStoreFull ∧ old = None ∧ active_len self = capacity self ∧
      self' = note_cell_store_full self ∧ A' = A ∧ inv_at self' A Mr Mn pins V ∧ rows' = [])).
Proof using CL Hinv Hdr Hdn Hinc Hmode.
  intros n old c'. pose proof Hinv as [Hsl Hrows Hd Hl Hcs HV]. unfold upsert.
  destruct (lookup_index_ok _ _ Hrows (spec_key spec)) as ([s|] & -> & Hr); simpl.
  - destruct (wi_key _ _ Hrows _ _ Hr) as [Hs _].
    destruct (zget_in_range (counts self) s) as [c Hc]; [by rewrite (si_counts _ _ Hsl)|].
    assert (old = Some c) as Hold
      by (apply HV; by exists s, (spec_key spec), dr, dn).
    destruct (update_row_ok rows s c Hr Hc) as (self' & h & o & _ & _ & -> & Hi & Hst).
    exists self', A, (inl o). eexists. split; [done|]. split; [done|]. split; [lia|]. left.
    exists h, o. split; [done|]. unfold c'. rewrite Hold. simpl. split; [exact Hi|done].
  - destruct (alloc_slot_ok _ _ Hsl) as [[-> Hfull]|(s & g & nxt & HsA & Hs & Hg & -> & Hsl0)].
    + simpl. exists (note_cell_store_full self), A, (inr CellStoreFull), [].
      rewrite app_nil_r. split; [done|]. split; [by split|]. split; [lia|]. right. split_and!; try done.
      * by eapply (contents_fresh self A Mr Mn pins V).
      * rewrite (si_active _ _ Hsl). done.
      * split; [reframe Hsl|reframe Hrows|reframe Hd|reframe Hl|done|done].
    + simpl.
      destruct (insert_row_ok rows s g nxt HsA Hs Hr Hg Hsl0)
        as (self' & o & -> & HVn & Hi & Hst).
      exists self', (<[s := spec_key spec]> A), (inl o). eexists. split; [done|].
      split; [done|]. split; [rewrite map_size_insert; case_match; simpl; lia|].
      left. exists {| h_index := s; h_generation := wrapping_add 32 g 1 |}, o.
      split; [done|]. fold n in HVn. unfold c', old. rewrite HVn. simpl. split; [exact Hi|done].
Qed.
End upsert.

(** ** Interning *)
Lemma contents_grow self self' A Mr Mn pins Mr' Mn' V :
  dicts_inv self A Mr Mn pins → Mr ⊆ Mr' → Mn ⊆ Mn' → counts self' = counts self →
  contents_are self A Mr Mn V → contents_are self' A Mr' Mn' V.
Proof.
  intros Hd HMr HMn Hcs HV n c. rewrite (HV n c). split.
  - intros (s & k & dr & dn & Hk & Hdr & Hdn & -> & Hc). exists s, k, dr, dn.
    rewrite Hcs. split_and!; try done; by eapply lookup_weaken.
  - intros (s & k & dr & dn & Hk & Hdr & Hdn & -> & Hc). exists s, k, dr, dn.
    destruct (ti_cells _ _ _ _ _ Hd s k Hk) as ([dr' Hdr'] & dn' & Hdn' & _).
    rewrite <- Hcs. pose proof (lookup_weaken _ _ _ _ Hdr' HMr).
    pose proof (lookup_weaken _ _ _ _ Hdn' HMn). split_and!; try done; congruence.
Qed.

(** Replacing the descriptor of a rule keeps every name. *)
Lemma contents_redescribe self self' A Mr Mn r d d' V :
  Mr !! r = Some d → fingerprint d' = fingerprint d → counts self' = counts self →
  contents_are self A Mr Mn V → contents_are self' A (<[r := d']> Mr) Mn V.
Proof.
  intros Hd Hf Hcs HV n c. rewrite (HV n c).
  split; intros (s & k & dr & dn & Hk & Hdr & Hdn & -> & Hc).
  - destruct (decide (r = ck_rule k)) as [->|].
    + exists s, k, d', dn. rewrite lookup_insert_eq, Hcs. simplify_eq.
      split_and!; try done. unfold name_of. by rewrite Hf.
    + exists s, k, dr, dn. by rewrite lookup_insert_ne, Hcs.
  - destruct (decide (r = ck_rule k)) as [->|].
    + rewrite lookup_insert_eq in Hdr. injection Hdr as <-.
      exists s, k, d, dn. rewrite <- Hcs. split_and!; try done. unfold name_of. by rewrite Hf.
    + rewrite lookup_insert_ne in Hdr by done. exists s, k, dr, dn. by rewrite <- Hcs.
Qed.

Section intern.
Context {C : Count}.
Context (self : t) A Mr Mn pins V (Hinv : inv_at self A Mr Mn pins V).

(** A fresh rule slot, with [pin] references to start with. *)
Lemma add_rule_ok rd s d (pin : bool) :
  Mr !! s = None → dict_inv fingerprint hash_fingerprint rd (<[s := d]> Mr) →
  Dict.capacity rd = Dict.capacity (rule_dictionary self) →
  Dict.refcounts rd =
    zupd (Dict.refcounts (rule_dictionary self)) s (if pin then 1 else 0) →
  inv_at (self <| rule_dictionary := rd |>) A (<[s := d]> Mr) Mn
    (if pin then {[ s ]} ∪ pins else pins) V.
Proof using Hinv.
  intros Hs Hri Hrc Hre. pose proof Hinv as [Hsl Hrows Hd Hl Hcs HV].
  assert (s ∉ pins) as Hsp.
  { intros Hp. apply (ti_pins _ _ _ _ _ Hd) in Hp. rewrite Hs in Hp. by destruct Hp. }
  assert (refs ck_rule A s = 0) as Hr0.
  { apply refs_zero. intros s' k Hk <-.
    destruct (ti_cells _ _ _ _ _ Hd s' k Hk) as [[? ?] _]. congruence. }
  assert (0 ≤ s < zlen (Dict.refcounts (rule_dictionary self))) as Hsr.
  { rewrite (di_rcs _ _ _ _ (ti_rules _ _ _ _ _ Hd)), <- Hrc.
    apply (di_live _ _ _ _ Hri s d). by rewrite lookup_insert_eq. }
  split; [reframe Hsl|reframe Hrows| |destruct Hl; split; simpl; try done; congruence|done|].
  - destruct Hd. split; simpl; try done.
    + intros r d0. rewrite Hre, zget_zupd, lookup_insert by done.
      destruct (decide (s = r)) as [<-|Hne].
      * intros _. f_equal. rewrite Hr0. destruct pin.
        -- rewrite decide_True by (by apply elem_of_union_l, elem_of_singleton). done.
        -- rewrite decide_False by done. done.
      * intros Hd0. rewrite (ti_rule_refs r d0 Hd0). do 2 f_equal.
        destruct pin; [|done]. apply decide_ext. set_cases.
    + intros s' k Hk. destruct (ti_cells s' k Hk) as [Hr Hn]. split; [|done].
      apply lookup_insert_is_Some'. by right.
    + intros r Hr. apply lookup_insert_is_Some'. destruct pin; [|by eauto].
      apply elem_of_union in Hr as [->%elem_of_singleton|]; eauto.
  - eapply (contents_grow self); [done| |done|done|done]. by apply insert_subseteq.
Qed.

Lemma add_node_ok nd s d :
  Mn !! s = None → dict_inv node_key hash_node nd (<[s := d]> Mn) →
  Dict.capacity nd = Dict.capacity (node_dictionary self) →
  Dict.refcounts nd = zupd (Dict.refcounts (node_dictionary self)) s 0 →
  inv_at (self <| node_dictionary := nd |>) A Mr (<[s := d]> Mn) pins V.
Proof using Hinv.
  intros Hs Hni Hnc Hne. pose proof Hinv as [Hsl Hrows Hd Hl Hcs HV].
  assert (refs ck_origin A s = 0) as Hr0.
  { apply refs_zero. intros s' k Hk <-.
    destruct (ti_cells _ _ _ _ _ Hd s' k Hk) as [_ (? & ? & _)]. congruence. }
  assert (0 ≤ s < zlen (Dict.refcounts (node_dictionary self))) as Hsr.
  { rewrite (di_rcs _ _ _ _ (ti_nodes _ _ _ _ _ Hd)), <- Hnc.
    apply (di_live _ _ _ _ Hni s d). by rewrite lookup_insert_eq. }
  assert (s ≠ local_node_slot self) as Hsl'.
  { intros ->. by rewrite (ti_local _ _ _ _ _ Hd) in Hs. }
  split; [reframe Hsl|reframe Hrows| |destruct Hl; split; simpl; try done; congruence|done|].
  - destruct Hd. split; simpl; try done.
    + intros n d0. rewrite Hne, zget_zupd, lookup_insert by done.
      destruct (decide (s = n)) as [<-|]; [|eauto].
      intros _. f_equal. rewrite Hr0, decide_False by done. done.
    + intros s' k Hk. destruct (ti_cells s' k Hk) as (Hr & dn & Hdn & Hi). split; [done|].
      exists dn. split; [|done]. rewrite lookup_insert_ne; congruence.
    + rewrite lookup_insert_ne by done. done.
  - eapply (contents_grow self); [done|done| |done|done]. by apply insert_subseteq.
Qed.

(** Find or intern a rule seen on the wire. *)
Lemma translate_rule_ok fp :
  ∃ self' r Mr', translate_rule self fp = Some (self', r) ∧ stable self self' ∧
    inv_at self' A Mr' Mn pins V ∧ Mr ⊆ Mr' ∧ (size Mr' ≤ S (size Mr))%nat ∧
    (∀ s d, Mr' !! s = Some d → Mr !! s = Some d ∨
       d = wire_only_descriptor fp ∧ ∀ s' d', Mr !! s' = Some d' → fingerprint d' ≠ fp) ∧
    interned fingerprint (Dict.capacity (rule_dictionary self)) Mr Mr' (wire_only_descriptor fp) r ∧
    match r with
    | Some slot => ∃ d, Mr' !! slot = Some d ∧ fingerprint d = fp
    | None => self' = note_rule_dictionary_full self ∧
              Dict.len (rule_dictionary self) = Dict.capacity (rule_dictionary self) ∧
              ∀ s d, Mr !! s = Some d → fingerprint d ≠ fp
    end.
Proof using Hinv.
  pose proof Hinv as [Hsl Hrows Hd Hl Hcs HV]. unfold translate_rule.
  destruct (dict_find_ok _ _ _ _ (ti_rules _ _ _ _ _ Hd) fp) as ([slot|] & Hf & Hr).
  { unfold RuleDictionary.find. rewrite Hf. simpl. exists self, (Some slot), Mr.
    split_and!; try done; [lia|by left|]. left. by split. }
  unfold RuleDictionary.intern. change (fingerprint (wire_only_descriptor fp)) with fp.
  unfold RuleDictionary.find. rewrite Hf. simpl.
  destruct (dict_intern_new_ok _ _ _ _ (ti_rules _ _ _ _ _ Hd) (wire_only_descriptor fp))
    as [[-> Hfull]|(s & rd & -> & Hs & Hsr & Hri & Hrc & Hre)]; [done| |]; simpl.
  - exists (note_rule_dictionary_full self), None, Mr. split; [done|]. split; [by split|].
    split; [split; [reframe Hsl|reframe Hrows|reframe Hd|reframe Hl|done|done]|].
    split_and!; try done; [lia|by left|].
    by rewrite (di_len _ _ _ _ (ti_rules _ _ _ _ _ Hd)).
  - set (d := wire_only_descriptor fp) in *.
    exists (self <| rule_dictionary := rd |>), (Some s), (<[s := d]> Mr).
    split; [done|]. split; [by split|].
    split; [by apply (add_rule_ok rd s d false)|]. split; [by apply insert_subseteq|].
    split; [by rewrite map_size_insert_None|].
    split; [intros s' d' [[_ <-]|[_ ?]]%lookup_insert_Some; [right; split; [done|exact Hr]|by left]|].
    split; [right; split_and!; try done; rewrite <- Hrc; by eapply (dict_room fingerprint)|].
    exists d. by rewrite lookup_insert_eq.
Qed.

(** Find or intern an origin. *)
Lemma translate_node_ok id inc :
  ∃ self' r Mn', translate_node self id inc = Some (self', r) ∧ stable self self' ∧
    inv_at self' A Mr Mn' pins V ∧ Mn ⊆ Mn' ∧ (size Mn' ≤ S (size Mn))%nat ∧
    rule_dictionary self' = rule_dictionary self ∧
    interned node_key (Dict.capacity (node_dictionary self)) Mn Mn' {| node_id := id; ni_incarnation := inc |} r ∧
    match r with
    | Some slot => Mn' !! slot = Some {| node_id := id; ni_incarnation := inc |}
    | None => self' = note_node_dictionary_full self ∧ Mn' = Mn ∧
              Dict.len (node_dictionary self) = Dict.capacity (node_dictionary self) ∧
              ∀ s, Mn !! s ≠ Some {| node_id := id; ni_incarnation := inc |}
    end.
Proof using Hinv.
  pose proof Hinv as [Hsl Hrows Hd Hl Hcs HV]. unfold translate_node.
  set (key := {| node_id := id; ni_incarnation := inc |}).
  destruct (dict_find_ok _ _ _ _ (ti_nodes _ _ _ _ _ Hd) key) as ([slot|] & Hf & Hr).
  { unfold NodeDictionary.find. fold key. rewrite Hf. simpl. exists self, (Some slot), Mn.
    destruct Hr as (d & Hd' & <-). split_and!; try done; [lia|]. left. split; [done|]. by exists d. }
  unfold NodeDictionary.intern, NodeDictionary.find. fold key. rewrite Hf. simpl.
  destruct (dict_intern_new_ok _ _ _ _ (ti_nodes _ _ _ _ _ Hd) key)
    as [[-> Hfull]|(s & nd & -> & Hs & Hsr & Hni & Hnc & Hne)]; [done| |]; simpl.
  - exists (note_node_dictionary_full self), None, Mn. split; [done|]. split; [by split|].
    split; [split; [reframe Hsl|reframe Hrows|reframe Hd|reframe Hl|done|done]|].
    split_and!; try done; [lia|..].
    + by rewrite (di_len _ _ _ _ (ti_nodes _ _ _ _ _ Hd)).
    + intros s Hs. by eapply Hr.
  - exists (self <| node_dictionary := nd |>), (Some s), (<[s := key]> Mn).
    split; [done|]. split; [by split|].
    split; [by apply (add_node_ok nd s key)|]. split; [by apply insert_subseteq|].
    split; [by rewrite map_size_insert_None|].
    split; [done|]. split; [right; split_and!; try done; rewrite <- Hnc; by eapply (dict_room node_key)|].
    by rewrite lookup_insert_eq.
Qed.
End intern.

(** ** Registering a configured rule *)
Lemma intern_rule_ok {C : Count} self A Mr Mn pins V d :
  inv_at self A Mr Mn pins V →
  ∃ self' r Mr' pins', intern_rule self d = Some (self', r) ∧ stable self self' ∧
    inv_at self' A Mr' Mn pins' V ∧ pins ⊆ pins' ∧
    match r with
    | Some slot =>
      Mr' = <[slot := d]> Mr ∧ (Mr !! slot = None → slot ∈ pins') ∧
      pins' = match Mr !! slot with Some _ => pins | None => {[ slot ]} ∪ pins end ∧
      (Mr !! slot = None → Z.of_nat (size Mr) < Dict.capacity (rule_dictionary self)) ∧
      (∀ s d', Mr !! s = Some d' → fingerprint d' = fingerprint d → s = slot) ∧
      (∀ d', Mr !! slot = Some d' → fingerprint d' = fingerprint d)
    | None => self' = note_rule_dictionary_full self ∧ Mr' = Mr ∧
              Dict.len (rule_dictionary self) = Dict.capacity (rule_dictionary self) ∧
              pins' = pins ∧ ∀ s d', Mr !! s = Some d' → fingerprint d' ≠ fingerprint d
    end.
Proof.
  intros Hinv. pose proof Hinv as [Hsl Hrows Hd Hl Hcs HV].
  pose proof (ti_rules _ _ _ _ _ Hd) as Hrd.
  unfold intern_rule, RuleDictionary.intern, RuleDictionary.find.
  destruct (dict_find_ok _ _ _ _ Hrd (fingerprint d)) as ([slot|] & Hf & Hr);
    rewrite Hf; simpl.
  - destruct Hr as (d0 & Hd0 & Hfp).
    destruct (dict_replace_ok _ _ _ _ Hrd slot d0 d Hd0 (eq_sym Hfp)) as [-> Hri]. simpl.
    eexists _, (Some slot), (<[slot := d]> Mr), pins.
    split; [done|]. split; [by split|]. split; [|split_and!; try done; [congruence|by rewrite Hd0|congruence| |congruence]].
    + split; [reframe Hsl|reframe Hrows| |reframe Hl|done|].
      * destruct Hd. split; simpl; try done.
        -- intros r d'. rewrite lookup_insert. destruct (decide (slot = r)) as [<-|]; [|eauto].
           intros _. eauto.
        -- intros s k Hk. destruct (ti_cells s k Hk) as [? ?]. split; [|done].
           apply lookup_insert_is_Some'. by right.
        -- intros r ?. apply lookup_insert_is_Some'. right. eauto.
      * by eapply (contents_redescribe self).
    + intros s d' Hd' Hfd. apply (di_keys _ _ _ _ Hrd s slot d' d0); [done..|]. congruence.
  - destruct (dict_intern_new_ok _ _ _ _ Hrd d Hr)
      as [[-> Hfull]|(s & rd & -> & Hs & Hsr & Hri & Hrc & Hre)]; simpl.
    + exists (note_rule_dictionary_full self), None, Mr, pins. split; [done|].
      split; [by split|].
      split; [split; [reframe Hsl|reframe Hrows|reframe Hd|reframe Hl|done|done]|].
      split_and!; try done. by rewrite (di_len _ _ _ _ Hrd).
    + assert (zget (Dict.refcounts rd) s = Some 0) as Hz
        by (rewrite Hre; apply zget_zupd_eq; rewrite (di_rcs _ _ _ _ Hrd); done).
      edestruct (dict_inc_ref_ok _ _ rd _ Hri s d 0) as (rd' & Hi & Hri' & Heq);
        [by rewrite lookup_insert_eq|done|].
      unfold RuleDictionary.inc_ref. rewrite Hi. simpl.
      exists (self <| rule_dictionary := rd' |>), (Some s), (<[s := d]> Mr), ({[ s ]} ∪ pins).
      split; [done|].
      assert (Dict.capacity rd' = Dict.capacity (rule_dictionary self)) as Hc'
        by (rewrite Heq; done).
      split; [by split|]. split; [|split_and!; try done].
      * apply (add_rule_ok self A Mr Mn pins V Hinv rd' s d true); try done.
        rewrite Heq. simpl. rewrite Hre. unfold zupd. case_match; [|done].
        by rewrite list_insert_insert_eq.
      * apply union_subseteq_r.
      * intros _. by apply elem_of_union_l, elem_of_singleton.
      * by rewrite Hs.
      * intros _. rewrite <- Hrc. by eapply (dict_room fingerprint).
      * intros s' d' Hd' Hfd. by destruct (Hr s' d').
      * congruence.
Qed.

(** ** A fresh store *)
Definition config_ok (c : CellStoreConfig) : Prop :=
  0 < cell_capacity c ≤ 2 ^ 30 ∧ 0 < rule_dictionary_capacity c < U16_MAX ∧
  0 < node_dictionary_capacity c < U16_MAX ∧
  0 ≤ local_dirty_capacity c ≤ 2 ^ 31 ∧ 0 ≤ forwarded_dirty_capacity c ≤ 2 ^ 31 ∧
  0 ≤ peer_capacity c ≤ U16_MAX.

Lemma ring_ok_new cap : 0 ≤ cap ≤ 2 ^ 31 → ring_ok (DirtyRing.with_capacity cap).
Proof.
  intros H. destruct (DirtyRing.ring_with_capacity_ok cap H) as (? & Hc & _).
  split; [done|]. rewrite Hc. by intros e ?%elem_of_nil.
Qed.

Lemma store_new_ok {C : Count} {CL : CountLaws C} config id :
  config_ok config →
  ∃ self Mn, new config id = Some self ∧ inv_at self ∅ ∅ Mn ∅ ∅ ∧
    local_identity self = id ∧ capacity self = cell_capacity config ∧
    Dict.capacity (rule_dictionary self) = rule_dictionary_capacity config ∧
    Dict.capacity (node_dictionary self) = node_dictionary_capacity config ∧
    (∃ s, Mn = {[ s := id ]}) ∧ PeerFrontierTable.peer_capacity (peer_frontiers self) = peer_capacity config.
Proof.
  intros (Hcap & Hrc & Hnc & Hld & Hfd & Hpc). unfold new.
  destruct (pow2_index_capacity_ok (cell_capacity config) Hcap) as (k & Hk & Hle & Hp).
  destruct (CellIndex.index_with_capacity_ok k Hk) as (idx & Hidx & Hrep & Hic).
  destruct (dict_with_capacity_ok node_key hash_node NodeDescriptor_default
    (node_dictionary_capacity config) Hnc) as (nd & Hnd & Hni & Hndc).
  destruct (dict_with_capacity_ok fingerprint hash_fingerprint RuleDescriptor_default
    (rule_dictionary_capacity config) Hrc) as (rd & Hrd & Hri & Hrdc).
  destruct (dict_intern_new_ok _ _ nd ∅ Hni id) as
    [[_ Hfull]|(s & nd1 & Hin & _ & Hs & Hni1 & Hnc1 & Hre1)]; [done|..].
  { rewrite map_size_empty in Hfull. simpl in Hfull. lia. }
  assert (zget (Dict.refcounts nd1) s = Some 0) as Hz
    by (rewrite Hre1; apply zget_zupd_eq; rewrite (di_rcs _ _ _ _ Hni); done).
  destruct (dict_inc_ref_ok _ _ nd1 _ Hni1 s id 0) as (nd2 & Hi2 & Hni2 & Heq);
    [by rewrite lookup_insert_eq|done|].
  assert (Dict.capacity nd2 = node_dictionary_capacity config) as Hnc2
    by (rewrite Heq; simpl; congruence).
  destruct (PeerFrontierTable.frontier_new_ok (peer_capacity config) (node_dictionary_capacity config))
    as (Hpf & Hpp & Hpn); [lia..|].
  replace (0 <? cell_capacity config) with true by lia.
  replace (0 <? rule_dictionary_capacity config) with true by lia.
  replace (0 <? node_dictionary_capacity config) with true by lia. simpl.
  rewrite Hp. simpl. unfold NodeDictionary.with_capacity. rewrite Hnd. simpl.
  unfold NodeDictionary.intern, NodeDictionary.find.
  replace {| node_id := node_id id; ni_incarnation := ni_incarnation id |} with id
    by (by destruct id).
  rewrite (dict_find_None _ _ _ _ Hni) by (by intros ? ? ?%lookup_empty_Some). simpl.
  rewrite Hin. simpl. unfold NodeDictionary.inc_ref. rewrite Hi2. simpl. rewrite Hidx. simpl.
  unfold RuleDictionary.with_capacity. rewrite Hrd. simpl.
  eexists _, {[ s := id ]}. split; [done|]. split; [|split_and!; try done; by eexists]. split.
  - rewrite dom_empty_L. split; simpl; rewrite ?zlen_replicate; try lia; try done.
    + apply zlen_initial_free_next. lia.
    + intros s' g Hg. pose proof (zget_Some_range _ _ _ Hg) as Hr.
      rewrite zlen_replicate in Hr. rewrite zget_replicate in Hg by done. injection Hg as <-.
      split; [done|]. by rewrite bool_decide_false.
    + eapply free_slots_proper; [|apply free_slots_initial; [lia|]].
      * intros s'. rewrite elem_of_empty. done.
      * unfold NO_FREE, U32_MAX. lia.
  - split; simpl; [by intros ? ? ?%lookup_empty_Some|by intros ? ? ? ?%lookup_empty_Some| |lia].
    by rewrite fmap_empty.
  - split; simpl; try done.
    + intros n d [<- <-]%lookup_singleton_Some. rewrite Heq. simpl.
      rewrite zget_zupd_eq by (by apply zget_Some_range in Hz).
      rewrite refs_empty, decide_True by done. done.
    + apply lookup_singleton_Some. done.
  - split; simpl; rewrite ?zlen_replicate;
      try first [done|lia|by apply ring_ok_new|congruence].
    intros s' m Hm. pose proof (zget_Some_range _ _ _ Hm) as Hr.
    rewrite zlen_replicate in Hr. rewrite zget_replicate in Hm by done. by injection Hm as <-.
  - simpl. intros s' c Hc. pose proof (zget_Some_range _ _ _ Hc) as Hr.
    rewrite zlen_replicate in Hr. rewrite zget_replicate in Hc by done. injection Hc as <-.
    pose proof (count_MAX_bounds (CountLaws := CL)). lia.
  - intros n c. rewrite lookup_empty. split; [done|].
    intros (s' & k' & ? & ? & Hk' & _). by rewrite lookup_empty in Hk'.
Qed.
