(* ===== verification/CellMerge.v ===== *)
(** * The cell store as a counter CRDT

    [read] observes a store through its public lookups; the invariant makes
    it a finite map.  [ingest_local] and [merge_remote] refine, row by row,
    [raise] on that map: saturating addition for local hits, pointwise maximum
    for remote counts.  The maximum makes merging insensitive to the order,
    the batching and the repetition of observations. *)

From S2P Require Import Prelude Types Hash Index Freelist Dictionary DirtyRing PeerFrontier IO CellStore CellSlots CellInv CellOps.
Import CellStore.

(** ** Observing a store *)
Definition read (self : t) (n : CellName) : option (option Z) :=
  rule ← find_rule self (cn_fingerprint n);
  node ← find_node self (cn_node n) (cn_incarnation n);
  match rule, node with
  | Some r, Some o =>
    h ← find self {| ck_rule := r; ck_key_hash := cn_key_hash n; ck_bucket := cn_bucket n;
                     ck_origin := o; ck_incarnation := cn_incarnation n |};
    match h with Some h => count_of self h | None => Some None end
  | _, _ => Some None
  end.

Lemma resolve_ok self L s g :
  slots_inv self L → s ∈ L → zget (generations self) s = Some g →
  resolve self {| h_index := s; h_generation := g |} = Some (Some s).
Proof.
  intros Hsl Hs Hg. unfold resolve. simpl. pose proof (si_live _ _ Hsl s Hs).
  replace (capacity self <=? s) with false by lia. rewrite Hg. simpl.
  rewrite Z.eqb_refl. simpl. rewrite land_1_odd.
  destruct (si_gen _ _ Hsl s g Hg) as [_ ->]. by rewrite bool_decide_true by done.
Qed.

Lemma read_ok {C : Count} self V n : inv self V → read self n = Some (V !! n).
Proof.
  intros (A & Mr & Mn & pins & [Hsl Hrows Hd Hl Hcs HV]). unfold read, find_rule, find_node.
  destruct (V !! n) as [c|] eqn:E.
  - apply HV in E as (s & k & dr & dn & Hk & Hdr & Hdn & -> & Hc). simpl.
    unfold RuleDictionary.find, NodeDictionary.find.
    rewrite (dict_find_Some _ _ _ _ (ti_rules _ _ _ _ _ Hd) _ _ Hdr). simpl.
    replace {| node_id := node_id dn; ni_incarnation := ni_incarnation dn |} with dn
      by (by destruct dn).
    pose proof (dict_find_Some _ _ _ _ (ti_nodes _ _ _ _ _ Hd) _ _ Hdn) as Hfn.
    unfold node_key at 2 in Hfn. rewrite Hfn. simpl.
    destruct (ti_cells _ _ _ _ _ Hd s k Hk) as (_ & dn' & Hdn' & Hinc).
    assert (dn' = dn) as -> by congruence. rewrite Hinc.
    replace {| ck_rule := ck_rule k; ck_key_hash := ck_key_hash k; ck_bucket := ck_bucket k;
               ck_origin := ck_origin k; ck_incarnation := ck_incarnation k |} with k
      by (by destruct k).
    unfold find. rewrite (lookup_index_Some _ _ Hrows s k Hk). simpl.
    destruct (wi_key _ _ Hrows s k Hk) as [Hs _].
    destruct (handle_for_ok _ _ Hsl s Hs) as (g & -> & Hg). simpl.
    unfold count_of. rewrite (resolve_ok _ _ _ _ Hsl) by (done || by apply elem_of_dom). simpl.
    by rewrite Hc.
  - destruct (dict_find_ok _ _ _ _ (ti_rules _ _ _ _ _ Hd) (cn_fingerprint n))
      as (rule & Hrule & Hr). unfold RuleDictionary.find. rewrite Hrule. simpl.
    destruct (dict_find_ok _ _ _ _ (ti_nodes _ _ _ _ _ Hd)
      {| node_id := cn_node n; ni_incarnation := cn_incarnation n |})
      as (node & Hnode & Hn). unfold NodeDictionary.find. rewrite Hnode. simpl.
    destruct rule as [r|]; [|done]. destruct node as [o|]; [|done].
    destruct Hr as (dr & Hdr & Hfp). destruct Hn as (dn & Hdn & Hkey).
    unfold find. rewrite (lookup_index_None _ _ Hrows); [done|].
    intros s Hk.
    assert (zlen (counts self) = capacity self) as Hlc by apply Hsl.
    destruct (zget_in_range (counts self) s) as [c Hc].
    { rewrite Hlc. eapply (wi_key _ _ Hrows), Hk. }
    assert (V !! n = Some c) as HVn; [|congruence]. apply HV.
    eexists s, _, dr, dn. split; [done|]. split; [done|]. split; [done|]. split; [|done].
    unfold node_key in Hkey. subst dn. unfold name_of. simpl. rewrite Hfp. by destruct n.
Qed.

(** ** The abstract operations *)
Section raise.
Context {C : Count}.

Definition raise (mode : UpsertMode) (n : CellName) (V : gmap CellName Z) : gmap CellName Z :=
  <[n := apply_mode mode (default 0 (V !! n))]> V.

(** The name a local hit counts under, and the name an observation carries. *)
Definition local_name (id : NodeIdentity) (o : Observation) : CellName :=
  {| cn_fingerprint := o_rule_fingerprint o; cn_key_hash := o_key_hash o;
     cn_bucket := o_bucket o; cn_node := node_id id;
     cn_incarnation := ni_incarnation id |}.
Definition remote_name (o : Observation) : CellName :=
  {| cn_fingerprint := o_rule_fingerprint o; cn_key_hash := o_key_hash o;
     cn_bucket := o_bucket o; cn_node := o_origin o;
     cn_incarnation := o_incarnation o |}.

Definition ingest_one (id : NodeIdentity) (V : gmap CellName Z) (o : Observation) :=
  raise (Accumulate (o_count o)) (local_name id o) V.
Definition merge_one (V : gmap CellName Z) (o : Observation) :=
  raise (MaxMerge (o_count o)) (remote_name o) V.

Definition obs_ok (o : Observation) : Prop := 0 ≤ o_count o ≤ count_MAX.
End raise.

(** The identity a name counts towards, whichever node observed it. *)
Definition identity_of (n : CellName) : CellIdentity :=
  {| rule_fingerprint := cn_fingerprint n; key_hash := cn_key_hash n; bucket := cn_bucket n |}.

(** A delta row is in range and carries the flag of its rule. *)
Definition delta_ok `{C : Count} (L : option (gset Z)) (d : CellDelta) : Prop :=
  0 ≤ d_delta d ≤ count_MAX ∧
  flagged L (rule_fingerprint (d_key d)) (d_applies_locally d).

(** What the delta channel says of one raised cell. *)
Definition deltas_for `{C : Count} (L : option (gset Z)) (n : CellName) (old : option Z)
    (new : Z) (ds : list CellDelta) : Prop :=
  (old = Some new ∧ ds = []) ∨
  (old ≠ Some new ∧
   ∃ d, ds = [d] ∧ d_key d = identity_of n ∧ d_previous_count d = default 0 old ∧
        d_current_count d = new ∧ d_delta d = new - default 0 old ∧ delta_ok L d).

(** Some capacity is exhausted. *)
Definition full (self : t) : Prop :=
  active_len self = capacity self ∨
  Dict.len (rule_dictionary self) = Dict.capacity (rule_dictionary self) ∨
  Dict.len (node_dictionary self) = Dict.capacity (node_dictionary self).

Definition rejects (self : t) : Z :=
  cell_store_full_rejects self + rule_dictionary_full_rejects self +
  node_dictionary_full_rejects self.

(** Room for [k] more cells, rules and origins. *)
Definition room (self : t) (k : Z) : Prop :=
  active_len self + k ≤ capacity self ∧
  Dict.len (rule_dictionary self) + k ≤ Dict.capacity (rule_dictionary self) ∧
  Dict.len (node_dictionary self) + k ≤ Dict.capacity (node_dictionary self).

(** Counts of a well-formed store are in range. *)
Lemma contents_range {C : Count} self A Mr Mn pins V n c :
  inv_at self A Mr Mn pins V → V !! n = Some c → 0 ≤ c ≤ count_MAX.
Proof.
  intros Hi (s & k & dr & dn & _ & _ & _ & _ & Hc)%(iv_contents _ _ _ _ _ _ Hi).
  by apply (iv_counts _ _ _ _ _ _ Hi s).
Qed.

Section rows.
Context {C : Count} {CL : CountLaws C}.

(** One row either raises its cell or, only when a capacity is exhausted and
    the cell does not exist, is dropped without a trace in the contents. *)
Definition row_effect (L : option (gset Z)) (mode : UpsertMode) (n : CellName) (self : t)
    (V : gmap CellName Z) (self' : t) (ds : list CellDelta) : Prop :=
  stable self self' ∧ (∀ k, room self (k + 1) → room self' k) ∧
  ((inv_on L self' (raise mode n V) ∧
    deltas_for L n (V !! n) (apply_mode mode (default 0 (V !! n))) ds) ∨
   (inv_on L self' V ∧ V !! n = None ∧ ds = [] ∧ ¬ room self 1)).

Lemma room_le self self' A A' Mr Mr' Mn Mn' pins pins' V V' k :
  inv_at self A Mr Mn pins V → inv_at self' A' Mr' Mn' pins' V' → stable self self' →
  (size A' ≤ S (size A))%nat → (size Mr' ≤ S (size Mr))%nat → (size Mn' ≤ S (size Mn))%nat →
  room self (k + 1) → room self' k.
Proof.
  intros [Hsl _ Hd _ _ _] [Hsl' _ Hd' _ _ _] [] HA HMr HMn.
  unfold room. rewrite (si_active _ _ Hsl), (si_active _ _ Hsl'), !size_dom.
  rewrite (di_len _ _ _ _ (ti_rules _ _ _ _ _ Hd)), (di_len _ _ _ _ (ti_rules _ _ _ _ _ Hd')).
  rewrite (di_len _ _ _ _ (ti_nodes _ _ _ _ _ Hd)), (di_len _ _ _ _ (ti_nodes _ _ _ _ _ Hd')).
  lia.
Qed.

(** [upsert] after translation has this effect. *)
Lemma upsert_effect L self0 A Mr0 Mn0 self Mr Mn pins V spec dr dn rows :
  inv_at self0 A Mr0 Mn0 pins V → inv_at self A Mr Mn pins V → enforced L Mr pins →
  stable self0 self →
  (size Mr ≤ S (size Mr0))%nat → (size Mn ≤ S (size Mn0))%nat →
  Mr !! us_rule_slot spec = Some dr → Mn !! us_origin_slot spec = Some dn →
  ni_incarnation dn = us_incarnation spec → mode_ok (us_mode spec) →
  ∃ self' ds outcome,
    upsert self spec (DeltaSink.of_rows rows) =
      Some (self', DeltaSink.of_rows (rows ++ ds), outcome) ∧
    row_effect L (us_mode spec) (spec_name dr dn spec) self0 V self' ds.
Proof using CL.
  intros Hinv0 Hinv Henf Hst0 HsMr HsMn Hdr Hdn Hinc Hmode.
  destruct (upsert_ok self A Mr Mn pins V Hinv spec dr dn Hdr Hdn Hinc Hmode rows)
    as (self' & A' & outcome & ds & Hup & Hst & HsA & Hcase).
  exists self', ds, outcome. split; [done|]. split; [by etrans|].
  destruct Hcase as [(h & o & _ & Hi & ->)|(_ & Hold & Hfull & -> & -> & Hi & ->)].
  - split; [intros k; eapply room_le; [exact Hinv0|exact Hi|by etrans|done|done|done]|].
    left. split; [by exists A', Mr, Mn, pins|]. unfold deltas_for.
    set (n := spec_name dr dn spec) in *.
    assert (0 ≤ default 0 (V !! n) ≤ count_MAX) as Hold.
    { destruct (V !! n) as [c|] eqn:E; simpl; [exact (contents_range _ _ _ _ _ _ _ _ Hinv0 E)|].
      pose proof (count_MAX_bounds (CountLaws := CL)). lia. }
    pose proof (apply_mode_bounds _ _ Hmode Hold). set (c' := apply_mode _ _) in *.
    pose proof (enforced_flag _ _ _ _ _ Henf Hdr) as Hfl.
    destruct (V !! n) as [c|] eqn:E; simpl in *.
    + destruct (c' =? c) eqn:Ec; bool_solve.
      * left. split; [congruence|done].
      * right. split; [congruence|]. eexists. split_and!; try done. split; [simpl; lia|exact Hfl].
    + right. split; [done|]. eexists. split_and!; try done. split; [simpl; lia|exact Hfl].
  - split; [intros k; eapply room_le; [exact Hinv0|exact Hi|by etrans|done|done|done]|].
    right. split_and!; [by exists A, Mr, Mn, pins|done|done|]. unfold room.
    rewrite <- (st_capacity _ _ Hst0), <- Hfull.
    rewrite (si_active _ _ (iv_slots _ _ _ _ _ _ Hinv)),
      (si_active _ _ (iv_slots _ _ _ _ _ _ Hinv0)). lia.
Qed.
End rows.

(** ** Totals per identity *)
Definition total (V : gmap CellName Z) (cid : CellIdentity) : Z :=
  map_fold (λ n c acc, if decide (identity_of n = cid) then c + acc else acc) 0 V.

Definition delta_total (ds : list CellDelta) (cid : CellIdentity) : Z :=
  foldr (λ d acc, if decide (d_key d = cid) then d_delta d + acc else acc) 0 ds.

Lemma total_insert_new V n c cid :
  V !! n = None →
  total (<[n := c]> V) cid =
    (if decide (identity_of n = cid) then c else 0) + total V cid.
Proof.
  intros Hn. unfold total. rewrite map_fold_insert_L; [by case_decide|..|done].
  intros n1 n2 c1 c2 acc _ _ _. repeat case_decide; lia.
Qed.

Lemma total_delete V n c cid :
  V !! n = Some c →
  total (delete n V) cid = total V cid - (if decide (identity_of n = cid) then c else 0).
Proof.
  intros Hn. rewrite <- (insert_delete_id V n c) at 2 by done.
  rewrite total_insert_new by apply lookup_delete_eq. lia.
Qed.

Lemma total_insert V n c cid :
  total (<[n := c]> V) cid =
    total V cid + (if decide (identity_of n = cid) then c - default 0 (V !! n) else 0).
Proof.
  destruct (V !! n) as [c0|] eqn:E; simpl.
  - rewrite <- insert_delete_eq, total_insert_new by apply lookup_delete_eq.
    rewrite (total_delete _ _ _ _ E). case_decide; lia.
  - rewrite total_insert_new by done. case_decide; lia.
Qed.

Lemma delta_total_app ds1 ds2 cid :
  delta_total (ds1 ++ ds2) cid = delta_total ds1 cid + delta_total ds2 cid.
Proof. induction ds1 as [|d ds1 IH]; simpl; [done|]. rewrite IH. case_decide; lia. Qed.

(** The deltas of one raised cell account for the change of its identity's total. *)
Lemma deltas_for_total `{C : Count} L V n c ds cid :
  deltas_for L n (V !! n) c ds → total (<[n := c]> V) cid = total V cid + delta_total ds cid.
Proof.
  intros [[Hn ->]|(_ & d & -> & Hk & _ & _ & Hd & _)].
  - rewrite insert_id by done. simpl. lia.
  - rewrite total_insert. simpl. rewrite Hk, Hd. case_decide; lia.
Qed.

Section entry.
Context {C : Count} {CL : CountLaws C}.

Lemma absent_rule self A Mr Mn pins V n :
  inv_at self A Mr Mn pins V →
  (∀ s d, Mr !! s = Some d → fingerprint d ≠ cn_fingerprint n) → V !! n = None.
Proof using.
  intros Hinv Hn. destruct (V !! n) as [c|] eqn:E; [|done].
  apply (iv_contents _ _ _ _ _ _ Hinv) in E as (s & k & dr & dn & _ & Hdr & _ & -> & _).
  by destruct (Hn _ _ Hdr).
Qed.

Lemma absent_node self A Mr Mn pins V n :
  inv_at self A Mr Mn pins V →
  (∀ s, Mn !! s ≠ Some {| node_id := cn_node n; ni_incarnation := cn_incarnation n |}) →
  V !! n = None.
Proof using.
  intros Hinv Hn. destruct (V !! n) as [c|] eqn:E; [|done].
  apply (iv_contents _ _ _ _ _ _ Hinv) in E as (s & k & dr & dn & _ & _ & Hdn & -> & _).
  destruct (Hn (ck_origin k)). rewrite Hdn. by destruct dn.
Qed.

Context (obs : list Observation) (i : Z) (o : Observation).
Context (Hi : zget obs i = Some o) (Ho : obs_ok o).
Context (L : option (gset Z)) (self : t) (V : gmap CellName Z) (Hinv : inv_on L self V).
Context (rows : list CellDelta).

Lemma ingest_row_ok :
  ∃ self' ds, ingest_row (ObservationBatch.of_rows obs) (self, DeltaSink.of_rows rows) i =
      Some (self', DeltaSink.of_rows (rows ++ ds)) ∧
    row_effect L (Accumulate (o_count o)) (local_name (local_identity self) o) self V self' ds.
Proof using CL Hi Ho Hinv.
  destruct Hinv as (A & Mr & Mn & pins & Hi0 & Henf). unfold ingest_row.
  simpl. rewrite !zget_fmap, Hi. simpl.
  destruct (translate_rule_ok self A Mr Mn pins V Hi0 (o_rule_fingerprint o))
    as (self1 & r & Mr1 & -> & Hst1 & Hi1 & HMr & HsMr & Hnew & _ & Hr). simpl.
  pose proof (enforced_grow L Mr Mr1 pins (wire_only_descriptor (o_rule_fingerprint o)) Henf HMr eq_refl Hnew) as Henf1.
  destruct r as [slot|].
  - destruct Hr as (dr & Hdr & Hfp). simpl.
    pose proof (ti_local _ _ _ _ _ (iv_dicts _ _ _ _ _ _ Hi1)) as Hloc.
    match goal with |- context [upsert self1 ?x _] => set (spec := x) end.
    destruct (upsert_effect L self A Mr Mn self1 Mr1 Mn pins V spec dr (local_identity self1) rows)
      as (self' & ds & out & -> & He); try done.
    { lia. }
    { unfold obs_ok in Ho. pose proof (count_MAX_bounds (CountLaws := CL)). simpl. lia. }
    simpl. exists self', ds. split; [done|].
    replace (local_name (local_identity self) o)
      with (spec_name dr (local_identity self1) spec); [done|].
    unfold spec_name, name_of, local_name. simpl. by rewrite Hfp, (st_identity _ _ Hst1).
  - destruct Hr as (-> & Hfull & Habs). exists (note_rule_dictionary_full self), [].
    rewrite app_nil_r. split; [done|]. split; [done|].
    split; [intros k; by eapply room_le; [exact Hi0|exact Hi1|done|lia..]|].
    right. split_and!; [by exists A, Mr1, Mn, pins| |done|unfold room; lia].
    eapply absent_rule; [exact Hi0|exact Habs].
Qed.

Lemma merge_row_ok :
  ∃ self' ds, merge_row (ObservationBatch.of_rows obs) (self, DeltaSink.of_rows rows) i =
      Some (self', DeltaSink.of_rows (rows ++ ds)) ∧
    row_effect L (MaxMerge (o_count o)) (remote_name o) self V self' ds.
Proof using CL Hi Ho Hinv.
  destruct Hinv as (A & Mr & Mn & pins & Hi0 & Henf). unfold merge_row.
  simpl. rewrite !zget_fmap, Hi. simpl. unfold translate_identity.
  destruct (translate_rule_ok self A Mr Mn pins V Hi0 (o_rule_fingerprint o))
    as (self1 & r & Mr1 & -> & Hst1 & Hi1 & HMr & HsMr & Hnew & _ & Hr). simpl.
  pose proof (enforced_grow L Mr Mr1 pins (wire_only_descriptor (o_rule_fingerprint o)) Henf HMr eq_refl Hnew) as Henf1.
  destruct r as [slot|].
  2:{ destruct Hr as (-> & Hfull & Habs). exists (note_rule_dictionary_full self), [].
    rewrite app_nil_r. split; [done|]. split; [done|].
    split; [intros k; by eapply room_le; [exact Hi0|exact Hi1|done|lia..]|].
    right. split_and!; [by exists A, Mr1, Mn, pins| |done|unfold room; lia].
    eapply absent_rule; [exact Hi0|exact Habs]. }
  destruct Hr as (dr & Hdr & Hfp).
  destruct (translate_node_ok self1 A Mr1 Mn pins V Hi1 (o_origin o) (o_incarnation o))
    as (self2 & r2 & Mn2 & -> & Hst2 & Hi2 & HMn & HsMn & _ & _ & Hr2). simpl.
  destruct r2 as [nslot|]; simpl.
  - match goal with |- context [upsert self2 ?x _] => set (spec := x) end.
    destruct (upsert_effect L self A Mr Mn self2 Mr1 Mn2 pins V spec dr
      {| node_id := o_origin o; ni_incarnation := o_incarnation o |} rows)
      as (self' & ds & out & -> & He); try done; [by etrans|].
    simpl. exists self', ds. split; [done|].
    replace (remote_name o) with (spec_name dr
      {| node_id := o_origin o; ni_incarnation := o_incarnation o |} spec); [done|].
    unfold spec_name, name_of, remote_name. simpl. by rewrite Hfp.
  - destruct Hr2 as (-> & -> & Hfull & Habs).
    exists (note_node_dictionary_full self1), [].
    rewrite app_nil_r. split; [done|]. split; [by etrans|].
    split; [intros k; by eapply room_le; [exact Hi0|exact Hi2|by etrans|lia..]|].
    right. split_and!; [by exists A, Mr1, Mn, pins| |done|].
    + eapply absent_node; [exact Hi0|exact Habs].
    + unfold room. rewrite <- (st_node_cap _ _ Hst1), <- Hfull.
      rewrite (di_len _ _ _ _ (ti_nodes _ _ _ _ _ (iv_dicts _ _ _ _ _ _ Hi1))),
        (di_len _ _ _ _ (ti_nodes _ _ _ _ _ (iv_dicts _ _ _ _ _ _ Hi0))). lia.
Qed.
End entry.

(** ** Batches *)
Definition raise_all {C : Count} (mode : Observation → UpsertMode)
    (name : Observation → CellName) (V : gmap CellName Z) (obs : list Observation) :
    gmap CellName Z :=
  foldl (λ V o, raise (mode o) (name o) V) V obs.

(** Raising never removes a cell. *)
Lemma raise_all_is_Some {C : Count} mode name V obs n :
  is_Some (V !! n) → is_Some (raise_all mode name V obs !! n).
Proof.
  revert V. induction obs as [|o obs IH]; intros V Hn; [done|]. apply IH.
  unfold raise. rewrite lookup_insert. case_decide; [by eexists|done].
Qed.

Section batch.
Context {C : Count} {CL : CountLaws C}.
Context (mode : Observation → UpsertMode) (name : Observation → CellName).
Context (body : t * DeltaSink.t → Z → option (t * DeltaSink.t)).
Context (obs : list Observation) (L : option (gset Z)) (self0 : t).
Context (Hbody : ∀ i o self V rows, zget obs i = Some o → stable self0 self → inv_on L self V →
  ∃ self' ds, body (self, DeltaSink.of_rows rows) i =
      Some (self', DeltaSink.of_rows (rows ++ ds)) ∧
    row_effect L (mode o) (name o) self V self' ds).

(** A batch applies its rows in order, dropping some only when it may run
    out of room, and its deltas account for every change of a total. *)
Lemma batch_ok V rows :
  inv_on L self0 V →
  ∃ self' ds acc,
    for_each (zrange 0 (zlen obs)) (self0, DeltaSink.of_rows rows) body =
      Some (self', DeltaSink.of_rows (rows ++ ds)) ∧
    stable self0 self' ∧ inv_on L self' (raise_all mode name V acc) ∧ acc `sublist_of` obs ∧
    (room self0 (zlen obs) → acc = obs) ∧
    ((∀ o, o ∈ obs → is_Some (V !! name o)) → acc = obs) ∧ Forall (delta_ok L) ds ∧
    (∀ cid, total (raise_all mode name V acc) cid = total V cid + delta_total ds cid) ∧
    ∀ k, room self0 (k + zlen obs) → room self' k.
Proof using CL Hbody.
  intros Hinv.
  destruct (for_each_index obs (self0, DeltaSink.of_rows rows) body
    (λ pre st, ∃ self' ds acc, st = (self', DeltaSink.of_rows (rows ++ ds)) ∧
      stable self0 self' ∧ inv_on L self' (raise_all mode name V acc) ∧ acc `sublist_of` pre ∧
      (∀ k, room self0 (k + zlen pre) → room self' k) ∧
      (room self0 (zlen pre) → acc = pre) ∧
      ((∀ o, o ∈ pre → is_Some (V !! name o)) → acc = pre) ∧ Forall (delta_ok L) ds ∧
      ∀ cid, total (raise_all mode name V acc) cid = total V cid + delta_total ds cid))
    as (st & Hst & self' & ds & acc & -> & ? & ? & ? & ? & ? & ? & ? & ?).
  - exists self0, [], []. rewrite app_nil_r. split_and!; try done.
    + intros k. by rewrite Z.add_0_r.
    + intros cid. simpl. lia.
  - intros pre o suf st Hobs (self & ds & acc & -> & Hst & Hi & Hsub & Hroom & Hall & Hknown & Hdok & Htot).
    assert (zget obs (zlen pre) = Some o) as Ho.
    { rewrite Hobs. unfold zlen. by rewrite zget_nat, list_lookup_middle. }
    destruct (Hbody (zlen pre) o self _ (rows ++ ds) Ho Hst Hi)
      as (self' & ds' & Hb & Hst' & Hr' & Heff).
    eexists. split; [exact Hb|]. rewrite <- app_assoc.
    pose proof (zlen_nonneg pre).
    assert (∀ k, room self0 (k + zlen (pre ++ [o])) → room self' k) as Hroom'.
    { intros k Hk. apply Hr', Hroom. rewrite zlen_app in Hk.
      by replace (k + 1 + zlen pre) with (k + (zlen pre + zlen [o])) by (unfold zlen; simpl; lia). }
    destruct Heff as [[Hi' Hd]|(Hi' & Hnone & -> & Hno)].
    + exists self', (ds ++ ds'), (acc ++ [o]). unfold raise_all. rewrite foldl_app. simpl.
      split_and!; try done; [by etrans|by apply sublist_app| | | |].
      * intros Hrm. rewrite Hall; [done|]. rewrite zlen_app in Hrm.
        unfold room, zlen in *. simpl in *. lia.
      * intros Hk. rewrite Hknown; [done|]. intros o' ?. apply Hk, elem_of_app. by left.
      * apply Forall_app. split; [done|].
        destruct Hd as [[_ ->]|(_ & d & -> & _ & _ & _ & _ & ?)]; [done|by apply Forall_singleton].
      * intros cid. rewrite delta_total_app, Z.add_assoc, <- Htot.
        by eapply deltas_for_total.
    + exists self', ds, acc. rewrite app_nil_r.
      split_and!; try done; [by etrans|by apply sublist_inserts_r|..].
      * intros Hrm. destruct Hno. apply Hroom. rewrite zlen_app in Hrm.
        by replace (1 + zlen pre) with (zlen pre + zlen [o]) by (unfold zlen; simpl; lia).
      * intros Hk. destruct (raise_all_is_Some mode name V acc (name o)); [|congruence].
        apply Hk, elem_of_app. right. by apply list_elem_of_singleton.
  - rewrite Hst. eauto 14.
Qed.
End batch.

Section batches.
Context {C : Count} {CL : CountLaws C}.

Definition ingest_all (id : NodeIdentity) : gmap CellName Z → list Observation → gmap CellName Z :=
  foldl (ingest_one id).
Definition merge_all : gmap CellName Z → list Observation → gmap CellName Z :=
  foldl merge_one.

Lemma ingest_local_on L self V obs rows :
  inv_on L self V → Forall obs_ok obs →
  ∃ self' ds acc,
    ingest_local self (ObservationBatch.of_rows obs) (DeltaSink.of_rows rows) =
      Some (self', DeltaSink.of_rows (rows ++ ds)) ∧
    stable self self' ∧ inv_on L self' (ingest_all (local_identity self) V acc) ∧
    acc `sublist_of` obs ∧ (room self (zlen obs) → acc = obs) ∧
    ((∀ o, o ∈ obs → is_Some (V !! local_name (local_identity self) o)) → acc = obs) ∧
    Forall (delta_ok L) ds ∧
    (∀ cid, total (ingest_all (local_identity self) V acc) cid =
            total V cid + delta_total ds cid) ∧
    ∀ k, room self (k + zlen obs) → room self' k.
Proof using CL.
  intros Hinv Hobs. unfold ingest_local.
  rewrite ObservationBatch.assert_consistent_of_rows, ObservationBatch.obs_len_of_rows. simpl.
  apply (batch_ok (λ o, Accumulate (o_count o)) (local_name (local_identity self))); [|done].
  intros i o self1 V1 rows1 Hi Hst Hinv1. rewrite <- (st_identity _ _ Hst).
  apply ingest_row_ok; [done| |done].
  rewrite Forall_forall in Hobs. by eapply Hobs, zget_elem_of.
Qed.

Lemma merge_remote_on L self V obs rows :
  inv_on L self V → Forall obs_ok obs →
  ∃ self' ds acc,
    merge_remote self (ObservationBatch.of_rows obs) (DeltaSink.of_rows rows) =
      Some (self', DeltaSink.of_rows (rows ++ ds)) ∧
    stable self self' ∧ inv_on L self' (merge_all V acc) ∧
    acc `sublist_of` obs ∧ (room self (zlen obs) → acc = obs) ∧
    ((∀ o, o ∈ obs → is_Some (V !! remote_name o)) → acc = obs) ∧
    Forall (delta_ok L) ds ∧
    (∀ cid, total (merge_all V acc) cid = total V cid + delta_total ds cid) ∧
    ∀ k, room self (k + zlen obs) → room self' k.
Proof using CL.
  intros Hinv Hobs. unfold merge_remote.
  rewrite ObservationBatch.assert_consistent_of_rows, ObservationBatch.obs_len_of_rows. simpl.
  apply (batch_ok (λ o, MaxMerge (o_count o)) remote_name); [|done].
  intros i o self1 V1 rows1 Hi Hst Hinv1. apply merge_row_ok; [done| |done].
  rewrite Forall_forall in Hobs. by eapply Hobs, zget_elem_of.
Qed.

(** The same, without tracking the registered rules. *)
Lemma ingest_local_ok self V obs rows :
  inv self V → Forall obs_ok obs →
  ∃ self' ds acc,
    ingest_local self (ObservationBatch.of_rows obs) (DeltaSink.of_rows rows) =
      Some (self', DeltaSink.of_rows (rows ++ ds)) ∧
    stable self self' ∧ inv self' (ingest_all (local_identity self) V acc) ∧
    acc `sublist_of` obs ∧ (room self (zlen obs) → acc = obs) ∧
    ((∀ o, o ∈ obs → is_Some (V !! local_name (local_identity self) o)) → acc = obs) ∧
    ∀ cid, total (ingest_all (local_identity self) V acc) cid =
           total V cid + delta_total ds cid.
Proof using CL.
  intros Hinv%inv_inv_on Hobs.
  destruct (ingest_local_on None self V obs rows Hinv Hobs)
    as (self' & ds & acc & ? & ? & ?%inv_on_inv & ? & ? & ? & _ & ? & _). by exists self', ds, acc.
Qed.

Lemma merge_remote_ok self V obs rows :
  inv self V → Forall obs_ok obs →
  ∃ self' ds acc,
    merge_remote self (ObservationBatch.of_rows obs) (DeltaSink.of_rows rows) =
      Some (self', DeltaSink.of_rows (rows ++ ds)) ∧
    stable self self' ∧ inv self' (merge_all V acc) ∧
    acc `sublist_of` obs ∧ (room self (zlen obs) → acc = obs) ∧
    ((∀ o, o ∈ obs → is_Some (V !! remote_name o)) → acc = obs) ∧
    ∀ cid, total (merge_all V acc) cid = total V cid + delta_total ds cid.
Proof using CL.
  intros Hinv%inv_inv_on Hobs.
  destruct (merge_remote_on None self V obs rows Hinv Hobs)
    as (self' & ds & acc & ? & ? & ?%inv_on_inv & ? & ? & ? & _ & ? & _). by exists self', ds, acc.
Qed.
End batches.

(** ** Merging is a join *)
Section join.
Context {C : Count}.
Implicit Types (V W : gmap CellName Z) (obs : list Observation).

Lemma merge_one_lookup V o n :
  merge_one V o !! n =
    if decide (remote_name o = n) then Some (Z.max (default 0 (V !! n)) (o_count o))
    else V !! n.
Proof.
  unfold merge_one, raise. rewrite lookup_insert. case_decide as Hn; [|done].
  rewrite Hn. f_equal. simpl. destruct (_ <? _) eqn:E; bool_solve; lia.
Qed.

Lemma merge_one_comm V o1 o2 : merge_one (merge_one V o1) o2 = merge_one (merge_one V o2) o1.
Proof.
  apply map_eq. intros n. rewrite !merge_one_lookup.
  destruct (decide (remote_name o1 = n)), (decide (remote_name o2 = n)); try done.
  simpl. f_equal. lia.
Qed.

Lemma merge_one_absorb V o o' :
  remote_name o = remote_name o' → o_count o = o_count o' →
  merge_one (merge_one V o) o' = merge_one V o.
Proof.
  intros Hn Hc. apply map_eq. intros n. rewrite !merge_one_lookup, Hn, Hc.
  case_decide; [|done]. simpl. f_equal. lia.
Qed.

Lemma merge_all_one V obs o : merge_all (merge_one V o) obs = merge_one (merge_all V obs) o.
Proof.
  revert V. induction obs as [|o' obs IH]; intros V; simpl; [done|].
  by rewrite merge_one_comm, IH.
Qed.

Lemma merge_all_comm V obs1 obs2 :
  merge_all (merge_all V obs1) obs2 = merge_all (merge_all V obs2) obs1.
Proof.
  revert V. induction obs1 as [|o obs1 IH]; intros V; simpl; [done|].
  rewrite IH. by rewrite merge_all_one.
Qed.

(** [obs] carries the observation [n ↦ c]. *)
Definition carries obs (n : CellName) (c : Z) : Prop :=
  ∃ o, o ∈ obs ∧ remote_name o = n ∧ o_count o = c.

Lemma merge_all_absorb_one V obs o :
  carries obs (remote_name o) (o_count o) → merge_one (merge_all V obs) o = merge_all V obs.
Proof.
  intros (o' & Hin & Hn & Hc). apply list_elem_of_split in Hin as (l1 & l2 & ->).
  unfold merge_all. rewrite foldl_app. simpl.
  change (foldl merge_one ?a ?b) with (merge_all a b).
  rewrite <- merge_all_one. by rewrite merge_one_absorb.
Qed.

Lemma merge_all_absorb V obs obs' :
  (∀ n c, carries obs' n c → carries obs n c) →
  merge_all (merge_all V obs) obs' = merge_all V obs.
Proof.
  intros H. induction obs' as [|o obs' IH]; simpl; [done|].
  rewrite merge_all_absorb_one.
  - apply IH. intros n c (o' & ? & ? & ?). apply H. exists o'. rewrite elem_of_cons. eauto.
  - apply H. exists o. rewrite elem_of_cons. eauto.
Qed.

(** Only the set of observations matters, not order or multiplicity. *)
Lemma merge_all_set V obs1 obs2 :
  (∀ n c, carries obs1 n c ↔ carries obs2 n c) → merge_all V obs1 = merge_all V obs2.
Proof.
  intros H. rewrite <- (merge_all_absorb V obs1 obs2) by (intros; by apply H).
  rewrite merge_all_comm. apply merge_all_absorb. intros; by apply H.
Qed.

(** Observations that agree with a map [W] raise its cells to their maximum. *)
Lemma merge_all_lookup V W obs n :
  (∀ m c, carries obs m c → W !! m = Some c) →
  merge_all V obs !! n =
    if decide (n ∈ remote_name <$> obs)
    then Some (Z.max (default 0 (V !! n)) (default 0 (W !! n))) else V !! n.
Proof.
  induction obs as [|o obs IH] using rev_ind; intros HW.
  { destruct (decide (n ∈ _)) as [Hn|]; [by apply elem_of_nil in Hn|done]. }
  assert (W !! remote_name o = Some (o_count o)) as Ho.
  { apply HW. exists o. split; [|done]. apply elem_of_app. right. by apply list_elem_of_singleton. }
  rewrite fmap_app. unfold merge_all in *. rewrite foldl_app. cbn [fmap list_fmap foldl].
  rewrite merge_one_lookup, IH.
  2:{ intros m c (o' & ? & ?). apply HW. exists o'. split; [|done]. apply elem_of_app. by left. }
  destruct (decide (remote_name o = n)) as [Hn|Hn];
    destruct (decide (n ∈ _ ++ _)) as [Hin|Hin];
    destruct (decide (n ∈ remote_name <$> obs)) as [Hin'|Hin']; try done;
    rewrite elem_of_app, list_elem_of_singleton in Hin; try (exfalso; intuition congruence).
  - f_equal. simpl. rewrite <- Hn, Ho. simpl. lia.
  - f_equal. simpl. rewrite <- Hn, Ho. simpl. lia.
Qed.

(** The join of two replicas' contents, and a batch that carries all of one. *)
Definition join (V W : gmap CellName Z) : gmap CellName Z :=
  union_with (λ a b, Some (Z.max a b)) V W.
Definition snapshot (W : gmap CellName Z) obs : Prop :=
  ∀ n c, carries obs n c ↔ W !! n = Some c.

Lemma join_comm V W : join V W = join W V.
Proof.
  apply map_eq. intros n. unfold join. rewrite !lookup_union_with.
  destruct (V !! n), (W !! n); simpl; try done. f_equal. lia.
Qed.

Lemma elem_of_names obs n : n ∈ remote_name <$> obs ↔ ∃ c, carries obs n c.
Proof.
  rewrite list_elem_of_fmap. split.
  - intros (o & -> & Ho). by exists (o_count o), o.
  - intros (c & o & Ho & <- & _). eauto.
Qed.

Lemma merge_all_snapshot V W obs :
  (∀ n c, V !! n = Some c → 0 ≤ c) → (∀ n c, W !! n = Some c → 0 ≤ c) →
  snapshot W obs → merge_all V obs = join V W.
Proof.
  intros HV HW Hs. apply map_eq. intros n. unfold join. rewrite lookup_union_with.
  rewrite (merge_all_lookup V W) by (intros; by apply Hs).
  pose proof (HV n). pose proof (HW n).
  destruct (decide (n ∈ _)) as [(c & Hc%Hs)%elem_of_names|Hn].
  - rewrite Hc. destruct (V !! n) as [c'|]; simpl; f_equal.
    rewrite Z.max_r; [done|]. by apply (HW n).
  - destruct (W !! n) as [c|] eqn:E; [|by destruct (V !! n)].
    destruct Hn. apply elem_of_names. exists c. by apply Hs.
Qed.
End join.

Lemma inv_counts {C : Count} self V n c : inv self V → V !! n = Some c → 0 ≤ c ≤ count_MAX.
Proof.
  intros (A & Mr & Mn & pins & Hi). by eapply contents_range.
Qed.
