(* ===== verification/CellExpire.v ===== *)
(** * The cell store: expiration and reset

    [expire], [expire_at] and [clear] release cells through [free_cell_at].
    The theorems say exactly which cells go (those whose bucket has left the
    live window of their rule), that each departure is reported once on the
    expiration channel with its last count, and that nothing else changes. *)

From S2P Require Import Prelude Types Hash Index Freelist Dictionary DirtyRing PeerFrontier IO CellStore CellSlots CellInv CellOps CellMerge.
Import CellStore.

(** ** What the expiration channel reports *)
Definition expiration_entry (e : CellExpiration) : CellIdentity * Z := (e_key e, e_last_count e).
Definition contents_entry (p : CellName * Z) : CellIdentity * Z := (identity_of p.1, p.2).

(** An expiration row is in range and carries the flag of its rule. *)
Definition expiration_ok `{C : Count} (L : option (gset Z)) (e : CellExpiration) : Prop :=
  0 ≤ e_last_count e ≤ count_MAX ∧
  flagged L (rule_fingerprint (e_key e)) (e_applies_locally e).

(** [es] reports every cell of [V] that is not in [V'], once. *)
Definition reports (V V' : gmap CellName Z) (es : list CellExpiration) : Prop :=
  expiration_entry <$> es ≡ₚ contents_entry <$> map_to_list (V ∖ V').

Definition expiration_total (es : list CellExpiration) (cid : CellIdentity) : Z :=
  foldr (λ e acc, if decide (e_key e = cid) then e_last_count e + acc else acc) 0 es.

Lemma difference_delete_ok (V V' : gmap CellName Z) n c :
  V' ⊆ V → V' !! n = Some c →
  V ∖ delete n V' = <[n := c]> (V ∖ V') ∧ (V ∖ V') !! n = None.
Proof.
  intros Hsub Hn. pose proof (lookup_weaken _ _ _ _ Hn Hsub) as Hn'. split.
  - apply map_eq. intros m. destruct (decide (m = n)) as [->|].
    + rewrite lookup_insert_eq. apply lookup_difference_Some. split; [done|]. apply lookup_delete_eq.
    + rewrite lookup_insert_ne by done. rewrite !lookup_difference, lookup_delete_ne by done. done.
  - apply lookup_difference_None. right. eauto.
Qed.

Lemma reports_delete V V' es n c e :
  V' ⊆ V → V' !! n = Some c → reports V V' es →
  e_key e = identity_of n → e_last_count e = c → reports V (delete n V') (es ++ [e]).
Proof.
  intros Hsub Hn Hr Hk Hc. destruct (difference_delete_ok V V' n c Hsub Hn) as [Hd Hnone].
  unfold reports. rewrite Hd, map_to_list_insert by done. rewrite fmap_app, fmap_cons.
  rewrite Hr. simpl. unfold expiration_entry at 1, contents_entry at 2. rewrite Hk, Hc. simpl.
  symmetry. apply Permutation_cons_append.
Qed.

(** ** One step: emit and free *)
Section step.
Context {C : Count} {CL : CountLaws C}.
Context (self : t) A Mr Mn pins V (Hinv : inv_at self A Mr Mn pins V).

Lemma emit_expiration_ok rows s k dr dn c :
  A !! s = Some k → Mr !! ck_rule k = Some dr → Mn !! ck_origin k = Some dn →
  zget (counts self) s = Some c →
  ∃ e, emit_expiration self (ExpirationSink.of_rows rows) s =
      Some (ExpirationSink.of_rows (rows ++ [e])) ∧
    e_key e = identity_of (name_of dr dn k) ∧ e_last_count e = c ∧
    e_applies_locally e = applies_locally dr.
Proof using Hinv.
  intros Hk Hdr Hdn Hc. pose proof Hinv as [Hsl Hrows Hd Hl Hcs HV].
  destruct (wi_key _ _ Hrows s k Hk) as [Hs Hka].
  destruct (rule_live _ _ _ _ _ Hd s k Hk) as (dr' & Hdr' & Hlive).
  assert (dr' = dr) as -> by congruence.
  destruct (handle_for_ok _ _ Hsl s Hs) as (g & Hh & _).
  destruct (zget_in_range (last_update_millis self) s) as [u Hu];
    [by rewrite (si_updates _ _ Hsl)|].
  unfold emit_expiration. unfold key_at in Hka.
  destruct (zget (rules self) s); [|done]. simpl. rewrite Hh. simpl.
  destruct (zget (key_hashes self) s) eqn:Hkh; [|done].
  destruct (zget (buckets self) s) eqn:Hb; [|done].
  destruct (zget (origins self) s); [|done].
  destruct (zget (incarnations self) s); [|done]. simpl in *. injection Hka as <-.
  simpl in *. rewrite Hlive. simpl. unfold identity_at. rewrite Hkh, Hb. simpl.
  rewrite Hc. simpl. rewrite Hu. simpl. rewrite ExpirationSink.exp_push_of_rows.
  eexists. split; [done|]. done.
Qed.

Lemma cell_descriptors s k :
  A !! s = Some k → ∃ dr dn c, Mr !! ck_rule k = Some dr ∧ Mn !! ck_origin k = Some dn ∧
    zget (counts self) s = Some c ∧ V !! name_of dr dn k = Some c.
Proof using Hinv.
  intros Hk. pose proof Hinv as [Hsl Hrows Hd Hl Hcs HV].
  destruct (ti_cells _ _ _ _ _ Hd s k Hk) as ([dr Hdr] & dn & Hdn & _).
  destruct (zget_in_range (counts self) s) as [c Hc].
  { rewrite (si_counts _ _ Hsl). by eapply (wi_key _ _ Hrows). }
  exists dr, dn, c. split_and!; try done. apply HV. by exists s, k, dr, dn.
Qed.
End step.

(** ** The loop over slots *)

(** Removal of a subset of the cells: the state of [expire] and [clear] after
    some slots.  [gone] tells which of the visited cells were released. *)
Record sweep `{C : Count} (self0 : t) (A0 : gmap Z CompactCellKey) Mr0 Mn0 pins V0
    (gone : Z → CompactCellKey → bool) (todo : list Z)
    (self : t) (A : gmap Z CompactCellKey) Mr Mn V : Prop := {
  sw_inv : inv_at self A Mr Mn pins V;
  sw_stable : stable self0 self;
  sw_rules : Mr ⊆ Mr0;
  sw_nodes : Mn ⊆ Mn0;
  sw_counts : counts self = counts self0;
  sw_cells s : A !! s = (k ← A0 !! s; if bool_decide (s ∉ todo) && gone s k then None else Some k);
  sw_contents : V ⊆ V0;
  sw_rules_exact r : Mr !! r =
    if released (r ∈ pins) (refs ck_rule A0 r) (refs ck_rule A r) then None else Mr0 !! r;
  sw_nodes_exact n : Mn !! n =
    if released (n = local_node_slot self0) (refs ck_origin A0 n) (refs ck_origin A n) then None else Mn0 !! n;
}.

(** Releases compose: a slot freed by a later step was freed by the whole sweep. *)
Lemma released_step {D} (P : Prop) `{!Decision P} (before mid after : Z) (x : option D) :
  0 ≤ after ≤ mid → mid ≤ before →
  (if released P mid after then None else if released P before mid then None else x) =
  if released P before after then None else x.
Proof.
  intros. unfold released. destruct (bool_decide P); [done|]. cbn [negb andb].
  destruct (0 <? mid) eqn:E1, (0 <? before) eqn:E2, (mid =? 0) eqn:E3, (after =? 0) eqn:E4; bool_solve; try done; lia.
Qed.

Lemma released_same (P : Prop) `{!Decision P} (b : Z) : released P b b = false.
Proof. unfold released. destruct (bool_decide P); [done|]. cbn [negb andb]. lia. Qed.

Lemma refs_mono f (A A' : gmap Z CompactCellKey) r : A ⊆ A' → refs f A r ≤ refs f A' r.
Proof.
  intros Hsub. unfold refs. apply inj_le, map_subseteq_size. by apply map_filter_subseteq_mono.
Qed.

Lemma not_todo_cons (s s' : Z) todo :
  s' ≠ s → bool_decide (s' ∉ s :: todo) = bool_decide (s' ∉ todo).
Proof. intros. apply bool_decide_ext. rewrite not_elem_of_cons. tauto. Qed.

Lemma sweep_skip `{C : Count} self0 A0 Mr0 Mn0 pins V0 gone s todo self A Mr Mn V :
  s ∉ todo → (∀ k, A0 !! s = Some k → gone s k = false) →
  sweep self0 A0 Mr0 Mn0 pins V0 gone (s :: todo) self A Mr Mn V →
  sweep self0 A0 Mr0 Mn0 pins V0 gone todo self A Mr Mn V.
Proof.
  intros Hs Hg []. split; try done. intros s'. rewrite sw_cells0.
  destruct (A0 !! s') as [k|] eqn:Hk; [|done]. simpl.
  destruct (decide (s' = s)) as [->|Hne].
  - rewrite (Hg k Hk), !andb_false_r. done.
  - by rewrite not_todo_cons.
Qed.

Lemma sweep_free `{C : Count} self0 A0 Mr0 Mn0 pins V0 gone s todo self A Mr Mn V k :
  s ∉ todo → A0 !! s = Some k → gone s k = true →
  sweep self0 A0 Mr0 Mn0 pins V0 gone (s :: todo) self A Mr Mn V →
  ∃ self' Mr' Mn' dr dn c, free_cell_at self s = Some self' ∧
    A !! s = Some k ∧ Mr !! ck_rule k = Some dr ∧ Mn !! ck_origin k = Some dn ∧
    zget (counts self) s = Some c ∧ V !! name_of dr dn k = Some c ∧
    sweep self0 A0 Mr0 Mn0 pins V0 gone todo self' (delete s A) Mr' Mn'
      (delete (name_of dr dn k) V).
Proof.
  intros Hs Hk Hg []. 
  assert (A !! s = Some k) as HA.
  { rewrite sw_cells0, Hk. simpl. rewrite bool_decide_false; [done|].
    rewrite not_elem_of_cons. tauto. }
  destruct (cell_descriptors _ _ _ _ _ _ sw_inv0 s k HA) as (dr & dn & c & Hdr & Hdn & Hc & HV).
  destruct (free_cell_at_ok _ _ _ _ _ _ sw_inv0 s k dr dn HA Hdr Hdn)
    as (self' & Mr' & Mn' & Hf & HMr & HMn & HrMr & HrMn & Hi & Hst & _ & Hcs & _).
  assert (A ⊆ A0) as HAA.
  { apply map_subseteq_spec. intros s' k' Hk'. rewrite sw_cells0 in Hk'.
    destruct (A0 !! s') as [k0|]; [|done]. simpl in Hk'. by case_match; simplify_eq. }
  exists self', Mr', Mn', dr, dn, c. split_and!; try done. split; try done.
  - by etrans.
  - by etrans.
  - by etrans.
  - congruence.
  - intros s'. destruct (decide (s' = s)) as [->|Hne].
    + rewrite lookup_delete_eq, Hk. simpl. rewrite bool_decide_true by done. by rewrite Hg.
    + rewrite lookup_delete_ne, sw_cells0 by done.
      destruct (A0 !! s') as [k'|]; [|done]. simpl. by rewrite not_todo_cons.
  - etrans; [apply delete_subseteq|done].
  - intros r. rewrite HrMr, sw_rules_exact0. apply released_step.
    + split; [apply refs_nonneg|apply refs_mono, delete_subseteq].
    + by apply refs_mono.
  - intros n. rewrite HrMn, sw_nodes_exact0, (st_local _ _ sw_stable0). apply released_step.
    + split; [apply refs_nonneg|apply refs_mono, delete_subseteq].
    + by apply refs_mono.
Qed.

(** After the sweep the contents are those of the cells that stayed. *)
Lemma sweep_contents `{C : Count} self0 A0 Mr0 Mn0 pins V0 gone self A Mr Mn V
    (keep : CellName → bool) :
  inv_at self0 A0 Mr0 Mn0 pins V0 →
  sweep self0 A0 Mr0 Mn0 pins V0 gone [] self A Mr Mn V →
  (∀ s k dr dn, A0 !! s = Some k → Mr0 !! ck_rule k = Some dr → Mn0 !! ck_origin k = Some dn →
     keep (name_of dr dn k) = negb (gone s k)) →
  V = filter (λ p, keep p.1 = true) V0.
Proof.
  intros Hinv0 [Hinv _ HMr HMn Hcs HA HV _ _] Hkeep. apply map_eq. intros n.
  apply option_eq. intros c. rewrite map_lookup_filter_Some. simpl.
  rewrite (iv_contents _ _ _ _ _ _ Hinv n c), (iv_contents _ _ _ _ _ _ Hinv0 n c). split.
  - intros (s & k & dr & dn & Hk & Hdr & Hdn & -> & Hc). rewrite HA in Hk.
    destruct (A0 !! s) as [k0|] eqn:Hk0; [|done]. simpl in Hk.
    destruct (gone s k0) eqn:Hg; [done|]. rewrite ?andb_false_r in Hk. injection Hk as ->.
    pose proof (lookup_weaken _ _ _ _ Hdr HMr). pose proof (lookup_weaken _ _ _ _ Hdn HMn).
    split; [exists s, k, dr, dn; by rewrite <- Hcs|].
    rewrite (Hkeep s k) by done. by rewrite Hg.
  - intros [(s & k & dr & dn & Hk & Hdr & Hdn & -> & Hc) Hkp].
    rewrite (Hkeep s k) in Hkp by done. apply negb_true_iff in Hkp.
    assert (A !! s = Some k) as HAk by (rewrite HA, Hk; simpl; by rewrite Hkp, ?andb_false_r).
    destruct (ti_cells _ _ _ _ _ (iv_dicts _ _ _ _ _ _ Hinv) s k HAk) as ([d1 H1] & d2 & H2 & _).
    pose proof (lookup_weaken _ _ _ _ H1 HMr). pose proof (lookup_weaken _ _ _ _ H2 HMn).
    exists s, k, dr, dn. rewrite Hcs. split_and!; try done; congruence.
Qed.

(** ** [expire] *)

(** The per-cell test of [expire], on the two columns it is given. *)
Definition aged (cur live : list Z) (k : CompactCellKey) : bool :=
  match zget cur (ck_rule k), zget live (ck_rule k) with
  | Some c, Some l => ck_bucket k + l <? c
  | _, _ => false
  end.

Lemma key_at_fields self s k :
  key_at self s = Some k →
  zget (rules self) s = Some (ck_rule k) ∧ zget (buckets self) s = Some (ck_bucket k).
Proof.
  unfold key_at. destruct (zget (rules self) s); [|done].
  destruct (zget (key_hashes self) s); [|done]. destruct (zget (buckets self) s); [|done].
  destruct (zget (origins self) s); [|done]. destruct (zget (incarnations self) s); [|done].
  simpl. by intros [= <-].
Qed.

Section expire.
Context {C : Count} {CL : CountLaws C}.
Context (L : option (gset Z)) (self0 : t) (A0 : gmap Z CompactCellKey)
  (Mr0 : gmap Z RuleDescriptor) (Mn0 : gmap Z NodeDescriptor) (pins : gset Z) (V0 : gmap CellName Z).
Context (Hinv0 : inv_at self0 A0 Mr0 Mn0 pins V0) (Henf0 : enforced L Mr0 pins).
Context (cur live : list Z) (rows : list CellExpiration).

Let gone (s : Z) (k : CompactCellKey) := aged cur live k.

Definition expire_state (todo : list Z) (st : t * ExpirationSink.t) : Prop :=
  NoDup todo ∧ (∀ s, s ∈ todo → 0 ≤ s < capacity self0) ∧
  ∃ self A Mr Mn V es, st = (self, ExpirationSink.of_rows (rows ++ es)) ∧
    sweep self0 A0 Mr0 Mn0 pins V0 gone todo self A Mr Mn V ∧ reports V0 V es ∧
    Forall (expiration_ok L) es.

Lemma expire_slot_ok s todo st :
  expire_state (s :: todo) st →
  ∃ st', expire_slot cur live st s = Some st' ∧ expire_state todo st'.
Proof using CL Hinv0 Henf0.
  intros ([Hs Hnd]%NoDup_cons & Hrange & self & A & Mr & Mn & V & es & -> & Hsw & Hrep & Hok).
  pose proof Hsw as [Hinv Hst HMr HMn Hcs HA HV _ _].
  assert (0 ≤ s < capacity self) as Hsr.
  { rewrite (st_capacity _ _ Hst). apply Hrange, elem_of_cons. by left. }
  assert (∀ s', s' ∈ todo → 0 ≤ s' < capacity self0) as Hrange'.
  { intros s' ?. apply Hrange, elem_of_cons. by right. }
  assert (A !! s = A0 !! s) as HAs.
  { rewrite HA. destruct (A0 !! s); [|done]. simpl.
    rewrite bool_decide_false; [done|]. rewrite not_elem_of_cons. tauto. }
  unfold expire_slot. rewrite (is_active_ok _ _ (iv_slots _ _ _ _ _ _ Hinv)) by done. simpl.
  destruct (A !! s) as [k|] eqn:Hk.
  2:{ rewrite bool_decide_false by (by apply not_elem_of_dom). simpl. eexists.
      split; [done|]. split; [done|]. split; [done|].
      eexists _, _, _, _, _, _. split; [done|]. split; [|done].
      eapply sweep_skip; [done| |done]. intros k0 Hk0. congruence. }
  rewrite bool_decide_true by (apply elem_of_dom; eauto). simpl.
  destruct (key_at_fields _ _ _ (key_at_ok _ _ _ _ _ _ Hinv s k Hk)) as [Hr Hb].
  rewrite Hr. simpl.
  assert (0 ≤ ck_rule k) as Hk0.
  { destruct (ti_cells _ _ _ _ _ (iv_dicts _ _ _ _ _ _ Hinv) s k Hk) as [[d Hd] _].
    by apply (di_live _ _ _ _ (ti_rules _ _ _ _ _ (iv_dicts _ _ _ _ _ _ Hinv)) _ _ Hd). }
  assert (expire_state todo (self, ExpirationSink.of_rows (rows ++ es)) ∨ gone s k = true)
    as Hskip.
  { destruct (gone s k) eqn:Hg; [by right|]. left. split; [done|]. split; [done|].
    eexists _, _, _, _, _, _. split; [done|]. split; [|done].
    eapply sweep_skip; [done| |done]. intros k' Hk'. congruence. }
  unfold gone, aged in Hskip.
  destruct (zlen cur <=? ck_rule k) eqn:E1; bool_solve; simpl.
  { rewrite (zget_out cur) in Hskip by lia. destruct Hskip; [by eexists|done]. }
  destruct (zget_in_range cur (ck_rule k)) as [c Hc]; [lia|]. rewrite Hc in Hskip.
  destruct (zlen live <=? ck_rule k) eqn:E2; bool_solve; simpl.
  { rewrite (zget_out live) in Hskip by lia. destruct Hskip; [by eexists|done]. }
  destruct (zget_in_range live (ck_rule k)) as [l Hl]; [lia|]. rewrite Hl in Hskip.
  rewrite Hc, Hl. simpl. rewrite Hb. simpl.
  destruct (ck_bucket k + l <? c) eqn:E3; [|destruct Hskip; [by eexists|done]].
  assert (gone s k = true) as Hg by (unfold gone, aged; by rewrite Hc, Hl).
  edestruct (sweep_free self0 A0 Mr0 Mn0 pins V0 gone s todo self A Mr Mn V k)
    as (self' & Mr' & Mn' & dr & dn & cnt & Hf & _ & Hdr & Hdn & Hcnt & HVn & Hsw');
    [done|congruence|done|done|].
  destruct (emit_expiration_ok _ _ _ _ _ _ Hinv (rows ++ es) s k dr dn cnt Hk Hdr Hdn Hcnt)
    as (e & -> & Hek & Hec & Hef).
  simpl. rewrite Hf. simpl. eexists. split; [done|]. split; [done|]. split; [done|].
  eexists _, _, _, _, _, (es ++ [e]). rewrite app_assoc. split; [done|]. split; [done|].
  split; [by eapply reports_delete|]. apply Forall_app. split; [done|]. apply Forall_singleton.
  split; [rewrite Hec; by eapply (iv_counts _ _ _ _ _ _ Hinv)|]. rewrite Hek, Hef. simpl.
  eapply enforced_flag; [exact Henf0|]. by eapply lookup_weaken.
Qed.

Lemma expire_ok :
  ∃ self A Mr Mn V es,
    expire self0 cur live (ExpirationSink.of_rows rows) =
      Some (self, ExpirationSink.of_rows (rows ++ es)) ∧
    sweep self0 A0 Mr0 Mn0 pins V0 gone [] self A Mr Mn V ∧ reports V0 V es ∧
    Forall (expiration_ok L) es.
Proof using CL Hinv0 Henf0.
  unfold expire. edestruct (for_each_inv expire_state) as (st & -> & Hst).
  - intros s todo st. apply expire_slot_ok.
  - split; [apply NoDup_zrange|]. split; [intros s; apply elem_of_zrange|].
    exists self0, A0, Mr0, Mn0, V0, []. rewrite app_nil_r. split; [done|].
    split; [split; try done|].
    + intros s. destruct (A0 !! s) as [k|] eqn:Hk; [|done]. simpl.
      rewrite bool_decide_false; [done|]. rewrite elem_of_zrange.
      pose proof (inv_range _ _ _ _ _ _ Hinv0 s ltac:(eauto)). tauto.
    + intros r. by rewrite released_same.
    + intros n. by rewrite released_same.
    + split; [|constructor]. unfold reports. by rewrite map_difference_diag, map_to_list_empty.
  - destruct Hst as (_ & _ & self & A & Mr & Mn & V & es & -> & ?). eauto 10.
Qed.
End expire.

(** ** The scratch columns of [expire_at]

    [expire_at] moves the scratch columns out of the store while [expire]
    runs; no step of [expire] reads them. *)
Definition with_scratch (cs ls : list Z) (self : t) : t :=
  self <| expire_current_epoch_scratch := cs |> <| expire_live_buckets_scratch := ls |>.

Lemma free_cell_at_scratch cs ls self s :
  free_cell_at (with_scratch cs ls self) s = with_scratch cs ls <$> free_cell_at self s.
Proof.
  unfold free_cell_at. change (key_at (with_scratch cs ls self) s) with (key_at self s).
  destruct (key_at self s) as [k|]; [|done]. simpl.
  destruct (CellIndex.remove _ _ _) as [idx|]; [|done]. simpl.
  destruct (RuleDictionary.dec_ref _ _) as [rd|]; [|done]. simpl.
  destruct (NodeDictionary.dec_ref _ _) as [[nd []]|]; [| |done]; simpl.
  - destruct (PeerFrontierTable.clear_node_slot _ _) as [pf|]; [|done]. simpl.
    destruct (zset _ _ _) as [seqs|]; [|done]. simpl.
    unfold free_slot, is_active. simpl.
    destruct (zget (generations self) s) as [g|]; [|done]. simpl.
    destruct (assert_ _); [|done]. simpl. destruct (zset (generations self) _ _); [|done]. simpl.
    destruct (zset (free_next self) _ _); [|done]. simpl. by destruct (checked _ _).
  - unfold free_slot, is_active. simpl.
    destruct (zget (generations self) s) as [g|]; [|done]. simpl.
    destruct (assert_ _); [|done]. simpl. destruct (zset (generations self) _ _); [|done]. simpl.
    destruct (zset (free_next self) _ _); [|done]. simpl. by destruct (checked _ _).
Qed.

Lemma expire_slot_scratch cs ls cur live self sink s :
  expire_slot cur live (with_scratch cs ls self, sink) s =
  prod_map (with_scratch cs ls) id <$> expire_slot cur live (self, sink) s.
Proof.
  unfold expire_slot. change (is_active (with_scratch cs ls self) s) with (is_active self s).
  destruct (is_active self s) as [[]|]; [|done..]. simpl.
  destruct (zget (rules self) s) as [r|]; [|done]. simpl.
  destruct (_ || _); [done|].
  destruct (zget cur r); [|done]. destruct (zget live r); [|done]. simpl.
  destruct (zget (buckets self) s); [|done]. simpl. destruct (_ <? _); [|done].
  change (emit_expiration (with_scratch cs ls self) sink s) with (emit_expiration self sink s).
  destruct (emit_expiration self sink s); [|done]. simpl.
  rewrite free_cell_at_scratch. by destruct (free_cell_at self s).
Qed.

Lemma expire_scratch cs ls cur live self sink :
  expire (with_scratch cs ls self) cur live sink =
  prod_map (with_scratch cs ls) id <$> expire self cur live sink.
Proof.
  unfold expire. change (capacity (with_scratch cs ls self)) with (capacity self).
  generalize (zrange 0 (capacity self)). intros l. revert self sink.
  induction l as [|s l IH]; intros self sink; cbn [for_each]; [done|].
  rewrite expire_slot_scratch. destruct (expire_slot cur live (self, sink) s) as [[self1 sink1]|];
    [|done]. simpl. apply IH.
Qed.

Section expire_at.
Context {C : Count} {CL : CountLaws C}.
Context (self : t) A Mr Mn pins V (Hinv : inv_at self A Mr Mn pins V).

Definition scratch_epoch (now : Z) (r : Z) : Z :=
  match RuleDictionary.descriptor (rule_dictionary self) r with
  | Some (Some d) => current_epoch d now | _ => 0 end.
Definition scratch_live (r : Z) : Z :=
  match RuleDictionary.descriptor (rule_dictionary self) r with
  | Some (Some d) => live_buckets d | _ => 0 end.

Lemma fill_expire_scratch_ok now :
  ∃ cs ls, fill_expire_scratch self now = Some (with_scratch cs ls self) ∧
    zlen cs = Dict.capacity (rule_dictionary self) ∧
    zlen ls = Dict.capacity (rule_dictionary self) ∧
    ∀ r, 0 ≤ r < Dict.capacity (rule_dictionary self) →
      zget cs r = Some (scratch_epoch now r) ∧ zget ls r = Some (scratch_live r).
Proof using Hinv.
  pose proof Hinv as [_ _ Hd Hl _ _]. pose proof (ti_rules _ _ _ _ _ Hd) as Hrd.
  pose proof (di_cap _ _ _ _ Hrd) as Hcap. unfold EMPTY_DICT_SLOT, U16_MAX in Hcap.
  unfold fill_expire_scratch.
  edestruct (for_each_inv (λ todo st, ∃ cs ls, st = with_scratch cs ls self ∧
    zlen cs = Dict.capacity (rule_dictionary self) ∧
    zlen ls = Dict.capacity (rule_dictionary self) ∧
    (∀ r, r ∈ todo → 0 ≤ r < Dict.capacity (rule_dictionary self)) ∧
    ∀ r, 0 ≤ r < Dict.capacity (rule_dictionary self) → r ∉ todo →
      zget cs r = Some (scratch_epoch now r) ∧ zget ls r = Some (scratch_live r)))
    as (st & -> & cs & ls & -> & Hcl & Hll & _ & Hv).
  3:{ exists cs, ls. split_and!; try done. intros r Hr. apply Hv; [done|].
      by intros ?%elem_of_nil. }
  2:{ exists (expire_current_epoch_scratch self), (expire_live_buckets_scratch self).
      split; [by destruct self|]. split; [apply Hl|]. split; [apply Hl|].
      split; [intros r; apply elem_of_zrange|]. intros r Hr Hn. by rewrite elem_of_zrange in Hn. }
  intros r todo st (cs & ls & -> & Hcl & Hll & Hr & Hv).
  assert (0 ≤ r < Dict.capacity (rule_dictionary self)) as Hrr
    by (apply Hr, elem_of_cons; by left).
  unfold as_u16. rewrite Z.mod_small by lia. simpl.
  destruct (zget_in_range (Dict.refcounts (rule_dictionary self)) r) as [rc Hrc];
    [by rewrite (di_rcs _ _ _ _ Hrd)|].
  pose proof (dict_descriptor_ok _ _ _ _ Hrd r rc Hrc) as Hdesc.
  unfold RuleDictionary.descriptor. rewrite Hdesc. simpl.
  set (e := match (if 0 <? rc then Mr !! r else None) with
            | Some d => (current_epoch d now, live_buckets d) | None => (0, 0) end).
  assert (e = (scratch_epoch now r, scratch_live r)) as ->.
  { unfold e, scratch_epoch, scratch_live, RuleDictionary.descriptor. rewrite Hdesc.
    by destruct (if 0 <? rc then Mr !! r else None). }
  rewrite !zset_ok by lia. simpl. eexists. split; [done|].
  exists (zupd cs r (scratch_epoch now r)), (zupd ls r (scratch_live r)).
  split; [done|]. rewrite !zlen_zupd. split_and!; try done.
  - intros r' ?. apply Hr, elem_of_cons. by right.
  - intros r' Hr' Hn. rewrite !zget_zupd by lia. destruct (decide (r = r')) as [<-|]; [done|].
    apply Hv; [done|]. rewrite not_elem_of_cons. split; [congruence|done].
Qed.

Lemma inv_with_scratch self1 A1 Mr1 Mn1 V1 cs ls :
  zlen cs = Dict.capacity (rule_dictionary self1) →
  zlen ls = Dict.capacity (rule_dictionary self1) →
  inv_at self1 A1 Mr1 Mn1 pins V1 → inv_at (with_scratch cs ls self1) A1 Mr1 Mn1 pins V1.
Proof using.
  intros Hc Hl [Hsl Hrows Hd Hla Hcs HV].
  split; [reframe Hsl|reframe Hrows|reframe Hd| |done|done].
  destruct Hla. by split.
Qed.

(** The scratch test is the per-rule window test. *)
Lemma aged_scratch now cs ls s k d :
  (∀ r, 0 ≤ r < Dict.capacity (rule_dictionary self) →
      zget cs r = Some (scratch_epoch now r) ∧ zget ls r = Some (scratch_live r)) →
  A !! s = Some k → Mr !! ck_rule k = Some d →
  aged cs ls k = (ck_bucket k + live_buckets d <? current_epoch d now).
Proof using Hinv.
  intros Hscr Hk Hd. pose proof (iv_dicts _ _ _ _ _ _ Hinv) as HD.
  destruct (rule_live _ _ _ _ _ HD s k Hk) as (d' & Hd' & Hlive).
  assert (d' = d) as -> by congruence.
  assert (0 ≤ ck_rule k < Dict.capacity (rule_dictionary self)) as Hr
    by (by apply (di_live _ _ _ _ (ti_rules _ _ _ _ _ HD) _ _ Hd)).
  unfold aged. destruct (Hscr _ Hr) as [-> ->]. unfold scratch_epoch, scratch_live.
  unfold live_descriptor in Hlive.
  by destruct (RuleDictionary.descriptor (rule_dictionary self) (ck_rule k)) as [[]|];
    simplify_eq/=.
Qed.
End expire_at.

(** The descriptor a store holds for a fingerprint. *)
Definition descriptor_of (self : t) (fp : Z) : option RuleDescriptor :=
  match find_rule self fp with
  | Some (Some slot) =>
    match RuleDictionary.descriptor (rule_dictionary self) slot with
    | Some d => d | None => None
    end
  | _ => None
  end.

(** The cell is still inside its rule's live window at [now]. *)
Definition retained (self : t) (now : Z) (n : CellName) : bool :=
  match descriptor_of self (cn_fingerprint n) with
  | Some d => negb (cn_bucket n + live_buckets d <? current_epoch d now)
  | None => true
  end.

Lemma descriptor_of_ok `{C : Count} self A Mr Mn pins V s k d :
  inv_at self A Mr Mn pins V → A !! s = Some k → Mr !! ck_rule k = Some d →
  descriptor_of self (fingerprint d) = Some d.
Proof.
  intros Hinv Hk Hd. pose proof (iv_dicts _ _ _ _ _ _ Hinv) as HD.
  unfold descriptor_of, find_rule, RuleDictionary.find.
  rewrite (dict_find_Some _ _ _ _ (ti_rules _ _ _ _ _ HD) _ _ Hd).
  destruct (rule_live _ _ _ _ _ HD s k Hk) as (d' & Hd' & Hlive).
  assert (d' = d) as -> by congruence. unfold live_descriptor in Hlive.
  by destruct (RuleDictionary.descriptor (rule_dictionary self) (ck_rule k)) as [[]|];
    simplify_eq/=.
Qed.

(** Every dictionary slot that the cells of [A] referred to and those of [A']
    no longer do is released, unless it is pinned. *)
Definition swept_dicts (self : t) (pins : gset Z) A (Mr : gmap Z RuleDescriptor) (Mn : gmap Z NodeDescriptor)
    A' (Mr' : gmap Z RuleDescriptor) (Mn' : gmap Z NodeDescriptor) : Prop :=
  (∀ r, Mr' !! r = if released (r ∈ pins) (refs ck_rule A r) (refs ck_rule A' r) then None else Mr !! r) ∧
  (∀ n, Mn' !! n = if released (n = local_node_slot self) (refs ck_origin A n) (refs ck_origin A' n)
                   then None else Mn !! n).

Lemma expire_at_sweep {C : Count} {CL : CountLaws C} L self A Mr Mn pins V now rows :
  inv_at self A Mr Mn pins V → enforced L Mr pins →
  ∃ self' A' Mr' Mn' es,
    expire_at self now (ExpirationSink.of_rows rows) =
      Some (self', ExpirationSink.of_rows (rows ++ es)) ∧
    stable self self' ∧ inv_at self' A' Mr' Mn' pins (filter (λ p, retained self now p.1 = true) V) ∧
    swept_dicts self pins A Mr Mn A' Mr' Mn' ∧ enforced L Mr' pins ∧
    reports V (filter (λ p, retained self now p.1 = true) V) es ∧ Forall (expiration_ok L) es.
Proof.
  intros Hinv Henf. pose proof (iv_lanes _ _ _ _ _ _ Hinv) as Hl.
  unfold expire_at. rewrite (li_scratch_epoch _ Hl), (li_scratch_live _ Hl), Z.eqb_refl. simpl.
  destruct (fill_expire_scratch_ok self A Mr Mn pins V Hinv now)
    as (cs & ls & -> & Hcl & Hll & Hscr). simpl.
  change (with_scratch cs ls self <| _ := [] |> <| _ := [] |>) with (with_scratch [] [] self).
  rewrite expire_scratch.
  destruct (expire_ok L self A Mr Mn pins V Hinv Henf cs ls rows)
    as (self1 & A1 & Mr1 & Mn1 & V1 & es & -> & Hsw & Hrep & Hok). simpl.
  pose proof (sweep_contents _ _ _ _ _ _ _ _ _ _ _ _ (retained self now) Hinv Hsw) as HV.
  destruct Hsw as [Hinv1 Hst HMr _ _ _ _ Hre Hne]. rewrite <- HV in *.
  - eexists _, A1, Mr1, Mn1, es. split; [done|]. split; [destruct Hst; by split|].
    split_and!; try done.
    + apply (inv_with_scratch pins self1 A1 Mr1 Mn1 V1 cs ls);
        [by rewrite (st_rule_cap _ _ Hst)..|done].
    + eapply enforced_shrink; [exact Henf|exact HMr|apply (iv_dicts _ _ _ _ _ _ Hinv1)].
  - intros s k dr dn Hk Hdr Hdn. unfold retained. simpl.
    rewrite (descriptor_of_ok _ _ _ _ _ _ _ _ _ Hinv Hk Hdr).
    by rewrite (aged_scratch self A Mr Mn pins V Hinv now cs ls s k dr Hscr Hk Hdr).
Qed.

Lemma expire_at_on {C : Count} {CL : CountLaws C} L self V now rows :
  inv_on L self V →
  ∃ self' es,
    expire_at self now (ExpirationSink.of_rows rows) =
      Some (self', ExpirationSink.of_rows (rows ++ es)) ∧
    stable self self' ∧ inv_on L self' (filter (λ p, retained self now p.1 = true) V) ∧
    reports V (filter (λ p, retained self now p.1 = true) V) es ∧ Forall (expiration_ok L) es.
Proof.
  intros (A & Mr & Mn & pins & Hinv & Henf).
  destruct (expire_at_sweep L self A Mr Mn pins V now rows Hinv Henf)
    as (self' & A' & Mr' & Mn' & es & He & Hst & Hi & _ & Henf' & Hrep).
  exists self', es. split_and!; try apply Hrep; try done. by exists A', Mr', Mn', pins.
Qed.

Lemma expire_at_ok {C : Count} {CL : CountLaws C} self V now rows :
  inv self V →
  ∃ self' es,
    expire_at self now (ExpirationSink.of_rows rows) =
      Some (self', ExpirationSink.of_rows (rows ++ es)) ∧
    stable self self' ∧ inv self' (filter (λ p, retained self now p.1 = true) V) ∧
    reports V (filter (λ p, retained self now p.1 = true) V) es.
Proof.
  intros Hinv%inv_inv_on. destruct (expire_at_on None self V now rows Hinv)
    as (self' & es & ? & ? & ?%inv_on_inv & ? & _). by exists self', es.
Qed.

(** Expiration rows account for the drop of every total. *)
Definition entry_total (cid : CellIdentity) (l : list (CellIdentity * Z)) : Z :=
  foldr (λ p acc, if decide (p.1 = cid) then p.2 + acc else acc) 0 l.

#[export] Instance entry_total_proper cid : Proper (Permutation ==> eq) (entry_total cid).
Proof.
  intros l1 l2 Hp. induction Hp as [|p l1 l2 _ IH|p1 p2 l|]; simpl; [done|by rewrite IH| |congruence].
  repeat case_decide; lia.
Qed.

Lemma expiration_total_entries es cid :
  expiration_total es cid = entry_total cid (expiration_entry <$> es).
Proof. induction es as [|e es IH]; simpl; [done|]. by rewrite IH. Qed.

Lemma total_entries V cid : total V cid = entry_total cid (contents_entry <$> map_to_list V).
Proof.
  unfold total. rewrite map_fold_foldr. generalize (map_to_list V) as l.
  induction l as [|[n c] l IH]; simpl; [done|]. by rewrite IH.
Qed.

Lemma total_difference V V' cid :
  V' ⊆ V → total V cid = total V' cid + total (V ∖ V') cid.
Proof.
  revert V. induction V' as [|n c V' Hn IH] using map_ind; intros V Hsub.
  { rewrite map_difference_empty. unfold total at 2. by rewrite map_fold_empty. }
  assert (V !! n = Some c) as HV.
  { eapply lookup_weaken; [|done]. apply lookup_insert_eq. }
  assert (V' ⊆ delete n V) as Hsub'.
  { apply map_subseteq_spec. intros m d Hm. assert (m ≠ n) by congruence.
    rewrite lookup_delete_ne by done. eapply lookup_weaken; [|done].
    by rewrite lookup_insert_ne. }
  rewrite total_insert_new by done. specialize (IH _ Hsub').
  rewrite (total_delete _ _ _ _ HV) in IH.
  assert (delete n V ∖ V' = V ∖ <[n := c]> V') as Heq; [|rewrite Heq in IH; lia].
  apply map_eq. intros m. destruct (decide (m = n)) as [->|].
  - rewrite !lookup_difference, lookup_delete_eq, lookup_insert_eq. by destruct (V' !! n).
  - by rewrite !lookup_difference, lookup_delete_ne, lookup_insert_ne by done.
Qed.

Lemma reports_total V V' es cid :
  V' ⊆ V → reports V V' es → total V' cid = total V cid - expiration_total es cid.
Proof.
  intros Hsub Hr. rewrite (total_difference V V' cid Hsub).
  rewrite expiration_total_entries, Hr, <- total_entries. lia.
Qed.

(** [oldest_live_epoch] is the boundary of the test. *)
Lemma oldest_live_epoch_spec d now b :
  0 ≤ b → 0 ≤ live_buckets d →
  (b + live_buckets d <? current_epoch d now) = (b <? oldest_live_epoch d now).
Proof. intros. unfold oldest_live_epoch, saturating_sub. lia. Qed.

(** ** [clear] *)
Lemma clear_sweep {C : Count} {CL : CountLaws C} self A0 Mr0 Mn0 pins V :
  inv_at self A0 Mr0 Mn0 pins V →
  ∃ self' A Mr Mn, clear self = Some self' ∧ stable self self' ∧ inv_at self' A Mr Mn pins ∅ ∧
    swept_dicts self pins A0 Mr0 Mn0 A Mr Mn.
Proof.
  intros Hinv0. unfold clear.
  set (gone := λ (_ : Z) (_ : CompactCellKey), true).
  edestruct (for_each_inv (λ todo st, NoDup todo ∧ (∀ s, s ∈ todo → 0 ≤ s < capacity self) ∧
    ∃ A Mr Mn V', sweep self A0 Mr0 Mn0 pins V gone todo st A Mr Mn V'))
    as (self1 & -> & _ & _ & A & Mr & Mn & V1 & Hsw).
  - intros s todo st ([Hs Hnd]%NoDup_cons & Hr & A & Mr & Mn & V1 & Hsw).
    pose proof Hsw as [Hinv Hst _ _ _ HA _ _ _].
    assert (A !! s = A0 !! s) as HAs.
    { rewrite HA. destruct (A0 !! s); [|done]. simpl.
      rewrite bool_decide_false; [done|]. rewrite not_elem_of_cons. tauto. }
    assert (∀ s', s' ∈ todo → 0 ≤ s' < capacity self) as Hr'.
    { intros s' ?. apply Hr, elem_of_cons. by right. }
    rewrite (is_active_ok _ _ (iv_slots _ _ _ _ _ _ Hinv))
      by (rewrite (st_capacity _ _ Hst); apply Hr, elem_of_cons; by left). simpl.
    destruct (A0 !! s) as [k|] eqn:Hk.
    + rewrite bool_decide_true by (apply elem_of_dom; eauto).
      edestruct (sweep_free self A0 Mr0 Mn0 pins V gone s todo st A Mr Mn V1 k)
        as (st' & Mr' & Mn' & dr & dn & c & -> & _ & _ & _ & _ & _ & Hsw'); try done.
      eauto 10.
    + rewrite bool_decide_false by (by apply not_elem_of_dom). exists st. split; [done|].
      split; [done|]. split; [done|]. exists A, Mr, Mn, V1.
      eapply sweep_skip; [done| |done]. intros k Hk'. congruence.
  - split; [apply NoDup_zrange|]. split; [intros s; apply elem_of_zrange|].
    exists A0, Mr0, Mn0, V. split; try done; [|intros; by rewrite released_same..].
    intros s. destruct (A0 !! s) as [k|] eqn:Hk; [|done]. simpl.
    rewrite bool_decide_false; [done|]. rewrite elem_of_zrange.
    pose proof (inv_range _ _ _ _ _ _ Hinv0 s ltac:(eauto)). tauto.
  - simpl. pose proof (sweep_contents _ _ _ _ _ _ _ _ _ _ _ _ (λ _, false) Hinv0 Hsw ltac:(done))
      as HV1. simpl in HV1.
    assert (V1 = ∅) as ->.
    { rewrite HV1. apply map_eq. intros n. rewrite lookup_empty.
      apply map_lookup_filter_None. by right. }
    destruct Hsw as [[Hsl Hrows Hd Hl Hcs HV] Hst _ _ _ _ _ Hre Hne].
    eexists _, A, Mr, Mn. split; [done|]. split; [destruct Hst; by split|]. split; [|by split].
    split; [|reframe Hrows|reframe Hd| |done|done].
    + destruct Hsl. split; simpl; rewrite ?zlen_fmap; done.
    + pose proof (si_cap _ _ Hsl). destruct Hl.
      destruct (DirtyRing.ring_clear_ok _ (proj1 li_local)) as [H1 H2].
      destruct (DirtyRing.ring_clear_ok _ (proj1 li_forwarded)) as [H3 H4].
      split; simpl; try done; try lia.
      * split; [done|]. rewrite H2. by intros e ?%elem_of_nil.
      * split; [done|]. rewrite H4. by intros e ?%elem_of_nil.
      * intros s m. rewrite zget_fmap. destruct (zget _ s); simpl; [|done]. by intros [= <-].
Qed.

Lemma store_clear_ok {C : Count} {CL : CountLaws C} self V :
  inv self V → ∃ self', clear self = Some self' ∧ stable self self' ∧ inv self' ∅.
Proof.
  intros (A & Mr & Mn & pins & Hi). destruct (clear_sweep self A Mr Mn pins V Hi) as (self' & A' & Mr' & Mn' & ? & ? & ? & _).
  exists self'. split_and!; try done. by exists A', Mr', Mn', pins.
Qed.
