(* ===== verification/GossipFrame.v ===== *)
(** * Gossip frame composition

    [fill_gossip_frame] and [fill_gossip_frame_for_peer]: two dirty lanes, then
    a rotating repair slice, deduplicated by selection marks.  A frame holds
    only current handles of live cells, each cell at most once, at most
    [max_cells] of them; when it is not full it holds every live cell; and the
    repair cursor advances past exactly the slots whose live cells are in the
    frame, which is what makes anti-entropy reach every cell. *)

From S2P Require Import Prelude Types Hash Index Freelist Dictionary DirtyRing PeerFrontier IO CellStore CellSlots CellInv CellOps.
Import CellStore.

Definition with_marks (ms : list Z) (self : t) : t := self <| selection_marks := ms |>.

(** A handle that resolves to a live cell of [self]. *)
Definition current_handle (self : t) (L : gset Z) (h : CellHandle) : Prop :=
  h_index h ∈ L ∧ zget (generations self) (h_index h) = Some (h_generation h).

Section frame.
(** [self] is the store after [bump_selection_epoch]. *)
Context (self : t) (L : gset Z) (Hsl : slots_inv self L).
Context (Hl : lanes_inv self).
Context (max_cells : Z).

(** The marks equal to the current epoch are those of the frame so far. *)
Record selecting (ms : list Z) (out : list CellHandle) : Prop := {
  fs_len : zlen ms = capacity self;
  fs_marks s m : zget ms s = Some m →
    0 ≤ m ≤ selection_epoch self ∧
    (m = selection_epoch self ↔ s ∈ h_index <$> out);
  fs_nodup : NoDup (h_index <$> out);
  fs_current h : h ∈ out → current_handle self L h;
  fs_max : zlen out ≤ max_cells;
}.

(** Selecting a live slot: refused if the frame has it, else marked. *)
Lemma mark_selected_ok ms out s :
  selecting ms out → 0 ≤ s < capacity self →
  ∃ ms', mark_selected (with_marks ms self) s =
      Some (with_marks ms' self, bool_decide (s ∉ h_index <$> out)) ∧
    (s ∈ h_index <$> out → ms' = ms) ∧
    ∀ h, h_index h = s → s ∉ h_index <$> out → current_handle self L h →
      zlen out < max_cells → selecting ms' (out ++ [h]).
Proof using Hl.
  intros [Hlen Hms Hnd Hcur Hmax] Hs. unfold mark_selected. simpl.
  destruct (zget_in_range ms s) as [m Hm]; [lia|]. rewrite Hm. simpl.
  destruct (Hms s m Hm) as [Hb Hiff].
  destruct (m =? selection_epoch self) eqn:E; bool_solve.
  - exists ms. rewrite bool_decide_false by tauto. split; [done|]. split; [done|]. tauto.
  - rewrite bool_decide_true by tauto. rewrite zset_ok by lia. simpl.
    exists (zupd ms s (selection_epoch self)). split; [done|]. split; [tauto|].
    intros h <- Hn Hh Hlt. split; rewrite ?fmap_app; simpl.
    + by rewrite zlen_zupd.
    + intros s' m'. rewrite zget_zupd, elem_of_app, list_elem_of_singleton by lia.
      destruct (decide (h_index h = s')) as [<-|].
      * intros [= <-]. pose proof (li_epoch _ Hl) as Hu. unfold uint in Hu.
        split; [lia|]. tauto.
      * intros Hm'. destruct (Hms s' m' Hm') as [? ?]. split; [done|].
        assert (s' ≠ h_index h) by congruence. tauto.
    + apply NoDup_app. split; [done|]. split; [|apply NoDup_singleton].
      intros x Hx ->%list_elem_of_singleton. done.
    + intros h' [?| ->%list_elem_of_singleton]%elem_of_app; [by apply Hcur|done].
    + rewrite zlen_app. unfold zlen at 2. simpl. lia.
Qed.

Lemma dirty_entry_current_ok ms e :
  Z.odd (h_generation (de_handle e)) = true → 0 ≤ h_index (de_handle e) →
  ∃ b, dirty_entry_current (with_marks ms self) e = Some b ∧
    (b = true → current_handle self L (de_handle e)).
Proof using Hsl.
  intros Hodd Hi. unfold dirty_entry_current. simpl.
  destruct (capacity self <=? h_index (de_handle e)) eqn:E; bool_solve; [by eexists|].
  destruct (zget_in_range (generations self) (h_index (de_handle e))) as [g Hg];
    [rewrite (si_generations _ _ Hsl); lia|].
  destruct (zget_in_range (origin_sequences self) (h_index (de_handle e))) as [q Hq];
    [rewrite (si_sequences _ _ Hsl); lia|].
  rewrite Hg. simpl. destruct (g =? h_generation (de_handle e)) eqn:Eg; simpl; [|by eexists].
  bool_solve. subst g. rewrite Hq. simpl.
  assert (current_handle self L (de_handle e)) as Hcur.
  { split; [|done]. destruct (si_gen _ _ Hsl _ _ Hg) as [_ Hp].
    rewrite Hodd in Hp. symmetry in Hp. by apply bool_decide_eq_true in Hp. }
  destruct (q =? de_origin_sequence e); simpl; eexists; done.
Qed.

(** The extra test of a lane is defined on live cells. *)
Context (wanted : t → Z → option bool).
Context (Hwanted : ∀ ms s, s ∈ L → ∃ b, wanted (with_marks ms self) s = Some b).

Lemma dirty_lane_ok ring ms out :
  ring_ok ring → selecting ms out →
  ∃ ms' out', dirty_lane ring max_cells wanted (with_marks ms self) out =
      Some (with_marks ms' self, out ++ out') ∧ selecting ms' (out ++ out').
Proof using Hsl Hl Hwanted.
  intros [Hri Hre] Hsel. unfold dirty_lane.
  destruct (for_each_while_inv
    (λ todo st, (∀ o, o ∈ todo → 0 ≤ o < DirtyRing.len ring) ∧
       ∃ ms' out', st = (with_marks ms' self, out ++ out') ∧ selecting ms' (out ++ out'))
    (λ st, ∃ ms' out', st = (with_marks ms' self, out ++ out') ∧ selecting ms' (out ++ out'))
    (zrange 0 (DirtyRing.len ring)) (with_marks ms self, out)
    (λ '(self, out) offset,
      if max_cells <=? zlen out then Some ((self, out), false) else
      entry ← DirtyRing.ring_entry_at ring offset;
      c ← dirty_entry_current self entry;
      if negb c then Some ((self, out), true) else
      w ← wanted self (h_index (de_handle entry));
      if negb w then Some ((self, out), true) else
      '(self, fresh) ← mark_selected self (h_index (de_handle entry));
      if negb fresh then Some ((self, out), true) else
      Some ((self, out ++ [de_handle entry]), true)))
    as (st & -> & ms' & out' & -> & ?); [|by intros st (_ & ?)| |by eauto].
  2:{ split; [intros o; apply elem_of_zrange|]. exists ms, []. by rewrite app_nil_r. }
  intros o todo st (Hr & ms1 & out1 & -> & Hsel1).
  assert (∀ o, o ∈ todo → 0 ≤ o < DirtyRing.len ring) as Hr'.
  { intros o' ?. apply Hr, elem_of_cons. by right. }
  assert ((∀ o, o ∈ todo → 0 ≤ o < DirtyRing.len ring) ∧
    ∃ ms' out', (with_marks ms1 self, out ++ out1) = (with_marks ms' self, out ++ out') ∧
      selecting ms' (out ++ out')) as Hstay by eauto.
  destruct (max_cells <=? zlen (out ++ out1)) eqn:E; bool_solve;
    [by eexists _, false; eauto|].
  assert (0 ≤ o < DirtyRing.len ring) as Ho by (apply Hr, elem_of_cons; by left).
  rewrite (DirtyRing.ring_entry_at_ok ring Hri o Ho).
  destruct (zget_in_range (DirtyRing.contents ring) o) as [e He];
    [by rewrite DirtyRing.contents_length|].
  rewrite He. simpl. destruct (Hre e (zget_elem_of _ _ _ He)) as [Hodd Hix].
  destruct (dirty_entry_current_ok ms1 e Hodd Hix) as (b & -> & Hb). simpl.
  destruct b; simpl; [|by eexists _, true; eauto]. specialize (Hb eq_refl).
  destruct (Hwanted ms1 _ (proj1 Hb)) as ([] & ->); simpl; [|by eexists _, true; eauto].
  destruct (mark_selected_ok ms1 (out ++ out1) (h_index (de_handle e)) Hsel1)
    as (ms2 & -> & Hsame & Hnew); [by apply (si_live _ _ Hsl), Hb|]. simpl.
  case_bool_decide as Hin; simpl.
  - eexists _, true. split; [done|]. split; [done|].
    exists ms2, (out1 ++ [de_handle e]). rewrite app_assoc. split; [done|].
    apply Hnew; try done.
  - eexists _, true. split; [done|]. split; [done|]. exists ms2, out1. split; [done|].
    by rewrite (Hsame Hin).
Qed.

(** The slots a sweep of length [v] from the repair cursor visits. *)
Definition swept (v s : Z) : Prop :=
  ∃ j, 0 ≤ j < v ∧ s = (repair_cursor self + j) mod capacity self.

Lemma repair_loop_ok fuel ms out visited next_cursor :
  selecting ms out → 0 ≤ visited ≤ capacity self →
  capacity self - visited < Z.of_nat fuel →
  next_cursor = (repair_cursor self + visited) mod capacity self →
  (∀ s, s ∈ L → swept visited s → s ∈ h_index <$> out) →
  ∃ ms' out' v, repair_loop fuel (with_marks ms self) max_cells visited next_cursor out =
      Some (with_marks ms' self, out ++ out', (repair_cursor self + v) mod capacity self) ∧
    selecting ms' (out ++ out') ∧ visited ≤ v ≤ capacity self ∧
    (∀ s, s ∈ L → swept v s → s ∈ h_index <$> (out ++ out')) ∧
    (v = capacity self ∨ zlen (out ++ out') = max_cells).
Proof using Hsl Hl.
  pose proof (si_cap _ _ Hsl) as Hcap. pose proof (li_cursor _ Hl) as Hcursor.
  revert ms out visited next_cursor.
  induction fuel as [|fuel IH]; intros ms out visited nc Hsel Hv Hf -> Hsw; [lia|]. simpl.
  destruct ((visited <? capacity self) && (zlen out <? max_cells)) eqn:E; simpl.
  2:{ exists ms, [], visited. rewrite app_nil_r. split; [done|]. split; [done|].
      split; [lia|]. split; [done|]. pose proof (fs_max _ _ Hsel). lia. }
  bool_solve. rewrite checked_ok by lia. simpl.
  set (s := (repair_cursor self + visited) mod capacity self).
  assert (0 ≤ s < capacity self) as Hs by (apply Z.mod_pos_bound; lia).
  rewrite checked_ok by lia. simpl. rewrite checked_ok by lia. simpl.
  assert ((s + 1) mod capacity self =
    (repair_cursor self + (visited + 1)) mod capacity self) as Hnext.
  { unfold s. rewrite Zplus_mod_idemp_l. f_equal. lia. }
  fold s. change (is_active (with_marks ms self) s) with (is_active self s).
  rewrite (is_active_ok _ _ Hsl) by done. simpl.
  assert (∀ s', swept (visited + 1) s' → swept visited s' ∨ s' = s) as Hstep.
  { intros s' (j & Hj & ->). destruct (decide (j = visited)) as [->|]; [by right|].
    left. exists j. split; [lia|done]. }
  case_bool_decide as HsL; simpl.
  2:{ destruct (IH ms out (visited + 1) ((s + 1) mod capacity self))
        as (ms' & out' & v & He & ? & ? & ? & ?); [done|lia|lia|done|..].
      { intros s' HsL' [?| ->]%Hstep; [by apply Hsw|done]. }
      exists ms', out', v. split; [done|]. split; [done|]. split; [lia|]. done. }
  destruct (mark_selected_ok ms out s Hsel Hs) as (ms1 & -> & Hsame & Hnew). simpl.
  case_bool_decide as Hin; simpl.
  2:{ rewrite (Hsame Hin).
      destruct (IH ms out (visited + 1) ((s + 1) mod capacity self))
        as (ms' & out' & v & He & ? & ? & ? & ?); [done|lia|lia|done|..].
      { intros s' HsL' [?| ->]%Hstep; [by apply Hsw|done]. }
      exists ms', out', v. split; [done|]. split; [done|]. split; [lia|]. done. }
  change (handle_for (with_marks ms1 self) s) with (handle_for self s).
  destruct (handle_for_ok _ _ Hsl s Hs) as (g & -> & Hg). simpl.
  set (h := {| h_index := s; h_generation := g |}).
  destruct (IH ms1 (out ++ [h]) (visited + 1) ((s + 1) mod capacity self))
    as (ms' & out' & v & He & ? & ? & ? & ?); [by apply Hnew|lia|lia|done|..].
  { intros s' HsL' Hsw'. rewrite fmap_app, elem_of_app. simpl.
    apply Hstep in Hsw' as [?| ->]; [left; by apply Hsw|right; by apply list_elem_of_singleton]. }
  exists ms', (h :: out'), v.
  rewrite (cons_middle h out out'), app_assoc.
  split; [done|]. split; [done|]. split; [lia|]. done.
Qed.
End frame.

(** Every slot is within one turn of the cursor. *)
Lemma swept_all self s :
  0 ≤ s < capacity self → swept self (capacity self) s.
Proof.
  intros Hs. exists ((s - repair_cursor self) mod capacity self).
  split; [apply Z.mod_pos_bound; lia|].
  rewrite Zplus_mod_idemp_r. replace (_ + _) with s by lia. by rewrite Z.mod_small.
Qed.

(** A new selection epoch: no slot is marked yet. *)
Lemma bump_selection_epoch_ok self L max_cells :
  slots_inv self L → lanes_inv self → 0 ≤ max_cells →
  let self1 := bump_selection_epoch self in
  slots_inv self1 L ∧ lanes_inv self1 ∧
  selecting self1 L max_cells (selection_marks self1) [] ∧
  ∃ ms e, self1 = self <| selection_marks := ms |> <| selection_epoch := e |>.
Proof.
  intros Hsl Hl Hmax. unfold bump_selection_epoch, wrapping_add.
  pose proof (li_epoch _ Hl) as He. unfold uint in He.
  destruct (decide (selection_epoch self = 2 ^ 32 - 1)) as [Heq|Hne].
  - rewrite Heq. replace ((2 ^ 32 - 1 + 1) mod 2 ^ 32 =? 0) with true by done. cbv zeta.
    assert (∀ s m, zget ((λ _, 0) <$> selection_marks self) s = Some m → m = 0) as Hz.
    { intros s m. rewrite zget_fmap. destruct (zget _ s); [|done]. by intros [= <-]. }
    split; [destruct Hsl; split; simpl; rewrite ?zlen_fmap; done|].
    split; [destruct Hl; split; simpl; try done; intros s m ->%Hz; lia|].
    split; [|by repeat eexists]. split; simpl; try done.
    + rewrite zlen_fmap. apply Hsl.
    + intros s m ->%Hz. split; [lia|]. split; [done|by intros ?%elem_of_nil].
    + apply NoDup_nil_2.
    + by intros h ?%elem_of_nil.
  - rewrite Z.mod_small by lia. rewrite (proj2 (Z.eqb_neq _ _)) by lia. cbv zeta.
    split; [reframe Hsl|].
    split; [destruct Hl; split; simpl; try done; [unfold uint; lia|
            intros s m Hm; specialize (li_marks s m Hm); lia]|].
    split; [|by exists (selection_marks self); eexists]. split; simpl; try done.
    + apply Hsl.
    + intros s m Hm. pose proof (li_marks _ Hl s m Hm). split; [lia|].
      split; [lia|by intros ?%elem_of_nil].
    + apply NoDup_nil_2.
    + by intros h ?%elem_of_nil.
Qed.

Section fill.
Context {C : Count}.
Context (self : t) A Mr Mn pins V (Hinv : inv_at self A Mr Mn pins V).
Context (wanted : t → Z → option bool) (max_cells : Z) (Hmax : 0 ≤ max_cells).
Context (Hwanted : ∀ ms e s, s ∈ dom A →
  ∃ b, wanted (self <| selection_marks := ms |> <| selection_epoch := e |>) s = Some b).

(** What a frame of [max_cells] guarantees; [v] slots were swept for repair. *)
Record frame_post (self' : t) (out : list CellHandle) (v : Z) : Prop := {
  fp_inv : inv_at self' A Mr Mn pins V;
  fp_stable : stable self self';
  fp_generations : generations self' = generations self;
  fp_updates : last_update_millis self' = last_update_millis self;
  fp_sequences : origin_sequences self' = origin_sequences self;
  fp_next : next_sequence_by_origin self' = next_sequence_by_origin self;
  fp_frontiers : peer_frontiers self' = peer_frontiers self;
  fp_bound : zlen out ≤ max_cells;
  fp_nodup : NoDup (h_index <$> out);
  fp_current h : h ∈ out → current_handle self (dom A) h;
  fp_cursor : repair_cursor self' = (repair_cursor self + v) mod capacity self;
  fp_v : 0 ≤ v ≤ capacity self;
  fp_swept s : s ∈ dom A → swept self v s → s ∈ h_index <$> out;
  fp_full : zlen out = max_cells ∨ v = capacity self;
}.

Lemma frame_post_intro ms e cur out v :
  let self1 := self <| selection_marks := ms |> <| selection_epoch := e |> in
  lanes_inv self1 → slots_inv self1 (dom A) →
  ∀ ms', selecting self1 (dom A) max_cells ms' out →
  cur = (repair_cursor self + v) mod capacity self → 0 ≤ v ≤ capacity self →
  (∀ s, s ∈ dom A → swept self v s → s ∈ h_index <$> out) →
  zlen out = max_cells ∨ v = capacity self →
  frame_post (with_marks ms' self1 <| repair_cursor := cur |>) out v.
Proof using Hinv.
  intros self1 Hl1 Hsl1 ms' [Hlen Hms Hnd Hcur Hmx] -> Hv Hsw Hfull.
  pose proof Hinv as [Hsl Hrows Hd Hl Hcs HV].
  split; try done.
  split; [| |reframe Hd| |done|done].
  - destruct Hsl. split; simpl; done.
  - reframe Hrows.
  - pose proof (si_cap _ _ Hsl). destruct Hl1. split; simpl; try done.
    + apply Z.mod_pos_bound. lia.
    + intros s m Hm. by apply (Hms s m).
Qed.

Lemma fill_frame_ok :
  ∃ self' out v, fill_frame wanted self max_cells = Some (self', out) ∧
                 frame_post self' out v.
Proof using Hinv Hmax Hwanted.
  pose proof Hinv as [Hsl Hrows Hd Hl Hcs HV]. pose proof (si_cap _ _ Hsl) as Hcap.
  pose proof (li_cursor _ Hl) as Hcursor. unfold fill_frame.
  assert (∀ s, ¬ swept self 0 s) as Hsw0 by (intros s (j & Hj & _); lia).
  destruct (max_cells =? 0) eqn:E0; bool_solve.
  { exists self, [], 0. split; [done|]. split; try done.
    - apply NoDup_nil_2.
    - by intros h ?%elem_of_nil.
    - rewrite Z.add_0_r, Z.mod_small by lia. done.
    - lia.
    - intros s _ ?. by destruct (Hsw0 s).
    - by left. }
  destruct (bump_selection_epoch_ok self (dom A) max_cells Hsl Hl Hmax)
    as (Hsl1 & Hl1 & Hsel0 & ms0 & e & Heq).
  rewrite Heq in *. set (self1 := self <| selection_marks := ms0 |> <| selection_epoch := e |>) in *.
  clear Heq.
  assert (∀ ms s, s ∈ dom A → ∃ b, wanted (with_marks ms self1) s = Some b) as Hw.
  { intros ms s Hs. by apply (Hwanted ms e s Hs). }
  cbv zeta. change (dirty_lane ?r max_cells wanted self1 [])
    with (dirty_lane r max_cells wanted (with_marks (selection_marks self1) self1) []).
  destruct (dirty_lane_ok self1 (dom A) Hsl1 Hl1 max_cells wanted Hw (local_dirty self1)
    (selection_marks self1) [] (li_local _ Hl1) Hsel0) as (ms1 & out1 & -> & Hsel1). simpl.
  simpl in Hsel1.
  assert (∀ ms out, selecting self1 (dom A) max_cells ms out → max_cells <= zlen out →
    frame_post (with_marks ms self1) out 0) as Hearly.
  { intros ms out Hs Hge. pose proof (fs_max _ _ _ _ _ Hs).
    refine (frame_post_intro ms0 e (repair_cursor self) out 0 Hl1 Hsl1 ms Hs _ _ _ _).
    - rewrite Z.add_0_r, Z.mod_small by lia. done.
    - lia.
    - intros s _ ?. by destruct (Hsw0 s).
    - left. lia. }
  destruct (max_cells <=? zlen out1) eqn:E1; bool_solve; [by eauto 10|].
  change (dirty_lane _ max_cells wanted (with_marks ms1 self1) out1)
    with (dirty_lane (forwarded_dirty self1) max_cells wanted (with_marks ms1 self1) out1).
  destruct (dirty_lane_ok self1 (dom A) Hsl1 Hl1 max_cells wanted Hw (forwarded_dirty self1)
    ms1 out1 (li_forwarded _ Hl1) Hsel1) as (ms2 & out2 & -> & Hsel2). simpl.
  destruct (max_cells <=? zlen (out1 ++ out2)) eqn:E2; bool_solve; [by eauto 10|].
  unfold repair_lane.
  destruct (repair_loop_ok self1 (dom A) Hsl1 Hl1 max_cells (S (Z.to_nat (capacity self1)))
    ms2 (out1 ++ out2) 0 (repair_cursor self1)) as (ms3 & out3 & v & He & Hsel3 & Hv & Hsw & Hfull).
  { done. }
  { simpl. lia. }
  { simpl. lia. }
  { simpl. rewrite Z.add_0_r, Z.mod_small by lia. done. }
  { intros s _ ?. by destruct (Hsw0 s). }
  change (capacity (with_marks ms2 self1)) with (capacity self1).
  change (repair_cursor (with_marks ms2 self1)) with (repair_cursor self1).
  rewrite He. simpl. eexists _, _, v. split; [done|].
  apply (frame_post_intro ms0 e _ _ v Hl1 Hsl1 ms3); try done. tauto.
Qed.
End fill.

(** A frame that is not full holds every live cell. *)
Lemma frame_complete {C : Count} self A Mr Mn pins V max_cells self' out v s :
  inv_at self A Mr Mn pins V →
  frame_post self A Mr Mn pins V max_cells self' out v →
  zlen out < max_cells → s ∈ dom A → s ∈ h_index <$> out.
Proof.
  intros Hinv Hp Hlt Hs. destruct (fp_full _ _ _ _ _ _ _ _ _ _ Hp) as [?| Hv]; [lia|].
  apply (fp_swept _ _ _ _ _ _ _ _ _ _ Hp s Hs). rewrite Hv.
  apply swept_all. apply (si_live _ _ (iv_slots _ _ _ _ _ _ Hinv) s Hs).
Qed.

(** The peer-aware test is defined on live cells for a peer in the table. *)
Lemma peer_lacks_ok {C : Count} self A Mr Mn pins V peer ms e s :
  inv_at self A Mr Mn pins V →
  0 ≤ peer < PeerFrontierTable.peer_capacity (peer_frontiers self) → s ∈ dom A →
  ∃ b, peer_lacks (self <| selection_marks := ms |> <| selection_epoch := e |>) peer s = Some b.
Proof.
  intros [Hsl Hrows Hd Hl Hcs HV] Hp [k Hk]%elem_of_dom. unfold peer_lacks. simpl.
  destruct (wi_key _ _ Hrows s k Hk) as [Hs Hka].
  assert (zget (origins self) s = Some (ck_origin k)) as ->.
  { unfold key_at in Hka. destruct (zget (rules self) s); [|done].
    destruct (zget (key_hashes self) s); [|done]. destruct (zget (buckets self) s); [|done].
    destruct (zget (origins self) s); [|done]. destruct (zget (incarnations self) s); [|done].
    simpl in Hka. by injection Hka as <-. }
  simpl. destruct (ti_cells _ _ _ _ _ Hd s k Hk) as (_ & dn & Hdn & _).
  destruct (di_live _ _ _ _ (ti_nodes _ _ _ _ _ Hd) _ _ Hdn) as [Ho _].
  unfold PeerFrontierTable.last_acked.
  destruct (zget_in_range (PeerFrontierTable.last_acked_seq (peer_frontiers self))
    (PeerFrontierTable.flat_index (peer_frontiers self) peer (ck_origin k))) as [a ->].
  { rewrite (PeerFrontierTable.fi_acked _ (li_frontier _ Hl)).
    apply PeerFrontierTable.flat_index_range. split; [done|].
    by rewrite (li_frontier_nodes _ Hl). }
  simpl. destruct (zget_in_range (origin_sequences self) s) as [q ->];
    [by rewrite (si_sequences _ _ Hsl)|]. simpl. eauto.
Qed.
