(* ===== verification/CellTyped.v ===== *)
(** * The cell store: what the columns hold

    The time and sequence columns hold [u64] values and stay so.  Unlike the
    invariant of [CellInv] this says nothing about whether an operation
    returns; it is what the wire codec needs beside it.  The size of the peer
    table, which no operation of the store changes, is tracked along. *)

From S2P Require Import Prelude Types Hash Index Freelist Dictionary DirtyRing PeerFrontier IO CellStore CellSlots CellInv CellOps CellMerge CellExpire GossipFrame.
Import CellStore.

Record cols_typed (K : Z) (self : t) : Prop := {
  ct_peers : PeerFrontierTable.peer_capacity (peer_frontiers self) = K;
  ct_updates : Forall (uint 64) (last_update_millis self);
  ct_sequences : Forall (uint 64) (origin_sequences self);
  ct_next : Forall (uint 64) (next_sequence_by_origin self);
}.

(** Two stores with the same three columns. *)
Definition same_cols (self self' : t) : Prop :=
  PeerFrontierTable.peer_capacity (peer_frontiers self') =
    PeerFrontierTable.peer_capacity (peer_frontiers self) ∧
  last_update_millis self' = last_update_millis self ∧
  origin_sequences self' = origin_sequences self ∧
  next_sequence_by_origin self' = next_sequence_by_origin self.

Lemma same_cols_typed K self self' : same_cols self self' → cols_typed K self → cols_typed K self'.
Proof. intros (Hk & Hu & Hq & Hn) []. by split; rewrite ?Hk, ?Hu, ?Hq, ?Hn. Qed.

Lemma zset_Forall {A} (P : A → Prop) l i v l' :
  zset l i v = Some l' → Forall P l → P v → Forall P l'.
Proof. intros [_ ->]%zset_Some Hl Hv. unfold zupd. case_match; [by apply Forall_insert|done]. Qed.

Lemma zget_uint l i z : zget l i = Some z → Forall (uint 64) l → uint 64 z.
Proof. intros Hz Hl. rewrite Forall_forall in Hl. by eapply Hl, zget_elem_of. Qed.

Lemma for_each_partial {A S} (I : S → Prop) (l : list A) st st' body :
  for_each l st body = Some st' → (∀ st x st', I st → body st x = Some st' → I st') →
  I st → I st'.
Proof.
  intros He Hb. revert st He. induction l as [|x l IH]; intros st He Hi; cbn [for_each] in He.
  { by injection He as <-. }
  apply bind_Some in He as (st1 & H1 & He). eauto.
Qed.

(** Peel the binds of a computation that returned. *)
Ltac peel H :=
  repeat (let x := fresh "x" in let E := fresh "E" in
          apply bind_Some in H as (x & E & H);
          lazymatch type of x with prod _ _ => destruct x | _ => idtac end).

Lemma next_origin_sequence_typed K self o self' q :
  next_origin_sequence self o = Some (self', q) → cols_typed K self → cols_typed K self' ∧ uint 64 q.
Proof.
  unfold next_origin_sequence. intros He [Hk Hu Hs Hn]. peel He. injection He as <- <-.
  pose proof (zget_uint _ _ _ E Hn) as Hx.
  assert (uint 64 (saturating_add 64 x 1)) as Hq by (unfold saturating_add, uint in *; lia).
  split; [|done]. split; try done. by eapply zset_Forall.
Qed.

Lemma push_dirty_cols self o h q self' : push_dirty self o h q = Some self' → same_cols self self'.
Proof.
  unfold push_dirty. intros He. destruct (_ =? _); peel He; by injection He as <-.
Qed.

Section count.
Context {C : Count}.

Lemma update_row_typed K self sink spec s self' sink' r :
  update_row self sink spec s = Some (self', sink', r) → uint 64 (us_now_millis spec) →
  cols_typed K self → cols_typed K self'.
Proof.
  unfold update_row. intros He Hnow Hc. apply bind_Some in He as (prev & _ & He).
  destruct (_ =? _); [peel He; by injection He as <- _ _|].
  apply bind_Some in He as (cs & _ & He). apply bind_Some in He as (us & Hus & He).
  apply bind_Some in He as ([self1 q] & Hq & He).
  apply (next_origin_sequence_typed K) in Hq as [Hc1 Hq].
  2:{ destruct Hc. split; try done. by eapply zset_Forall. }
  apply bind_Some in He as (qs & Hqs & He). apply bind_Some in He as (h & _ & He).
  apply bind_Some in He as (self2 & Hp & He). peel He. injection He as <- _ _.
  apply push_dirty_cols in Hp. eapply same_cols_typed; [exact Hp|].
  destruct Hc1. split; try done. by eapply zset_Forall.
Qed.

Lemma insert_row_typed K self sink spec key s self' sink' r :
  insert_row self sink spec key s = Some (self', sink', r) → uint 64 (us_now_millis spec) →
  cols_typed K self → cols_typed K self'.
Proof.
  unfold insert_row, write_row. intros He Hnow Hc.
  apply bind_Some in He as (self1 & Hw & He). peel Hw. injection Hw as <-.
  apply bind_Some in He as ([self2 q] & Hq & He).
  apply (next_origin_sequence_typed K) in Hq as [Hc1 Hq].
  2:{ destruct Hc. split; try done. by eapply zset_Forall. }
  apply bind_Some in He as (qs & Hqs & He). apply bind_Some in He as (rd & _ & He).
  apply bind_Some in He as (nd & _ & He). apply bind_Some in He as (idx & _ & He).
  apply bind_Some in He as (h & _ & He). apply bind_Some in He as (self3 & Hp & He).
  peel He. injection He as <- _ _. apply push_dirty_cols in Hp. eapply same_cols_typed; [exact Hp|].
  destruct Hc1. split; try done. by eapply zset_Forall.
Qed.

Lemma alloc_slot_cols self self' r : alloc_slot self = Some (self', r) → same_cols self self'.
Proof.
  unfold alloc_slot. intros He. destruct (_ =? _); [by injection He as <- _|].
  peel He; by injection He as <- _.
Qed.

Lemma upsert_typed K self spec sink self' sink' r :
  upsert self spec sink = Some (self', sink', r) → uint 64 (us_now_millis spec) →
  cols_typed K self → cols_typed K self'.
Proof.
  unfold upsert. intros He Hnow Hc. apply bind_Some in He as ([s|] & _ & He).
  { by eapply update_row_typed. }
  apply bind_Some in He as ([self1 [s|]] & Ha & He);
    apply alloc_slot_cols in Ha; apply (same_cols_typed K _ _ Ha) in Hc.
  - by eapply insert_row_typed.
  - injection He as <- _ _. by eapply same_cols_typed; [|exact Hc].
Qed.

Lemma translate_rule_cols self fp self' r :
  translate_rule self fp = Some (self', r) → same_cols self self'.
Proof.
  unfold translate_rule. intros He. apply bind_Some in He as ([s|] & _ & He);
    [by injection He as <- _|]. apply bind_Some in He as ([d [s|]] & _ & He); by injection He as <- _.
Qed.
Lemma translate_node_cols self id inc self' r :
  translate_node self id inc = Some (self', r) → same_cols self self'.
Proof.
  unfold translate_node. intros He. apply bind_Some in He as ([s|] & _ & He);
    [by injection He as <- _|]. apply bind_Some in He as ([d [s|]] & _ & He); by injection He as <- _.
Qed.

Lemma ingest_local_typed K self obs sink self' sink' :
  ingest_local self obs sink = Some (self', sink') →
  Forall (uint 64) (ObservationBatch.last_update_millis obs) →
  cols_typed K self → cols_typed K self'.
Proof.
  unfold ingest_local. intros He Hu Hc. apply bind_Some in He as ([] & _ & He).
  apply (for_each_partial (λ st, cols_typed K st.1) _ _ _ _ He); [|done].
  clear -Hu. intros [self sink] i [self' sink'] Hc He. simpl in *. unfold ingest_row in He.
  apply bind_Some in He as (fp & _ & He). apply bind_Some in He as ([self1 [s|]] & Ht & He);
    apply translate_rule_cols in Ht; apply (same_cols_typed K _ _ Ht) in Hc; [|by injection He as <- _].
  do 3 apply bind_Some in He as (? & _ & He). apply bind_Some in He as (now & Hnow & He).
  apply bind_Some in He as ([[self2 sink2] r] & Hup & He). injection He as <- _.
  eapply upsert_typed; [exact Hup| |done]. by eapply zget_uint.
Qed.

Lemma merge_remote_typed K self obs sink self' sink' :
  merge_remote self obs sink = Some (self', sink') →
  Forall (uint 64) (ObservationBatch.last_update_millis obs) →
  cols_typed K self → cols_typed K self'.
Proof.
  unfold merge_remote. intros He Hu Hc. apply bind_Some in He as ([] & _ & He).
  apply (for_each_partial (λ st, cols_typed K st.1) _ _ _ _ He); [|done].
  clear -Hu. intros [self sink] i [self' sink'] Hc He. simpl in *. unfold merge_row in He.
  do 3 apply bind_Some in He as (? & _ & He).
  apply bind_Some in He as ([self1 slots] & Ht & He).
  assert (same_cols self self1) as Hs.
  { unfold translate_identity in Ht. apply bind_Some in Ht as ([s1 [r1|]] & H1 & Ht);
      apply translate_rule_cols in H1; [|by injection Ht as <- _].
    apply bind_Some in Ht as ([s2 [r2|]] & H2 & Ht); apply translate_node_cols in H2;
      injection Ht as <- _; destruct H1 as (? & ? & ? & ?), H2 as (? & ? & ? & ?); repeat split; congruence. }
  apply (same_cols_typed K _ _ Hs) in Hc. destruct slots as [[rs ns]|]; [|by injection He as <- _].
  do 2 apply bind_Some in He as (? & _ & He). apply bind_Some in He as (now & Hnow & He).
  apply bind_Some in He as (? & _ & He).
  apply bind_Some in He as ([[self2 sink2] r] & Hup & He). injection He as <- _.
  eapply upsert_typed; [exact Hup| |done]. by eapply zget_uint.
Qed.
End count.

Lemma clear_node_slot_capacity pf n pf' :
  PeerFrontierTable.clear_node_slot pf n = Some pf' →
  PeerFrontierTable.peer_capacity pf' = PeerFrontierTable.peer_capacity pf.
Proof.
  unfold PeerFrontierTable.clear_node_slot. intros He.
  apply (for_each_partial (λ st, PeerFrontierTable.peer_capacity st =
    PeerFrontierTable.peer_capacity pf) _ _ _ _ He); [|done].
  clear. intros st x st' Hc He. peel He. by injection He as <-.
Qed.

Lemma free_cell_at_typed K self s self' :
  free_cell_at self s = Some self' → cols_typed K self → cols_typed K self'.
Proof.
  unfold free_cell_at. intros He Hc. apply bind_Some in He as (k & _ & He).
  apply bind_Some in He as (idx & _ & He). apply bind_Some in He as (rd & _ & He).
  apply bind_Some in He as ([nd freed] & _ & He). apply bind_Some in He as (self1 & H1 & He).
  assert (cols_typed K self1) as Hc1.
  { destruct freed; [|injection H1 as <-; by eapply same_cols_typed; [|exact Hc]].
    apply bind_Some in H1 as (pf & Hpf & H1). apply bind_Some in H1 as (seqs & Hs & H1).
    apply clear_node_slot_capacity in Hpf. simpl in Hpf.
    injection H1 as <-. destruct Hc. split; try done; [simpl; congruence|]. eapply zset_Forall; [exact Hs|done|].
    unfold uint. lia. }
  unfold free_slot in He. peel He; injection He as <-; by eapply same_cols_typed; [|exact Hc1].
Qed.

Lemma expire_at_typed K self now sink self' sink' :
  expire_at self now sink = Some (self', sink') → cols_typed K self → cols_typed K self'.
Proof.
  unfold expire_at. intros He Hc. do 2 apply bind_Some in He as ([] & _ & He).
  apply bind_Some in He as (self1 & H1 & He). apply bind_Some in He as ([self2 sink2] & H2 & He).
  injection He as <- _.
  assert (cols_typed K self1) as Hc1.
  { apply (for_each_partial (cols_typed K) _ _ _ _ H1); [|done]. clear.
    intros st x st' Hc He. apply bind_Some in He as (d & _ & He). destruct d; peel He;
      injection He as <-; by eapply same_cols_typed; [|exact Hc]. }
  assert (cols_typed K self2) as Hc2; [|by eapply same_cols_typed; [|exact Hc2]].
  apply (for_each_partial (λ st, cols_typed K st.1) _ _ _ _ H2);
    [|simpl; by eapply same_cols_typed; [|exact Hc1]]. clear.
  intros [self sink] s [self' sink'] Hc He. simpl in *.
  apply bind_Some in He as (a & _ & He). destruct a; simpl in He; [|by injection He as <- _].
  apply bind_Some in He as (r & _ & He). destruct (_ || _); [by injection He as <- _|].
  do 3 apply bind_Some in He as (? & _ & He). destruct (_ <? _); [|by injection He as <- _].
  apply bind_Some in He as (sk & _ & He). apply bind_Some in He as (self3 & Hf & He).
  injection He as <- _. by eapply free_cell_at_typed.
Qed.

Lemma intern_rule_typed K self d self' r :
  intern_rule self d = Some (self', r) → cols_typed K self → cols_typed K self'.
Proof.
  unfold intern_rule. intros He Hc. apply bind_Some in He as (k & _ & He).
  apply bind_Some in He as ([dict [s|]] & _ & He);
    [|injection He as <- _; by eapply same_cols_typed; [|exact Hc]].
  destruct k; [|apply bind_Some in He as (d2 & _ & He)]; injection He as <- _;
    by eapply same_cols_typed; [|exact Hc].
Qed.

Lemma new_typed config id self : new config id = Some self → cols_typed (peer_capacity config) self.
Proof.
  unfold new. intros He. peel He; injection He as <-;
  split; simpl; try done; apply Forall_replicate; unfold uint; lia.
Qed.

Lemma frame_typed {C : Count} K self A Mr Mn pins V max_cells self' out v :
  frame_post self A Mr Mn pins V max_cells self' out v → cols_typed K self → cols_typed K self'.
Proof.
  intros Hp. apply same_cols_typed. split; [by rewrite (fp_frontiers _ _ _ _ _ _ _ _ _ _ Hp)|].
  split; [|split]; apply Hp.
Qed.
