(* ===== verification/View.v ===== *)
(** * The cell store as a bounded abstract machine

    What a [CellStore] is to its callers: a finite map of counts together with
    the rules and the origins it knows, all three bounded by the capacities of
    [CellStoreConfig].  Every operation is a function on that view, which says
    exactly when a row is applied (its cell is held, or there is room for it and
    for what it names) and which rules and origins are forgotten when the last
    cell that names them goes.  [views] relates a store to its view; the lemmas
    show that every mutating method of [crates/gabion/src/crdt.rs] keeps it. *)

From S2P Require Import Prelude Types Hash Index Freelist Dictionary DirtyRing PeerFrontier IO CellStore CellSlots CellInv CellOps CellMerge CellExpire GossipFrame.
Import CellStore.

#[export] Instance NodeIdentity_eq_dec : EqDecision NodeIdentity.
Proof. solve_decision. Defined.
#[export] Instance NodeIdentity_countable : Countable NodeIdentity.
Proof.
  apply (inj_countable' (λ n, (node_id n, ni_incarnation n))
    (λ '(i, n), {| node_id := i; ni_incarnation := n |})).
  by intros [].
Defined.

Record View := {
  vw_cells : gmap CellName Z;
  vw_rules : gmap Z RuleDescriptor;
  vw_pinned : gset Z;
  vw_nodes : gset NodeIdentity;
}.
#[export] Instance eta_View : Eta View := λ x, {|
  vw_cells := vw_cells x; vw_rules := vw_rules x; vw_pinned := vw_pinned x; vw_nodes := vw_nodes x |}.

Definition cell_node (n : CellName) : NodeIdentity :=
  {| node_id := cn_node n; ni_incarnation := cn_incarnation n |}.

(** Some cell of [V] is named by the rule, by the origin. *)
Definition uses_rule (V : gmap CellName Z) (fp : Z) : Prop := map_Exists (λ n _, cn_fingerprint n = fp) V.
Definition uses_node (V : gmap CellName Z) (id : NodeIdentity) : Prop := map_Exists (λ n _, cell_node n = id) V.
#[export] Instance uses_rule_dec V fp : Decision (uses_rule V fp).
Proof. unfold uses_rule. apply _. Defined.
#[export] Instance uses_node_dec V id : Decision (uses_node V id).
Proof. unfold uses_node. apply _. Defined.

(** ** The machine *)
Section machine.
Context `{C : Count} (config : CellStoreConfig) (id : NodeIdentity).

Definition view_new : View := {| vw_cells := ∅; vw_rules := ∅; vw_pinned := ∅; vw_nodes := {[ id ]} |}.

(** A rule named on the wire is known, or is taken in while there is room. *)
Definition find_or_add_rule (W : View) (fp : Z) : option View :=
  match vw_rules W !! fp with
  | Some _ => Some W
  | None =>
    if Z.of_nat (size (vw_rules W)) <? rule_dictionary_capacity config
    then Some (W <| vw_rules := <[fp := wire_only_descriptor fp]> (vw_rules W) |>) else None
  end.

Definition find_or_add_node (W : View) (n : NodeIdentity) : option View :=
  if decide (n ∈ vw_nodes W) then Some W else
  if Z.of_nat (size (vw_nodes W)) <? node_dictionary_capacity config
  then Some (W <| vw_nodes := {[ n ]} ∪ vw_nodes W |>) else None.

(** A cell that is held is updated; a new one needs room. *)
Definition put (mode : UpsertMode) (n : CellName) (W : View) : View :=
  if bool_decide (is_Some (vw_cells W !! n)) || (Z.of_nat (size (vw_cells W)) <? cell_capacity config)
  then W <| vw_cells := raise mode n (vw_cells W) |> else W.

Definition ingest_view (W : View) (o : Observation) : View :=
  match find_or_add_rule W (o_rule_fingerprint o) with
  | None => W
  | Some W => put (Accumulate (o_count o)) (local_name id o) W
  end.

(** A rule that was taken in stays when the origin is refused. *)
Definition merge_view (W : View) (o : Observation) : View :=
  match find_or_add_rule W (o_rule_fingerprint o) with
  | None => W
  | Some W =>
    match find_or_add_node W (cell_node (remote_name o)) with
    | None => W
    | Some W => put (MaxMerge (o_count o)) (remote_name o) W
    end
  end.

(** Only [V'] is left of the cells: a rule or origin goes with its last cell,
    unless it is pinned. *)
Definition release (W : View) (V' : gmap CellName Z) : View := {|
  vw_cells := V';
  vw_rules := filter (λ p, p.1 ∈ vw_pinned W ∨ uses_rule V' p.1 ∨ ¬ uses_rule (vw_cells W) p.1) (vw_rules W);
  vw_pinned := vw_pinned W;
  vw_nodes := filter (λ n, n = id ∨ uses_node V' n ∨ ¬ uses_node (vw_cells W) n) (vw_nodes W) |}.

(** The cell's bucket is inside its rule's live window. *)
Definition live_at (W : View) (now : Z) (n : CellName) : bool :=
  match vw_rules W !! cn_fingerprint n with
  | Some d => negb (cn_bucket n + live_buckets d <? current_epoch d now)
  | None => true
  end.
Definition expire_at_view (W : View) (now : Z) : View :=
  release W (filter (λ p, live_at W now p.1 = true) (vw_cells W)).

(** [expire] is given its windows per rule slot; [names] are the slots the
    store reports for the fingerprints. *)
Definition aged_in (names : Z → option Z) (cur live : list Z) (n : CellName) : bool :=
  match names (cn_fingerprint n) with
  | Some r => match zget cur r, zget live r with Some c, Some l => cn_bucket n + l <? c | _, _ => false end
  | None => false
  end.
Definition expire_view (names : Z → option Z) (cur live : list Z) (W : View) : View :=
  release W (filter (λ p, aged_in names cur live p.1 = false) (vw_cells W)).

Definition clear_view (W : View) : View := release W ∅.

(** A configured rule replaces what is known of it; a new one is pinned. *)
Definition intern_rule_view (W : View) (d : RuleDescriptor) : View :=
  match vw_rules W !! fingerprint d with
  | Some _ => W <| vw_rules := <[fingerprint d := d]> (vw_rules W) |>
  | None =>
    if Z.of_nat (size (vw_rules W)) <? rule_dictionary_capacity config
    then W <| vw_rules := <[fingerprint d := d]> (vw_rules W) |> <| vw_pinned := {[ fingerprint d ]} ∪ vw_pinned W |>
    else W
  end.
Definition intern_node_view (W : View) (n : NodeIdentity) : View := default W (find_or_add_node W n).

(** ** The relation *)
Record view_at (self : t) A Mr Mn pins (W : View) : Prop := {
  va_inv : inv_at self A Mr Mn pins (vw_cells W);
  va_rules fp d : vw_rules W !! fp = Some d ↔ fingerprint d = fp ∧ ∃ r, Mr !! r = Some d;
  va_pinned fp : fp ∈ vw_pinned W ↔ ∃ r d, r ∈ pins ∧ Mr !! r = Some d ∧ fingerprint d = fp;
  va_nodes n : n ∈ vw_nodes W ↔ ∃ o, Mn !! o = Some n;
}.

Record configured (self : t) : Prop := {
  cf_cells : capacity self = cell_capacity config;
  cf_rules : Dict.capacity (rule_dictionary self) = rule_dictionary_capacity config;
  cf_nodes : Dict.capacity (node_dictionary self) = node_dictionary_capacity config;
  cf_peers : PeerFrontierTable.peer_capacity (peer_frontiers self) = peer_capacity config;
  cf_id : local_identity self = id;
}.

Definition views (self : t) (W : View) : Prop :=
  configured self ∧ ∃ A Mr Mn pins, view_at self A Mr Mn pins W.
End machine.

(** ** Sizes: the view is as full as the store *)

(** A relation that sends distinct keys of [m1] to distinct keys of [m2]. *)
Lemma size_le_rel {K1 K2 A B} `{Countable K1, Countable K2} (R : K1 → K2 → Prop) (m1 : gmap K1 A) :
  ∀ m2 : gmap K2 B,
  (∀ k, is_Some (m1 !! k) → ∃ k', is_Some (m2 !! k') ∧ R k k') →
  (∀ k1 k2 k', is_Some (m1 !! k1) → is_Some (m1 !! k2) → R k1 k' → R k2 k' → k1 = k2) →
  (size m1 ≤ size m2)%nat.
Proof.
  induction m1 as [|k x m1 Hk IH] using map_ind; intros m2 Htot Hinj; [rewrite map_size_empty; lia|].
  destruct (Htot k) as (k' & [y Hy] & HR); [by rewrite lookup_insert_eq|].
  rewrite map_size_insert_None by done. rewrite <- (insert_delete_id m2 k' y) by done.
  rewrite map_size_insert_None by apply lookup_delete_eq. apply le_n_S, IH.
  - intros k1 Hk1. assert (k1 ≠ k) by (intros ->; by rewrite Hk in Hk1; destruct Hk1).
    destruct (Htot k1) as (k1' & Hk1' & HR1); [by rewrite lookup_insert_ne|].
    exists k1'. split; [|done]. rewrite lookup_delete_ne; [done|]. intros <-. destruct (Hinj k k1 k'); try done.
    + by rewrite lookup_insert_eq.
    + by rewrite lookup_insert_ne.
  - intros k1 k2 k3 H1 H2. apply Hinj; apply lookup_insert_is_Some'; by right.
Qed.

Lemma refs_exists f A r : 0 < refs f A r → ∃ s k, A !! s = Some k ∧ f k = r.
Proof.
  unfold refs. intros Hpos. destruct (map_choose (filter (λ p, f p.2 = r) A)) as (s & k & Hk).
  { intros Hz. rewrite Hz, map_size_empty in Hpos. lia. }
  apply map_lookup_filter_Some in Hk as [Hk Hf]. by exists s, k.
Qed.

Section sizes.
Context {C : Count} (self : t) A Mr Mn pins (W : View) (Hv : view_at self A Mr Mn pins W).

Lemma size_cells : Z.of_nat (size (vw_cells W)) = active_len self.
Proof using Hv.
  pose proof (va_inv _ _ _ _ _ _ Hv) as Hi. pose proof Hi as [Hsl Hrows Hd _ _ HV].
  rewrite (si_active _ _ Hsl), size_dom. f_equal. apply Nat.le_antisymm.
  - apply (size_le_rel (λ n s, ∃ c, cell_at self A Mr Mn s n c)).
    + intros n [c Hc]. pose proof Hc as (s & Hs)%HV. exists s. split; [|by exists c].
      destruct Hs as (k & ? & ? & Hk & _). eauto.
    + intros n1 n2 s _ _ (c1 & k1 & dr1 & dn1 & Hk1 & Hr1 & Hn1 & -> & _) (c2 & k2 & dr2 & dn2 & Hk2 & Hr2 & Hn2 & -> & _).
      by simplify_eq.
  - apply (size_le_rel (λ s n, ∃ c, cell_at self A Mr Mn s n c)).
    + intros s [k Hk]. destruct (cell_descriptors _ _ _ _ _ _ Hi s k Hk) as (dr & dn & c & Hdr & Hdn & Hc & HVn).
      exists (name_of dr dn k). split; [by eexists|]. exists c, k, dr, dn. done.
    + intros s1 s2 n _ _ (c1 & H1) (c2 & H2). by eapply (cell_at_name self A Mr Mn pins).
Qed.

Lemma size_rules : size (vw_rules W) = size Mr.
Proof using Hv.
  pose proof (ti_rules _ _ _ _ _ (iv_dicts _ _ _ _ _ _ (va_inv _ _ _ _ _ _ Hv))) as Hd. apply Nat.le_antisymm.
  - apply (size_le_rel (λ fp r, ∃ d, fingerprint d = fp ∧ Mr !! r = Some d)).
    + intros fp [d [Hf [r Hr]]%(va_rules _ _ _ _ _ _ Hv)]. exists r. split; [by eexists|by exists d].
    + intros fp1 fp2 r _ _ (d1 & <- & ?) (d2 & <- & ?). congruence.
  - apply (size_le_rel (λ r fp, ∃ d, fingerprint d = fp ∧ Mr !! r = Some d)).
    + intros r [d Hr]. exists (fingerprint d). split; [|by exists d]. exists d. apply (va_rules _ _ _ _ _ _ Hv). eauto.
    + intros r1 r2 fp _ _ (d1 & Hf & ?) (d2 & <- & ?). by eapply (di_keys _ _ _ _ Hd).
Qed.

Lemma size_nodes : size (vw_nodes W) = size Mn.
Proof using Hv.
  pose proof (ti_nodes _ _ _ _ _ (iv_dicts _ _ _ _ _ _ (va_inv _ _ _ _ _ _ Hv))) as Hd.
  rewrite <- (dom_gset_to_gmap (vw_nodes W) tt), size_dom.
  assert (∀ n, is_Some (gset_to_gmap tt (vw_nodes W) !! n) ↔ ∃ o, Mn !! o = Some n) as Hdom.
  { intros n. rewrite <- (va_nodes _ _ _ _ _ _ Hv). rewrite <- elem_of_dom, dom_gset_to_gmap. done. }
  apply Nat.le_antisymm.
  - apply (size_le_rel (λ n o, Mn !! o = Some n)).
    + intros n [o Ho]%Hdom. exists o. split; [by eexists|done].
    + intros n1 n2 o _ _ ??. congruence.
  - apply (size_le_rel (λ o n, Mn !! o = Some n)).
    + intros o [n Hn]. exists n. split; [apply Hdom; by exists o|done].
    + intros o1 o2 n _ _ H1 H2. by eapply (di_keys _ _ _ _ Hd).
Qed.

Lemma cells_bound : Z.of_nat (size (vw_cells W)) ≤ capacity self.
Proof using Hv.
  pose proof (va_inv _ _ _ _ _ _ Hv) as Hi. rewrite size_cells, (si_active _ _ (iv_slots _ _ _ _ _ _ Hi)), size_dom.
  apply size_le_range; [pose proof (si_cap _ _ (iv_slots _ _ _ _ _ _ Hi)); lia|]. apply (inv_range _ _ _ _ _ _ Hi).
Qed.
End sizes.

(** Cells name the rules and origins they refer to. *)
Lemma uses_rule_refs {C : Count} self A Mr Mn pins V (M : gmap Z RuleDescriptor) r d :
  inv_at self A Mr Mn pins V → Mr ⊆ M → (∀ s s' e e', M !! s = Some e → M !! s' = Some e' → fingerprint e = fingerprint e' → s = s') →
  M !! r = Some d → uses_rule V (fingerprint d) ↔ 0 < refs ck_rule A r.
Proof.
  intros Hi Hsub Hk Hd. split.
  - intros (n & c & Hn & Hf). apply (iv_contents _ _ _ _ _ _ Hi) in Hn as (s & k & dr & dn & HA & Hdr & _ & -> & _).
    apply (refs_pos ck_rule A s k); [done|]. simpl in Hf. apply (Hk _ _ dr d); [by eapply lookup_weaken|done..].
  - intros (s & k & HA & <-)%refs_exists. destruct (cell_descriptors _ _ _ _ _ _ Hi s k HA) as (dr & dn & c & Hdr & Hdn & Hc & HV).
    exists (name_of dr dn k), c. split; [done|]. simpl. pose proof (lookup_weaken _ _ _ _ Hdr Hsub). congruence.
Qed.

Lemma uses_node_refs {C : Count} self A Mr Mn pins V (M : gmap Z NodeDescriptor) o n :
  inv_at self A Mr Mn pins V → Mn ⊆ M → (∀ s s' e e', M !! s = Some e → M !! s' = Some e' → node_key e = node_key e' → s = s') →
  M !! o = Some n → uses_node V n ↔ 0 < refs ck_origin A o.
Proof.
  intros Hi Hsub Hk Hd. split.
  - intros (m & c & Hn & Hf). apply (iv_contents _ _ _ _ _ _ Hi) in Hn as (s & k & dr & dn & HA & _ & Hdn & -> & _).
    apply (refs_pos ck_origin A s k); [done|]. apply (Hk _ _ dn n); [by eapply lookup_weaken|done|].
    rewrite <- Hf. by destruct dn.
  - intros (s & k & HA & <-)%refs_exists. destruct (cell_descriptors _ _ _ _ _ _ Hi s k HA) as (dr & dn & c & Hdr & Hdn & Hc & HV).
    exists (name_of dr dn k), c. split; [done|]. pose proof (lookup_weaken _ _ _ _ Hdn Hsub).
    assert (dn = n) as <- by congruence. by destruct dn.
Qed.

(** ** The store implements the machine *)
Section refine.
Context {C : Count} {CL : CountLaws C} (config : CellStoreConfig) (id : NodeIdentity).
Abbreviation configured := (configured config id).
Abbreviation views := (views config id).

Lemma configured_stable self self' : configured self → stable self self' → configured self'.
Proof using. intros [] []. split; congruence. Qed.

Lemma views_inv self W : views self W → inv self (vw_cells W).
Proof using. intros (_ & A & Mr & Mn & pins & Hv). exists A, Mr, Mn, pins. apply Hv. Qed.

(** Operations that leave cells and dictionaries alone. *)
Lemma views_same self self' W :
  views self W → stable self self' →
  (∀ A Mr Mn pins, inv_at self A Mr Mn pins (vw_cells W) → inv_at self' A Mr Mn pins (vw_cells W)) → views self' W.
Proof using.
  intros (Hc & A & Mr & Mn & pins & Hv) Hst Hk. split; [by eapply configured_stable|].
  exists A, Mr, Mn, pins. destruct Hv. split; eauto.
Qed.

(** A fingerprint that no slot holds is not in the view. *)
Lemma rule_unknown self A Mr Mn pins W fp :
  view_at self A Mr Mn pins W → (∀ s d, Mr !! s = Some d → fingerprint d ≠ fp) → vw_rules W !! fp = None.
Proof using.
  intros Hv Hn. destruct (vw_rules W !! fp) as [d|] eqn:E; [|done].
  apply (va_rules _ _ _ _ _ _ Hv) in E as (Hf & r & Hr). by destruct (Hn r d Hr).
Qed.

(** Taking a slot for a descriptor with a new fingerprint. *)
Lemma view_add_rule self self' A Mr Mn pins W d slot (pin : bool) :
  view_at self A Mr Mn pins W → Mr !! slot = None → (∀ s d', Mr !! s = Some d' → fingerprint d' ≠ fingerprint d) →
  inv_at self' A (<[slot := d]> Mr) Mn (if pin then {[ slot ]} ∪ pins else pins) (vw_cells W) →
  view_at self' A (<[slot := d]> Mr) Mn (if pin then {[ slot ]} ∪ pins else pins)
    (W <| vw_rules := <[fingerprint d := d]> (vw_rules W) |>
       <| vw_pinned := if pin then {[ fingerprint d ]} ∪ vw_pinned W else vw_pinned W |>).
Proof using.
  intros Hv Hs Hnew Hi. pose proof (rule_unknown _ _ _ _ _ _ (fingerprint d) Hv Hnew) as Hu.
  assert (slot ∉ pins) as Hsp.
  { intros Hp. apply (ti_pins _ _ _ _ _ (iv_dicts _ _ _ _ _ _ (va_inv _ _ _ _ _ _ Hv))) in Hp as [? ?]. congruence. }
  destruct Hv as [Hinv Hr Hp Hn]. split; cbn [vw_cells vw_rules vw_pinned vw_nodes set_field]; [done| | |done].
  - intros fp e. rewrite lookup_insert_Some, Hr. split.
    + intros [[<- <-]|(Hne & Hf & r & He)]; [split; [done|]; exists slot; by rewrite lookup_insert_eq|].
      split; [done|]. exists r. rewrite lookup_insert_ne; [done|congruence].
    + intros (Hf & r & [[_ <-]|[? He]]%lookup_insert_Some); [by left|]. right.
      split; [rewrite <- Hf; intros ?; by destruct (Hnew r e He)|]. eauto.
  - intros fp. assert ((∃ r e, r ∈ pins ∧ <[slot:=d]> Mr !! r = Some e ∧ fingerprint e = fp) ↔ fp ∈ vw_pinned W) as Hold.
    { rewrite Hp. split; intros (r & e & Hin & He & Hf); exists r, e; split_and!; try done.
      - rewrite lookup_insert_ne in He; [done|by intros <-].
      - rewrite lookup_insert_ne; [done|by intros <-]. }
    destruct pin; [|done]. rewrite elem_of_union, <- Hold, elem_of_singleton. split.
    + intros [->|(r & e & Hin & He & Hf)].
      * exists slot, d. rewrite lookup_insert_eq. split_and!; try done. by apply elem_of_union_l, elem_of_singleton.
      * exists r, e. split_and!; try done. by apply elem_of_union_r.
    + intros (r & e & [->%elem_of_singleton|Hin]%elem_of_union & He & Hf).
      * rewrite lookup_insert_eq in He. left. congruence.
      * right. by exists r, e.
Qed.

Lemma find_or_add_rule_ok self self' A Mr Mr' Mn pins W fp r :
  configured self → view_at self A Mr Mn pins W → inv_at self' A Mr' Mn pins (vw_cells W) →
  interned fingerprint (Dict.capacity (rule_dictionary self)) Mr Mr' (wire_only_descriptor fp) r →
  ∃ W', find_or_add_rule config W fp = match r with Some _ => Some W' | None => None end ∧
    view_at self' A Mr' Mn pins W' ∧ vw_cells W' = vw_cells W ∧ (r = None → W' = W).
Proof using.
  intros Hcf Hv Hi Hint. pose proof (size_rules _ _ _ _ _ _ Hv) as Hsz. unfold find_or_add_rule.
  rewrite Hsz. rewrite (cf_rules _ _ _ Hcf) in Hint. destruct r as [slot|]; cbn [interned] in Hint.
  - destruct Hint as [[-> (d0 & Hd0 & Hf)]|(-> & Hs & Hnew & Hroom)].
    + exists W. assert (vw_rules W !! fp = Some d0) as -> by (apply (va_rules _ _ _ _ _ _ Hv); eauto).
      split; [done|]. split; [|done]. destruct Hv. by split.
    + rewrite (rule_unknown _ _ _ _ _ _ fp Hv Hnew). rewrite (proj2 (Z.ltb_lt _ _) Hroom).
      eexists. split; [done|]. split; [|done].
      pose proof (view_add_rule self self' A Mr Mn pins W (wire_only_descriptor fp) slot false Hv Hs Hnew Hi) as Hv'.
      by destruct W.
  - destruct Hint as (-> & Hnew & Hfull). exists W. rewrite (rule_unknown _ _ _ _ _ _ fp Hv Hnew).
    rewrite (proj2 (Z.ltb_ge _ _)) by lia. split; [done|]. split; [|done]. destruct Hv. by split.
Qed.

Lemma find_or_add_node_ok self self' A Mr Mn Mn' pins W n r :
  Dict.capacity (node_dictionary self) = node_dictionary_capacity config →
  view_at self A Mr Mn pins W → inv_at self' A Mr Mn' pins (vw_cells W) →
  interned node_key (Dict.capacity (node_dictionary self)) Mn Mn' n r →
  ∃ W', find_or_add_node config W n = match r with Some _ => Some W' | None => None end ∧
    view_at self' A Mr Mn' pins W' ∧ vw_cells W' = vw_cells W ∧ (r = None → W' = W).
Proof using.
  intros Hcf Hv Hi Hint. pose proof (size_nodes _ _ _ _ _ _ Hv) as Hsz. unfold find_or_add_node.
  rewrite Hsz. rewrite Hcf in Hint.
  assert ((∀ s d', Mn !! s = Some d' → node_key d' ≠ node_key n) → n ∉ vw_nodes W) as Habs.
  { intros Hnew (o & Ho)%(va_nodes _ _ _ _ _ _ Hv). by destruct (Hnew o n Ho). }
  destruct r as [slot|]; cbn [interned] in Hint.
  - destruct Hint as [[-> (d0 & Hd0 & Hf)]|(-> & Hs & Hnew & Hroom)].
    + exists W. unfold node_key in Hf. subst d0. rewrite decide_True by (apply (va_nodes _ _ _ _ _ _ Hv); by exists slot).
      split; [done|]. split; [|done]. destruct Hv. by split.
    + rewrite decide_False by auto. rewrite (proj2 (Z.ltb_lt _ _) Hroom).
      eexists. split; [done|]. split; [|done]. destruct Hv as [Hinv Hr Hp Hn].
      split; cbn [vw_cells vw_rules vw_pinned vw_nodes set_field]; [done|done|done|].
      intros m. rewrite elem_of_union, elem_of_singleton, Hn. split.
      * intros [->|(o & Ho)]; [exists slot; by rewrite lookup_insert_eq|].
        exists o. rewrite lookup_insert_ne; [done|congruence].
      * intros (o & [[_ <-]|[_ Ho]]%lookup_insert_Some); [by left|right; by exists o].
  - destruct Hint as (-> & Hnew & Hfull). exists W. rewrite decide_False by auto.
    rewrite (proj2 (Z.ltb_ge _ _)) by lia. split; [done|]. split; [|done]. destruct Hv. by split.
Qed.

(** [upsert] at translated slots is [put]. *)
Lemma put_ok self A Mr Mn pins W spec dr dn rows :
  configured self → view_at self A Mr Mn pins W →
  Mr !! us_rule_slot spec = Some dr → Mn !! us_origin_slot spec = Some dn →
  ni_incarnation dn = us_incarnation spec → mode_ok (us_mode spec) →
  ∃ self' outcome rows', upsert self spec (DeltaSink.of_rows rows) =
      Some (self', DeltaSink.of_rows (rows ++ rows'), outcome) ∧
    views self' (put config (us_mode spec) (spec_name dr dn spec) W).
Proof using CL.
  intros Hcf Hv Hdr Hdn Hinc Hm. pose proof (va_inv _ _ _ _ _ _ Hv) as Hi.
  destruct (upsert_ok self A Mr Mn pins _ Hi spec dr dn Hdr Hdn Hinc Hm rows)
    as (self' & A' & outcome & rows' & He & Hst & _ & Hcase).
  exists self', outcome, rows'. split; [done|]. pose proof (configured_stable _ _ Hcf Hst) as Hcf'. split; [done|].
  unfold put. set (n := spec_name dr dn spec) in *.
  destruct Hcase as [(h & o & _ & Hi' & _)|(_ & Hold & Hfull & -> & _ & Hi' & _)].
  - assert (view_at self' A' Mr Mn pins (W <| vw_cells := raise (us_mode spec) n (vw_cells W) |>)) as Hv'
      by (destruct Hv; by split).
    exists A', Mr, Mn, pins. destruct (bool_decide _) eqn:Ek; [done|]. apply bool_decide_eq_false in Ek.
    assert (vw_cells W !! n = None) as Hnone by (by destruct (vw_cells W !! n); [destruct Ek; eauto|]).
    pose proof (cells_bound _ _ _ _ _ _ Hv') as Hb. cbn [vw_cells set_field] in Hb. unfold raise in Hb.
    rewrite map_size_insert_None in Hb by done. rewrite (cf_cells _ _ _ Hcf') in Hb.
    cbn [orb]. rewrite (proj2 (Z.ltb_lt _ _)) by lia. done.
  - exists A, Mr, Mn, pins. rewrite Hold, bool_decide_false by (by intros [? ?]). cbn [orb].
    rewrite (size_cells _ _ _ _ _ _ Hv), Hfull, (cf_cells _ _ _ Hcf), Z.ltb_irrefl. destruct Hv. by split.
Qed.

(** ** Rows and batches *)
Section row.
Context (obs : list Observation) (i : Z) (o : Observation).
Context (Hi : zget obs i = Some o) (Ho : obs_ok o).
Context (self : t) (W : View) (Hv : views self W) (rows : list CellDelta).

Lemma ingest_row_view :
  ∃ self' ds, ingest_row (ObservationBatch.of_rows obs) (self, DeltaSink.of_rows rows) i =
      Some (self', DeltaSink.of_rows (rows ++ ds)) ∧ views self' (ingest_view config id W o).
Proof using CL Hi Ho Hv.
  destruct Hv as (Hcf & A & Mr & Mn & pins & Hva). unfold ingest_row. simpl. rewrite !zget_fmap, Hi. simpl.
  destruct (translate_rule_ok self A Mr Mn pins _ (va_inv _ _ _ _ _ _ Hva) (o_rule_fingerprint o))
    as (self1 & r & Mr1 & -> & Hst1 & Hi1 & _ & _ & _ & Hint & Hr). simpl.
  destruct (find_or_add_rule_ok _ _ _ _ _ _ _ _ _ _ Hcf Hva Hi1 Hint) as (W1 & Hf & Hv1 & Hc1 & Hsame).
  pose proof (configured_stable _ _ Hcf Hst1) as Hcf1. unfold ingest_view. rewrite Hf. destruct r as [slot|].
  - destruct Hr as (dr & Hdr & Hfp). simpl.
    match goal with |- context [upsert self1 ?x _] => set (spec := x) end.
    destruct (put_ok self1 A Mr1 Mn pins W1 spec dr (local_identity self1) rows) as (self' & out & ds & -> & Hp); try done.
    { apply (ti_local _ _ _ _ _ (iv_dicts _ _ _ _ _ _ (va_inv _ _ _ _ _ _ Hv1))). }
    { unfold obs_ok in Ho. pose proof (count_MAX_bounds (CountLaws := CL)). simpl. lia. }
    exists self', ds. split; [done|].
    replace (local_name id o) with (spec_name dr (local_identity self1) spec); [done|].
    unfold spec_name, name_of, local_name. simpl. by rewrite Hfp, (cf_id _ _ _ Hcf1).
  - destruct Hr as (-> & _). exists (note_rule_dictionary_full self), []. rewrite app_nil_r. split; [done|].
    split; [done|]. exists A, Mr1, Mn, pins. by rewrite <- Hsame.
Qed.

Lemma merge_row_view :
  ∃ self' ds, merge_row (ObservationBatch.of_rows obs) (self, DeltaSink.of_rows rows) i =
      Some (self', DeltaSink.of_rows (rows ++ ds)) ∧ views self' (merge_view config W o).
Proof using CL Hi Ho Hv.
  destruct Hv as (Hcf & A & Mr & Mn & pins & Hva). unfold merge_row. simpl. rewrite !zget_fmap, Hi. simpl. unfold translate_identity.
  destruct (translate_rule_ok self A Mr Mn pins _ (va_inv _ _ _ _ _ _ Hva) (o_rule_fingerprint o))
    as (self1 & r & Mr1 & -> & Hst1 & Hi1 & _ & _ & _ & Hint & Hr). simpl.
  destruct (find_or_add_rule_ok _ _ _ _ _ _ _ _ _ _ Hcf Hva Hi1 Hint) as (W1 & Hf & Hv1 & Hc1 & Hsame).
  pose proof (configured_stable _ _ Hcf Hst1) as Hcf1. unfold merge_view. rewrite Hf. destruct r as [slot|].
  2:{ destruct Hr as (-> & _). exists (note_rule_dictionary_full self), []. rewrite app_nil_r. split; [done|].
      split; [done|]. exists A, Mr1, Mn, pins. by rewrite <- Hsame. }
  destruct Hr as (dr & Hdr & Hfp).
  destruct (translate_node_ok self1 A Mr1 Mn pins _ (va_inv _ _ _ _ _ _ Hv1) (o_origin o) (o_incarnation o))
    as (self2 & r2 & Mn2 & -> & Hst2 & Hi2 & _ & _ & _ & Hint2 & Hr2). simpl.
  destruct (find_or_add_node_ok _ _ _ _ _ _ _ _ _ _ (cf_nodes _ _ _ Hcf1) Hv1 Hi2 Hint2) as (W2 & Hf2 & Hv2 & Hc2 & Hsame2).
  unfold cell_node. cbn [remote_name cn_node cn_incarnation]. rewrite Hf2.
  pose proof (configured_stable _ _ Hcf1 Hst2) as Hcf2. destruct r2 as [nslot|]; simpl.
  - match goal with |- context [upsert self2 ?x _] => set (spec := x) end.
    destruct (put_ok self2 A Mr1 Mn2 pins W2 spec dr {| node_id := o_origin o; ni_incarnation := o_incarnation o |} rows)
      as (self' & out & ds & -> & Hp); try done.
    exists self', ds. split; [done|].
    replace (remote_name o) with (spec_name dr {| node_id := o_origin o; ni_incarnation := o_incarnation o |} spec); [done|].
    unfold spec_name, name_of, remote_name. simpl. by rewrite Hfp.
  - destruct Hr2 as (-> & _). exists (note_node_dictionary_full self1), []. rewrite app_nil_r. split; [done|].
    split; [done|]. exists A, Mr1, Mn2, pins. by rewrite <- Hsame2.
Qed.
End row.

Lemma batch_view (row : View → Observation → View) body obs self W rows :
  (∀ i o self W rows, zget obs i = Some o → views self W →
     ∃ self' ds, body (self, DeltaSink.of_rows rows) i = Some (self', DeltaSink.of_rows (rows ++ ds)) ∧
       views self' (row W o)) →
  views self W →
  ∃ self' ds, for_each (zrange 0 (zlen obs)) (self, DeltaSink.of_rows rows) body =
      Some (self', DeltaSink.of_rows (rows ++ ds)) ∧ views self' (foldl row W obs).
Proof using.
  intros Hbody Hv. destruct (for_each_index obs (self, DeltaSink.of_rows rows) body
    (λ pre st, ∃ self' ds, st = (self', DeltaSink.of_rows (rows ++ ds)) ∧ views self' (foldl row W pre)))
    as (st & Hst & self' & ds & -> & ?).
  - exists self, []. by rewrite app_nil_r.
  - intros pre o suf st Hobs (self1 & ds & -> & Hv1).
    assert (zget obs (zlen pre) = Some o) as Ho.
    { rewrite Hobs. unfold zlen. by rewrite zget_nat, list_lookup_middle. }
    destruct (Hbody (zlen pre) o self1 _ (rows ++ ds) Ho Hv1) as (self2 & ds2 & Hb & Hv2).
    eexists. split; [exact Hb|]. exists self2, (ds ++ ds2). by rewrite app_assoc, foldl_app.
  - rewrite Hst. eauto.
Qed.

Lemma ingest_local_view self W obs rows :
  views self W → Forall obs_ok obs →
  ∃ self' ds, ingest_local self (ObservationBatch.of_rows obs) (DeltaSink.of_rows rows) =
      Some (self', DeltaSink.of_rows (rows ++ ds)) ∧ views self' (foldl (ingest_view config id) W obs).
Proof using CL.
  intros Hv Hobs. unfold ingest_local.
  rewrite ObservationBatch.assert_consistent_of_rows, ObservationBatch.obs_len_of_rows. simpl.
  apply batch_view; [|done]. intros i o self1 W1 rows1 Hi Hv1. apply ingest_row_view; [done| |done].
  rewrite Forall_forall in Hobs. by eapply Hobs, zget_elem_of.
Qed.

Lemma merge_remote_view self W obs rows :
  views self W → Forall obs_ok obs →
  ∃ self' ds, merge_remote self (ObservationBatch.of_rows obs) (DeltaSink.of_rows rows) =
      Some (self', DeltaSink.of_rows (rows ++ ds)) ∧ views self' (foldl (merge_view config) W obs).
Proof using CL.
  intros Hv Hobs. unfold merge_remote.
  rewrite ObservationBatch.assert_consistent_of_rows, ObservationBatch.obs_len_of_rows. simpl.
  apply batch_view; [|done]. intros i o self1 W1 rows1 Hi Hv1. apply merge_row_view; [done| |done].
  rewrite Forall_forall in Hobs. by eapply Hobs, zget_elem_of.
Qed.

(** ** Releasing cells *)
Lemma release_ok self self' A Mr Mn pins W A' Mr' Mn' V' :
  configured self → view_at self A Mr Mn pins W → swept_dicts self pins A Mr Mn A' Mr' Mn' →
  inv_at self' A' Mr' Mn' pins V' → view_at self' A' Mr' Mn' pins (release id W V').
Proof using.
  intros Hcf Hv [Hr Hn] Hi'. pose proof (va_inv _ _ _ _ _ _ Hv) as Hi. pose proof (iv_dicts _ _ _ _ _ _ Hi) as Hd.
  pose proof (di_keys _ _ _ _ (ti_rules _ _ _ _ _ Hd)) as Hkr. pose proof (di_keys _ _ _ _ (ti_nodes _ _ _ _ _ Hd)) as Hkn.
  assert (Mr' ⊆ Mr) as Hsr. { apply map_subseteq_spec. intros r d. rewrite Hr. by case_match. }
  assert (Mn' ⊆ Mn) as Hsn. { apply map_subseteq_spec. intros o d. rewrite Hn. by case_match. }
  pose proof (refs_nonneg ck_rule A') as Hp1. pose proof (refs_nonneg ck_origin A') as Hp2.
  pose proof (refs_nonneg ck_rule A) as Hp3. pose proof (refs_nonneg ck_origin A) as Hp4.
  assert (∀ r d, Mr !! r = Some d → r ∈ pins ↔ fingerprint d ∈ vw_pinned W) as Hpin.
  { intros r d Hrd. rewrite (va_pinned _ _ _ _ _ _ Hv). split; [intros; by exists r, d|].
    intros (r' & d' & Hin & Hd' & Hf). by rewrite <- (Hkr _ _ _ _ Hd' Hrd Hf). }
  assert (∀ r d, Mr !! r = Some d → released (r ∈ pins) (refs ck_rule A r) (refs ck_rule A' r) = false ↔
    fingerprint d ∈ vw_pinned W ∨ uses_rule V' (fingerprint d) ∨ ¬ uses_rule (vw_cells W) (fingerprint d)) as Hrel.
  { intros r d Hrd. rewrite (uses_rule_refs _ _ _ _ _ _ Mr r d Hi' Hsr Hkr Hrd),
      (uses_rule_refs _ _ _ _ _ _ Mr r d Hi ltac:(done) Hkr Hrd), <- (Hpin r d Hrd).
    unfold released. specialize (Hp1 r). specialize (Hp3 r). case_bool_decide; cbn [negb andb]; [tauto|].
    split; [intros ?; right; lia|intros [?|[?|?]]; [done|lia|lia]]. }
  assert (∀ o n, Mn !! o = Some n → released (o = local_node_slot self) (refs ck_origin A o) (refs ck_origin A' o) = false ↔
    n = id ∨ uses_node V' n ∨ ¬ uses_node (vw_cells W) n) as Hreln.
  { intros o n Hon. rewrite (uses_node_refs _ _ _ _ _ _ Mn o n Hi' Hsn Hkn Hon),
      (uses_node_refs _ _ _ _ _ _ Mn o n Hi ltac:(done) Hkn Hon).
    assert (o = local_node_slot self ↔ n = id) as Hloc.
    { pose proof (ti_local _ _ _ _ _ Hd) as Hl. rewrite (cf_id _ _ _ Hcf) in Hl. split; [intros ->; congruence|].
      intros ->. by eapply Hkn. }
    rewrite <- Hloc. unfold released. specialize (Hp2 o). specialize (Hp4 o). case_bool_decide; cbn [negb andb]; [tauto|].
    split; [intros ?; right; lia|intros [?|[?|?]]; [done|lia|lia]]. }
  split; cbn [release vw_cells vw_rules vw_pinned vw_nodes]; [done|..].
  - intros fp d. rewrite map_lookup_filter_Some, (va_rules _ _ _ _ _ _ Hv). cbn [fst]. split.
    + intros [(<- & r & Hrd) Hkeep]. split; [done|]. exists r. rewrite Hr, (proj2 (Hrel r d Hrd)); done.
    + intros (<- & r & Hrd). pose proof (lookup_weaken _ _ _ _ Hrd Hsr) as Hrd0. split; [by eauto|].
      apply (Hrel r d Hrd0). rewrite Hr in Hrd. by destruct (released _ _ _).
  - intros fp. rewrite (va_pinned _ _ _ _ _ _ Hv). split; intros (r & d & Hin & Hrd & Hf); exists r, d; split_and!; try done.
    + rewrite Hr. unfold released. by rewrite bool_decide_true.
    + by eapply lookup_weaken.
  - intros n. rewrite elem_of_filter, (va_nodes _ _ _ _ _ _ Hv). split.
    + intros [Hkeep (o & Ho)]. exists o. rewrite Hn, (proj2 (Hreln o n Ho)); done.
    + intros (o & Ho). pose proof (lookup_weaken _ _ _ _ Ho Hsn) as Ho0. split; [|by exists o].
      apply (Hreln o n Ho0). rewrite Hn in Ho. by destruct (released _ _ _).
Qed.

(** The descriptor the store reports for a cell's rule is the view's. *)
Lemma retained_view self A Mr Mn pins W now n c :
  view_at self A Mr Mn pins W → vw_cells W !! n = Some c → retained self now n = live_at W now n.
Proof using.
  intros Hv Hn. pose proof (va_inv _ _ _ _ _ _ Hv) as Hi.
  apply (iv_contents _ _ _ _ _ _ Hi) in Hn as (s & k & dr & dn & Hk & Hdr & _ & -> & _).
  unfold retained, live_at. cbn [name_of cn_fingerprint cn_bucket].
  rewrite (descriptor_of_ok _ _ _ _ _ _ _ _ _ Hi Hk Hdr).
  assert (vw_rules W !! fingerprint dr = Some dr) as -> by (apply (va_rules _ _ _ _ _ _ Hv); eauto). done.
Qed.

Lemma expire_at_view_ok self W now rows :
  views self W →
  ∃ self' es, expire_at self now (ExpirationSink.of_rows rows) =
      Some (self', ExpirationSink.of_rows (rows ++ es)) ∧ views self' (expire_at_view id W now).
Proof using CL.
  intros (Hcf & A & Mr & Mn & pins & Hv).
  destruct (expire_at_sweep None self A Mr Mn pins _ now rows (va_inv _ _ _ _ _ _ Hv) I)
    as (self' & A' & Mr' & Mn' & es & He & Hst & Hi & Hsw & _).
  exists self', es. split; [done|]. split; [by eapply configured_stable|]. exists A', Mr', Mn', pins.
  assert (filter (λ p, live_at W now p.1 = true) (vw_cells W) = filter (λ p, retained self now p.1 = true) (vw_cells W)) as Hf.
  { apply map_filter_ext. intros n c Hn. cbn [fst]. by rewrite (retained_view _ _ _ _ _ _ _ _ _ Hv Hn). }
  unfold expire_at_view. rewrite Hf. by eapply release_ok.
Qed.

Definition slot_of (self : t) (fp : Z) : option Z :=
  match find_rule self fp with Some (Some s) => Some s | _ => None end.

Lemma expire_view_ok self W cur live rows :
  views self W →
  ∃ self' es, expire self cur live (ExpirationSink.of_rows rows) =
      Some (self', ExpirationSink.of_rows (rows ++ es)) ∧ views self' (expire_view id (slot_of self) cur live W).
Proof using CL.
  intros (Hcf & A & Mr & Mn & pins & Hv). pose proof (va_inv _ _ _ _ _ _ Hv) as Hi.
  destruct (expire_ok None self A Mr Mn pins _ Hi I cur live rows) as (self' & A' & Mr' & Mn' & V' & es & He & Hsw & _).
  exists self', es. split; [done|]. split; [eapply configured_stable; [done|apply Hsw]|]. exists A', Mr', Mn', pins.
  unfold expire_view.
  pose proof (sweep_contents _ _ _ _ _ _ _ _ _ _ _ _ (λ n, negb (aged_in (slot_of self) cur live n)) Hi Hsw) as HV'.
  destruct Hsw as [Hi' Hst _ _ _ _ _ Hre Hne].
  assert (filter (λ p, aged_in (slot_of self) cur live p.1 = false) (vw_cells W) = V') as ->.
  { rewrite HV'.
    - apply map_filter_ext. intros n c _. cbn [fst]. by destruct (aged_in _ _ _ n).
    - intros s k dr dn Hk Hdr Hdn. f_equal. unfold aged_in, aged, slot_of, find_rule, RuleDictionary.find.
      cbn [name_of cn_fingerprint cn_bucket].
      by rewrite (dict_find_Some _ _ _ _ (ti_rules _ _ _ _ _ (iv_dicts _ _ _ _ _ _ Hi)) _ _ Hdr). }
  by eapply release_ok.
Qed.

Lemma clear_view_ok self W : views self W → ∃ self', clear self = Some self' ∧ views self' (clear_view id W).
Proof using CL.
  intros (Hcf & A & Mr & Mn & pins & Hv).
  destruct (clear_sweep self A Mr Mn pins _ (va_inv _ _ _ _ _ _ Hv)) as (self' & A' & Mr' & Mn' & He & Hst & Hi & Hsw).
  exists self'. split; [done|]. split; [by eapply configured_stable|]. exists A', Mr', Mn', pins. by eapply release_ok.
Qed.

(** ** Interning *)
Lemma intern_rule_view_ok self W d :
  views self W → ∃ self' r, intern_rule self d = Some (self', r) ∧ views self' (intern_rule_view config W d).
Proof using.
  intros (Hcf & A & Mr & Mn & pins & Hv).
  destruct (intern_rule_ok self A Mr Mn pins _ d (va_inv _ _ _ _ _ _ Hv)) as (self' & r & Mr' & pins' & He & Hst & Hi & _ & Hr).
  exists self', r. split; [done|]. split; [by eapply configured_stable|]. exists A, Mr', Mn, pins'. unfold intern_rule_view.
  pose proof (size_rules _ _ _ _ _ _ Hv) as Hsz. rewrite Hsz. rewrite <- (cf_rules _ _ _ Hcf). destruct r as [slot|].
  - destruct Hr as (-> & _ & -> & Hroom & Huniq & Hold). destruct (Mr !! slot) as [d0|] eqn:E.
    + assert (vw_rules W !! fingerprint d = Some d0) as -> by (apply (va_rules _ _ _ _ _ _ Hv); split; [by apply Hold|by exists slot]).
      destruct Hv as [Hinv Hru Hp Hn]. split; cbn [vw_cells vw_rules vw_pinned vw_nodes set_field]; [done| | |done].
      * intros fp e. rewrite lookup_insert_Some, Hru. split.
        -- intros [[<- <-]|(Hne & Hf & r & Hre)]; [split; [done|]; exists slot; by rewrite lookup_insert_eq|].
           split; [done|]. exists r. rewrite lookup_insert_ne; [done|]. intros <-.
           apply Hne. rewrite <- Hf. symmetry. by apply Hold; congruence.
        -- intros (Hf & r & [[_ <-]|[Hne Hre]]%lookup_insert_Some); [by left|]. right.
           split; [|by eauto]. intros Heq. destruct Hne. symmetry. by apply (Huniq r e); [|congruence].
      * intros fp. rewrite Hp. split; intros (r & e & Hin & Hre & Hf).
        -- destruct (decide (r = slot)) as [->|]; [exists slot, d|exists r, e]; (split; [done|]).
           ++ rewrite lookup_insert_eq. split; [done|]. rewrite <- Hf. symmetry. by apply Hold; congruence.
           ++ by rewrite lookup_insert_ne.
        -- destruct (decide (r = slot)) as [->|]; [exists slot, d0|exists r, e]; (split; [done|]).
           ++ rewrite lookup_insert_eq in Hre. split; [done|]. rewrite <- Hf. injection Hre as <-. by apply Hold.
           ++ by rewrite lookup_insert_ne in Hre.
    + assert (∀ s d', Mr !! s = Some d' → fingerprint d' ≠ fingerprint d) as Hnew.
      { intros s d' Hs Hf. pose proof (Huniq s d' Hs Hf) as ->. congruence. }
      rewrite (rule_unknown _ _ _ _ _ _ _ Hv Hnew). rewrite (proj2 (Z.ltb_lt _ _)) by auto.
      by apply (view_add_rule self self' A Mr Mn pins W d slot true).
  - destruct Hr as (-> & -> & Hfull & -> & Hnew). rewrite (rule_unknown _ _ _ _ _ _ _ Hv Hnew).
    rewrite (di_len _ _ _ _ (ti_rules _ _ _ _ _ (iv_dicts _ _ _ _ _ _ (va_inv _ _ _ _ _ _ Hv)))) in Hfull.
    rewrite (proj2 (Z.ltb_ge _ _)) by lia. destruct Hv. by split.
Qed.

Lemma intern_node_view_ok self W n inc :
  views self W →
  ∃ self' r, intern_node self n inc = Some (self', r) ∧
    views self' (intern_node_view config W {| node_id := n; ni_incarnation := inc |}).
Proof using.
  intros (Hcf & A & Mr & Mn & pins & Hv). pose proof (va_inv _ _ _ _ _ _ Hv) as Hi.
  destruct (translate_node_ok self A Mr Mn pins _ Hi n inc) as (self' & r & Mn' & He & Hst & Hi' & _ & _ & _ & Hint & Hr).
  destruct (find_or_add_node_ok _ _ _ _ _ _ _ _ _ _ (cf_nodes _ _ _ Hcf) Hv Hi' Hint) as (W' & Hf & Hv' & _ & Hsame).
  assert (intern_node self n inc = Some (self', r)) as ->.
  { unfold translate_node in He. unfold intern_node.
    destruct (NodeDictionary.find (node_dictionary self) n inc) as [[s|]|] eqn:Ef; [|..|done].
    - cbn in He. injection He as <- <-. unfold NodeDictionary.intern. rewrite Ef. cbn. by destruct self.
    - exact He. }
  exists self', r. split; [done|]. split; [by eapply configured_stable|]. exists A, Mr, Mn', pins.
  unfold intern_node_view. rewrite Hf. destruct r; [done|]. cbn. by rewrite <- Hsame.
Qed.

(** ** A fresh store, and the calls that keep the view *)
Lemma new_view : config_ok config → ∃ self, new config id = Some self ∧ views self (view_new id).
Proof using CL.
  intros Hc. destruct (store_new_ok config id Hc) as (self & Mn & Hn & Hi & Hid & Hcap & Hr & Hno & (s & ->) & Hp).
  exists self. split; [done|]. split; [by split|]. exists ∅, ∅, {[ s := id ]}, ∅. split; cbn; [done|..].
  - intros fp d. rewrite lookup_empty. split; [done|]. intros (_ & r & ?%lookup_empty_Some). done.
  - intros fp. split; [by intros ?%elem_of_empty|]. by intros (? & ? & ?%elem_of_empty & _).
  - intros n. rewrite elem_of_singleton. split; [intros ->; exists s; apply lookup_singleton_eq|].
    by intros (o & [_ <-]%lookup_singleton_Some).
Qed.

Lemma fill_frame_view self W wanted max_cells :
  views self W → 0 ≤ max_cells →
  (∀ A Mr Mn pins V ms e s, inv_at self A Mr Mn pins V → s ∈ dom A →
     ∃ b, wanted (self <| selection_marks := ms |> <| selection_epoch := e |>) s = Some b) →
  ∃ self' out, fill_frame wanted self max_cells = Some (self', out) ∧ views self' W.
Proof using.
  intros (Hcf & A & Mr & Mn & pins & Hv) Hm Hw. pose proof (va_inv _ _ _ _ _ _ Hv) as Hi.
  destruct (fill_frame_ok self A Mr Mn pins _ Hi wanted max_cells Hm) as (self' & out & v & He & Hp); [by intros; eapply Hw|].
  exists self', out. split; [done|]. split; [eapply configured_stable; [done|apply Hp]|].
  exists A, Mr, Mn, pins. destruct Hv. split; try done. apply Hp.
Qed.

Lemma clear_dirty_view self W : views self W → views (clear_dirty self) W.
Proof using.
  intros Hv. apply (views_same self); [done|by split|]. intros A Mr Mn pins [Hsl Hrows Hd Hl Hcs HV].
  split; [reframe Hsl|reframe Hrows|reframe Hd| |done|done]. destruct Hl.
  destruct (DirtyRing.ring_clear_ok _ (proj1 li_local)) as [H1 H2].
  destruct (DirtyRing.ring_clear_ok _ (proj1 li_forwarded)) as [H3 H4].
  split; simpl; try done; (split; [done|]); rewrite ?H2, ?H4; by intros e ?%elem_of_nil.
Qed.

(** The marks stay in range over a repair visit, whatever the visitor does. *)
Definition marks_ok (self : t) (ms : list Z) : Prop :=
  zlen ms = capacity self ∧ ∀ s m, zget ms s = Some m → 0 ≤ m ≤ selection_epoch self.

Lemma visit_repair_loop_ok {S} self L fuel max_cells (visit : S → CellHandle → S * bool) :
  slots_inv self L → lanes_inv self → ∀ ms st visited emitted next_cursor,
  marks_ok self ms → 0 ≤ emitted ≤ visited → visited ≤ capacity self → capacity self - visited < Z.of_nat fuel →
  0 ≤ next_cursor < capacity self →
  ∃ ms' st' emitted' next', visit_repair_loop fuel (with_marks ms self) max_cells st visit visited emitted next_cursor =
      Some (with_marks ms' self, st', emitted', next') ∧ marks_ok self ms' ∧ 0 ≤ next' < capacity self.
Proof using.
  intros Hsl Hl. pose proof (si_cap _ _ Hsl) as Hcap. pose proof (li_cursor _ Hl) as Hcur.
  induction fuel as [|fuel IH]; intros ms st visited emitted nc Hms He Hvi Hf Hnc; [lia|]. cbn [visit_repair_loop].
  change (capacity (with_marks ms self)) with (capacity self). change (repair_cursor (with_marks ms self)) with (repair_cursor self).
  destruct ((visited <? capacity self) && (emitted <? max_cells)) eqn:E; cbn [negb]; [|by eexists _, _, _, _].
  bool_solve. rewrite checked_ok by lia. simpl. set (s := (repair_cursor self + visited) mod capacity self).
  assert (0 ≤ s < capacity self) as Hs by (apply Z.mod_pos_bound; lia).
  rewrite !checked_ok by lia. cbn [mbind option_bind]. rewrite !checked_ok by lia. cbn [mbind option_bind]. fold s.
  assert (0 ≤ (s + 1) mod capacity self < capacity self) as Hn' by (apply Z.mod_pos_bound; lia).
  change (is_active (with_marks ms self) s) with (is_active self s). rewrite (is_active_ok _ _ Hsl) by done. simpl.
  case_bool_decide as HsL; simpl; [|by apply IH; try lia].
  destruct Hms as [Hlen Hms]. unfold mark_selected. simpl. destruct (zget_in_range ms s) as [m Hm]; [lia|]. rewrite Hm. simpl.
  destruct (m =? selection_epoch self) eqn:Em; simpl; [by apply IH; try lia; split|]. rewrite zset_ok by lia. simpl.
  set (ms1 := zupd ms s (selection_epoch self)).
  assert (marks_ok self ms1) as Hms1.
  { split; [unfold ms1; by rewrite zlen_zupd|]. intros s' m'. unfold ms1. rewrite zget_zupd by lia.
    destruct (decide (s = s')); [|apply Hms]. intros [= <-]. pose proof (li_epoch _ Hl) as Hu. unfold uint in Hu. lia. }
  change (with_marks ms self <| selection_marks := ms1 |>) with (with_marks ms1 self).
  change (handle_for (with_marks ms1 self) s) with (handle_for self s).
  destruct (handle_for_ok _ _ Hsl s Hs) as (g & -> & Hg). simpl.
  destruct (visit st _) as [st1 []]; [by apply IH; try lia|by eexists _, _, _, _].
Qed.

Lemma visit_repair_view {S} self W max_cells (st : S) visit :
  views self W →
  ∃ self' st' n, visit_repair_slice self max_cells st visit = Some (self', st', n) ∧ views self' W.
Proof using.
  intros Hv. unfold visit_repair_slice. destruct (_ || _) eqn:E; [by eexists _, _, _|].
  pose proof Hv as (Hcf & A & Mr & Mn & pins & Hva). pose proof (va_inv _ _ _ _ _ _ Hva) as [Hsl Hrows Hd Hl Hcs HV].
  destruct (bump_selection_epoch_ok self (dom A) 0 Hsl Hl ltac:(lia)) as (Hsl1 & Hl1 & Hsel & ms0 & e & Heq).
  set (self1 := bump_selection_epoch self) in *.
  destruct (visit_repair_loop_ok self1 (dom A) (Datatypes.S (Z.to_nat (capacity self1))) max_cells visit Hsl1 Hl1
    (selection_marks self1) st 0 0 (repair_cursor self1)) as (ms' & st' & em & nc & He & Hms & Hnc).
  - split; [apply Hsel|]. intros s m Hm. by apply (fs_marks _ _ _ _ _ Hsel s m).
  - lia.
  - pose proof (si_cap _ _ Hsl1). lia.
  - lia.
  - apply (li_cursor _ Hl1).
  - replace (with_marks (selection_marks self1) self1) with self1 in He by (by destruct self1). rewrite He. cbn [mbind option_bind].
    eexists _, _, _. split; [done|]. rewrite Heq in *. apply (views_same self); [done|by split|].
    clear -Hms Hnc Hl1. intros A Mr Mn pins [Hsl Hrows Hd Hl Hcs HV]. destruct Hms as [Hlen Hms].
    split; [|reframe Hrows|reframe Hd| |done|done].
    + destruct Hsl. by split.
    + destruct Hl1. by split.
Qed.

(** Calls on the frontier table, through [peer_frontiers_mut]. *)
Lemma frontier_view self W pf :
  views self W → PeerFrontierTable.inv pf →
  PeerFrontierTable.peer_capacity pf = PeerFrontierTable.peer_capacity (peer_frontiers self) →
  PeerFrontierTable.node_capacity pf = PeerFrontierTable.node_capacity (peer_frontiers self) →
  views (self <| peer_frontiers := pf |>) W.
Proof using.
  intros Hv Hpf Hpc Hnc. apply (views_same self); [done|by split|].
  intros A Mr Mn pins [Hsl Hrows Hd Hl Hcs HV].
  split; [reframe Hsl|reframe Hrows|reframe Hd| |done|done]. destruct Hl. split; simpl; try done. congruence.
Qed.

Lemma views_frontier self W :
  views self W → PeerFrontierTable.inv (peer_frontiers self) ∧
    PeerFrontierTable.peer_capacity (peer_frontiers self) = peer_capacity config ∧
    PeerFrontierTable.node_capacity (peer_frontiers self) = node_dictionary_capacity config.
Proof using.
  intros (Hcf & A & Mr & Mn & pins & Hv). destruct (iv_lanes _ _ _ _ _ _ (va_inv _ _ _ _ _ _ Hv)).
  split; [done|]. split; [apply Hcf|]. rewrite li_frontier_nodes. apply Hcf.
Qed.

(** What a caller can look up. *)
Lemma find_rule_view self W fp :
  views self W → ∃ r, find_rule self fp = Some r ∧ (is_Some r ↔ is_Some (vw_rules W !! fp)).
Proof using.
  intros (Hcf & A & Mr & Mn & pins & Hv). unfold find_rule, RuleDictionary.find.
  destruct (dict_find_ok _ _ _ _ (ti_rules _ _ _ _ _ (iv_dicts _ _ _ _ _ _ (va_inv _ _ _ _ _ _ Hv))) fp) as (r & Hr & Hf).
  exists r. split; [done|]. destruct r as [s|].
  - destruct Hf as (d & Hd & Hfp). split; [|done]. intros _. exists d. apply (va_rules _ _ _ _ _ _ Hv). eauto.
  - rewrite (rule_unknown _ _ _ _ _ _ _ Hv Hf). split; by intros [? ?].
Qed.

Lemma find_node_view self W n :
  views self W → ∃ r, find_node self (node_id n) (ni_incarnation n) = Some r ∧ (is_Some r ↔ n ∈ vw_nodes W).
Proof using.
  intros (Hcf & A & Mr & Mn & pins & Hv). unfold find_node, NodeDictionary.find.
  replace {| node_id := node_id n; ni_incarnation := ni_incarnation n |} with n by (by destruct n).
  destruct (dict_find_ok _ _ _ _ (ti_nodes _ _ _ _ _ (iv_dicts _ _ _ _ _ _ (va_inv _ _ _ _ _ _ Hv))) n) as (r & Hr & Hf).
  exists r. split; [done|]. rewrite (va_nodes _ _ _ _ _ _ Hv). destruct r as [s|].
  - destruct Hf as (d & Hd & Hk). unfold node_key in Hk. subst d. split; [|done]. intros _. by exists s.
  - split; [by intros [? ?]|]. intros (o & Ho). by destruct (Hf o n Ho).
Qed.
End refine.

(** ** Properties of the machine *)
Section view_facts.
Context {C : Count} (config : CellStoreConfig) (id : NodeIdentity).

(** What names a cell is known. *)
Definition view_wf (W : View) : Prop :=
  ∀ n c, vw_cells W !! n = Some c → is_Some (vw_rules W !! cn_fingerprint n) ∧ cell_node n ∈ vw_nodes W.

Lemma views_wf self W : views config id self W → view_wf W.
Proof using.
  intros (_ & A & Mr & Mn & pins & Hv) n c Hn.
  apply (iv_contents _ _ _ _ _ _ (va_inv _ _ _ _ _ _ Hv)) in Hn as (s & k & dr & dn & _ & Hdr & Hdn & -> & _).
  split; [exists dr; apply (va_rules _ _ _ _ _ _ Hv); eauto|]. apply (va_nodes _ _ _ _ _ _ Hv). exists (ck_origin k).
  rewrite Hdn. by destruct dn.
Qed.

Lemma find_or_add_rule_facts W fp W' :
  find_or_add_rule config W fp = Some W' →
  vw_cells W' = vw_cells W ∧ vw_nodes W' = vw_nodes W ∧ vw_rules W ⊆ vw_rules W' ∧ is_Some (vw_rules W' !! fp).
Proof using.
  unfold find_or_add_rule. destruct (vw_rules W !! fp) as [d|] eqn:E; [intros [= <-]; eauto|].
  destruct (_ <? _); [|done]. intros [= <-]. cbn. split_and!; try done; [by apply insert_subseteq|].
  rewrite lookup_insert_eq. eauto.
Qed.

Lemma find_or_add_node_facts W n W' :
  find_or_add_node config W n = Some W' →
  vw_cells W' = vw_cells W ∧ vw_rules W' = vw_rules W ∧ vw_nodes W ⊆ vw_nodes W' ∧ n ∈ vw_nodes W'.
Proof using.
  unfold find_or_add_node. case_decide; [by intros [= <-]|]. destruct (_ <? _); [|done]. intros [= <-]. cbn.
  split_and!; try done; [apply union_subseteq_r|by apply elem_of_union_l, elem_of_singleton].
Qed.

(** [put] touches one cell, and always applies to one that is held. *)
Lemma put_lookup mode n m W :
  vw_cells (put config mode n W) !! m = vw_cells W !! m ∨
  m = n ∧ vw_cells (put config mode n W) !! m = Some (apply_mode mode (default 0 (vw_cells W !! m))).
Proof using.
  unfold put. destruct (_ || _); [|by left]. cbn. unfold raise. rewrite lookup_insert.
  case_decide as Hd; [|by left]. subst m. by right.
Qed.

Lemma merge_view_wf W o : view_wf W → view_wf (merge_view config W o).
Proof using.
  intros Hwf. unfold merge_view. destruct (find_or_add_rule config W _) as [W1|] eqn:E1; [|done].
  apply find_or_add_rule_facts in E1 as (Hc1 & Hn1 & Hr1 & Hk1).
  assert (view_wf W1) as Hwf1.
  { intros n c. rewrite Hc1, Hn1. intros Hn. destruct (Hwf n c Hn) as [[d Hd] ?]. split; [|done].
    exists d. by eapply lookup_weaken. }
  destruct (find_or_add_node config W1 _) as [W2|] eqn:E2; [|done].
  apply find_or_add_node_facts in E2 as (Hc2 & Hr2 & Hn2 & Hk2).
  intros n c Hn. unfold put in *. destruct (_ || _).
  - cbn in Hn |- *. rewrite Hr2. unfold raise in Hn. rewrite lookup_insert in Hn. case_decide as Hd.
    + subst n. done.
    + rewrite Hc2 in Hn. destruct (Hwf1 n c Hn). split; [done|by apply Hn2].
  - rewrite Hc2 in Hn. rewrite Hr2. destruct (Hwf1 n c Hn). split; [done|by apply Hn2].
Qed.

(** A row for a cell that is held is never refused; one for another cell
    leaves it alone. *)
Lemma merge_view_held W o n :
  view_wf W → is_Some (vw_cells W !! n) → vw_cells (merge_view config W o) !! n = merge_one (vw_cells W) o !! n.
Proof using.
  intros Hwf [c Hn]. rewrite merge_one_lookup. unfold merge_view. case_decide as Hname.
  - subst n. destruct (Hwf _ _ Hn) as [[d Hd] Hnode]. cbn [remote_name cn_fingerprint] in Hd.
    unfold find_or_add_rule. rewrite Hd. unfold find_or_add_node. rewrite decide_True by done.
    unfold put. rewrite bool_decide_true by eauto. cbn. unfold raise. rewrite lookup_insert_eq, Hn. cbn.
    f_equal. destruct (_ <? _) eqn:E; bool_solve; lia.
  - destruct (find_or_add_rule config W _) as [W1|] eqn:E1; [|done].
    apply find_or_add_rule_facts in E1 as (Hc1 & _).
    destruct (find_or_add_node config W1 _) as [W2|] eqn:E2; [|by rewrite Hc1].
    apply find_or_add_node_facts in E2 as (Hc2 & _).
    destruct (put_lookup (MaxMerge (o_count o)) (remote_name o) n W2) as [->|[-> _]]; [by rewrite Hc2, Hc1|done].
Qed.

Lemma merge_all_held obs n : ∀ W, view_wf W → is_Some (vw_cells W !! n) →
  vw_cells (foldl (merge_view config) W obs) !! n = merge_all (vw_cells W) obs !! n.
Proof using.
  induction obs as [|o obs IH]; intros W Hwf Hn; [done|]. cbn [foldl merge_all].
  pose proof (merge_view_held W o n Hwf Hn) as Hone. unfold merge_all in *.
  assert (is_Some (vw_cells (merge_view config W o) !! n)) as Hn'.
  { rewrite Hone, merge_one_lookup. case_decide; [by eexists|done]. }
  rewrite IH by (done || by apply merge_view_wf).
  assert (∀ obs (V1 V2 : gmap CellName Z), V1 !! n = V2 !! n → foldl merge_one V1 obs !! n = foldl merge_one V2 obs !! n) as Hext.
  { clear. induction obs as [|o obs IH]; intros V1 V2 H; [done|]. cbn [foldl]. apply IH. rewrite !merge_one_lookup, H. done. }
  by apply Hext.
Qed.
End view_facts.
