(* ===== verification/StoreSpec.v ===== *)
(** * The cell store against its abstract specification

    The abstract store is the bounded [View]: counts, known rules, known origins.
    Every sequence of calls of the public operations runs without panicking and
    computes what the same calls do to the view; the other theorems state what
    the single operations do to it, as a caller sees it through [read]. *)

From S2P Require Import Prelude Types Hash Index Freelist Dictionary DirtyRing PeerFrontier IO CellStore CellSlots CellInv CellOps CellMerge CellExpire GossipFrame View.
Import CellStore.

(** ** Sequences of operations *)

(** Every call through which a caller can change a store.  The visitor of a
    repair visit answers from the handles it has been given so far. *)
Inductive op :=
  | InternRule (d : RuleDescriptor)
  | InternNode (node : NodeId) (incarnation : Incarnation)
  | IngestLocal (obs : list Observation)
  | MergeRemote (obs : list Observation)
  | Expire (current_epoch_by_rule live_buckets_by_rule : list Z)
  | ExpireAt (now : Z)
  | FillFrame (max_cells : Z)
  | FillFrameForPeer (max_cells peer_slot : Z)
  | VisitRepair (max_cells : Z) (visit : list CellHandle → CellHandle → bool)
  | ClearDirty
  | Clear
  | InternPeer (peer : NodeId)
  | RemovePeer (peer : NodeId)
  | RecordSent (peer_slot node_slot sequence : Z)
  | RecordAcked (peer_slot node_slot sequence : Z)
  | ClearNodeSlot (node_slot : Z).

Section api.
Context `{C : Count}.

(** One call; what it returns or reports is dropped. *)
Definition exec (self : t) (o : op) : option t :=
  match o with
  | InternRule d => '(self, _) ← intern_rule self d; Some self
  | InternNode node incarnation => '(self, _) ← intern_node self node incarnation; Some self
  | IngestLocal obs =>
    '(self, _) ← ingest_local self (ObservationBatch.of_rows obs) (DeltaSink.of_rows []);
    Some self
  | MergeRemote obs =>
    '(self, _) ← merge_remote self (ObservationBatch.of_rows obs) (DeltaSink.of_rows []);
    Some self
  | Expire cur live => '(self, _) ← expire self cur live (ExpirationSink.of_rows []); Some self
  | ExpireAt now => '(self, _) ← expire_at self now (ExpirationSink.of_rows []); Some self
  | FillFrame max_cells => '(self, _) ← fill_gossip_frame self max_cells; Some self
  | FillFrameForPeer max_cells peer => '(self, _) ← fill_gossip_frame_for_peer self max_cells peer; Some self
  | VisitRepair max_cells visit =>
    '(self, _, _) ← visit_repair_slice self max_cells [] (λ seen h, (seen ++ [h], visit seen h)); Some self
  | ClearDirty => Some (clear_dirty self)
  | Clear => clear self
  | InternPeer peer =>
    '(pf, _) ← PeerFrontierTable.intern_peer (peer_frontiers self) peer; Some (self <| peer_frontiers := pf |>)
  | RemovePeer peer =>
    pf ← PeerFrontierTable.remove_peer (peer_frontiers self) peer; Some (self <| peer_frontiers := pf |>)
  | RecordSent p n sequence =>
    pf ← PeerFrontierTable.record_sent (peer_frontiers self) p n sequence; Some (self <| peer_frontiers := pf |>)
  | RecordAcked p n sequence =>
    pf ← PeerFrontierTable.record_acked (peer_frontiers self) p n sequence; Some (self <| peer_frontiers := pf |>)
  | ClearNodeSlot n =>
    pf ← PeerFrontierTable.clear_node_slot (peer_frontiers self) n; Some (self <| peer_frontiers := pf |>)
  end.

Fixpoint exec_all (self : t) (os : list op) : option t :=
  match os with
  | [] => Some self
  | o :: os => self ← exec self o; exec_all self os
  end.

Context (config : CellStoreConfig) (id : NodeIdentity).

(** Arguments of their types: counts of the store's width, and frontier slots
    inside the table (one outside is an index out of bounds). *)
Definition op_ok (o : op) : Prop :=
  match o with
  | IngestLocal obs | MergeRemote obs => Forall obs_ok obs
  | FillFrame max_cells => 0 ≤ max_cells
  | FillFrameForPeer max_cells p => 0 ≤ max_cells ∧ 0 ≤ p < peer_capacity config
  | RecordSent p n _ | RecordAcked p n _ => 0 ≤ p < peer_capacity config ∧ 0 ≤ n < node_dictionary_capacity config
  | ClearNodeSlot n => 0 ≤ n < node_dictionary_capacity config
  | _ => True
  end.

(** The same call on the view. *)
Definition spec (names : Z → option Z) (W : View) (o : op) : View :=
  match o with
  | InternRule d => intern_rule_view config W d
  | InternNode node incarnation => intern_node_view config W {| node_id := node; ni_incarnation := incarnation |}
  | IngestLocal obs => foldl (ingest_view config id) W obs
  | MergeRemote obs => foldl (merge_view config) W obs
  | Expire cur live => expire_view id names cur live W
  | ExpireAt now => expire_at_view id W now
  | Clear => clear_view id W
  | _ => W
  end.

(** A run of the view beside a run of the store, which only supplies the slot
    numbers by which [Expire] is given its columns. *)
Fixpoint spec_all (self : t) (W : View) (os : list op) : option View :=
  match os with
  | [] => Some W
  | o :: os => self' ← exec self o; spec_all self' (spec (slot_of self) W o) os
  end.

(** Operations that only add. *)
Definition grows (o : op) : Prop :=
  match o with Expire _ _ | ExpireAt _ | Clear => False | _ => True end.
Definition below (V V' : gmap CellName Z) : Prop :=
  ∀ n c, V !! n = Some c → ∃ c', V' !! n = Some c' ∧ c ≤ c'.

#[export] Instance below_preorder : PreOrder below.
Proof.
  split; [by intros V n c Hn; exists c|].
  intros V1 V2 V3 H1 H2 n c (c2 & (c3 & ? & ?)%H2 & ?)%H1. exists c3. split; [done|lia].
Qed.
End api.

Lemma fill_gossip_frame_ok {C : Count} self A Mr Mn pins V max_cells :
  inv_at self A Mr Mn pins V → 0 ≤ max_cells →
  ∃ self' out v, fill_gossip_frame self max_cells = Some (self', out) ∧
    frame_post self A Mr Mn pins V max_cells self' out v.
Proof.
  intros Hi Hmax. apply (fill_frame_ok self A Mr Mn pins V Hi (λ _ _, Some true) max_cells Hmax).
  intros; by eexists.
Qed.

Section refine.
Context {C : Count} {CL : CountLaws C} (config : CellStoreConfig) (id : NodeIdentity).

(** A call on the frontier table keeps the view. *)
Lemma frontier_call self W (call : PeerFrontierTable.t → option PeerFrontierTable.t) pf :
  views config id self W → call (peer_frontiers self) = Some pf → PeerFrontierTable.inv pf →
  PeerFrontierTable.peer_capacity pf = PeerFrontierTable.peer_capacity (peer_frontiers self) →
  PeerFrontierTable.node_capacity pf = PeerFrontierTable.node_capacity (peer_frontiers self) →
  ∃ self', (pf ← call (peer_frontiers self); Some (self <| peer_frontiers := pf |>)) = Some self' ∧
    views config id self' W.
Proof using.
  intros Hv He Hpi Hpc Hnc. rewrite He. cbn. eexists. split; [done|]. by apply frontier_view.
Qed.

Lemma exec_ok self W o :
  views config id self W → op_ok config o →
  ∃ self', exec self o = Some self' ∧ views config id self' (spec config id (slot_of self) W o).
Proof using CL.
  intros Hv Hok. destruct (views_frontier config id self W Hv) as (Hpf & Hpc & Hnc).
  destruct o as [d|n inc|obs|obs|cur live|now|m|m p|m visit| | |p|p|p n q|p n q|n]; cbn [exec op_ok spec] in *.
  - destruct (intern_rule_view_ok config id self W d Hv) as (s & r & -> & ?). cbn. eauto.
  - destruct (intern_node_view_ok config id self W n inc Hv) as (s & r & -> & ?). cbn. eauto.
  - destruct (ingest_local_view config id self W obs [] Hv Hok) as (s & ds & -> & ?). cbn. eauto.
  - destruct (merge_remote_view config id self W obs [] Hv Hok) as (s & ds & -> & ?). cbn. eauto.
  - destruct (expire_view_ok config id self W cur live [] Hv) as (s & es & -> & ?). cbn. eauto.
  - destruct (expire_at_view_ok config id self W now [] Hv) as (s & es & -> & ?). cbn. eauto.
  - destruct (fill_frame_view config id self W (λ _ _, Some true) m Hv Hok) as (s & out & He & ?); [by eauto|].
    unfold fill_gossip_frame. rewrite He. cbn. eauto.
  - destruct (fill_frame_view config id self W (λ self i, peer_lacks self p i) m Hv (proj1 Hok)) as (s & out & He & ?).
    { intros A Mr Mn pins V ms e s Hi Hs. eapply peer_lacks_ok; [exact Hi| |done]. rewrite Hpc. apply Hok. }
    unfold fill_gossip_frame_for_peer. rewrite He. cbn. eauto.
  - destruct (visit_repair_view config id self W m [] (λ seen h, (seen ++ [h], visit seen h)) Hv) as (s & st & k & -> & ?). cbn. eauto.
  - eexists. split; [done|]. by apply clear_dirty_view.
  - by apply clear_view_ok.
  - destruct (PeerFrontierTable.intern_peer_ok _ Hpf p) as (pf & r & He & Hpi & _).
    destruct (PeerFrontierTable.intern_peer_caps _ _ _ _ He) as [? ?]. rewrite He. cbn. eexists. split; [done|]. by apply frontier_view.
  - destruct (PeerFrontierTable.remove_peer_ok _ Hpf p) as (pf & He & ? & ? & ? & _).
    by apply (frontier_call self W (λ pf, PeerFrontierTable.remove_peer pf p) pf).
  - destruct (PeerFrontierTable.record_sent_ok _ Hpf p n q) as (pf & He & ? & ? & ? & _); [split; lia|].
    by apply (frontier_call self W (λ pf, PeerFrontierTable.record_sent pf p n q) pf).
  - destruct (PeerFrontierTable.record_acked_ok _ Hpf p n q) as (pf & He & ? & _); [split; lia|].
    destruct (PeerFrontierTable.record_acked_caps _ _ _ _ _ He) as (? & ? & _).
    by apply (frontier_call self W (λ pf, PeerFrontierTable.record_acked pf p n q) pf).
  - destruct (PeerFrontierTable.clear_node_slot_ok _ Hpf n) as (pf & He & ? & ? & ? & _); [lia|].
    by apply (frontier_call self W (λ pf, PeerFrontierTable.clear_node_slot pf n) pf).
Qed.

Lemma exec_all_ok os : ∀ self W,
  views config id self W → Forall (op_ok config) os →
  ∃ self' W', exec_all self os = Some self' ∧ spec_all config id self W os = Some W' ∧ views config id self' W'.
Proof using CL.
  induction os as [|o os IH]; intros self W Hv Hok; cbn [exec_all spec_all]; [by eauto|].
  apply Forall_cons in Hok as [Ho Hok]. destruct (exec_ok self W o Hv Ho) as (self1 & -> & Hv1). cbn [mbind option_bind].
  by apply IH.
Qed.

(** Raising a count never lowers it. *)
Lemma put_below mode n W : mode_ok mode → (∀ m c, vw_cells W !! m = Some c → 0 ≤ c ≤ count_MAX) →
  below (vw_cells W) (vw_cells (put config mode n W)) ∧
  ∀ m c, vw_cells (put config mode n W) !! m = Some c → 0 ≤ c ≤ count_MAX.
Proof using CL.
  intros Hm Hc. pose proof (count_MAX_bounds (CountLaws := CL)). split; intros m c Hmc;
    destruct (put_lookup config mode n m W) as [He|[-> He]]; rewrite He in *; [by exists c| |by eapply Hc|].
  - rewrite Hmc. eexists. split; [done|]. cbn. by apply apply_mode_bounds, (Hc n).
  - injection Hmc as <-. assert (0 ≤ default 0 (vw_cells W !! n) ≤ count_MAX) as Hd.
    { destruct (vw_cells W !! n) eqn:E; cbn; [by eapply Hc|lia]. }
    pose proof (apply_mode_bounds mode _ Hm Hd). lia.
Qed.

Definition counts_ok (W : View) : Prop := ∀ n c, vw_cells W !! n = Some c → 0 ≤ c ≤ count_MAX.

Lemma rows_below (row : View → Observation → View) obs :
  (∀ W o, counts_ok W → obs_ok o → below (vw_cells W) (vw_cells (row W o)) ∧ counts_ok (row W o)) →
  ∀ W, counts_ok W → Forall obs_ok obs → below (vw_cells W) (vw_cells (foldl row W obs)) ∧ counts_ok (foldl row W obs).
Proof using.
  intros Hrow. induction obs as [|o obs IH]; intros W Hc Hok; [done|].
  apply Forall_cons in Hok as [Ho Hok]. destruct (Hrow W o Hc Ho) as [H1 H2]. cbn [foldl].
  destruct (IH _ H2 Hok) as [H3 H4]. split; [by etrans|done].
Qed.

Lemma ingest_view_below W o :
  counts_ok W → obs_ok o → below (vw_cells W) (vw_cells (ingest_view config id W o)) ∧ counts_ok (ingest_view config id W o).
Proof using CL.
  intros Hc Ho. unfold ingest_view. destruct (find_or_add_rule config W _) as [W1|] eqn:E; [|done].
  apply find_or_add_rule_facts in E as (Hc1 & _). rewrite <- Hc1. apply put_below.
  - unfold obs_ok in Ho. pose proof (count_MAX_bounds (CountLaws := CL)). simpl. lia.
  - by rewrite Hc1.
Qed.

Lemma merge_view_below W o :
  counts_ok W → obs_ok o → below (vw_cells W) (vw_cells (merge_view config W o)) ∧ counts_ok (merge_view config W o).
Proof using CL.
  intros Hc Ho. unfold merge_view. destruct (find_or_add_rule config W _) as [W1|] eqn:E; [|done].
  apply find_or_add_rule_facts in E as (Hc1 & _). rewrite <- Hc1.
  destruct (find_or_add_node config W1 _) as [W2|] eqn:E2; [|unfold counts_ok; by rewrite Hc1].
  apply find_or_add_node_facts in E2 as (Hc2 & _). rewrite <- Hc2. apply put_below; [exact Ho|by rewrite Hc2, Hc1].
Qed.

Lemma spec_below names W o :
  grows o → op_ok config o → counts_ok W →
  below (vw_cells W) (vw_cells (spec config id names W o)) ∧ counts_ok (spec config id names W o).
Proof using CL.
  intros Hg Hok Hc. destruct o; cbn [spec grows op_ok] in *; try done.
  - unfold intern_rule_view, counts_ok. destruct (vw_rules W !! _); [done|]. by destruct (_ <? _).
  - unfold intern_node_view, counts_ok. destruct (find_or_add_node config W _) as [W1|] eqn:E; [|done].
    apply find_or_add_node_facts in E as (Hc1 & _). cbn. by rewrite Hc1.
  - apply rows_below; [by apply ingest_view_below|done|done].
  - apply rows_below; [by apply merge_view_below|done|done].
Qed.

(** Without expiration no count is lost or lowered. *)
Lemma spec_all_below os : ∀ self W W',
  spec_all config id self W os = Some W' → counts_ok W → Forall (op_ok config) os → Forall grows os →
  below (vw_cells W) (vw_cells W').
Proof using CL.
  induction os as [|o os IH]; intros self W W' Hs Hc Hok Hg; cbn [spec_all] in Hs; [by injection Hs as <-|].
  apply Forall_cons in Hok as [Ho Hok]. apply Forall_cons in Hg as [Hgo Hg].
  destruct (exec self o) as [self1|]; [|done]. cbn in Hs.
  destruct (spec_below (slot_of self) W o Hgo Ho Hc) as [H1 H2]. etrans; [exact H1|]. by eapply IH.
Qed.
End refine.

(** ** A small store *)
Definition sample_config : CellStoreConfig := {|
  cell_capacity := 4; rule_dictionary_capacity := 4; node_dictionary_capacity := 4;
  local_dirty_capacity := 2; forwarded_dirty_capacity := 2; peer_capacity := 1 |}.
Definition sample_id : NodeIdentity := {| node_id := 7; ni_incarnation := 1 |}.
Definition sample_obs (key origin count : Z) : Observation := {|
  o_rule_fingerprint := 11; o_key_hash := key; o_bucket := 5; o_origin := origin;
  o_incarnation := 1; o_count := count; o_last_update_millis := 0 |}.
Definition sample_rule : RuleDescriptor := RuleDescriptor_default <| fingerprint := 11 |>.

Lemma sample_config_ok : config_ok sample_config.
Proof. unfold config_ok. simpl. unfold U16_MAX. lia. Qed.

(** A fresh store, with its invariant and room for two batches of one. *)
Lemma sample_store :
  ∃ self, new sample_config sample_id = Some self ∧ @inv Count_u16 self ∅ ∧ room self 2 ∧
    local_identity self = sample_id.
Proof.
  destruct (@store_new_ok Count_u16 _ sample_config sample_id sample_config_ok)
    as (self & Mn & Hn & Hi & Hid & _).
  exists self. split; [done|]. split; [by exists ∅, ∅, Mn, ∅|]. split; [|done].
  vm_compute in Hn. injection Hn as <-. unfold room. vm_compute. split_and!; discriminate.
Qed.

Lemma sample_obs_ok key origin count :
  0 ≤ count ≤ 100 → @obs_ok Count_u16 (sample_obs key origin count).
Proof. unfold obs_ok. simpl. unfold U16_MAX. lia. Qed.

(** ** Theorems *)

(** C1: from a fresh store whose capacities are supported ([config_ok]: up to
    2^30 cells, dictionaries of 1 to 65534 entries, rings of up to 2^31), every
    sequence of calls through which a caller can change it, with well-typed
    arguments, runs to completion (no index out of bounds, no overflow, no
    failed assertion), and the store it ends in
    reads as the view reached by the same calls: the same counts, the same known
    rules and origins, and as many live cells. *)
Theorem store_refines_map {C : Count} {CL : CountLaws C} config id os :
  config_ok config → Forall (op_ok config) os →
  ∃ self0 self W, new config id = Some self0 ∧ exec_all self0 os = Some self ∧
    spec_all config id self0 (view_new id) os = Some W ∧
    (∀ n, read self n = Some (vw_cells W !! n)) ∧ active_len self = Z.of_nat (size (vw_cells W)) ∧
    (∀ fp, ∃ r, find_rule self fp = Some r ∧ (is_Some r ↔ is_Some (vw_rules W !! fp))) ∧
    (∀ n, ∃ r, find_node self (node_id n) (ni_incarnation n) = Some r ∧ (is_Some r ↔ n ∈ vw_nodes W)).
Proof.
  intros Hc Hok. destruct (new_view config id Hc) as (self0 & Hn & Hv0).
  destruct (exec_all_ok config id os self0 _ Hv0 Hok) as (self & W & He & Hs & Hv).
  exists self0, self, W. split; [done|]. split; [done|]. split; [done|].
  split; [intros n; by apply read_ok, (views_inv config id)|]. split.
  { destruct Hv as (_ & A & Mr & Mn & pins & Hv). symmetry. by eapply size_cells. }
  split; [intros fp; by apply (find_rule_view config id)|intros n; by apply (find_node_view config id)].
Qed.

Lemma store_refines_map_witness :
  ∃ self0 self W, new sample_config sample_id = Some self0 ∧
    @exec_all Count_u16 self0
      [InternRule sample_rule; IngestLocal [sample_obs 1 7 3]; MergeRemote [sample_obs 1 9 4];
       FillFrame 4; InternPeer 9; RecordAcked 0 1 5; Expire [3] [4]; ExpireAt 0; Clear] = Some self ∧
    @spec_all Count_u16 sample_config sample_id self0 (view_new sample_id)
      [InternRule sample_rule; IngestLocal [sample_obs 1 7 3]; MergeRemote [sample_obs 1 9 4];
       FillFrame 4; InternPeer 9; RecordAcked 0 1 5; Expire [3] [4]; ExpireAt 0; Clear] = Some W ∧
    ∀ n, read self n = Some (vw_cells W !! n).
Proof.
  destruct (@store_refines_map Count_u16 _ sample_config sample_id
    [InternRule sample_rule; IngestLocal [sample_obs 1 7 3]; MergeRemote [sample_obs 1 9 4];
     FillFrame 4; InternPeer 9; RecordAcked 0 1 5; Expire [3] [4]; ExpireAt 0; Clear] sample_config_ok)
    as (self0 & self & W & H1 & H2 & H3 & H4 & _).
  - repeat constructor; simpl; unfold U16_MAX; lia.
  - exists self0, self, W. split; [exact H1|]. split; [exact H2|]. split; [exact H3|exact H4].
Defined.

(** Without expiration or clearing, a run never loses a cell and never lowers a
    count. *)
Theorem counts_only_grow {C : Count} {CL : CountLaws C} config id self W os :
  views config id self W → Forall (op_ok config) os → Forall grows os →
  ∃ self', exec_all self os = Some self' ∧
    ∀ n c, read self n = Some (Some c) → ∃ c', read self' n = Some (Some c') ∧ c ≤ c'.
Proof.
  intros Hv Hok Hg. destruct (exec_all_ok config id os self W Hv Hok) as (self' & W' & He & Hs & Hv').
  exists self'. split; [done|]. intros n c. rewrite (read_ok self _ n (views_inv config id _ _ Hv)). intros [= Hn].
  destruct (spec_all_below config id os self W W' Hs) with n c as (c' & Hc' & ?); try done.
  { intros m d. apply (inv_counts self). by eapply views_inv. }
  exists c'. by rewrite (read_ok self' _ n (views_inv config id _ _ Hv')), Hc'.
Qed.

(** A fresh store with its view. *)
Lemma sample_view :
  ∃ self, new sample_config sample_id = Some self ∧ @views Count_u16 sample_config sample_id self (view_new sample_id).
Proof. apply (new_view sample_config sample_id), sample_config_ok. Qed.

Lemma counts_only_grow_witness :
  ∃ self self', new sample_config sample_id = Some self ∧
    @exec_all Count_u16 self [IngestLocal [sample_obs 1 7 3]; FillFrame 2] = Some self' ∧
    ∀ n c, read self n = Some (Some c) → ∃ c', read self' n = Some (Some c') ∧ c ≤ c'.
Proof.
  destruct sample_view as (self & Hn & Hv). exists self.
  destruct (counts_only_grow sample_config sample_id self _ [IngestLocal [sample_obs 1 7 3]; FillFrame 2] Hv)
    as (self' & H1 & H2); [repeat constructor; simpl; unfold U16_MAX; lia|by repeat constructor|].
  exists self'. split; [exact Hn|]. split; [exact H1|exact H2].
Defined.

(** C14: merging a remote batch applies the rows one by one to the view: a row is
    refused only if its cell is not held and the store, the rule dictionary or
    the origin dictionary is full, and the rows after it are still applied.  So a
    cell that was held ends at the maximum of its count and every observed count
    of it, whatever else is refused, and with room for the whole batch every
    observed cell does. *)
Theorem merge_remote_refines {C : Count} {CL : CountLaws C} config id self W obs rows :
  views config id self W → Forall obs_ok obs →
  ∃ self' ds, merge_remote self (ObservationBatch.of_rows obs) (DeltaSink.of_rows rows) =
      Some (self', DeltaSink.of_rows (rows ++ ds)) ∧
    views config id self' (foldl (merge_view config) W obs) ∧
    (∀ n, read self' n = Some (vw_cells (foldl (merge_view config) W obs) !! n)) ∧
    (∀ n, is_Some (vw_cells W !! n) → read self' n = Some (merge_all (vw_cells W) obs !! n)) ∧
    (room self (zlen obs) → ∀ n, read self' n = Some (merge_all (vw_cells W) obs !! n)).
Proof.
  intros Hv Hok. destruct (merge_remote_view config id self W obs rows Hv Hok) as (self' & ds & H & Hv').
  exists self', ds. split; [done|]. split; [done|].
  assert (∀ n, read self' n = Some (vw_cells (foldl (merge_view config) W obs) !! n)) as Hread
    by (intros n; by eapply read_ok, views_inv).
  split; [done|]. split.
  - intros n Hn. rewrite Hread. f_equal. apply merge_all_held; [|done]. by eapply views_wf.
  - intros Hroom n.
    destruct (merge_remote_ok self (vw_cells W) obs rows (views_inv config id _ _ Hv) Hok)
      as (s & ds' & acc & H' & _ & Hi' & _ & Hr & _).
    rewrite H in H'. injection H' as <- _. rewrite (Hr Hroom) in Hi'. by apply read_ok.
Qed.

Lemma merge_remote_refines_witness :
  ∃ self self' ds, new sample_config sample_id = Some self ∧
    @merge_remote Count_u16 self (ObservationBatch.of_rows [sample_obs 1 9 4; sample_obs 1 9 2])
      (DeltaSink.of_rows []) = Some (self', DeltaSink.of_rows ds) ∧
    read self' (remote_name (sample_obs 1 9 2)) = Some (Some 4).
Proof.
  destruct sample_view as (self & Hn & Hv). exists self.
  destruct (merge_remote_refines sample_config sample_id self _ [sample_obs 1 9 4; sample_obs 1 9 2] [] Hv)
    as (self' & ds & H1 & _ & H2 & _); [repeat constructor; simpl; unfold U16_MAX; lia|].
  exists self', ds. split; [exact Hn|]. split; [exact H1|]. rewrite H2. reflexivity.
Defined.

(** C21: replicas that start equal and merge batches carrying the same
    observations end equal, whatever the order, the grouping into rows and the
    number of repetitions of the observations. *)
Theorem merge_order_insensitive {C : Count} {CL : CountLaws C} self1 self2 V obs1 obs2 :
  inv self1 V → inv self2 V → Forall obs_ok obs1 → Forall obs_ok obs2 →
  room self1 (zlen obs1) → room self2 (zlen obs2) →
  (∀ n c, carries obs1 n c ↔ carries obs2 n c) →
  ∃ self1' self2' ds1 ds2,
    merge_remote self1 (ObservationBatch.of_rows obs1) (DeltaSink.of_rows []) =
      Some (self1', DeltaSink.of_rows ds1) ∧
    merge_remote self2 (ObservationBatch.of_rows obs2) (DeltaSink.of_rows []) =
      Some (self2', DeltaSink.of_rows ds2) ∧
    ∀ n, read self1' n = read self2' n.
Proof.
  intros Hi1 Hi2 Ho1 Ho2 Hr1 Hr2 Hc.
  destruct (merge_remote_ok self1 V obs1 [] Hi1 Ho1) as (s1 & ds1 & a1 & H1 & _ & Hi1' & _ & E1 & _).
  destruct (merge_remote_ok self2 V obs2 [] Hi2 Ho2) as (s2 & ds2 & a2 & H2 & _ & Hi2' & _ & E2 & _).
  rewrite (E1 Hr1) in Hi1'. rewrite (E2 Hr2) in Hi2'.
  exists s1, s2, ds1, ds2. split; [done|]. split; [done|]. intros n.
  rewrite (read_ok _ _ n Hi1'), (read_ok _ _ n Hi2'). by rewrite (merge_all_set V obs1 obs2 Hc).
Qed.

Lemma merge_order_insensitive_witness :
  ∃ self self1' self2' ds1 ds2, new sample_config sample_id = Some self ∧
    @merge_remote Count_u16 self (ObservationBatch.of_rows [sample_obs 1 9 4; sample_obs 2 9 2])
      (DeltaSink.of_rows []) = Some (self1', DeltaSink.of_rows ds1) ∧
    @merge_remote Count_u16 self (ObservationBatch.of_rows [sample_obs 2 9 2; sample_obs 1 9 4])
      (DeltaSink.of_rows []) = Some (self2', DeltaSink.of_rows ds2) ∧
    ∀ n, read self1' n = read self2' n.
Proof.
  destruct sample_store as (self & Hn & Hi & Hr & _). exists self.
  destruct (merge_order_insensitive self self ∅ [sample_obs 1 9 4; sample_obs 2 9 2]
    [sample_obs 2 9 2; sample_obs 1 9 4] Hi Hi) as (s1 & s2 & ds1 & ds2 & H);
    [repeat constructor; simpl; unfold U16_MAX; lia..|exact Hr|exact Hr| |].
  2:{ exists s1, s2, ds1, ds2. split; [exact Hn|exact H]. }
  intros n c. unfold carries. setoid_rewrite elem_of_cons. setoid_rewrite elem_of_cons.
  split; intros (o & [?|[?|?]] & ?); exists o; tauto.
Defined.

(** A local batch adds every hit, saturating at the count width, to the cell
    of the node's own identity; cells of other origins are untouched. *)
Theorem ingest_local_refines {C : Count} {CL : CountLaws C} self V obs rows :
  inv self V → Forall obs_ok obs → room self (zlen obs) →
  ∃ self' ds, ingest_local self (ObservationBatch.of_rows obs) (DeltaSink.of_rows rows) =
      Some (self', DeltaSink.of_rows (rows ++ ds)) ∧
    (∀ n, read self' n = Some (ingest_all (local_identity self) V obs !! n)) ∧
    (∀ n, cn_node n ≠ node_id (local_identity self) → read self' n = read self n).
Proof.
  intros Hi Hok Hroom.
  destruct (ingest_local_ok self V obs rows Hi Hok) as (self' & ds & acc & H & _ & Hi' & _ & Hr & _).
  exists self', ds. rewrite (Hr Hroom) in Hi'. split; [done|].
  assert (∀ n, read self' n = Some (ingest_all (local_identity self) V obs !! n)) as Hread
    by (intros n; by apply read_ok).
  split; [done|]. intros n Hn. rewrite Hread, (read_ok _ _ n Hi). f_equal. clear -Hn.
  revert V. induction obs as [|o obs IH]; intros V; [done|]. cbn [ingest_all foldl].
  etrans; [apply IH|]. unfold ingest_one, raise. apply lookup_insert_ne. by intros <-.
Qed.

Lemma ingest_local_refines_witness :
  ∃ self self' ds, new sample_config sample_id = Some self ∧
    @ingest_local Count_u16 self (ObservationBatch.of_rows [sample_obs 1 0 4; sample_obs 1 0 2])
      (DeltaSink.of_rows []) = Some (self', DeltaSink.of_rows ds) ∧
    read self' (local_name sample_id (sample_obs 1 0 2)) = Some (Some 6).
Proof.
  destruct sample_store as (self & Hn & Hi & Hr & Hid). exists self.
  destruct (ingest_local_refines self ∅ [sample_obs 1 0 4; sample_obs 1 0 2] [] Hi)
    as (self' & ds & H1 & H2 & _); [repeat constructor; simpl; unfold U16_MAX; lia|exact Hr|].
  exists self', ds. split; [exact Hn|]. split; [exact H1|]. rewrite H2, Hid. reflexivity.
Defined.

(** The delta channel accounts for every change: after a local or a remote
    batch, the total of each identity over all origins has moved by exactly the
    sum of the deltas reported for it. *)
Theorem deltas_account {C : Count} {CL : CountLaws C} self V obs :
  inv self V → Forall obs_ok obs →
  (∃ self' V' ds, ingest_local self (ObservationBatch.of_rows obs) (DeltaSink.of_rows []) =
      Some (self', DeltaSink.of_rows ds) ∧ inv self' V' ∧
    ∀ cid, total V' cid = total V cid + delta_total ds cid) ∧
  (∃ self' V' ds, merge_remote self (ObservationBatch.of_rows obs) (DeltaSink.of_rows []) =
      Some (self', DeltaSink.of_rows ds) ∧ inv self' V' ∧
    ∀ cid, total V' cid = total V cid + delta_total ds cid).
Proof.
  intros Hi Hok. split.
  - destruct (ingest_local_ok self V obs [] Hi Hok) as (s & ds & acc & ? & _ & ? & _ & _ & _ & ?).
    by eexists s, _, ds.
  - destruct (merge_remote_ok self V obs [] Hi Hok) as (s & ds & acc & ? & _ & ? & _ & _ & _ & ?).
    by eexists s, _, ds.
Qed.

Lemma deltas_account_witness :
  ∃ self self' V' ds, new sample_config sample_id = Some self ∧
    @merge_remote Count_u16 self (ObservationBatch.of_rows [sample_obs 1 9 4]) (DeltaSink.of_rows [])
      = Some (self', DeltaSink.of_rows ds) ∧
    ∀ cid, total V' cid = delta_total ds cid.
Proof.
  destruct sample_store as (self & Hn & Hi & _).
  destruct (deltas_account self ∅ [sample_obs 1 9 4] Hi) as [_ (self' & V' & ds & H1 & _ & H2)];
    [repeat constructor; simpl; unfold U16_MAX; lia|].
  exists self, self', V', ds. split; [exact Hn|]. split; [exact H1|]. intros cid. rewrite H2. reflexivity.
Defined.

(** C25: [expire_at] drops exactly the cells whose bucket has left their rule's
    live window at [now], and reports each of them once: the drop of every
    identity's total is the sum reported for it. *)
Theorem expire_at_exact {C : Count} {CL : CountLaws C} self V now :
  inv self V →
  ∃ self' V' es,
    expire_at self now (ExpirationSink.of_rows []) = Some (self', ExpirationSink.of_rows es) ∧
    inv self' V' ∧
    (∀ n c, read self n = Some (Some c) →
       ∃ d, descriptor_of self (cn_fingerprint n) = Some d ∧
         read self' n = Some (if cn_bucket n + live_buckets d <? current_epoch d now
                              then None else Some c)) ∧
    (∀ n, read self n = Some None → read self' n = Some None) ∧
    ∀ cid, total V' cid = total V cid - expiration_total es cid.
Proof.
  intros Hi. destruct (expire_at_ok self V now [] Hi) as (self' & es & He & _ & Hi' & Hr).
  set (V' := filter _ V) in *. exists self', V', es. split; [done|]. split; [done|]. split; [|split].
  - intros n c. rewrite (read_ok self V n Hi), (read_ok self' V' n Hi'). intros [= Hn].
    pose proof Hi as (A & Mr & Mn & pins & Hat).
    pose proof Hn as (s & k & dr & dn & Hk & Hdr & Hdn & -> & _)%(iv_contents _ _ _ _ _ _ Hat).
    pose proof (descriptor_of_ok _ _ _ _ _ _ _ _ _ Hat Hk Hdr) as Hd. exists dr. split; [done|].
    f_equal. unfold V'. destruct (_ <? _) eqn:E.
    + apply map_lookup_filter_None. right. intros x Hx. unfold retained. simpl in *.
      by rewrite Hd, E.
    + apply map_lookup_filter_Some. split; [done|]. unfold retained. simpl in *. by rewrite Hd, E.
  - intros n. rewrite (read_ok self V n Hi), (read_ok self' V' n Hi'). intros [= Hn]. f_equal.
    apply map_lookup_filter_None. by left.
  - intros cid. apply reports_total; [|done]. apply map_filter_subseteq.
Qed.

Lemma expire_at_exact_witness :
  ∃ self self1 self' ds es d, new sample_config sample_id = Some self ∧
    @merge_remote Count_u16 self (ObservationBatch.of_rows [sample_obs 1 9 4])
      (DeltaSink.of_rows []) = Some (self1, DeltaSink.of_rows ds) ∧
    expire_at self1 1000 (ExpirationSink.of_rows []) = Some (self', ExpirationSink.of_rows es) ∧
    read self1 (remote_name (sample_obs 1 9 4)) = Some (Some 4) ∧
    read self' (remote_name (sample_obs 1 9 4)) =
      Some (if 5 + live_buckets d <? current_epoch d 1000 then None else Some 4).
Proof.
  destruct sample_store as (self & Hn & Hi & Hr & _).
  destruct (merge_remote_ok self ∅ [sample_obs 1 9 4] [] Hi)
    as (self1 & ds & acc & Hm & _ & Hi1 & _ & Hacc & _);
    [repeat constructor; simpl; unfold U16_MAX; lia|].
  rewrite Hacc in Hi1 by (unfold room, zlen in *; simpl in *; lia).
  destruct (expire_at_exact self1 _ 1000 Hi1) as (self' & V' & es & H1 & _ & H2 & _).
  assert (read self1 (remote_name (sample_obs 1 9 4)) = Some (Some 4)) as Hread
    by (by rewrite (read_ok _ _ _ Hi1)).
  destruct (H2 _ _ Hread) as (d & _ & Hd). exists self, self1, self', ds, es, d.
  split; [exact Hn|]. split; [exact Hm|]. split; [exact H1|]. split; [exact Hread|exact Hd].
Defined.

(** [clear] empties the store for every reader and invalidates every handle. *)
Theorem clear_forgets {C : Count} {CL : CountLaws C} self V :
  inv self V →
  ∃ self', clear self = Some self' ∧ inv self' ∅ ∧ (∀ n, read self' n = Some None) ∧
    ∀ h, 0 ≤ h_index h → count_of self' h = Some None.
Proof.
  intros Hi. destruct (store_clear_ok self V Hi) as (self' & Hc & _ & Hi').
  exists self'. split; [done|]. split; [done|].
  split; [intros n; rewrite (read_ok self' ∅ n Hi'); by rewrite lookup_empty|].
  intros h Hh. destruct Hi' as (A & Mr & Mn & pins & [Hsl Hrows Hd _ _ HV]).
  assert (∀ s, s ∉ dom A) as Hno.
  { intros s [k Hk]%elem_of_dom. destruct (ti_cells _ _ _ _ _ Hd s k Hk) as ([dr ?] & dn & ? & _).
    destruct (zget_in_range (counts self') s) as [c Hcs];
      [rewrite (si_counts _ _ Hsl); by apply (wi_key _ _ Hrows s k)|].
    assert ((∅ : gmap CellName Z) !! name_of dr dn k = Some c) by (apply HV; by exists s, k, dr, dn).
    by rewrite lookup_empty in *. }
  unfold count_of, resolve. destruct (capacity self' <=? h_index h) eqn:E; [done|]. bool_solve.
  destruct (zget_in_range (generations self') (h_index h)) as [g Hg];
    [rewrite (si_generations _ _ Hsl); lia|]. rewrite Hg. simpl.
  destruct (si_gen _ _ Hsl _ _ Hg) as [_ Hp]. rewrite bool_decide_false in Hp by apply Hno.
  destruct (g =? h_generation h) eqn:Eg; simpl; [|done]. bool_solve. subst g.
  by rewrite land_1_odd, Hp.
Qed.

Lemma clear_forgets_witness :
  ∃ self self', new sample_config sample_id = Some self ∧ clear self = Some self' ∧
    count_of self' {| h_index := 0; h_generation := 1 |} = Some None.
Proof.
  destruct sample_store as (self & Hn & Hi & _).
  destruct (clear_forgets self ∅ Hi) as (self' & H1 & _ & _ & H2).
  exists self, self'. split; [exact Hn|]. split; [exact H1|]. apply H2. simpl. lia.
Defined.

(** Registering a rule changes no count, and a registered rule's descriptor is
    the one a later lookup by fingerprint finds; only a full rule dictionary
    refuses one. *)
Theorem intern_rule_registers {C : Count} {CL : CountLaws C} self V d :
  inv self V →
  ∃ self' r, intern_rule self d = Some (self', r) ∧ inv self' V ∧
    (∀ n, read self' n = read self n) ∧
    match r with
    | Some slot => find_rule self' (fingerprint d) = Some (Some slot)
    | None => Dict.len (rule_dictionary self) = Dict.capacity (rule_dictionary self)
    end.
Proof.
  intros Hi. pose proof Hi as (A & Mr & Mn & pins & Hat).
  destruct (intern_rule_ok self A Mr Mn pins V d Hat)
    as (self' & r & Mr' & pins' & He & _ & Hi' & _ & Hr).
  assert (inv self' V) as Hinv' by (by exists A, Mr', Mn, pins').
  exists self', r. split; [done|]. split; [done|].
  split; [intros n; by rewrite (read_ok _ _ n Hi), (read_ok _ _ n Hinv')|].
  destruct r as [slot|]; [|tauto]. destruct Hr as (-> & _ & _).
  unfold find_rule, RuleDictionary.find.
  apply (dict_find_Some _ _ _ _ (ti_rules _ _ _ _ _ (iv_dicts _ _ _ _ _ _ Hi')) slot d).
  by rewrite lookup_insert_eq.
Qed.

Lemma intern_rule_registers_witness :
  ∃ self self' r, new sample_config sample_id = Some self ∧
    intern_rule self sample_rule = Some (self', r) ∧ ∀ n, read self' n = read self n.
Proof.
  destruct sample_store as (self & Hn & Hi & _).
  destruct (intern_rule_registers self ∅ sample_rule Hi) as (self' & r & H1 & _ & H2 & _).
  exists self, self', r. split; [exact Hn|]. split; [exact H1|exact H2].
Defined.
