(* ===== verification/Window.v ===== *)
(** * Sliding-window arithmetic

    [crates/gabion/src/window.rs].  The main theorem is exactness of
    [time_until_admit_millis]: at the returned delay the old hits that are
    still in the window leave room for the request, and at no earlier time do
    they. *)

From S2P Require Import Prelude Types.

Section window.
Context (count_for : BucketEpoch → Z).

(** The loop over buckets, oldest first; [None] is the [break]. *)
Fixpoint admit_loop (fuel : nat) (now bm live need current bucket aged_off : Z) :
    option (option Z) :=
  match fuel with
  | O => None
  | S fuel =>
    let aged_off := saturating_add 64 aged_off (count_for bucket) in
    if need <=? aged_off then
      let fall_off := saturating_mul 64 (bucket + live) bm in
      Some (Some (saturating_sub fall_off now))
    else if bucket =? current then Some None
    else admit_loop fuel now bm live need current (saturating_add 32 bucket 1) aged_off
  end.

Definition time_until_admit_millis (now_millis bucket_millis live_buckets limit total hits : Z) :
    option Z :=
  let bm := Z.max bucket_millis 1 in
  let live := Z.max live_buckets 1 in
  let need := saturating_sub (saturating_add 64 total hits) limit in
  if need =? 0 then Some 0 else
  let current := as_u32 (now_millis / bm) in
  let oldest := saturating_sub current (live - 1) in
  r ← admit_loop (S (Z.to_nat (current - oldest))) now_millis bm live need current oldest 0;
  match r with
  | Some d => Some d
  | None =>
    let fall_off := saturating_mul 64 (current + live) bm in
    Some (saturating_sub fall_off now_millis)
  end.
End window.

(** The delay depends on the counts only pointwise. *)
Lemma admit_loop_ext f g fuel now bm live need current : (∀ b, f b = g b) → ∀ bucket aged_off,
  admit_loop f fuel now bm live need current bucket aged_off = admit_loop g fuel now bm live need current bucket aged_off.
Proof. intros Hfg. induction fuel as [|fuel IH]; intros bucket aged_off; cbn; [done|]. by rewrite Hfg, IH. Qed.

#[export] Instance time_until_admit_proper :
  Proper (pointwise_relation _ (=) ==> (=) ==> (=) ==> (=) ==> (=) ==> (=) ==> (=) ==> (=)) time_until_admit_millis.
Proof.
  intros f g Hfg now ? <- bm ? <- live ? <- limit ? <- total ? <- hits ? <-. unfold time_until_admit_millis.
  by rewrite (admit_loop_ext f g) by exact Hfg.
Qed.

(** The loop visits at most one bucket per live epoch, so the fuel suffices for
    every input. *)
Lemma admit_loop_terminates count_for fuel now bm live need current bucket aged :
  bucket ≤ current ≤ U32_MAX → current - bucket < Z.of_nat fuel →
  is_Some (admit_loop count_for fuel now bm live need current bucket aged).
Proof.
  revert bucket aged. induction fuel as [|fuel IH]; intros bucket aged Hb Hf; [lia|].
  cbn [admit_loop]. destruct (need <=? _); [by eexists|].
  destruct (bucket =? current) eqn:E; [by eexists|]. bool_solve.
  apply IH; unfold saturating_add, U32_MAX in *; lia.
Qed.

Lemma time_until_admit_defined count_for now bm live limit total hits :
  is_Some (time_until_admit_millis count_for now bm live limit total hits).
Proof.
  unfold time_until_admit_millis. destruct (_ =? 0); [by eexists|].
  set (current := as_u32 _). assert (0 ≤ current ≤ U32_MAX).
  { unfold current, as_u32, U32_MAX. pose proof (Z.mod_pos_bound (now / Z.max bm 1) (2 ^ 32)). lia. }
  destruct (admit_loop_terminates count_for (S (Z.to_nat (current - saturating_sub current (Z.max live 1 - 1))))
    now (Z.max bm 1) (Z.max live 1) (saturating_sub (saturating_add 64 total hits) limit) current
    (saturating_sub current (Z.max live 1 - 1)) 0) as [r ->]; [unfold saturating_sub; lia|lia|].
  cbn. by destruct r; eexists.
Qed.

Definition retry_after_seconds (delta_millis : Z) : Z :=
  Z.max (div_ceil delta_millis 1000) 1.

Definition reset_unix_seconds (now_millis delta_millis : Z) : Z :=
  saturating_add 64 (now_millis / 1000) (retry_after_seconds delta_millis).

Definition limit_remaining (limit total : Z) : Z := saturating_sub limit total.

Definition time_until_next_bucket_boundary_millis (now_millis bucket_millis : Z) : Z :=
  let bm := Z.max bucket_millis 1 in
  bm - now_millis mod bm.

(** ** Sums over bucket ranges *)
Definition bucket_sum (cnt : Z → Z) (lo hi : Z) : Z :=
  foldr Z.add 0 (cnt <$> zrange lo (hi + 1)).

Lemma bucket_sum_empty cnt lo hi : hi < lo → bucket_sum cnt lo hi = 0.
Proof. intros. unfold bucket_sum. by rewrite zrange_nil by lia. Qed.

Lemma bucket_sum_first cnt lo hi :
  lo ≤ hi → bucket_sum cnt lo hi = cnt lo + bucket_sum cnt (lo + 1) hi.
Proof. intros. unfold bucket_sum. by rewrite zrange_cons by lia. Qed.

Lemma bucket_sum_split cnt lo mid hi :
  lo ≤ mid + 1 → mid ≤ hi →
  bucket_sum cnt lo hi = bucket_sum cnt lo mid + bucket_sum cnt (mid + 1) hi.
Proof.
  intros Hl Hm. remember (Z.to_nat (mid + 1 - lo)) as n eqn:Hn.
  revert lo Hl Hn. induction n as [|n IH]; intros lo Hl Hn.
  { assert (lo = mid + 1) as -> by lia. rewrite (bucket_sum_empty cnt (mid + 1) mid) by lia. lia. }
  rewrite (bucket_sum_first cnt lo hi), (bucket_sum_first cnt lo mid) by lia.
  rewrite (IH (lo + 1)) by lia. lia.
Qed.

Lemma bucket_sum_nonneg cnt lo hi : (∀ b, 0 ≤ cnt b) → 0 ≤ bucket_sum cnt lo hi.
Proof.
  intros Hc. unfold bucket_sum. induction (zrange lo (hi + 1)) as [|b l IH]; [done|].
  rewrite fmap_cons. cbn [foldr]. pose proof (Hc b). lia.
Qed.

(** Hits recorded up to bucket [current] that are still in the window of
    [live] buckets at time [T]. *)
Definition in_window (cnt : Z → Z) (bm live oldest current T : Z) : Z :=
  bucket_sum cnt (Z.max oldest (T / bm - live + 1)) current.

Section exact.
Context (cnt : Z → Z) (Hcnt : ∀ b, 0 ≤ cnt b).
Context (now bm live limit hits : Z).
Context (Hbm : 0 < bm) (Hlive : 0 < live ≤ U32_MAX) (Hnow : 0 ≤ now).
Context (Hhits : 0 ≤ hits ≤ limit).
Let current := now / bm.
Let oldest := Z.max 0 (current - (live - 1)).
Let total := bucket_sum cnt oldest current.
Context (Hcur : current ≤ U32_MAX).
Context (Hmul : (current + live) * bm ≤ U64_MAX) (Htot : total + hits ≤ U64_MAX).

Let need := total + hits - limit.

(** The first bucket at which the aged-off prefix reaches [need]. *)
Lemma admit_loop_ok fuel bucket :
  0 < need → oldest ≤ bucket ≤ current → current - bucket < Z.of_nat fuel →
  bucket_sum cnt oldest (bucket - 1) < need →
  ∃ B, admit_loop cnt fuel now bm live need current bucket
         (bucket_sum cnt oldest (bucket - 1)) = Some (Some ((B + live) * bm - now)) ∧
    bucket ≤ B ≤ current ∧ bucket_sum cnt oldest (B - 1) < need ≤ bucket_sum cnt oldest B.
Proof using Hcnt Hbm Hlive Hnow Hhits Hcur Hmul Htot.
  intros Hneed. revert bucket. induction fuel as [|fuel IH]; intros bucket Hb Hf Hpre; [lia|].
  simpl. pose proof (bucket_sum_split cnt oldest (bucket - 1) bucket ltac:(lia) ltac:(lia)) as Hs.
  replace (bucket - 1 + 1) with bucket in Hs by lia.
  rewrite (bucket_sum_first cnt bucket bucket), (bucket_sum_empty cnt (bucket + 1)) in Hs by lia.
  pose proof (bucket_sum_split cnt oldest bucket current ltac:(lia) ltac:(lia)) as Ht.
  fold total in Ht. pose proof (bucket_sum_nonneg cnt (bucket + 1) current Hcnt).
  assert (saturating_add 64 (bucket_sum cnt oldest (bucket - 1)) (cnt bucket) =
          bucket_sum cnt oldest bucket) as ->.
  { unfold saturating_add, U64_MAX in *. rewrite Z.min_l by lia. lia. }
  destruct (need <=? bucket_sum cnt oldest bucket) eqn:E; bool_solve.
  - exists bucket. split; [|lia]. unfold saturating_mul, saturating_sub, U64_MAX in *.
    assert ((bucket + live) * bm ≤ (current + live) * bm) by nia.
    rewrite Z.min_l by lia.
    assert (now < (bucket + live) * bm).
    { assert (current + 1 ≤ bucket + live) by (unfold oldest in Hb; lia).
      pose proof (Z.mul_succ_div_gt now bm Hbm). unfold current in *. nia. }
    by rewrite Z.max_r by lia.
  - destruct (bucket =? current) eqn:Ec; bool_solve.
    { subst bucket. fold total in E. unfold need in E. lia. }
    assert (saturating_add 32 bucket 1 = bucket + 1) as ->.
    { unfold saturating_add, U32_MAX in *. lia. }
    replace (bucket_sum cnt oldest bucket)
      with (bucket_sum cnt oldest (bucket + 1 - 1)) by (f_equal; lia).
    destruct (IH (bucket + 1)) as (B & -> & HB & Hsum);
      [lia|lia|by replace (bucket + 1 - 1) with bucket by lia|].
    exists B. split; [done|]. lia.
Qed.

(** The delay is the first instant at which the request fits. *)
Lemma time_until_admit_exact d :
  limit < total + hits →
  time_until_admit_millis cnt now bm live limit total hits = Some d →
  0 < d ∧ in_window cnt bm live oldest current (now + d) + hits ≤ limit ∧
  ∀ T, now ≤ T < now + d → limit < in_window cnt bm live oldest current T + hits.
Proof using Hcnt Hbm Hlive Hnow Hhits Hcur Hmul Htot.
  intros Hlim. unfold time_until_admit_millis. rewrite !Z.max_l by lia.
  assert (0 ≤ current) as Hc0 by (apply Z.div_pos; lia).
  assert (as_u32 (now / bm) = current) as ->.
  { unfold as_u32, U32_MAX in *. apply Z.mod_small. fold current. lia. }
  change (saturating_sub current (live - 1)) with oldest.
  assert (saturating_sub (saturating_add 64 total hits) limit = need) as ->.
  { unfold saturating_sub, saturating_add, U64_MAX, need in *. lia. }
  rewrite (proj2 (Z.eqb_neq need 0)) by (unfold need; lia).
  destruct (admit_loop_ok (S (Z.to_nat (current - oldest))) oldest)
    as (B & Heq & HB & Hlo & Hhi); [unfold need; lia|unfold oldest; lia|lia|..].
  { rewrite bucket_sum_empty by lia. unfold need. lia. }
  rewrite (bucket_sum_empty cnt oldest (oldest - 1)) in Heq by lia. rewrite Heq. simpl.
  intros [= <-].
  assert (current + 1 ≤ B + live) as HBl by (unfold oldest in HB; lia).
  pose proof (Z.mul_succ_div_gt now bm Hbm) as Hgt. fold current in Hgt.
  pose proof (bucket_sum_split cnt oldest B current ltac:(lia) ltac:(lia)) as Hsplit.
  fold total in Hsplit.
  split; [nia|]. split.
  - replace (now + ((B + live) * bm - now)) with ((B + live) * bm) by lia.
    unfold in_window. rewrite Z.div_mul by lia.
    replace (Z.max oldest (B + live - live + 1)) with (B + 1) by lia.
    unfold need in *. lia.
  - intros T HT. unfold in_window.
    assert (T / bm < B + live) by (apply Z.div_lt_upper_bound; lia).
    set (lo := Z.max oldest (T / bm - live + 1)).
    assert (lo ≤ B) by lia.
    pose proof (bucket_sum_split cnt lo (B - 1) current ltac:(lia) ltac:(lia)) as H1.
    pose proof (bucket_sum_split cnt oldest (B - 1) current ltac:(lia) ltac:(lia)) as H2.
    pose proof (bucket_sum_nonneg cnt lo (B - 1) Hcnt). fold total in H2.
    unfold need in *. lia.
Qed.

Lemma time_until_admit_total :
  ∃ d, time_until_admit_millis cnt now bm live limit total hits = Some d.
Proof using Hcnt Hbm Hlive Hnow Hhits Hcur Hmul Htot.
  unfold time_until_admit_millis. rewrite !Z.max_l by lia.
  assert (0 ≤ current) as Hc0 by (apply Z.div_pos; lia).
  assert (as_u32 (now / bm) = current) as ->.
  { unfold as_u32, U32_MAX in *. apply Z.mod_small. fold current. lia. }
  change (saturating_sub current (live - 1)) with oldest.
  pose proof (bucket_sum_nonneg cnt oldest current Hcnt) as Htn. fold total in Htn.
  assert (saturating_sub (saturating_add 64 total hits) limit = Z.max 0 need) as ->.
  { unfold saturating_sub, saturating_add, U64_MAX, need in *. lia. }
  destruct (Z.max 0 need =? 0) eqn:E; bool_solve; [by eexists|].
  rewrite Z.max_r by lia.
  destruct (admit_loop_ok (S (Z.to_nat (current - oldest))) oldest)
    as (B & Heq & _); [lia|unfold oldest; lia|lia|..].
  { rewrite bucket_sum_empty by lia. lia. }
  rewrite (bucket_sum_empty cnt oldest (oldest - 1)) in Heq by lia. rewrite Heq. simpl. eauto.
Qed.
End exact.

(** ** Seconds *)
Lemma retry_after_spec delta :
  0 ≤ delta →
  1 ≤ retry_after_seconds delta ∧ delta ≤ 1000 * retry_after_seconds delta ∧
  (retry_after_seconds delta = 1 ∨ 1000 * (retry_after_seconds delta - 1) < delta).
Proof.
  intros Hd. unfold retry_after_seconds.
  pose proof (div_ceil_spec delta 1000 Hd ltac:(lia)). lia.
Qed.

(** ** The next bucket boundary is when the oldest live bucket ages off *)
Lemma next_boundary_spec now bm :
  0 ≤ now → 0 < bm →
  let r := time_until_next_bucket_boundary_millis now bm in
  0 < r ≤ bm ∧ now + r = (now / bm + 1) * bm.
Proof.
  intros Hn Hb. unfold time_until_next_bucket_boundary_millis. rewrite Z.max_l by lia.
  pose proof (Z.mod_pos_bound now bm Hb). pose proof (Z.div_mod now bm ltac:(lia)). nia.
Qed.

(** The delay computed for a rejected request is exact.  With a uniform
    sliding window of [live] buckets of [bm] milliseconds, the request would fit
    once the delay has passed, and at no earlier instant. *)
Theorem admit_delay_exact (cnt : Z → Z) now bm live limit hits :
  let current := now / bm in
  let oldest := Z.max 0 (current - (live - 1)) in
  let total := bucket_sum cnt oldest current in
  (∀ b, 0 ≤ cnt b) → 0 < bm → 0 < live ≤ U32_MAX → 0 ≤ now → 0 ≤ hits ≤ limit →
  current ≤ U32_MAX → (current + live) * bm ≤ U64_MAX → total + hits ≤ U64_MAX →
  limit < total + hits →
  ∃ d, time_until_admit_millis cnt now bm live limit total hits = Some d ∧ 0 < d ∧
    in_window cnt bm live oldest current (now + d) + hits ≤ limit ∧
    ∀ T, now ≤ T < now + d → limit < in_window cnt bm live oldest current T + hits.
Proof.
  intros current oldest total Hcnt Hbm Hlive Hnow Hhits Hcur Hmul Htot Hlim.
  destruct (time_until_admit_total cnt Hcnt now bm live limit hits) as [d Hd]; try done.
  exists d. split; [done|].
  by apply (time_until_admit_exact cnt Hcnt now bm live limit hits).
Qed.

Lemma admit_delay_exact_witness :
  ∃ d, time_until_admit_millis (λ _, 2) 35 10 3 5 6 1 = Some d ∧ 0 < d ∧
    in_window (λ _, 2) 10 3 1 3 (35 + d) + 1 ≤ 5 ∧
    ∀ T, 35 ≤ T < 35 + d → 5 < in_window (λ _, 2) 10 3 1 3 T + 1.
Proof.
  apply (admit_delay_exact (λ _, 2) 35 10 3 5 1); try (intros; simpl; lia);
    vm_compute; try (split; congruence); try discriminate; try reflexivity.
Defined.

(** [Retry-After] is at least one second, never shorter than the delay in
    milliseconds, and less than a second longer unless it is the minimum; and
    [X-RateLimit-Reset] is the current second plus it. *)
Theorem retry_after_rounds_up now delta :
  0 ≤ delta → 0 ≤ now ≤ U64_MAX → now / 1000 + retry_after_seconds delta ≤ U64_MAX →
  1 ≤ retry_after_seconds delta ∧ delta ≤ 1000 * retry_after_seconds delta ∧
  (retry_after_seconds delta = 1 ∨ 1000 * (retry_after_seconds delta - 1) < delta) ∧
  reset_unix_seconds now delta = now / 1000 + retry_after_seconds delta.
Proof.
  intros Hd Hn Hm. destruct (retry_after_spec delta Hd) as (? & ? & ?).
  split; [done|]. split; [done|]. split; [done|].
  unfold reset_unix_seconds, saturating_add, U64_MAX in *. lia.
Qed.

Lemma retry_after_rounds_up_witness :
  1 ≤ retry_after_seconds 1001 ∧ 1001 ≤ 1000 * retry_after_seconds 1001 ∧
  (retry_after_seconds 1001 = 1 ∨ 1000 * (retry_after_seconds 1001 - 1) < 1001) ∧
  reset_unix_seconds 5000 1001 = 5000 / 1000 + retry_after_seconds 1001.
Proof. apply retry_after_rounds_up; vm_compute; try split; discriminate. Defined.

(** The reset time shown on the allow path is the instant at which the oldest
    live bucket ages off: strictly in the future, at most one bucket away, and a
    bucket boundary. *)
Theorem next_boundary_exact now bm :
  0 ≤ now → 0 < bm →
  0 < time_until_next_bucket_boundary_millis now bm ≤ bm ∧
  now + time_until_next_bucket_boundary_millis now bm = (now / bm + 1) * bm.
Proof. intros Hn Hb. by apply next_boundary_spec. Qed.

Lemma next_boundary_exact_witness :
  0 < time_until_next_bucket_boundary_millis 35 10 ≤ 10 ∧
  35 + time_until_next_bucket_boundary_millis 35 10 = (35 / 10 + 1) * 10.
Proof. apply next_boundary_exact; lia. Defined.
