(* ===== verification/Bytes.v ===== *)
(** * Byte slices

    What the wire codec uses of Rust's slices: sub-slices ([&s[a..b]]),
    [copy_from_slice] into a range, and little-endian conversions.  Bytes are
    [Z] in [0 .. 255]. *)

From S2P Require Import Prelude.

Definition byte (z : Z) : Prop := 0 ≤ z < 256.

(** [&l[a..b]] *)
Definition zslice {A} (l : list A) (a b : Z) : option (list A) :=
  if (0 <=? a) && (a <=? b) && (b <=? zlen l)
  then Some (take (Z.to_nat (b - a)) (drop (Z.to_nat a) l)) else None.

(** [l[a..a + xs.len()].copy_from_slice(xs)] *)
Definition splice {A} (l : list A) (a : Z) (xs : list A) : list A :=
  take (Z.to_nat a) l ++ xs ++ drop (Z.to_nat (a + zlen xs)) l.
Definition zcopy {A} (l : list A) (a : Z) (xs : list A) : option (list A) :=
  if (0 <=? a) && (a + zlen xs <=? zlen l) then Some (splice l a xs) else None.

(** [to_le_bytes] and [from_le_bytes] for an [n]-byte integer. *)
Fixpoint to_le_bytes (n : nat) (z : Z) : list Z :=
  match n with
  | O => []
  | S n => z mod 256 :: to_le_bytes n (z / 256)
  end.
Definition from_le_bytes (bs : list Z) : Z := foldr (λ b acc, b + 256 * acc) 0 bs.

(** [xs] is what [l] holds from offset [a] on. *)
Definition bytes_at {A} (l : list A) (a : Z) (xs : list A) : Prop :=
  zslice l a (a + zlen xs) = Some xs.

(** ** Little endian *)
Lemma length_to_le_bytes n z : length (to_le_bytes n z) = n.
Proof. revert z. induction n as [|n IH]; intros z; simpl; [done|]. by rewrite IH. Qed.

Lemma zlen_to_le_bytes n z : zlen (to_le_bytes n z) = Z.of_nat n.
Proof. unfold zlen. by rewrite length_to_le_bytes. Qed.

Lemma from_to_le_bytes n z :
  0 ≤ z < 256 ^ Z.of_nat n → from_le_bytes (to_le_bytes n z) = z.
Proof.
  revert z. induction n as [|n IH]; intros z Hz; simpl.
  { simpl in Hz. lia. }
  unfold from_le_bytes in IH. rewrite IH.
  - pose proof (Z.div_mod z 256 ltac:(lia)). lia.
  - rewrite Nat2Z.inj_succ, Z.pow_succ_r in Hz by lia.
    split; [apply Z.div_pos; lia|]. apply Z.div_lt_upper_bound; lia.
Qed.

Lemma from_le_bytes_bound bs :
  Forall byte bs → 0 ≤ from_le_bytes bs < 256 ^ zlen bs.
Proof.
  unfold zlen. induction 1 as [|b bs Hb _ IH]; cbn [from_le_bytes foldr length]; [done|].
  rewrite Nat2Z.inj_succ, Z.pow_succ_r by lia. unfold byte, from_le_bytes in *. lia.
Qed.

Lemma to_from_le_bytes bs :
  Forall byte bs → to_le_bytes (length bs) (from_le_bytes bs) = bs.
Proof.
  induction 1 as [|b bs Hb Hbs IH]; [done|]. cbn [length to_le_bytes from_le_bytes foldr].
  fold (from_le_bytes bs). unfold byte in Hb.
  replace ((b + 256 * from_le_bytes bs) mod 256) with b
    by (rewrite (Z.mul_comm 256), Z.mod_add by lia; by rewrite Z.mod_small).
  replace ((b + 256 * from_le_bytes bs) / 256) with (from_le_bytes bs); [by rewrite IH|].
  rewrite (Z.mul_comm 256), Z.div_add by lia. rewrite Z.div_small by lia. lia.
Qed.

Lemma to_le_bytes_bytes n z : Forall byte (to_le_bytes n z).
Proof.
  revert z. induction n as [|n IH]; intros z; simpl; [constructor|].
  constructor; [apply Z.mod_pos_bound; lia|apply IH].
Qed.

(** A narrower prefix of a little-endian encoding, as [read_count] and
    [write_body] use it. *)
Lemma take_to_le_bytes n m z :
  (n ≤ m)%nat → take n (to_le_bytes m z) = to_le_bytes n z.
Proof.
  revert m z. induction n as [|n IH]; intros m z Hnm; [done|].
  destruct m as [|m]; [lia|]. simpl. by rewrite IH by lia.
Qed.

Lemma from_le_bytes_zeros bs n : from_le_bytes (bs ++ replicate n 0) = from_le_bytes bs.
Proof.
  unfold from_le_bytes. rewrite foldr_app.
  assert (foldr (λ b acc, b + 256 * acc) 0 (replicate n 0) = 0) as ->; [|done].
  induction n as [|n IH]; simpl; lia.
Qed.

(** ** Ranges *)
Section ranges.
Context {A : Type}.
Implicit Types (l xs : list A).

Lemma zslice_ok l a b :
  0 ≤ a ≤ b → b ≤ zlen l → ∃ s, zslice l a b = Some s ∧ zlen s = b - a.
Proof.
  intros Ha Hb. unfold zslice.
  replace ((0 <=? a) && (a <=? b) && (b <=? zlen l)) with true by lia.
  eexists. split; [done|]. unfold zlen in *. rewrite length_take, length_drop. lia.
Qed.

Lemma zslice_Some l a b s :
  zslice l a b = Some s → 0 ≤ a ≤ b ∧ b ≤ zlen l ∧ zlen s = b - a ∧
                          s = take (Z.to_nat (b - a)) (drop (Z.to_nat a) l).
Proof.
  unfold zslice. destruct (_ && _) eqn:E; [|done]. intros [= <-].
  unfold zlen in *. rewrite length_take, length_drop. split_and!; lia || done.
Qed.

Lemma zlen_splice l a xs :
  0 ≤ a → a + zlen xs ≤ zlen l → zlen (splice l a xs) = zlen l.
Proof.
  intros. unfold splice, zlen in *. rewrite !length_app, length_take, length_drop. lia.
Qed.

Lemma zcopy_ok l a xs :
  0 ≤ a → a + zlen xs ≤ zlen l → zcopy l a xs = Some (splice l a xs).
Proof.
  intros. unfold zcopy. by replace ((0 <=? a) && (a + zlen xs <=? zlen l)) with true by lia.
Qed.

Lemma bytes_at_range l a xs : bytes_at l a xs → 0 ≤ a ∧ a + zlen xs ≤ zlen l.
Proof. intros (? & ? & _)%zslice_Some. lia. Qed.

Lemma bytes_at_splice_same l a xs :
  0 ≤ a → a + zlen xs ≤ zlen l → bytes_at (splice l a xs) a xs.
Proof.
  intros Ha Hl. pose proof (zlen_nonneg xs). unfold bytes_at, zslice.
  rewrite zlen_splice by done.
  replace ((0 <=? a) && (a <=? a + zlen xs) && (a + zlen xs <=? zlen l)) with true by lia.
  f_equal. unfold splice, zlen in *.
  rewrite drop_app_ge by (rewrite length_take; lia). rewrite length_take.
  replace (Z.to_nat a - _)%nat with 0%nat by lia. rewrite drop_0.
  replace (Z.to_nat _) with (length xs) by lia. by rewrite take_app_length.
Qed.

(** A write elsewhere does not disturb a range. *)
Lemma bytes_at_splice_ne l a xs c ys :
  0 ≤ c → c + zlen ys ≤ zlen l → a + zlen xs ≤ c ∨ c + zlen ys ≤ a →
  bytes_at l a xs → bytes_at (splice l c ys) a xs.
Proof.
  intros Hc Hl Hdis (Ha & Hb & _ & Hx)%zslice_Some.
  unfold bytes_at, zslice. rewrite zlen_splice by done.
  replace ((0 <=? a) && (a <=? a + zlen xs) && (a + zlen xs <=? zlen l)) with true by lia.
  f_equal. rewrite Hx at 2. unfold splice, zlen in *.
  set (n := Z.to_nat (a + Z.of_nat (length xs) - a)).
  apply list_eq. intros i. destruct (decide (i < n)%nat).
  - rewrite !lookup_take_lt, !lookup_drop by done. destruct Hdis.
    + rewrite lookup_app_l by (rewrite length_take; lia). by rewrite lookup_take_lt by lia.
    + rewrite lookup_app_r by (rewrite length_take; lia). rewrite length_take.
      rewrite lookup_app_r by lia. rewrite lookup_drop. f_equal. lia.
  - rewrite !lookup_take_ge by lia. done.
Qed.

(** One [copy_from_slice], as the code that follows sees it. *)
Lemma zcopy_step l a xs :
  0 ≤ a → a + zlen xs ≤ zlen l →
  ∃ l', zcopy l a xs = Some l' ∧ zlen l' = zlen l ∧ bytes_at l' a xs ∧
    ∀ c ys, c + zlen ys ≤ a ∨ a + zlen xs ≤ c → bytes_at l c ys → bytes_at l' c ys.
Proof.
  intros Ha Hl. exists (splice l a xs). split; [by apply zcopy_ok|].
  split; [by apply zlen_splice|]. split; [by apply bytes_at_splice_same|].
  intros c ys Hd. by apply bytes_at_splice_ne.
Qed.

Lemma bytes_at_single l a x : bytes_at l a [x] ↔ zget l a = Some x.
Proof.
  split.
  - intros (Ha & Hb & _ & Hx)%zslice_Some. change (zlen [x]) with 1 in *.
    replace (Z.to_nat (a + 1 - a)) with 1%nat in Hx by lia. rewrite zget_lookup by lia.
    destruct (drop (Z.to_nat a) l) as [|y l'] eqn:Hd; [done|]. simpl in Hx.
    rewrite take_0 in Hx. injection Hx as ->.
    rewrite <- (Nat.add_0_r (Z.to_nat a)), <- lookup_drop, Hd. done.
  - unfold bytes_at, zslice, zget, zlen. change (Z.of_nat (length [x])) with 1.
    destruct (0 <=? a) eqn:E; [|done]. intros Hx. pose proof (lookup_lt_Some _ _ _ Hx).
    replace (true && (a <=? a + 1) && (a + 1 <=? Z.of_nat (length l))) with true by lia.
    f_equal. replace (Z.to_nat (a + 1 - a)) with 1%nat by lia.
    rewrite (drop_S _ _ _ Hx). simpl. by rewrite take_0.
Qed.

Lemma zupd_splice l a x : 0 ≤ a < zlen l → zupd l a x = splice l a [x].
Proof.
  intros Ha. apply list_eq_zget.
  { by rewrite zlen_zupd, zlen_splice by (unfold zlen in *; simpl; lia). }
  intros i _. rewrite zget_zupd by done. case_decide as Hi.
  - subst i. symmetry. apply bytes_at_single, bytes_at_splice_same; unfold zlen in *; simpl; lia.
  - destruct (zget l i) as [y|] eqn:Hy.
    + symmetry. apply bytes_at_single, bytes_at_splice_ne; [unfold zlen in *; simpl; lia..|].
      by apply bytes_at_single.
    + symmetry. apply zget_out. rewrite zlen_splice by (unfold zlen in *; simpl; lia).
      intros Hr. destruct (zget_in_range l i Hr) as [? ?]. congruence.
Qed.

(** Reading a range through an enclosing sub-slice. *)
Lemma zslice_zslice l a b s c d :
  zslice l a b = Some s → 0 ≤ c ≤ d → d ≤ b - a →
  zslice s c d = zslice l (a + c) (a + d).
Proof.
  intros (Ha & Hb & Hlen & Hs)%zslice_Some Hc Hd. unfold zslice.
  replace ((0 <=? c) && (c <=? d) && (d <=? zlen s)) with true by lia.
  replace ((0 <=? a + c) && (a + c <=? a + d) && (a + d <=? zlen l)) with true by lia.
  f_equal. subst s. rewrite skipn_firstn_comm, take_take, drop_drop.
  f_equal; [lia|]. f_equal. lia.
Qed.

Lemma zslice_all l n : n = zlen l → zslice l 0 n = Some l.
Proof.
  intros ->. unfold zslice. pose proof (zlen_nonneg l).
  replace ((0 <=? 0) && (0 <=? zlen l) && (zlen l <=? zlen l)) with true by lia.
  f_equal. rewrite Z.sub_0_r, drop_0. unfold zlen. rewrite Nat2Z.id. by apply firstn_all.
Qed.

Lemma zslice_mid (pre mid post : list A) :
  zslice (pre ++ mid ++ post) (zlen pre) (zlen pre + zlen mid) = Some mid.
Proof.
  unfold zslice. pose proof (zlen_nonneg pre). pose proof (zlen_nonneg mid).
  assert (zlen (pre ++ mid ++ post) = zlen pre + zlen mid + zlen post) as ->
    by (rewrite !zlen_app; lia). pose proof (zlen_nonneg post).
  match goal with |- (if ?b then _ else _) = _ => replace b with true by lia end. f_equal.
  unfold zlen.
  rewrite Nat2Z.id, drop_app_length. replace (Z.to_nat _) with (length mid) by lia.
  by rewrite take_app_length.
Qed.
End ranges.
