(* ===== verification/WireHeader.v ===== *)
(** * The frame header and the authentication tag

    [crates/gabion/src/wire/header.rs] and [wire/auth.rs]: the fixed 72-byte
    little-endian header, written field by field into a buffer and read back
    with its checks. *)

From S2P Require Import Prelude Bytes.

Definition HEADER_LEN : Z := 72.
Definition MAGIC : Z := 1195525938. (* 0x4742_4732 *)
Definition VERSION : Z := 1.
Definition FLAG_MORE : Z := 1.
Definition FLAG_AUTHENTICATED : Z := 2.

Inductive DecodeError :=
  | TooShort | BadMagic | BadVersion | BadCountWidth | PayloadTooLarge
  | CapacityExceeded | BodyLenMismatch | BadSlot | AuthenticationFailed | Trailing.

Record Header := {
  cluster_id_hash : Z;
  sender_node_id : Z;
  sender_incarnation : Z;
  count_width : Z;
  cell_count : Z;
  body_len : Z;
  min_origin_sequence : Z;
  max_origin_sequence : Z;
  hdr_flags : Z;
}.
#[export] Instance Header_eq_dec : EqDecision Header.
Proof. solve_decision. Defined.
#[global] Instance eta_Header : Eta Header := λ x,
  {| cluster_id_hash := cluster_id_hash x; sender_node_id := sender_node_id x;
     sender_incarnation := sender_incarnation x; count_width := count_width x;
     cell_count := cell_count x; body_len := body_len x;
     min_origin_sequence := min_origin_sequence x;
     max_origin_sequence := max_origin_sequence x; hdr_flags := hdr_flags x |}.

Definition patch_header (buf : list Z) (hdr : Header) : option (list Z) :=
  assert_ (HEADER_LEN <=? zlen buf);;
  b ← zcopy buf 0 (to_le_bytes 4 MAGIC);
  b ← zcopy b 4 (to_le_bytes 2 VERSION);
  b ← zcopy b 6 (to_le_bytes 2 (hdr_flags hdr));
  b ← zcopy b 8 (to_le_bytes 16 (cluster_id_hash hdr));
  b ← zcopy b 24 (to_le_bytes 16 (sender_node_id hdr));
  b ← zcopy b 40 (to_le_bytes 4 (sender_incarnation hdr));
  b ← zcopy b 44 (to_le_bytes 4 (count_width hdr));
  b ← zcopy b 48 (to_le_bytes 4 (cell_count hdr));
  b ← zcopy b 52 (to_le_bytes 4 (body_len hdr));
  b ← zcopy b 56 (to_le_bytes 8 (min_origin_sequence hdr));
  zcopy b 64 (to_le_bytes 8 (max_origin_sequence hdr)).

(** [uN::from_le_bytes(bytes[a..b].try_into().unwrap())] *)
Definition read_le (bytes : list Z) (a b : Z) : option Z :=
  s ← zslice bytes a b; Some (from_le_bytes s).

Definition read_header (bytes : list Z) : option (Header + DecodeError) :=
  if zlen bytes <? HEADER_LEN then Some (Err TooShort) else
  magic ← read_le bytes 0 4;
  if negb (magic =? MAGIC) then Some (Err BadMagic) else
  version ← read_le bytes 4 6;
  if negb (version =? VERSION) then Some (Err BadVersion) else
  flags ← read_le bytes 6 8;
  cluster ← read_le bytes 8 24;
  sender ← read_le bytes 24 40;
  inc ← read_le bytes 40 44;
  width ← read_le bytes 44 48;
  cells ← read_le bytes 48 52;
  blen ← read_le bytes 52 56;
  min_seq ← read_le bytes 56 64;
  max_seq ← read_le bytes 64 72;
  Some (Ok {| cluster_id_hash := cluster; sender_node_id := sender;
              sender_incarnation := inc; count_width := width; cell_count := cells;
              body_len := blen; min_origin_sequence := min_seq;
              max_origin_sequence := max_seq; hdr_flags := flags |}).

(** A header whose fields fit their Rust types. *)
Definition header_ok (h : Header) : Prop :=
  uint 128 (cluster_id_hash h) ∧ uint 128 (sender_node_id h) ∧
  uint 32 (sender_incarnation h) ∧ uint 32 (count_width h) ∧ uint 32 (cell_count h) ∧
  uint 32 (body_len h) ∧ uint 64 (min_origin_sequence h) ∧
  uint 64 (max_origin_sequence h) ∧ uint 16 (hdr_flags h).

(** [hdr] is what the first 72 bytes of [buf] say. *)
Record header_at (buf : list Z) (hdr : Header) : Prop := {
  ha_len : HEADER_LEN ≤ zlen buf;
  ha_magic : bytes_at buf 0 (to_le_bytes 4 MAGIC);
  ha_version : bytes_at buf 4 (to_le_bytes 2 VERSION);
  ha_flags : bytes_at buf 6 (to_le_bytes 2 (hdr_flags hdr));
  ha_cluster : bytes_at buf 8 (to_le_bytes 16 (cluster_id_hash hdr));
  ha_sender : bytes_at buf 24 (to_le_bytes 16 (sender_node_id hdr));
  ha_inc : bytes_at buf 40 (to_le_bytes 4 (sender_incarnation hdr));
  ha_width : bytes_at buf 44 (to_le_bytes 4 (count_width hdr));
  ha_cells : bytes_at buf 48 (to_le_bytes 4 (cell_count hdr));
  ha_blen : bytes_at buf 52 (to_le_bytes 4 (body_len hdr));
  ha_min : bytes_at buf 56 (to_le_bytes 8 (min_origin_sequence hdr));
  ha_max : bytes_at buf 64 (to_le_bytes 8 (max_origin_sequence hdr));
}.

(** Run the next [copy_from_slice] of a straight-line sequence of writes. *)
Ltac write_step H :=
  match goal with
  | |- context [zcopy ?l ?a ?xs] =>
    let l' := fresh "b" in let Hl := fresh "Hlen" in let Hx := fresh "Hw" in
    destruct (zcopy_step l a xs) as (l' & -> & Hl & Hx & H);
    [lia|rewrite zlen_to_le_bytes; lia|simpl]
  end.

(** A field written earlier survives the writes that follow. *)
Ltac survives :=
  repeat first [ assumption
               | match goal with
                 | H : ∀ c ys, _ → bytes_at _ c ys → bytes_at ?l c ys |- bytes_at ?l _ _ =>
                   apply H; [rewrite ?zlen_to_le_bytes in *; lia|]
                 end ].

Opaque to_le_bytes.
Lemma patch_header_ok buf hdr :
  HEADER_LEN ≤ zlen buf →
  ∃ buf', patch_header buf hdr = Some buf' ∧ header_at buf' hdr ∧ zlen buf' = zlen buf ∧
    ∀ a xs, HEADER_LEN ≤ a → bytes_at buf a xs → bytes_at buf' a xs.
Proof.
  intros Hl. unfold patch_header, HEADER_LEN in *. replace (72 <=? zlen buf) with true by lia.
  simpl. write_step H1. write_step H2. write_step H3. write_step H4. write_step H5.
  write_step H6. write_step H7. write_step H8. write_step H9. write_step H10. write_step H11.
  eexists. split; [done|]. split; [|split; [lia|]].
  - split; [unfold HEADER_LEN; lia|survives..].
  - intros a xs Ha Hx. pose proof (zlen_nonneg xs). survives.
Qed.

Lemma read_le_ok buf a b n z :
  bytes_at buf a (to_le_bytes n z) → b = a + Z.of_nat n → 0 ≤ z < 256 ^ Z.of_nat n →
  read_le buf a b = Some z.
Proof.
  intros Hb -> Hz. unfold read_le, bytes_at in *. rewrite zlen_to_le_bytes in Hb. rewrite Hb. simpl.
  by rewrite from_to_le_bytes.
Qed.

Lemma read_header_ok buf hdr :
  header_at buf hdr → header_ok hdr → read_header buf = Some (Ok hdr).
Proof.
  intros [] Hok. unfold header_ok, uint in Hok. destruct Hok as (? & ? & ? & ? & ? & ? & ? & ? & ?).
  unfold read_header. replace (zlen buf <? HEADER_LEN) with false by lia.
  rewrite (read_le_ok buf 0 4 4 MAGIC) by done. simpl.
  rewrite (read_le_ok buf 4 6 2 VERSION) by done. simpl.
  rewrite (read_le_ok buf 6 8 2 (hdr_flags hdr)) by done. simpl.
  rewrite (read_le_ok buf 8 24 16 (cluster_id_hash hdr)) by done. simpl.
  rewrite (read_le_ok buf 24 40 16 (sender_node_id hdr)) by done. simpl.
  rewrite (read_le_ok buf 40 44 4 (sender_incarnation hdr)) by done. simpl.
  rewrite (read_le_ok buf 44 48 4 (count_width hdr)) by done. simpl.
  rewrite (read_le_ok buf 48 52 4 (cell_count hdr)) by done. simpl.
  rewrite (read_le_ok buf 52 56 4 (body_len hdr)) by done. simpl.
  rewrite (read_le_ok buf 56 64 8 (min_origin_sequence hdr)) by done. simpl.
  rewrite (read_le_ok buf 64 72 8 (max_origin_sequence hdr)) by done. simpl.
  by destruct hdr.
Qed.
Transparent to_le_bytes.

(** Reading never panics, and a header that is read fits its types. *)
Lemma read_le_total bytes a b :
  Forall byte bytes → 0 ≤ a ≤ b → b ≤ zlen bytes →
  ∃ z, read_le bytes a b = Some z ∧ 0 ≤ z < 256 ^ (b - a).
Proof.
  intros Hf Ha Hb. unfold read_le. destruct (zslice_ok bytes a b Ha Hb) as (s & Hs & Hlen).
  rewrite Hs. simpl. eexists. split; [done|]. rewrite <- Hlen. apply from_le_bytes_bound.
  apply zslice_Some in Hs as (_ & _ & _ & ->). by apply Forall_take, Forall_drop.
Qed.

Lemma read_header_total bytes :
  Forall byte bytes →
  ∃ r, read_header bytes = Some r ∧ ∀ h, r = Ok h → header_ok h ∧ HEADER_LEN ≤ zlen bytes.
Proof.
  intros Hf. unfold read_header.
  destruct (zlen bytes <? HEADER_LEN) eqn:E; [by eexists|].
  unfold HEADER_LEN in *. bool_solve.
  destruct (read_le_total bytes 0 4 Hf) as (magic & -> & _); [lia..|]. simpl.
  destruct (magic =? MAGIC); simpl; [|by eexists].
  destruct (read_le_total bytes 4 6 Hf) as (version & -> & _); [lia..|]. simpl.
  destruct (version =? VERSION); simpl; [|by eexists].
  destruct (read_le_total bytes 6 8 Hf) as (f & -> & ?); [lia..|]. simpl.
  destruct (read_le_total bytes 8 24 Hf) as (c & -> & ?); [lia..|]. simpl.
  destruct (read_le_total bytes 24 40 Hf) as (sn & -> & ?); [lia..|]. simpl.
  destruct (read_le_total bytes 40 44 Hf) as (inc & -> & ?); [lia..|]. simpl.
  destruct (read_le_total bytes 44 48 Hf) as (w & -> & ?); [lia..|]. simpl.
  destruct (read_le_total bytes 48 52 Hf) as (cc & -> & ?); [lia..|]. simpl.
  destruct (read_le_total bytes 52 56 Hf) as (bl & -> & ?); [lia..|]. simpl.
  destruct (read_le_total bytes 56 64 Hf) as (mn & -> & ?); [lia..|]. simpl.
  destruct (read_le_total bytes 64 72 Hf) as (mx & -> & ?); [lia..|]. simpl.
  eexists. split; [done|]. intros h [= <-]. split; [|lia].
  unfold header_ok, uint. simpl in *. split_and!; lia.
Qed.

(** ** Authentication

    HMAC-SHA256 is a library: [hmac key payload] stands for its tag.
    [verify] recomputes the tag and compares it with the one received. *)
Definition AUTH_TAG_LEN : Z := 32.

Section auth.
Context (hmac : list Z → list Z → list Z).

Definition sign (key payload : list Z) : list Z := hmac key payload.
Definition verify (key payload tag : list Z) : unit + DecodeError :=
  if bool_decide (hmac key payload = tag) then Ok () else Err AuthenticationFailed.
End auth.

(** A header written into a buffer reads back unchanged, for every header whose
    fields fit their types, and writing touches only the first 72 bytes. *)
Theorem header_roundtrip buf hdr :
  HEADER_LEN ≤ zlen buf → header_ok hdr →
  ∃ buf', patch_header buf hdr = Some buf' ∧ read_header buf' = Some (Ok hdr) ∧
    zlen buf' = zlen buf ∧ ∀ a xs, HEADER_LEN ≤ a → bytes_at buf a xs → bytes_at buf' a xs.
Proof.
  intros Hl Hok. destruct (patch_header_ok buf hdr Hl) as (buf' & Hp & Hat & Hlen & Hk).
  exists buf'. split; [done|]. split; [by apply read_header_ok|]. done.
Qed.

Definition sample_header : Header := {|
  cluster_id_hash := 3; sender_node_id := 7; sender_incarnation := 1; count_width := 2;
  cell_count := 0; body_len := 0; min_origin_sequence := 0; max_origin_sequence := 0;
  hdr_flags := 0 |}.

Lemma header_roundtrip_witness :
  ∃ buf', patch_header (replicate 80 0) sample_header = Some buf' ∧
    read_header buf' = Some (Ok sample_header).
Proof.
  destruct (header_roundtrip (replicate 80 0) sample_header) as (buf' & H1 & H2 & _).
  - vm_compute. discriminate.
  - unfold header_ok, uint. simpl. lia.
  - exists buf'. split; [exact H1|exact H2].
Defined.
