(* ===== verification/WireBody.v ===== *)
(** * The packet body codec

    [crates/gabion/src/wire/body.rs]: column slabs with per-packet
    dictionaries.  [plan_packet] chooses how many handles fit, [write_body]
    fills the slabs in a second pass, [decode_body_visit] reads them back.
    The theorems: planning respects the byte budget, the two passes agree, and
    decoding an encoded body visits exactly the planned cells in order. *)

From S2P Require Import Prelude Types Dictionary IO CellStore Bytes WireHeader.

Definition PER_CELL_IDENT_BYTES : Z := 1 + 16 + 4 + 1 + 4 + 8 + 8.
Definition DICT_LEN_BYTES : Z := 2.
Definition MAX_DICT_SLOTS : Z := 255.

Record WireCell := {
  wc_rule_fingerprint : Z;
  wc_key_hash : KeyHash;
  wc_bucket : BucketEpoch;
  wc_origin_node_id : NodeId;
  wc_origin_incarnation : Incarnation;
  wc_count : Z;
  wc_last_update_millis : Z;
  wc_origin_sequence : Z;
}.

Record WireScratch := {
  rule_remap : list Z;
  node_remap : list Z;
  rule_fps : list Z;
  node_ids : list Z;
}.
#[global] Instance eta_WireScratch : Eta WireScratch := λ x,
  {| rule_remap := rule_remap x; node_remap := node_remap x; rule_fps := rule_fps x;
     node_ids := node_ids x |}.

Definition for_store (store : CellStore.t) : WireScratch := {|
  rule_remap := replicate (Z.to_nat (Dict.capacity (CellStore.rule_dictionary store))) U8_MAX;
  node_remap := replicate (Z.to_nat (Dict.capacity (CellStore.node_dictionary store))) U8_MAX;
  rule_fps := [];
  node_ids := [];
|}.

Definition reset (s : WireScratch) : WireScratch := {|
  rule_remap := (λ _, U8_MAX) <$> rule_remap s;
  node_remap := (λ _, U8_MAX) <$> node_remap s;
  rule_fps := [];
  node_ids := [];
|}.

Record EncodedBody := {
  eb_body_len : Z;
  eb_cells_emitted : Z;
  eb_cells_dropped : Z;
  eb_min_origin_sequence : Z;
  eb_max_origin_sequence : Z;
  eb_handles_consumed : Z;
}.

Record Plan := {
  p_consumed : Z;
  p_cells_emitted : Z;
  p_cells_dropped : Z;
  p_rule_count : Z;
  p_node_count : Z;
  p_body_len : Z;
  p_min_seq : Z;
  p_max_seq : Z;
}.

(** The three lookups both passes start with: [Some None] is a stale handle. *)
Definition wire_row (store : CellStore.t) (h : CellHandle) :
    option (option (CellRow * RuleDescriptor * NodeDescriptor)) :=
  row ← CellStore.get store h;
  match row with
  | None => Some None
  | Some row =>
    rd ← RuleDictionary.descriptor (CellStore.rule_dictionary store) (ck_rule (cr_key row));
    match rd with
    | None => Some None
    | Some rd =>
      nd ← NodeDictionary.descriptor (CellStore.node_dictionary store) (ck_origin (cr_key row));
      match nd with
      | None => Some None
      | Some nd => Some (Some (row, rd, nd))
      end
    end
  end.

(** The locals of [plan_packet]'s loop. *)
Record PlanState := {
  ps_consumed : Z;
  ps_emitted : Z;
  ps_dropped : Z;
  ps_r : Z;
  ps_d : Z;
  ps_min : Z;
  ps_max : Z;
  ps_scratch : WireScratch;
}.
#[global] Instance eta_PlanState : Eta PlanState := λ x,
  {| ps_consumed := ps_consumed x; ps_emitted := ps_emitted x; ps_dropped := ps_dropped x;
     ps_r := ps_r x; ps_d := ps_d x; ps_min := ps_min x; ps_max := ps_max x;
     ps_scratch := ps_scratch x |}.

Section encode.
Context (store : CellStore.t) (body_budget count_size : Z).
Let per_cell_bytes : Z := PER_CELL_IDENT_BYTES + count_size.

(** Assign a per-packet slot to an unseen rule; likewise a node. *)
Definition intern_rule_slot (st : PlanState) (slot fp : Z) : option PlanState :=
  remap ← zset (rule_remap (ps_scratch st)) slot (ps_r st);
  r ← checked 8 (ps_r st + 1);
  Some (st <| ps_scratch := ps_scratch st <| rule_remap := remap |>
                              <| rule_fps := rule_fps (ps_scratch st) ++ [fp] |> |>
           <| ps_r := r |>).
Definition intern_node_slot (st : PlanState) (slot id : Z) : option PlanState :=
  remap ← zset (node_remap (ps_scratch st)) slot (ps_d st);
  d ← checked 8 (ps_d st + 1);
  Some (st <| ps_scratch := ps_scratch st <| node_remap := remap |>
                              <| node_ids := node_ids (ps_scratch st) ++ [id] |> |>
           <| ps_d := d |>).

(** One handle: [None] at the inner level is [break]. *)
Definition plan_step (st : PlanState) (h : CellHandle) : option (option PlanState) :=
  w ← wire_row store h;
  match w with
  | None =>
    Some (Some (st <| ps_consumed := ps_consumed st + 1 |>
                   <| ps_dropped := saturating_add 32 (ps_dropped st) 1 |>))
  | Some (row, rd, nd) =>
    rv ← zget (rule_remap (ps_scratch st)) (ck_rule (cr_key row));
    nv ← zget (node_remap (ps_scratch st)) (ck_origin (cr_key row));
    let rule_unseen := rv =? U8_MAX in
    let node_unseen := nv =? U8_MAX in
    let new_r := ps_r st + (if rule_unseen then 1 else 0) in
    let new_d := ps_d st + (if node_unseen then 1 else 0) in
    if (MAX_DICT_SLOTS <? new_r) || (MAX_DICT_SLOTS <? new_d) then Some None else
    let projected_body := DICT_LEN_BYTES + 16 * new_r + 16 * new_d
                          + (ps_emitted st + 1) * per_cell_bytes in
    if body_budget <? projected_body then Some None else
    st ← (if rule_unseen
          then intern_rule_slot st (ck_rule (cr_key row)) (fingerprint rd) else Some st);
    st ← (if node_unseen
          then intern_node_slot st (ck_origin (cr_key row)) (node_id nd) else Some st);
    let q := cr_origin_sequence row in
    Some (Some (st <| ps_emitted := saturating_add 32 (ps_emitted st) 1 |>
                   <| ps_min := if q <? ps_min st then q else ps_min st |>
                   <| ps_max := if ps_max st <? q then q else ps_max st |>
                   <| ps_consumed := ps_consumed st + 1 |>))
  end.

(** The loop over the handles from [start_at] on. *)
Fixpoint plan_loop (rest : list CellHandle) (st : PlanState) : option PlanState :=
  match rest with
  | [] => Some st
  | h :: rest =>
    r ← plan_step st h;
    match r with
    | None => Some st
    | Some st => plan_loop rest st
    end
  end.

Definition plan_packet (handles : list CellHandle) (start_at : Z) (scratch : WireScratch) :
    option (Plan * WireScratch) :=
  rest ← zslice handles start_at (zlen handles);
  st ← plan_loop rest
    {| ps_consumed := 0; ps_emitted := 0; ps_dropped := 0; ps_r := 0; ps_d := 0;
       ps_min := U64_MAX; ps_max := 0; ps_scratch := scratch |};
  let n := ps_emitted st in
  Some ({| p_consumed := ps_consumed st;
           p_cells_emitted := n;
           p_cells_dropped := ps_dropped st;
           p_rule_count := ps_r st;
           p_node_count := ps_d st;
           p_body_len := if n =? 0 then 0
             else DICT_LEN_BYTES + 16 * (ps_r st + ps_d st) + n * per_cell_bytes;
           p_min_seq := if n =? 0 then 0 else ps_min st;
           p_max_seq := ps_max st |}, ps_scratch st).

(** ** The second pass *)

(** Slab offsets of [write_body] and [decode_body_visit], from the end of
    the dictionaries. *)
Definition rule_slot_off (base : Z) : Z := base.
Definition key_hash_off (base n : Z) : Z := rule_slot_off base + n.
Definition bucket_off (base n : Z) : Z := key_hash_off base n + 16 * n.
Definition node_slot_off (base n : Z) : Z := bucket_off base n + 4 * n.
Definition origin_inc_off (base n : Z) : Z := node_slot_off base n + n.
Definition last_update_off (base n : Z) : Z := origin_inc_off base n + 4 * n.
Definition origin_seq_off (base n : Z) : Z := last_update_off base n + 8 * n.
Definition count_off (base n : Z) : Z := origin_seq_off base n + 8 * n.

(** [for &fp in fps { body[cursor..cursor + 16] = fp; cursor += 16 }] *)
Fixpoint write_dict (fps : list Z) (body : list Z) (cursor : Z) : option (list Z * Z) :=
  match fps with
  | [] => Some (body, cursor)
  | fp :: fps =>
    body ← zcopy body cursor (to_le_bytes 16 fp);
    write_dict fps body (cursor + 16)
  end.

Definition write_cell (scratch : WireScratch) (base n i : Z) (row : CellRow)
    (body : list Z) : option (list Z) :=
  rv ← zget (rule_remap scratch) (ck_rule (cr_key row));
  body ← zset body (rule_slot_off base + i) rv;
  body ← zcopy body (key_hash_off base n + i * 16) (to_le_bytes 16 (ck_key_hash (cr_key row)));
  body ← zcopy body (bucket_off base n + i * 4) (to_le_bytes 4 (ck_bucket (cr_key row)));
  nv ← zget (node_remap scratch) (ck_origin (cr_key row));
  body ← zset body (node_slot_off base n + i) nv;
  body ← zcopy body (origin_inc_off base n + i * 4)
    (to_le_bytes 4 (ck_incarnation (cr_key row)));
  body ← zcopy body (last_update_off base n + i * 8)
    (to_le_bytes 8 (cr_last_update_millis row));
  body ← zcopy body (origin_seq_off base n + i * 8)
    (to_le_bytes 8 (cr_origin_sequence row));
  zcopy body (count_off base n + i * count_size)
    (take (Z.to_nat count_size) (to_le_bytes 8 (cr_count row))).

(** [while consumed < plan.consumed && i < n] over the planned handles. *)
Fixpoint write_cells (scratch : WireScratch) (base n i : Z) (hs : list CellHandle)
    (body : list Z) : option (list Z * Z) :=
  match hs with
  | [] => Some (body, i)
  | h :: hs =>
    if negb (i <? n) then Some (body, i) else
    w ← wire_row store h;
    match w with
    | None => write_cells scratch base n i hs body
    | Some (row, _, _) =>
      body ← write_cell scratch base n i row body;
      write_cells scratch base n (i + 1) hs body
    end
  end.

Definition write_body (handles : list CellHandle) (start_at : Z) (plan : Plan)
    (scratch : WireScratch) (out : list Z) : option (list Z) :=
  let n := p_cells_emitted plan in
  let body := replicate (Z.to_nat (p_body_len plan)) 0 in
  body ← zset body 0 (p_rule_count plan);
  fps ← zslice (rule_fps scratch) 0 (p_rule_count plan);
  '(body, cursor) ← write_dict fps body 1;
  body ← zset body cursor (p_node_count plan);
  let cursor := cursor + 1 in
  ids ← zslice (node_ids scratch) 0 (p_node_count plan);
  '(body, cursor) ← write_dict ids body cursor;
  assert_ (count_off cursor n + count_size * n =? p_body_len plan);;
  hs ← zslice handles start_at (start_at + p_consumed plan);
  '(body, i) ← write_cells scratch cursor n 0 hs body;
  assert_ (i =? n);;
  Some (out ++ body).

Definition encode_packet_body (handles : list CellHandle) (start_at : Z)
    (scratch : WireScratch) (out : list Z) :
    option (EncodedBody * WireScratch * list Z) :=
  assert_ (start_at <=? zlen handles);;
  '(plan, scratch) ← plan_packet handles start_at (reset scratch);
  if p_cells_emitted plan =? 0 then
    Some ({| eb_body_len := 0; eb_cells_emitted := 0;
             eb_cells_dropped := p_cells_dropped plan;
             eb_min_origin_sequence := 0; eb_max_origin_sequence := 0;
             eb_handles_consumed := p_consumed plan |}, scratch, out)
  else
  out ← write_body handles start_at plan scratch out;
  Some ({| eb_body_len := p_body_len plan;
           eb_cells_emitted := p_cells_emitted plan;
           eb_cells_dropped := p_cells_dropped plan;
           eb_min_origin_sequence := p_min_seq plan;
           eb_max_origin_sequence := p_max_seq plan;
           eb_handles_consumed := p_consumed plan |}, scratch, out).
End encode.

Section decode.
Context `{C : Count}.

(** [read_uN(&slab[off..])] *)
Definition read_at (slab : list Z) (off width : Z) : option Z :=
  src ← zslice slab off (zlen slab);
  s ← zslice src 0 width;
  Some (from_le_bytes s).

(** [read_count]: [size_of::<C>()] bytes, zero-extended to a [u64]. *)
Definition read_count (slab : list Z) (off : Z) : option Z :=
  src ← zslice slab off (zlen slab);
  s ← zslice src 0 count_size;
  Some (saturating_from_u64
          (from_le_bytes (s ++ replicate (Z.to_nat (8 - count_size)) 0))).

Record Slabs := {
  sl_rule_dict : list Z;
  sl_node_dict : list Z;
  sl_rule_slot : list Z;
  sl_key_hash : list Z;
  sl_bucket : list Z;
  sl_node_slot : list Z;
  sl_origin_inc : list Z;
  sl_last_update : list Z;
  sl_origin_seq : list Z;
  sl_count : list Z;
}.

(** One cell of the decode loop; [Err] stops the loop. *)
Definition decode_cell (s : Slabs) (rule_dict_len node_dict_len i : Z) :
    option (WireCell + DecodeError) :=
  rs ← zget (sl_rule_slot s) i;
  if rule_dict_len <=? rs then Some (Err BadSlot) else
  ns ← zget (sl_node_slot s) i;
  if node_dict_len <=? ns then Some (Err BadSlot) else
  fp ← read_at (sl_rule_dict s) (rs * 16) 16;
  id ← read_at (sl_node_dict s) (ns * 16) 16;
  kh ← read_at (sl_key_hash s) (i * 16) 16;
  b ← read_at (sl_bucket s) (i * 4) 4;
  inc ← read_at (sl_origin_inc s) (i * 4) 4;
  u ← read_at (sl_last_update s) (i * 8) 8;
  q ← read_at (sl_origin_seq s) (i * 8) 8;
  c ← read_count (sl_count s) (i * count_size);
  Some (Ok {| wc_rule_fingerprint := fp; wc_key_hash := kh; wc_bucket := b;
              wc_origin_node_id := id; wc_origin_incarnation := inc; wc_count := c;
              wc_last_update_millis := u; wc_origin_sequence := q |}).

(** [for i in is { .. on_cell(..) }]; the cells visited so far are kept
    when a bad slot stops the loop. *)
Fixpoint decode_cells (s : Slabs) (rule_dict_len node_dict_len : Z) (is_ : list Z)
    (visited : list WireCell) : option (list WireCell * (unit + DecodeError)) :=
  match is_ with
  | [] => Some (visited, Ok ())
  | i :: is_ =>
    c ← decode_cell s rule_dict_len node_dict_len i;
    match c with
    | inr e => Some (visited, Err e)
    | inl c => decode_cells s rule_dict_len node_dict_len is_ (visited ++ [c])
    end
  end.

Definition read_slabs (bytes : list Z) (rule_dict_end node_dict_end n : Z) : option Slabs :=
  rule_dict ← zslice bytes 1 rule_dict_end;
  node_dict ← zslice bytes (rule_dict_end + 1) node_dict_end;
  rule_slot ← zslice bytes (rule_slot_off node_dict_end) (key_hash_off node_dict_end n);
  key_hash ← zslice bytes (key_hash_off node_dict_end n) (bucket_off node_dict_end n);
  bucket ← zslice bytes (bucket_off node_dict_end n) (node_slot_off node_dict_end n);
  node_slot ← zslice bytes (node_slot_off node_dict_end n) (origin_inc_off node_dict_end n);
  origin_inc ← zslice bytes (origin_inc_off node_dict_end n) (last_update_off node_dict_end n);
  last_update ← zslice bytes (last_update_off node_dict_end n) (origin_seq_off node_dict_end n);
  origin_seq ← zslice bytes (origin_seq_off node_dict_end n) (count_off node_dict_end n);
  count ← zslice bytes (count_off node_dict_end n) (count_off node_dict_end n + count_size * n);
  assert_ (count_off node_dict_end n + count_size * n =? zlen bytes);;
  Some {| sl_rule_dict := rule_dict; sl_node_dict := node_dict; sl_rule_slot := rule_slot;
          sl_key_hash := key_hash; sl_bucket := bucket; sl_node_slot := node_slot;
          sl_origin_inc := origin_inc; sl_last_update := last_update;
          sl_origin_seq := origin_seq; sl_count := count |}.

Definition decode_body_visit (bytes : list Z) (cell_count : Z) :
    option (list WireCell * (unit + DecodeError)) :=
  if cell_count =? 0 then
    Some ([], if negb (zlen bytes =? 0) then Err BodyLenMismatch else Ok ())
  else if zlen bytes =? 0 then Some ([], Err BodyLenMismatch) else
  rule_dict_len ← zget bytes 0;
  if rule_dict_len =? 0 then Some ([], Err BodyLenMismatch) else
  let rule_dict_end := 1 + 16 * rule_dict_len in
  if zlen bytes <? rule_dict_end + 1 then Some ([], Err BodyLenMismatch) else
  node_dict_len ← zget bytes rule_dict_end;
  if node_dict_len =? 0 then Some ([], Err BodyLenMismatch) else
  let node_dict_end := rule_dict_end + 1 + 16 * node_dict_len in
  let n := cell_count in
  match checked 64 (n * (PER_CELL_IDENT_BYTES + count_size)) with
  | None => Some ([], Err BodyLenMismatch)
  | Some expected_tail =>
    match checked 64 (node_dict_end + expected_tail) with
    | None => Some ([], Err BodyLenMismatch)
    | Some expected_total =>
      if negb (zlen bytes =? expected_total) then Some ([], Err BodyLenMismatch) else
      s ← read_slabs bytes rule_dict_end node_dict_end n;
      decode_cells s rule_dict_len node_dict_len (zrange 0 n) []
    end
  end.
End decode.
