(* ===== verification/WirePlan.v ===== *)
(** * Packet planning

    [plan_packet] consumes a prefix of the handles, keeps the cells that
    resolve, assigns every rule and origin it meets a per-packet slot, and
    never projects a body over the budget. *)

From S2P Require Import Prelude Types Dictionary IO CellStore CellSlots CellInv CellOps CellMerge Bytes WireHeader WireBody.

Abbreviation entry := (CellRow * RuleDescriptor * NodeDescriptor)%type (only parsing).

Definition e_row (e : entry) : CellRow := e.1.1.
Definition e_rule (e : entry) : RuleDescriptor := e.1.2.
Definition e_node (e : entry) : NodeDescriptor := e.2.
Definition e_rule_slot (e : entry) : Z := ck_rule (cr_key (e_row e)).
Definition e_node_slot (e : entry) : Z := ck_origin (cr_key (e_row e)).

(** [es] are the cells that the handles [hs] resolve to, in order. *)
Definition resolves (store : CellStore.t) (hs : list CellHandle) (es : list entry) : Prop :=
  ∃ ws, mapM (wire_row store) hs = Some ws ∧ es = omap id ws.

Lemma resolves_nil store : resolves store [] [].
Proof. by exists []. Qed.

Lemma resolves_length store hs es : resolves store hs es → zlen es ≤ zlen hs.
Proof.
  intros (ws & Hm%mapM_Some & ->). unfold zlen. apply inj_le. clear -Hm.
  induction Hm as [|h w hs ws _ _ IH]; [done|]. destruct w; cbn; lia.
Qed.

Lemma resolves_snoc store hs es h w :
  resolves store hs es → wire_row store h = Some w →
  resolves store (hs ++ [h]) (es ++ match w with Some e => [e] | None => [] end).
Proof.
  intros (ws & Hws & ->) Hw. exists (ws ++ [w]). split.
  - apply mapM_Some in Hws. apply mapM_Some. apply Forall2_app; [done|]. by repeat constructor.
  - rewrite omap_app. simpl. by destruct w.
Qed.

(** Fingerprint and node id a dictionary slot stands for. *)
Definition fp_of (store : CellStore.t) (slot : Z) : Z :=
  match RuleDictionary.descriptor (CellStore.rule_dictionary store) slot with
  | Some (Some d) => fingerprint d | _ => 0 end.
Definition id_of (store : CellStore.t) (slot : Z) : Z :=
  match NodeDictionary.descriptor (CellStore.node_dictionary store) slot with
  | Some (Some d) => node_id d | _ => 0 end.

(** ** Per-packet slot assignment *)
Record remap_ok (remap fps : list Z) (r : Z) (ident : Z → Z) : Prop := {
  ro_len : zlen fps = r;
  ro_bound : 0 ≤ r ≤ 255;
  ro_slot slot v : zget remap slot = Some v →
    v = U8_MAX ∨ (0 ≤ v < r ∧ zget fps v = Some (ident slot));
}.

Lemma remap_assign remap fps r ident slot :
  remap_ok remap fps r ident → zget remap slot = Some U8_MAX → r + 1 ≤ 255 →
  remap_ok (zupd remap slot r) (fps ++ [ident slot]) (r + 1) ident.
Proof.
  intros [Hlen Hb Hs] Hslot Hr. pose proof (zget_Some_range _ _ _ Hslot).
  split; [rewrite zlen_app, Hlen; done|lia|].
  intros s v. rewrite zget_zupd by done. case_decide.
  - subst s. intros [= <-]. right. split; [lia|]. rewrite <- Hlen. unfold zlen.
    by rewrite zget_nat, lookup_app_r, Nat.sub_diag by lia.
  - intros Hv. destruct (Hs s v Hv) as [?|[? Hf]]; [by left|]. right. split; [lia|].
    rewrite zget_app_l by lia. done.
Qed.

Lemma remap_reset n ident : remap_ok (replicate n U8_MAX) [] 0 ident.
Proof.
  split; [done|lia|]. intros slot v Hv. left. pose proof (zget_Some_range _ _ _ Hv) as Hr.
  rewrite zlen_replicate in Hr. rewrite zget_replicate in Hv by done. congruence.
Qed.

(** A slot already assigned keeps its value. *)
Lemma remap_keep remap slot r s v :
  zget remap slot = Some U8_MAX → zget remap s = Some v → v ≠ U8_MAX →
  zget (zupd remap slot r) s = Some v.
Proof.
  intros Hslot Hs Hv. rewrite zget_zupd_ne; [done|]. intros ->. congruence.
Qed.

Section plan.
Context (store : CellStore.t) (body_budget count_size : Z).
Context (Hcs : 0 < count_size ≤ 8).
Let per := PER_CELL_IDENT_BYTES + count_size.
Let rule_cap := Dict.capacity (CellStore.rule_dictionary store).
Let node_cap := Dict.capacity (CellStore.node_dictionary store).

(** What a resolved handle provides. *)
Definition entry_slots (e : entry) : Prop :=
  0 ≤ e_rule_slot e < rule_cap ∧ 0 ≤ e_node_slot e < node_cap ∧
  fingerprint (e_rule e) = fp_of store (e_rule_slot e) ∧
  node_id (e_node e) = id_of store (e_node_slot e).

(** The slots of an emitted cell have been assigned. *)
Definition assigned (s : WireScratch) (e : entry) : Prop :=
  (∃ v, zget (rule_remap s) (e_rule_slot e) = Some v ∧ v ≠ U8_MAX) ∧
  (∃ v, zget (node_remap s) (e_node_slot e) = Some v ∧ v ≠ U8_MAX).

(** The sequence range a header advertises. *)
Definition min_seq (es : list entry) : Z :=
  foldl (λ m e, Z.min m (cr_origin_sequence (e_row e))) U64_MAX es.
Definition max_seq (es : list entry) : Z :=
  foldl (λ m e, Z.max m (cr_origin_sequence (e_row e))) 0 es.

Record plan_inv (st : PlanState) (hs : list CellHandle) (es : list entry) : Prop := {
  pi_resolves : resolves store hs es;
  pi_consumed : ps_consumed st = zlen hs;
  pi_emitted : ps_emitted st = zlen es;
  pi_dropped : ps_dropped st = zlen hs - zlen es;
  pi_rules : remap_ok (rule_remap (ps_scratch st)) (rule_fps (ps_scratch st)) (ps_r st)
               (fp_of store);
  pi_nodes : remap_ok (node_remap (ps_scratch st)) (node_ids (ps_scratch st)) (ps_d st)
               (id_of store);
  pi_rule_cap : zlen (rule_remap (ps_scratch st)) = rule_cap;
  pi_node_cap : zlen (node_remap (ps_scratch st)) = node_cap;
  pi_assigned : Forall (assigned (ps_scratch st)) es;
  pi_slots : Forall entry_slots es;
  pi_first : es = [] → ps_r st = 0 ∧ ps_d st = 0;
  pi_some : es ≠ [] → 0 < ps_r st ∧ 0 < ps_d st;
  pi_budget : es ≠ [] →
    DICT_LEN_BYTES + 16 * (ps_r st + ps_d st) + zlen es * per ≤ body_budget;
  pi_min : ps_min st = min_seq es;
  pi_max : ps_max st = max_seq es;
}.

(** Assigning slots leaves earlier assignments alone. *)
Lemma intern_rule_slot_ok st slot fp :
  remap_ok (rule_remap (ps_scratch st)) (rule_fps (ps_scratch st)) (ps_r st) (fp_of store) →
  zget (rule_remap (ps_scratch st)) slot = Some U8_MAX → ps_r st + 1 ≤ 255 →
  fp = fp_of store slot →
  ∃ remap, intern_rule_slot st slot fp =
      Some (st <| ps_scratch := ps_scratch st <| rule_remap := remap |>
                     <| rule_fps := rule_fps (ps_scratch st) ++ [fp] |> |>
               <| ps_r := ps_r st + 1 |>) ∧
    remap_ok remap (rule_fps (ps_scratch st) ++ [fp]) (ps_r st + 1) (fp_of store) ∧
    zlen remap = zlen (rule_remap (ps_scratch st)) ∧
    zget remap slot = Some (ps_r st) ∧
    ∀ s v, zget (rule_remap (ps_scratch st)) s = Some v → v ≠ U8_MAX → zget remap s = Some v.
Proof.
  intros Hok Hslot Hr ->. pose proof (zget_Some_range _ _ _ Hslot).
  pose proof (ro_bound _ _ _ _ Hok).
  unfold intern_rule_slot. rewrite zset_ok by done. simpl. rewrite checked_ok by lia. simpl.
  eexists. split; [done|]. split; [by apply remap_assign|]. split; [apply zlen_zupd|].
  split; [by apply zget_zupd_eq|]. intros s v. by apply remap_keep.
Qed.

Lemma intern_node_slot_ok st slot id :
  remap_ok (node_remap (ps_scratch st)) (node_ids (ps_scratch st)) (ps_d st) (id_of store) →
  zget (node_remap (ps_scratch st)) slot = Some U8_MAX → ps_d st + 1 ≤ 255 →
  id = id_of store slot →
  ∃ remap, intern_node_slot st slot id =
      Some (st <| ps_scratch := ps_scratch st <| node_remap := remap |>
                     <| node_ids := node_ids (ps_scratch st) ++ [id] |> |>
               <| ps_d := ps_d st + 1 |>) ∧
    remap_ok remap (node_ids (ps_scratch st) ++ [id]) (ps_d st + 1) (id_of store) ∧
    zlen remap = zlen (node_remap (ps_scratch st)) ∧
    zget remap slot = Some (ps_d st) ∧
    ∀ s v, zget (node_remap (ps_scratch st)) s = Some v → v ≠ U8_MAX → zget remap s = Some v.
Proof.
  intros Hok Hslot Hd ->. pose proof (zget_Some_range _ _ _ Hslot).
  pose proof (ro_bound _ _ _ _ Hok).
  unfold intern_node_slot. rewrite zset_ok by done. simpl. rewrite checked_ok by lia. simpl.
  eexists. split; [done|]. split; [by apply remap_assign|]. split; [apply zlen_zupd|].
  split; [by apply zget_zupd_eq|]. intros s v. by apply remap_keep.
Qed.

(** The two conditional assignments of one admitted cell. *)
Lemma admit_slots st e rv nv :
  remap_ok (rule_remap (ps_scratch st)) (rule_fps (ps_scratch st)) (ps_r st) (fp_of store) →
  remap_ok (node_remap (ps_scratch st)) (node_ids (ps_scratch st)) (ps_d st) (id_of store) →
  zget (rule_remap (ps_scratch st)) (e_rule_slot e) = Some rv →
  zget (node_remap (ps_scratch st)) (e_node_slot e) = Some nv →
  entry_slots e →
  let new_r := ps_r st + (if rv =? U8_MAX then 1 else 0) in
  let new_d := ps_d st + (if nv =? U8_MAX then 1 else 0) in
  new_r ≤ 255 → new_d ≤ 255 →
  ∃ sc,
    (st1 ← (if rv =? U8_MAX
            then intern_rule_slot st (e_rule_slot e) (fingerprint (e_rule e)) else Some st);
     (if nv =? U8_MAX
      then intern_node_slot st1 (e_node_slot e) (node_id (e_node e)) else Some st1)) =
    Some (st <| ps_scratch := sc |> <| ps_r := new_r |> <| ps_d := new_d |>) ∧
    remap_ok (rule_remap sc) (rule_fps sc) new_r (fp_of store) ∧
    remap_ok (node_remap sc) (node_ids sc) new_d (id_of store) ∧
    zlen (rule_remap sc) = zlen (rule_remap (ps_scratch st)) ∧
    zlen (node_remap sc) = zlen (node_remap (ps_scratch st)) ∧
    (∀ e', assigned (ps_scratch st) e' → assigned sc e') ∧ assigned sc e ∧
    0 < new_r ∧ 0 < new_d.
Proof.
  intros Hr Hn Hrv Hnv (Hrs & Hns & Hfp & Hid) new_r new_d Hr255 Hd255.
  pose proof (ro_bound _ _ _ _ Hr). pose proof (ro_bound _ _ _ _ Hn).
  assert (∃ sc1,
    (if rv =? U8_MAX then intern_rule_slot st (e_rule_slot e) (fingerprint (e_rule e))
     else Some st) = Some (st <| ps_scratch := sc1 |> <| ps_r := new_r |>) ∧
    remap_ok (rule_remap sc1) (rule_fps sc1) new_r (fp_of store) ∧
    node_remap sc1 = node_remap (ps_scratch st) ∧ node_ids sc1 = node_ids (ps_scratch st) ∧
    zlen (rule_remap sc1) = zlen (rule_remap (ps_scratch st)) ∧
    (∀ s v, zget (rule_remap (ps_scratch st)) s = Some v → v ≠ U8_MAX →
       zget (rule_remap sc1) s = Some v) ∧
    (∃ v, zget (rule_remap sc1) (e_rule_slot e) = Some v ∧ v ≠ U8_MAX) ∧ 0 < new_r)
    as (sc1 & He1 & Hr1 & Hsame & Hsame' & Hl1 & Hk1 & Ha1 & Hp1).
  { unfold new_r in *. destruct (rv =? U8_MAX) eqn:E; bool_solve.
    - subst rv. destruct (intern_rule_slot_ok st _ _ Hr Hrv ltac:(lia) Hfp)
        as (remap & -> & Hr1 & Hl1 & Hz & Hk).
      eexists. split; [done|]. simpl. split_and!; try done; [|lia].
      exists (ps_r st). split; [done|]. unfold U8_MAX. lia.
    - exists (ps_scratch st). rewrite !Z.add_0_r. split; [by destruct st|].
      split_and!; try done; [by exists rv|].
      destruct (ro_slot _ _ _ _ Hr _ _ Hrv) as [?|[? _]]; [done|lia]. }
  rewrite He1. simpl.
  set (st1 := st <| ps_scratch := sc1 |> <| ps_r := new_r |>).
  assert (∃ sc2,
    (if nv =? U8_MAX then intern_node_slot st1 (e_node_slot e) (node_id (e_node e))
     else Some st1) = Some (st <| ps_scratch := sc2 |> <| ps_r := new_r |> <| ps_d := new_d |>) ∧
    remap_ok (node_remap sc2) (node_ids sc2) new_d (id_of store) ∧
    rule_remap sc2 = rule_remap sc1 ∧ rule_fps sc2 = rule_fps sc1 ∧
    zlen (node_remap sc2) = zlen (node_remap (ps_scratch st)) ∧
    (∀ s v, zget (node_remap (ps_scratch st)) s = Some v → v ≠ U8_MAX →
       zget (node_remap sc2) s = Some v) ∧
    (∃ v, zget (node_remap sc2) (e_node_slot e) = Some v ∧ v ≠ U8_MAX) ∧ 0 < new_d)
    as (sc2 & He2 & Hn2 & Hsr & Hsr' & Hl2 & Hk2 & Ha2 & Hp2).
  { unfold new_d in *. destruct (nv =? U8_MAX) eqn:E; bool_solve.
    - subst nv. rewrite <- Hsame, <- Hsame' in Hn. rewrite <- Hsame in Hnv.
      destruct (intern_node_slot_ok st1 _ _ Hn Hnv ltac:(simpl; lia) Hid)
        as (remap & -> & Hn2 & Hl2 & Hz & Hk). simpl in *.
      eexists. split; [done|]. simpl. rewrite <- Hsame. split_and!; try done; [|lia].
      exists (ps_d st). split; [done|]. unfold U8_MAX. lia.
    - exists sc1. rewrite !Z.add_0_r. split; [by destruct st|]. rewrite Hsame, Hsame'.
      split_and!; try done; [by exists nv|].
      destruct (ro_slot _ _ _ _ Hn _ _ Hnv) as [?|[? _]]; [done|lia]. }
  exists sc2. split; [done|]. rewrite Hsr, Hsr'. split_and!; try done.
  - intros e' [(v & Hv & Hv') (w & Hw & Hw')]. split; [exists v|exists w].
    + rewrite Hsr. eauto.
    + eauto.
  - split; [by rewrite Hsr|done].
Qed.

(** One handle: consumed (emitted or dropped), or the packet is full. *)
Lemma plan_step_ok st hs es h w :
  plan_inv st hs es → wire_row store h = Some w → (∀ e, w = Some e → entry_slots e) →
  zlen hs < U32_MAX →
  ∃ r, plan_step store body_budget count_size st h = Some r ∧
    match r with
    | Some st' =>
      plan_inv st' (hs ++ [h]) (es ++ match w with Some e => [e] | None => [] end)
    | None => w ≠ None ∧ (es = [] → body_budget < DICT_LEN_BYTES + 32 + per)
    end.
Proof using Hcs.
  intros Hinv Hw Hsl Hlt. pose proof Hinv as [].
  pose proof (resolves_snoc _ _ _ _ _ pi_resolves0 Hw) as Hres.
  pose proof (resolves_length _ _ _ pi_resolves0) as Hle.
  pose proof (zlen_nonneg es). unfold plan_step. rewrite Hw. simpl.
  destruct w as [e|].
  2:{ eexists. split; [done|]. rewrite app_nil_r in *.
      split; simpl; try done; rewrite ?zlen_app; unfold saturating_add, U32_MAX, zlen in *;
        simpl; lia. }
  destruct (Hsl e eq_refl) as (Hrs & Hns & Hfp & Hid).
  destruct e as [[row rd] nd]. change (ck_rule (cr_key row)) with (e_rule_slot (row, rd, nd)).
  change (ck_origin (cr_key row)) with (e_node_slot (row, rd, nd)).
  set (e := (row, rd, nd)) in *.
  destruct (zget_in_range (rule_remap (ps_scratch st)) (e_rule_slot e)) as [rv Hrv]; [lia|].
  destruct (zget_in_range (node_remap (ps_scratch st)) (e_node_slot e)) as [nv Hnv]; [lia|].
  rewrite Hrv, Hnv. simpl.
  set (new_r := ps_r st + (if rv =? U8_MAX then 1 else 0)).
  set (new_d := ps_d st + (if nv =? U8_MAX then 1 else 0)).
  assert (ps_r st ≤ new_r ≤ ps_r st + 1) by (unfold new_r; case_match; lia).
  assert (ps_d st ≤ new_d ≤ ps_d st + 1) by (unfold new_d; case_match; lia).
  assert (es = [] → ps_r st = 0 ∧ ps_d st = 0 ∧ zlen es = 0) as Hfirst.
  { intros Hes. destruct (pi_first0 Hes). by rewrite Hes. }
  unfold MAX_DICT_SLOTS. destruct ((255 <? new_r) || (255 <? new_d)) eqn:E1.
  { eexists. split; [done|]. split; [done|]. intros Hes%Hfirst. lia. }
  apply orb_false_iff in E1 as [E1 E1']. bool_solve.
  fold per. destruct (body_budget <? _) eqn:E2; bool_solve.
  { eexists. split; [done|]. split; [done|]. intros Hes%Hfirst.
    unfold PER_CELL_IDENT_BYTES, DICT_LEN_BYTES in *. lia. }
  destruct (admit_slots st e rv nv pi_rules0 pi_nodes0 Hrv Hnv (Hsl e eq_refl) E1 E1')
    as (sc & Hadm & Hr' & Hn' & Hl1 & Hl2 & Hkeep & Hass & Hp1 & Hp2).
  fold new_r new_d in Hadm, Hr', Hn', Hp1, Hp2.
  change (fingerprint rd) with (fingerprint (e_rule e)).
  change (node_id nd) with (node_id (e_node e)).
  destruct (if rv =? U8_MAX then intern_rule_slot _ _ _ else _) as [st1|] eqn:Est1; simpl in Hadm |- *; [|done].
  rewrite Hadm. simpl. eexists. split; [done|].
  assert (zlen (es ++ [e]) = zlen es + 1) as Hlen1 by (by rewrite zlen_app).
  assert (zlen (hs ++ [h]) = zlen hs + 1) as Hlen2 by (by rewrite zlen_app).
  split; simpl; rewrite ?Hlen1, ?Hlen2; try done; try lia.
  - unfold saturating_add, U32_MAX in *. lia.
  - apply Forall_app. split; [|by apply Forall_singleton].
    eapply Forall_impl; [exact pi_assigned0|]. apply Hkeep.
  - apply Forall_app. split; [done|]. apply Forall_singleton. auto.
  - by intros [_ ?]%app_nil.
  - unfold min_seq in *. rewrite foldl_app. cbn [foldl]. rewrite <- pi_min0.
    change (cr_origin_sequence (e_row e)) with (cr_origin_sequence row).
    destruct (_ <? _) eqn:Eq; bool_solve; lia.
  - unfold max_seq in *. rewrite foldl_app. cbn [foldl]. rewrite <- pi_max0.
    change (cr_origin_sequence (e_row e)) with (cr_origin_sequence row).
    destruct (_ <? _) eqn:Eq; bool_solve; lia.
Qed.

Definition fresh_state (scratch : WireScratch) : PlanState :=
  {| ps_consumed := 0; ps_emitted := 0; ps_dropped := 0; ps_r := 0; ps_d := 0;
     ps_min := U64_MAX; ps_max := 0; ps_scratch := scratch |}.

(** The loop consumes a prefix; it stops early only on a full packet. *)
Lemma plan_loop_ok rest :
  ∀ st hs es, plan_inv st hs es →
  Forall (λ h, ∃ w, wire_row store h = Some w ∧ ∀ e, w = Some e → entry_slots e) rest →
  zlen hs + zlen rest ≤ U32_MAX →
  ∃ st' hs1 hs2 es', plan_loop store body_budget count_size rest st = Some st' ∧
    rest = hs1 ++ hs2 ∧ plan_inv st' (hs ++ hs1) es' ∧
    (hs2 = [] ∨ (es' = [] → body_budget < DICT_LEN_BYTES + 32 + per)).
Proof using Hcs.
  induction rest as [|h rest IH]; intros st hs es Hinv Hrows Hlen; simpl.
  { exists st, [], [], es. rewrite (app_nil_r hs). split; [done|]. split; [done|]. split; [done|by left]. }
  apply Forall_cons in Hrows as [(w & Hw & Hsl) Hrows].
  assert (zlen (h :: rest) = zlen rest + 1) as Hl by (unfold zlen; simpl; lia).
  pose proof (zlen_nonneg rest).
  destruct (plan_step_ok st hs es h w Hinv Hw Hsl) as ([st1|] & -> & Hr); [lia| |]; simpl.
  - destruct (IH st1 (hs ++ [h]) _ Hr Hrows) as (st' & hs1 & hs2 & es' & Hp & -> & Hi & Hd).
    { rewrite zlen_app. change (zlen [h]) with 1. lia. }
    exists st', (h :: hs1), hs2, es'. split; [done|]. split; [done|].
    rewrite <- app_assoc in Hi. done.
  - exists st, [], (h :: rest), es. rewrite (app_nil_r hs). split; [done|]. split; [done|].
    split; [done|]. right. apply Hr.
Qed.
End plan.

(** ** Planning on a well-formed store *)
Section store.
Context {C : Count} {CL : CountLaws C}.
Context (store : CellStore.t) A Mr Mn pins V (Hinv : inv_at store A Mr Mn pins V).

Lemma wire_row_ok h :
  0 ≤ h_index h →
  ∃ w, wire_row store h = Some w ∧ (CellStore.resolve store h ≠ Some None → is_Some w) ∧
    ∀ e, w = Some e → A !! h_index h = Some (cr_key (e_row e)) ∧ entry_slots store e ∧
      V !! name_of (e_rule e) (e_node e) (cr_key (e_row e)) = Some (cr_count (e_row e)) ∧
      0 ≤ cr_count (e_row e) ≤ count_MAX ∧
      ni_incarnation (e_node e) = ck_incarnation (cr_key (e_row e)) ∧
      CellStore.get store h = Some (Some (e_row e)) ∧
      Mr !! e_rule_slot e = Some (e_rule e) ∧ Mn !! e_node_slot e = Some (e_node e).
Proof using Hinv.
  intros Hi. pose proof Hinv as [Hsl Hrows Hd Hl Hcs HV].
  assert (∃ r, CellStore.resolve store h = Some r ∧
    ∀ s, r = Some s → s = h_index h ∧ s ∈ dom A) as (r & Hr & Hrs).
  { unfold CellStore.resolve. destruct (_ <=? _) eqn:E; [by eexists|]. bool_solve.
    destruct (zget_in_range (CellStore.generations store) (h_index h)) as [g Hg];
      [rewrite (si_generations _ _ Hsl); lia|]. rewrite Hg. simpl.
    destruct (g =? h_generation h) eqn:Eg; simpl; [|by eexists]. bool_solve. subst g.
    destruct (Z.land (h_generation h) 1 =? 1) eqn:El; simpl; [|by eexists].
    eexists. split; [done|]. intros s [= <-]. split; [done|].
    rewrite land_1_odd in El. destruct (si_gen _ _ Hsl _ _ Hg) as [_ Hp].
    rewrite El in Hp. symmetry in Hp. by apply bool_decide_eq_true in Hp. }
  unfold wire_row, CellStore.get. rewrite Hr. simpl.
  destruct r as [s|]; simpl; [|by exists None; split_and!; [|intros []|]].
  destruct (Hrs s eq_refl) as [-> [k Hk]%elem_of_dom]. clear Hrs.
  destruct (wi_key _ _ Hrows _ _ Hk) as [Hsr Hka]. rewrite Hka. simpl.
  destruct (zget_in_range (CellStore.counts store) (h_index h)) as [c Hc];
    [by rewrite (si_counts _ _ Hsl)|].
  destruct (zget_in_range (CellStore.last_update_millis store) (h_index h)) as [u Hu];
    [by rewrite (si_updates _ _ Hsl)|].
  destruct (zget_in_range (CellStore.origin_sequences store) (h_index h)) as [q Hq];
    [by rewrite (si_sequences _ _ Hsl)|].
  rewrite Hc. simpl. rewrite Hu. simpl. rewrite Hq. simpl.
  destruct (ti_cells _ _ _ _ _ Hd _ k Hk) as ([dr Hdr] & dn & Hdn & Hinc).
  pose proof (refs_pos ck_rule A _ k _ Hk eq_refl). pose proof (refs_pos ck_origin A _ k _ Hk eq_refl).
  assert (RuleDictionary.descriptor (CellStore.rule_dictionary store) (ck_rule k) = Some (Some dr))
    as Hrd.
  { unfold RuleDictionary.descriptor.
    erewrite dict_descriptor_ok; [|apply Hd|by eapply (ti_rule_refs _ _ _ _ _ Hd)].
    replace (0 <? _) with true; [by rewrite Hdr|]. destruct (decide (ck_rule k ∈ pins)); lia. }
  assert (NodeDictionary.descriptor (CellStore.node_dictionary store) (ck_origin k) = Some (Some dn))
    as Hnd.
  { unfold NodeDictionary.descriptor.
    erewrite dict_descriptor_ok; [|apply Hd|by eapply (ti_node_refs _ _ _ _ _ Hd)].
    replace (0 <? _) with true; [by rewrite Hdn|].
    destruct (decide (ck_origin k = CellStore.local_node_slot store)); lia. }
  rewrite Hrd. simpl. rewrite Hnd. simpl. eexists. split; [done|]. split; [done|].
  intros e [= <-]. split; [done|].
  unfold entry_slots, e_row, e_rule, e_node, e_rule_slot, e_node_slot, fp_of, id_of. simpl.
  rewrite Hrd, Hnd. split_and!; try done.
  - by apply (di_live _ _ _ _ (ti_rules _ _ _ _ _ Hd) _ _ Hdr).
  - by apply (di_live _ _ _ _ (ti_rules _ _ _ _ _ Hd) _ _ Hdr).
  - by apply (di_live _ _ _ _ (ti_nodes _ _ _ _ _ Hd) _ _ Hdn).
  - by apply (di_live _ _ _ _ (ti_nodes _ _ _ _ _ Hd) _ _ Hdn).
  - apply HV. by exists (h_index h), k, dr, dn.
  - by apply (Hcs _ _ Hc).
  - by apply (Hcs _ _ Hc).
Qed.
End store.
