(* ===== verification/WireCodec.v ===== *)
(** * The body codec round trip

    [write_body] fills disjoint ranges of the body; [decode_body_visit] reads
    them back: a decoded body yields exactly the cells that were encoded. *)

From S2P Require Import Prelude Types Dictionary IO CellStore CellSlots CellInv CellOps CellMerge Bytes WireHeader WireBody WirePlan.

Opaque to_le_bytes.

(** ** Single writes *)
Lemma zset_step {A} (l : list A) a x :
  0 ≤ a < zlen l →
  ∃ l', zset l a x = Some l' ∧ zlen l' = zlen l ∧ bytes_at l' a [x] ∧
    ∀ c ys, c + zlen ys ≤ a ∨ a + 1 ≤ c → bytes_at l c ys → bytes_at l' c ys.
Proof.
  intros Ha. exists (zupd l a x). split; [by apply zset_ok|]. split; [apply zlen_zupd|].
  rewrite zupd_splice by done. change 1 with (zlen [x]).
  assert (a + zlen [x] ≤ zlen l) by (change (zlen [x]) with 1; lia).
  split; [apply bytes_at_splice_same; lia|].
  intros c ys Hd. apply bytes_at_splice_ne; lia.
Qed.

Ltac set_step H :=
  match goal with
  | |- context [zset ?l ?a ?x] =>
    let l' := fresh "b" in let Hl := fresh "Hlen" in let Hx := fresh "Hw" in
    destruct (zset_step l a x) as (l' & -> & Hl & Hx & H); [lia|simpl]
  end.

Ltac survives_cells :=
  repeat first [ assumption
               | match goal with
                 | H : ∀ c ys, _ → bytes_at _ c ys → bytes_at ?l c ys |- bytes_at ?l _ _ =>
                   apply H; [rewrite ?zlen_to_le_bytes; change (zlen [_]) with 1 || idtac; lia|]
                 end ].

Section codec.
Context (cs : Z) (Hcs : 0 < cs ≤ 8).
Let per := PER_CELL_IDENT_BYTES + cs.

(** The eight fields of cell [i]. *)
Record cell_bytes (body : list Z) (base n i rv nv : Z) (row : CellRow) : Prop := {
  cb_rule : bytes_at body (rule_slot_off base + i) [rv];
  cb_key : bytes_at body (key_hash_off base n + i * 16)
             (to_le_bytes 16 (ck_key_hash (cr_key row)));
  cb_bucket : bytes_at body (bucket_off base n + i * 4)
                (to_le_bytes 4 (ck_bucket (cr_key row)));
  cb_node : bytes_at body (node_slot_off base n + i) [nv];
  cb_inc : bytes_at body (origin_inc_off base n + i * 4)
             (to_le_bytes 4 (ck_incarnation (cr_key row)));
  cb_update : bytes_at body (last_update_off base n + i * 8)
                (to_le_bytes 8 (cr_last_update_millis row));
  cb_seq : bytes_at body (origin_seq_off base n + i * 8)
             (to_le_bytes 8 (cr_origin_sequence row));
  cb_count : bytes_at body (count_off base n + i * cs)
               (to_le_bytes (Z.to_nat cs) (cr_count row));
}.

Lemma write_cell_ok scratch base n i row body rv nv :
  0 ≤ base → 0 ≤ i < n → zlen body = base + n * per →
  zget (rule_remap scratch) (ck_rule (cr_key row)) = Some rv →
  zget (node_remap scratch) (ck_origin (cr_key row)) = Some nv →
  ∃ body', write_cell cs scratch base n i row body = Some body' ∧ zlen body' = zlen body ∧
    cell_bytes body' base n i rv nv row ∧
    (∀ c ys, c + zlen ys ≤ base → bytes_at body c ys → bytes_at body' c ys) ∧
    (∀ j rv' nv' row', 0 ≤ j < i →
       cell_bytes body base n j rv' nv' row' → cell_bytes body' base n j rv' nv' row').
Proof using Hcs.
  intros Hbase Hi Hlen Hrv Hnv. unfold write_cell. rewrite Hrv, Hnv.
  rewrite take_to_le_bytes by lia. unfold per, PER_CELL_IDENT_BYTES in Hlen.
  assert (i * cs + cs ≤ n * cs) as Hics by nia. assert (0 ≤ i * cs) by nia.
  assert (n * (1 + 16 + 4 + 1 + 4 + 8 + 8 + cs) = 42 * n + n * cs) as Hper by nia.
  unfold count_off, origin_seq_off, last_update_off, origin_inc_off, node_slot_off,
    bucket_off, key_hash_off, rule_slot_off in *. simpl.
  assert (Z.of_nat (Z.to_nat cs) = cs) as Hcsn by lia.
  set_step H1. write_step H2. write_step H3. set_step H4. write_step H5. write_step H6.
  write_step H7.
  match goal with |- context [zcopy ?l ?a ?xs] =>
    destruct (zcopy_step l a xs) as (b7 & -> & Hlen7 & Hw7 & H8);
      [lia|rewrite zlen_to_le_bytes, Hcsn; lia|] end.
  rewrite zlen_to_le_bytes, Hcsn in H8.
  eexists. split; [done|]. split; [lia|].
  repeat match goal with H : ∀ c ys, c + zlen ys ≤ ?x ∨ _ + zlen (to_le_bytes _ _) ≤ c → _ |- _ =>
    rewrite zlen_to_le_bytes in H end.
  split; [|split].
  - split; unfold count_off, origin_seq_off, last_update_off, origin_inc_off, node_slot_off,
      bucket_off, key_hash_off, rule_slot_off; survives_cells.
  - intros c ys Hc Hb. pose proof (zlen_nonneg ys). survives_cells.
  - intros j rv' nv' row' Hj []. assert (j * cs + cs ≤ i * cs) by nia. assert (0 ≤ j * cs) by nia.
    unfold count_off, origin_seq_off, last_update_off, origin_inc_off, node_slot_off,
      bucket_off, key_hash_off, rule_slot_off in *.
    split; unfold count_off, origin_seq_off, last_update_off, origin_inc_off, node_slot_off,
      bucket_off, key_hash_off, rule_slot_off;
    repeat first [ assumption
             | match goal with
               | H : ∀ c ys, _ → bytes_at _ c ys → bytes_at ?l c ys |- bytes_at ?l _ _ =>
                 apply H; [rewrite ?zlen_to_le_bytes, ?Hcsn;
                           repeat change (zlen [_]) with 1; lia|]
               end ].
Qed.

(** ** The dictionaries *)
Lemma write_dict_ok fps : ∀ body c,
  0 ≤ c → c + 16 * zlen fps ≤ zlen body →
  ∃ body', write_dict fps body c = Some (body', c + 16 * zlen fps) ∧ zlen body' = zlen body ∧
    (∀ v f, zget fps v = Some f → bytes_at body' (c + v * 16) (to_le_bytes 16 f)) ∧
    (∀ a xs, a + zlen xs ≤ c ∨ c + 16 * zlen fps ≤ a → bytes_at body a xs → bytes_at body' a xs).
Proof.
  induction fps as [|fp fps IH]; intros body c Hc Hl; simpl.
  { exists body. change (zlen []) with 0. rewrite Z.mul_0_r, Z.add_0_r. split; [done|].
    split; [done|]. split; [|done]. intros v f Hv. apply zget_Some_range in Hv as [? Hv].
    change (zlen []) with 0 in Hv. lia. }
  pose proof (zlen_nonneg fps).
  assert (zlen (fp :: fps) = zlen fps + 1) as Hlf by (unfold zlen; simpl; lia).
  write_step H1. rewrite zlen_to_le_bytes in H1. rewrite Hlf in *.
  destruct (IH b (c + 16)) as (body' & -> & Hl' & Hd & Hk); [lia..|].
  exists body'. split; [f_equal; f_equal; lia|]. split; [lia|]. split.
  - intros v f Hv. pose proof (zget_Some_range _ _ _ Hv).
    destruct (decide (v = 0)) as [->|Hv0].
    + rewrite zget_lookup in Hv by lia. simpl in Hv. injection Hv as ->.
      rewrite Z.mul_0_l, Z.add_0_r. apply Hk; [rewrite zlen_to_le_bytes; lia|done].
    + replace (c + v * 16) with (c + 16 + (v - 1) * 16) by lia. apply Hd.
      rewrite zget_lookup in Hv by lia. rewrite zget_lookup by lia.
      replace (Z.to_nat v) with (S (Z.to_nat (v - 1))) in Hv by lia. done.
  - intros a xs Ha Hb. pose proof (zlen_nonneg xs). apply Hk; [lia|]. apply H1; [lia|done].
Qed.

(** ** The cells *)
Definition entry_bytes (scratch : WireScratch) (body : list Z) (base n i : Z) (e : entry) : Prop :=
  ∃ rv nv, zget (rule_remap scratch) (e_rule_slot e) = Some rv ∧
    zget (node_remap scratch) (e_node_slot e) = Some nv ∧
    cell_bytes body base n i rv nv (e_row e).

Lemma resolves_cons store h hs es :
  resolves store (h :: hs) es →
  ∃ w es', wire_row store h = Some w ∧ resolves store hs es' ∧
    es = match w with Some e => e :: es' | None => es' end.
Proof.
  intros (ws & Hm & ->). apply mapM_Some in Hm.
  inversion Hm as [|? w ? ws' Hw Hm']; subst. exists w, (omap id ws'). split; [done|].
  split; [exists ws'; split; [by apply mapM_Some|done]|]. by destruct w.
Qed.

Lemma write_cells_ok store scratch base n hs : ∀ es i body,
  resolves store hs es → 0 ≤ base → 0 ≤ i → i + zlen es = n → zlen body = base + n * per →
  Forall (λ e, (∃ v, zget (rule_remap scratch) (e_rule_slot e) = Some v) ∧
               (∃ v, zget (node_remap scratch) (e_node_slot e) = Some v)) es →
  ∃ body', write_cells store cs scratch base n i hs body = Some (body', n) ∧
    zlen body' = zlen body ∧
    (∀ j e, zget es j = Some e → entry_bytes scratch body' base n (i + j) e) ∧
    (∀ c ys, c + zlen ys ≤ base → bytes_at body c ys → bytes_at body' c ys) ∧
    (∀ j rv nv row, 0 ≤ j < i → cell_bytes body base n j rv nv row →
       cell_bytes body' base n j rv nv row).
Proof using Hcs.
  induction hs as [|h hs IH]; intros es i body Hres Hb Hi Hn Hl Hall; simpl.
  { destruct Hres as (ws & [= <-] & ->). change (zlen _) with 0 in Hn.
    exists body. rewrite <- Hn, Z.add_0_r. split; [done|]. split; [done|]. split; [|done].
    intros j e Hj. apply zget_Some_range in Hj as [? Hj]. change (zlen _) with 0 in Hj. lia. }
  pose proof (zlen_nonneg es).
  destruct (i <? n) eqn:E; bool_solve; simpl.
  2:{ assert (i = n) as -> by lia. assert (zlen es = 0) by lia.
      exists body. split; [done|]. split; [done|]. split; [|done].
      intros j e Hj. apply zget_Some_range in Hj. lia. }
  apply resolves_cons in Hres as (w & es' & Hw & Hres & ->). rewrite Hw. simpl.
  destruct w as [e|]; [|by apply IH].
  apply Forall_cons in Hall as [[[rv Hrv] [nv Hnv]] Hall].
  assert (zlen (e :: es') = zlen es' + 1) as Hle by (unfold zlen; simpl; lia).
  pose proof (zlen_nonneg es'). destruct e as [[row rd] nd].
  destruct (write_cell_ok scratch base n i row body rv nv) as (b1 & -> & Hl1 & Hc1 & Hk1 & Hp1);
    [done|lia|done..|]. simpl.
  destruct (IH es' (i + 1) b1) as (b2 & -> & Hl2 & Hc2 & Hk2 & Hp2); [done|lia|lia|lia|lia|done|].
  exists b2. split; [done|]. split; [lia|]. split; [|split].
  - intros j e' Hj. pose proof (zget_Some_range _ _ _ Hj).
    destruct (decide (j = 0)) as [->|Hj0].
    + rewrite zget_lookup in Hj by lia. simpl in Hj. injection Hj as <-.
      exists rv, nv. split; [done|]. split; [done|]. rewrite Z.add_0_r. apply Hp2; [lia|done].
    + replace (i + j) with (i + 1 + (j - 1)) by lia. apply Hc2.
      rewrite zget_lookup in Hj by lia. rewrite zget_lookup by lia.
      replace (Z.to_nat j) with (S (Z.to_nat (j - 1))) in Hj by lia. done.
  - auto.
  - intros j rv' nv' row' Hj Hc. apply Hp2; [lia|]. apply Hp1; [done|done].
Qed.

(** ** The whole body *)
Record body_layout (body : list Z) (scratch : WireScratch) (r d : Z) (es : list entry) : Prop := {
  bl_len : zlen body = DICT_LEN_BYTES + 16 * (r + d) + zlen es * per;
  bl_r : zget body 0 = Some r;
  bl_rules v f : zget (rule_fps scratch) v = Some f →
    bytes_at body (1 + v * 16) (to_le_bytes 16 f);
  bl_d : zget body (1 + 16 * r) = Some d;
  bl_nodes v f : zget (node_ids scratch) v = Some f →
    bytes_at body (1 + 16 * r + 1 + v * 16) (to_le_bytes 16 f);
  bl_cells j e : zget es j = Some e →
    entry_bytes scratch body (DICT_LEN_BYTES + 16 * (r + d)) (zlen es) j e;
}.

Lemma write_body_ok store pre hs post plan scratch out es :
  resolves store hs es → es ≠ [] →
  p_consumed plan = zlen hs → p_cells_emitted plan = zlen es →
  p_rule_count plan = zlen (rule_fps scratch) → p_node_count plan = zlen (node_ids scratch) →
  p_body_len plan = DICT_LEN_BYTES + 16 * (p_rule_count plan + p_node_count plan) + zlen es * per →
  Forall (λ e, (∃ v, zget (rule_remap scratch) (e_rule_slot e) = Some v) ∧
               (∃ v, zget (node_remap scratch) (e_node_slot e) = Some v)) es →
  ∃ body, write_body store cs (pre ++ hs ++ post) (zlen pre) plan scratch out = Some (out ++ body) ∧
    zlen body = p_body_len plan ∧
    body_layout body scratch (p_rule_count plan) (p_node_count plan) es.
Proof using Hcs.
  intros Hres Hne Hcons Hem Hr Hd Hbl Hall.
  pose proof (zlen_nonneg (rule_fps scratch)). pose proof (zlen_nonneg (node_ids scratch)).
  assert (0 < zlen es) as Hpos by (destruct es; [done|unfold zlen; simpl; lia]).
  assert (0 < zlen es * per) by (unfold per, PER_CELL_IDENT_BYTES; nia).
  unfold write_body. rewrite Hem, Hcons. rewrite Hbl. rewrite Hr, Hd. unfold DICT_LEN_BYTES in *.
  set (r := zlen (rule_fps scratch)) in *. set (d := zlen (node_ids scratch)) in *.
  set (L := 2 + 16 * (r + d) + zlen es * per) in *.
  assert (zlen (replicate (Z.to_nat L) 0) = L) as HL by (rewrite zlen_replicate; lia).
  set_step Hk1. rewrite (zslice_all _ r) by done. simpl.
  destruct (write_dict_ok (rule_fps scratch) b 1) as (b2 & -> & Hl2 & Hd2 & Hk2); [lia|fold r; lia|].
  fold r in Hk2 |- *. simpl. set_step Hk3. rewrite (zslice_all _ d) by done. simpl.
  destruct (write_dict_ok (node_ids scratch) b0 (1 + 16 * r + 1)) as (b4 & -> & Hl4 & Hd4 & Hk4);
    [lia|fold d; lia|]. fold d in Hk4 |- *. simpl.
  replace (1 + 16 * r + 1 + 16 * d) with (2 + 16 * (r + d)) by lia.
  match goal with |- context [assert_ ?b] => replace b with true end.
  2:{ symmetry. apply Z.eqb_eq. unfold L, per, PER_CELL_IDENT_BYTES, count_off, origin_seq_off,
        last_update_off, origin_inc_off, node_slot_off, bucket_off, key_hash_off, rule_slot_off. lia. }
  simpl. rewrite zslice_mid. simpl.
  destruct (write_cells_ok store scratch (2 + 16 * (r + d)) (zlen es) hs es 0 b4)
    as (b5 & -> & Hl5 & Hc5 & Hk5 & _); [done|lia|lia|lia|lia|done|].
  simpl. rewrite Z.eqb_refl. simpl. exists b5. split; [done|]. split; [lia|].
  split; [unfold DICT_LEN_BYTES; lia|..].
  - apply bytes_at_single. apply Hk5; [change (zlen [_]) with 1; lia|].
    apply Hk4; [change (zlen [_]) with 1; lia|]. apply Hk3; [change (zlen [_]) with 1; lia|].
    apply Hk2; [change (zlen [_]) with 1; lia|]. done.
  - intros v f Hv. pose proof (zget_Some_range _ _ _ Hv : 0 ≤ v < r).
    apply Hk5; [rewrite zlen_to_le_bytes; lia|]. apply Hk4; [rewrite zlen_to_le_bytes; lia|].
    apply Hk3; [rewrite zlen_to_le_bytes; lia|]. by apply Hd2.
  - apply bytes_at_single. apply Hk5; [change (zlen [_]) with 1; lia|].
    apply Hk4; [change (zlen [_]) with 1; lia|]. done.
  - intros v f Hv. pose proof (zget_Some_range _ _ _ Hv : 0 ≤ v < d).
    apply Hk5; [rewrite zlen_to_le_bytes; lia|]. by apply Hd4.
  - intros j e Hj. apply Hc5 in Hj. done.
Qed.
End codec.

(** ** Decoding *)
Section decode.
Context {C : Count} {CL : CountLaws C}.
Let per := PER_CELL_IDENT_BYTES + count_size.

(** The cell a receiver sees for an entry. *)
Definition wire_cell_of (e : entry) : WireCell := {|
  wc_rule_fingerprint := fingerprint (e_rule e);
  wc_key_hash := ck_key_hash (cr_key (e_row e));
  wc_bucket := ck_bucket (cr_key (e_row e));
  wc_origin_node_id := node_id (e_node e);
  wc_origin_incarnation := ck_incarnation (cr_key (e_row e));
  wc_count := cr_count (e_row e);
  wc_last_update_millis := cr_last_update_millis (e_row e);
  wc_origin_sequence := cr_origin_sequence (e_row e);
|}.

(** The fields fit their Rust types. *)
Definition entry_typed (e : entry) : Prop :=
  uint 128 (fingerprint (e_rule e)) ∧ uint 128 (ck_key_hash (cr_key (e_row e))) ∧
  uint 32 (ck_bucket (cr_key (e_row e))) ∧ uint 128 (node_id (e_node e)) ∧
  uint 32 (ck_incarnation (cr_key (e_row e))) ∧ 0 ≤ cr_count (e_row e) ≤ count_MAX ∧
  uint 64 (cr_last_update_millis (e_row e)) ∧ uint 64 (cr_origin_sequence (e_row e)).

Lemma read_at_slab body a b slab off w n z :
  zslice body a b = Some slab → bytes_at body (a + off) (to_le_bytes n z) →
  w = Z.of_nat n → 0 ≤ off → off + Z.of_nat n ≤ b - a → 0 ≤ z < 256 ^ Z.of_nat n →
  read_at slab off w = Some z.
Proof.
  intros Hs Hb -> Hoff Hn Hz. pose proof (zslice_Some _ _ _ _ Hs) as (Ha & Hb' & Hlen & _).
  unfold read_at. destruct (zslice_ok slab off (zlen slab)) as (src & Hsrc & Hls); [lia..|].
  rewrite Hsrc. simpl.
  rewrite (zslice_zslice slab off (zlen slab) src 0 (Z.of_nat n) Hsrc) by lia.
  rewrite (zslice_zslice body a b slab _ _ Hs) by lia.
  unfold bytes_at in Hb. rewrite zlen_to_le_bytes in Hb.
  replace (a + (off + 0)) with (a + off) by lia.
  replace (a + (off + Z.of_nat n)) with (a + off + Z.of_nat n) by lia. rewrite Hb. simpl.
  by rewrite from_to_le_bytes.
Qed.

Lemma read_count_slab body a b slab off z :
  zslice body a b = Some slab →
  bytes_at body (a + off) (to_le_bytes (Z.to_nat count_size) z) →
  0 ≤ off → off + count_size ≤ b - a → 0 ≤ z ≤ count_MAX →
  read_count slab off = Some z.
Proof using CL.
  intros Hs Hb Hoff Hn Hz. pose proof (zslice_Some _ _ _ _ Hs) as (Ha & Hb' & Hlen & _).
  pose proof count_size_bounds. pose proof count_MAX_bounds.
  unfold read_count. destruct (zslice_ok slab off (zlen slab)) as (src & Hsrc & Hls); [lia..|].
  rewrite Hsrc. simpl.
  rewrite (zslice_zslice slab off (zlen slab) src 0 count_size Hsrc) by lia.
  rewrite (zslice_zslice body a b slab _ _ Hs) by lia.
  unfold bytes_at in Hb. rewrite zlen_to_le_bytes in Hb.
  replace (a + (off + 0)) with (a + off) by lia.
  replace (a + (off + count_size)) with (a + off + Z.of_nat (Z.to_nat count_size)) by lia.
  rewrite Hb. simpl. rewrite from_le_bytes_zeros, from_to_le_bytes.
  - rewrite saturating_from_u64_min by lia. f_equal. lia.
  - rewrite Z2Nat.id by lia. rewrite count_MAX_size in Hz. rewrite Z.pow_mul_r in Hz by lia.
    change (2 ^ 8) with 256 in Hz. lia.
Qed.

(** What [read_slabs] cuts out of a body. *)
Record slabs_of (body : list Z) (r_end base n : Z) (s : Slabs) : Prop := {
  so_rules : zslice body 1 r_end = Some (sl_rule_dict s);
  so_nodes : zslice body (r_end + 1) base = Some (sl_node_dict s);
  so_rule : zslice body (rule_slot_off base) (key_hash_off base n) = Some (sl_rule_slot s);
  so_key : zslice body (key_hash_off base n) (bucket_off base n) = Some (sl_key_hash s);
  so_bucket : zslice body (bucket_off base n) (node_slot_off base n) = Some (sl_bucket s);
  so_node : zslice body (node_slot_off base n) (origin_inc_off base n) = Some (sl_node_slot s);
  so_inc : zslice body (origin_inc_off base n) (last_update_off base n) = Some (sl_origin_inc s);
  so_update : zslice body (last_update_off base n) (origin_seq_off base n) = Some (sl_last_update s);
  so_seq : zslice body (origin_seq_off base n) (count_off base n) = Some (sl_origin_seq s);
  so_count : zslice body (count_off base n) (count_off base n + count_size * n)
               = Some (sl_count s);
}.

Ltac offsets := unfold count_off, origin_seq_off, last_update_off, origin_inc_off, node_slot_off,
    bucket_off, key_hash_off, rule_slot_off in *.

Ltac slab :=
  match goal with
  | |- context [zslice ?l ?a ?b] =>
    let s := fresh "s" in let Hs := fresh "Hs" in
    destruct (zslice_ok l a b) as (s & Hs & _); [lia..|]; rewrite Hs; simpl
  end.

Lemma read_slabs_ok body r_end base n :
  1 ≤ r_end → r_end + 1 ≤ base → 0 ≤ n → zlen body = base + n * per →
  ∃ s, read_slabs body r_end base n = Some s ∧ slabs_of body r_end base n s.
Proof using CL.
  intros Hr Hb Hn Hl. pose proof count_size_bounds. unfold read_slabs.
  assert (n * per = 42 * n + count_size * n) as Hper by (unfold per, PER_CELL_IDENT_BYTES; lia).
  assert (0 ≤ count_size * n) by nia. offsets.
  do 10 slab.
  match goal with |- context [assert_ ?b] => replace b with true by lia end. simpl.
  eexists. split; [done|]. split; simpl; offsets; done.
Qed.

Lemma zget_slab {A} (l : list A) a b s i :
  zslice l a b = Some s → 0 ≤ i < b - a → zget s i = zget l (a + i).
Proof.
  intros Hs Hi. pose proof (zslice_Some _ _ _ _ Hs) as (Ha & Hb & Hl & _).
  destruct (zget_in_range s i) as [x Hx]; [lia|]. rewrite Hx. symmetry.
  apply bytes_at_single. apply bytes_at_single in Hx. unfold bytes_at in *.
  change (zlen [x]) with 1 in *. rewrite (zslice_zslice l a b s _ _ Hs) in Hx by lia.
  by rewrite Z.add_assoc in Hx.
Qed.

Context (scratch : WireScratch) (body : list Z) (r d : Z) (es : list entry).
Context (rule_ident node_ident : Z → Z).

(** The encoder's side of the contract: slots assigned by the planner. *)
Record encoded : Prop := {
  en_layout : body_layout count_size body scratch r d es;
  en_rules : remap_ok (rule_remap scratch) (rule_fps scratch) r rule_ident;
  en_nodes : remap_ok (node_remap scratch) (node_ids scratch) d node_ident;
  en_pos : 0 < r ∧ 0 < d;
  en_assigned : Forall (assigned scratch) es;
  en_idents : Forall (λ e, fingerprint (e_rule e) = rule_ident (e_rule_slot e) ∧
                           node_id (e_node e) = node_ident (e_node_slot e)) es;
  en_typed : Forall entry_typed es;
}.

Let r_end := 1 + 16 * r.
Let base := r_end + 1 + 16 * d.

Lemma decode_cell_ok s j e :
  encoded → slabs_of body r_end base (zlen es) s → zget es j = Some e →
  decode_cell s r d j = Some (Ok (wire_cell_of e)).
Proof using CL.
  intros [[Hlen _ Hrules _ Hnodes Hcells] Hrok Hnok [Hr Hd] Hass Hid Hty] [] Hj.
  pose proof (zget_Some_range _ _ _ Hj) as Hjr. pose proof count_size_bounds.
  assert (e ∈ es) as He.
  { rewrite zget_lookup in Hj by lia. by eapply list_elem_of_lookup_2. }
  rewrite Forall_forall in Hass, Hid, Hty. destruct (Hid e He) as [Hfp Hnid].
  destruct (Hass e He) as [(rv & Hrv & Hrv') (nv & Hnv & Hnv')].
  destruct (Hty e He) as (? & ? & ? & ? & ? & ? & ? & ?).
  destruct (ro_slot _ _ _ _ Hrok _ _ Hrv) as [?|[Hrvb Hrvf]]; [done|].
  destruct (ro_slot _ _ _ _ Hnok _ _ Hnv) as [?|[Hnvb Hnvf]]; [done|].
  pose proof (Hcells j e Hj) as (rv' & nv' & Hrv'' & Hnv'' & []).
  rewrite Hrv in Hrv''. rewrite Hnv in Hnv''. injection Hrv'' as <-. injection Hnv'' as <-.
  replace (DICT_LEN_BYTES + 16 * (r + d)) with base in *
    by (unfold base, r_end, DICT_LEN_BYTES; lia).
  apply Hrules in Hrvf. apply Hnodes in Hnvf. rewrite <- Hfp in Hrvf. rewrite <- Hnid in Hnvf.
  apply bytes_at_single in cb_rule0, cb_node0.
  assert (0 ≤ j * count_size ∧ j * count_size + count_size ≤ count_size * zlen es) as [Hj1 Hj2] by nia.
  unfold uint in *. unfold decode_cell.
  rewrite (zget_slab _ _ _ _ j so_rule0) by (offsets; lia). rewrite cb_rule0. simpl.
  replace (r <=? rv) with false by lia.
  rewrite (zget_slab _ _ _ _ j so_node0) by (offsets; lia). rewrite cb_node0. simpl.
  replace (d <=? nv) with false by lia.
  rewrite (read_at_slab _ _ _ _ (rv * 16) 16 16 _ so_rules0 Hrvf) by (reflexivity || (unfold r_end in *; lia)). simpl.
  rewrite (read_at_slab _ _ _ _ (nv * 16) 16 16 _ so_nodes0 Hnvf) by (reflexivity || (unfold base, r_end in *; lia)).
  simpl.
  rewrite (read_at_slab _ _ _ _ (j * 16) 16 16 _ so_key0 cb_key0) by (reflexivity || (offsets; lia)). simpl.
  rewrite (read_at_slab _ _ _ _ (j * 4) 4 4 _ so_bucket0 cb_bucket0) by (reflexivity || (offsets; lia)). simpl.
  rewrite (read_at_slab _ _ _ _ (j * 4) 4 4 _ so_inc0 cb_inc0) by (reflexivity || (offsets; lia)). simpl.
  rewrite (read_at_slab _ _ _ _ (j * 8) 8 8 _ so_update0 cb_update0) by (reflexivity || (offsets; lia)). simpl.
  rewrite (read_at_slab _ _ _ _ (j * 8) 8 8 _ so_seq0 cb_seq0) by (reflexivity || (offsets; lia)). simpl.
  by rewrite (read_count_slab _ _ _ _ (j * count_size) _ so_count0 cb_count0) by (offsets; lia).
Qed.

Lemma decode_cells_app s l1 l2 acc vs :
  Forall2 (λ i c, decode_cell s r d i = Some (Ok c)) l1 vs →
  decode_cells s r d (l1 ++ l2) acc = decode_cells s r d l2 (acc ++ vs).
Proof.
  intros Hf. revert acc. induction Hf as [|i c l1 vs Hc _ IH]; intros acc; simpl.
  { by rewrite app_nil_r. }
  rewrite Hc. simpl. rewrite IH. by rewrite <- app_assoc.
Qed.

Lemma decode_body_ok :
  encoded → es ≠ [] → zlen body ≤ U64_MAX →
  decode_body_visit body (zlen es) = Some (wire_cell_of <$> es, Ok ()).
Proof using CL.
  intros Hen Hne Hmax. pose proof Hen as [[Hlen Hbr Hrules Hbd Hnodes Hcells] _ _ [Hr Hd] _ _ _].
  pose proof count_size_bounds. fold per in Hlen.
  assert (0 < zlen es) as Hpos by (destruct es; [done|unfold zlen; simpl; lia]).
  assert (zlen es * per = 42 * zlen es + zlen es * count_size)
    by (unfold per, PER_CELL_IDENT_BYTES; lia).
  assert (0 < zlen es * count_size) by nia. unfold DICT_LEN_BYTES, U64_MAX in *.
  unfold decode_body_visit. replace (zlen es =? 0) with false by lia.
  replace (zlen body =? 0) with false by lia. rewrite Hbr. simpl.
  replace (r =? 0) with false by lia. fold r_end. replace (zlen body <? r_end + 1) with false
    by (unfold r_end; lia).
  fold r_end in Hbd. rewrite Hbd. simpl. replace (d =? 0) with false by lia. fold base per.
  rewrite checked_ok by lia. rewrite checked_ok by (unfold base, r_end; lia).
  replace (zlen body =? base + zlen es * per) with true by (unfold base, r_end; lia). simpl.
  destruct (read_slabs_ok body r_end base (zlen es)) as (s & -> & Hs);
    [unfold r_end, base; lia..|]. simpl.
  rewrite <- (app_nil_r (zrange 0 (zlen es))). rewrite (decode_cells_app s _ [] [] (wire_cell_of <$> es)).
  - done.
  - rewrite Forall2_fmap_r. apply Forall2_same_length_lookup. split.
    + pose proof (zlen_zrange 0 (zlen es) ltac:(lia)) as Hz. unfold zlen in Hz |- *. unfold zrange in *. lia.
    + intros i j e Hi He. unfold zrange in Hi. apply lookup_seqZ in Hi as [-> Hi]. apply (decode_cell_ok s _ e Hen Hs).
      rewrite zget_lookup by lia. by replace (Z.to_nat (0 + Z.of_nat i)) with i by lia.
Qed.
End decode.

(** ** Decoding arbitrary bytes *)
Section total.
Context {C : Count} {CL : CountLaws C}.
Let per := PER_CELL_IDENT_BYTES + count_size.

Definition cell_typed (c : WireCell) : Prop :=
  uint 128 (wc_rule_fingerprint c) ∧ uint 128 (wc_key_hash c) ∧ uint 32 (wc_bucket c) ∧
  uint 128 (wc_origin_node_id c) ∧ uint 32 (wc_origin_incarnation c) ∧
  0 ≤ wc_count c ≤ count_MAX ∧ uint 64 (wc_last_update_millis c) ∧
  uint 64 (wc_origin_sequence c).

Lemma zslice_byte (l : list Z) a b s : Forall byte l → zslice l a b = Some s → Forall byte s.
Proof. intros Hf (_ & _ & _ & ->)%zslice_Some. by apply Forall_take, Forall_drop. Qed.

Lemma read_at_total slab off w :
  Forall byte slab → 0 ≤ off → 0 ≤ w → off + w ≤ zlen slab →
  ∃ z, read_at slab off w = Some z ∧ 0 ≤ z < 256 ^ w.
Proof.
  intros Hf Ho Hw Hl. unfold read_at.
  destruct (zslice_ok slab off (zlen slab)) as (src & Hsrc & Hls); [lia..|]. rewrite Hsrc. simpl.
  destruct (zslice_ok src 0 w) as (s & Hs & Hl'); [lia..|]. rewrite Hs. simpl.
  eexists. split; [done|]. rewrite Z.sub_0_r in Hl'. rewrite <- Hl'. apply from_le_bytes_bound.
  eapply zslice_byte; [|exact Hs]. by eapply zslice_byte.
Qed.

Lemma read_count_total slab off :
  Forall byte slab → 0 ≤ off → off + count_size ≤ zlen slab →
  ∃ z, read_count slab off = Some z ∧ 0 ≤ z ≤ count_MAX.
Proof using CL.
  intros Hf Ho Hl. pose proof count_size_bounds. pose proof count_MAX_bounds. unfold read_count.
  destruct (zslice_ok slab off (zlen slab)) as (src & Hsrc & Hls); [lia..|]. rewrite Hsrc. simpl.
  destruct (zslice_ok src 0 count_size) as (s & Hs & Hl'); [lia..|]. rewrite Hs. simpl.
  eexists. split; [done|]. rewrite from_le_bytes_zeros.
  assert (0 ≤ from_le_bytes s < 256 ^ zlen s) as Hb.
  { apply from_le_bytes_bound. eapply zslice_byte; [|exact Hs]. by eapply zslice_byte. }
  replace (zlen s) with count_size in Hb by lia. pose proof count_MAX_size as Hmax.
  rewrite Z.pow_mul_r in Hmax by lia. change (2 ^ 8) with 256 in Hmax.
  rewrite saturating_from_u64_min by lia. lia.
Qed.

Lemma zget_byte (l : list Z) i z : Forall byte l → zget l i = Some z → byte z.
Proof.
  intros Hf Hz. pose proof (zget_Some_range _ _ _ Hz). rewrite zget_lookup in Hz by lia.
  by eapply Forall_lookup_1.
Qed.

Lemma decode_cell_total body r_end base n s r d i :
  Forall byte body → slabs_of body r_end base n s → r_end = 1 + 16 * r →
  base = r_end + 1 + 16 * d → 0 ≤ i < n →
  ∃ c, decode_cell s r d i = Some c ∧
    match c with inl c => cell_typed c | inr e => e = BadSlot end.
Proof using CL.
  intros Hf [] Hr Hd Hi. pose proof count_size_bounds.
  assert (0 ≤ i * count_size ∧ i * count_size + count_size ≤ count_size * n) as [? ?] by nia.
  repeat match goal with
    | H : zslice _ _ _ = Some ?s |- _ =>
      let L := fresh "L" in let B := fresh "B" in
      pose proof (zslice_byte _ _ _ _ Hf H) as B;
      pose proof (zslice_Some _ _ _ _ H) as (_ & _ & L & _);
      unfold count_off, origin_seq_off, last_update_off, origin_inc_off, node_slot_off,
        bucket_off, key_hash_off, rule_slot_off in L; clear H
    end.
  unfold decode_cell.
  destruct (zget_in_range (sl_rule_slot s) i) as [rs Hrs]; [lia|]. rewrite Hrs. simpl.
  assert (byte rs) as Hb1 by (by eapply (zget_byte (sl_rule_slot s))).
  destruct (r <=? rs) eqn:E1; [by eexists|]. bool_solve.
  destruct (zget_in_range (sl_node_slot s) i) as [ns Hns]; [lia|]. rewrite Hns. simpl.
  assert (byte ns) as Hb2 by (by eapply (zget_byte (sl_node_slot s))).
  destruct (d <=? ns) eqn:E2; [by eexists|]. bool_solve. unfold byte in Hb1, Hb2.
  destruct (read_at_total (sl_rule_dict s) (rs * 16) 16) as (fp & -> & ?); [done|lia..|]. simpl.
  destruct (read_at_total (sl_node_dict s) (ns * 16) 16) as (id & -> & ?); [done|lia..|]. simpl.
  destruct (read_at_total (sl_key_hash s) (i * 16) 16) as (kh & -> & ?); [done|lia..|]. simpl.
  destruct (read_at_total (sl_bucket s) (i * 4) 4) as (b & -> & ?); [done|lia..|]. simpl.
  destruct (read_at_total (sl_origin_inc s) (i * 4) 4) as (inc & -> & ?); [done|lia..|]. simpl.
  destruct (read_at_total (sl_last_update s) (i * 8) 8) as (u & -> & ?); [done|lia..|]. simpl.
  destruct (read_at_total (sl_origin_seq s) (i * 8) 8) as (q & -> & ?); [done|lia..|]. simpl.
  destruct (read_count_total (sl_count s) (i * count_size)) as (c & -> & ?); [done|lia..|]. simpl.
  eexists. split; [done|]. unfold cell_typed, uint. simpl.
  repeat match goal with |- _ ∧ _ => split end; first [done | lia].
Qed.

Lemma decode_cells_total body r_end base n s r d :
  Forall byte body → slabs_of body r_end base n s → r_end = 1 + 16 * r →
  base = r_end + 1 + 16 * d →
  ∀ is_ acc, Forall (λ i, 0 ≤ i < n) is_ → Forall cell_typed acc →
  ∃ vs res, decode_cells s r d is_ acc = Some (vs, res) ∧ Forall cell_typed vs ∧
    zlen vs ≤ zlen acc + zlen is_ ∧
    match res with inl _ => zlen vs = zlen acc + zlen is_ | inr e => e = BadSlot end.
Proof using CL.
  intros Hf Hs Hr Hd is_. induction is_ as [|i is_ IH]; intros acc Hall Hacc; simpl.
  { eexists _, _. split; [done|]. change (zlen []) with 0. split; [done|]. lia. }
  apply Forall_cons in Hall as [Hi Hall].
  assert (zlen (i :: is_) = zlen is_ + 1) as -> by (unfold zlen; simpl; lia).
  pose proof (zlen_nonneg is_).
  destruct (decode_cell_total body r_end base n s r d i Hf Hs Hr Hd Hi) as ([c|e] & -> & Hc); simpl.
  - destruct (IH (acc ++ [c])) as (vs & res & -> & ? & ? & ?); [done| |].
    { apply Forall_app. split; [done|by apply Forall_singleton]. }
    rewrite zlen_app in *. change (zlen [c]) with 1 in *.
    eexists _, _. split; [done|]. split; [done|]. split; [lia|]. destruct res; [lia|done].
  - eexists _, _. split; [done|]. split; [done|]. split; [lia|done].
Qed.

Lemma decode_body_total bytes n :
  Forall byte bytes → 0 ≤ n →
  ∃ vs res, decode_body_visit bytes n = Some (vs, res) ∧ Forall cell_typed vs ∧
    zlen vs ≤ n ∧ match res with inl _ => zlen vs = n
                  | inr e => e = BodyLenMismatch ∨ e = BadSlot end.
Proof using CL.
  intros Hf Hn. unfold decode_body_visit. pose proof count_size_bounds.
  pose proof (zlen_nonneg bytes).
  assert (∀ e : DecodeError, e = BodyLenMismatch ∨ e = BadSlot →
    ∃ vs res, Some (@nil WireCell, inr (A := unit) e) = Some (vs, res) ∧ Forall cell_typed vs ∧
      zlen vs ≤ n ∧ match res with inl _ => zlen vs = n
                    | inr e => e = BodyLenMismatch ∨ e = BadSlot end) as Herr.
  { intros e He. eexists _, _. split; [done|]. split; [constructor|]. by change (zlen []) with 0. }
  destruct (n =? 0) eqn:En; bool_solve.
  { subst n. destruct (zlen bytes =? 0); simpl; [|by apply Herr; left].
    eexists _, _. split; [done|]. by split; [constructor|]. }
  destruct (zlen bytes =? 0) eqn:E0; [by apply Herr; left|]. bool_solve.
  destruct (zget_in_range bytes 0) as [r Hr]; [lia|]. rewrite Hr. simpl.
  pose proof (zget_byte _ _ _ Hf Hr) as Hbr. unfold byte in Hbr.
  destruct (r =? 0) eqn:Er; [by apply Herr; left|]. bool_solve.
  destruct (zlen bytes <? 1 + 16 * r + 1) eqn:El; [by apply Herr; left|]. bool_solve.
  destruct (zget_in_range bytes (1 + 16 * r)) as [d Hd]; [lia|]. rewrite Hd.
  pose proof (zget_byte _ _ _ Hf Hd) as Hbd. unfold byte in Hbd. cbn [mbind option_bind].
  destruct (d =? 0) eqn:Ed; [by apply Herr; left|]. bool_solve.
  fold per. destruct (checked 64 (n * per)) as [tail|] eqn:Et; [|by apply Herr; left].
  apply checked_Some in Et as [-> Et].
  destruct (checked 64 _) as [total|] eqn:Ett; [|by apply Herr; left].
  apply checked_Some in Ett as [-> Ett].
  destruct (zlen bytes =? _) eqn:Elen; [|by apply Herr; left]. bool_solve. cbn [negb].
  destruct (read_slabs_ok bytes (1 + 16 * r) (1 + 16 * r + 1 + 16 * d) n) as (s & -> & Hs);
    [lia..|]. cbn [mbind option_bind].
  destruct (decode_cells_total _ _ _ _ s r d Hf Hs eq_refl eq_refl (zrange 0 n) [])
    as (vs & res & -> & Hty & Hle & Hres);
    [apply Forall_forall; intros i; by rewrite elem_of_zrange|constructor|].
  rewrite zlen_zrange in * by lia. change (zlen []) with 0 in *. rewrite Z.sub_0_r in *.
  eexists _, _. split; [done|]. split; [done|]. split; [lia|]. destruct res; [lia|by right].
Qed.
End total.

(** ** Encoding from a well-formed store *)

(** The columns hold values of their Rust types. *)
Definition name_typed (n : CellName) : Prop :=
  uint 128 (cn_fingerprint n) ∧ uint 128 (cn_key_hash n) ∧ uint 32 (cn_bucket n) ∧
  uint 128 (cn_node n) ∧ uint 32 (cn_incarnation n).
Record store_typed (store : CellStore.t) (V : gmap CellName Z) : Prop := {
  sty_names n c : V !! n = Some c → name_typed n;
  sty_updates : Forall (uint 64) (CellStore.last_update_millis store);
  sty_sequences : Forall (uint 64) (CellStore.origin_sequences store);
}.

Lemma zget_Forall {A} (P : A → Prop) l i x : Forall P l → zget l i = Some x → P x.
Proof. intros Hf Hx. rewrite Forall_forall in Hf. by eapply Hf, zget_elem_of. Qed.

Section encode.
Context {C : Count} {CL : CountLaws C}.
Context (store : CellStore.t) (V : gmap CellName Z).
Context (Hinv : inv store V) (Hty : store_typed store V).

(** What a cell of the store puts on the wire. *)
Definition wire_entry (e : entry) : Prop :=
  entry_typed e ∧
  V !! name_of (e_rule e) (e_node e) (cr_key (e_row e)) = Some (cr_count (e_row e)) ∧
  ni_incarnation (e_node e) = ck_incarnation (cr_key (e_row e)).

Lemma get_columns h row :
  CellStore.get store h = Some (Some row) →
  (∃ s, zget (CellStore.last_update_millis store) s = Some (cr_last_update_millis row)) ∧
  (∃ s, zget (CellStore.origin_sequences store) s = Some (cr_origin_sequence row)).
Proof using.
  unfold CellStore.get. destruct (CellStore.resolve store h) as [[s|]|]; simpl; [|done..].
  destruct (CellStore.key_at store s) as [k|]; simpl; [|done].
  destruct (zget (CellStore.counts store) s) as [c|]; simpl; [|done].
  destruct (zget (CellStore.last_update_millis store) s) as [u|] eqn:Eu; simpl; [|done].
  destruct (zget (CellStore.origin_sequences store) s) as [q|] eqn:Eq; simpl; [|done].
  intros [= <-]. simpl. eauto.
Qed.

Lemma wire_row_entry h :
  0 ≤ h_index h →
  ∃ w, wire_row store h = Some w ∧ ∀ e, w = Some e → entry_slots store e ∧ wire_entry e.
Proof using Hinv Hty.
  intros Hh. destruct Hinv as (A & Mr & Mn & pins & Hi).
  destruct (wire_row_ok store A Mr Mn pins V Hi h Hh) as (w & Hw & _ & He).
  exists w. split; [done|]. intros e ->.
  destruct (He e eq_refl) as (_ & Hs & HV & Hc & Hinc & Hg & _). split; [done|].
  destruct (sty_names _ _ Hty _ _ HV) as (Hf & Hk & Hb & Hn & Hin). simpl in *.
  destruct (get_columns _ _ Hg) as [[s1 Hu] [s2 Hq]].
  split; [|done]. unfold entry_typed. split_and!; try done; [by rewrite <- Hinc|lia|lia|..].
  - by apply (zget_Forall _ _ _ _ (sty_updates _ _ Hty) Hu).
  - by apply (zget_Forall _ _ _ _ (sty_sequences _ _ Hty) Hq).
Qed.

(** A scratch made for this store. *)
Definition scratch_for (s : WireScratch) : Prop :=
  zlen (rule_remap s) = Dict.capacity (CellStore.rule_dictionary store) ∧
  zlen (node_remap s) = Dict.capacity (CellStore.node_dictionary store).

Lemma reset_remap l : (λ _ : Z, U8_MAX) <$> l = replicate (length l) U8_MAX.
Proof using. induction l as [|x l IH]; [done|]. cbn. by rewrite <- IH. Qed.

Lemma fresh_plan_inv budget cs s :
  scratch_for s → plan_inv store budget cs (fresh_state (reset s)) [] [].
Proof using.
  intros [Hr Hn]. split; simpl; try done; [apply resolves_nil|..].
  - rewrite reset_remap. apply remap_reset.
  - rewrite reset_remap. apply remap_reset.
  - rewrite <- Hr. unfold zlen. by rewrite length_fmap.
  - rewrite <- Hn. unfold zlen. by rewrite length_fmap.
Qed.

Lemma resolves_entries hs es :
  Forall (λ h, 0 ≤ h_index h) hs → resolves store hs es → Forall wire_entry es.
Proof using Hinv Hty.
  intros Hf (ws & Hm%mapM_Some & ->). induction Hm as [|h w hs ws Hw _ IH]; [constructor|].
  apply Forall_cons in Hf as [Hh Hf]. specialize (IH Hf).
  destruct (wire_row_entry h Hh) as (w' & Hw' & He). rewrite Hw in Hw'. injection Hw' as <-.
  destruct w as [e|]; [|done]. constructor; [by apply (He e)|done].
Qed.

Lemma seq_range es :
  Forall wire_entry es → uint 64 (min_seq es) ∧ uint 64 (max_seq es).
Proof using.
  unfold min_seq, max_seq. induction es as [|e es IH] using rev_ind.
  { intros _. unfold uint, U64_MAX. simpl. lia. }
  intros [Hes He]%Forall_app. destruct (IH Hes) as [H1 H2]. rewrite !foldl_app. cbn [foldl].
  apply Forall_singleton in He as [(_ & _ & _ & _ & _ & _ & _ & Hq) _]. unfold uint in *. lia.
Qed.

Context (budget : Z).
Let per := PER_CELL_IDENT_BYTES + count_size.

(** One packet body: a prefix of the remaining handles is consumed, and the
    body decodes to the cells they resolve to. *)
Lemma encode_packet_body_ok pre rest scratch out :
  scratch_for scratch → Forall (λ h, 0 ≤ h_index h) rest → zlen rest ≤ U32_MAX →
  budget < 2 ^ 63 →
  ∃ hs1 hs2 es enc scratch' body,
    encode_packet_body store budget count_size (pre ++ rest) (zlen pre) scratch out =
      Some (enc, scratch', out ++ body) ∧
    rest = hs1 ++ hs2 ∧ resolves store hs1 es ∧ Forall wire_entry es ∧
    scratch_for scratch' ∧
    eb_handles_consumed enc = zlen hs1 ∧ eb_cells_emitted enc = zlen es ∧
    eb_cells_dropped enc = zlen hs1 - zlen es ∧
    eb_body_len enc = zlen body ∧ zlen body ≤ Z.max 0 budget ∧
    eb_min_origin_sequence enc = (if zlen es =? 0 then 0 else min_seq es) ∧
    eb_max_origin_sequence enc = max_seq es ∧
    decode_body_visit body (zlen es) = Some (wire_cell_of <$> es, Ok ()) ∧
    (hs2 = [] ∨ (es = [] → budget < DICT_LEN_BYTES + 32 + per)).
Proof using CL Hinv Hty.
  intros Hsc Hidx Hlen Hbud. unfold encode_packet_body. pose proof count_size_bounds.
  pose proof (zlen_nonneg pre). pose proof (zlen_nonneg rest).
  rewrite zlen_app. replace (zlen pre <=? zlen pre + zlen rest) with true by lia. simpl.
  unfold plan_packet. rewrite zlen_app. 
  assert (zslice (pre ++ rest) (zlen pre) (zlen pre + zlen rest) = Some rest) as ->
    by (pose proof (zslice_mid pre rest []) as Hm; by rewrite app_nil_r in Hm).
  simpl. change {| ps_consumed := 0; ps_emitted := 0; ps_dropped := 0;
    ps_r := 0; ps_d := 0; ps_min := U64_MAX; ps_max := 0; ps_scratch := reset scratch |}
    with (fresh_state (reset scratch)).
  destruct (plan_loop_ok store budget count_size count_size_bounds rest
    (fresh_state (reset scratch)) [] []) as (st & hs1 & hs2 & es & -> & Hrest & Hi & Hd).
  { by apply fresh_plan_inv. }
  { eapply Forall_impl; [exact Hidx|]. intros h Hh.
    destruct (wire_row_entry h Hh) as (w & Hw & He). exists w. split; [done|]. intros; by apply He. }
  { done. }
  simpl in Hi. simpl. pose proof Hi as [].
  assert (Forall wire_entry es) as Hes.
  { apply (resolves_entries hs1); [|done]. rewrite Hrest in Hidx. by apply Forall_app in Hidx as [? _]. }
  assert (scratch_for (ps_scratch st)) as Hsc' by done.
  rewrite pi_emitted, pi_consumed, pi_dropped. destruct (zlen es =? 0) eqn:E; bool_solve.
  { assert (es = []) as -> by (destruct es; [done|unfold zlen in E; simpl in E; lia]).
    eexists hs1, hs2, [], _, _, []. rewrite app_nil_r. split; [done|]. simpl.
    split_and!; try done. change (zlen []) with 0. lia. }
  assert (es ≠ []) as Hne by (by intros ->).
  destruct (pi_some Hne) as [Hr Hdp]. specialize (pi_budget Hne).
  match goal with |- context [write_body _ _ _ _ ?p _ _] => set (plan := p) end.
  destruct (write_body_ok count_size count_size_bounds store pre hs1 hs2 plan (ps_scratch st) out es)
    as (body & Hwb & Hbl & Hlay); try done.
  { simpl. symmetry. apply (ro_len _ _ _ _ pi_rules). }
  { simpl. symmetry. apply (ro_len _ _ _ _ pi_nodes). }
  { eapply Forall_impl; [exact pi_assigned|]. intros e [(v & ? & _) (v' & ? & _)]. eauto. }
  rewrite Hrest, Hwb. simpl in *. eexists hs1, hs2, es, _, _, body. split; [done|]. simpl.
  split_and!; try done; [lia|by replace (zlen es =? 0) with false by lia|].
  apply (decode_body_ok (ps_scratch st) body (ps_r st) (ps_d st) es (fp_of store) (id_of store));
    [|done|unfold U64_MAX; lia].
  split; try done.
  - eapply Forall_impl; [exact pi_slots|]. by intros e (_ & _ & ? & ?).
  - eapply Forall_impl; [exact Hes|]. by intros e [? _].
Qed.
End encode.
