(* ===== verification/Wire.v ===== *)
(** * Gossip frames

    [crates/gabion/src/wire.rs]: the packet iterator [Packets], which encodes
    a frame of handles into bounded, self-describing, optionally signed
    packets, and the decoders that turn a packet back into observations.

    The theorems: every packet fits the payload limit, each call makes
    progress, draining the iterator sends every resolvable handle exactly once
    and in order, decoding a packet returns the cells that were encoded, and
    decoding arbitrary bytes neither panics nor yields an ill-typed cell. *)

From S2P Require Import Prelude Types Dictionary IO CellStore CellSlots CellInv CellOps CellMerge Bytes WireHeader WireBody WirePlan WireCodec.

Record FrameLimits := {
  max_payload_bytes : Z;
  max_cells : Z;
}.
Definition FrameLimits_default : FrameLimits :=
  {| max_payload_bytes := 256 * 1024; max_cells := 4096 |}.

Record PacketWritten := {
  pw_cells_emitted : Z;
  pw_cells_dropped : Z;
  pw_flags : Z;
}.

Record DecodedSummary := {
  ds_header : Header;
  ds_cell_count : Z;
  ds_flags : Z;
}.

Inductive EncodeError := BudgetTooSmall.

Record PacketBuf := {
  pb_inner : list Z;
  pb_capacity : Z;
}.

Definition PacketBuf_for_limits (limits : FrameLimits) : PacketBuf :=
  {| pb_inner := []; pb_capacity := max_payload_bytes limits |}.
Definition as_bytes (buf : PacketBuf) : list Z := pb_inner buf.

Definition min_payload_bytes (count_size auth_overhead : Z) : Z :=
  HEADER_LEN + DICT_LEN_BYTES + 16 + 16 + PER_CELL_IDENT_BYTES + count_size + auth_overhead.

(** A key is its bytes; [None] is an unauthenticated stream. *)
Definition auth_overhead (key : option (list Z)) : Z :=
  match key with Some _ => AUTH_TAG_LEN | None => 0 end.

(** [flag] set or cleared in a [u16]: [flags |= flag], [flags &= !flag]. *)
Definition set_flag (flags flag : Z) (on : bool) : Z :=
  if on then Z.lor flags flag else Z.land flags (Z.lxor flag U16_MAX).

(** The shared store of the iterator is an argument of its methods. *)
Record Packets := {
  pk_header : Header;
  pk_handles : list CellHandle;
  pk_key : option (list Z);
  pk_scratch : WireScratch;
  pk_limits : FrameLimits;
  pk_cursor : Z;
}.
#[global] Instance eta_Packets : Eta Packets := λ x,
  {| pk_header := pk_header x; pk_handles := pk_handles x; pk_key := pk_key x;
     pk_scratch := pk_scratch x; pk_limits := pk_limits x; pk_cursor := pk_cursor x |}.

Section wire.
Context `{C : Count} (hmac : list Z → list Z → list Z).

Definition Packets_new (header : Header) (handles : list CellHandle)
    (key : option (list Z)) (scratch : WireScratch) (limits : FrameLimits) :
    Packets + EncodeError :=
  if max_payload_bytes limits <? min_payload_bytes count_size (auth_overhead key)
  then Err BudgetTooSmall
  else Ok {| pk_header := header; pk_handles := handles; pk_key := key;
             pk_scratch := scratch; pk_limits := limits; pk_cursor := 0 |}.

Definition unauth (header : Header) (handles : list CellHandle) (scratch : WireScratch)
    (limits : FrameLimits) : Packets + EncodeError :=
  Packets_new header handles None scratch limits.
Definition auth (header : Header) (handles : list CellHandle) (key : list Z)
    (scratch : WireScratch) (limits : FrameLimits) : Packets + EncodeError :=
  Packets_new header handles (Some key) scratch limits.

Definition remaining (self : Packets) : option Z :=
  checked 64 (zlen (pk_handles self) - pk_cursor self).

(** The header of one packet. *)
Definition packet_header (self : Packets) (encoded : EncodedBody) (more : bool) : Header :=
  let flags := set_flag (hdr_flags (pk_header self)) FLAG_MORE more in
  let flags := set_flag flags FLAG_AUTHENTICATED
                 (match pk_key self with Some _ => true | None => false end) in
  pk_header self <| hdr_flags := flags |>
                 <| count_width := as_u32 count_size |>
                 <| cell_count := eb_cells_emitted encoded |>
                 <| body_len := as_u32 (eb_body_len encoded) |>
                 <| min_origin_sequence := eb_min_origin_sequence encoded |>
                 <| max_origin_sequence := eb_max_origin_sequence encoded |>.

Definition next_into (store : CellStore.t) (self : Packets) (buf : PacketBuf) :
    option (Packets * PacketBuf * (option PacketWritten + EncodeError)) :=
  let inner := [] in
  if zlen (pk_handles self) <=? pk_cursor self then
    Some (self, {| pb_inner := inner; pb_capacity := pb_capacity buf |}, Ok None)
  else
  let body_budget := saturating_sub (max_payload_bytes (pk_limits self))
                       (HEADER_LEN + auth_overhead (pk_key self)) in
  let inner := replicate (Z.to_nat HEADER_LEN) 0 in
  '(encoded, scratch, inner) ← encode_packet_body store body_budget count_size
      (pk_handles self) (pk_cursor self) (pk_scratch self) inner;
  let self := self <| pk_scratch := scratch |> in
  if (eb_cells_emitted encoded =? 0) && (eb_handles_consumed encoded =? 0) then
    Some (self, {| pb_inner := inner; pb_capacity := pb_capacity buf |}, Err BudgetTooSmall)
  else
  next_cursor ← checked 64 (pk_cursor self + eb_handles_consumed encoded);
  let more := next_cursor <? zlen (pk_handles self) in
  let hdr := packet_header self encoded more in
  head ← zslice inner 0 HEADER_LEN;
  head ← patch_header head hdr;
  inner ← zcopy inner 0 head;
  inner ← match pk_key self with
          | Some key =>
            signed ← zslice inner 0 (HEADER_LEN + eb_body_len encoded);
            Some (inner ++ sign hmac key signed)
          | None => Some inner
          end;
  assert_ (zlen inner <=? max_payload_bytes (pk_limits self));;
  Some (self <| pk_cursor := next_cursor |>,
        {| pb_inner := inner; pb_capacity := pb_capacity buf |},
        Ok (Some {| pw_cells_emitted := eb_cells_emitted encoded;
                    pw_cells_dropped := eb_cells_dropped encoded;
                    pw_flags := hdr_flags hdr |})).

(** ** Decoding *)
Definition observation_from_wire (cell : WireCell) : Observation := {|
  o_rule_fingerprint := wc_rule_fingerprint cell;
  o_key_hash := wc_key_hash cell;
  o_bucket := wc_bucket cell;
  o_origin := wc_origin_node_id cell;
  o_incarnation := wc_origin_incarnation cell;
  o_count := wc_count cell;
  o_last_update_millis := wc_last_update_millis cell;
|}.

(** The frame in front of the tag, once the tag is verified. *)
Definition authenticate (bytes : list Z) (key : option (list Z)) :
    option (list Z + DecodeError) :=
  match key with
  | Some key =>
    let split := zlen bytes - AUTH_TAG_LEN in
    frame ← zslice bytes 0 split;
    tag ← zslice bytes split (zlen bytes);
    match verify hmac key frame tag with
    | inr _ => Some (Err AuthenticationFailed)
    | inl _ => Some (Ok frame)
    end
  | None => Some (Ok bytes)
  end.

(** The cells visited, and the outcome; cells visited before an error have
    been handed to the callback. *)
Definition decode_inner (bytes : list Z) (key : option (list Z)) (limits : FrameLimits)
    (accept_header : Header → bool) :
    option (list WireCell * (DecodedSummary + DecodeError)) :=
  if max_payload_bytes limits <? zlen bytes then Some ([], Err PayloadTooLarge) else
  if zlen bytes <? HEADER_LEN + auth_overhead key then Some ([], Err TooShort) else
  frame ← authenticate bytes key;
  match frame with
  | inr e => Some ([], Err e)
  | inl frame =>
    header ← read_header frame;
    match header with
    | inr e => Some ([], Err e)
    | inl header =>
      if negb (count_width header =? count_size) then Some ([], Err BadCountWidth) else
      if max_cells limits <? cell_count header then Some ([], Err CapacityExceeded) else
      match checked 64 (HEADER_LEN + body_len header) with
      | None => Some ([], Err BodyLenMismatch)
      | Some total_required =>
        if negb (total_required =? zlen frame) then
          Some ([], Err (if zlen frame <? total_required then BodyLenMismatch else Trailing))
        else
        let summary := {| ds_header := header; ds_cell_count := cell_count header;
                          ds_flags := hdr_flags header |} in
        if negb (accept_header header) then Some ([], Ok summary) else
        body_bytes ← zslice frame HEADER_LEN (HEADER_LEN + body_len header);
        '(cells, r) ← decode_body_visit body_bytes (cell_count header);
        match r with
        | inr e => Some (cells, Err e)
        | inl _ => Some (cells, Ok summary)
        end
      end
    end
  end.

Definition push_cells (obs : ObservationBatch.t) (cells : list WireCell) : ObservationBatch.t :=
  foldl (λ obs c, ObservationBatch.push obs (observation_from_wire c)) obs cells.

Definition decode_unauth (bytes : list Z) (limits : FrameLimits) (obs : ObservationBatch.t) :
    option (ObservationBatch.t * (DecodedSummary + DecodeError)) :=
  '(cells, r) ← decode_inner bytes None limits (λ _, true);
  Some (push_cells obs cells, r).
Definition decode_auth (bytes key : list Z) (limits : FrameLimits) (obs : ObservationBatch.t) :
    option (ObservationBatch.t * (DecodedSummary + DecodeError)) :=
  '(cells, r) ← decode_inner bytes (Some key) limits (λ _, true);
  Some (push_cells obs cells, r).

Definition decode_unauth_visit (bytes : list Z) (limits : FrameLimits) :=
  decode_inner bytes None limits.
Definition decode_auth_visit (bytes key : list Z) (limits : FrameLimits) :=
  decode_inner bytes (Some key) limits.
End wire.

(** ** Frames as bytes *)
Lemma bytes_at_app {A} (l l2 xs : list A) a : bytes_at l a xs → bytes_at (l ++ l2) a xs.
Proof.
  intros (Ha & Hb & _ & Hx)%zslice_Some. unfold bytes_at, zslice. rewrite zlen_app.
  pose proof (zlen_nonneg l2). pose proof (zlen_nonneg xs).
  match goal with |- (if ?b then _ else _) = _ => replace b with true by lia end. f_equal.
  rewrite Hx at 2. unfold zlen in *. rewrite drop_app_le by lia.
  rewrite take_app_le by (rewrite length_drop; lia). done.
Qed.

Lemma header_at_app head body hdr : header_at head hdr → header_at (head ++ body) hdr.
Proof.
  intros []. split; [rewrite zlen_app; pose proof (zlen_nonneg body); lia|by apply bytes_at_app..].
Qed.

Lemma zslice_prefix {A} (l l2 : list A) : zslice (l ++ l2) 0 (zlen l) = Some l.
Proof. apply (zslice_mid [] l l2). Qed.
Lemma zslice_suffix {A} (l l2 : list A) n : n = zlen l + zlen l2 → zslice (l ++ l2) (zlen l) n = Some l2.
Proof. intros ->. pose proof (zslice_mid l l2 []) as H. by rewrite app_nil_r in H. Qed.

Lemma splice_head {A} (head head' body : list A) :
  zlen head' = zlen head → splice (head ++ body) 0 head' = head' ++ body.
Proof.
  intros Hl. unfold splice. simpl. f_equal. rewrite Z.add_0_l. unfold zlen in *.
  rewrite Hl, Nat2Z.id. apply drop_app_length.
Qed.

(** Patching the reserved header slot of a buffer. *)
Lemma patch_slot_ok slot body hdr :
  zlen slot = HEADER_LEN →
  ∃ head, zlen head = HEADER_LEN ∧ header_at head hdr ∧
    (s ← zslice (slot ++ body) 0 HEADER_LEN; s ← patch_header s hdr; zcopy (slot ++ body) 0 s)
      = Some (head ++ body).
Proof.
  intros Hs. rewrite <- Hs. rewrite zslice_prefix. cbn [mbind option_bind].
  destruct (patch_header_ok slot hdr) as (head & -> & Hat & Hl & _); [lia|].
  cbn [mbind option_bind]. exists head. split; [lia|]. split; [done|].
  rewrite zcopy_ok, splice_head; [done|done|lia|]. rewrite zlen_app.
  pose proof (zlen_nonneg body). lia.
Qed.

(** ** Flags *)
Lemma uint_lor w a b : 0 ≤ w → uint w a → uint w b → uint w (Z.lor a b).
Proof.
  unfold uint. intros Hw Ha Hb.
  rewrite <- (Z.mod_small a (2 ^ w)), <- (Z.mod_small b (2 ^ w)) by done.
  rewrite <- !Z.land_ones, <- Z.land_lor_distr_l, Z.land_ones by done.
  apply Z.mod_pos_bound. lia.
Qed.
Lemma uint_land w a b : 0 ≤ w → uint w a → 0 ≤ b → uint w (Z.land a b).
Proof.
  unfold uint. intros Hw Ha Hb. rewrite <- (Z.mod_small a (2 ^ w)) by done.
  rewrite <- Z.land_ones, <- Z.land_assoc, (Z.land_comm _ b), Z.land_assoc, Z.land_ones by done.
  apply Z.mod_pos_bound. lia.
Qed.

Lemma set_flag_uint flags flag on :
  uint 16 flags → uint 16 flag → uint 16 (set_flag flags flag on).
Proof.
  intros Hf Hg. unfold set_flag. destruct on; [by apply uint_lor|].
  apply uint_land; [lia|done|]. apply Z.lxor_nonneg. unfold uint in *. unfold U16_MAX. lia.
Qed.

(** Bit [i] of the flags after setting or clearing [2 ^ i], and other bits. *)
Lemma set_flag_testbit flags i j on :
  0 ≤ i < 16 → 0 ≤ j < 16 →
  Z.testbit (set_flag flags (2 ^ i) on) j = if decide (i = j) then on else Z.testbit flags j.
Proof.
  intros Hi Hj. unfold set_flag.
  assert (Z.testbit U16_MAX j = true) as Hmax.
  { change U16_MAX with (Z.ones 16). by rewrite Z.ones_spec_low by lia. }
  destruct on.
  - rewrite Z.lor_spec, Z.pow2_bits_eqb by lia. case_decide.
    + subst. rewrite Z.eqb_refl. apply orb_true_r.
    + replace (i =? j) with false by lia. apply orb_false_r.
  - rewrite Z.land_spec, Z.lxor_spec, Z.pow2_bits_eqb, Hmax by lia. case_decide.
    + subst. rewrite Z.eqb_refl. simpl. apply andb_false_r.
    + replace (i =? j) with false by lia. simpl. apply andb_true_r.
Qed.

Section frames.
Context {C : Count} {CL : CountLaws C} (hmac : list Z → list Z → list Z).
Context (hmac_len : ∀ key payload, zlen (hmac key payload) = AUTH_TAG_LEN).

(** A frame and its tag, as [next_into] lays them out. *)
Definition tagged (key : option (list Z)) (frame : list Z) : list Z :=
  match key with Some key => frame ++ sign hmac key frame | None => frame end.

Lemma zlen_tagged key frame : zlen (tagged key frame) = zlen frame + auth_overhead key.
Proof using hmac_len.
  destruct key; simpl; [|lia]. rewrite zlen_app. unfold sign. by rewrite hmac_len.
Qed.

Lemma authenticate_tagged key frame :
  authenticate hmac (tagged key frame) key = Some (Ok frame).
Proof using hmac_len.
  destruct key as [key|]; [|done]. unfold authenticate.
  assert (zlen (tagged (Some key) frame) = zlen frame + AUTH_TAG_LEN) as Hl by apply zlen_tagged.
  rewrite Hl. replace (zlen frame + AUTH_TAG_LEN - AUTH_TAG_LEN) with (zlen frame) by lia.
  simpl. rewrite zslice_prefix. cbn [mbind option_bind].
  rewrite zslice_suffix by (unfold sign; by rewrite hmac_len). cbn [mbind option_bind].
  unfold verify, sign. by rewrite bool_decide_true.
Qed.

(** Decoding a frame laid out as a header and a body. *)
Lemma decode_frame_ok key head body hdr cells limits accept :
  header_at head hdr → header_ok hdr → zlen head = HEADER_LEN →
  zlen body = body_len hdr → count_width hdr = count_size →
  decode_body_visit body (cell_count hdr) = Some (cells, Ok ()) →
  zlen (tagged key (head ++ body)) ≤ max_payload_bytes limits →
  cell_count hdr ≤ max_cells limits →
  decode_inner hmac (tagged key (head ++ body)) key limits accept =
    Some (if accept hdr then cells else [],
          Ok {| ds_header := hdr; ds_cell_count := cell_count hdr; ds_flags := hdr_flags hdr |}).
Proof using hmac_len.
  intros Hat Hok Hh Hb Hw Hdec Hmax Hcells. unfold decode_inner.
  pose proof (zlen_tagged key (head ++ body)) as Hl. rewrite zlen_app in Hl.
  pose proof (zlen_nonneg body).
  replace (max_payload_bytes limits <? _) with false by lia.
  replace (zlen _ <? HEADER_LEN + auth_overhead key) with false by lia.
  rewrite authenticate_tagged. cbn [mbind option_bind].
  rewrite (read_header_ok _ hdr) by (done || by apply header_at_app). cbn [mbind option_bind].
  rewrite Hw, Z.eqb_refl. cbn [negb]. replace (max_cells limits <? _) with false by lia.
  pose proof Hok as (_ & _ & _ & _ & _ & Hbl & _). unfold uint in Hbl.
  rewrite checked_ok by (unfold HEADER_LEN; lia).
  replace (HEADER_LEN + body_len hdr =? zlen (head ++ body)) with true by (rewrite zlen_app; lia).
  cbn [negb]. destruct (accept hdr); [|done]. cbn [negb].
  rewrite <- Hh, <- Hb. rewrite zslice_suffix by lia. cbn [mbind option_bind]. by rewrite Hdec.
Qed.

Context (store : CellStore.t) (V : gmap CellName Z).
Context (Hinv : inv store V) (Hty : store_typed store V).

Record packets_ok (self : Packets) : Prop := {
  po_handles : Forall (λ h, 0 ≤ h_index h) (pk_handles self);
  po_count : zlen (pk_handles self) ≤ U32_MAX;
  po_scratch : scratch_for store (pk_scratch self);
  po_header : header_ok (pk_header self);
  po_min : min_payload_bytes count_size (auth_overhead (pk_key self))
           ≤ max_payload_bytes (pk_limits self);
  po_max : max_payload_bytes (pk_limits self) ≤ U32_MAX;
  po_cursor : 0 ≤ pk_cursor self ≤ zlen (pk_handles self);
}.

(** What every packet of a stream copies from its header template. *)
Definition same_sender (h h' : Header) : Prop :=
  cluster_id_hash h = cluster_id_hash h' ∧ sender_node_id h = sender_node_id h' ∧
  sender_incarnation h = sender_incarnation h'.

(** One packet: [hs] are the handles it consumes, [es] the cells it carries. *)
Record packet_post (self : Packets) (bytes : list Z) (pw : PacketWritten)
    (hs : list CellHandle) (es : list entry) (more : bool) : Prop := {
  pp_resolves : resolves store hs es;
  pp_entries : Forall (wire_entry V) es;
  pp_emitted : pw_cells_emitted pw = zlen es;
  pp_dropped : pw_cells_dropped pw = zlen hs - zlen es;
  pp_bound : zlen bytes ≤ max_payload_bytes (pk_limits self);
  pp_decode : ∃ hdr, same_sender hdr (pk_header self) ∧ hdr_flags hdr = pw_flags pw ∧
    Z.testbit (hdr_flags hdr) 0 = more ∧
    min_origin_sequence hdr = (if zlen es =? 0 then 0 else min_seq es) ∧
    max_origin_sequence hdr = max_seq es ∧
    ∀ limits accept, zlen bytes ≤ max_payload_bytes limits → zlen es ≤ max_cells limits →
      decode_inner hmac bytes (pk_key self) limits accept =
        Some (if accept hdr then wire_cell_of <$> es else [],
              Ok {| ds_header := hdr; ds_cell_count := zlen es; ds_flags := pw_flags pw |});
}.

Lemma packet_header_ok self encoded more :
  header_ok (pk_header self) → uint 32 (eb_cells_emitted encoded) →
  uint 32 (eb_body_len encoded) → uint 64 (eb_min_origin_sequence encoded) →
  uint 64 (eb_max_origin_sequence encoded) →
  header_ok (packet_header self encoded more) ∧
  count_width (packet_header self encoded more) = count_size ∧
  body_len (packet_header self encoded more) = eb_body_len encoded ∧
  Z.testbit (hdr_flags (packet_header self encoded more)) 0 = more.
Proof using CL.
  intros (? & ? & ? & ? & ? & ? & ? & ? & Hf) ? Hb ? ?. pose proof count_size_bounds.
  unfold packet_header. simpl.
  assert (as_u32 count_size = count_size) as -> by (unfold as_u32; rewrite Z.mod_small; lia).
  assert (as_u32 (eb_body_len encoded) = eb_body_len encoded) as ->
    by (unfold as_u32; by rewrite Z.mod_small).
  split_and!; try done.
  - unfold header_ok, uint in *. simpl. split_and!; try lia.
    all: apply set_flag_uint; [apply set_flag_uint|]; unfold uint, FLAG_MORE, FLAG_AUTHENTICATED; lia.
  - rewrite <- Z.bit0_odd. change FLAG_AUTHENTICATED with (2 ^ 1). change FLAG_MORE with (2 ^ 0).
    by rewrite !set_flag_testbit by lia.
Qed.

(** [next_into] on a live iterator. *)
Lemma next_into_ok self buf :
  packets_ok self → pk_cursor self < zlen (pk_handles self) →
  ∃ scratch' buf' pw hs es rest,
    let self' := self <| pk_scratch := scratch' |>
                      <| pk_cursor := pk_cursor self + zlen hs |> in
    next_into hmac store self buf = Some (self', buf', Ok (Some pw)) ∧
    packets_ok self' ∧ hs ≠ [] ∧
    drop (Z.to_nat (pk_cursor self)) (pk_handles self) = hs ++ rest ∧
    packet_post self (as_bytes buf') pw hs es (negb (bool_decide (rest = []))).
Proof using CL Hinv Hty hmac_len.
  intros [Hidx Hcnt Hsc Hhdr Hmin Hmax Hcur] Hlt. pose proof count_size_bounds.
  unfold min_payload_bytes, HEADER_LEN, DICT_LEN_BYTES, PER_CELL_IDENT_BYTES, U32_MAX in *.
  set (pre := take (Z.to_nat (pk_cursor self)) (pk_handles self)).
  set (rem := drop (Z.to_nat (pk_cursor self)) (pk_handles self)).
  assert (pk_handles self = pre ++ rem) as Hh by (symmetry; apply take_drop).
  assert (zlen pre = pk_cursor self) as Hpre.
  { unfold pre, zlen in *. rewrite length_take. lia. }
  assert (zlen (pk_handles self) = zlen pre + zlen rem) as Hlen by (rewrite Hh at 1; apply zlen_app).
  unfold next_into. replace (zlen (pk_handles self) <=? pk_cursor self) with false by lia.
  set (budget := saturating_sub _ _).
  assert (budget = max_payload_bytes (pk_limits self) - (72 + auth_overhead (pk_key self))) as Hbud.
  { unfold budget, saturating_sub, HEADER_LEN. lia. }
  assert (0 ≤ auth_overhead (pk_key self)) by (destruct (pk_key self); simpl; unfold AUTH_TAG_LEN; lia).
  destruct (encode_packet_body_ok store V Hinv Hty budget pre rem (pk_scratch self)
    (replicate (Z.to_nat HEADER_LEN) 0))
    as (hs & rest & es & enc & sc & body & Hen & Hrem & Hres & Hes & Hsc' & Hco & Hem & Hdr &
        Hbl & Hbb & Hmn & Hmx & Hdec & Hend); [done| |unfold U32_MAX; lia|lia|].
  { rewrite Hh in Hidx. by apply Forall_app in Hidx as [_ ?]. }
  rewrite <- Hh, Hpre in Hen. rewrite Hen. cbn [mbind option_bind].
  pose proof (resolves_length _ _ _ Hres). pose proof (zlen_nonneg es). pose proof (zlen_nonneg body).
  pose proof (zlen_nonneg rest).
  assert (zlen rem = zlen hs + zlen rest) as Hlr by (rewrite Hrem; apply zlen_app).
  assert (hs ≠ []) as Hhs.
  { intros ->. destruct Hend as [->|Hend].
    - change (zlen []) with 0 in *. lia.
    - change (zlen []) with 0 in *. assert (es = []) as Hn
        by (destruct es; [done|unfold zlen in *; simpl in *; lia]).
      specialize (Hend Hn). unfold DICT_LEN_BYTES, PER_CELL_IDENT_BYTES in Hend. lia. }
  assert (0 < zlen hs) by (destruct hs; [done|unfold zlen; simpl; lia]).
  replace ((eb_cells_emitted enc =? 0) && (eb_handles_consumed enc =? 0)) with false by lia.
  simpl pk_cursor. rewrite Hco. rewrite checked_ok by lia. cbn [mbind option_bind].
  set (self1 := self <| pk_scratch := sc |>). set (more := _ <? _).
  destruct (seq_range V es Hes) as [Hq1 Hq2].
  destruct (packet_header_ok self1 enc more Hhdr) as (Hok & Hw & Hbl' & Hbit);
    [unfold uint; lia|unfold uint; lia| |by rewrite Hmx|].
  { rewrite Hmn. destruct (_ =? 0); [unfold uint; lia|done]. }
  destruct (patch_slot_ok (replicate (Z.to_nat HEADER_LEN) 0) body (packet_header self1 enc more))
    as (head & Hhead & Hat & Hp).
  { rewrite zlen_replicate. unfold HEADER_LEN. lia. }
  destruct (zslice _ 0 HEADER_LEN) as [slot|]; [|done]. cbn [mbind option_bind] in Hp |- *.
  destruct (patch_header _ _) as [slot'|]; [|done]. cbn [mbind option_bind] in Hp |- *.
  rewrite Hp. cbn [mbind option_bind]. clear Hp.
  assert ((match pk_key self1 with
           | Some key => signed ← zslice (head ++ body) 0 (HEADER_LEN + eb_body_len enc);
                         Some ((head ++ body) ++ sign hmac key signed)
           | None => Some (head ++ body) end) = Some (tagged (pk_key self) (head ++ body))) as ->.
  { simpl. destruct (pk_key self) as [key|]; [|done]. rewrite Hbl, <- Hhead, <- zlen_app.
    rewrite zslice_all by done. done. }
  cbn [mbind option_bind].
  pose proof (zlen_tagged (pk_key self) (head ++ body)) as Hlt'. rewrite zlen_app, Hhead in Hlt'.
  unfold HEADER_LEN in Hlt'.
  match goal with |- context [assert_ ?b] => replace b with true by (simpl; lia) end.
  cbn [mbind option_bind assert_].
  eexists sc, _, _, hs, es, rest. split; [done|]. split; [|split; [done|split; [done|]]].
  - split; simpl; try done; lia.
  - assert (more = negb (bool_decide (rest = []))) as Hmore.
    { unfold more. simpl. case_bool_decide as Hr; simpl.
      - subst rest. change (zlen []) with 0 in *. lia.
      - assert (0 < zlen rest) by (destruct rest; [done|unfold zlen; simpl; lia]). lia. }
    split; simpl; try done; [lia|]. exists (packet_header self1 enc more).
    split; [done|]. split; [done|]. split; [rewrite <- Hmore; exact Hbit|]. split; [done|]. split; [done|].
    intros limits accept Hl1 Hl2.
    rewrite (decode_frame_ok (pk_key self) head body (packet_header self1 enc more) (wire_cell_of <$> es) limits accept);
      try done.
    all: rewrite ?Hbl'; simpl; rewrite ?Hem; first [done|lia].
Qed.

(** ** Draining the iterator

    [while let Some(written) = packets.next_into(&mut buf)? { send(buf) }]:
    the packets sent, and the iterator once it is exhausted.  Every call
    consumes a handle, so [remaining + 1] calls are enough. *)
Fixpoint drain (fuel : nat) (self : Packets) (buf : PacketBuf) :
    option (Packets * (list (list Z * PacketWritten) + EncodeError)) :=
  match fuel with
  | O => None
  | S fuel =>
    '(self, buf, r) ← next_into hmac store self buf;
    match r with
    | inr e => Some (self, Err e)
    | inl None => Some (self, Ok [])
    | inl (Some pw) =>
      '(self, r) ← drain fuel self buf;
      match r with
      | inr e => Some (self, Err e)
      | inl ps => Some (self, Ok ((as_bytes buf, pw) :: ps))
      end
    end
  end.

(** Every packet of a drained stream: its handles, its cells. *)
Definition stream_ok (self : Packets) (ps : list (list Z * PacketWritten))
    (parts : list (list CellHandle * list entry)) : Prop :=
  Forall2 (λ p part, part.1 ≠ [] ∧ ∃ more, packet_post self p.1 p.2 part.1 part.2 more) ps parts.

(** A packet's facts depend on the stream only through its template, key and limits. *)
Lemma packet_post_stream self self' bytes pw hs es more :
  pk_header self = pk_header self' → pk_key self = pk_key self' →
  pk_limits self = pk_limits self' →
  packet_post self bytes pw hs es more → packet_post self' bytes pw hs es more.
Proof using. intros H1 H2 H3 []. by split; rewrite <- ?H1, <- ?H2, <- ?H3. Qed.

Lemma drain_ok fuel : ∀ self buf,
  packets_ok self → zlen (pk_handles self) - pk_cursor self < Z.of_nat fuel →
  ∃ self' ps parts, drain fuel self buf = Some (self', Ok ps) ∧
    remaining self' = Some 0 ∧ stream_ok self ps parts ∧
    concat parts.*1 = drop (Z.to_nat (pk_cursor self)) (pk_handles self).
Proof using CL Hinv Hty hmac_len.
  induction fuel as [|fuel IH]; intros self buf Hok Hf.
  { pose proof (po_cursor _ Hok). lia. }
  pose proof (po_cursor _ Hok) as Hcur. cbn [drain].
  destruct (decide (pk_cursor self = zlen (pk_handles self))) as [He|Hne].
  - unfold next_into. replace (zlen (pk_handles self) <=? pk_cursor self) with true by lia.
    cbn [mbind option_bind]. exists self, [], []. split; [done|]. split.
    { unfold remaining. rewrite checked_ok by lia. f_equal. lia. }
    split; [constructor|]. simpl. symmetry. apply drop_ge. unfold zlen in *. lia.
  - destruct (next_into_ok self buf Hok ltac:(lia))
      as (sc & buf' & pw & hs & es & rest & -> & Hok' & Hhs & Hdrop & Hpost).
    cbn [mbind option_bind]. assert (0 < zlen hs) by (destruct hs; [done|unfold zlen; simpl; lia]).
    set (self1 := self <| pk_scratch := sc |> <| pk_cursor := pk_cursor self + zlen hs |>) in *.
    destruct (IH self1 buf' Hok') as (self' & ps & parts & -> & Hrem & Hst & Hcat).
    { simpl. lia. }
    cbn [mbind option_bind]. exists self', ((as_bytes buf', pw) :: ps), ((hs, es) :: parts).
    split; [done|]. split; [done|]. split.
    + constructor; [simpl; eauto|]. eapply Forall2_impl; [exact Hst|].
      intros p part (? & more & Hp). split; [done|]. exists more.
      by eapply packet_post_stream; [..|exact Hp].
    + cbn [fmap list_fmap fst concat]. etrans; [apply (f_equal (app hs)), Hcat|]. simpl. rewrite Hdrop.
      assert (rest = drop (length hs) (drop (Z.to_nat (pk_cursor self)) (pk_handles self))) as ->
        by (by rewrite Hdrop, drop_app_length).
      rewrite drop_drop. f_equal. f_equal. unfold zlen. lia.
Qed.

Lemma stream_resolves self ps parts :
  stream_ok self ps parts → resolves store (concat parts.*1) (concat parts.*2).
Proof using.
  induction 1 as [|p [hs es] ps parts [_ (more & [Hr _ _ _ _ _])] _ IH]; [apply resolves_nil|].
  simpl in Hr. change (resolves store (hs ++ concat parts.*1) (es ++ concat parts.*2)).
  destruct Hr as (ws1 & Hm1 & ->), IH as (ws2 & Hm2 & ->).
  exists (ws1 ++ ws2). split; [|by rewrite omap_app].
  apply mapM_Some in Hm1, Hm2. apply mapM_Some. by apply Forall2_app.
Qed.

(** ** What a receiver gets *)
Definition wire_obs (e : entry) : Observation := observation_from_wire (wire_cell_of e).

(** Decode the packets of a stream, in the order given, into one batch. *)
Fixpoint receive (key : option (list Z)) (limits : FrameLimits) (packets : list (list Z))
    (obs : ObservationBatch.t) : option (ObservationBatch.t * (unit + DecodeError)) :=
  match packets with
  | [] => Some (obs, Ok ())
  | bytes :: packets =>
    '(obs, r) ← match key with
                | Some key => decode_auth hmac bytes key limits obs
                | None => decode_unauth hmac bytes limits obs
                end;
    match r with
    | inr e => Some (obs, Err e)
    | inl _ => receive key limits packets obs
    end
  end.

Lemma push_cells_rows rows cells :
  push_cells (ObservationBatch.of_rows rows) cells =
    ObservationBatch.of_rows (rows ++ (observation_from_wire <$> cells)).
Proof using.
  revert rows. induction cells as [|c cells IH]; intros rows; [by rewrite app_nil_r|].
  unfold push_cells in *. cbn [foldl]. rewrite ObservationBatch.obs_push_of_rows, IH.
  by rewrite <- app_assoc.
Qed.

Lemma receive_ok self limits ps parts : ∀ rows,
  stream_ok self ps parts → max_payload_bytes (pk_limits self) ≤ max_payload_bytes limits →
  zlen (concat parts.*2) ≤ max_cells limits →
  receive (pk_key self) limits ps.*1 (ObservationBatch.of_rows rows) =
    Some (ObservationBatch.of_rows (rows ++ (wire_obs <$> concat parts.*2)), Ok ()).
Proof using.
  intros rows Hst Hp. revert rows.
  induction Hst as [|[bytes pw] [hs es] ps parts [_ (more & Hpost)] _ IH]; intros rows Hc.
  { cbn. by rewrite app_nil_r. }
  simpl in Hpost. change (concat ((hs, es) :: parts).*2) with (es ++ concat parts.*2) in *.
  cbn [fmap list_fmap fst snd receive].
  rewrite zlen_app in Hc. pose proof (zlen_nonneg es). pose proof (zlen_nonneg (concat parts.*2)).
  destruct Hpost as [_ _ _ _ Hb (hdr & _ & _ & _ & _ & _ & Hdec)].
  specialize (Hdec limits (λ _, true) ltac:(lia) ltac:(lia)).
  assert (match pk_key self with
          | Some key => decode_auth hmac bytes key limits (ObservationBatch.of_rows rows)
          | None => decode_unauth hmac bytes limits (ObservationBatch.of_rows rows)
          end = Some (ObservationBatch.of_rows (rows ++ (wire_obs <$> es)),
            Ok {| ds_header := hdr; ds_cell_count := zlen es; ds_flags := pw_flags pw |})) as ->.
  { destruct (pk_key self); unfold decode_auth, decode_unauth; rewrite Hdec;
      cbn [mbind option_bind]; rewrite push_cells_rows, <- list_fmap_compose; done. }
  cbn [mbind option_bind]. rewrite IH by lia. by rewrite <- app_assoc, fmap_app.
Qed.

(** ** Merging what was received *)
Definition entry_name (e : entry) : CellName :=
  name_of (e_rule e) (e_node e) (cr_key (e_row e)).

Lemma wire_obs_name e : wire_entry V e → remote_name (wire_obs e) = entry_name e.
Proof using.
  intros (_ & _ & Hinc). unfold remote_name, entry_name, name_of. simpl. by rewrite Hinc.
Qed.

Lemma wire_obs_ok es : Forall (wire_entry V) es → Forall obs_ok (wire_obs <$> es).
Proof using.
  intros Hes. apply Forall_fmap. eapply Forall_impl; [exact Hes|].
  intros e [(_ & _ & _ & _ & _ & Hc & _) _]. exact Hc.
Qed.

Lemma stream_entries self ps parts :
  stream_ok self ps parts → Forall (wire_entry V) (concat parts.*2).
Proof using.
  induction 1 as [|p [hs es] ps parts [_ (more & [_ He _ _ _ _])] _ IH]; [constructor|].
  change (Forall (wire_entry V) (es ++ concat parts.*2)). by apply Forall_app.
Qed.
End frames.

(** ** Decoding arbitrary input *)
Section untrusted.
Context {C : Count} {CL : CountLaws C} (hmac : list Z → list Z → list Z).

Lemma authenticate_total bytes key :
  auth_overhead key ≤ zlen bytes →
  ∃ r, authenticate hmac bytes key = Some r ∧
    match r with
    | inl frame => (∃ tail, bytes = frame ++ tail) ∧ zlen frame = zlen bytes - auth_overhead key ∧
        (∀ k, key = Some k → bytes = frame ++ hmac k frame)
    | inr e => e = AuthenticationFailed
    end.
Proof using.
  intros Hl. destruct key as [key|]; simpl in *.
  2:{ eexists. split; [done|]. split; [exists []; by rewrite app_nil_r|]. split; [lia|done]. }
  unfold AUTH_TAG_LEN in *.
  destruct (zslice_ok bytes 0 (zlen bytes - 32)) as (frame & Hf & Hlf); [lia..|].
  destruct (zslice_ok bytes (zlen bytes - 32) (zlen bytes)) as (tag & Ht & Hlt); [lia..|].
  rewrite Hf, Ht. cbn [mbind option_bind].
  apply zslice_Some in Hf as (_ & _ & _ & Hf), Ht as (_ & _ & _ & Ht).
  assert (bytes = frame ++ tag) as Hb.
  { rewrite Z.sub_0_r, drop_0 in Hf. rewrite <- (take_drop (Z.to_nat (zlen bytes - 32)) bytes).
    f_equal; [done|]. rewrite Ht. symmetry. apply take_ge. rewrite length_drop.
    unfold zlen in *. lia. }
  unfold verify. case_bool_decide as Hv; eexists; (split; [done|]); [|done].
  split; [eauto|]. split; [lia|]. intros k [= <-]. by rewrite Hv.
Qed.

Lemma decode_inner_total bytes key limits accept :
  Forall byte bytes → 0 ≤ max_cells limits →
  ∃ cells r, decode_inner hmac bytes key limits accept = Some (cells, r) ∧
    Forall cell_typed cells ∧ zlen cells ≤ max_cells limits ∧
    (cells ≠ [] → zlen bytes ≤ max_payload_bytes limits ∧
       ∀ k, key = Some k → ∃ frame, bytes = frame ++ hmac k frame) ∧
    match r with
    | inl s => header_ok (ds_header s) ∧ count_width (ds_header s) = count_size ∧
               zlen bytes = HEADER_LEN + body_len (ds_header s) + auth_overhead key ∧
               zlen cells = (if accept (ds_header s) then ds_cell_count s else 0) ∧
               ∀ k, key = Some k → ∃ frame, bytes = frame ++ hmac k frame
    | inr _ => True
    end.
Proof using CL.
  intros Hf Hmc. unfold decode_inner.
  assert (∀ e : DecodeError, ∃ cells r, Some (@nil WireCell, inr (A := DecodedSummary) e) = Some (cells, r) ∧
    Forall cell_typed cells ∧ zlen cells ≤ max_cells limits ∧
    (cells ≠ [] → zlen bytes ≤ max_payload_bytes limits ∧
       ∀ k, key = Some k → ∃ frame, bytes = frame ++ hmac k frame) ∧
    match r with
    | inl s => header_ok (ds_header s) ∧ count_width (ds_header s) = count_size ∧
               zlen bytes = HEADER_LEN + body_len (ds_header s) + auth_overhead key ∧
               zlen cells = (if accept (ds_header s) then ds_cell_count s else 0) ∧
               ∀ k, key = Some k → ∃ frame, bytes = frame ++ hmac k frame
    | inr _ => True end) as Herr.
  { intros e. eexists _, _. split; [done|]. split; [constructor|]. by change (zlen []) with 0. }
  destruct (_ <? zlen bytes) eqn:E1; [apply Herr|]. bool_solve.
  destruct (zlen bytes <? _) eqn:E2; [apply Herr|]. bool_solve.
  destruct (authenticate_total bytes key) as ([frame|e] & -> & Ha);
    [unfold HEADER_LEN in *; lia| |apply Herr]. cbn [mbind option_bind].
  destruct Ha as ((tail & Hb) & Hlf & Hk).
  assert (Forall byte frame) as Hff by (rewrite Hb in Hf; by apply Forall_app in Hf as [? _]).
  destruct (read_header_total frame Hff) as ([hdr|e] & -> & Hh); [|apply Herr].
  destruct (Hh hdr eq_refl) as [Hok Hlen]. cbn [mbind option_bind].
  destruct (count_width hdr =? count_size) eqn:E3; [|apply Herr]. bool_solve. cbn [negb].
  destruct (max_cells limits <? cell_count hdr) eqn:E4; [apply Herr|]. bool_solve.
  destruct (checked 64 _) as [tot|] eqn:E5; [|apply Herr]. apply checked_Some in E5 as [-> _].
  destruct (_ =? zlen frame) eqn:E6; [|apply Herr]. bool_solve. cbn [negb].
  assert (∀ k, key = Some k → ∃ frame, bytes = frame ++ hmac k frame) as Hk' by eauto.
  destruct (accept hdr) eqn:E7; cbn [negb].
  2:{ eexists _, _. split; [done|]. split; [constructor|]. change (zlen []) with 0. simpl.
      rewrite E7. split_and!; try done; lia. }
  pose proof Hok as (_ & _ & _ & _ & Hcc & Hbl & _). unfold uint in Hcc, Hbl.
  destruct (zslice_ok frame HEADER_LEN (HEADER_LEN + body_len hdr)) as (body & Hbody & _);
    [unfold HEADER_LEN in *; lia|lia|]. rewrite Hbody. cbn [mbind option_bind].
  assert (Forall byte body) as Hfb by (by eapply zslice_byte).
  destruct (decode_body_total body (cell_count hdr) Hfb) as (vs & res & -> & Hty & Hle & Hres);
    [lia|]. cbn [mbind option_bind].
  destruct res as [[]|e]; eexists _, _; (split; [done|]);
    (split; [done|]); (split; [lia|]); (split; [done|]); [|done].
  simpl. rewrite E7. split_and!; try done; lia.
Qed.
End untrusted.
