(* ===== verification/WireTyped.v ===== *)
(** * The wire codec: what it writes is bytes

    Every element of an encoded packet is a value of eight bits.  Like
    [CellTyped] this says nothing about whether encoding returns. *)

From S2P Require Import Prelude Types Hash Index Freelist Dictionary DirtyRing PeerFrontier IO CellStore CellSlots CellInv CellOps CellMerge CellExpire GossipFrame CellTyped Bytes WireHeader WireBody WirePlan WireCodec Wire.

Abbreviation bytes := (Forall byte).

Lemma zcopy_bytes l a xs l' : zcopy l a xs = Some l' → bytes l → bytes xs → bytes l'.
Proof.
  unfold zcopy, splice. intros He Hl Hx. case_match; [|done]. injection He as <-.
  repeat apply Forall_app_2; [by apply Forall_take|done|by apply Forall_drop].
Qed.

Lemma zero_bytes n : bytes (replicate n 0).
Proof. apply Forall_replicate. unfold byte, uint. lia. Qed.

(** One write after another. *)
Ltac bytes_step :=
  first [assumption | apply to_le_bytes_bytes | apply zero_bytes | apply Forall_take
        | eapply zcopy_bytes; [eassumption| |] | eapply zset_Forall; [eassumption| |]].

Lemma patch_header_bytes b hdr b' : patch_header b hdr = Some b' → bytes b → bytes b'.
Proof. unfold patch_header. intros He Hb. peel He. repeat bytes_step. Qed.

(** The plan's slots. *)
Record plan_bytes (st : PlanState) : Prop := {
  lb_rules : bytes (rule_remap (ps_scratch st));
  lb_nodes : bytes (node_remap (ps_scratch st));
  lb_r : byte (ps_r st);
  lb_d : byte (ps_d st);
}.

Lemma checked_byte z z' : checked 8 z = Some z' → byte z'.
Proof. unfold checked. case_match; [|done]. intros [= <-]. unfold byte, uint. lia. Qed.

Lemma intern_rule_slot_bytes st slot fp st' :
  intern_rule_slot st slot fp = Some st' → plan_bytes st → plan_bytes st'.
Proof.
  unfold intern_rule_slot. intros He []. peel He. injection He as <-.
  split; simpl; [by eapply zset_Forall|done|by eapply checked_byte|done].
Qed.

Lemma intern_node_slot_bytes st slot id st' :
  intern_node_slot st slot id = Some st' → plan_bytes st → plan_bytes st'.
Proof.
  unfold intern_node_slot. intros He []. peel He. injection He as <-.
  split; simpl; [done|by eapply zset_Forall|done|by eapply checked_byte].
Qed.

Section write.
Context `{C : Count} (store : CellStore.t) (body_budget count_size : Z).

Lemma plan_step_bytes st h st' :
  plan_step store body_budget count_size st h = Some (Some st') → plan_bytes st → plan_bytes st'.
Proof.
  unfold plan_step. intros He Hb. apply bind_Some in He as (w & _ & He).
  destruct w as [[[row rd] nd]|]; [|injection He as <-; destruct Hb; by split].
  peel He. destruct (_ || _); [done|]. destruct (_ <? _); [done|]. peel He. injection He as <-.
  assert (plan_bytes x1) as Hb1.
  { destruct (_ =? _) in E1; [by eapply intern_rule_slot_bytes|by injection E1 as <-]. }
  assert (plan_bytes x2) as Hb2.
  { destruct (_ =? _) in E2; [by eapply intern_node_slot_bytes|by injection E2 as <-]. }
  destruct Hb2. by split.
Qed.

Lemma plan_loop_bytes rest : ∀ st st',
  plan_loop store body_budget count_size rest st = Some st' → plan_bytes st → plan_bytes st'.
Proof.
  induction rest as [|h rest IH]; intros st st' He Hb; cbn [plan_loop] in He; [by injection He as <-|].
  apply bind_Some in He as ([st1|] & E & He); [|by injection He as <-].
  eapply IH; [exact He|]. by eapply plan_step_bytes.
Qed.

(** What the second pass reads of the plan. *)
Record planned (plan : Plan) (scratch : WireScratch) : Prop := {
  pd_rules : bytes (rule_remap scratch);
  pd_nodes : bytes (node_remap scratch);
  pd_r : byte (p_rule_count plan);
  pd_d : byte (p_node_count plan);
}.

Lemma plan_packet_bytes handles start scratch plan scratch' :
  plan_packet store body_budget count_size handles start (reset scratch) = Some (plan, scratch') →
  planned plan scratch'.
Proof.
  unfold plan_packet. intros He. peel He. injection He as <- <-.
  assert (∀ l : list Z, bytes ((λ _, U8_MAX) <$> l)) as Hr.
  { intros l. apply Forall_fmap, Forall_true. intros z. vm_compute. by split. }
  destruct (plan_loop_bytes _ _ _ E0) as []; [|by split].
  split; simpl; [apply Hr..| |]; unfold byte, uint; lia.
Qed.

Lemma write_dict_bytes fps : ∀ body cursor r,
  write_dict fps body cursor = Some r → bytes body → bytes r.1.
Proof.
  induction fps as [|fp fps IH]; intros body cursor r He Hb; cbn [write_dict] in He; [by injection He as <-|].
  peel He. eapply IH; [exact He|]. repeat bytes_step.
Qed.

Lemma write_cell_bytes scratch base n i row body body' :
  bytes (rule_remap scratch) → bytes (node_remap scratch) →
  write_cell count_size scratch base n i row body = Some body' → bytes body → bytes body'.
Proof.
  unfold write_cell. intros Hr Hn He Hb. peel He.
  pose proof (zget_byte _ _ _ Hr E). pose proof (zget_byte _ _ _ Hn E3).
  repeat bytes_step.
Qed.

Lemma write_cells_bytes scratch base n hs :
  bytes (rule_remap scratch) → bytes (node_remap scratch) → ∀ i body r,
  write_cells store count_size scratch base n i hs body = Some r → bytes body → bytes r.1.
Proof.
  intros Hr Hn. induction hs as [|h hs IH]; intros i body r He Hb; cbn [write_cells] in He; [by injection He as <-|].
  destruct (negb _); [by injection He as <-|].
  apply bind_Some in He as ([[[row rd] nd]|] & _ & He); [|by eapply IH].
  peel He. eapply IH; [exact He|]. by eapply write_cell_bytes.
Qed.

Lemma write_body_bytes handles start plan scratch out out' :
  planned plan scratch → write_body store count_size handles start plan scratch out = Some out' →
  bytes out → bytes out'.
Proof.
  unfold write_body. intros [] He Hout. peel He. injection He as <-. apply Forall_app_2; [done|].
  match goal with E : write_cells _ _ _ _ _ _ _ _ = _ |- _ =>
    eapply (write_cells_bytes _ _ _ _ pd_rules0 pd_nodes0 _ _ _ E) end.
  match goal with E : write_dict _ ?b _ = Some (?b', _) |- bytes ?b' => eapply (write_dict_bytes _ _ _ _ E) end.
  bytes_step; [|done].
  match goal with E : write_dict _ ?b _ = Some (?b', _) |- bytes ?b' => eapply (write_dict_bytes _ _ _ _ E) end.
  repeat bytes_step.
Qed.

Lemma encode_packet_body_bytes handles start scratch out r :
  encode_packet_body store body_budget count_size handles start scratch out = Some r → bytes out → bytes r.2.
Proof.
  unfold encode_packet_body. intros He Hout. peel He. destruct (_ =? _); [by injection He as <-|].
  peel He. injection He as <-. simpl. eapply write_body_bytes; [by eapply plan_packet_bytes|eassumption|done].
Qed.
End write.

(** The tag of the crate's HMAC-SHA-256: 32 bytes. *)
Definition tags_ok (hmac : list Z → list Z → list Z) : Prop :=
  ∀ key payload, zlen (hmac key payload) = AUTH_TAG_LEN ∧ bytes (hmac key payload).

Lemma next_into_bytes {C : Count} hmac store packets buf r :
  tags_ok hmac → next_into hmac store packets buf = Some r → bytes (as_bytes r.1.2).
Proof.
  unfold next_into. intros Ht He. destruct (_ <=? _); [injection He as <-; constructor|].
  peel He. pose proof (encode_packet_body_bytes _ _ _ _ _ _ _ _ E (zero_bytes _)) as Hb. simpl in Hb.
  destruct p as [encoded scratch].
  destruct (_ && _); [by injection He as <-|]. peel He. injection He as <-. unfold as_bytes. simpl.
  assert (bytes x2) as Hh.
  { eapply zcopy_bytes; [eassumption|done|]. eapply patch_header_bytes; [eassumption|]. by eapply zslice_byte. }
  change (pk_key (packets <| pk_scratch := scratch |>)) with (pk_key packets) in E4.
  destruct (pk_key packets) as [key|]; [|by injection E4 as <-].
  peel E4. injection E4 as <-. apply Forall_app_2; [done|]. apply Ht.
Qed.
