(* ===== verification/Exchange.v ===== *)
(** * One gossip exchange, end to end

    A sender composes a frame ([fill_gossip_frame]), cuts it into packets
    ([Packets]) and sends them; a receiver decodes them into one batch and
    merges it ([merge_remote]).  The composition of the three components is the
    join of the two replicas' contents. *)

From S2P Require Import Prelude Types Hash Index Freelist Dictionary DirtyRing PeerFrontier IO CellStore CellSlots CellInv CellOps CellMerge CellExpire GossipFrame StoreSpec Bytes WireHeader WireBody WirePlan WireCodec Wire.

Section frame.
Context {C : Count} {CL : CountLaws C}.

Lemma store_typed_columns self self' V :
  CellStore.last_update_millis self' = CellStore.last_update_millis self →
  CellStore.origin_sequences self' = CellStore.origin_sequences self →
  store_typed self V → store_typed self' V.
Proof. intros Hu Hq []. by split; rewrite ?Hu, ?Hq. Qed.

Lemma scratch_for_store self A Mr Mn pins :
  dicts_inv self A Mr Mn pins → scratch_for self (for_store self).
Proof.
  intros Hd. pose proof (di_cap _ _ _ _ (ti_rules _ _ _ _ _ Hd)).
  pose proof (di_cap _ _ _ _ (ti_nodes _ _ _ _ _ Hd)).
  unfold scratch_for, for_store. cbn [rule_remap node_remap]. rewrite !zlen_replicate. lia.
Qed.

Lemma elem_of_resolves store hs es h e :
  resolves store hs es → h ∈ hs → wire_row store h = Some (Some e) → e ∈ es.
Proof.
  intros (ws & Hm%mapM_Some & ->) Hh Hw. apply list_elem_of_omap.
  exists (Some e). split; [|done]. apply list_elem_of_lookup in Hh as [i Hi].
  destruct (Forall2_lookup_l _ _ _ _ _ Hm Hi) as (w & Hwi & Hw'). simpl in Hw'.
  apply list_elem_of_lookup. exists i. congruence.
Qed.

(** A frame has at most one handle per live cell. *)
Lemma frame_length self A Mr Mn pins V max_cells self' out v :
  inv_at self A Mr Mn pins V → frame_post self A Mr Mn pins V max_cells self' out v →
  zlen out ≤ CellStore.active_len self.
Proof.
  intros Hi Hp. rewrite (si_active _ _ (iv_slots _ _ _ _ _ _ Hi)).
  unfold zlen. rewrite <- (length_fmap h_index out). apply inj_le.
  rewrite <- (size_list_to_set (C := gset Z) _ (fp_nodup _ _ _ _ _ _ _ _ _ _ Hp)).
  apply subseteq_size. intros s Hs%elem_of_list_to_set.
  apply list_elem_of_fmap in Hs as (h & -> & Hh).
  by apply (fp_current _ _ _ _ _ _ _ _ _ _ Hp).
Qed.

(** A frame that is not full carries the whole contents. *)
Lemma frame_snapshot self A Mr Mn pins V max_cells self' out v es :
  inv_at self A Mr Mn pins V → frame_post self A Mr Mn pins V max_cells self' out v →
  zlen out < max_cells → resolves self' out es → Forall (wire_entry V) es →
  snapshot V (wire_obs <$> es).
Proof using CL.
  intros Hi Hp Hlt Hres Hes n c. pose proof (fp_inv _ _ _ _ _ _ _ _ _ _ Hp) as Hi'. split.
  - intros (o & (e & -> & He)%list_elem_of_fmap & <- & <-).
    rewrite Forall_forall in Hes. pose proof (Hes e He) as Hwe.
    rewrite (wire_obs_name V e Hwe). by destruct Hwe as (_ & ? & _).
  - intros Hn. pose proof Hn as (s & k & dr & dn & Hk & Hdr & Hdn & -> & Hc)%(iv_contents _ _ _ _ _ _ Hi').
    assert (s ∈ h_index <$> out) as (h & -> & Hh)%list_elem_of_fmap
      by (eapply frame_complete; [exact Hi|exact Hp|done|by apply elem_of_dom]).
    destruct (fp_current _ _ _ _ _ _ _ _ _ _ Hp h Hh) as [HL Hg].
    pose proof (si_live _ _ (iv_slots _ _ _ _ _ _ Hi') _ HL).
    destruct (wire_row_ok self' A Mr Mn pins V Hi' h) as (w & Hw & Hsome & He); [lia|].
    destruct Hsome as [e ->].
    { rewrite <- (fp_generations _ _ _ _ _ _ _ _ _ _ Hp) in Hg.
      destruct h as [s g]. simpl in *.
      by rewrite (resolve_ok _ _ _ _ (iv_slots _ _ _ _ _ _ Hi') HL Hg). }
    destruct (He e eq_refl) as (HA & _ & HV & _ & Hinc & _ & Hr1 & Hn1).
    unfold e_rule_slot, e_node_slot in *.
    assert (cr_key (e_row e) = k) as Hkey by congruence. rewrite Hkey in *.
    assert (e_rule e = dr) as Hrule by congruence. assert (e_node e = dn) as Hnode by congruence.
    rewrite Hrule, Hnode in HV. assert (cr_count (e_row e) = c) as Hcount by congruence.
    exists (wire_obs e). split; [|split].
    + apply list_elem_of_fmap. exists e. split; [done|]. by eapply elem_of_resolves.
    + unfold remote_name, name_of. simpl. rewrite Hrule, Hnode, Hkey. rewrite Hnode in Hinc.
      by rewrite Hinc.
    + done.
Qed.
End frame.

(** The sender's half: frame, packets, drained. *)
Definition send_all `{C : Count} (hmac : list Z → list Z → list Z) (self : CellStore.t)
    (max_cells : Z) (header : Header) (key : option (list Z)) (limits : FrameLimits) :
    option (CellStore.t * (list (list Z) + EncodeError)) :=
  '(self, handles) ← CellStore.fill_gossip_frame self max_cells;
  match Packets_new header handles key (for_store self) limits with
  | inr e => Some (self, Err e)
  | inl p =>
    '(_, r) ← drain hmac self (S (length handles)) p (PacketBuf_for_limits limits);
    match r with
    | inr e => Some (self, Err e)
    | inl ps => Some (self, Ok ps.*1)
    end
  end.

Section exchange.
Context {C : Count} {CL : CountLaws C} (hmac : list Z → list Z → list Z).
Context (hmac_len : ∀ key payload, zlen (hmac key payload) = AUTH_TAG_LEN).

Lemma send_all_ok self V max header key limits :
  inv self V → store_typed self V → CellStore.active_len self < max ≤ U32_MAX →
  header_ok header →
  min_payload_bytes count_size (auth_overhead key) ≤ max_payload_bytes limits ≤ U32_MAX →
  ∃ self' packets es, send_all hmac self max header key limits = Some (self', Ok packets) ∧
    inv self' V ∧ snapshot V (wire_obs <$> es) ∧ Forall obs_ok (wire_obs <$> es) ∧
    zlen es ≤ CellStore.active_len self ∧
    Forall (λ p, zlen p ≤ max_payload_bytes limits) packets ∧
    ∀ limits' rows, max_payload_bytes limits ≤ max_payload_bytes limits' →
      CellStore.active_len self ≤ max_cells limits' →
      receive hmac key limits' packets (ObservationBatch.of_rows rows) =
        Some (ObservationBatch.of_rows (rows ++ (wire_obs <$> es)), Ok ()).
Proof using CL hmac_len.
  intros (A & Mr & Mn & pins & Hi) Hty Hmax Hhdr Hlim.
  pose proof (si_active _ _ (iv_slots _ _ _ _ _ _ Hi)).
  destruct (fill_gossip_frame_ok self A Mr Mn pins V max Hi) as (self' & out & v & Hf & Hp); [lia|].
  pose proof (frame_length _ _ _ _ _ _ _ _ _ _ Hi Hp) as Hlen.
  pose proof (fp_inv _ _ _ _ _ _ _ _ _ _ Hp) as Hi'.
  assert (inv self' V) as Hinv' by (by exists A, Mr, Mn, pins).
  assert (store_typed self' V) as Hty'.
  { eapply store_typed_columns; [apply Hp..|done]. }
  unfold send_all. rewrite Hf. cbn [mbind option_bind]. unfold Packets_new.
  replace (max_payload_bytes limits <? _) with false by lia.
  match goal with |- context [drain _ _ _ ?q _] => set (p := q) end.
  assert (packets_ok self' p) as Hok.
  { split; simpl; try done; try lia.
    - apply Forall_forall. intros h Hh.
      destruct (fp_current _ _ _ _ _ _ _ _ _ _ Hp h Hh) as [HL _].
      by apply (si_live _ _ (iv_slots _ _ _ _ _ _ Hi')) in HL as [? _].
    - by eapply scratch_for_store, Hi'.
    - pose proof (zlen_nonneg out). lia. }
  destruct (drain_ok hmac hmac_len self' V Hinv' Hty' (S (length out)) p
    (PacketBuf_for_limits limits) Hok) as (p' & ps & parts & -> & _ & Hst & Hcat).
  { simpl. unfold zlen. lia. }
  cbn [mbind option_bind]. change (Z.to_nat (pk_cursor p)) with 0%nat in Hcat. rewrite drop_0 in Hcat. change (pk_handles p) with out in Hcat.
  pose proof (stream_resolves hmac self' V p ps parts Hst) as Hres. rewrite Hcat in Hres.
  pose proof (stream_entries hmac self' V p ps parts Hst) as Hes.
  pose proof (resolves_length _ _ _ Hres) as Hle.
  exists self', ps.*1, (concat parts.*2). split; [done|]. split; [done|].
  split; [eapply frame_snapshot; [exact Hi|exact Hp|lia|done|done]|].
  split; [by eapply wire_obs_ok|]. split; [lia|]. split.
  - apply Forall_fmap. clear -Hst. induction Hst as [|q part ps parts [_ (more & Hq)] _ IH]; constructor;
      [apply Hq|done].
  - intros limits' rows H1 H2. apply (receive_ok hmac self' V p limits' ps parts rows Hst); simpl; lia.
Qed.

(** Receiver: decode every packet into one batch, then merge it. *)
Definition receive_and_merge (key : option (list Z)) (limits : FrameLimits)
    (self : CellStore.t) (packets : list (list Z)) :
    option (CellStore.t * (unit + DecodeError)) :=
  '(obs, r) ← receive hmac key limits packets (ObservationBatch.with_capacity 0);
  match r with
  | inr e => Some (self, Err e)
  | inl _ => '(self, _) ← CellStore.merge_remote self obs (DeltaSink.with_capacity 0);
             Some (self, Ok ())
  end.
End exchange.

(** One full gossip exchange is the join.  When the frame budget exceeds the
    number of live cells and the receiver has room, composing a frame, cutting it
    into packets (signed or not), decoding them and merging leaves the receiver
    with the pointwise maximum of both replicas' counts, and the sender
    unchanged. *)
Theorem gossip_exchange_joins {C : Count} {CL : CountLaws C} hmac
    s1 V1 s2 V2 max header key limits limits' :
  (∀ key payload, zlen (hmac key payload) = AUTH_TAG_LEN) →
  inv s1 V1 → store_typed s1 V1 → inv s2 V2 →
  CellStore.active_len s1 < max ≤ U32_MAX → header_ok header →
  min_payload_bytes count_size (auth_overhead key) ≤ max_payload_bytes limits ≤ U32_MAX →
  max_payload_bytes limits ≤ max_payload_bytes limits' →
  CellStore.active_len s1 ≤ max_cells limits' → room s2 (CellStore.active_len s1) →
  ∃ s1' packets s2',
    send_all hmac s1 max header key limits = Some (s1', Ok packets) ∧
    receive_and_merge hmac key limits' s2 packets = Some (s2', Ok ()) ∧
    inv s2' (join V2 V1) ∧
    (∀ n, read s1' n = read s1 n) ∧ ∀ n, read s2' n = Some (join V2 V1 !! n).
Proof.
  intros Hmac Hi1 Hty Hi2 Hmax Hhdr Hlim Hlim' Hcells Hroom.
  destruct (send_all_ok hmac Hmac s1 V1 max header key limits Hi1 Hty Hmax Hhdr Hlim)
    as (s1' & packets & es & Hs & Hi1' & Hsnap & Hok & Hle & _ & Hrec).
  exists s1', packets. specialize (Hrec limits' [] Hlim' Hcells).
  unfold receive_and_merge. change (ObservationBatch.with_capacity 0) with (ObservationBatch.of_rows []).
  rewrite Hrec. cbn [mbind option_bind app].
  destruct (merge_remote_ok s2 V2 (wire_obs <$> es) [] Hi2 Hok)
    as (s2' & ds & acc & Hm & _ & Hi2' & _ & Hall & _).
  change (DeltaSink.with_capacity 0) with (DeltaSink.of_rows []). rewrite Hm. cbn [mbind option_bind].
  rewrite Hall in Hi2' by (rewrite zlen_fmap; unfold room in *; lia).
  rewrite (merge_all_snapshot V2 V1) in Hi2'; [|intros n c Hn; eapply inv_counts; [|exact Hn]..|done];
    [|exact Hi2|exact Hi1].
  exists s2'. split; [done|]. split; [done|]. split; [done|]. split.
  - intros n. by rewrite (read_ok _ _ n Hi1'), (read_ok _ _ n Hi1).
  - intros n. by apply read_ok.
Qed.

(** ** A store with two cells *)
Definition sample_rows : list Observation := [sample_obs 1 9 4; sample_obs 2 9 2].
Definition sample_two : option CellStore.t :=
  self ← CellStore.new sample_config sample_id;
  '(self, _) ← @CellStore.merge_remote Count_u16 self (ObservationBatch.of_rows sample_rows)
                 (DeltaSink.of_rows []);
  Some self.
Definition sample_hmac (key payload : list Z) : list Z :=
  to_le_bytes 32 (foldr (λ b acc, 31 * acc + b) 7 (key ++ payload)).
Definition sample_limits : FrameLimits := {| max_payload_bytes := 300; max_cells := 8 |}.

Lemma sample_hmac_len key payload : zlen (sample_hmac key payload) = AUTH_TAG_LEN.
Proof. unfold sample_hmac. by rewrite zlen_to_le_bytes. Qed.

Lemma sample_two_ok :
  ∃ self, sample_two = Some self ∧ @inv Count_u16 self (@merge_all Count_u16 ∅ sample_rows) ∧
    store_typed self (@merge_all Count_u16 ∅ sample_rows) ∧ CellStore.active_len self = 2.
Proof.
  destruct sample_store as (self0 & Hn & Hi & Hr & _).
  destruct (merge_remote_ok self0 ∅ sample_rows [] Hi)
    as (self & ds & acc & Hm & _ & Hi' & _ & Hacc & _);
    [repeat constructor; simpl; unfold U16_MAX; lia|].
  rewrite Hacc in Hi' by exact Hr. clear Hi Hr Hacc.
  assert (sample_two = Some self) as Hs.
  { unfold sample_two. rewrite Hn. cbn [mbind option_bind]. rewrite Hm. done. }
  exists self. split; [done|]. split; [done|]. vm_compute in Hs. injection Hs as <-. split; [|done].
  split.
  - intros n c. unfold merge_all, sample_rows, merge_one, raise. cbn [foldl].
    intros [[<- _]|[_ [[<- _]|[_ Hl]]%lookup_insert_Some]]%lookup_insert_Some.
    all: try (unfold name_typed, uint; simpl; lia).
    by rewrite lookup_empty in Hl.
  - cbn [CellStore.last_update_millis]. repeat (constructor; [unfold uint; lia|]). constructor.
  - cbn [CellStore.origin_sequences]. repeat (constructor; [unfold uint; lia|]). constructor.
Qed.

Lemma gossip_exchange_joins_witness :
  ∃ s1 s2 s1' packets s2', sample_two = Some s1 ∧ CellStore.new sample_config sample_id = Some s2 ∧
    @send_all Count_u16 sample_hmac s1 3 sample_header (Some [1; 2]) sample_limits
      = Some (s1', Ok packets) ∧
    @receive_and_merge Count_u16 sample_hmac (Some [1; 2]) sample_limits s2 packets
      = Some (s2', Ok ()) ∧
    read s2' (remote_name (sample_obs 1 9 4)) = Some (Some 4).
Proof.
  destruct sample_two_ok as (s1 & Hs1 & Hi1 & Hty & Hlen).
  destruct sample_store as (s2 & Hs2 & Hi2 & Hr & _).
  destruct (gossip_exchange_joins sample_hmac s1 _ s2 ∅ 3 sample_header (Some [1; 2])
    sample_limits sample_limits sample_hmac_len Hi1 Hty Hi2)
    as (s1' & packets & s2' & H1 & H2 & _ & _ & H3).
  - rewrite Hlen. unfold U32_MAX. lia.
  - unfold header_ok, uint. simpl. lia.
  - vm_compute. split; discriminate.
  - simpl. lia.
  - rewrite Hlen. simpl. lia.
  - rewrite Hlen. exact Hr.
  - exists s1, s2, s1', packets, s2'. split; [exact Hs1|]. split; [exact Hs2|].
    split; [exact H1|]. split; [exact H2|]. rewrite H3. vm_compute. reflexivity.
Defined.

(** C15: the packet stream is lossless.  Draining the iterator terminates without
    an error and leaves no handle behind; every packet fits the payload limit and
    consumes at least one handle; and a receiver that decodes the packets (with
    limits that admit them, and the key they were signed with) obtains exactly
    the cells the handles resolve to, once each and in order. *)
Theorem packet_stream_roundtrip {C : Count} {CL : CountLaws C} hmac store V self buf :
  (∀ key payload, zlen (hmac key payload) = AUTH_TAG_LEN) →
  inv store V → store_typed store V → packets_ok store self →
  ∃ self' ps es,
    drain hmac store (S (length (pk_handles self))) self buf = Some (self', Ok ps) ∧
    remaining self' = Some 0 ∧
    resolves store (drop (Z.to_nat (pk_cursor self)) (pk_handles self)) es ∧
    zlen ps ≤ zlen (pk_handles self) - pk_cursor self ∧
    Forall (λ p, zlen p.1 ≤ max_payload_bytes (pk_limits self)) ps ∧
    ∀ limits rows, max_payload_bytes (pk_limits self) ≤ max_payload_bytes limits →
      zlen es ≤ max_cells limits →
      receive hmac (pk_key self) limits ps.*1 (ObservationBatch.of_rows rows) =
        Some (ObservationBatch.of_rows (rows ++ (wire_obs <$> es)), Ok ()).
Proof.
  intros Hmac Hinv Hty Hok. pose proof (po_cursor _ _ Hok) as Hcur.
  destruct (drain_ok hmac Hmac store V Hinv Hty (S (length (pk_handles self))) self buf Hok)
    as (self' & ps & parts & Hd & Hrem & Hst & Hcat); [unfold zlen; lia|].
  exists self', ps, (concat parts.*2). split; [done|]. split; [done|].
  split; [rewrite <- Hcat; by eapply stream_resolves|]. split; [|split].
  - assert (zlen (concat parts.*1) = zlen (pk_handles self) - pk_cursor self) as <-.
    { rewrite Hcat. unfold zlen in *. rewrite length_drop. lia. }
    clear -Hst. induction Hst as [|p [hs es] ps parts [Hne _] _ IH]; [done|].
    change (concat ((hs, es) :: parts).*1) with (hs ++ concat parts.*1). rewrite zlen_app.
    simpl in Hne. assert (0 < zlen hs) by (destruct hs; [done|unfold zlen; simpl; lia]).
    assert (zlen (p :: ps) = zlen ps + 1) as -> by (unfold zlen; simpl; lia). lia.
  - clear -Hst. induction Hst as [|q part ps parts [_ (more & Hq)] _ IH]; constructor; [apply Hq|done].
  - intros limits rows H1 H2. by apply (receive_ok hmac store V self limits ps parts rows Hst).
Qed.

Definition sample_packets (s : CellStore.t) : Packets := {|
  pk_header := sample_header;
  pk_handles := [{| h_index := 0; h_generation := 1 |}; {| h_index := 3; h_generation := 9 |};
                 {| h_index := 1; h_generation := 1 |}];
  pk_key := None; pk_scratch := for_store s; pk_limits := sample_limits; pk_cursor := 0 |}.

Lemma sample_packets_ok s1 :
  sample_two = Some s1 → @packets_ok Count_u16 s1 (sample_packets s1).
Proof.
  intros Hs. destruct sample_two_ok as (s & Hs' & Hi & _). rewrite Hs in Hs'. injection Hs' as <-.
  split; cbn [sample_packets pk_handles pk_scratch pk_header pk_key pk_limits pk_cursor].
  - repeat (constructor; [cbn; lia|]). constructor.
  - vm_compute. discriminate.
  - destruct Hi as (A & Mr & Mn & pins & Hi). eapply scratch_for_store, Hi.
  - unfold header_ok, uint. cbn. lia.
  - vm_compute. discriminate.
  - vm_compute. discriminate.
  - vm_compute. split; discriminate.
Qed.

Lemma packet_stream_roundtrip_witness :
  ∃ s1 self' ps es, sample_two = Some s1 ∧
    @drain Count_u16 sample_hmac s1 4 (sample_packets s1) (PacketBuf_for_limits sample_limits)
      = Some (self', Ok ps) ∧ remaining self' = Some 0 ∧
    resolves s1 (pk_handles (sample_packets s1)) es.
Proof.
  destruct sample_two_ok as (s1 & Hs1 & Hi1 & Hty & Hlen).
  destruct (packet_stream_roundtrip sample_hmac s1 _ (sample_packets s1)
    (PacketBuf_for_limits sample_limits) sample_hmac_len Hi1 Hty (sample_packets_ok s1 Hs1))
    as (self' & ps & es & H1 & H2 & H3 & _).
  exists s1, self', ps, es. split; [exact Hs1|]. split; [exact H1|]. split; [exact H2|exact H3].
Defined.

(** [lo] and [hi] are the least and the greatest origin sequence of [cells]. *)
Definition sequence_range (lo hi : Z) (cells : list WireCell) : Prop :=
  match cells with
  | [] => lo = 0 ∧ hi = 0
  | _ => (∀ c, c ∈ cells → lo ≤ wc_origin_sequence c ≤ hi) ∧
         (∃ c, c ∈ cells ∧ wc_origin_sequence c = lo) ∧ (∃ c, c ∈ cells ∧ wc_origin_sequence c = hi)
  end.

Lemma min_seq_spec es : Forall (λ e, 0 ≤ cr_origin_sequence (e_row e) ≤ U64_MAX) es →
  (∀ e, e ∈ es → min_seq es ≤ cr_origin_sequence (e_row e)) ∧ min_seq es ≤ U64_MAX ∧
  (es ≠ [] → ∃ e, e ∈ es ∧ cr_origin_sequence (e_row e) = min_seq es).
Proof.
  induction es as [|e es IH] using rev_ind; intros Hb; [split; [by intros e ?%elem_of_nil|by split]|].
  apply Forall_app in Hb as [Hb He]. apply Forall_cons in He as [He _]. destruct (IH Hb) as (H1 & H2 & H3).
  unfold min_seq in *. rewrite foldl_app. cbn [foldl]. set (m := foldl _ U64_MAX es) in *.
  setoid_rewrite elem_of_app. setoid_rewrite list_elem_of_singleton. split; [|split; [lia|]].
  - intros e' [He'| ->]; [specialize (H1 e' He')|]; lia.
  - intros _. destruct (decide (cr_origin_sequence (e_row e) ≤ m)); [exists e; split; [by right|lia]|].
    destruct es as [|e0 es]; [change m with U64_MAX in *; lia|]. destruct H3 as (e' & ? & ?); [done|]. exists e'. split; [by left|lia].
Qed.

Lemma max_seq_spec es : Forall (λ e, 0 ≤ cr_origin_sequence (e_row e) ≤ U64_MAX) es →
  (∀ e, e ∈ es → cr_origin_sequence (e_row e) ≤ max_seq es) ∧ 0 ≤ max_seq es ∧
  (es ≠ [] → ∃ e, e ∈ es ∧ cr_origin_sequence (e_row e) = max_seq es).
Proof.
  induction es as [|e es IH] using rev_ind; intros Hb; [split; [by intros e ?%elem_of_nil|by split]|].
  apply Forall_app in Hb as [Hb He]. apply Forall_cons in He as [He _]. destruct (IH Hb) as (H1 & H2 & H3).
  unfold max_seq in *. rewrite foldl_app. cbn [foldl]. set (m := foldl _ 0 es) in *.
  setoid_rewrite elem_of_app. setoid_rewrite list_elem_of_singleton. split; [|split; [lia|]].
  - intros e' [He'| ->]; [specialize (H1 e' He')|]; lia.
  - intros _. destruct (decide (m ≤ cr_origin_sequence (e_row e))); [exists e; split; [by right|lia]|].
    destruct es as [|e0 es]; [change m with 0 in *; lia|]. destruct H3 as (e' & ? & ?); [done|]. exists e'. split; [by left|lia].
Qed.

Lemma seq_range_ok es : Forall (λ e, 0 ≤ cr_origin_sequence (e_row e) ≤ U64_MAX) es →
  sequence_range (if zlen es =? 0 then 0 else min_seq es) (max_seq es) (wire_cell_of <$> es).
Proof.
  intros Hb. destruct es as [|e es]; [done|]. destruct (min_seq_spec _ Hb) as (H1 & _ & H2).
  destruct (max_seq_spec _ Hb) as (H3 & _ & H4).
  change (zlen (e :: es) =? 0) with false. cbv iota. set (l := e :: es) in *.
  change (wire_cell_of <$> l) with (wire_cell_of e :: (wire_cell_of <$> es)). cbn [sequence_range].
  change (wire_cell_of e :: (wire_cell_of <$> es)) with (wire_cell_of <$> l). setoid_rewrite list_elem_of_fmap.
  split; [|split].
  - intros c (e' & -> & He'). cbn. auto.
  - destruct H2 as (e' & ? & ?); [done|]. exists (wire_cell_of e'). split; [by exists e'|done].
  - destruct H4 as (e' & ? & ?); [done|]. exists (wire_cell_of e'). split; [by exists e'|done].
Qed.

(** C28: one call of [next_into] makes progress and describes its packet truthfully:
    the counts returned are those of the consumed handles, the header carries the
    sender's identity and the least and greatest origin sequence of the packet's
    cells, and the MORE flag is set exactly when handles remain. *)
Theorem next_into_progress {C : Count} {CL : CountLaws C} hmac store V self buf :
  (∀ key payload, zlen (hmac key payload) = AUTH_TAG_LEN) →
  inv store V → store_typed store V → packets_ok store self →
  pk_cursor self < zlen (pk_handles self) →
  ∃ self' buf' pw hdr cells,
    next_into hmac store self buf = Some (self', buf', Ok (Some pw)) ∧
    packets_ok store self' ∧ pk_cursor self < pk_cursor self' ∧
    pw_cells_emitted pw + pw_cells_dropped pw = pk_cursor self' - pk_cursor self ∧
    pw_cells_emitted pw = zlen cells ∧ same_sender hdr (pk_header self) ∧
    sequence_range (min_origin_sequence hdr) (max_origin_sequence hdr) cells ∧
    Z.testbit (pw_flags pw) 0 = (pk_cursor self' <? zlen (pk_handles self)) ∧
    ∀ limits, zlen (as_bytes buf') ≤ max_payload_bytes limits → zlen cells ≤ max_cells limits →
      decode_inner hmac (as_bytes buf') (pk_key self) limits (λ _, true) =
        Some (cells, Ok {| ds_header := hdr; ds_cell_count := zlen cells; ds_flags := pw_flags pw |}).
Proof.
  intros Hmac Hinv Hty Hok Hlt.
  destruct (next_into_ok hmac Hmac store V Hinv Hty self buf Hok Hlt)
    as (sc & buf' & pw & hs & es & rest & Hn & Hok' & Hhs & Hdrop & [Hres Hent Hem Hdr _ Hdec]).
  destruct Hdec as (hdr & Hss & Hfl & Hmore & Hmin & Hmax & Hdec).
  exists (self <| pk_scratch := sc |> <| pk_cursor := pk_cursor self + zlen hs |>), buf', pw, hdr,
    (wire_cell_of <$> es).
  assert (0 < zlen hs) by (destruct hs; [done|unfold zlen; simpl; lia]).
  rewrite zlen_fmap. split; [done|]. split; [done|]. split; [simpl; lia|]. split; [simpl; lia|].
  split; [done|]. split; [done|]. split.
  { rewrite Hmin, Hmax. apply seq_range_ok. eapply Forall_impl; [exact Hent|].
    intros e [(_ & _ & _ & _ & _ & _ & _ & Hq) _]. unfold uint, U64_MAX in *. lia. }
  split.
  - rewrite <- Hfl, Hmore. simpl.
    assert (zlen (pk_handles self) - pk_cursor self = zlen hs + zlen rest) as Hl.
    { rewrite <- zlen_app, <- Hdrop. pose proof (po_cursor _ _ Hok). unfold zlen in *.
      rewrite length_drop. lia. }
    case_bool_decide as Hr; simpl.
    + subst rest. change (zlen []) with 0 in Hl. lia.
    + assert (0 < zlen rest) by (destruct rest; [done|unfold zlen; simpl; lia]). lia.
  - intros limits H1 H2. by rewrite (Hdec limits (λ _, true) H1 H2).
Qed.

Lemma next_into_progress_witness :
  ∃ s1 self' buf' pw, sample_two = Some s1 ∧
    @next_into Count_u16 sample_hmac s1 (sample_packets s1) (PacketBuf_for_limits sample_limits)
      = Some (self', buf', Ok (Some pw)) ∧ 0 < pk_cursor self'.
Proof.
  destruct sample_two_ok as (s1 & Hs1 & Hi1 & Hty & _).
  destruct (next_into_progress sample_hmac s1 _ (sample_packets s1)
    (PacketBuf_for_limits sample_limits) sample_hmac_len Hi1 Hty (sample_packets_ok s1 Hs1))
    as (self' & buf' & pw & hdr & cells & H1 & _ & H2 & _); [vm_compute; reflexivity|].
  exists s1, self', buf', pw. split; [exact Hs1|]. split; [exact H1|exact H2].
Defined.

(** C27: decoding untrusted bytes is total and safe.  Whatever the bytes, the key and
    the limits, the decoder neither panics nor reads out of bounds; it hands out
    at most [max_cells] cells, each with fields in range; on success the frame
    length, the count width and the number of cells agree with the header. *)
Theorem decode_untrusted_total {C : Count} {CL : CountLaws C} hmac bytes key limits accept :
  Forall byte bytes → 0 ≤ max_cells limits →
  ∃ cells r, decode_inner hmac bytes key limits accept = Some (cells, r) ∧
    Forall cell_typed cells ∧ zlen cells ≤ max_cells limits ∧
    match r with
    | inl s => header_ok (ds_header s) ∧ count_width (ds_header s) = count_size ∧
               zlen bytes = HEADER_LEN + body_len (ds_header s) + auth_overhead key ∧
               zlen cells = (if accept (ds_header s) then ds_cell_count s else 0)
    | inr _ => True
    end.
Proof.
  intros Hb Hm. destruct (decode_inner_total hmac bytes key limits accept Hb Hm)
    as (cells & r & H1 & H2 & H3 & _ & H4).
  exists cells, r. split; [done|]. split; [done|]. split; [done|]. destruct r; [tauto|done].
Qed.

Lemma decode_untrusted_total_witness :
  ∃ cells r, @decode_inner Count_u16 sample_hmac (replicate 100 255) None sample_limits (λ _, true)
    = Some (cells, r) ∧ zlen cells ≤ 8.
Proof.
  destruct (@decode_untrusted_total Count_u16 _ sample_hmac (replicate 100 255) None sample_limits
    (λ _, true)) as (cells & r & H1 & _ & H2 & _).
  - apply Forall_replicate. unfold byte. lia.
  - simpl. lia.
  - exists cells, r. split; [exact H1|exact H2].
Defined.

(** With a key configured, a frame whose trailing 32 bytes are not the HMAC of
    what precedes them yields no cell and no success. *)
Theorem forged_frames_rejected {C : Count} {CL : CountLaws C} hmac bytes key limits accept :
  Forall byte bytes → 0 ≤ max_cells limits → (∀ frame, bytes ≠ frame ++ hmac key frame) →
  ∃ e, decode_inner hmac bytes (Some key) limits accept = Some ([], Err e).
Proof.
  intros Hb Hm Hforged.
  destruct (decode_inner_total hmac bytes (Some key) limits accept Hb Hm)
    as (cells & r & H1 & _ & _ & H2 & H3).
  destruct r as [s|e].
  - destruct H3 as (_ & _ & _ & _ & H3). destruct (H3 key eq_refl) as [frame Hf]. by destruct (Hforged frame).
  - exists e. destruct cells as [|c cells]; [done|].
    destruct H2 as [_ H2]; [done|]. destruct (H2 key eq_refl) as [frame Hf]. by destruct (Hforged frame).
Qed.

Lemma forged_frames_rejected_witness :
  ∃ e, @decode_inner Count_u16 (λ _ _, replicate 32 1) (replicate 120 0) (Some [5]) sample_limits
    (λ _, true) = Some ([], Err e).
Proof.
  apply forged_frames_rejected.
  - apply Forall_replicate. unfold byte. lia.
  - simpl. lia.
  - intros frame Hf. apply (f_equal last) in Hf. rewrite last_app in Hf. discriminate Hf.
Defined.

(** The encoder does not consult [max_cells]: with a limit of one cell it emits a
    packet of two, which a decoder with the very same limits refuses. *)
Theorem encoder_ignores_max_cells :
  let limits := {| max_payload_bytes := 300; max_cells := 1 |} in
  (s ← sample_two;
   let handles := [{| h_index := 0; h_generation := 1 |}; {| h_index := 1; h_generation := 1 |}] in
   match unauth (C := Count_u16) sample_header handles (for_store s) limits with
   | inr _ => None
   | inl p =>
     '(_, buf, r) ← @next_into Count_u16 sample_hmac s p (PacketBuf_for_limits limits);
     '(cells, d) ← @decode_inner Count_u16 sample_hmac (as_bytes buf) None limits (λ _, true);
     Some (r, cells, d)
   end) =
  Some (Ok (Some {| pw_cells_emitted := 2; pw_cells_dropped := 0; pw_flags := 0 |}),
        [], Err CapacityExceeded).
Proof. vm_compute. reflexivity. Qed.
