(* ===== verification/Str.v ===== *)
(** * Strings

    What the source uses of Rust's [str]: a string is the list of its Unicode
    scalar values, [as_bytes] is its UTF-8 encoding, and [trim], [split_once]
    and [u64::from_str] are the standard library's. *)

From stdpp Require Import strings.
From S2P Require Import Prelude Bytes.

Abbreviation str := (list Z) (only parsing).

(** A string literal. *)
Definition lit (s : string) : str := (λ a, Z.of_N (Ascii.N_of_ascii a)) <$> String.list_ascii_of_string s.

Definition scalar (c : Z) : Prop := 0 ≤ c < 1114112.
Definition str_ok (s : str) : Prop := Forall scalar s.

(** ** UTF-8 *)
Definition utf8_char (c : Z) : list Z :=
  if c <? 128 then [c]
  else if c <? 2048 then [192 + c / 64; 128 + c mod 64]
  else if c <? 65536 then [224 + c / 4096; 128 + c / 64 mod 64; 128 + c mod 64]
  else [240 + c / 262144; 128 + c / 4096 mod 64; 128 + c / 64 mod 64; 128 + c mod 64].
Definition str_bytes (s : str) : list Z := s ≫= utf8_char.

(** The inverse, one character at a time. *)
Definition utf8_head (bs : list Z) : option (Z * list Z) :=
  match bs with
  | b :: bs =>
    if b <? 128 then Some (b, bs)
    else if b <? 224 then
      match bs with b1 :: bs => Some ((b - 192) * 64 + (b1 - 128), bs) | _ => None end
    else if b <? 240 then
      match bs with
      | b1 :: b2 :: bs => Some ((b - 224) * 4096 + (b1 - 128) * 64 + (b2 - 128), bs)
      | _ => None
      end
    else
      match bs with
      | b1 :: b2 :: b3 :: bs =>
        Some ((b - 240) * 262144 + (b1 - 128) * 4096 + (b2 - 128) * 64 + (b3 - 128), bs)
      | _ => None
      end
  | [] => None
  end.

Lemma utf8_head_char c bs : scalar c → utf8_head (utf8_char c ++ bs) = Some (c, bs).
Proof.
  unfold scalar, utf8_char. intros Hc.
  pose proof (Z.div_mod c 64 ltac:(lia)). pose proof (Z.mod_pos_bound c 64 ltac:(lia)).
  pose proof (Z.div_mod (c / 64) 64 ltac:(lia)) as Hd1. pose proof (Z.mod_pos_bound (c / 64) 64 ltac:(lia)).
  pose proof (Z.div_mod (c / 4096) 64 ltac:(lia)) as Hd2. pose proof (Z.mod_pos_bound (c / 4096) 64 ltac:(lia)).
  rewrite Z.div_div in Hd1 by lia. rewrite Z.div_div in Hd2 by lia.
  change (64 * 64) with 4096 in Hd1. change (4096 * 64) with 262144 in Hd2.
  destruct (c <? 128) eqn:E1; [simpl; by rewrite E1|].
  destruct (c <? 2048) eqn:E2; bool_solve.
  { cbn [app utf8_head]. replace (192 + c / 64 <? 128) with false by lia.
    replace (192 + c / 64 <? 224) with true by lia. f_equal. f_equal. lia. }
  destruct (c <? 65536) eqn:E3; bool_solve.
  { cbn [app utf8_head]. replace (224 + c / 4096 <? 128) with false by lia.
    replace (224 + c / 4096 <? 224) with false by lia.
    replace (224 + c / 4096 <? 240) with true by lia. f_equal. f_equal. lia. }
  cbn [app utf8_head]. replace (240 + c / 262144 <? 128) with false by lia.
  replace (240 + c / 262144 <? 224) with false by lia.
  replace (240 + c / 262144 <? 240) with false by lia. f_equal. f_equal. lia.
Qed.

Lemma str_bytes_inj s s' : str_ok s → str_ok s' → str_bytes s = str_bytes s' → s = s'.
Proof.
  intros Hs. revert s'. induction Hs as [|c s Hc Hs IH]; intros s' Hs' Heq.
  - destruct Hs' as [|c' s' Hc' _]; [done|]. pose proof (utf8_head_char c' (str_bytes s') Hc') as H.
    change (utf8_head (str_bytes (c' :: s')) = Some (c', str_bytes s')) in H. by rewrite <- Heq in H.
  - pose proof (utf8_head_char c (str_bytes s) Hc) as H.
    change (utf8_head (str_bytes (c :: s)) = Some (c, str_bytes s)) in H. rewrite Heq in H.
    destruct Hs' as [|c' s' Hc' Hs']; [done|].
    pose proof (utf8_head_char c' (str_bytes s') Hc') as H'.
    change (utf8_head (str_bytes (c' :: s')) = Some (c', str_bytes s')) in H'.
    rewrite H in H'. injection H' as -> Hb. f_equal. by apply IH.
Qed.

(** UTF-8 uses neither the terminator byte [0xff], nor [0] for a character
    other than NUL. *)
Lemma utf8_char_bytes c b : scalar c → b ∈ utf8_char c → 0 ≤ b < 248 ∧ (b = 0 → c = 0).
Proof.
  unfold scalar, utf8_char. intros Hc.
  pose proof (Z.mod_pos_bound c 64 ltac:(lia)). pose proof (Z.mod_pos_bound (c / 64) 64 ltac:(lia)).
  pose proof (Z.mod_pos_bound (c / 4096) 64 ltac:(lia)).
  assert (c / 64 < 32 ∨ 2048 ≤ c) by (destruct (decide (2048 ≤ c)); [by right|left; apply Z.div_lt_upper_bound; lia]).
  assert (c / 4096 < 16 ∨ 65536 ≤ c) by (destruct (decide (65536 ≤ c)); [by right|left; apply Z.div_lt_upper_bound; lia]).
  assert (c / 262144 < 8) by (apply Z.div_lt_upper_bound; lia).
  assert (0 ≤ c / 64 ∧ 0 ≤ c / 4096 ∧ 0 ≤ c / 262144) by (split_and!; apply Z.div_pos; lia).
  repeat (case_match; bool_solve); rewrite ?elem_of_cons, ?elem_of_nil; lia.
Qed.

Lemma str_bytes_no_ff s : str_ok s → 255 ∉ str_bytes s.
Proof.
  intros Hs (c & Hb & Hc)%list_elem_of_bind. unfold str_ok in Hs. rewrite Forall_forall in Hs.
  destruct (utf8_char_bytes c 255 (Hs c Hc) Hb). lia.
Qed.

Lemma str_bytes_no_nul s : str_ok s → 0 ∉ s → 0 ∉ str_bytes s.
Proof.
  intros Hs Hn (c & Hb & Hc)%list_elem_of_bind. unfold str_ok in Hs. rewrite Forall_forall in Hs.
  destruct (utf8_char_bytes c 0 (Hs c Hc) Hb) as [_ H]. rewrite H in Hc by done. done.
Qed.

(** ** [trim], [split_once] *)
Definition is_whitespace (c : Z) : bool :=
  bool_decide (c ∈ [9; 10; 11; 12; 13; 32; 133; 160; 5760; 8232; 8233; 8239; 8287; 12288]) ||
  (8192 <=? c) && (c <=? 8202).
Fixpoint trim_start (s : str) : str :=
  match s with
  | c :: s' => if is_whitespace c then trim_start s' else s
  | [] => []
  end.
Definition trim (s : str) : str := rev (trim_start (rev (trim_start s))).

Fixpoint strip_prefix (pat s : str) : option str :=
  match pat, s with
  | [], _ => Some s
  | p :: pat, c :: s => if p =? c then strip_prefix pat s else None
  | _ :: _, [] => None
  end.
(** The text before and after the first occurrence of [pat]. *)
Fixpoint split_once (pat s : str) : option (str * str) :=
  match strip_prefix pat s with
  | Some rest => Some ([], rest)
  | None =>
    match s with
    | [] => None
    | c :: s => match split_once pat s with Some (l, r) => Some (c :: l, r) | None => None end
    end
  end.

(** ** [u64::from_str] *)
Definition digit_of (c : Z) : option Z := if (48 <=? c) && (c <=? 57) then Some (c - 48) else None.
Fixpoint parse_digits (acc : Z) (s : str) : option Z :=
  match s with
  | [] => Some acc
  | c :: s =>
    d ← digit_of c;
    acc ← checked 64 (acc * 10);
    acc ← checked 64 (acc + d);
    parse_digits acc s
  end.
(** A leading [+] is allowed in front of at least one digit; [None] is the
    parse error. *)
Definition parse_u64 (s : str) : option Z :=
  match s with
  | [] => None
  | [c] => digit_of c
  | c :: s' => if c =? 43 then parse_digits 0 s' else parse_digits 0 s
  end.

Lemma digit_of_range c d : digit_of c = Some d → 0 ≤ d < 10.
Proof. unfold digit_of. destruct (_ && _) eqn:E; [|done]. intros [= <-]. lia. Qed.

Lemma parse_digits_range acc s v : 0 ≤ acc ≤ U64_MAX → parse_digits acc s = Some v → 0 ≤ v ≤ U64_MAX.
Proof.
  revert acc. induction s as [|c s IH]; intros acc Ha; simpl; [by intros [= <-]|].
  destruct (digit_of c) as [d|]; simpl; [|done].
  destruct (checked 64 (acc * 10)) as [a|]; simpl; [|done].
  destruct (checked 64 (a + d)) as [a'|] eqn:E; simpl; [|done]. apply IH.
  apply checked_Some in E as [-> E]. unfold U64_MAX. lia.
Qed.

Lemma parse_u64_range s v : parse_u64 s = Some v → 0 ≤ v ≤ U64_MAX.
Proof.
  destruct s as [|c [|c' s]]; unfold parse_u64; [done|..].
  - intros H%digit_of_range. unfold U64_MAX. lia.
  - destruct (c =? 43); apply parse_digits_range; unfold U64_MAX; lia.
Qed.

(** Decimal notation. *)
Fixpoint digits (fuel : nat) (n : Z) : str :=
  match fuel with
  | O => []
  | S fuel => if n <? 10 then [48 + n] else digits fuel (n / 10) ++ [48 + n mod 10]
  end.
Definition decimal (n : Z) : str := digits 20 n.

Lemma digit_of_ok d : 0 ≤ d < 10 → digit_of (48 + d) = Some d.
Proof.
  intros Hd. unfold digit_of. replace ((48 <=? 48 + d) && (48 + d <=? 57)) with true by lia.
  f_equal. lia.
Qed.

Lemma parse_digits_app acc s t v :
  parse_digits acc s = Some v → parse_digits acc (s ++ t) = parse_digits v t.
Proof.
  revert acc. induction s as [|c s IH]; intros acc; simpl; [by intros [= ->]|].
  destruct (digit_of c) as [d|]; simpl; [|done].
  destruct (checked 64 (acc * 10)) as [a|]; simpl; [|done].
  destruct (checked 64 (a + d)) as [a'|]; simpl; [|done]. apply IH.
Qed.

Lemma parse_digits_ok fuel n :
  0 ≤ n < 10 ^ Z.of_nat fuel → n ≤ U64_MAX → parse_digits 0 (digits fuel n) = Some n.
Proof.
  revert n. induction fuel as [|fuel IH]; intros n Hn Hmax; simpl.
  { simpl in Hn. f_equal. lia. }
  destruct (n <? 10) eqn:E; bool_solve.
  - cbn [parse_digits]. rewrite digit_of_ok by lia. cbn. unfold U64_MAX in *.
    rewrite (checked_ok 64 (0 * 10)) by lia. cbn [mbind option_bind].
    rewrite (checked_ok 64 _) by lia. cbn [mbind option_bind]. done.
  - rewrite Nat2Z.inj_succ, Z.pow_succ_r in Hn by lia.
    pose proof (Z.div_mod n 10 ltac:(lia)). pose proof (Z.mod_pos_bound n 10 ltac:(lia)).
    assert (0 ≤ n / 10 < 10 ^ Z.of_nat fuel).
    { split; [apply Z.div_pos; lia|apply Z.div_lt_upper_bound; lia]. }
    rewrite (parse_digits_app 0 _ _ (n / 10)) by (apply IH; lia).
    cbn [parse_digits]. rewrite digit_of_ok by lia. cbn [mbind option_bind].
    unfold U64_MAX in *. rewrite checked_ok by lia. cbn [mbind option_bind].
    rewrite checked_ok by lia. cbn [mbind option_bind]. f_equal. lia.
Qed.

Lemma digits_chars fuel n : 0 ≤ n → Forall (λ c, 48 ≤ c ≤ 57) (digits fuel n).
Proof.
  revert n. induction fuel as [|fuel IH]; intros n Hn; simpl; [constructor|].
  pose proof (Z.mod_pos_bound n 10 ltac:(lia)).
  destruct (n <? 10) eqn:E; bool_solve.
  - repeat constructor; lia.
  - apply Forall_app. split; [apply IH, Z.div_pos; lia|]. repeat constructor; lia.
Qed.

Lemma parse_decimal n : 0 ≤ n ≤ U64_MAX → parse_u64 (decimal n) = Some n.
Proof.
  intros Hn. unfold decimal. pose proof (digits_chars 20 n ltac:(lia)) as Hd.
  assert (parse_digits 0 (digits 20 n) = Some n) as Hp
    by (apply parse_digits_ok; [unfold U64_MAX in Hn; simpl; lia|lia]).
  destruct (digits 20 n) as [|c s] eqn:E.
  { cbn [digits] in E. destruct (n <? 10); [done|]. by apply app_nil in E as [_ ?]. }
  apply Forall_cons in Hd as [Hc _]. destruct s as [|c' s].
  - cbn [parse_digits] in Hp. unfold parse_u64. destruct (digit_of c) as [d|]; [|done].
    cbn [mbind option_bind] in Hp. rewrite checked_ok in Hp by lia. cbn [mbind option_bind] in Hp.
    destruct (checked 64 _) as [v|] eqn:Ev; [|done]. apply checked_Some in Ev as [-> _]. done.
  - unfold parse_u64. replace (c =? 43) with false by lia. done.
Qed.

(** ** Splitting at a terminator *)
Lemma split_unique {A} (a : A) xs xs' ys ys' :
  a ∉ xs → a ∉ xs' → xs ++ a :: ys = xs' ++ a :: ys' → xs = xs' ∧ ys = ys'.
Proof.
  revert xs'. induction xs as [|x xs IH]; intros [|x' xs'] Hn Hn' Heq; simpl in *; simplify_eq; [done|..].
  - exfalso. apply Hn', elem_of_cons. by left.
  - exfalso. apply Hn, elem_of_cons. by left.
  - rewrite not_elem_of_cons in Hn, Hn'.
    destruct (IH xs') as [-> ->]; [tauto|tauto|done|done].
Qed.

(** ** [str::from_utf8] *)
Definition is_char (c : Z) : bool := (0 <=? c) && (c <? 55296) || (57344 <=? c) && (c <? 1114112).

(** Strict decoding: a character is accepted only in its own encoding. *)
Fixpoint from_utf8_loop (fuel : nat) (bs : list Z) : option str :=
  match fuel with
  | O => None
  | S fuel =>
    match bs with
    | [] => Some []
    | _ =>
      '(c, rest) ← utf8_head bs;
      if is_char c && bool_decide (bs = utf8_char c ++ rest) then
        s ← from_utf8_loop fuel rest;
        Some (c :: s)
      else None
    end
  end.
Definition from_utf8 (bs : list Z) : option str := from_utf8_loop (S (length bs)) bs.

Lemma is_char_scalar c : is_char c = true → scalar c.
Proof. unfold is_char, scalar. lia. Qed.

Lemma utf8_char_nonempty c : utf8_char c ≠ [].
Proof. unfold utf8_char. by repeat case_match. Qed.

Lemma from_utf8_loop_spec fuel : ∀ bs s, (length bs < fuel)%nat →
  from_utf8_loop fuel bs = Some s ↔ Forall (λ c, is_char c = true) s ∧ str_bytes s = bs.
Proof.
  induction fuel as [|fuel IH]; intros bs s Hf; [lia|]. cbn [from_utf8_loop].
  destruct bs as [|b bs'].
  { split; [intros [= <-]; by split|]. intros [_ Hs]. destruct s as [|c s]; [done|]. exfalso.
    apply (utf8_char_nonempty c). unfold str_bytes in Hs. cbn in Hs. by apply app_nil in Hs as [? _]. }
  set (bs := b :: bs') in *. split.
  - destruct (utf8_head bs) as [[c rest]|]; cbn [mbind option_bind]; [|done].
    destruct (is_char c) eqn:Ec; cbn [andb]; [|done]. case_bool_decide as Hb; [|done].
    destruct (from_utf8_loop fuel rest) as [s'|] eqn:Er; cbn [mbind option_bind]; [|done]. intros [= <-].
    apply IH in Er as [Hs' <-]; [by split; [constructor|]|].
    rewrite Hb, length_app in Hf. pose proof (utf8_char_nonempty c). destruct (utf8_char c); cbn in Hf; [done|lia].
  - intros [Hs Hbs]. destruct Hs as [|c s Hc Hs]; [done|]. change (str_bytes (c :: s)) with (utf8_char c ++ str_bytes s) in Hbs.
    rewrite <- Hbs, utf8_head_char by (by apply is_char_scalar). cbn [mbind option_bind].
    rewrite Hc, bool_decide_eq_true_2 by done. cbn [andb].
    rewrite (proj2 (IH (str_bytes s) s ltac:(rewrite <- Hbs, length_app in Hf;
      pose proof (utf8_char_nonempty c); destruct (utf8_char c); cbn in Hf; [done|lia]))); done.
Qed.

(** Decoding accepts exactly the encodings of strings. *)
Lemma from_utf8_spec bs s :
  from_utf8 bs = Some s ↔ Forall (λ c, is_char c = true) s ∧ str_bytes s = bs.
Proof. apply from_utf8_loop_spec. lia. Qed.

(** ** Digits *)

(** [char::to_digit] *)
Definition to_digit (radix c : Z) : option Z :=
  d ← (if (48 <=? c) && (c <=? 57) then Some (c - 48)
       else if (97 <=? c) && (c <=? 122) then Some (c - 87)
       else if (65 <=? c) && (c <=? 90) then Some (c - 55)
       else None);
  if d <? radix then Some d else None.

(** A number in a radix up to sixteen, most significant digit first. *)
Definition digit_char (d : Z) : Z := if d <? 10 then 48 + d else 87 + d.
Fixpoint print_radix (radix : Z) (fuel : nat) (n : Z) : str :=
  match fuel with
  | O => []
  | S fuel => if n <? radix then [digit_char n]
              else print_radix radix fuel (n / radix) ++ [digit_char (n mod radix)]
  end.

Lemma to_digit_char radix d : 2 ≤ radix ≤ 16 → 0 ≤ d < radix → to_digit radix (digit_char d) = Some d.
Proof.
  intros Hr Hd. unfold to_digit, digit_char. destruct (d <? 10) eqn:E; bool_solve.
  - replace ((48 <=? 48 + d) && (48 + d <=? 57)) with true by lia. cbn [mbind option_bind].
    replace (48 + d - 48 <? radix) with true by lia. f_equal. lia.
  - replace ((48 <=? 87 + d) && (87 + d <=? 57)) with false by lia.
    replace ((97 <=? 87 + d) && (87 + d <=? 122)) with true by lia. cbn [mbind option_bind].
    replace (87 + d - 87 <? radix) with true by lia. f_equal. lia.
Qed.
