(* ===== verification/Rules.v ===== *)
(** * Rate-limit rules

    [crates/gabion/src/rules.rs]: rule construction and matching, the stable
    hash inputs that give rules and keys their cross-node identity, and the
    parsing and scaling of rates.  XXH3-128 is a library: a hash is a parameter
    applied to the concatenation of the bytes written to the hasher; so is
    humantime's duration parser.  A [Duration] is its number of nanoseconds. *)

From stdpp Require Import strings.
From S2P Require Import Prelude Types Bytes Str.

Inductive EnforcementMode := Enforce | DryRun | Disabled.
#[export] Instance EnforcementMode_eq_dec : EqDecision EnforcementMode.
Proof. solve_decision. Defined.

Record Descriptor := { desc_key : str; desc_value : str }.
Record DescriptorPattern := { pat_key : str; pat_value : str }.

Definition matches (self : DescriptorPattern) (descriptor : Descriptor) : bool :=
  bool_decide (pat_key self = desc_key descriptor) &&
  (bool_decide (pat_value self = lit "*") || bool_decide (pat_value self = desc_value descriptor)).

Record Rule := {
  rule_id : Z;
  rule_fp : Z;
  domain : str;
  domain_hash : KeyHash;
  descriptors : list DescriptorPattern;
  limit : Z;
  rule_window_millis : Z;
  rule_bucket_millis : Z;
  rule_live_buckets : Z;
  mode : EnforcementMode;
}.

Record RuleSpec := {
  spec_id : Z;
  spec_fingerprint : Z;
  spec_limit : Z;
  spec_bucket_millis : Z;
  spec_window_millis : Z;
  spec_live_buckets : Z;
}.

Definition spec (self : Rule) : RuleSpec := {|
  spec_id := rule_id self;
  spec_fingerprint := rule_fp self;
  spec_limit := limit self;
  spec_bucket_millis := rule_bucket_millis self;
  spec_window_millis := rule_window_millis self;
  spec_live_buckets := rule_live_buckets self;
|}.

(** ** Hash inputs: the bytes written to the hasher, in order *)
Definition write_descriptors (ds : list (str * str)) : list Z :=
  ds ≫= λ '(key, value), str_bytes key ++ [0] ++ str_bytes value ++ [255].

Definition domain_preimage (domain : str) : list Z :=
  str_bytes (lit "gabion.domain.v1") ++ [0] ++ str_bytes domain.

Definition key_preimage (rule_id : Z) (domain : str) (ds : list Descriptor) : list Z :=
  str_bytes (lit "gabion.key.v1") ++ [0] ++ to_le_bytes 8 rule_id ++ str_bytes domain ++ [0] ++
  write_descriptors ((λ d, (desc_key d, desc_value d)) <$> ds).

Definition rule_preimage (domain : str) (ps : list DescriptorPattern) : list Z :=
  str_bytes (lit "gabion.rule.v1") ++ [0] ++ str_bytes domain ++ [0] ++
  write_descriptors ((λ p, (pat_key p, pat_value p)) <$> ps).

Section rules.
Context (xxh3 : list Z → Z).

Definition hash_domain (domain : str) : KeyHash := xxh3 (domain_preimage domain).
Definition hash_key (rule_id : Z) (domain : str) (ds : list Descriptor) : KeyHash :=
  xxh3 (key_preimage rule_id domain ds).
Definition rule_fingerprint (domain : str) (ps : list DescriptorPattern) : Z :=
  xxh3 (rule_preimage domain ps).

Definition Rule_new (id : Z) (domain : str) (ds : list DescriptorPattern)
    (limit window_millis bucket_millis : Z) (mode : EnforcementMode) : Rule :=
  let fingerprint := rule_fingerprint domain ds in
  let domain_hash := hash_domain domain in
  let window_millis := Z.max window_millis 1 in
  let bucket_millis := Z.max bucket_millis 1 in
  let live_buckets := as_u32 (Z.max (div_ceil window_millis bucket_millis) 1) in
  {| rule_id := id; rule_fp := fingerprint; domain := domain; domain_hash := domain_hash;
     descriptors := ds; limit := limit; rule_window_millis := window_millis;
     rule_bucket_millis := bucket_millis; rule_live_buckets := live_buckets; mode := mode |}.

(** ** The rule table: an ordered list *)
Definition RuleTable_get (rules : list Rule) (id : Z) : option Rule :=
  List.find (λ rule, rule_id rule =? id) rules.

(** [zip] stops at the shorter list; the lengths are compared first. *)
Definition rule_matches (domain_h : KeyHash) (ds : list Descriptor) (rule : Rule) : bool :=
  negb (bool_decide (mode rule = Disabled)) &&
  (domain_hash rule =? domain_h) &&
  (zlen (descriptors rule) =? zlen ds) &&
  forallb (λ '(pattern, descriptor), matches pattern descriptor) (zip (descriptors rule) ds).

Definition matching (rules : list Rule) (domain : str) (ds : list Descriptor) : list Rule :=
  let domain_h := hash_domain domain in
  List.filter (rule_matches domain_h ds) rules.
End rules.

(** ** Rates *)
Inductive RateError := NoRatePeriod | BadCount | ZeroCount | BadPeriod | ZeroPeriod.

Definition NANOS_PER_SEC : Z := 1000000000.

Definition parse_rate (parse_duration : str → option Z) (input : str) : (Z * Z) + RateError :=
  let input := trim input in
  match split_once (lit "r/") input with
  | None => Err NoRatePeriod
  | Some (number, period) =>
    match parse_u64 number with
    | None => Err BadCount
    | Some count =>
      if count =? 0 then Err ZeroCount else
      let duration :=
        if bool_decide (period = lit "s") then Some NANOS_PER_SEC
        else if bool_decide (period = lit "m") then Some (60 * NANOS_PER_SEC)
        else if bool_decide (period = lit "h") then Some (60 * 60 * NANOS_PER_SEC)
        else if bool_decide (period = lit "d") then Some (60 * 60 * 24 * NANOS_PER_SEC)
        else parse_duration period in
      match duration with
      | None => Err BadPeriod
      | Some duration =>
        if duration =? 0 then Err ZeroPeriod else Ok (count, duration)
      end
    end
  end.

Record ResolvedRate := {
  rr_limit : Z;
  rr_window_millis : Z;
  rr_bucket_millis : Z;
}.
Inductive RateResolveError := WindowShorterThanPeriod | ZeroWindow | ZeroBucket | LimitOverflow.

(** [as_millis] is a [u128]; it is clamped to [u64::MAX]. *)
Definition duration_to_millis (d : Z) : Z := Z.min (d / 1000000) U64_MAX.

Definition resolve_rate (rate_count period : Z) (window bucket : option Z) :
    ResolvedRate + RateResolveError :=
  let window := default period window in
  if window =? 0 then Err ZeroWindow else
  if window <? period then Err WindowShorterThanPeriod else
  let bucket := default window bucket in
  if bucket =? 0 then Err ZeroBucket else
  let window_millis := duration_to_millis window in
  let period_millis := Z.max (duration_to_millis period) 1 in
  let bucket_millis := duration_to_millis bucket in
  match checked 64 (rate_count * window_millis) with
  | None => Err LimitOverflow
  | Some p => Ok {| rr_limit := p / period_millis; rr_window_millis := window_millis;
                    rr_bucket_millis := bucket_millis |}
  end.

(** ** Identity: hash inputs determine what they were built from *)
Definition pairs_ok (ds : list (str * str)) : Prop :=
  Forall (λ kv, str_ok kv.1 ∧ str_ok kv.2 ∧ 0 ∉ kv.1) ds.

Lemma write_descriptors_inj ds ds' :
  pairs_ok ds → pairs_ok ds' → write_descriptors ds = write_descriptors ds' → ds = ds'.
Proof.
  intros Hds. revert ds'. induction Hds as [|[k v] ds (Hk & Hv & Hk0) _ IH]; intros ds' Hds' Heq.
  - destruct Hds' as [|[k' v'] ds' _ _]; [done|]. exfalso. unfold write_descriptors in Heq.
    cbn in Heq. by destruct (str_bytes k').
  - destruct Hds' as [|[k' v'] ds' (Hk' & Hv' & Hk0') Hds'].
    { exfalso. unfold write_descriptors in Heq. cbn in Heq. by destruct (str_bytes k). }
    unfold write_descriptors in Heq. cbn [mbind list_bind] in Heq.
    fold (write_descriptors ds) (write_descriptors ds') in Heq.
    rewrite <- !app_assoc in Heq. cbn [app fst snd] in *.
    apply split_unique in Heq as [Hkk Heq]; [|by apply str_bytes_no_nul..].
    apply split_unique in Heq as [Hvv Heq]; [|by apply str_bytes_no_ff..].
    apply str_bytes_inj in Hkk as ->; [|done..]. apply str_bytes_inj in Hvv as ->; [|done..].
    f_equal. by apply IH.
Qed.

(** A request or rule shape whose strings are valid, with no NUL in the domain
    or a descriptor key. *)
Definition shape_ok (domain : str) (ds : list (str * str)) : Prop :=
  str_ok domain ∧ (0 ∉ domain) ∧ pairs_ok ds.

Lemma shape_preimage_inj dom ds dom' ds' :
  shape_ok dom ds → shape_ok dom' ds' →
  str_bytes dom ++ (0 :: write_descriptors ds) = str_bytes dom' ++ (0 :: write_descriptors ds') →
  dom = dom' ∧ ds = ds'.
Proof.
  intros (Hd & Hd0 & Hds) (Hd' & Hd0' & Hds') Heq.
  apply split_unique in Heq as [Hdd Heq]; [|by apply str_bytes_no_nul..].
  split; [by apply str_bytes_inj|by apply write_descriptors_inj].
Qed.

Definition desc_pair (d : Descriptor) : str * str := (desc_key d, desc_value d).
Definition pat_pair (p : DescriptorPattern) : str * str := (pat_key p, pat_value p).

#[export] Instance desc_pair_inj : Inj (=) (=) desc_pair.
Proof. intros [] [] [=]. by subst. Qed.
#[export] Instance pat_pair_inj : Inj (=) (=) pat_pair.
Proof. intros [] [] [=]. by subst. Qed.

Lemma to_le_bytes_inj n a b :
  0 ≤ a < 256 ^ Z.of_nat n → 0 ≤ b < 256 ^ Z.of_nat n → to_le_bytes n a = to_le_bytes n b → a = b.
Proof.
  intros Ha Hb Heq. rewrite <- (from_to_le_bytes n a), <- (from_to_le_bytes n b) by done. by f_equal.
Qed.

(** C29: the hash inputs give rules and keys a unique cross-node identity.  Two
    rule shapes with the same fingerprint input are the same domain and the same
    patterns in the same order; two request keys with the same input have the
    same rule id, domain and descriptors; and the input of a domain hash, a key
    hash and a rule fingerprint are never equal.  The strings are any valid
    strings with no NUL in a domain or a descriptor key. *)
Theorem hash_inputs_identify dom dom' ds ds' ps ps' id id' :
  shape_ok dom (desc_pair <$> ds) → shape_ok dom' (desc_pair <$> ds') →
  pairs_ok (pat_pair <$> ps) → pairs_ok (pat_pair <$> ps') →
  uint 32 id → uint 32 id' →
  (rule_preimage dom ps = rule_preimage dom' ps' ↔ dom = dom' ∧ ps = ps') ∧
  (key_preimage id dom ds = key_preimage id' dom' ds' ↔ id = id' ∧ dom = dom' ∧ ds = ds') ∧
  (domain_preimage dom = domain_preimage dom' ↔ dom = dom') ∧
  domain_preimage dom ≠ rule_preimage dom' ps' ∧
  domain_preimage dom ≠ key_preimage id' dom' ds' ∧
  rule_preimage dom ps ≠ key_preimage id' dom' ds'.
Proof.
  unfold uint. intros Hd Hd' Hp Hp' Hid Hid'.
  split_and!; try (unfold domain_preimage, rule_preimage, key_preimage; discriminate).
  - split; [|by intros [-> ->]]. intros Heq%app_inv_head%app_inv_head.
    apply (shape_preimage_inj dom (pat_pair <$> ps) dom' (pat_pair <$> ps')) in Heq as [-> Heq].
    + split; [done|]. by apply (inj _) in Heq.
    + split; [apply Hd|split; [apply Hd|done]].
    + split; [apply Hd'|split; [apply Hd'|done]].
  - split; [|by intros (-> & -> & ->)]. intros Heq%app_inv_head%app_inv_head.
    apply app_inj_1 in Heq as [Hl Heq]; [|by rewrite !length_to_le_bytes].
    apply to_le_bytes_inj in Hl as ->; [|simpl; lia..].
    apply (shape_preimage_inj dom (desc_pair <$> ds) dom' (desc_pair <$> ds')) in Heq as [-> Heq]; [|done..].
    split; [done|split; [done|]]. by apply (inj _) in Heq.
  - split; [|by intros ->]. intros Heq%app_inv_head%app_inv_head.
    apply str_bytes_inj in Heq; [done|apply Hd|apply Hd'].
Qed.

Definition sample_ds : list Descriptor := [ {| desc_key := lit "ip"; desc_value := lit "10.0.0.1" |} ].
Definition sample_ps : list DescriptorPattern := [ {| pat_key := lit "ip"; pat_value := lit "*" |} ].

Lemma hash_inputs_identify_witness :
  (rule_preimage (lit "web") sample_ps = rule_preimage (lit "api") [] ↔
     lit "web" = lit "api" ∧ sample_ps = []) ∧
  (key_preimage 7 (lit "web") sample_ds = key_preimage 7 (lit "api") [] ↔
     7 = 7 ∧ lit "web" = lit "api" ∧ sample_ds = []) ∧
  (domain_preimage (lit "web") = domain_preimage (lit "api") ↔ lit "web" = lit "api") ∧
  domain_preimage (lit "web") ≠ rule_preimage (lit "api") [] ∧
  domain_preimage (lit "web") ≠ key_preimage 7 (lit "api") [] ∧
  rule_preimage (lit "web") sample_ps ≠ key_preimage 7 (lit "api") [].
Proof.
  apply (hash_inputs_identify (lit "web") (lit "api") sample_ds [] sample_ps [] 7 7);
    first [by apply (bool_decide_unpack _); vm_compute
          |unfold uint; lia
          |split_and!; try (by apply (bool_decide_unpack _); vm_compute)
          |idtac];
    repeat constructor; try (vm_compute; congruence); by apply (bool_decide_unpack _); vm_compute.
Defined.

(** A NUL in a descriptor key moves the boundary between key and value: two
    different shapes share a hash input. *)
Theorem nul_in_key_collides :
  ∃ ps ps', ps ≠ ps' ∧ ∀ dom, rule_preimage dom ps = rule_preimage dom ps'.
Proof.
  exists [ {| pat_key := lit "a" ++ [0] ++ lit "b"; pat_value := lit "c" |} ],
         [ {| pat_key := lit "a"; pat_value := lit "b" ++ [0] ++ lit "c" |} ].
  split; [done|]. intros dom. reflexivity.
Qed.

(** ** Rule construction *)
(** A rule's live buckets cover its window with less than one bucket to
    spare, and are at least one, as long as the window spans fewer than 2^32
    buckets; the fingerprint depends on the domain and the patterns alone. *)
Theorem rule_covers_window xxh3 id dom ps lim window bucket m :
  0 ≤ window → 0 ≤ bucket →
  div_ceil (Z.max window 1) (Z.max bucket 1) ≤ U32_MAX →
  let r := Rule_new xxh3 id dom ps lim window bucket m in
  1 ≤ rule_live_buckets r ∧ 1 ≤ rule_bucket_millis r ∧
  rule_window_millis r ≤ rule_live_buckets r * rule_bucket_millis r <
    rule_window_millis r + rule_bucket_millis r ∧
  rule_fp r = xxh3 (rule_preimage dom ps).
Proof.
  intros Hw Hb Hmax. simpl. pose proof (div_ceil_spec (Z.max window 1) (Z.max bucket 1)) as Hs.
  set (q := div_ceil _ _) in *. assert (1 ≤ q) by nia.
  rewrite (Z.max_l q 1) by lia. unfold as_u32, U32_MAX in *. rewrite Z.mod_small by lia.
  split_and!; try done; nia.
Qed.

Lemma rule_covers_window_witness :
  let r := Rule_new (λ _, 0) 1 (lit "web") [] 100 60000 7000 Enforce in
  1 ≤ rule_live_buckets r ∧ 1 ≤ rule_bucket_millis r ∧
  rule_window_millis r ≤ rule_live_buckets r * rule_bucket_millis r <
    rule_window_millis r + rule_bucket_millis r ∧
  rule_fp r = 0.
Proof. apply (rule_covers_window (λ _, 0)); vm_compute; congruence. Defined.

(** With a window of 2^32 buckets the number of live buckets is truncated to
    zero, although the quotient was clamped to be at least one: such a rule sums
    no bucket at all. *)
Theorem live_buckets_truncate_to_zero xxh3 id dom ps lim m :
  rule_live_buckets (Rule_new xxh3 id dom ps lim (2 ^ 32) 1 m) = 0.
Proof. reflexivity. Qed.

(** ** Matching *)
Definition pattern_fits (p : DescriptorPattern) (d : Descriptor) : Prop :=
  pat_key p = desc_key d ∧ (pat_value p = lit "*" ∨ pat_value p = desc_value d).

Lemma matches_spec p d : matches p d = true ↔ pattern_fits p d.
Proof.
  unfold matches, pattern_fits.
  rewrite andb_true_iff, orb_true_iff, !bool_decide_eq_true. done.
Qed.

Lemma zip_forallb ps ds :
  zlen ps = zlen ds →
  forallb (λ '(p, d), matches p d) (zip ps ds) = true ↔ Forall2 pattern_fits ps ds.
Proof.
  revert ds. induction ps as [|p ps IH]; intros [|d ds] Hl; unfold zlen in Hl; simpl in Hl; try lia.
  - split; [by constructor|done].
  - cbn. rewrite andb_true_iff, matches_spec, IH by (unfold zlen; lia).
    rewrite Forall2_cons. done.
Qed.

(** A rule table as the adapters build it. *)
Definition derived (xxh3 : list Z → Z) (r : Rule) : Prop :=
  domain_hash r = hash_domain xxh3 (domain r).

Lemma rule_matches_spec xxh3 dom ds r :
  derived xxh3 r →
  rule_matches (hash_domain xxh3 dom) ds r = true ↔
  mode r ≠ Disabled ∧ hash_domain xxh3 (domain r) = hash_domain xxh3 dom ∧
  Forall2 pattern_fits (descriptors r) ds.
Proof.
  unfold derived, rule_matches. intros Hr. rewrite Hr, !andb_true_iff, negb_true_iff, bool_decide_eq_false.
  rewrite Z.eqb_eq. split.
  - intros [[[Hm Hd] Hl%Z.eqb_eq] Hz]. split; [done|split; [done|]]. by apply zip_forallb.
  - intros (Hm & Hd & Hf). assert (zlen (descriptors r) = zlen ds) as Hl
      by (unfold zlen; by rewrite (Forall2_length _ _ _ Hf)).
    split; [split; [done|by apply Z.eqb_eq]|by apply zip_forallb].
Qed.

(** [matching] yields, in table order and without repetition, exactly the rules
    that are not disabled, have the request's domain, and whose patterns fit the
    request's descriptors position by position with the same number of each.
    The hypothesis on the hash is that the request's domain does not collide with
    a different domain in the table. *)
Theorem matching_exact xxh3 ids dom ds :
  let rules := (λ '(id, d, ps, lim, w, b, m), Rule_new xxh3 id d ps lim w b m) <$> ids in
  (∀ r, r ∈ rules → hash_domain xxh3 (domain r) = hash_domain xxh3 dom → domain r = dom) →
  matching xxh3 rules dom ds `sublist_of` rules ∧
  ∀ r, r ∈ matching xxh3 rules dom ds ↔
    r ∈ rules ∧ mode r ≠ Disabled ∧ domain r = dom ∧ Forall2 pattern_fits (descriptors r) ds.
Proof.
  intros rules Hcol. unfold matching. set (p := rule_matches _ ds).
  split.
  { induction rules as [|r rules IH]; [constructor|]. cbn [List.filter].
    destruct (p r); [constructor 2|constructor 3]; apply IH; set_solver. }
  intros r. rewrite list_elem_of_In, filter_In, <- list_elem_of_In.
  assert (r ∈ rules → derived xxh3 r) as Hd.
  { intros Hr. apply list_elem_of_fmap in Hr as ([[[[[[id d] ps] lim] w] b] m] & -> & _). done. }
  unfold p. split; intros [Hr Hm]; rewrite (rule_matches_spec xxh3 dom ds r (Hd Hr)) in *.
  - destruct Hm as (Hm & Hh & Hf). auto.
  - destruct Hm as (Hm & -> & Hf). auto.
Qed.

Definition sample_hash (bs : list Z) : Z := foldr (λ b acc, (b + 31 * acc) mod 65521) 1 bs.
Definition sample_rules : list (Z * str * list DescriptorPattern * Z * Z * Z * EnforcementMode) :=
  [(1, lit "web", sample_ps, 100, 60000, 1000, Enforce); (2, lit "api", sample_ps, 5, 1000, 1000, Enforce);
   (3, lit "web", sample_ps, 10, 1000, 1000, Disabled); (4, lit "web", [], 10, 1000, 1000, DryRun)].

Lemma matching_exact_witness :
  let rules := (λ '(id, d, ps, lim, w, b, m), Rule_new sample_hash id d ps lim w b m) <$> sample_rules in
  rule_id <$> matching sample_hash rules (lit "web") sample_ds = [1] ∧
  ∀ r, r ∈ matching sample_hash rules (lit "web") sample_ds ↔
    r ∈ rules ∧ mode r ≠ Disabled ∧ domain r = lit "web" ∧
    Forall2 pattern_fits (descriptors r) sample_ds.
Proof.
  intros rules. split; [by vm_compute|].
  refine (proj2 (matching_exact sample_hash sample_rules (lit "web") sample_ds _)).
  intros r Hr Hh. unfold sample_rules in Hr. rewrite !fmap_cons, fmap_nil in Hr.
  rewrite !elem_of_cons, elem_of_nil in Hr.
  destruct Hr as [->|[->|[->|[->|[]]]]]; try reflexivity.
  exfalso. vm_compute in Hh. discriminate.
Defined.

(** ** Rates *)
Lemma trim_start_id c s : is_whitespace c = false → trim_start (c :: s) = c :: s.
Proof. intros H. simpl. by rewrite H. Qed.

Lemma trim_id a s b :
  is_whitespace a = false → is_whitespace b = false → trim (a :: s ++ [b]) = a :: s ++ [b].
Proof.
  intros Ha Hb. unfold trim. rewrite trim_start_id by done.
  rewrite (app_comm_cons s [b] a), rev_app_distr. cbn [rev app].
  rewrite trim_start_id by done. cbn [rev]. rewrite rev_app_distr, rev_involutive. done.
Qed.

Lemma digit_not_space c : 48 ≤ c ≤ 57 → is_whitespace c = false.
Proof.
  intros Hc. unfold is_whitespace.
  rewrite bool_decide_eq_false_2; [simpl; lia|].
  rewrite !elem_of_cons, elem_of_nil. lia.
Qed.

Lemma split_once_digits ds rest :
  Forall (λ c, 48 ≤ c ≤ 57) ds → split_once (lit "r/") (ds ++ lit "r/" ++ rest) = Some (ds, rest).
Proof.
  induction 1 as [|c ds Hc _ IH]; [done|]. change ((c :: ds) ++ lit "r/" ++ rest)
    with (c :: (ds ++ lit "r/" ++ rest)). cbn [split_once strip_prefix].
  change (lit "r/") with [114; 47] in *. cbn [strip_prefix].
  replace (114 =? c) with false by lia. by rewrite IH.
Qed.

Definition unit_nanos (u : str) : option Z :=
  if bool_decide (u = lit "s") then Some NANOS_PER_SEC
  else if bool_decide (u = lit "m") then Some (60 * NANOS_PER_SEC)
  else if bool_decide (u = lit "h") then Some (60 * 60 * NANOS_PER_SEC)
  else if bool_decide (u = lit "d") then Some (60 * 60 * 24 * NANOS_PER_SEC)
  else None.

Lemma decimal_nonempty n : 0 ≤ n ≤ U64_MAX → decimal n ≠ [].
Proof. intros Hn He. pose proof (parse_decimal n Hn) as H. by rewrite He in H. Qed.

(** A rate written in decimal with a unit letter is parsed back to exactly that
    count and period; and whatever text is accepted, the count is positive, fits
    64 bits, and the period is not zero. *)
Theorem parse_rate_correct parse_duration :
  (∀ n u p, 0 < n ≤ U64_MAX → unit_nanos [u] = Some p →
     parse_rate parse_duration (decimal n ++ lit "r/" ++ [u]) = Ok (n, p)) ∧
  (∀ input n p, parse_rate parse_duration input = Ok (n, p) → 0 < n ≤ U64_MAX ∧ p ≠ 0).
Proof.
  split.
  - intros n u p Hn Hu. unfold parse_rate.
    pose proof (digits_chars 20 n ltac:(lia)) as Hd. fold (decimal n) in Hd.
    assert (is_whitespace u = false) as Hws.
    { unfold unit_nanos in Hu. repeat case_bool_decide; simplify_eq; try done;
        match goal with H : [u] = lit _ |- _ => injection H as -> end; reflexivity. }
    assert (trim (decimal n ++ lit "r/" ++ [u]) = decimal n ++ lit "r/" ++ [u]) as ->.
    { destruct (decimal n) as [|c ds] eqn:E; [by apply decimal_nonempty in E; [|lia]|].
      apply Forall_cons in Hd as [Hc _].
      change ((c :: ds) ++ lit "r/" ++ [u]) with (c :: (ds ++ (lit "r/" ++ [u]))).
      rewrite (app_assoc ds). apply trim_id; [by apply digit_not_space|done]. }
    rewrite split_once_digits by done. rewrite parse_decimal by lia.
    replace (n =? 0) with false by lia.
    unfold unit_nanos in Hu. repeat case_bool_decide; simplify_eq; done.
  - intros input n p. unfold parse_rate.
    destruct (split_once _ _) as [[num per]|]; [|done].
    destruct (parse_u64 num) as [c|] eqn:Ec; [|done]. destruct (c =? 0) eqn:E0; [done|].
    set (d := if bool_decide (per = lit "s") then _ else _). destruct d as [d|]; [|done].
    destruct (d =? 0) eqn:Ed; [done|]. intros [= <- <-]. apply parse_u64_range in Ec. lia.
Qed.

Lemma parse_rate_correct_witness :
  parse_rate (λ _, None) (decimal 250 ++ lit "r/" ++ lit "m") = Ok (250, 60 * NANOS_PER_SEC) ∧
  (0 < 3 ≤ U64_MAX ∧ 60 * NANOS_PER_SEC ≠ 0).
Proof.
  split.
  - apply (proj1 (parse_rate_correct (λ _, None))); [vm_compute; split; congruence|reflexivity].
  - apply (proj2 (parse_rate_correct (λ _, None)) (lit " 3r/m ")). reflexivity.
Defined.

(** Every outcome of resolving a rate.  A zero window, a window shorter than the
    period and a zero bucket are refused, in this order; a product of count and
    window beyond 64 bits is an overflow error; otherwise the limit is the count
    scaled by window over period, rounded down, and it is at least the count when
    the period is a millisecond or longer. *)
Theorem resolve_rate_exact count period window bucket :
  0 < count → 0 < period →
  let w := default period window in
  let b := default w bucket in
  let r := resolve_rate count period window bucket in
  (w = 0 → r = Err ZeroWindow) ∧
  (0 < w < period → r = Err WindowShorterThanPeriod) ∧
  (period ≤ w → b = 0 → r = Err ZeroBucket) ∧
  (period ≤ w → b ≠ 0 → U64_MAX < count * duration_to_millis w → r = Err LimitOverflow) ∧
  (period ≤ w → b ≠ 0 → count * duration_to_millis w ≤ U64_MAX →
   ∃ rr, r = Ok rr ∧ rr_window_millis rr = duration_to_millis w ∧
     rr_bucket_millis rr = duration_to_millis b ∧
     rr_limit rr = count * duration_to_millis w / Z.max (duration_to_millis period) 1 ∧
     (1000000 ≤ period → count ≤ rr_limit rr)).
Proof.
  intros Hc Hp w b r. subst r. unfold resolve_rate. fold w. fold b.
  assert (0 ≤ w → 0 ≤ duration_to_millis w) as Hd0.
  { intros. unfold duration_to_millis, U64_MAX. pose proof (Z.div_pos w 1000000). lia. }
  split_and!.
  - by intros ->.
  - intros Hw. replace (w =? 0) with false by lia. by replace (w <? period) with true by lia.
  - intros Hw Hb. replace (w =? 0) with false by lia. replace (w <? period) with false by lia.
    by replace (b =? 0) with true by lia.
  - intros Hw Hb Ho. replace (w =? 0) with false by lia. replace (w <? period) with false by lia.
    replace (b =? 0) with false by lia. unfold checked, U64_MAX in *.
    by replace (_ && _) with false by lia.
  - intros Hw Hb Ho. replace (w =? 0) with false by lia. replace (w <? period) with false by lia.
    replace (b =? 0) with false by lia. unfold U64_MAX in *.
    rewrite checked_ok by (specialize (Hd0 ltac:(lia)); nia).
    eexists. split; [done|]. cbn. split_and!; try done. intros Hms.
    assert (1 ≤ duration_to_millis period ≤ duration_to_millis w).
    { unfold duration_to_millis, U64_MAX. pose proof (Z.div_le_mono period w 1000000).
      pose proof (Z.div_le_lower_bound period 1000000 1). lia. }
    rewrite Z.max_l by lia. apply Z.div_le_lower_bound; nia.
Qed.

Lemma resolve_rate_exact_witness :
  ∃ rr, resolve_rate 100 NANOS_PER_SEC (Some (60 * NANOS_PER_SEC)) None = Ok rr ∧
     rr_window_millis rr = 60000 ∧ rr_bucket_millis rr = 60000 ∧ rr_limit rr = 6000 ∧
     (1000000 ≤ NANOS_PER_SEC → 100 ≤ rr_limit rr).
Proof.
  destruct (resolve_rate_exact 100 NANOS_PER_SEC (Some (60 * NANOS_PER_SEC)) None)
    as (_ & _ & _ & _ & H); [lia|vm_compute; reflexivity|].
  apply H; vm_compute; congruence.
Defined.

(** A period below a millisecond is accepted by both functions and resolves to a
    limit of zero, which rejects every request: [parse_rate] refuses a zero count
    for exactly that reason. *)
Theorem submillisecond_rate_denies parse_duration :
  parse_duration (lit "500us") = Some 500000 →
  ∃ n p rr, parse_rate parse_duration (lit "100r/500us") = Ok (n, p) ∧
    resolve_rate n p None None = Ok rr ∧ 0 < n ∧ rr_limit rr = 0.
Proof.
  intros H. exists 100, 500000. eexists. split; [|done]. unfold parse_rate.
  change (split_once (lit "r/") (trim (lit "100r/500us"))) with (Some (lit "100", lit "500us")).
  change (parse_u64 (lit "100")) with (Some 100). cbn [Z.eqb]. rewrite H.
  by repeat (case_bool_decide; [discriminate|]).
Qed.

Lemma submillisecond_rate_denies_witness :
  ∃ n p rr, parse_rate (λ _, Some 500000) (lit "100r/500us") = Ok (n, p) ∧
    resolve_rate n p None None = Ok rr ∧ 0 < n ∧ rr_limit rr = 0.
Proof. apply (submillisecond_rate_denies (λ _, Some 500000)). reflexivity. Defined.
