(* ===== verification/DashMap.v ===== *)
(** * The server's aggregate store

    [crates/gabion/src/gossip/store.rs]: the contract [AggregateStore] between
    the gossip runtime and whatever keeps the per-bucket totals.
    [crates/server/src/store.rs]: [DashMapStore], the implementation behind the
    gRPC adapter.  A [DashMap] is a finite map; the runtime is its only writer,
    and one [apply] is a sequence of per-entry updates. *)

From S2P Require Import Prelude Types IO Window Rules.

(** ** The contract *)

(** What the rows of a channel add up to for one identity, counting only the
    rows of rules this process enforces. *)
Definition local_deltas (ds : list CellDelta) (cid : CellIdentity) : Z :=
  foldr (λ d acc, if d_applies_locally d && bool_decide (d_key d = cid)
                  then d_delta d + acc else acc) 0 ds.
Definition local_expirations (es : list CellExpiration) (cid : CellIdentity) : Z :=
  foldr (λ e acc, if e_applies_locally e && bool_decide (e_key e = cid)
                  then e_last_count e + acc else acc) 0 es.

Definition deltas_ok (ds : list CellDelta) : Prop := Forall (λ d, 0 ≤ d_delta d ≤ U64_MAX) ds.
Definition expirations_ok (es : list CellExpiration) : Prop :=
  Forall (λ e, 0 ≤ e_last_count e ≤ U64_MAX) es.

Lemma local_deltas_nonneg ds cid : deltas_ok ds → 0 ≤ local_deltas ds cid.
Proof. induction 1 as [|d ds Hd _ IH]; simpl; [done|]. case_match; lia. Qed.

Lemma local_deltas_snoc ds d cid : local_deltas (ds ++ [d]) cid = local_deltas ds cid + local_deltas [d] cid.
Proof.
  induction ds as [|d' ds IH]; [done|]. unfold local_deltas in *. cbn [app foldr] in *. rewrite IH.
  destruct (_ && bool_decide (d_key d' = cid)); lia.
Qed.

Lemma local_expirations_nonneg es cid : expirations_ok es → 0 ≤ local_expirations es cid.
Proof. induction 1 as [|e es He _ IH]; simpl; [done|]. case_match; lia. Qed.

Lemma local_expirations_snoc es e cid :
  local_expirations (es ++ [e]) cid = local_expirations es cid + local_expirations [e] cid.
Proof.
  induction es as [|e' es IH]; [done|]. unfold local_expirations in *. cbn [app foldr] in *. rewrite IH.
  destruct (_ && bool_decide (e_key e' = cid)); lia.
Qed.

Class AggregateStore (S : Type) := {
  agg_apply : S → DeltaSink.t → ExpirationSink.t → option S;
  agg_read : S → CellIdentity → Z;
}.

(** What an implementation promises: [apply] does not panic, and as long as no
    total overflows, every identity's total moves by the sum of the applicable
    rows: deltas are added first, then expirations taken off down to zero. *)
Class AggregateLaws (S : Type) `{AggregateStore S} := {
  agg_ok : S → Prop;
  agg_ok_read s cid : agg_ok s → 0 ≤ agg_read s cid ≤ U64_MAX;
  agg_apply_spec s ds es :
    agg_ok s → deltas_ok ds → expirations_ok es →
    ∃ s', agg_apply s (DeltaSink.of_rows ds) (ExpirationSink.of_rows es) = Some s' ∧ agg_ok s' ∧
      ∀ cid, agg_read s' cid =
        saturating_sub (saturating_add 64 (agg_read s cid) (local_deltas ds cid))
                       (local_expirations es cid);
}.

Module DashMapStore.

Abbreviation t := (gmap CellIdentity Z).

Definition with_capacity (capacity : Z) : t := ∅.
Definition len (self : t) : Z := Z.of_nat (size self).
Definition is_empty (self : t) : bool := len self =? 0.

(** The sum over the offsets from [offset]; [break] when the bucket underflows. *)
Fixpoint sum_window (self : t) (fp kh current : Z) (offset : Z) (n : nat) (total : Z) : Z :=
  match n with
  | O => total
  | S n =>
    if current <? offset then total else
    let cid := {| Types.rule_fingerprint := fp; key_hash := kh; bucket := current - offset |} in
    sum_window self fp kh current (offset + 1) n
      (match self !! cid with
       | Some value => saturating_add 64 total value
       | None => total
       end)
  end.

(** [None] is the panic of the division by a zero bucket length. *)
Definition window_total (self : t) (fp : Z) (kh : KeyHash)
    (now_millis bucket_millis live_buckets : Z) : option Z :=
  if bucket_millis =? 0 then None else
  let current := as_u32 (now_millis / bucket_millis) in
  Some (sum_window self fp kh current 0 (Z.to_nat live_buckets) 0).

Definition time_until_admit_millis (self : t) (spec : RuleSpec) (kh : KeyHash)
    (now_millis total hits : Z) : option Z :=
  Window.time_until_admit_millis
    (λ b, default 0 (self !! {| Types.rule_fingerprint := spec_fingerprint spec; key_hash := kh; bucket := b |}))
    now_millis (spec_bucket_millis spec) (spec_live_buckets spec) (spec_limit spec) total hits.

Definition apply_delta (deltas : DeltaSink.t) (self : t) (i : Z) : option t :=
  a ← zget (DeltaSink.applies_locally deltas) i;
  if a =? 0 then Some self else
  key ← zget (DeltaSink.keys deltas) i;
  v ← zget (DeltaSink.deltas deltas) i;
  if v =? 0 then Some self else
  let entry := default 0 (self !! key) in
  Some (<[key := saturating_add 64 entry v]> self).

Definition apply_expiration (expirations : ExpirationSink.t) (self : t) (i : Z) : option t :=
  a ← zget (ExpirationSink.applies_locally expirations) i;
  if a =? 0 then Some self else
  key ← zget (ExpirationSink.keys expirations) i;
  v ← zget (ExpirationSink.last_counts expirations) i;
  Some match self !! key with
       | None => self
       | Some entry =>
         let next := saturating_sub entry v in
         let self := <[key := next]> self in
         if next =? 0 then
           match self !! key with
           | Some v => if v =? 0 then delete key self else self
           | None => self
           end
         else self
       end.

Definition apply (self : t) (deltas : DeltaSink.t) (expirations : ExpirationSink.t) : option t :=
  self ← for_each (zrange 0 (DeltaSink.len deltas)) self (apply_delta deltas);
  for_each (zrange 0 (ExpirationSink.len expirations)) self (apply_expiration expirations).

(** The total of one identity, zero when the row is absent. *)
Definition read (self : t) (cid : CellIdentity) : Z := default 0 (self !! cid).

(** No row is zero, so that the map's size is the number of live identities. *)
Definition ok (self : t) : Prop := map_Forall (λ _ v, 0 < v ≤ U64_MAX) self.

Lemma ok_read self cid : ok self → 0 ≤ read self cid ≤ U64_MAX.
Proof.
  intros Hok. unfold read. destruct (self !! cid) as [v|] eqn:E; simpl; [|unfold U64_MAX; lia].
  specialize (Hok _ _ E). simpl in Hok. lia.
Qed.

Lemma read_insert self k v cid : read (<[k := v]> self) cid = if decide (k = cid) then v else read self cid.
Proof. unfold read. rewrite lookup_insert. by case_decide. Qed.

(** ** One row *)
Lemma apply_delta_row rows self i d :
  zget rows i = Some d → ok self → 0 ≤ d_delta d ≤ U64_MAX →
  ∃ self', apply_delta (DeltaSink.of_rows rows) self i = Some self' ∧ ok self' ∧
    ∀ cid, read self' cid = saturating_add 64 (read self cid) (local_deltas [d] cid).
Proof.
  intros Hd Hok Hv. unfold apply_delta. simpl. rewrite !zget_fmap, Hd. simpl.
  assert (∀ cid, read self cid = saturating_add 64 (read self cid) 0) as Hsame.
  { intros cid. pose proof (ok_read self cid Hok). unfold saturating_add, U64_MAX in *. lia. }
  destruct (d_applies_locally d); simpl; [|by exists self].
  destruct (d_delta d =? 0) eqn:E0; bool_solve.
  - exists self. split; [done|]. split; [done|]. intros cid. case_bool_decide; simpl; [|done].
    rewrite E0. simpl. done.
  - eexists. split; [done|]. pose proof (ok_read self (d_key d) Hok) as Hr. split.
    + apply map_Forall_insert_2; [|done]. unfold read, saturating_add, U64_MAX in *. lia.
    + intros cid. rewrite read_insert. case_bool_decide; simpl.
      * subst cid. rewrite decide_True by done. by rewrite Z.add_0_r.
      * rewrite decide_False by done. apply Hsame.
Qed.

Lemma apply_expiration_row rows self i e :
  zget rows i = Some e → ok self → 0 ≤ e_last_count e ≤ U64_MAX →
  ∃ self', apply_expiration (ExpirationSink.of_rows rows) self i = Some self' ∧ ok self' ∧
    ∀ cid, read self' cid = saturating_sub (read self cid) (local_expirations [e] cid).
Proof.
  intros He Hok Hv. unfold apply_expiration. simpl. rewrite !zget_fmap, He. simpl.
  assert (∀ cid, read self cid = saturating_sub (read self cid) 0) as Hsame.
  { intros cid. pose proof (ok_read self cid Hok). unfold saturating_sub. lia. }
  destruct (e_applies_locally e); simpl; [|by exists self].
  eexists. split; [done|]. destruct (self !! e_key e) as [v|] eqn:E.
  - rewrite lookup_insert_eq. pose proof (ok_read self (e_key e) Hok) as Hr.
    assert (∀ m cid, ok m → (∀ k, k ≠ e_key e → m !! k = self !! k) →
      read m (e_key e) = saturating_sub (read self (e_key e)) (e_last_count e) →
      read m cid = saturating_sub (read self cid)
        (if bool_decide (e_key e = cid) then e_last_count e + 0 else 0)) as Hrd.
    { intros m cid _ Hne Heq. case_bool_decide; [subst cid; by rewrite Heq, Z.add_0_r|].
      rewrite <- (Hsame cid). unfold read. by rewrite Hne by done. }
    assert (read self (e_key e) = v) as Hrv by (unfold read; by rewrite E). rewrite Hrv in *.
    destruct (saturating_sub v (e_last_count e) =? 0) eqn:E0; bool_solve.
    + rewrite delete_insert_eq. split; [by apply map_Forall_delete|].
      intros cid. apply Hrd; [by apply map_Forall_delete|..].
      * intros k Hk. by apply lookup_delete_ne.
      * unfold read. rewrite lookup_delete_eq, E0. done.
    + assert (ok (<[e_key e:=saturating_sub v (e_last_count e)]> self)) as Hok'.
      { apply map_Forall_insert_2; [|done]. unfold saturating_sub in *. lia. }
      split; [done|]. intros cid. apply Hrd; [done|..].
      * intros k Hk. by apply lookup_insert_ne.
      * unfold read. by rewrite lookup_insert_eq.
  - split; [done|]. intros cid. case_bool_decide; [|apply Hsame]. subst cid.
    unfold read. rewrite E. simpl. unfold saturating_sub. lia.
Qed.

(** ** The contract holds *)
Lemma apply_deltas_ok self rows :
  ok self → deltas_ok rows →
  ∃ self', for_each (zrange 0 (zlen rows)) self (apply_delta (DeltaSink.of_rows rows)) = Some self' ∧
    ok self' ∧ ∀ cid, read self' cid = saturating_add 64 (read self cid) (local_deltas rows cid).
Proof.
  intros Hok Hrows.
  apply (for_each_index rows self _ (λ pre s, ok s ∧ ∀ cid, read s cid = saturating_add 64 (read self cid) (local_deltas pre cid))).
  { split; [done|]. intros cid. pose proof (ok_read self cid Hok).
    unfold saturating_add, U64_MAX in *. simpl. lia. }
  intros pre d suf s -> [Hs Hr]. apply Forall_app in Hrows as [Hpre [Hd _]%Forall_cons].
  destruct (apply_delta_row (pre ++ d :: suf) s (zlen pre) d) as (s' & He & Hs' & Hr'); [|done|done|].
  { unfold zlen. by rewrite zget_nat, list_lookup_middle. }
  exists s'. split; [done|]. split; [done|]. intros cid. rewrite Hr', Hr, local_deltas_snoc.
  pose proof (local_deltas_nonneg pre cid Hpre).
  pose proof (local_deltas_nonneg [d] cid (proj2 (Forall_singleton _ _) Hd)).
  pose proof (ok_read self cid Hok). unfold saturating_add, U64_MAX in *. lia.
Qed.

Lemma apply_expirations_ok self rows :
  ok self → expirations_ok rows →
  ∃ self', for_each (zrange 0 (zlen rows)) self (apply_expiration (ExpirationSink.of_rows rows)) = Some self' ∧
    ok self' ∧ ∀ cid, read self' cid = saturating_sub (read self cid) (local_expirations rows cid).
Proof.
  intros Hok Hrows.
  apply (for_each_index rows self _ (λ pre s, ok s ∧ ∀ cid, read s cid = saturating_sub (read self cid) (local_expirations pre cid))).
  { split; [done|]. intros cid. pose proof (ok_read self cid Hok). unfold saturating_sub. simpl. lia. }
  intros pre e suf s -> [Hs Hr]. apply Forall_app in Hrows as [Hpre [He _]%Forall_cons].
  destruct (apply_expiration_row (pre ++ e :: suf) s (zlen pre) e) as (s' & Hx & Hs' & Hr'); [|done|done|].
  { unfold zlen. by rewrite zget_nat, list_lookup_middle. }
  exists s'. split; [done|]. split; [done|]. intros cid. rewrite Hr', Hr, local_expirations_snoc.
  pose proof (local_expirations_nonneg pre cid Hpre).
  pose proof (local_expirations_nonneg [e] cid (proj2 (Forall_singleton _ _) He)).
  unfold saturating_sub. lia.
Qed.

Lemma dashmap_apply_ok self ds es :
  ok self → deltas_ok ds → expirations_ok es →
  ∃ self', apply self (DeltaSink.of_rows ds) (ExpirationSink.of_rows es) = Some self' ∧ ok self' ∧
    ∀ cid, read self' cid =
      saturating_sub (saturating_add 64 (read self cid) (local_deltas ds cid)) (local_expirations es cid).
Proof.
  intros Hok Hds Hes. unfold apply. rewrite DeltaSink.delta_len_of_rows, ExpirationSink.exp_len_of_rows.
  destruct (apply_deltas_ok self ds Hok Hds) as (s1 & -> & Hs1 & Hr1). cbn [mbind option_bind].
  destruct (apply_expirations_ok s1 es Hs1 Hes) as (s2 & -> & Hs2 & Hr2).
  exists s2. split; [done|]. split; [done|]. intros cid. by rewrite Hr2, Hr1.
Qed.

#[export] Instance aggregate : AggregateStore t := { agg_apply := apply; agg_read := read }.
#[export] Instance aggregate_laws : AggregateLaws t :=
  { agg_ok := ok; agg_ok_read := ok_read; agg_apply_spec := dashmap_apply_ok }.

(** ** The window *)
Lemma sum_window_spec self fp kh current n : ∀ offset total,
  ok self → 0 ≤ offset → 0 ≤ total ≤ U64_MAX →
  let cnt b := read self {| Types.rule_fingerprint := fp; key_hash := kh; bucket := b |} in
  sum_window self fp kh current offset n total =
    saturating_add 64 total
      (bucket_sum cnt (Z.max 0 (current - offset - Z.of_nat n + 1)) (current - offset)).
Proof.
  induction n as [|n IH]; intros offset total Hok Hoff Htot cnt; cbn [sum_window].
  { rewrite bucket_sum_empty by lia. unfold saturating_add, U64_MAX in *. lia. }
  destruct (current <? offset) eqn:E; bool_solve.
  { rewrite bucket_sum_empty by lia. unfold saturating_add, U64_MAX in *. lia. }
  set (cid := {| Types.rule_fingerprint := fp; key_hash := kh; bucket := current - offset |}).
  pose proof (ok_read self cid Hok) as Hr.
  assert ((match self !! cid with Some v => saturating_add 64 total v | None => total end) =
          saturating_add 64 total (cnt (current - offset))) as ->.
  { unfold cnt, read. fold cid. destruct (self !! cid); simpl; [done|].
    unfold saturating_add, U64_MAX in *. lia. }
  change (0 ≤ cnt (current - offset) ≤ U64_MAX) in Hr.
  rewrite IH; [|done|lia|by clearbody cnt; unfold saturating_add, U64_MAX in *; lia]. fold cnt.
  assert (∀ b, 0 ≤ cnt b) as Hc by (intros b; apply (ok_read self _ Hok)).
  rewrite (bucket_sum_split cnt _ (current - offset - 1) (current - offset)) by lia.
  replace (current - offset - 1 + 1) with (current - offset) by lia.
  rewrite (bucket_sum_first cnt (current - offset) (current - offset)),
    (bucket_sum_empty cnt (current - offset + 1)) by lia.
  replace (current - (offset + 1)) with (current - offset - 1) by lia.
  replace (current - offset - 1 - Z.of_nat n + 1) with (current - offset - Z.of_nat (S n) + 1) by lia.
  pose proof (bucket_sum_nonneg cnt (Z.max 0 (current - offset - Z.of_nat (S n) + 1)) (current - offset - 1) Hc).
  clearbody cnt. unfold saturating_add, U64_MAX in *. lia.
Qed.
End DashMapStore.
