(* ===== verification/Mirror.v ===== *)
(** * From the replicated counters to the aggregate store

    The cell store reports what changes on two channels; whatever implements
    [AggregateStore] absorbs the rows of the rules this process enforces.
    These lemmas connect the two through the interface only: as long as every
    row is applied, an aggregate store reads, for every identity of an
    enforced rule, the sum of that identity's counts over all origins. *)

From S2P Require Import Prelude Types Hash Index Freelist Dictionary DirtyRing PeerFrontier IO CellStore CellSlots CellInv CellOps CellMerge CellExpire GossipFrame CellTyped DashMap.
Import CellStore.

(** ** Registering the configured rules

    What both adapters do before the event loop starts: [intern_rule] for each
    configured rule, on a fresh store. *)
Fixpoint register (self : t) (ds : list RuleDescriptor) : option (option t) :=
  match ds with
  | [] => Some (Some self)
  | d :: ds =>
    '(self, slot) ← intern_rule self d;
    match slot with Some _ => register self ds | None => Some None end
  end.

Definition fingerprints (ds : list RuleDescriptor) : gset Z := list_to_set (fingerprint <$> ds).

Section register.
Context {C : Count} {CL : CountLaws C}.

Lemma enforced_register Mr Mr' pins pins' L slot d :
  enforced (Some L) Mr pins → applies_locally d = true → pins ⊆ pins' →
  Mr' = <[slot := d]> Mr → (Mr !! slot = None → slot ∈ pins') →
  (∀ s d', Mr !! s = Some d' → fingerprint d' = fingerprint d → s = slot) →
  (∀ d', Mr !! slot = Some d' → fingerprint d' = fingerprint d ∧ fingerprint d ∈ L) →
  enforced (Some ({[ fingerprint d ]} ∪ L)) Mr' pins'.
Proof using.
  intros [Hp Hf] Hd Hpins -> Hnew Huniq Hold. split.
  - intros fp. destruct (decide (fp = fingerprint d)) as [->|Hne].
    + intros _. exists slot, d. rewrite lookup_insert_eq. split_and!; try done.
      destruct (Mr !! slot) as [d0|] eqn:E; [|by apply Hnew].
      destruct (Hold d0 eq_refl) as [Hfp (s & d1 & Hs & Hd1 & Hf1)%Hp].
      rewrite <- (Huniq s d1 Hd1 Hf1). by apply Hpins.
    + intros [?%elem_of_singleton|(s & d1 & Hs & Hd1 & Hf1)%Hp]%elem_of_union; [done|].
      exists s, d1. split; [by apply Hpins|]. split; [|done]. rewrite lookup_insert_ne; [done|].
      intros <-. destruct (Hold d1 Hd1). congruence.
  - intros s d' [[<- <-]|[Hne Hd']]%lookup_insert_Some.
    + rewrite Hd. symmetry. apply bool_decide_true. by apply elem_of_union_l, elem_of_singleton.
    + rewrite (Hf s d' Hd'). apply bool_decide_ext. rewrite elem_of_union, elem_of_singleton.
      split; [tauto|]. intros [Heq|?]; [|done]. by destruct Hne; rewrite (Huniq s d' Hd' Heq).
Qed.

(** The state during registration: only configured rules are interned. *)
Definition registering (L : gset Z) (self : t) : Prop :=
  ∃ A Mr Mn pins, inv_at self A Mr Mn pins ∅ ∧ enforced (Some L) Mr pins ∧
    ∀ s d, Mr !! s = Some d → fingerprint d ∈ L.

Lemma register_ok ds : ∀ L self,
  registering L self → Forall (λ d, applies_locally d = true) ds →
  ∃ r, register self ds = Some r ∧
    ∀ self', r = Some self' → registering (fingerprints ds ∪ L) self' ∧ stable self self' ∧
      ∀ K, cols_typed K self → cols_typed K self'.
Proof using.
  induction ds as [|d ds IH]; intros L self Hr Hall; cbn [register].
  { eexists. split; [done|]. intros self' [= <-]. split; [|done]. unfold fingerprints. simpl.
    by rewrite union_empty_l_L. }
  apply Forall_cons in Hall as [Hd Hall]. destruct Hr as (A & Mr & Mn & pins & Hi & Henf & Hmr).
  destruct (intern_rule_ok self A Mr Mn pins ∅ d Hi)
    as (self1 & r & Mr' & pins' & He & Hst & Hi' & Hpins & Hr). rewrite He. cbn [mbind option_bind].
  destruct r as [slot|]; [|by eexists]. destruct Hr as (-> & Hnew & _ & _ & Huniq & Hold).
  destruct (IH ({[ fingerprint d ]} ∪ L) self1) as (r & -> & Hr); [|done|].
  { exists A, (<[slot := d]> Mr), Mn, pins'. split; [done|]. split.
    - eapply enforced_register; try done. intros d' Hd'. split; [by apply Hold|].
      rewrite <- (Hold d' Hd'). by eapply Hmr.
    - intros s d' [[_ <-]|[_ Hd']]%lookup_insert_Some; [by apply elem_of_union_l, elem_of_singleton|].
      apply elem_of_union_r. by eapply Hmr. }
  exists r. split; [done|]. intros self' ->. destruct (Hr self' eq_refl) as (Hreg & Hst' & Hty).
  split; [|split; [by etrans|intros K Hc; apply Hty; by eapply intern_rule_typed]].
  replace (fingerprints (d :: ds) ∪ L) with (fingerprints ds ∪ ({[ fingerprint d ]} ∪ L)); [done|].
  unfold fingerprints. cbn [fmap list_fmap list_to_set].
  by rewrite (union_comm_L {[ fingerprint d ]} (list_to_set _)), union_assoc_L.
Qed.

Lemma registering_inv L self : registering L self → inv_on (Some L) self ∅.
Proof using. intros (A & Mr & Mn & pins & ? & ? & _). by exists A, Mr, Mn, pins. Qed.

(** A node's store as both adapters build it. *)
Lemma new_register_ok config id ds :
  config_ok config → Forall (λ d, applies_locally d = true) ds →
  ∃ self r, new config id = Some self ∧ register self ds = Some r ∧
    ∀ self', r = Some self' → inv_on (Some (fingerprints ds)) self' ∅ ∧ cols_typed (peer_capacity config) self' ∧
      stable self self' ∧ local_identity self = id.
Proof using CL.
  intros Hcfg Hall. destruct (store_new_ok config id Hcfg) as (self & Mn & Hn & Hi & Hid & _).
  destruct (register_ok ds ∅ self) as (r & Hr & Hok); [|done|].
  { exists ∅, ∅, Mn, ∅. split; [done|]. split; [|by intros ? ? ?%lookup_empty_Some].
    split; [by intros fp ?%elem_of_empty|by intros ? ? ?%lookup_empty_Some]. }
  exists self, r. split; [done|]. split; [done|]. intros self' ->.
  destruct (Hok self' eq_refl) as (Hreg & Hst & Hty). rewrite union_empty_r_L in Hreg.
  split; [by apply registering_inv|]. split; [|done]. apply Hty. by eapply new_typed.
Qed.
End register.

(** ** The rows a channel contributes *)
Section rows.
Context {C : Count} {CL : CountLaws C} (L : gset Z).

Lemma delta_rows_ok ds : Forall (delta_ok (Some L)) ds → deltas_ok ds.
Proof using CL.
  intros Hf. eapply Forall_impl; [exact Hf|]. intros d [? _]. pose proof count_MAX_bounds. unfold U64_MAX in *. lia.
Qed.
Lemma expiration_rows_ok es : Forall (expiration_ok (Some L)) es → expirations_ok es.
Proof using CL.
  intros Hf. eapply Forall_impl; [exact Hf|]. intros e [? _]. pose proof count_MAX_bounds. unfold U64_MAX in *. lia.
Qed.

Lemma local_deltas_total ds cid :
  Forall (delta_ok (Some L)) ds →
  local_deltas ds cid = if decide (rule_fingerprint cid ∈ L) then delta_total ds cid else 0.
Proof using.
  induction 1 as [|d ds [_ Hf] _ IH]; simpl; [by case_decide|].
  simpl in Hf. rewrite Hf. destruct (decide (d_key d = cid)) as [<-|Hne].
  - rewrite (bool_decide_true (d_key d = d_key d)) by done.
    rewrite IH. case_bool_decide; case_decide; try done.
  - rewrite (bool_decide_false (d_key d = cid)), andb_false_r by done. done.
Qed.

Lemma local_expirations_total es cid :
  Forall (expiration_ok (Some L)) es →
  local_expirations es cid =
    if decide (rule_fingerprint cid ∈ L) then expiration_total es cid else 0.
Proof using.
  induction 1 as [|e es [_ Hf] _ IH]; simpl; [by case_decide|].
  simpl in Hf. rewrite Hf. destruct (decide (e_key e = cid)) as [<-|Hne].
  - rewrite (bool_decide_true (e_key e = e_key e)) by done.
    rewrite IH. case_bool_decide; case_decide; try done.
  - rewrite (bool_decide_false (e_key e = cid)), andb_false_r by done. done.
Qed.
End rows.

(** ** Totals fit *)
Lemma total_nonneg V cid : (∀ n c, V !! n = Some c → 0 ≤ c) → 0 ≤ total V cid.
Proof.
  induction V as [|n c V Hn IH] using map_ind; intros HV; [done|].
  rewrite total_insert_new by done.
  assert (0 ≤ c) by (apply (HV n), lookup_insert_eq).
  assert (0 ≤ total V cid); [|case_decide; lia].
  apply IH. intros m d Hm. apply (HV m). rewrite lookup_insert_ne; [done|congruence].
Qed.

Lemma total_le V cid m :
  0 ≤ m → (∀ n c, V !! n = Some c → 0 ≤ c ≤ m) → total V cid ≤ Z.of_nat (size V) * m.
Proof.
  intros Hm. induction V as [|n c V Hn IH] using map_ind; intros HV; [done|].
  rewrite total_insert_new, map_size_insert_None by done.
  assert (0 ≤ c ≤ m) by (apply (HV n), lookup_insert_eq).
  assert (total V cid ≤ Z.of_nat (size V) * m); [|case_decide; lia].
  apply IH. intros n' d Hd. apply (HV n'). rewrite lookup_insert_ne; [done|congruence].
Qed.

(** A cell per name: the contents are no larger than the store. *)
Lemma contents_size {C : Count} self V : inv self V → Z.of_nat (size V) ≤ capacity self.
Proof.
  intros (A & Mr & Mn & pins & Hi). pose proof (iv_contents _ _ _ _ _ _ Hi) as HV.
  set (name := λ s, k ← A !! s; dr ← Mr !! ck_rule k; dn ← Mn !! ck_origin k;
                    Some (name_of dr dn k)).
  assert ((Some <$> (map_to_list V).*1) ⊆+ (name <$> elements (dom A))) as Hsub.
  { apply NoDup_submseteq.
    - apply NoDup_fmap_2; [apply _|]. apply NoDup_fst_map_to_list.
    - intros x (n & -> & ([n' c] & -> & Hn%elem_of_map_to_list)%list_elem_of_fmap)%list_elem_of_fmap.
      apply HV in Hn as (s & k & dr & dn & Hk & Hdr & Hdn & -> & _). apply list_elem_of_fmap.
      exists s. split; [|apply elem_of_elements, elem_of_dom; eauto].
      unfold name. rewrite Hk. cbn [mbind option_bind]. rewrite Hdr. cbn [mbind option_bind].
      by rewrite Hdn. }
  apply submseteq_length in Hsub. rewrite !length_fmap, length_map_to_list in Hsub.
  pose proof (rows_inv_range _ _ (iv_rows _ _ _ _ _ _ Hi)) as Hr.
  pose proof (si_cap _ _ (iv_slots _ _ _ _ _ _ Hi)).
  assert (Z.of_nat (size A) ≤ capacity self) by (apply size_le_range; [lia|exact Hr]).
  change (length (elements (dom A))) with (size (dom A)) in Hsub. rewrite size_dom in Hsub. lia.
Qed.

(** Counters of 16 and 32 bits: no total can overflow. *)
Definition narrow `{C : Count} : Prop := count_MAX ≤ U32_MAX.

Lemma total_fits {C : Count} {CL : CountLaws C} self V cid :
  narrow → inv self V → 0 ≤ total V cid ≤ U64_MAX.
Proof.
  intros Hw Hi. pose proof (contents_size _ _ Hi) as Hs. pose proof Hi as (A & Mr & Mn & pins & Hat).
  pose proof (si_cap _ _ (iv_slots _ _ _ _ _ _ Hat)) as Hcap. pose proof count_MAX_bounds as Hb.
  assert (∀ n c, V !! n = Some c → 0 ≤ c ≤ count_MAX) as HV by (intros n c; by apply (inv_counts self)).
  split; [apply total_nonneg; intros n c Hn; by apply (HV n)|].
  etrans; [apply (total_le V cid count_MAX); [lia|done]|].
  unfold narrow, U32_MAX, U64_MAX in *. nia.
Qed.

(** ** The mirror *)
Section mirror.
Context {C : Count} {CL : CountLaws C} (Hw : narrow).
Context {S : Type} `{AggregateLaws S} (L : gset Z).

(** [s] reads the totals of the enforced rules and nothing else. *)
Definition mirrors (s : S) (V : gmap CellName Z) : Prop :=
  agg_ok s ∧
  ∀ cid, agg_read s cid = if decide (rule_fingerprint cid ∈ L) then total V cid else 0.

(** Applying what both channels report keeps it. *)
Lemma mirrors_apply s self V self1 V1 self2 V2 ds es :
  mirrors s V → inv self V → inv self1 V1 → inv self2 V2 →
  Forall (delta_ok (Some L)) ds → (∀ cid, total V1 cid = total V cid + delta_total ds cid) →
  Forall (expiration_ok (Some L)) es → (∀ cid, total V2 cid = total V1 cid - expiration_total es cid) →
  ∃ s', agg_apply s (DeltaSink.of_rows ds) (ExpirationSink.of_rows es) = Some s' ∧ mirrors s' V2.
Proof using CL Hw.
  intros [Hok Hr] Hi Hi1 Hi2 Hds Htot1 Hes Htot2.
  destruct (agg_apply_spec s ds es Hok) as (s' & Ha & Hok' & Hr');
    [by eapply delta_rows_ok|by eapply expiration_rows_ok|].
  exists s'. split; [done|]. split; [done|]. intros cid.
  rewrite Hr', Hr, (local_deltas_total L ds cid Hds), (local_expirations_total L es cid Hes).
  pose proof (total_fits self V cid Hw Hi). pose proof (total_fits self1 V1 cid Hw Hi1).
  pose proof (total_fits self2 V2 cid Hw Hi2). specialize (Htot1 cid). specialize (Htot2 cid).
  unfold saturating_add, saturating_sub, U64_MAX in *. case_decide; lia.
Qed.
End mirror.
