(* ===== verification/Limiter.v ===== *)
(** * The gRPC adapter's admission path

    [crates/server/src/admission.rs] and [crates/server/src/lib.rs]: the
    cardinality envelope, the two-pass evaluation of one descriptor, and the
    response to an Envoy request.  The world [W] holds the counts and the gossip
    runtime; [record] is the call into the gossip client, which returns once the
    runtime has applied the hit (or [false] when the runtime is gone).  The
    [tracing] lines are left out; the counters that pace them are kept. *)

From stdpp Require Import strings.
From S2P Require Import Prelude Types Bytes Str IO Window Rules DashMap.

Definition STORAGE_MAX_DESCRIPTOR_COUNT : Z := 16.
Definition STORAGE_MAX_DESCRIPTOR_BYTES : Z := 512.
Definition STORAGE_MAX_KEY_BYTES : Z := 128.
Definition STORAGE_MAX_MATCHED_RULES : Z := 16.
Definition MAX_DESCRIPTORS : Z := STORAGE_MAX_DESCRIPTOR_COUNT.
Definition MAX_MATCHED_RULES : Z := STORAGE_MAX_MATCHED_RULES.

Inductive RejectReason := GlobalLimit | Cardinality.
Record RejectContext := { rc_limit : Z; rc_remaining : Z; rc_duration_until_reset_millis : Z }.
Record QuotaContext := { qc_limit : Z; qc_remaining : Z; qc_duration_until_reset_millis : Z }.
Inductive Decision :=
  | Allow (ctx : option QuotaContext)
  | Reject (reason : RejectReason) (ctx : option RejectContext).

Definition is_reject (self : Decision) : bool := match self with Reject _ _ => true | _ => false end.

Record CardinalityLimits := {
  max_descriptor_count : Z;
  max_descriptor_bytes : Z;
  max_key_bytes : Z;
}.
Definition CardinalityLimits_default : CardinalityLimits := {|
  max_descriptor_count := STORAGE_MAX_DESCRIPTOR_COUNT;
  max_descriptor_bytes := STORAGE_MAX_DESCRIPTOR_BYTES;
  max_key_bytes := STORAGE_MAX_KEY_BYTES;
|}.

Record LimitRequest := {
  lr_domain : str;
  lr_descriptors : list Descriptor;
  lr_hits : Z;
}.

(** [str::len] is the length of the UTF-8 encoding. *)
Definition str_len (s : str) : Z := zlen (str_bytes s).

Fixpoint descriptors_violate (limits : CardinalityLimits) (ds : list Descriptor) (bytes : Z) : bool :=
  match ds with
  | [] => false
  | d :: ds =>
    if max_key_bytes limits <? str_len (desc_key d) then true else
    let bytes := saturating_add 64 (saturating_add 64 bytes (str_len (desc_key d)))
                   (str_len (desc_value d)) in
    if max_descriptor_bytes limits <? bytes then true else
    descriptors_violate limits ds bytes
  end.
Definition violates_cardinality (self : LimitRequest) (limits : CardinalityLimits) : bool :=
  if max_descriptor_count limits <? zlen (lr_descriptors self) then true else
  descriptors_violate limits (lr_descriptors self) (str_len (lr_domain self)).

(** Ties keep the current pick. *)
Definition pick_min_remaining_ctx (current : option QuotaContext) (candidate : QuotaContext) :
    QuotaContext :=
  match current with
  | Some c => if qc_remaining c <=? qc_remaining candidate then c else candidate
  | None => candidate
  end.

(** One call of [GossipClient::record]. *)
Record RecordCall := {
  rec_fingerprint : Z;
  rec_key_hash : KeyHash;
  rec_bucket : Z;
  rec_hits : Z;
  rec_limit : Z;
  rec_now_millis : Z;
}.

(** The static counters that pace the operator warnings. *)
Record Notes := {
  cardinality_rejects : Z;
  gossip_record_failures : Z;
  matched_rule_overflows : Z;
}.
#[export] Instance eta_Notes : Eta Notes := λ x,
  {| cardinality_rejects := cardinality_rejects x; gossip_record_failures := gossip_record_failures x;
     matched_rule_overflows := matched_rule_overflows x |}.

(** [fetch_add] wraps; the [+ 1] on its result only decides whether to log. *)
Definition note_cardinality_reject (n : Notes) : Notes :=
  n <| cardinality_rejects := wrapping_add 64 (cardinality_rejects n) 1 |>.
Definition note_gossip_record_failure (n : Notes) : Notes :=
  n <| gossip_record_failures := wrapping_add 64 (gossip_record_failures n) 1 |>.
Definition note_matched_overflow (n : Notes) : Notes :=
  n <| matched_rule_overflows := wrapping_add 64 (matched_rule_overflows n) 1 |>.

(** ** Envoy messages: the fields the adapter reads and writes *)
Record Entry := { entry_key : str; entry_value : str }.
Record RateLimitRequest := {
  req_domain : str;
  req_descriptors : list (list Entry);
  hits_addend : Z;
}.
Inductive Code := OK | OverLimit.
Record DescriptorStatus := {
  code : Code;
  status_limit_remaining : Z;
  duration_until_reset : option (Z * Z);
}.
Record RateLimitResponse := {
  overall_code : Code;
  statuses : list DescriptorStatus;
}.

Definition code_for_decision (d : Decision) : Code := if is_reject d then OverLimit else OK.

Definition duration_from_millis (millis : Z) : Z * Z :=
  (millis / 1000, millis mod 1000 * 1000000).

(** [u32::try_from(..).unwrap_or(u32::MAX)] *)
Definition clamp_u32 (z : Z) : Z := if z <=? U32_MAX then z else U32_MAX.

Definition descriptor_status_for (d : Decision) : DescriptorStatus :=
  let c := code_for_decision d in
  match d with
  | Reject _ (Some ctx) =>
    {| code := c; status_limit_remaining := clamp_u32 (rc_remaining ctx);
       duration_until_reset := Some (duration_from_millis (rc_duration_until_reset_millis ctx)) |}
  | Allow (Some ctx) =>
    {| code := c; status_limit_remaining := clamp_u32 (qc_remaining ctx);
       duration_until_reset := Some (duration_from_millis (qc_duration_until_reset_millis ctx)) |}
  | _ => {| code := c; status_limit_remaining := 0; duration_until_reset := None |}
  end.

Definition response_from_decisions (decisions : list Decision) : RateLimitResponse :=
  let over_limit := existsb is_reject decisions in
  {| overall_code := if over_limit then OverLimit else OK;
     statuses := descriptor_status_for <$> decisions |}.

(** [mapped] is cleared first and filled up to the cap. *)
Fixpoint map_entries (entries : list Entry) (mapped : list Descriptor) :
    list Descriptor + RejectReason :=
  match entries with
  | [] => Ok mapped
  | entry :: entries =>
    if zlen mapped =? MAX_DESCRIPTORS then Err Cardinality else
    map_entries entries
      (mapped ++ [{| desc_key := entry_key entry; desc_value := entry_value entry |}])
  end.
Definition map_envoy_descriptor (entries : list Entry) : list Descriptor + RejectReason :=
  map_entries entries [].

Section limiter.
Context {W : Type} (counts : W → DashMapStore.t) (record : W → RecordCall → W * bool).
Context (xxh3 : list Z → Z) (rule_table : list Rule) (cardinality_limits : CardinalityLimits).

(** Pass 1 over the matching rules: a rejection, or the planned records and the
    tightest quota; the outer [None] is a division by zero. *)
Inductive Pass1 :=
  | Rejected (d : Decision)
  | Planned (planned : list (RuleSpec * KeyHash * Z)) (tightest : option QuotaContext) (n : Notes).

Fixpoint plan_rules (cs : DashMapStore.t) (request : LimitRequest) (now_millis : Z)
    (rules : list Rule) (planned : list (RuleSpec * KeyHash * Z)) (tightest : option QuotaContext)
    (notes : Notes) : option Pass1 :=
  match rules with
  | [] => Some (Planned planned tightest notes)
  | rule :: rules =>
    let spec := spec rule in
    let key_hash := hash_key xxh3 (rule_id rule) (lr_domain request) (lr_descriptors request) in
    total ← DashMapStore.window_total cs (spec_fingerprint spec) key_hash now_millis
              (spec_bucket_millis spec) (spec_live_buckets spec);
    if (spec_limit spec <? saturating_add 64 total (lr_hits request)) &&
       bool_decide (mode rule = Enforce) then
      d ← DashMapStore.time_until_admit_millis cs spec key_hash now_millis total (lr_hits request);
      Some (Rejected (Reject GlobalLimit (Some
        {| rc_limit := spec_limit spec; rc_remaining := limit_remaining (spec_limit spec) total;
           rc_duration_until_reset_millis := d |})))
    else
      let remaining := saturating_sub (saturating_sub (spec_limit spec) total) (lr_hits request) in
      let candidate := {| qc_limit := spec_limit spec; qc_remaining := remaining;
        qc_duration_until_reset_millis :=
          time_until_next_bucket_boundary_millis now_millis (spec_bucket_millis spec) |} in
      let tightest := Some (pick_min_remaining_ctx tightest candidate) in
      let bucket := as_u32 (now_millis / spec_bucket_millis spec) in
      if MAX_MATCHED_RULES <=? zlen planned then
        Some (Planned planned tightest (note_matched_overflow notes))
      else plan_rules cs request now_millis rules (planned ++ [(spec, key_hash, bucket)]) tightest notes
  end.

Definition call_of (request : LimitRequest) (now_millis : Z) (p : RuleSpec * KeyHash * Z) : RecordCall :=
  let '(spec, key_hash, bucket) := p in
  {| rec_fingerprint := spec_fingerprint spec; rec_key_hash := key_hash; rec_bucket := bucket;
     rec_hits := lr_hits request; rec_limit := spec_limit spec; rec_now_millis := now_millis |}.

(** Pass 2: replay; a failure is noted and the loop goes on. *)
Fixpoint record_all (w : W) (notes : Notes) (calls : list RecordCall) : W * Notes :=
  match calls with
  | [] => (w, notes)
  | c :: calls =>
    let '(w, ok) := record w c in
    record_all w (if (ok : bool) then notes else note_gossip_record_failure notes) calls
  end.

Definition evaluate (w : W) (notes : Notes) (request : LimitRequest) (now_millis : Z) :
    option (W * Notes * Decision) :=
  if violates_cardinality request cardinality_limits then
    Some (w, note_cardinality_reject notes, Reject Cardinality None)
  else
  p ← plan_rules (counts w) request now_millis
        (matching xxh3 rule_table (lr_domain request) (lr_descriptors request)) [] None notes;
  match p with
  | Rejected d => Some (w, notes, d)
  | Planned planned tightest notes =>
    let '(w, notes) := record_all w notes (call_of request now_millis <$> planned) in
    Some (w, notes, Allow tightest)
  end.

Fixpoint decide_all (w : W) (notes : Notes) (request : RateLimitRequest) (now_millis hits idx : Z)
    (ds : list (list Entry)) : option (W * Notes * list Decision) :=
  match ds with
  | [] => Some (w, notes, [])
  | entries :: ds =>
    '(w, notes, decision) ←
      (if MAX_DESCRIPTORS <=? idx then Some (w, notes, Reject Cardinality None) else
       match map_envoy_descriptor entries with
       | inl mapped =>
         evaluate w notes {| lr_domain := req_domain request; lr_descriptors := mapped;
                             lr_hits := hits |} now_millis
       | inr reason => Some (w, notes, Reject reason None)
       end);
    '(w, notes, decisions) ← decide_all w notes request now_millis hits (idx + 1) ds;
    Some (w, notes, decision :: decisions)
  end.

(** The statuses are pushed and [over_limit] accumulated as the loop runs. *)
Definition should_rate_limit_at (w : W) (notes : Notes) (request : RateLimitRequest)
    (now_millis : Z) : option (W * Notes * RateLimitResponse) :=
  let hits := Z.max (hits_addend request) 1 in
  '(w, notes, decisions) ← decide_all w notes request now_millis hits 0 (req_descriptors request);
  let over_limit := foldl (λ b d, b || is_reject d) false decisions in
  Some (w, notes, {| overall_code := if over_limit then OverLimit else OK;
                     statuses := descriptor_status_for <$> decisions |}).
End limiter.

(** ** The decision *)
Section decision.
Context {W : Type} (counts : W → DashMapStore.t) (record : W → RecordCall → W * bool).
Context (xxh3 : list Z → Z) (rule_table : list Rule) (limits : CardinalityLimits).
Implicit Types (cs : DashMapStore.t) (request : LimitRequest) (r : Rule).

(** Rules as [Rule::new] makes them have a positive bucket length. *)
Definition buckets_ok (rules : list Rule) : Prop := Forall (λ r, 1 ≤ rule_bucket_millis r) rules.

Definition key_of (request : LimitRequest) (r : Rule) : KeyHash :=
  hash_key xxh3 (rule_id r) (lr_domain request) (lr_descriptors request).
Definition count_in (cs : DashMapStore.t) (request : LimitRequest) (r : Rule) (b : Z) : Z :=
  DashMapStore.read cs {| Types.rule_fingerprint := rule_fp r; key_hash := key_of request r; bucket := b |}.
Definition total_of (cs : DashMapStore.t) (request : LimitRequest) (now : Z) (r : Rule) : Z :=
  DashMapStore.sum_window cs (rule_fp r) (key_of request r) (as_u32 (now / rule_bucket_millis r)) 0
    (Z.to_nat (rule_live_buckets r)) 0.

(** The rule refuses the request. *)
Definition over (cs : DashMapStore.t) (request : LimitRequest) (now : Z) (r : Rule) : Prop :=
  mode r = Enforce ∧ limit r < saturating_add 64 (total_of cs request now r) (lr_hits request).
#[export] Instance over_dec cs request now r : base.Decision (over cs request now r).
Proof. unfold over. apply _. Defined.

Definition remaining_of (cs : DashMapStore.t) (request : LimitRequest) (now : Z) (r : Rule) : Z :=
  saturating_sub (saturating_sub (limit r) (total_of cs request now r)) (lr_hits request).

Definition plan_of (request : LimitRequest) (now : Z) (r : Rule) : RuleSpec * KeyHash * Z :=
  (spec r, key_of request r, as_u32 (now / rule_bucket_millis r)).
Definition quota_of (cs : DashMapStore.t) (request : LimitRequest) (now : Z) (r : Rule) : QuotaContext :=
  {| qc_limit := limit r; qc_remaining := remaining_of cs request now r;
     qc_duration_until_reset_millis :=
       time_until_next_bucket_boundary_millis now (rule_bucket_millis r) |}.

(** The context of a rejection by [r]. *)
Definition rejects_with (cs : DashMapStore.t) (request : LimitRequest) (now : Z) (r : Rule)
    (ctx : RejectContext) : Prop :=
  rc_limit ctx = limit r ∧ rc_remaining ctx = limit_remaining (limit r) (total_of cs request now r) ∧
  Window.time_until_admit_millis (count_in cs request r) now (rule_bucket_millis r)
    (rule_live_buckets r) (limit r) (total_of cs request now r) (lr_hits request) =
    Some (rc_duration_until_reset_millis ctx).

(** [t] is the quota of the rule with the least remaining among [rules]. *)
Definition tightest_of (cs : DashMapStore.t) (request : LimitRequest) (now : Z) (rules : list Rule)
    (t : option QuotaContext) : Prop :=
  match t with
  | None => rules = []
  | Some q => (∃ r, r ∈ rules ∧ q = quota_of cs request now r) ∧
              ∀ r, r ∈ rules → qc_remaining q ≤ remaining_of cs request now r
  end.

Lemma tightest_snoc cs request now rules t r :
  tightest_of cs request now rules t →
  tightest_of cs request now (rules ++ [r])
    (Some (pick_min_remaining_ctx t (quota_of cs request now r))).
Proof using.
  unfold tightest_of, pick_min_remaining_ctx. destruct t as [q|]; [|intros ->].
  - intros [(r' & Hr' & Hq) Hmin].
    destruct (qc_remaining q <=? qc_remaining (quota_of cs request now r)) eqn:E; bool_solve;
      cbn [qc_remaining quota_of] in E; (split; [|intros r''; rewrite elem_of_app, list_elem_of_singleton]).
    + exists r'. split; [apply elem_of_app; by left|done].
    + intros [?| ->]; [by apply Hmin|lia].
    + exists r. split; [apply elem_of_app; right; by apply list_elem_of_singleton|done].
    + cbn. intros [H%Hmin| ->]; lia.
  - split; [exists r; split; [by apply list_elem_of_singleton|done]|].
    intros r' ->%list_elem_of_singleton. done.
Qed.

Lemma plan_rules_spec cs request now rules : ∀ seen planned t notes,
  buckets_ok rules → 0 ≤ MAX_MATCHED_RULES - zlen planned →
  tightest_of cs request now seen t →
  let k := Z.to_nat (MAX_MATCHED_RULES - zlen planned) in
  (∃ pre r suf ctx, take (S k) rules = pre ++ r :: suf ∧ Forall (λ r, ¬ over cs request now r) pre ∧
     over cs request now r ∧ rejects_with cs request now r ctx ∧
     plan_rules xxh3 cs request now rules planned t notes =
       Some (Rejected (Reject GlobalLimit (Some ctx)))) ∨
  (Forall (λ r, ¬ over cs request now r) (take (S k) rules) ∧
   ∃ t', tightest_of cs request now (seen ++ take (S k) rules) t' ∧
     plan_rules xxh3 cs request now rules planned t notes =
       Some (Planned (planned ++ (plan_of request now <$> take k rules)) t'
         (if (k <? length rules)%nat then note_matched_overflow notes else notes))).
Proof using.
  induction rules as [|r rules IH]; intros seen planned t notes Hb Hk Ht; cbn zeta.
  { right. rewrite !take_nil. split; [constructor|]. exists t. rewrite !app_nil_r.
    split; [done|]. done. }
  apply Forall_cons in Hb as [Hr Hb]. set (k := Z.to_nat _). cbn [plan_rules].
  unfold DashMapStore.window_total. cbn [spec spec_bucket_millis spec_fingerprint spec_live_buckets spec_limit].
  replace (rule_bucket_millis r =? 0) with false by lia. cbn [mbind option_bind].
  fold (key_of request r). fold (total_of cs request now r).
  destruct (decide (over cs request now r)) as [Ho|Ho].
  - destruct Ho as [Hm Hlim]. rewrite (bool_decide_eq_true_2 _ Hm).
    replace (limit r <? _) with true by lia. cbn [andb].
    unfold DashMapStore.time_until_admit_millis. cbn [spec_bucket_millis spec_fingerprint spec_live_buckets spec_limit].
    fold (count_in cs request r).
    destruct (time_until_admit_defined (count_in cs request r) now (rule_bucket_millis r)
      (rule_live_buckets r) (limit r) (total_of cs request now r) (lr_hits request)) as [d Hd].
    left. exists [], r, (take k rules), {| rc_limit := limit r;
      rc_remaining := limit_remaining (limit r) (total_of cs request now r);
      rc_duration_until_reset_millis := d |}.
    split; [done|]. split; [constructor|]. split; [done|]. split; [done|].
    change (λ b, default 0 _) with (count_in cs request r).
    cbn [spec spec_bucket_millis spec_live_buckets spec_limit]. by rewrite Hd.
  - assert ((limit r <? saturating_add 64 (total_of cs request now r) (lr_hits request)) &&
      bool_decide (mode r = Enforce) = false) as ->.
    { apply andb_false_iff. unfold over in Ho. destruct (decide (mode r = Enforce)) as [Hm|Hm].
      - left. destruct (limit r <? _) eqn:E; [|done]. destruct Ho. split; [done|lia].
      - right. by apply bool_decide_eq_false_2. }
    fold (remaining_of cs request now r). fold (quota_of cs request now r).
    pose proof (tightest_snoc cs request now seen t r Ht) as Ht'.
    destruct (MAX_MATCHED_RULES <=? zlen planned) eqn:E; bool_solve.
    + right. assert (k = 0%nat) as Hk0 by lia. rewrite Hk0. cbn [take]. rewrite take_0.
      split; [by repeat constructor|]. eexists. split; [exact Ht'|]. cbn. by rewrite app_nil_r.
    + assert (k = S (Z.to_nat (MAX_MATCHED_RULES - zlen (planned ++ [plan_of request now r])))) as Hk1.
      { unfold k. rewrite zlen_app. change (zlen [_]) with 1. lia. }
      destruct (IH (seen ++ [r]) (planned ++ [plan_of request now r]) (Some (pick_min_remaining_ctx t (quota_of cs request now r))) notes Hb) as
        [(pre & r' & suf & ctx & Htk & Hpre & Hr' & Hctx & Heq)|(Hall & t' & Hmin & Heq)];
        [rewrite zlen_app; change (zlen [_]) with 1; lia|exact Ht'|..];
        set (k' := Z.to_nat (MAX_MATCHED_RULES - zlen (planned ++ _))) in *;
        clearbody k k'; subst k.
      * left. exists (r :: pre), r', suf, ctx.
        split; [change (take (S (S k')) (r :: rules)) with (r :: take (S k') rules); by rewrite Htk|].
        split; [by constructor|]. done.
      * right. change (take (S (S k')) (r :: rules)) with (r :: take (S k') rules).
        split; [by constructor|]. exists t'.
        rewrite <- app_assoc in Hmin. split; [exact Hmin|]. etrans; [exact Heq|].
        change (take (S k') (r :: rules)) with (r :: take k' rules).
        by rewrite fmap_cons, <- app_assoc.
Qed.
End decision.

Lemma record_all_world {W} (record : W → RecordCall → W * bool) calls : ∀ w notes,
  (record_all record w notes calls).1 = foldl (λ (w : W) (c : RecordCall), (record w c).1) w calls.
Proof.
  induction calls as [|c calls IH]; intros w notes; [done|]. cbn [record_all foldl].
  destruct (record w c) as [w' ok]. apply IH.
Qed.

(** The rules a request is checked against: the first seventeen that match. *)
Definition checked_rules (xxh3 : list Z → Z) (rule_table : list Rule) (request : LimitRequest) :=
  take (S (Z.to_nat MAX_MATCHED_RULES))
    (matching xxh3 rule_table (lr_domain request) (lr_descriptors request)).
Definition recorded_rules (xxh3 : list Z → Z) (rule_table : list Rule) (request : LimitRequest) :=
  take (Z.to_nat MAX_MATCHED_RULES)
    (matching xxh3 rule_table (lr_domain request) (lr_descriptors request)).

Lemma buckets_ok_matching xxh3 rules dom ds :
  buckets_ok rules → buckets_ok (matching xxh3 rules dom ds).
Proof.
  unfold buckets_ok, matching. rewrite !Forall_forall. intros H r Hr.
  apply list_elem_of_In, filter_In in Hr as [Hr _]. by apply H, list_elem_of_In.
Qed.

Lemma evaluate_ok {W} (counts : W → DashMapStore.t) (record : W → RecordCall → W * bool) xxh3 rules limits
    (w : W) notes request now :
  buckets_ok rules → violates_cardinality request limits = false →
  let eval := evaluate counts record xxh3 rules limits w notes request now in
  (∃ pre r suf ctx, checked_rules xxh3 rules request = pre ++ r :: suf ∧
     Forall (λ r, ¬ over xxh3 (counts w) request now r) pre ∧ over xxh3 (counts w) request now r ∧
     rejects_with xxh3 (counts w) request now r ctx ∧
     eval = Some (w, notes, Reject GlobalLimit (Some ctx))) ∨
  (Forall (λ r, ¬ over xxh3 (counts w) request now r) (checked_rules xxh3 rules request) ∧
   ∃ notes' t, tightest_of xxh3 (counts w) request now (checked_rules xxh3 rules request) t ∧
     eval = Some (foldl (λ (w : W) (c : RecordCall), (record w c).1) w
       (call_of request now ∘ plan_of xxh3 request now <$> recorded_rules xxh3 rules request),
       notes', Allow t)).
Proof.
  intros Hb Hv eval. subst eval. unfold evaluate. rewrite Hv.
  destruct (plan_rules_spec xxh3 (counts w) request now
    (matching xxh3 rules (lr_domain request) (lr_descriptors request)) [] [] None notes)
    as [(pre & r & suf & ctx & Ht & Hpre & Hr & Hctx & ->)|(Hall & t & Ht & ->)];
    [by apply buckets_ok_matching|done|done|..]; cbn [mbind option_bind].
  - left. by exists pre, r, suf, ctx.
  - right. split; [exact Hall|]. set (calls := call_of request now <$> _). 
    match goal with |- context [record_all record w ?n _] => set (n0 := n) end.
    pose proof (record_all_world record calls w n0) as Hw.
    destruct (record_all record w n0 calls) as [w' notes'] eqn:E. exists notes', t.
    split; [exact Ht|]. simpl in Hw. rewrite Hw. unfold calls. cbn [app].
    by rewrite <- list_fmap_compose.
Qed.

(** C13: the admission decision.  A request outside the cardinality envelope is
    rejected before anything else.  Otherwise it is rejected exactly when one of
    the matching rules (of the first seventeen) is enforcing and its window total
    plus the request's hits would exceed its limit, and then nothing is recorded;
    else it is allowed, every matching rule (of the first sixteen) records the
    hits once under its fingerprint, the key hash and the current bucket, and the
    reported quota is that of the rule closest to its limit. *)
Theorem evaluate_decides {W} (counts : W → DashMapStore.t) (record : W → RecordCall → W * bool) xxh3 rules limits
    (w : W) notes request now :
  buckets_ok rules →
  (violates_cardinality request limits = true →
   ∃ notes', evaluate counts record xxh3 rules limits w notes request now =
     Some (w, notes', Reject Cardinality None)) ∧
  (violates_cardinality request limits = false →
   (∃ r, r ∈ checked_rules xxh3 rules request ∧ over xxh3 (counts w) request now r) →
   ∃ ctx, evaluate counts record xxh3 rules limits w notes request now =
     Some (w, notes, Reject GlobalLimit (Some ctx))) ∧
  (violates_cardinality request limits = false →
   (∀ r, r ∈ checked_rules xxh3 rules request → ¬ over xxh3 (counts w) request now r) →
   ∃ notes' t, evaluate counts record xxh3 rules limits w notes request now =
     Some (foldl (λ (w : W) (c : RecordCall), (record w c).1) w
       (call_of request now ∘ plan_of xxh3 request now <$> recorded_rules xxh3 rules request),
       notes', Allow t) ∧
     tightest_of xxh3 (counts w) request now (checked_rules xxh3 rules request) t).
Proof.
  intros Hb. split; [|split].
  - intros Hv. unfold evaluate. rewrite Hv. by eexists.
  - intros Hv (r & Hr & Ho).
    destruct (evaluate_ok counts record xxh3 rules limits w notes request now Hb Hv)
      as [(pre & r' & suf & ctx & _ & _ & _ & _ & ->)|(Hall & _)]; [by eexists|].
    rewrite Forall_forall in Hall. by destruct (Hall r Hr).
  - intros Hv Hno.
    destruct (evaluate_ok counts record xxh3 rules limits w notes request now Hb Hv)
      as [(pre & r & suf & ctx & Hc & _ & Ho & _)|(_ & notes' & t & Ht & ->)].
    + destruct (Hno r); [|done]. rewrite Hc. apply elem_of_app. right. apply elem_of_cons. by left.
    + exists notes', t. by split.
Qed.

(** A two-rule limiter whose world is the count table itself. *)
Definition sample_table : list Rule :=
  (λ '(id, d, ps, lim, w, b, m), Rule_new sample_hash id d ps lim w b m) <$> sample_rules.
Definition sample_request : LimitRequest :=
  {| lr_domain := lit "web"; lr_descriptors := sample_ds; lr_hits := 3 |}.
Definition sample_record (w : DashMapStore.t) (c : RecordCall) : DashMapStore.t * bool :=
  let cid := {| Types.rule_fingerprint := rec_fingerprint c; key_hash := rec_key_hash c;
                bucket := rec_bucket c |} in
  (<[cid := saturating_add 64 (DashMapStore.read w cid) (rec_hits c)]> w, true).
(** Bucket [b] of the first rule holds [n] hits of the sample request's key. *)
Definition sample_cell (b : Z) : CellIdentity :=
  {| Types.rule_fingerprint := rule_fingerprint sample_hash (lit "web") sample_ps;
     key_hash := hash_key sample_hash 1 (lit "web") sample_ds; bucket := b |}.
Definition no_notes : Notes :=
  {| cardinality_rejects := 0; gossip_record_failures := 0; matched_rule_overflows := 0 |}.

Lemma sample_table_ok : buckets_ok sample_table.
Proof. apply (bool_decide_unpack _). vm_compute. exact I. Qed.

Lemma evaluate_decides_witness :
  (∃ notes' t, evaluate id sample_record sample_hash sample_table CardinalityLimits_default ∅ no_notes
      sample_request 5000 = Some ({[ sample_cell 5 := 3 ]}, notes', Allow t)) ∧
  (∃ ctx, evaluate id sample_record sample_hash sample_table CardinalityLimits_default
      {[ sample_cell 4 := 98 ]} no_notes sample_request 5000 =
      Some ({[ sample_cell 4 := 98 ]}, no_notes, Reject GlobalLimit (Some ctx))).
Proof.
  split.
  - destruct (evaluate_decides id sample_record sample_hash sample_table CardinalityLimits_default ∅
      no_notes sample_request 5000 sample_table_ok) as (_ & _ & H).
    destruct H as (notes' & t & H & _); [by vm_compute| |exists notes', t; rewrite H; by vm_compute].
    apply Forall_forall, (bool_decide_unpack _). vm_compute. exact I.
  - apply (evaluate_decides id sample_record sample_hash sample_table CardinalityLimits_default
      {[ sample_cell 4 := 98 ]} no_notes sample_request 5000 sample_table_ok); [by vm_compute|].
    apply Exists_exists, (bool_decide_unpack _). vm_compute. exact I.
Defined.

(** ** Rejections report when to come back *)
Definition resettable (cs : DashMapStore.t) xxh3 (request : LimitRequest) (now : Z) (r : Rule) : Prop :=
  let bm := rule_bucket_millis r in
  let current := now / bm in
  let live := rule_live_buckets r in
  0 < bm ∧ 0 < live ≤ U32_MAX ∧ 0 ≤ lr_hits request ≤ limit r ∧ current ≤ U32_MAX ∧
  (current + live) * bm ≤ U64_MAX ∧
  bucket_sum (count_in xxh3 cs request r) (Z.max 0 (current - (live - 1))) current +
    lr_hits request ≤ U64_MAX.

Lemma total_of_sum xxh3 cs request now r :
  DashMapStore.ok cs → 0 ≤ now → resettable cs xxh3 request now r →
  total_of xxh3 cs request now r =
    bucket_sum (count_in xxh3 cs request r)
      (Z.max 0 (now / rule_bucket_millis r - (rule_live_buckets r - 1))) (now / rule_bucket_millis r).
Proof.
  intros Hok Hn (Hbm & Hlive & Hh & Hcur & _ & Hsum). unfold total_of.
  assert (0 ≤ now / rule_bucket_millis r) by (apply Z.div_pos; lia).
  assert (as_u32 (now / rule_bucket_millis r) = now / rule_bucket_millis r) as ->.
  { unfold as_u32, U32_MAX in *. apply Z.mod_small. lia. }
  rewrite DashMapStore.sum_window_spec; [|done|lia|unfold U64_MAX; lia].
  rewrite Z.sub_0_r, Z2Nat.id by lia.
  replace (now / rule_bucket_millis r - rule_live_buckets r + 1)
    with (now / rule_bucket_millis r - (rule_live_buckets r - 1)) by lia.
  fold (count_in xxh3 cs request r).
  match goal with |- saturating_add 64 0 ?x = ?y => change y with x; assert (0 ≤ x) end.
  { apply bucket_sum_nonneg. intros b. apply (DashMapStore.ok_read cs _ Hok). }
  unfold saturating_add, U64_MAX in *. rewrite Z.min_l by lia. lia.
Qed.

(** A rejection's reset time is exact.  When a request is rejected by a rule,
    the reported delay is the first instant at which the counts the node knows
    leave room for the request under that rule's sliding window. *)
Theorem reject_reset_exact {W} (counts : W → DashMapStore.t) (record : W → RecordCall → W * bool)
    xxh3 rules limits (w : W) notes request now w' notes' ctx :
  DashMapStore.ok (counts w) → 0 ≤ now →
  (∀ r, r ∈ rules → resettable (counts w) xxh3 request now r) →
  evaluate counts record xxh3 rules limits w notes request now =
    Some (w', notes', Reject GlobalLimit (Some ctx)) →
  ∃ r, r ∈ checked_rules xxh3 rules request ∧ mode r = Enforce ∧
    let cnt := count_in xxh3 (counts w) request r in
    let bm := rule_bucket_millis r in
    let live := rule_live_buckets r in
    let oldest := Z.max 0 (now / bm - (live - 1)) in
    let d := rc_duration_until_reset_millis ctx in
    0 < d ∧ in_window cnt bm live oldest (now / bm) (now + d) + lr_hits request ≤ limit r ∧
    ∀ T, now ≤ T < now + d → limit r < in_window cnt bm live oldest (now / bm) T + lr_hits request.
Proof.
  intros Hok Hn Hres Hev.
  assert (buckets_ok rules) as Hb.
  { apply Forall_forall. intros r Hr. destruct (Hres r Hr) as (? & _). lia. }
  destruct (violates_cardinality request limits) eqn:Hv.
  { unfold evaluate in Hev. by rewrite Hv in Hev. }
  destruct (evaluate_ok counts record xxh3 rules limits w notes request now Hb Hv)
    as [(pre & r & suf & ctx' & Hc & _ & [Hm Ho] & (_ & _ & Hd) & He)|(_ & ? & ? & _ & He)];
    rewrite He in Hev; [|done]. injection Hev as <- <- <-.
  exists r. assert (r ∈ checked_rules xxh3 rules request) as Hr.
  { rewrite Hc. apply elem_of_app. right. apply elem_of_cons. by left. }
  split; [done|]. split; [done|].
  assert (r ∈ rules) as Hin.
  { assert (r ∈ matching xxh3 rules (lr_domain request) (lr_descriptors request)) as Hma
      by (eapply elem_of_sublist; [exact Hr|apply sublist_take]).
    apply list_elem_of_In, filter_In in Hma as [Hma _]. by apply list_elem_of_In. }
  pose proof (Hres r Hin) as Hr'. rewrite (total_of_sum xxh3 (counts w) request now r Hok Hn Hr') in Hd, Ho.
  destruct Hr' as (Hbm & Hlive & Hh & Hcur & Hmul & Hsum).
  assert (∀ b, 0 ≤ count_in xxh3 (counts w) request r b) as Hc0
    by (intros b; apply (DashMapStore.ok_read _ _ Hok)).
  apply (time_until_admit_exact _ Hc0 now _ _ (limit r) (lr_hits request)); try done.
  pose proof (bucket_sum_nonneg _ (Z.max 0 (now / rule_bucket_millis r - (rule_live_buckets r - 1)))
    (now / rule_bucket_millis r) Hc0).
  unfold saturating_add, U64_MAX in *. lia.
Qed.

Lemma reject_reset_exact_witness :
  let w := {[ sample_cell 4 := 98 ]} in
  ∃ r, r ∈ checked_rules sample_hash sample_table sample_request ∧ mode r = Enforce ∧
    let cnt := count_in sample_hash w sample_request r in
    let bm := rule_bucket_millis r in
    let live := rule_live_buckets r in
    let oldest := Z.max 0 (5000 / bm - (live - 1)) in
    0 < 59000 ∧ in_window cnt bm live oldest (5000 / bm) (5000 + 59000) + 3 ≤ limit r ∧
    ∀ T, 5000 ≤ T < 5000 + 59000 → limit r < in_window cnt bm live oldest (5000 / bm) T + 3.
Proof.
  intros w.
  refine (reject_reset_exact id sample_record sample_hash sample_table CardinalityLimits_default w
    no_notes sample_request 5000 w no_notes
    {| rc_limit := 100; rc_remaining := 2; rc_duration_until_reset_millis := 59000 |} _ _ _ _).
  - apply (bool_decide_unpack _). vm_compute. exact I.
  - lia.
  - intros r Hr. unfold sample_table, sample_rules in Hr. rewrite !fmap_cons, fmap_nil in Hr.
    rewrite !elem_of_cons, elem_of_nil in Hr.
    destruct Hr as [->|[->|[->|[->|[]]]]]; unfold resettable; split_and!; vm_compute; congruence.
  - vm_compute. reflexivity.
Defined.

(** ** The response *)
Lemma decide_all_ok {W} (counts : W → DashMapStore.t) (record : W → RecordCall → W * bool) xxh3 rules limits
    request now hits ds : ∀ (w : W) notes idx,
  buckets_ok rules → 0 ≤ idx →
  ∃ w' notes' decisions,
    decide_all counts record xxh3 rules limits w notes request now hits idx ds = Some (w', notes', decisions) ∧
    length decisions = length ds ∧
    ∀ i d, MAX_DESCRIPTORS ≤ idx + Z.of_nat i → decisions !! i = Some d → d = Reject Cardinality None.
Proof.
  induction ds as [|entries ds IH]; intros w notes idx Hb Hi; cbn [decide_all].
  { by exists w, notes, []. }
  assert (∃ w1 notes1 d, (if MAX_DESCRIPTORS <=? idx then Some (w, notes, Reject Cardinality None) else
       match map_envoy_descriptor entries with
       | inl mapped => evaluate counts record xxh3 rules limits w notes
           {| lr_domain := req_domain request; lr_descriptors := mapped; lr_hits := hits |} now
       | inr reason => Some (w, notes, Reject reason None)
       end) = Some (w1, notes1, d) ∧ (MAX_DESCRIPTORS ≤ idx → d = Reject Cardinality None))
    as (w1 & notes1 & d & -> & Hd).
  { destruct (MAX_DESCRIPTORS <=? idx) eqn:E; bool_solve; [by eexists _, _, _|].
    destruct (map_envoy_descriptor entries) as [mapped|reason];
      [|by eexists _, _, _; split; [done|lia]].
    set (rq := {| lr_domain := _; lr_descriptors := _; lr_hits := _ |}).
    destruct (violates_cardinality rq limits) eqn:Hv.
    - unfold evaluate. rewrite Hv. eexists _, _, _. split; [done|lia].
    - destruct (evaluate_ok counts record xxh3 rules limits w notes rq now Hb Hv)
        as [(? & ? & ? & ctx & _ & _ & _ & _ & ->)|(_ & ? & ? & _ & ->)];
        eexists _, _, _; (split; [done|lia]). }
  cbn [mbind option_bind].
  destruct (IH w1 notes1 (idx + 1) Hb ltac:(lia)) as (w2 & notes2 & decisions & -> & Hl & Hx).
  cbn [mbind option_bind]. exists w2, notes2, (d :: decisions). split; [done|].
  split; [cbn; by rewrite Hl|]. intros [|i] d' Hi' Hd'; cbn in Hd'.
  - injection Hd' as <-. apply Hd. lia.
  - eapply Hx; [|exact Hd']. lia.
Qed.

Lemma foldl_orb {A} (f : A → bool) l b : foldl (λ b d, b || f d) b l = b || existsb f l.
Proof.
  revert b. induction l as [|x l IH]; intros b; cbn; [by destruct b|]. by rewrite IH, orb_assoc.
Qed.

Lemma status_code d : code (descriptor_status_for d) = code_for_decision d.
Proof. by destruct d as [[]|? []]. Qed.

(** Every request is answered, with one status per descriptor in order and no
    panic; the overall code is over-limit exactly when some status is; descriptors
    past the sixteenth are rejected; and the answer is the one
    [response_from_decisions] builds. *)
Theorem response_shape {W} (counts : W → DashMapStore.t) (record : W → RecordCall → W * bool)
    xxh3 rules limits (w : W) notes request now :
  buckets_ok rules →
  ∃ w' notes' decisions,
    let resp := response_from_decisions decisions in
    should_rate_limit_at counts record xxh3 rules limits w notes request now = Some (w', notes', resp) ∧
    length (statuses resp) = length (req_descriptors request) ∧
    (overall_code resp = OverLimit ↔ ∃ s, s ∈ statuses resp ∧ code s = OverLimit) ∧
    ∀ i s, MAX_DESCRIPTORS ≤ Z.of_nat i → statuses resp !! i = Some s → code s = OverLimit.
Proof.
  intros Hb. unfold should_rate_limit_at.
  destruct (decide_all_ok counts record xxh3 rules limits request now (Z.max (hits_addend request) 1)
    (req_descriptors request) w notes 0 Hb ltac:(lia)) as (w' & notes' & decisions & -> & Hl & Hx).
  cbn [mbind option_bind]. exists w', notes', decisions. rewrite foldl_orb.
  split; [done|]. split; [cbn; by rewrite length_fmap|]. split.
  - cbn. destruct (existsb is_reject decisions) eqn:E; (split; [try done|try done]).
    + intros _. apply existsb_exists in E as (d & Hd%list_elem_of_In & Hr).
      exists (descriptor_status_for d). split; [by apply list_elem_of_fmap_2|].
      rewrite status_code. unfold code_for_decision. by rewrite Hr.
    + intros (s & (d & -> & Hd)%list_elem_of_fmap & Hc). rewrite status_code in Hc.
      unfold code_for_decision in Hc. destruct (is_reject d) eqn:Er; [|done].
      assert (existsb is_reject decisions = true); [|congruence].
      apply existsb_exists. exists d. by split; [apply list_elem_of_In|].
  - intros i s Hi Hs. cbn in Hs. apply list_lookup_fmap_Some in Hs as (d & -> & Hd).
    rewrite status_code. by rewrite (Hx i d ltac:(lia) Hd).
Qed.

Lemma response_shape_witness :
  ∃ w' notes' decisions,
    should_rate_limit_at id sample_record sample_hash sample_table CardinalityLimits_default ∅ no_notes
      {| req_domain := lit "web"; hits_addend := 0;
         req_descriptors := [[ {| entry_key := lit "ip"; entry_value := lit "10.0.0.1" |} ]; []] |} 5000 =
      Some (w', notes', response_from_decisions decisions) ∧
    length (statuses (response_from_decisions decisions)) = 2%nat.
Proof.
  destruct (response_shape id sample_record sample_hash sample_table CardinalityLimits_default ∅ no_notes
      {| req_domain := lit "web"; hits_addend := 0;
         req_descriptors := [[ {| entry_key := lit "ip"; entry_value := lit "10.0.0.1" |} ]; []] |} 5000
      sample_table_ok) as (w' & notes' & ds & H & Hl & _).
  exists w', notes', ds. split; [exact H|exact Hl].
Defined.
