(* ===== verification/Queue.v ===== *)
(** * The shared-memory request queue

    [crates/nginx/src/shm/queue.rs]: a bounded ring that several worker
    processes push to and one or two leaders pop from.  Every atomic access is
    one step of [thread_step], so an execution is an arbitrary interleaving of
    the accesses of any number of threads; memory is sequentially consistent (the
    release/acquire pairs of the source are what makes the payload accesses
    behave so), and [compare_exchange_weak] may fail for no reason.  A slot's
    payload is its eight words in the order [write_slot] stores them. *)

From S2P Require Import Prelude Types.

Record QueueEvent := {
  ev_rule_fingerprint : Z;
  ev_key_hash : Z;
  ev_bucket : Z;
  ev_hits : Z;
  ev_rule_limit : Z;
  ev_now_millis : Z;
}.

(** The words [write_slot] stores, in order. *)
Definition event_words (e : QueueEvent) : list Z :=
  [as_u64 (ev_rule_fingerprint e); as_u64 (Z.shiftr (ev_rule_fingerprint e) 64);
   as_u64 (ev_key_hash e); as_u64 (Z.shiftr (ev_key_hash e) 64);
   ev_bucket e; ev_hits e; ev_rule_limit e; ev_now_millis e].

(** [read_slot] loads the high half of a 128-bit field before the low one. *)
Definition load_index (i : nat) : nat :=
  match i with 0 => 1 | 1 => 0 | 2 => 3 | 3 => 2 | _ => i end%nat.

(** What [read_slot] makes of the words it loads; [None] is not reachable. *)
Definition event_of_words (ws : list Z) : option QueueEvent :=
  match ws with
  | [fp_hi; fp_lo; kh_hi; kh_lo; b; h; l; n] =>
    Some {| ev_rule_fingerprint := Z.lor (Z.shiftl fp_hi 64) fp_lo;
            ev_key_hash := Z.lor (Z.shiftl kh_hi 64) kh_lo;
            ev_bucket := b; ev_hits := h; ev_rule_limit := l; ev_now_millis := n |}
  | _ => None
  end.

Record QueueSlot := { seq : Z; payload : list Z }.
Definition QueueSlot_empty (s : Z) : QueueSlot := {| seq := s; payload := replicate 8 0 |}.

Record QueueControl := {
  enqueue_pos : Z;
  dequeue_pos : Z;
  capacity_mask : Z;
  dropped : Z;
}.
#[export] Instance eta_QueueControl : Eta QueueControl := λ x,
  {| enqueue_pos := enqueue_pos x; dequeue_pos := dequeue_pos x; capacity_mask := capacity_mask x;
     dropped := dropped x |}.
Definition QueueControl_new (capacity : Z) : QueueControl :=
  {| enqueue_pos := 0; dequeue_pos := 0; capacity_mask := capacity - 1; dropped := 0 |}.

Record RequestQueue := { control : QueueControl; slots : list QueueSlot }.
#[export] Instance eta_RequestQueue : Eta RequestQueue := λ x,
  {| control := control x; slots := slots x |}.
Definition queue_new (capacity : Z) : RequestQueue :=
  {| control := QueueControl_new capacity; slots := QueueSlot_empty <$> zrange 0 capacity |}.

(** Where a thread is inside [push] or [pop]. *)
Inductive pc :=
  | Idle
  | PushPos (ev : QueueEvent)                    (** about to load [enqueue_pos] *)
  | PushSeq (ev : QueueEvent) (pos : Z)          (** about to load the slot's [seq] *)
  | PushCas (ev : QueueEvent) (pos : Z)          (** [diff == 0]: about to CAS *)
  | PushFull                                     (** [diff < 0]: about to count the drop *)
  | PushWrite (ev : QueueEvent) (pos : Z) (k : nat) (** [k] words written; then publish *)
  | PopPos
  | PopSeq (pos : Z)
  | PopCas (pos : Z)
  | PopRead (pos : Z) (acc : list Z).            (** the words read so far; then release *)

Inductive action :=
  | Internal
  | Claimed (ev : QueueEvent)      (** a push won position [enqueue_pos] *)
  | PushedOk
  | Overflowed
  | Popped (pos : Z) (ev : QueueEvent)
  | FoundEmpty.

(** [(seq as i64).wrapping_sub(pos as i64)] *)
Definition signed_diff (a b : Z) : Z :=
  let d := wrapping_sub 64 a b in if d <? 2 ^ 63 then d else d - 2 ^ 64.

Definition slot_index (q : RequestQueue) (pos : Z) : Z := Z.land pos (capacity_mask (control q)).

(** One atomic access; [weak] is a spurious failure of a CAS.  [None] is a panic
    (an index out of bounds or an overflow). *)
Definition thread_step (q : RequestQueue) (weak : bool) (p : pc) :
    option (RequestQueue * pc * action) :=
  match p with
  | Idle => None
  | PushPos ev => Some (q, PushSeq ev (enqueue_pos (control q)), Internal)
  | PushSeq ev pos =>
    slot ← zget (slots q) (slot_index q pos);
    let diff := signed_diff (seq slot) pos in
    Some (q, if diff =? 0 then PushCas ev pos
             else if diff <? 0 then PushFull else PushPos ev, Internal)
  | PushCas ev pos =>
    next ← checked 64 (pos + 1);
    if negb weak && (enqueue_pos (control q) =? pos) then
      Some (q <| control := control q <| enqueue_pos := next |> |>, PushWrite ev pos 0, Claimed ev)
    else Some (q, PushPos ev, Internal)
  | PushFull =>
    Some (q <| control := control q <| dropped := wrapping_add 64 (dropped (control q)) 1 |> |>,
          Idle, Overflowed)
  | PushWrite ev pos k =>
    let i := slot_index q pos in
    slot ← zget (slots q) i;
    match event_words ev !! k with
    | Some word =>
      Some (q <| slots := zupd (slots q) i {| seq := seq slot; payload := <[k := word]> (payload slot) |} |>,
            PushWrite ev pos (S k), Internal)
    | None =>
      next ← checked 64 (pos + 1);
      Some (q <| slots := zupd (slots q) i {| seq := next; payload := payload slot |} |>, Idle, PushedOk)
    end
  | PopPos => Some (q, PopSeq (dequeue_pos (control q)), Internal)
  | PopSeq pos =>
    slot ← zget (slots q) (slot_index q pos);
    next ← checked 64 (pos + 1);
    let diff := signed_diff (seq slot) next in
    Some (if diff =? 0 then (q, PopCas pos, Internal)
          else if diff <? 0 then (q, Idle, FoundEmpty) else (q, PopPos, Internal))
  | PopCas pos =>
    next ← checked 64 (pos + 1);
    if negb weak && (dequeue_pos (control q) =? pos) then
      Some (q <| control := control q <| dequeue_pos := next |> |>, PopRead pos [], Internal)
    else Some (q, PopPos, Internal)
  | PopRead pos acc =>
    let i := slot_index q pos in
    slot ← zget (slots q) i;
    if (length acc <? 8)%nat then
      word ← payload slot !! load_index (length acc);
      Some (q, PopRead pos (acc ++ [word]), Internal)
    else
      next ← checked 64 (pos + zlen (slots q));
      ev ← event_of_words acc;
      Some (q <| slots := zupd (slots q) i {| seq := next; payload := payload slot |} |>, Idle,
            Popped pos ev)
  end.

(** ** A call without interference

    [push] and [pop] when no other thread runs and no CAS fails spuriously: the
    loop body is entered once, so twelve accesses are enough. *)
Fixpoint run (fuel : nat) (q : RequestQueue) (p : pc) : option (RequestQueue * action) :=
  match fuel with
  | O => None
  | S fuel =>
    '(q, p, a) ← thread_step q false p;
    match p with Idle => Some (q, a) | _ => run fuel q p end
  end.

(** [true] is [Ok(())], [false] is [Err(QueueOverflow)]. *)
Definition push (q : RequestQueue) (ev : QueueEvent) : option (RequestQueue * bool) :=
  '(q, a) ← run 12 q (PushPos ev);
  Some (q, match a with PushedOk => true | _ => false end).

Definition pop (q : RequestQueue) : option (RequestQueue * option QueueEvent) :=
  '(q, a) ← run 12 q PopPos;
  Some (q, match a with Popped _ ev => Some ev | _ => None end).

(** The events drained into an [out] of length [room], in order. *)
Fixpoint drain (q : RequestQueue) (room : nat) : option (RequestQueue * list QueueEvent) :=
  match room with
  | O => Some (q, [])
  | S room =>
    '(q, e) ← pop q;
    match e with
    | Some ev => '(q, evs) ← drain q room; Some (q, ev :: evs)
    | None => Some (q, [])
    end
  end.

(** ** Interleavings

    The threads, with two ghost records: the events in the order their pushes
    claimed positions, and the results of the pops that have returned. *)
Record State := {
  queue : RequestQueue;
  threads : list pc;
  claimed : list QueueEvent;
  popped : list (Z * QueueEvent);
}.

Definition observe (a : action) (log : list QueueEvent) (out : list (Z * QueueEvent)) :
    list QueueEvent * list (Z * QueueEvent) :=
  match a with
  | Claimed ev => (log ++ [ev], out)
  | Popped pos ev => (log, out ++ [(pos, ev)])
  | _ => (log, out)
  end.

Definition event_ok (e : QueueEvent) : Prop :=
  uint 128 (ev_rule_fingerprint e) ∧ uint 128 (ev_key_hash e).

Inductive step : State → State → Prop :=
  | step_push s t ev :
    threads s !! t = Some Idle → event_ok ev →
    step s {| queue := queue s; threads := <[t := PushPos ev]> (threads s);
              claimed := claimed s; popped := popped s |}
  | step_pop s t :
    threads s !! t = Some Idle →
    step s {| queue := queue s; threads := <[t := PopPos]> (threads s);
              claimed := claimed s; popped := popped s |}
  | step_thread s t weak p q' p' a :
    threads s !! t = Some p → thread_step (queue s) weak p = Some (q', p', a) →
    step s {| queue := q'; threads := <[t := p']> (threads s);
              claimed := (observe a (claimed s) (popped s)).1;
              popped := (observe a (claimed s) (popped s)).2 |}.

Definition initial (capacity : Z) (n : nat) : State :=
  {| queue := queue_new capacity; threads := replicate n Idle; claimed := []; popped := [] |}.

Lemma run_step fuel q p q' p' a :
  thread_step q false p = Some (q', p', a) → p' ≠ Idle → run (S fuel) q p = run fuel q' p'.
Proof. intros H Hne. cbn [run]. rewrite H. by destruct p'. Qed.

Lemma run_last fuel q p q' a : thread_step q false p = Some (q', Idle, a) → run (S fuel) q p = Some (q', a).
Proof. intros H. cbn [run]. by rewrite H. Qed.

(** ** Words *)
Lemma lor_halves z : uint 128 z → Z.lor (Z.shiftl (as_u64 (Z.shiftr z 64)) 64) (as_u64 z) = z.
Proof.
  intros Hz. unfold as_u64. apply Z.bits_inj'. intros n Hn.
  rewrite Z.lor_spec, Z.shiftl_spec by done. destruct (decide (n < 64)).
  - rewrite Z.testbit_neg_r by lia. cbn [orb]. by rewrite Z.mod_pow2_bits_low by lia.
  - rewrite (Z.mod_pow2_bits_high z) by lia. rewrite orb_false_r.
    destruct (decide (n - 64 < 64)).
    + rewrite Z.mod_pow2_bits_low, Z.shiftr_spec by lia. f_equal. lia.
    + rewrite Z.mod_pow2_bits_high by lia. symmetry. unfold uint in Hz.
      destruct (decide (z = 0)) as [->|]; [by rewrite Z.bits_0|].
      apply Z.bits_above_log2; [lia|]. apply Z.log2_lt_pow2; [lia|].
      apply Z.lt_le_trans with (2 ^ 128); [lia|]. apply Z.pow_le_mono_r; lia.
Qed.

(** The words in the order of the loads. *)
Definition loaded_words (e : QueueEvent) : list Z :=
  omap (λ i, event_words e !! load_index i) (List.seq 0 8).
Lemma loaded_word e i : (i < 8)%nat → event_words e !! load_index i = loaded_words e !! i.
Proof. intros Hi. do 8 (destruct i as [|i]; [done|]). lia. Qed.
Lemma event_words_roundtrip e : event_ok e → event_of_words (loaded_words e) = Some e.
Proof. intros [? ?]. unfold loaded_words, event_words, event_of_words. cbn [omap list_omap List.seq load_index lookup list_lookup]. rewrite !lor_halves by done. by destruct e. Qed.

Lemma signed_diff_small a b : 0 ≤ a < 2 ^ 63 → 0 ≤ b < 2 ^ 63 → signed_diff a b = a - b.
Proof.
  intros Ha Hb. unfold signed_diff, wrapping_sub. destruct (decide (b ≤ a)).
  - rewrite Z.mod_small by lia. by replace (a - b <? 2 ^ 63) with true by lia.
  - rewrite <- (Z.mod_unique_pos (a - b) (2 ^ 64) (-1) (a - b + 2 ^ 64)) by lia.
    replace (a - b + 2 ^ 64 <? 2 ^ 63) with false by lia. lia.
Qed.

(** The position a thread owns: for writing, or for reading. *)
Definition claim (p : pc) : option (Z + Z) :=
  match p with
  | PushWrite _ pos _ => Some (inl pos)
  | PopRead pos _ => Some (inr pos)
  | _ => None
  end.

Definition held (ths : list pc) (c : Z + Z) : Prop := ∃ t p, ths !! t = Some p ∧ claim p = Some c.
Definition held_once (ths : list pc) : Prop := ∀ t t' p p' c,
  ths !! t = Some p → ths !! t' = Some p' → claim p = Some c → claim p' = Some c → t = t'.

Section claims.
Context (ths : list pc) (t : nat) (p p' : pc) (Ht : ths !! t = Some p).

Lemma lookup_thread t' x : <[t := p']> ths !! t' = Some x → (t' = t ∧ x = p') ∨ (t' ≠ t ∧ ths !! t' = Some x).
Proof using Ht.
  destruct (decide (t' = t)) as [->|]; [|rewrite list_lookup_insert_ne by done; tauto].
  rewrite list_lookup_insert_eq by (by eapply lookup_lt_Some). intros [= <-]. tauto.
Qed.

Lemma thread_at : <[t := p']> ths !! t = Some p'.
Proof using Ht. apply list_lookup_insert_eq. by eapply lookup_lt_Some. Qed.

Lemma held_keep c : claim p' = claim p → held (<[t := p']> ths) c ↔ held ths c.
Proof using Ht.
  intros Hc. split; intros (t' & x & Hx & Hcx).
  - apply lookup_thread in Hx as [[-> ->]|[_ Hx]]; [exists t, p|by exists t', x]. by rewrite <- Hc.
  - destruct (decide (t' = t)) as [->|].
    + exists t, p'. split; [apply thread_at|]. congruence.
    + exists t', x. by rewrite list_lookup_insert_ne.
Qed.

Lemma held_claim c0 c : claim p = None → claim p' = Some c0 →
  held (<[t := p']> ths) c ↔ held ths c ∨ c = c0.
Proof using Ht.
  intros Hp Hp'. split.
  - intros (t' & x & Hx & Hcx). apply lookup_thread in Hx as [[-> ->]|[_ Hx]]; [right; congruence|].
    left. by exists t', x.
  - intros [(t' & x & Hx & Hcx)| ->]; [|exists t, p'; split; [apply thread_at|done]].
    exists t', x. rewrite list_lookup_insert_ne; [done|]. intros ->. congruence.
Qed.

Lemma held_release c0 c : held_once ths → claim p = Some c0 → claim p' = None →
  held (<[t := p']> ths) c ↔ held ths c ∧ c ≠ c0.
Proof using Ht.
  intros Ho Hp Hp'. split.
  - intros (t' & x & Hx & Hcx). apply lookup_thread in Hx as [[-> ->]|[Hne Hx]]; [congruence|].
    split; [by exists t', x|]. intros ->. by destruct Hne, (Ho t' t x p c0).
  - intros [(t' & x & Hx & Hcx) Hne]. exists t', x. rewrite list_lookup_insert_ne; [done|].
    intros ->. congruence.
Qed.

Lemma held_once_insert : held_once ths → (claim p' = None ∨ claim p' = claim p ∨
  ∃ c0, claim p' = Some c0 ∧ ¬ held ths c0) → held_once (<[t := p']> ths).
Proof using Ht.
  intros Ho Hc t1 t2 x1 x2 c H1 H2 Hc1 Hc2.
  apply lookup_thread in H1 as [[-> ->]|[Hn1 H1]]; apply lookup_thread in H2 as [[-> ->]|[Hn2 H2]]; [done|..].
  - destruct Hc as [Hc|[Hc|(c0 & Hc & Hn)]]; [congruence| |].
    + apply (Ho _ _ p x2 c); congruence.
    + destruct Hn. exists t2, x2. split; [done|congruence].
  - destruct Hc as [Hc|[Hc|(c0 & Hc & Hn)]]; [congruence| |].
    + apply (Ho _ _ x1 p c); congruence.
    + destruct Hn. exists t1, x1. split; [done|congruence].
  - by apply (Ho _ _ x1 x2 c).
Qed.
End claims.

Lemma thread_step_enqueue q weak p q' p' a :
  thread_step q weak p = Some (q', p', a) → enqueue_pos (control q) ≤ enqueue_pos (control q').
Proof.
  destruct p as [|e|e pos|e pos| |e pos n| |pos|pos|pos acc]; cbn [thread_step].
  - done.
  - by intros [= <- _ _].
  - intros (sl & _ & [= <- _ _])%bind_Some. done.
  - intros (nx & [-> _]%checked_Some & H)%bind_Some. destruct (negb weak && _) eqn:E; injection H as <- _ _; [|done].
    apply andb_true_iff in E as [_ ?%Z.eqb_eq]. cbn. lia.
  - by intros [= <- _ _].
  - intros (sl & _ & H)%bind_Some. destruct (event_words e !! n); [by injection H as <- _ _|].
    apply bind_Some in H as (nx & _ & [= <- _ _]). done.
  - by intros [= <- _ _].
  - intros (sl & _ & (nx & _ & H)%bind_Some)%bind_Some.
    destruct (_ =? 0); [|destruct (_ <? 0)]; by injection H as <- _ _.
  - intros (nx & _ & H)%bind_Some. by destruct (negb weak && _); injection H as <- _ _.
  - intros (sl & _ & H)%bind_Some. destruct (_ <? _)%nat.
    + apply bind_Some in H as (w & _ & [= <- _ _]). done.
    + apply bind_Some in H as (nx & _ & (ev & _ & [= <- _ _])%bind_Some). done.
Qed.

Lemma step_enqueue_mono s s' :
  step s s' → enqueue_pos (control (queue s)) ≤ enqueue_pos (control (queue s')).
Proof. intros [| |s0 t weak p q' p' a _ Hstep]; [done|done|]. by eapply thread_step_enqueue. Qed.

(** ** The invariant *)
Section invariant.
Context (k : Z) (Hk : 1 ≤ k).
Let cap := 2 ^ k.

Lemma cap_ge_2 : 2 ≤ cap.
Proof using Hk. unfold cap. rewrite <- (Z.pow_1_r 2) at 1. apply Z.pow_le_mono_r; lia. Qed.

(** Positions that share a slot and are less than a lap apart are equal. *)
Lemma same_slot p p' : p mod cap = p' mod cap → p' - cap < p < p' + cap → p = p'.
Proof using Hk.
  pose proof cap_ge_2. intros Hm Hr. pose proof (Z.div_mod p cap ltac:(lia)).
  pose proof (Z.div_mod p' cap ltac:(lia)). clearbody cap.
  destruct (Z.lt_trichotomy (p / cap) (p' / cap)) as [Hl|[Heq|Hl]]; [|congruence|].
  - pose proof (Z.mul_le_mono_nonneg_l (p / cap + 1) (p' / cap) cap). lia.
  - pose proof (Z.mul_le_mono_nonneg_l (p' / cap + 1) (p / cap) cap). lia.
Qed.

Lemma next_slot p : p mod cap ≠ (p + 1) mod cap.
Proof using Hk. intros H. pose proof cap_ge_2. apply same_slot in H; lia. Qed.

Lemma index_range p : 0 ≤ p mod cap < cap.
Proof using Hk. pose proof cap_ge_2. apply Z.mod_pos_bound. lia. Qed.

Definition slot_at (q : RequestQueue) (pos : Z) : option QueueSlot := zget (slots q) (pos mod cap).

Section pieces.
Context (s : State).
Let E := enqueue_pos (control (queue s)).
Let D := dequeue_pos (control (queue s)).

(** Slot [sl] serves position [p]: free for it or being written, or holding its
    event, to be read or being read. *)
Definition serves (sl : QueueSlot) (p : Z) : Prop :=
  0 ≤ p ∧ E ≤ p + cap ∧ p < D + cap ∧ length (payload sl) = 8%nat ∧
  ((seq sl = p ∧ (p < E → D ≤ p ∧ held (threads s) (inl p))) ∨
   (seq sl = p + 1 ∧ p < E ∧
    (∃ ev, zget (claimed s) p = Some ev ∧ payload sl = event_words ev) ∧
    (p < D → held (threads s) (inr p)))).

Definition thread_ok (p : pc) : Prop :=
  match p with
  | PushPos ev => event_ok ev
  | PushSeq ev pos => event_ok ev ∧ 0 ≤ pos ≤ E
  | PushCas ev pos => event_ok ev ∧ 0 ≤ pos ≤ E ∧
      (pos = E → ∃ sl, slot_at (queue s) pos = Some sl ∧ seq sl = pos)
  | PushWrite ev pos n => D ≤ pos < E ∧ zget (claimed s) pos = Some ev ∧ (n ≤ 8)%nat ∧
      ∃ sl, slot_at (queue s) pos = Some sl ∧ seq sl = pos ∧
        take n (payload sl) = take n (event_words ev)
  | PopSeq pos => 0 ≤ pos ≤ D
  | PopCas pos => 0 ≤ pos ≤ D ∧
      (pos = D → ∃ sl, slot_at (queue s) pos = Some sl ∧ seq sl = pos + 1)
  | PopRead pos acc => 0 ≤ pos < D ∧
      ∃ sl ev, slot_at (queue s) pos = Some sl ∧ seq sl = pos + 1 ∧ zget (claimed s) pos = Some ev ∧
        payload sl = event_words ev ∧ acc = take (length acc) (loaded_words ev)
  | _ => True
  end.

Record qinv : Prop := {
  qi_mask : capacity_mask (control (queue s)) = cap - 1;
  qi_len : zlen (slots (queue s)) = cap;
  qi_log : zlen (claimed s) = E;
  qi_events : Forall event_ok (claimed s);
  qi_order : 0 ≤ D ≤ E;
  qi_slot i : 0 ≤ i < cap → ∃ sl p, zget (slots (queue s)) i = Some sl ∧ p mod cap = i ∧ serves sl p;
  qi_threads t p : threads s !! t = Some p → thread_ok p;
  qi_once : held_once (threads s);
  qi_popped p ev : (p, ev) ∈ popped s →
    0 ≤ p < D ∧ zget (claimed s) p = Some ev ∧ ¬ held (threads s) (inr p);
  qi_nodup : NoDup (popped s).*1;
  qi_taken p : 0 ≤ p < D → p ∈ (popped s).*1 ∨ held (threads s) (inr p);
}.
End pieces.

Lemma slot_index_mod s pos : qinv s → slot_index (queue s) pos = pos mod cap.
Proof using Hk. intros Hi. unfold slot_index. rewrite (qi_mask s Hi). by apply land_mask_mod; lia. Qed.

Lemma qi_at s pos : qinv s → ∃ sl p, slot_at (queue s) pos = Some sl ∧ p mod cap = pos mod cap ∧ serves s sl p.
Proof using Hk. intros Hi. apply (qi_slot s Hi). apply index_range. Qed.

(** The slot of a position still in the queue serves that position. *)
Lemma serves_live s pos sl :
  qinv s → dequeue_pos (control (queue s)) ≤ pos < enqueue_pos (control (queue s)) →
  slot_at (queue s) pos = Some sl → serves s sl pos.
Proof using Hk.
  intros Hi Hp Hsl. destruct (qi_at s pos Hi) as (sl' & p & Hsl' & Hm & Hs).
  rewrite Hsl in Hsl'. injection Hsl' as <-. pose proof Hs as (H0 & H1 & H2 & _).
  assert (p = pos) as ->; [|done]. apply same_slot; [done|lia].
Qed.

(** A step that changes neither the queue nor what the thread owns. *)
Lemma inv_thread s t p p' :
  qinv s → threads s !! t = Some p → claim p' = claim p → thread_ok s p' →
  qinv {| queue := queue s; threads := <[t := p']> (threads s); claimed := claimed s; popped := popped s |}.
Proof using.
  intros [] Ht Hc Hok.
  assert (∀ c, held (<[t := p']> (threads s)) c ↔ held (threads s) c) as Hh by (intros; by eapply held_keep).
  split; cbn; try done.
  - intros i Hi. destruct (qi_slot0 i Hi) as (sl & p0 & ? & ? & Hs). exists sl, p0. split; [done|split; [done|]].
    unfold serves in *. cbn. by rewrite !Hh.
  - intros t' x [[-> ->]|[_ Hx]]%(lookup_thread _ _ _ _ Ht); [exact Hok|exact (qi_threads0 _ _ Hx)].
  - eapply held_once_insert; [done|done|]. by right; left.
  - intros p0 ev Hp. rewrite Hh. by apply qi_popped0.
  - intros p0 Hp. rewrite Hh. by apply qi_taken0.
Qed.

(** A pushing thread wins position [enqueue_pos]. *)
Lemma inv_claim_push s t ev pos :
  qinv s → threads s !! t = Some (PushCas ev pos) → enqueue_pos (control (queue s)) = pos →
  qinv {| queue := queue s <| control := control (queue s) <| enqueue_pos := pos + 1 |> |>;
          threads := <[t := PushWrite ev pos 0]> (threads s); claimed := claimed s ++ [ev]; popped := popped s |}.
Proof using Hk.
  intros Hi Ht HE. pose proof (qi_threads _ Hi _ _ Ht) as (Hev & Hpos & Hsl). destruct Hsl as (sl0 & Hsl0 & Hseq0); [done|].
  pose proof Hi as [Hmask Hlen Hlog Hevs Hord Hslot Hths Honce Hpop Hnd Htk].
  assert (∀ c, held (<[t := PushWrite ev pos 0]> (threads s)) c ↔ held (threads s) c ∨ c = inl pos) as Hh
    by (intros; by eapply held_claim).
  assert (∀ p e, zget (claimed s) p = Some e → zget (claimed s ++ [ev]) p = Some e) as Hlk.
  { intros p e He. rewrite zget_app_l; [done|]. apply zget_Some_range in He. lia. }
  assert (zget (claimed s ++ [ev]) pos = Some ev) as Hnew.
  { rewrite zget_lookup by lia. rewrite <- HE in *. rewrite <- Hlog. unfold zlen. rewrite Nat2Z.id.
    by rewrite lookup_app_r, Nat.sub_diag by lia. }
  split; cbn; try done.
  - rewrite zlen_app, Hlog. change (zlen [ev]) with 1. lia.
  - apply Forall_app. split; [done|by apply Forall_singleton].
  - lia.
  - intros i Hir. destruct (Hslot i Hir) as (sl & p & Hg & Hm & H0 & HEp & HDp & Hl & Hcase).
    exists sl, p. split; [done|]. split; [done|]. unfold serves. cbn. rewrite HE in *.
    destruct (decide (p mod cap = pos mod cap)) as [Hsame|Hdiff].
    + assert (sl = sl0) as -> by (unfold slot_at in Hsl0; rewrite <- Hsame, Hm in Hsl0; congruence).
      destruct Hcase as [[Hq _]|(Hq & _)].
      * assert (p = pos) as -> by lia. split_and!; [lia..|done|]. left. split; [done|]. intros _.
        split; [lia|]. apply Hh. by right.
      * destruct (next_slot p). rewrite Hsame. f_equal. lia.
    + assert (pos ≠ p + cap). { intros Hx. destruct Hdiff. rewrite Hx.
        pose proof cap_ge_2. rewrite <- (Z.mul_1_l cap) at 2. by rewrite Z.mod_add by lia. }
      assert (pos ≠ p) by (intros ->; done).
      split_and!; [lia..|done|]. destruct Hcase as [[Hq Hw]|(Hq & Hlt & (e & He & Hpay) & Hr)].
      * left. split; [done|]. intros Hlt. destruct Hw as [? ?]; [lia|]. split; [lia|]. apply Hh. by left.
      * right. split_and!; [done|lia|exists e; auto|]. intros ?. apply Hh. left. by apply Hr.
  - intros t' x [[-> ->]|[_ Hx]]%(lookup_thread _ _ _ _ Ht).
    + cbn. split; [lia|]. split; [done|]. split; [lia|]. exists sl0. by rewrite !take_0.
    + specialize (Hths _ _ Hx). destruct x; cbn in *; rewrite ?HE in *; try done.
      * split; [tauto|lia].
      * split; [tauto|]. split; [lia|]. intros. lia.
      * destruct Hths as (? & ? & ? & ?). split_and!; [lia|lia|auto|done|done].
      * destruct Hths as (? & sl & e & ? & ? & ? & ? & ?). split; [done|]. exists sl, e. auto.
  - eapply held_once_insert; [done|done|]. right; right. exists (inl pos). split; [done|].
    intros (t' & x & Hx & Hc). destruct x; simplify_eq/=. destruct (Hths _ _ Hx) as (? & _). lia.
  - intros p e (? & ? & Hn)%Hpop. split; [done|]. split; [auto|]. rewrite Hh. intros [?|?]; done.
  - intros p Hp. destruct (Htk p Hp); [by left|]. right. apply Hh. by left.
Qed.

(** A popping thread wins position [dequeue_pos]. *)
Lemma inv_claim_pop s t pos :
  qinv s → threads s !! t = Some (PopCas pos) → dequeue_pos (control (queue s)) = pos →
  qinv {| queue := queue s <| control := control (queue s) <| dequeue_pos := pos + 1 |> |>;
          threads := <[t := PopRead pos []]> (threads s); claimed := claimed s; popped := popped s |}.
Proof using Hk.
  intros Hi Ht HD. pose proof (qi_threads _ Hi _ _ Ht) as (Hpos & Hsl). destruct Hsl as (sl0 & Hsl0 & Hseq0); [done|].
  destruct (qi_at s pos Hi) as (sl' & p0 & Hsl' & Hm0 & Hs0). rewrite Hsl0 in Hsl'. injection Hsl' as <-.
  pose proof Hi as [Hmask Hlen Hlog Hevs Hord Hslot Hths Honce Hpop Hnd Htk].
  assert (∀ c, held (<[t := PopRead pos []]> (threads s)) c ↔ held (threads s) c ∨ c = inr pos) as Hh
    by (intros; by eapply held_claim).
  (* the slot holds the event of [pos] *)
  assert (pos < enqueue_pos (control (queue s)) ∧
    ∃ ev, zget (claimed s) pos = Some ev ∧ payload sl0 = event_words ev) as (HposE & ev0 & Hev0 & Hpay0).
  { destruct Hs0 as (_ & _ & _ & _ & [[Hq _]|(Hq & Hlt & Hev & _)]).
    - destruct (next_slot pos). rewrite <- Hm0. f_equal. lia.
    - assert (p0 = pos) as -> by lia. done. }
  split; cbn; try done.
  - lia.
  - intros i Hir. destruct (Hslot i Hir) as (sl & p & Hg & Hm & H0 & HEp & HDp & Hl & Hcase).
    exists sl, p. split; [done|]. split; [done|]. unfold serves. cbn. rewrite HD in *.
    split_and!; [lia..|done|].
    destruct Hcase as [[Hq Hw]|(Hq & Hlt & He & Hr)].
    + left. split; [done|]. intros Hlt. destruct (Hw Hlt) as [Hge Hheld]. split; [|apply Hh; by left].
      destruct (decide (p = pos)) as [->|]; [|lia].
      assert (sl = sl0) as -> by (unfold slot_at in Hsl0; rewrite Hm in Hsl0; congruence). lia.
    + right. split_and!; [done|done|done|]. intros Hlt'. apply Hh.
      destruct (decide (p = pos)) as [->|]; [by right|]. left. apply Hr. lia.
  - intros t' x [[-> ->]|[_ Hx]]%(lookup_thread _ _ _ _ Ht).
    + cbn. split; [lia|]. by exists sl0, ev0.
    + pose proof (Hths _ _ Hx) as Hok. destruct x; cbn in *; rewrite ?HD in *; try done.
      * destruct Hok as (? & ? & ? & sl & Hsl & Hq & ?). split; [|by split_and!; [done|done|exists sl]].
        destruct (decide (pos0 = pos)) as [->|]; [|lia]. rewrite Hsl0 in Hsl. injection Hsl as <-. lia.
      * lia.
      * split; [lia|]. intros. lia.
      * destruct Hok as (? & ?). split; [lia|done].
  - eapply held_once_insert; [done|done|]. right; right. exists (inr pos). split; [done|].
    intros (t' & x & Hx & Hc). destruct x; simplify_eq/=. destruct (Hths _ _ Hx) as (? & _). lia.
  - intros p e Hpe. destruct (Hpop p e Hpe) as (? & ? & Hn). rewrite HD in *. split; [lia|]. split; [done|].
    rewrite Hh. intros [?|[= ->]]; [done|lia].
  - intros p Hp. rewrite Hh. destruct (decide (p = pos)) as [->|]; [by right; right|].
    destruct (Htk p) as [?|?]; [lia|by left|by right; left].
Qed.

(** Facts about the other threads' slots when the slot of [pos] changes. *)
Lemma slot_at_upd q pos pos' sl' :
  zlen (slots q) = cap →
  slot_at (q <| slots := zupd (slots q) (pos mod cap) sl' |>) pos' =
    if decide (pos mod cap = pos' mod cap) then Some sl' else slot_at q pos'.
Proof using Hk.
  intros Hl. unfold slot_at. cbn. pose proof (index_range pos).
  rewrite zget_zupd by lia. by destruct (decide _).
Qed.

(** A thread that owns [pos] for writing is alone on its slot. *)
Lemma writer_alone s t ev pos n x t' :
  qinv s → threads s !! t = Some (PushWrite ev pos n) → t' ≠ t → threads s !! t' = Some x →
  match x with
  | PushCas _ p => p = enqueue_pos (control (queue s)) → pos mod cap ≠ p mod cap
  | PushWrite _ p _ => pos mod cap ≠ p mod cap
  | PopCas p => p = dequeue_pos (control (queue s)) → pos mod cap ≠ p mod cap
  | PopRead p _ => pos mod cap ≠ p mod cap
  | _ => True
  end.
Proof using Hk.
  intros Hi Ht Hne Hx. pose proof (qi_threads _ Hi _ _ Ht) as (Hpos & _ & _ & sl & Hsl & Hq & _).
  pose proof (qi_threads _ Hi _ _ Hx) as Hok. unfold slot_at in *.
  destruct x as [|e|e p|e p| |e p n'| |p|p|p acc]; try done; cbn in Hok.
  - intros Hp Heq. destruct Hok as (_ & _ & H). destruct (H Hp) as (sl' & Hsl' & Hq'). unfold slot_at in *.
    rewrite Heq in Hsl. rewrite Hsl in Hsl'. injection Hsl' as <-. lia.
  - intros Heq. destruct Hok as (? & _ & _ & sl' & Hsl' & Hq' & _). unfold slot_at in *.
    rewrite Heq in Hsl. rewrite Hsl in Hsl'. injection Hsl' as <-. assert (p = pos) as -> by lia.
    destruct Hne. by eapply (qi_once _ Hi _ _ _ _ (inl pos)).
  - intros Hp Heq. destruct Hok as (_ & H). destruct (H Hp) as (sl' & Hsl' & Hq'). unfold slot_at in *.
    rewrite Heq in Hsl. rewrite Hsl in Hsl'. injection Hsl' as <-. destruct (next_slot p).
    rewrite <- Heq. f_equal. lia.
  - intros Heq. destruct Hok as (? & sl' & e & Hsl' & Hq' & _). unfold slot_at in *.
    rewrite Heq in Hsl. rewrite Hsl in Hsl'. injection Hsl' as <-. destruct (next_slot p).
    rewrite <- Heq. f_equal. lia.
Qed.

(** A thread that owns [pos] for reading is alone on its slot. *)
Lemma reader_alone s t acc pos x t' :
  qinv s → threads s !! t = Some (PopRead pos acc) → t' ≠ t → threads s !! t' = Some x →
  match x with
  | PushCas _ p => p = enqueue_pos (control (queue s)) → pos mod cap ≠ p mod cap
  | PushWrite _ p _ => pos mod cap ≠ p mod cap
  | PopCas p => p = dequeue_pos (control (queue s)) → pos mod cap ≠ p mod cap
  | PopRead p _ => pos mod cap ≠ p mod cap
  | _ => True
  end.
Proof using Hk.
  intros Hi Ht Hne Hx. pose proof (qi_threads _ Hi _ _ Ht) as (Hpos & sl & ev & Hsl & Hq & _).
  pose proof (qi_threads _ Hi _ _ Hx) as Hok. unfold slot_at in *.
  destruct x as [|e|e p|e p| |e p n'| |p|p|p acc']; try done; cbn in Hok.
  - intros Hp Heq. destruct Hok as (_ & _ & H). destruct (H Hp) as (sl' & Hsl' & Hq'). unfold slot_at in *.
    rewrite Heq in Hsl. rewrite Hsl in Hsl'. injection Hsl' as <-. destruct (next_slot pos). rewrite Heq. f_equal. lia.
  - intros Heq. pose proof (writer_alone s t' e p n' _ t Hi Hx (not_eq_sym Hne) Ht) as H. cbn in H. congruence.
  - intros Hp Heq. destruct Hok as (_ & H). destruct (H Hp) as (sl' & Hsl' & Hq'). unfold slot_at in *.
    rewrite Heq in Hsl. rewrite Hsl in Hsl'. injection Hsl' as <-. lia.
  - intros Heq. destruct Hok as (? & sl' & e & Hsl' & Hq' & _). unfold slot_at in *.
    rewrite Heq in Hsl. rewrite Hsl in Hsl'. injection Hsl' as <-. assert (p = pos) as -> by lia.
    destruct Hne. by eapply (qi_once _ Hi _ _ _ _ (inr pos)).
Qed.

(** [x] does not look at the slot of [pos]. *)
Definition apart (s : State) (pos : Z) (x : pc) : Prop :=
  match x with
  | PushCas _ p => p = enqueue_pos (control (queue s)) → pos mod cap ≠ p mod cap
  | PushWrite _ p _ => pos mod cap ≠ p mod cap
  | PopCas p => p = dequeue_pos (control (queue s)) → pos mod cap ≠ p mod cap
  | PopRead p _ => pos mod cap ≠ p mod cap
  | _ => True
  end.

Definition with_slot (s : State) (pos : Z) (sl : QueueSlot) (ths : list pc) (out : list (Z * QueueEvent)) : State :=
  {| queue := queue s <| slots := zupd (slots (queue s)) (pos mod cap) sl |>; threads := ths;
     claimed := claimed s; popped := out |}.

Lemma apart_ok s pos sl ths out x :
  qinv s → apart s pos x → thread_ok s x → thread_ok (with_slot s pos sl ths out) x.
Proof using Hk.
  intros Hi Hap Hok. pose proof (qi_len _ Hi) as Hl.
  destruct x as [|e|e p|e p| |e p n'| |p|p|p acc']; try done; cbn in Hok, Hap |- *.
  - destruct Hok as (? & ? & H). split; [done|]. split; [done|]. intros Hp. destruct (H Hp) as (sl' & ? & ?).
    exists sl'. rewrite (slot_at_upd (queue s)), decide_False by auto. done.
  - destruct Hok as (? & ? & ? & sl' & ? & ? & ?). split_and!; [lia|lia|done|done|].
    exists sl'. rewrite (slot_at_upd (queue s)), decide_False by auto. done.
  - destruct Hok as (? & H). split; [done|]. intros Hp. destruct (H Hp) as (sl' & ? & ?).
    exists sl'. rewrite (slot_at_upd (queue s)), decide_False by auto. done.
  - destruct Hok as (? & sl' & e & ? & ? & ?). split; [done|]. exists sl', e.
    rewrite (slot_at_upd (queue s)), decide_False by auto. done.
Qed.

Lemma upd_slots s pos sl i :
  qinv s → 0 ≤ i < cap →
  zget (zupd (slots (queue s)) (pos mod cap) sl) i =
    if decide (pos mod cap = i) then Some sl else zget (slots (queue s)) i.
Proof using Hk. intros Hi Hr. apply zget_zupd. rewrite (qi_len _ Hi). apply index_range. Qed.

(** The invariant after the owner of [pos] has changed its slot: what is left to
    show is about that slot, that thread and the ghost state. *)
Lemma inv_slot s t p p' pos sl out :
  qinv s → threads s !! t = Some p → (claim p = Some (inl pos) ∨ claim p = Some (inr pos)) →
  (claim p' = None ∨ claim p' = claim p) →
  let ths := <[t := p']> (threads s) in
  let s' := with_slot s pos sl ths out in
  (∃ r, r mod cap = pos mod cap ∧ serves s' sl r) →
  (∀ sl1 r, r mod cap ≠ pos mod cap → serves s sl1 r → serves s' sl1 r) →
  thread_ok s' p' → NoDup out.*1 →
  (∀ r e, (r, e) ∈ out → 0 ≤ r < dequeue_pos (control (queue s)) ∧ zget (claimed s) r = Some e ∧ ¬ held ths (inr r)) →
  (∀ r, 0 ≤ r < dequeue_pos (control (queue s)) → r ∈ out.*1 ∨ held ths (inr r)) →
  qinv s'.
Proof using Hk.
  intros Hi Ht Hc Hc' ths s' (r & Hr & Hsr) Hoth Hok Hnd Hout Htk.
  pose proof Hi as [Hmask Hlen Hlog Hevs Hord Hslot Hths Honce _ _ _].
  split; cbn; try done.
  - by rewrite zlen_zupd.
  - intros i Hir. rewrite upd_slots by done. destruct (decide (pos mod cap = i)) as [<-|Hne].
    + exists sl, r. by split_and!.
    + destruct (Hslot i Hir) as (sl1 & p1 & ? & Hm & Hs). exists sl1, p1. split; [done|]. split; [done|].
      apply Hoth; [congruence|done].
  - intros t' x [[-> ->]|[Hne Hx]]%(lookup_thread _ _ _ _ Ht); [exact Hok|].
    apply apart_ok; [done| |by eapply Hths].
    destruct p; simplify_eq/=; destruct Hc as [[= ->]|[= ->]].
    + by eapply writer_alone.
    + by eapply reader_alone.
  - eapply held_once_insert; [done|done|]. destruct Hc' as [?| ->]; tauto.
Qed.

Lemma inv_write s t ev pos n sl word :
  qinv s → threads s !! t = Some (PushWrite ev pos n) → slot_at (queue s) pos = Some sl →
  event_words ev !! n = Some word →
  qinv (with_slot s pos {| seq := seq sl; payload := <[n := word]> (payload sl) |}
    (<[t := PushWrite ev pos (S n)]> (threads s)) (popped s)).
Proof using Hk.
  intros Hi Ht Hsl Hw. pose proof (qi_threads _ Hi _ _ Ht) as (Hpos & Hev & Hn & sl' & Hsl' & Hq & Htake).
  rewrite Hsl in Hsl'. injection Hsl' as <-.
  assert (∀ c, held (<[t := PushWrite ev pos (S n)]> (threads s)) c ↔ held (threads s) c) as Hh
    by (intros; by eapply held_keep).
  pose proof (serves_live s pos sl Hi Hpos Hsl) as (H0 & HE & HD & Hlen & Hcase).
  apply inv_slot with (p := PushWrite ev pos n); try done.
  - by left.
  - by right.
  - exists pos. split; [done|]. unfold serves. cbn. rewrite length_insert. split_and!; [done..|].
    destruct Hcase as [[_ Hcase]|(Hq' & _)]; [|lia]. left. split; [done|]. intros Hlt.
    rewrite Hh. by apply Hcase.
  - intros sl1 r _. unfold serves. cbn. by rewrite !Hh.
  - cbn -[event_words take]. split; [done|]. split; [done|]. apply lookup_lt_Some in Hw as Hn8. change (length _) with 8%nat in Hn8.
    split; [lia|]. exists {| seq := seq sl; payload := <[n := word]> (payload sl) |}.
    rewrite (slot_at_upd (queue s)), decide_True by (done || by apply qi_len). split; [done|]. split; [done|].
    cbn [payload]. rewrite (take_S_r _ _ word) by (apply list_lookup_insert_eq; lia).
    rewrite (take_S_r _ _ word Hw), take_insert_ge by lia. by rewrite Htake.
  - apply (qi_nodup _ Hi).
  - intros r e Hr. rewrite Hh. by apply (qi_popped _ Hi).
  - intros r Hr. rewrite Hh. by apply (qi_taken _ Hi).
Qed.

Lemma inv_publish s t ev pos n sl :
  qinv s → threads s !! t = Some (PushWrite ev pos n) → slot_at (queue s) pos = Some sl →
  event_words ev !! n = None →
  qinv (with_slot s pos {| seq := pos + 1; payload := payload sl |} (<[t := Idle]> (threads s)) (popped s)).
Proof using Hk.
  intros Hi Ht Hsl Hw. pose proof (qi_threads _ Hi _ _ Ht) as (Hpos & Hev & Hn & sl' & Hsl' & Hq & Htake).
  rewrite Hsl in Hsl'. injection Hsl' as <-.
  assert (∀ c, held (<[t := Idle]> (threads s)) c ↔ held (threads s) c ∧ c ≠ inl pos) as Hh
    by (intros; eapply held_release; [done|by apply qi_once|done|done]).
  pose proof (serves_live s pos sl Hi Hpos Hsl) as (H0 & HE & HD & Hlen & Hcase).
  apply lookup_ge_None in Hw. change (length _) with 8%nat in Hw.
  apply inv_slot with (p := PushWrite ev pos n); try done.
  - by left.
  - by left.
  - exists pos. split; [done|]. unfold serves. cbn. split_and!; [done..|]. right. split_and!; [done|lia| |lia].
    exists ev. split; [done|]. rewrite !firstn_all2 in Htake by (cbn; lia). done.
  - intros sl1 r Hr. unfold serves. cbn. rewrite !Hh.
    intros (? & ? & ? & ? & [[? Hx]|(? & ? & ? & Hx)]); split_and!; try done.
    + left. split; [done|]. intros Hlt. destruct (Hx Hlt) as [? ?]. split; [done|]. split; [done|]. congruence.
    + right. split_and!; try done. intros Hlt. split; [by apply Hx|done].
  - apply (qi_nodup _ Hi).
  - intros r e (? & ? & ?)%(qi_popped _ Hi). rewrite Hh. tauto.
  - intros r Hr. rewrite Hh. destruct (qi_taken _ Hi r Hr); [by left|by right].
Qed.

Lemma inv_release s t acc pos sl ev :
  qinv s → threads s !! t = Some (PopRead pos acc) → slot_at (queue s) pos = Some sl →
  length acc = 8%nat → event_of_words acc = Some ev →
  qinv (with_slot s pos {| seq := pos + cap; payload := payload sl |} (<[t := Idle]> (threads s))
    (popped s ++ [(pos, ev)])).
Proof using Hk.
  intros Hi Ht Hsl Hacc Hev.
  pose proof (qi_threads _ Hi _ _ Ht) as (Hpos & sl' & ev' & Hsl' & Hq & Hlog & Hpay & Heq).
  rewrite Hsl in Hsl'. injection Hsl' as <-.
  assert (ev' = ev) as ->.
  { rewrite Hacc, firstn_all2 in Heq by (cbn; lia). rewrite Heq, event_words_roundtrip in Hev; [congruence|].
    pose proof (qi_events _ Hi) as Hf. rewrite Forall_forall in Hf. by eapply Hf, zget_elem_of. }
  assert (∀ c, held (<[t := Idle]> (threads s)) c ↔ held (threads s) c ∧ c ≠ inr pos) as Hh
    by (intros; eapply held_release; [done|by apply qi_once|done|done]).
  assert (held (threads s) (inr pos)) as Hheld by (by exists t, (PopRead pos acc)).
  destruct (qi_at s pos Hi) as (sl' & p0 & Hsl' & Hm0 & H0 & HE & HD & Hlen & Hcase).
  rewrite Hsl in Hsl'. injection Hsl' as <-. pose proof cap_ge_2.
  assert (p0 = pos) as ->.
  { destruct Hcase as [[Hq' _]|(Hq' & _)]; [|lia]. destruct (next_slot pos). rewrite <- Hm0. f_equal. lia. }
  assert ((pos + cap) mod cap = pos mod cap) as Hmod
    by (rewrite <- (Z.mul_1_l cap) at 1; by rewrite Z.mod_add by lia).
  pose proof (qi_order _ Hi).
  apply inv_slot with (p := PopRead pos acc); try done.
  - by right.
  - by left.
  - exists (pos + cap). split; [done|]. unfold serves. cbn. split_and!; [lia..|done|]. left. split; [done|]. lia.
  - intros sl1 r Hr. unfold serves. cbn. rewrite !Hh.
    intros (? & ? & ? & ? & [[? Hx]|(? & ? & ? & Hx)]); split_and!; try done.
    + left. split; [done|]. intros Hlt. destruct (Hx Hlt) as [? ?]. by split.
    + right. split_and!; try done. intros Hlt. split; [by apply Hx|]. congruence.
  - rewrite fmap_app. apply NoDup_app. split; [apply (qi_nodup _ Hi)|]. split; [|apply NoDup_singleton].
    intros r ((r' & e) & -> & Hin)%list_elem_of_fmap. cbn. rewrite list_elem_of_singleton. intros ->.
    by destruct (qi_popped _ Hi _ _ Hin) as (_ & _ & ?).
  - intros r e. rewrite elem_of_app, list_elem_of_singleton, Hh. intros [Hin|[= -> ->]].
    + destruct (qi_popped _ Hi _ _ Hin) as (? & ? & ?). tauto.
    + split; [lia|]. split; [done|]. tauto.
  - intros r Hr. rewrite Hh, fmap_app, elem_of_app. cbn. rewrite list_elem_of_singleton.
    destruct (decide (r = pos)) as [->|]; [by left; right|].
    destruct (qi_taken _ Hi r Hr); [by left; left|]. right. split; [done|congruence].
Qed.

(** ** Every step preserves the invariant, and no step panics *)
Definition bounded (s : State) : Prop := enqueue_pos (control (queue s)) + cap < 2 ^ 63.

Lemma slot_seq_range s pos sl :
  qinv s → bounded s → slot_at (queue s) pos = Some sl → 0 ≤ seq sl < 2 ^ 63.
Proof using Hk.
  intros Hi Hb Hsl. destruct (qi_at s pos Hi) as (sl' & p & Hsl' & _ & H0 & HE & HD & _ & Hcase).
  rewrite Hsl in Hsl'. injection Hsl' as <-. pose proof (qi_order _ Hi). pose proof cap_ge_2. unfold bounded in Hb.
  destruct Hcase as [[-> _]|(-> & ? & _)]; lia.
Qed.

Ltac pos_check := rewrite checked_ok by (unfold bounded in *; pose proof cap_ge_2; lia); cbn [mbind option_bind].

Lemma thread_step_ok s t p weak :
  qinv s → bounded s → threads s !! t = Some p → p ≠ Idle →
  ∃ q' p' a, thread_step (queue s) weak p = Some (q', p', a) ∧
    qinv {| queue := q'; threads := <[t := p']> (threads s);
            claimed := (observe a (claimed s) (popped s)).1; popped := (observe a (claimed s) (popped s)).2 |}.
Proof using Hk.
  intros Hi Hb Ht Hne. pose proof (qi_threads _ Hi _ _ Ht) as Hok. pose proof (qi_order _ Hi) as Hord.
  destruct p as [|e|e pos|e pos| |e pos n| |pos|pos|pos acc]; [done|..]; cbn [thread_step];
    rewrite ?(slot_index_mod _ _ Hi); try (destruct (qi_at s pos Hi) as (sl & r & Hsl & Hm & Hs);
      unfold slot_at in Hsl; rewrite ?Hsl; cbn [mbind option_bind]); fold (slot_at (queue s) pos) in Hsl || idtac.
  - eexists _, _, _. split; [done|]. apply (inv_thread s t _ _ Hi Ht); [done|].
    split; [done|]. cbn. lia.
  - destruct Hok as [Hev Hpos]. pose proof (slot_seq_range s pos sl Hi Hb Hsl).
    rewrite signed_diff_small by (unfold bounded in Hb; pose proof cap_ge_2; lia).
    destruct (seq sl - pos =? 0) eqn:E0; bool_solve; [|destruct (seq sl - pos <? 0)];
      (eexists _, _, _; split; [done|]; apply (inv_thread s t _ _ Hi Ht); [done|]); try done.
    split; [done|]. split; [done|]. intros _. exists sl. split; [done|lia].
  - destruct Hok as (Hev & Hpos & _). pos_check.
    destruct (negb weak && (enqueue_pos (control (queue s)) =? pos)) eqn:E.
    + apply andb_true_iff in E as [_ HE%Z.eqb_eq]. eexists _, _, _. split; [done|]. by apply inv_claim_push.
    + eexists _, _, _. split; [done|]. by apply (inv_thread s t _ _ Hi Ht).
  - eexists _, _, _. split; [done|]. cbn.
    pose proof (inv_thread s t _ Idle Hi Ht eq_refl I) as [? ? ? ? ? Hslot Hths ? ? ? ?]. by split.
  - destruct (event_words e !! n) as [word|] eqn:Hw.
    + eexists _, _, _. split; [done|]. by eapply (inv_write s t e pos n sl word).
    + destruct Hok as (Hpos & _). pos_check. eexists _, _, _. split; [done|].
      by eapply (inv_publish s t e pos n sl).
  - eexists _, _, _. split; [done|]. apply (inv_thread s t _ _ Hi Ht); [done|]. cbn. lia.
  - pose proof (slot_seq_range s pos sl Hi Hb Hsl). cbn in Hok. pos_check.
    rewrite signed_diff_small by (unfold bounded in Hb; pose proof cap_ge_2; lia).
    destruct (seq sl - (pos + 1) =? 0) eqn:E0; bool_solve; [|destruct (seq sl - (pos + 1) <? 0)];
      (eexists _, _, _; split; [done|]; apply (inv_thread s t _ _ Hi Ht); [done|]); try done.
    split; [done|]. intros _. exists sl. split; [done|lia].
  - destruct Hok as (Hpos & _). pos_check.
    destruct (negb weak && (dequeue_pos (control (queue s)) =? pos)) eqn:E.
    + apply andb_true_iff in E as [_ HD%Z.eqb_eq]. eexists _, _, _. split; [done|]. by apply inv_claim_pop.
    + eexists _, _, _. split; [done|]. by apply (inv_thread s t _ _ Hi Ht).
  - destruct Hok as (Hpos & sl' & ev & Hsl' & Hq & Hlog & Hpay & Hacc).
    rewrite Hsl in Hsl'. injection Hsl' as <-. destruct (length acc <? 8)%nat eqn:E.
    + apply Nat.ltb_lt in E. destruct (lookup_lt_is_Some_2 (loaded_words ev) (length acc)) as [w Hw];
        [cbn; lia|]. rewrite Hpay, loaded_word, Hw by done. cbn [mbind option_bind].
      eexists _, _, _. split; [done|]. apply (inv_thread s t _ _ Hi Ht); [done|].
      cbn -[event_words loaded_words]. split; [done|]. exists sl, ev. split_and!; try done.
      rewrite length_app. cbn [length]. rewrite Nat.add_1_r.
      by rewrite (take_S_r _ _ w Hw), <- Hacc.
    + apply Nat.ltb_ge in E. rewrite (qi_len _ Hi). pos_check.
      assert (length acc = 8%nat) as Hl8.
      { apply (f_equal length) in Hacc. rewrite length_take in Hacc. change (length (loaded_words ev)) with 8%nat in Hacc. lia. }
      assert (event_of_words acc = Some ev) as Hev.
      { rewrite Hacc, Hl8, firstn_all2 by (cbn; lia). apply event_words_roundtrip.
        pose proof (qi_events _ Hi) as Hf. rewrite Forall_forall in Hf. by eapply Hf, zget_elem_of. }
      rewrite Hev. cbn [mbind option_bind]. eexists _, _, _. split; [done|]. by eapply (inv_release s t acc pos sl ev).
Qed.

Lemma not_held_idle n c : ¬ held (replicate n Idle) c.
Proof using. intros (t & p & Hp & Hc). apply lookup_replicate in Hp as [-> _]. done. Qed.

Lemma initial_inv n : qinv (initial cap n).
Proof using Hk.
  pose proof cap_ge_2. split; cbn; try done.
  - rewrite zlen_fmap, zlen_zrange by lia. lia.
  - intros i Hi. exists (QueueSlot_empty i), i. rewrite zget_fmap.
    assert (zget (zrange 0 cap) i = Some i) as ->.
    { rewrite zget_lookup by lia. unfold zrange. apply lookup_seqZ. lia. }
    split; [done|]. split; [by apply Z.mod_small|]. unfold serves. cbn. split_and!; [lia..|done|].
    left. split; [done|]. lia.
  - intros t p Hp. apply lookup_replicate in Hp as [-> _]. exact I.
  - intros t t' p p' c Hp. apply lookup_replicate in Hp as [-> _]. done.
  - intros p ev Hp. by apply not_elem_of_nil in Hp.
  - constructor.
  - intros p Hp. lia.
Qed.

Lemma step_inv s s' : qinv s → bounded s → step s s' → qinv s'.
Proof using Hk.
  intros Hi Hb Hs. destruct Hs as [s t ev Ht Hev|s t Ht|s t weak p q' p' a Ht Hstep].
  - by apply (inv_thread s t _ _ Hi Ht).
  - by apply (inv_thread s t _ _ Hi Ht).
  - assert (p ≠ Idle) as Hne by (by intros ->).
    destruct (thread_step_ok s t p weak Hi Hb Ht Hne) as (q1 & p1 & a1 & Heq & Hi').
    rewrite Hstep in Heq. injection Heq as -> -> ->. done.
Qed.

Lemma reachable_inv n s : rtc step (initial cap n) s → bounded s → qinv s.
Proof using Hk.
  revert s. apply (rtc_ind_r (λ s, bounded s → qinv s)); [intros _; apply initial_inv|].
  intros s s' Hr Hs IH Hb. assert (bounded s) as Hb' by (unfold bounded in *; apply step_enqueue_mono in Hs; lia).
  eapply step_inv; [by apply IH|done|done].
Qed.

(** The published events still in the ring, oldest first. *)
Lemma in_ring s p :
  qinv s → dequeue_pos (control (queue s)) ≤ p < enqueue_pos (control (queue s)) →
  held (threads s) (inl p) ∨
  ∃ sl ev, slot_at (queue s) p = Some sl ∧ zget (claimed s) p = Some ev ∧
    seq sl = p + 1 ∧ payload sl = event_words ev.
Proof using Hk.
  intros Hi Hp. destruct (qi_at s p Hi) as (sl & r & Hsl & _ & _).
  pose proof (serves_live s p sl Hi Hp Hsl) as (_ & _ & _ & _ & [[Hq Hw]|(Hq & _ & (ev & He & Hpay) & _)]).
  - left. apply Hw. lia.
  - right. by exists sl, ev.
Qed.

Lemma ring_bound s : qinv s → enqueue_pos (control (queue s)) - dequeue_pos (control (queue s)) ≤ cap.
Proof using Hk.
  intros Hi. pose proof (qi_order _ Hi). pose proof cap_ge_2.
  destruct (decide (dequeue_pos (control (queue s)) = enqueue_pos (control (queue s)))); [lia|].
  destruct (qi_at s (dequeue_pos (control (queue s))) Hi) as (sl & r & Hsl & _ & _).
  pose proof (serves_live s _ sl Hi ltac:(split; [reflexivity|lia]) Hsl) as (_ & ? & _). lia.
Qed.

(** ** Calls without interference *)
Lemma run_writes m : ∀ s ev pos n,
  qinv s → bounded s → threads s = [PushWrite ev pos n] → (n + m = 8)%nat →
  ∃ s', run (S m) (queue s) (PushWrite ev pos n) = Some (queue s', PushedOk) ∧ qinv s' ∧
    threads s' = [Idle] ∧ control (queue s') = control (queue s) ∧ claimed s' = claimed s ∧ popped s' = popped s.
Proof using Hk.
  induction m as [|m IH]; intros s ev pos n Hi Hb Hths Hn;
    assert (threads s !! 0%nat = Some (PushWrite ev pos n)) as Ht by (by rewrite Hths);
    pose proof (qi_threads _ Hi _ _ Ht) as (Hpos & _ & _ & sl & Hsl & _);
    cbn [run thread_step]; rewrite (slot_index_mod _ _ Hi); unfold slot_at in Hsl; rewrite Hsl; cbn [mbind option_bind].
  - assert (event_words ev !! n = None) as Hw by (apply lookup_ge_None; change (length _) with 8%nat; lia). rewrite Hw.
    rewrite checked_ok by (unfold bounded in Hb; pose proof cap_ge_2; pose proof (qi_order _ Hi); lia). cbn [mbind option_bind].
    pose proof (inv_publish s 0 ev pos n sl Hi Ht Hsl Hw) as Hi'.
    eexists (with_slot _ _ _ _ _). split; [reflexivity|]. split; [exact Hi'|]. cbn. by rewrite Hths.
  - destruct (lookup_lt_is_Some_2 (event_words ev) n) as [w Hw]; [change (length _) with 8%nat; lia|]. rewrite Hw. cbn [mbind option_bind].
    pose proof (inv_write s 0 ev pos n sl w Hi Ht Hsl Hw) as Hi'.
    destruct (IH _ ev pos (S n) Hi') as (s' & He & ? & ? & ? & ? & ?); [done|cbn; by rewrite Hths|lia|].
    exists s'. by split_and!.
Qed.

Lemma run_reads m : ∀ s pos acc ev,
  qinv s → bounded s → threads s = [PopRead pos acc] → (length acc + m = 8)%nat →
  zget (claimed s) pos = Some ev →
  ∃ s', run (S m) (queue s) (PopRead pos acc) = Some (queue s', Popped pos ev) ∧ qinv s' ∧
    threads s' = [Idle] ∧ control (queue s') = control (queue s) ∧ claimed s' = claimed s.
Proof using Hk.
  induction m as [|m IH]; intros s pos acc ev Hi Hb Hths Hn Hlog;
    assert (threads s !! 0%nat = Some (PopRead pos acc)) as Ht by (by rewrite Hths);
    pose proof (qi_threads _ Hi _ _ Ht) as (Hpos & sl & ev' & Hsl & Hq & Hlog' & Hpay & Hacc);
    (rewrite Hlog in Hlog'; injection Hlog' as <-);
    destruct (thread_step_ok s 0 _ false Hi Hb Ht ltac:(done)) as (q1 & p1 & a1 & Hstep & Hi1);
    cbn [run]; rewrite Hstep; cbn [mbind option_bind]; cbn [thread_step] in Hstep;
    rewrite (slot_index_mod _ _ Hi) in Hstep; unfold slot_at in Hsl; rewrite Hsl in Hstep; cbn [mbind option_bind] in Hstep.
  - replace (length acc <? 8)%nat with false in Hstep by (symmetry; apply Nat.ltb_ge; lia).
    rewrite (qi_len _ Hi), checked_ok in Hstep by (unfold bounded in Hb; pose proof (qi_order _ Hi); pose proof cap_ge_2; lia).
    cbn [mbind option_bind] in Hstep.
    assert (event_of_words acc = Some ev) as Hev.
    { rewrite Hacc, firstn_all2 by (cbn; lia). apply event_words_roundtrip.
      pose proof (qi_events _ Hi) as Hf. rewrite Forall_forall in Hf. by eapply Hf, zget_elem_of. }
    rewrite Hev in Hstep. cbn [mbind option_bind] in Hstep. injection Hstep as <- <- <-.
    eexists (Build_State _ _ _ _). split; [reflexivity|]. split; [exact Hi1|]. cbn. by rewrite Hths.
  - replace (length acc <? 8)%nat with true in Hstep by (symmetry; apply Nat.ltb_lt; lia).
    apply bind_Some in Hstep as (w & _ & [= <- <- <-]).
    destruct (IH _ pos (acc ++ [w]) ev Hi1) as (s' & He & ? & ? & ? & ?);
      [done|cbn; by rewrite Hths|rewrite length_app; cbn; lia|done|].
    exists s'. by split_and!.
Qed.

(** The abstract queue: what has been pushed and not popped, with no call under
    way. *)
Definition contents (q : RequestQueue) (l : list QueueEvent) : Prop :=
  ∃ s, qinv s ∧ queue s = q ∧ threads s = [Idle] ∧
    l = drop (Z.to_nat (dequeue_pos (control q))) (claimed s).

Lemma idle_not_held s c : threads s = [Idle] → ¬ held (threads s) c.
Proof using. intros -> . apply (not_held_idle 1). Qed.

Lemma queue_contents_length q l : contents q l → zlen l = enqueue_pos (control q) - dequeue_pos (control q).
Proof using Hk.
  intros (s & Hi & <- & _ & ->). pose proof (qi_log _ Hi). pose proof (qi_order _ Hi).
  unfold zlen in *. rewrite length_drop. lia.
Qed.

Lemma push_contents q l ev :
  contents q l → event_ok ev → enqueue_pos (control q) + 1 + cap < 2 ^ 63 →
  ∃ q', push q ev = Some (q', zlen l <? cap) ∧ contents q' (if zlen l <? cap then l ++ [ev] else l) ∧
    enqueue_pos (control q') ≤ enqueue_pos (control q) + 1.
Proof using Hk.
  intros Hc Hev Hb. pose proof (queue_contents_length _ _ Hc) as Hlen. destruct Hc as (s & Hi & <- & Hths & Hl).
  pose proof cap_ge_2. pose proof (qi_order _ Hi) as Hord. pose proof (ring_bound s Hi) as Hrb.
  set (E := enqueue_pos (control (queue s))) in *. set (D := dequeue_pos (control (queue s))) in *.
  assert (bounded s) as Hbs by (unfold bounded; fold E; lia).
  assert (threads s !! 0%nat = Some Idle) as Ht by (by rewrite Hths).
  destruct (qi_at s E Hi) as (sl & r & Hsl & Hm & Hs). pose proof (slot_seq_range s E sl Hi Hbs Hsl) as Hseq.
  unfold push. rewrite (run_step 11 _ _ (queue s) (PushSeq ev E) Internal) by done.
  assert (∀ p', p' ≠ Idle → p' = (if seq sl - E =? 0 then PushCas ev E else if seq sl - E <? 0 then PushFull else PushPos ev) →
    run 11 (queue s) (PushSeq ev E) = run 10 (queue s) p') as Hrun1.
  { intros p' Hne ->. apply (run_step 10 _ _ _ _ Internal); [|done]. cbn [thread_step].
    rewrite (slot_index_mod _ _ Hi). pose proof Hsl as Hsl'. unfold slot_at in Hsl'. rewrite Hsl'. cbn [mbind option_bind].
    by rewrite signed_diff_small by lia. }
  destruct Hs as (H0 & HE & HD & _ & Hcase). fold E D in HE, HD, Hcase.
  destruct (zlen l <? cap) eqn:Ecap; bool_solve.
  - (* the slot is free for position [E] *)
    assert (seq sl = E) as HqE.
    { destruct (decide (r = E)) as [->|]; [destruct Hcase as [[? _]|(? & ? & _)]; lia|].
      assert (r = E - cap) as ->.
      { destruct (decide (r = E - cap)); [done|]. assert (r = E); [apply same_slot; [done|lia]|done]. }
      destruct Hcase as [[_ Hw]|(_ & _ & _ & Hr)].
      - destruct Hw as [_ Hh]; [lia|]. by apply idle_not_held in Hh.
      - apply idle_not_held in Hr; [done|done|lia]. }
    rewrite HqE, Z.sub_diag, Z.eqb_refl in Hrun1. rewrite (Hrun1 (PushCas ev E)) by done.
    rewrite (run_step 9 _ _ (queue s <| control := control (queue s) <| enqueue_pos := E + 1 |> |>) (PushWrite ev E 0) (Claimed ev));
      [|cbn [thread_step]; rewrite checked_ok by lia; cbn [mbind option_bind negb andb]; fold E; by rewrite Z.eqb_refl|done].
    assert (qinv {| queue := queue s; threads := [PushCas ev E]; claimed := claimed s; popped := popped s |}) as Hi1.
    { pose proof (inv_thread s 0 _ (PushCas ev E) Hi Ht eq_refl) as Hx. rewrite Hths in Hx. apply Hx.
      split; [done|]. split; [fold E; lia|]. intros _. by exists sl. }
    pose proof (inv_claim_push _ 0%nat ev E Hi1 eq_refl eq_refl) as Hi2. cbn in Hi2. fold E in Hi2.
    destruct (run_writes 8 _ ev E 0 Hi2) as (s' & Hrun & Hi' & Hths' & Hctl & Hlog & _);
      [unfold bounded; cbn; lia|done|done|].
    cbn [queue] in Hrun. rewrite Hrun. cbn [mbind option_bind].
    exists (queue s'). split; [done|]. split; [|rewrite Hctl; cbn; fold E; lia]. exists s'. split_and!; [done|done|done|].
    rewrite Hctl, Hlog. cbn. fold D. rewrite Hl. rewrite drop_app_le; [done|].
    pose proof (qi_log _ Hi). unfold zlen in *. fold E in H1. lia.
  - (* the slot still holds position [E - cap] *)
    assert (seq sl - E < 0) as Hneg.
    { assert (r ≠ E) by lia. assert (r = E - cap) as ->.
      { destruct (decide (r = E - cap)); [done|]. assert (r = E); [apply same_slot; [done|lia]|done]. }
      destruct Hcase as [[Hq _]|(Hq & _)]; lia. }
    replace (seq sl - E =? 0) with false in Hrun1 by lia. replace (seq sl - E <? 0) with true in Hrun1 by lia.
    rewrite (Hrun1 PushFull) by done. rewrite (run_last 9 (queue s) PushFull _ Overflowed eq_refl). cbn [mbind option_bind].
    eexists. split; [done|]. split; [|cbn; fold E; lia].
    exists ({| queue := queue s <| control := control (queue s)
      <| dropped := wrapping_add 64 (dropped (control (queue s))) 1 |> |>;
      threads := [Idle]; claimed := claimed s; popped := popped s |}).
    split; [|done]. pose proof (inv_thread s 0 _ Idle Hi Ht eq_refl I) as Hx. rewrite Hths in Hx.
    destruct Hx. by split.
Qed.

Lemma pop_contents q l :
  contents q l → enqueue_pos (control q) + cap < 2 ^ 63 →
  match l with
  | [] => pop q = Some (q, None)
  | ev :: l' => ∃ q', pop q = Some (q', Some ev) ∧ contents q' l' ∧ enqueue_pos (control q') = enqueue_pos (control q)
  end.
Proof using Hk.
  intros Hc Hb. pose proof (queue_contents_length _ _ Hc) as Hlen. destruct Hc as (s & Hi & <- & Hths & Hl).
  pose proof cap_ge_2. pose proof (qi_order _ Hi) as Hord.
  set (E := enqueue_pos (control (queue s))) in *. set (D := dequeue_pos (control (queue s))) in *.
  assert (bounded s) as Hbs by done.
  assert (threads s !! 0%nat = Some Idle) as Ht by (by rewrite Hths).
  destruct (qi_at s D Hi) as (sl & r & Hsl & Hm & Hs). pose proof (slot_seq_range s D sl Hi Hbs Hsl) as Hseq.
  unfold pop. rewrite (run_step 11 _ _ (queue s) (PopSeq D) Internal) by done.
  assert (thread_step (queue s) false (PopSeq D) =
    Some (if seq sl - (D + 1) =? 0 then (queue s, PopCas D, Internal)
          else if seq sl - (D + 1) <? 0 then (queue s, Idle, FoundEmpty) else (queue s, PopPos, Internal))) as Hstep1.
  { cbn [thread_step].
    rewrite (slot_index_mod _ _ Hi). pose proof Hsl as Hsl'. unfold slot_at in Hsl'. rewrite Hsl'. cbn [mbind option_bind].
    rewrite checked_ok by lia. cbn [mbind option_bind]. by rewrite signed_diff_small by lia. }
  destruct l as [|ev l].
  - change (zlen []) with 0 in Hlen. assert (D = E) as HDE by lia.
    destruct Hs as (H0 & HE & HD & _ & Hcase). fold E D in HE, HD, Hcase.
    assert (seq sl - (D + 1) < 0) as Hneg.
    { destruct Hcase as [[Hq _]|(Hq & Hlt & _)]; [|lia].
      assert (r - cap < D < r + cap ∨ r = D - cap) as [?|?] by lia; [|lia].
      assert (r = D) by (apply same_slot; [done|lia]). lia. }
    replace (seq sl - (D + 1) =? 0) with false in Hstep1 by lia. replace (seq sl - (D + 1) <? 0) with true in Hstep1 by lia.
    by rewrite (run_last 10 _ _ _ _ Hstep1).
  - assert (D < E) as HDE by (unfold zlen in Hlen; cbn in Hlen; lia).
    pose proof (serves_live s D sl Hi ltac:(fold D E; lia) Hsl) as (_ & _ & _ & _ & Hcase).
    destruct Hcase as [[_ Hw]|(Hq & _ & (e & He & _) & _)].
    { destruct Hw as [_ Hh]; [done|]. by apply idle_not_held in Hh. }
    rewrite Hq, Z.sub_diag, Z.eqb_refl in Hstep1. rewrite (run_step 10 _ _ _ _ _ Hstep1) by done.
    rewrite (run_step 9 _ _ (queue s <| control := control (queue s) <| dequeue_pos := D + 1 |> |>) (PopRead D []) Internal);
      [|cbn [thread_step]; rewrite checked_ok by lia; cbn [mbind option_bind negb andb]; fold D; by rewrite Z.eqb_refl|done].
    assert (qinv {| queue := queue s; threads := [PopCas D]; claimed := claimed s; popped := popped s |}) as Hi1.
    { pose proof (inv_thread s 0 _ (PopCas D) Hi Ht eq_refl) as Hx. rewrite Hths in Hx. apply Hx.
      split; [fold D; lia|]. intros _. by exists sl. }
    pose proof (inv_claim_pop _ 0%nat D Hi1 eq_refl eq_refl) as Hi2. cbn in Hi2. fold D in Hi2.
    destruct (run_reads 8 _ D [] e Hi2) as (s' & Hrun & Hi' & Hths' & Hctl & Hlog);
      [done|done|done|done|].
    cbn [queue] in Hrun. rewrite Hrun. cbn [mbind option_bind].
    assert (claimed s !! Z.to_nat D = Some e) as HeD by (rewrite zget_lookup in He by lia; done).
    rewrite (drop_S _ e _ HeD) in Hl. injection Hl as -> ->.
    exists (queue s'). split; [done|]. split; [|by rewrite Hctl].
    exists s'. split_and!; [done|done|done|]. rewrite Hctl, Hlog. cbn. fold D. f_equal. lia.
Qed.

Lemma drain_contents room : ∀ q l,
  contents q l → enqueue_pos (control q) + cap < 2 ^ 63 →
  ∃ q', drain q room = Some (q', take room l) ∧ contents q' (drop room l).
Proof using Hk.
  induction room as [|room IH]; intros q l Hc Hb; cbn [drain]; [by exists q|].
  pose proof (pop_contents q l Hc Hb) as Hp. destruct l as [|ev l].
  - rewrite Hp. by exists q.
  - destruct Hp as (q1 & -> & Hc1 & HE). cbn [mbind option_bind].
    destruct (IH q1 l Hc1 ltac:(lia)) as (q2 & -> & Hc2). by exists q2.
Qed.

Lemma new_contents : contents (queue_new cap) [].
Proof using Hk. exists (initial cap 1). split; [apply initial_inv|]. done. Qed.
End invariant.

(** C7: the queue under every interleaving of any number of pushing and popping
    threads, over fewer than 2^63 pushes.  No access panics; the ring never holds
    more than its capacity; an event that a pop returned is exactly the event that
    the push at that position was given (nothing torn or mixed), no position is
    returned twice, and nothing is lost: every position won by a push has been
    returned, is being written or read by a thread, or lies intact in its slot. *)
Theorem queue_exactly_once k n s :
  let cap := 2 ^ k in
  let E := enqueue_pos (control (queue s)) in
  let D := dequeue_pos (control (queue s)) in
  1 ≤ k → rtc step (initial cap n) s → E + cap < 2 ^ 63 →
  (∀ t p weak, threads s !! t = Some p → p ≠ Idle → is_Some (thread_step (queue s) weak p)) ∧
  0 ≤ E - D ≤ cap ∧ zlen (claimed s) = E ∧
  NoDup (popped s).*1 ∧
  (∀ p ev, (p, ev) ∈ popped s → zget (claimed s) p = Some ev) ∧
  ∀ p ev, zget (claimed s) p = Some ev →
    p ∈ (popped s).*1 ∨ held (threads s) (inl p) ∨ held (threads s) (inr p) ∨
    ∃ sl, zget (slots (queue s)) (p mod cap) = Some sl ∧ seq sl = p + 1 ∧ payload sl = event_words ev.
Proof.
  intros cap E D Hk Hr Hb. pose proof (reachable_inv k Hk n s Hr Hb) as Hi.
  pose proof (qi_order _ _ Hi). pose proof (ring_bound k Hk s Hi).
  split; [|split; [unfold E, D, cap; lia|split; [apply (qi_log _ _ Hi)|split; [apply (qi_nodup _ _ Hi)|split]]]].
  - intros t p weak Ht Hne. destruct (thread_step_ok k Hk s t p weak Hi Hb Ht Hne) as (? & ? & ? & -> & _).
    by eexists.
  - intros p ev Hp. by apply (qi_popped _ _ Hi p ev Hp).
  - intros p ev Hp. pose proof (zget_Some_range _ _ _ Hp) as Hrange. rewrite (qi_log _ _ Hi) in Hrange.
    destruct (decide (p < D)).
    + destruct (qi_taken _ _ Hi p) as [?|?]; [unfold D in *; lia|by left|by right; right; left].
    + destruct (in_ring k Hk s p Hi) as [?|(sl & ev' & Hsl & Hev & Hq & Hpay)];
        [unfold D, E in *; lia|by right; left|].
      right; right; right. exists sl. rewrite Hp in Hev. injection Hev as <-. done.
Qed.

Definition sample_event (h : Z) : QueueEvent :=
  {| ev_rule_fingerprint := 2 ^ 100 + 7; ev_key_hash := 5; ev_bucket := 3; ev_hits := h;
     ev_rule_limit := 10; ev_now_millis := 99 |}.

Lemma sample_event_ok h : event_ok (sample_event h).
Proof. split; vm_compute; split; congruence. Qed.

(** Two pushes race for position 0; the second has loaded it when the first wins. *)
Lemma sample_race :
  ∃ s, rtc step (initial 4 2) s ∧ threads s = [PushWrite (sample_event 1) 0 0; PushSeq (sample_event 2) 0] ∧
    claimed s = [sample_event 1] ∧ popped s = [] ∧ enqueue_pos (control (queue s)) = 1.
Proof.
  eexists. split.
  - eapply rtc_l; [apply (step_push _ 0%nat (sample_event 1)); [done|apply sample_event_ok]|].
    eapply rtc_l; [apply (step_push _ 1%nat (sample_event 2)); [done|apply sample_event_ok]|].
    do 2 (eapply rtc_l; [eapply (step_thread _ 0%nat false); reflexivity|]).
    eapply rtc_l; [eapply (step_thread _ 1%nat false); reflexivity|].
    eapply rtc_l; [eapply (step_thread _ 0%nat false); reflexivity|]. apply rtc_refl.
  - done.
Qed.

Lemma queue_exactly_once_witness :
  ∃ s, rtc step (initial 4 2) s ∧ claimed s = [sample_event 1] ∧
    (0 ∈ (popped s).*1 ∨ held (threads s) (inl 0) ∨ held (threads s) (inr 0) ∨
     ∃ sl, zget (slots (queue s)) (0 mod 4) = Some sl ∧ seq sl = 0 + 1 ∧
       payload sl = event_words (sample_event 1)).
Proof.
  destruct sample_race as (s & Hr & _ & Hc & _ & HE). exists s. split; [exact Hr|]. split; [exact Hc|].
  destruct (queue_exactly_once 2 2 s) as (_ & _ & _ & _ & _ & H);
    [lia|exact Hr|rewrite HE; reflexivity|]. apply H. rewrite Hc. reflexivity.
Defined.

(** Without interference the queue is a bounded FIFO.  A push to a queue that is
    not full succeeds and appends the event, to a full one it fails and changes
    nothing; a pop returns the oldest event, or nothing from an empty queue; and
    draining returns the oldest events, as many as there are or as fit.  Every
    call returns within the twelve accesses it is given. *)
Theorem queue_is_fifo k q l :
  1 ≤ k → contents k q l → enqueue_pos (control q) + 1 + 2 ^ k < 2 ^ 63 →
  (∀ ev, event_ok ev →
     if zlen l <? 2 ^ k then ∃ q', push q ev = Some (q', true) ∧ contents k q' (l ++ [ev])
     else ∃ q', push q ev = Some (q', false) ∧ contents k q' l) ∧
  match l with
  | [] => pop q = Some (q, None)
  | ev :: l' => ∃ q', pop q = Some (q', Some ev) ∧ contents k q' l'
  end ∧
  ∀ room, ∃ q', drain q room = Some (q', take room l) ∧ contents k q' (drop room l).
Proof.
  intros Hk Hc Hb. split; [|split].
  - intros ev Hev. destruct (push_contents k Hk q l ev Hc Hev Hb) as (q' & ? & ? & _). destruct (zlen l <? 2 ^ k); by exists q'.
  - pose proof (pop_contents k Hk q l Hc ltac:(lia)) as Hp. destruct l as [|ev l]; [done|].
    destruct Hp as (q' & ? & ? & _). by exists q'.
  - intros room. apply drain_contents; [done|done|lia].
Qed.

Lemma queue_is_fifo_witness :
  ∃ q', push (queue_new 4) (sample_event 1) = Some (q', true) ∧ contents 2 q' [sample_event 1].
Proof.
  apply (proj1 (queue_is_fifo 2 (queue_new 4) [] ltac:(lia) (new_contents 2 ltac:(lia)) ltac:(reflexivity))
    (sample_event 1) (sample_event_ok 1)).
Defined.
