(* ===== verification/Lease.v ===== *)
(** * The leader lease

    [crates/nginx/src/shm/lease.rs]: owner and expiry packed into one 64-bit
    word that workers change by compare-and-swap, and an epoch that counts
    take-overs.  [try_acquire] and [release] are the calls as one caller sees
    them; [lease_step] is one atomic access, so that the calls of several
    workers interleave. *)

From S2P Require Import Prelude.

Definition OWNER_SHIFT : Z := 40.
Definition OWNER_MAX : Z := Z.shiftl 1 24 - 1.
Definition EXPIRES_MASK : Z := Z.shiftl 1 OWNER_SHIFT - 1.

Record LeaderLease := { state : Z; epoch : Z }.
#[export] Instance eta_LeaderLease : Eta LeaderLease := λ x, {| state := state x; epoch := epoch x |}.
Definition LeaderLease_default : LeaderLease := {| state := 0; epoch := 0 |}.

Record LeaseSnapshot := { owner_worker : Z; expires_millis : Z; snap_epoch : Z }.

Definition pack (owner expires_millis : Z) : Z :=
  let owner := Z.land owner OWNER_MAX in
  let expires := Z.land expires_millis EXPIRES_MASK in
  Z.lor (Z.shiftl owner OWNER_SHIFT) expires.

Definition unpack (state : Z) : Z * Z :=
  let owner := as_u32 (Z.shiftr state OWNER_SHIFT) in
  let expires := Z.land state EXPIRES_MASK in
  (owner, expires).

Definition truncate_owner (worker_id : Z) : Z :=
  let lo := Z.land worker_id OWNER_MAX in
  let hi := Z.shiftr worker_id 24 in
  let folded := Z.lxor lo hi in
  if folded =? 0 then 1 else folded.

Definition snapshot (self : LeaderLease) : LeaseSnapshot :=
  let '(owner, expires) := unpack (state self) in
  {| owner_worker := owner; expires_millis := expires; snap_epoch := epoch self |}.

(** The clamped clock and the expiry a call asks for. *)
Definition clamp_now (now_millis : Z) : Z := Z.min now_millis EXPIRES_MASK.
Definition new_expiry (now_millis ttl_millis : Z) : Z :=
  Z.min (saturating_add 64 (clamp_now now_millis) ttl_millis) EXPIRES_MASK.

(** Without interference the CAS succeeds the first time round the loop. *)
Definition try_acquire (self : LeaderLease) (worker_id now_millis ttl_millis : Z) : LeaderLease * bool :=
  if (worker_id =? 0) || (ttl_millis =? 0) then (self, false) else
  let now := clamp_now now_millis in
  let new_expires := new_expiry now_millis ttl_millis in
  let owner_id := truncate_owner worker_id in
  let '(owner, expires) := unpack (state self) in
  if owner =? owner_id then (self <| state := pack owner_id new_expires |>, true)
  else if negb (owner =? 0) && (now <? expires) then (self, false)
  else (self <| state := pack owner_id new_expires |> <| epoch := wrapping_add 64 (epoch self) 1 |>, true).

Definition release (self : LeaderLease) (worker_id : Z) : LeaderLease * bool :=
  let owner_id := truncate_owner worker_id in
  let '(owner, _) := unpack (state self) in
  if negb (owner =? owner_id) then (self, false)
  else (self <| state := pack 0 0 |>, true).

(** ** Interleaved calls *)
Inductive lpc :=
  | Away                                        (** not in a call *)
  | AcqLoad (worker now ttl : Z)                (** about to load [state] *)
  | AcqRenew (worker now ttl seen : Z)          (** own lease: about to CAS *)
  | AcqTake (worker now ttl seen : Z)           (** idle or expired: about to CAS *)
  | AcqBump (worker : Z)                        (** about to bump [epoch] *)
  | RelLoad (worker : Z)
  | RelCas (worker seen : Z).

Definition lease_step (l : LeaderLease) (p : lpc) : option (LeaderLease * lpc * option bool) :=
  match p with
  | Away => None
  | AcqLoad worker now ttl =>
    if (worker =? 0) || (ttl =? 0) then Some (l, Away, Some false) else
    let '(owner, expires) := unpack (state l) in
    if owner =? truncate_owner worker then Some (l, AcqRenew worker now ttl (state l), None)
    else if negb (owner =? 0) && (clamp_now now <? expires) then Some (l, Away, Some false)
    else Some (l, AcqTake worker now ttl (state l), None)
  | AcqRenew worker now ttl seen =>
    if state l =? seen
    then Some (l <| state := pack (truncate_owner worker) (new_expiry now ttl) |>, Away, Some true)
    else Some (l, AcqLoad worker now ttl, None)
  | AcqTake worker now ttl seen =>
    if state l =? seen
    then Some (l <| state := pack (truncate_owner worker) (new_expiry now ttl) |>, AcqBump worker, None)
    else Some (l, AcqLoad worker now ttl, None)
  | AcqBump worker => Some (l <| epoch := wrapping_add 64 (epoch l) 1 |>, Away, Some true)
  | RelLoad worker =>
    let '(owner, _) := unpack (state l) in
    if negb (owner =? truncate_owner worker) then Some (l, Away, Some false)
    else Some (l, RelCas worker (state l), None)
  | RelCas worker seen =>
    if state l =? seen then Some (l <| state := pack 0 0 |>, Away, Some true)
    else Some (l, RelLoad worker, None)
  end.

(** The call a worker makes; [calls] keeps every worker's last one. *)
Inductive LCall := Acquire (worker now ttl : Z) | Release (worker : Z).
Record LState := { lease : LeaderLease; workers : list lpc; calls : list (option LCall) }.

Inductive lstep : LState → LState → Prop :=
  | lstep_acquire s t worker now ttl :
    workers s !! t = Some Away → uint 32 worker → uint 64 now → uint 64 ttl →
    lstep s {| lease := lease s; workers := <[t := AcqLoad worker now ttl]> (workers s);
               calls := <[t := Some (Acquire worker now ttl)]> (calls s) |}
  | lstep_release s t worker :
    workers s !! t = Some Away → uint 32 worker →
    lstep s {| lease := lease s; workers := <[t := RelLoad worker]> (workers s);
               calls := <[t := Some (Release worker)]> (calls s) |}
  | lstep_thread s t p l' p' r :
    workers s !! t = Some p → lease_step (lease s) p = Some (l', p', r) →
    lstep s {| lease := l'; workers := <[t := p']> (workers s); calls := calls s |}.

Definition lease_initial (n : nat) : LState :=
  {| lease := LeaderLease_default; workers := replicate n Away; calls := replicate n None |}.

(** ** The packed word *)
Lemma pack_split owner expires :
  0 ≤ owner < 2 ^ 24 → 0 ≤ expires < 2 ^ 40 → pack owner expires = owner * 2 ^ 40 + expires.
Proof.
  intros Ho He. unfold pack. change OWNER_MAX with (2 ^ 24 - 1). change EXPIRES_MASK with (2 ^ 40 - 1).
  rewrite !land_mask_mod, !Z.mod_small by lia. unfold OWNER_SHIFT.
  rewrite Z.shiftl_mul_pow2 by lia. rewrite <- Z.lxor_lor, <- Z.add_nocarry_lxor; [done|..];
  apply Z.bits_inj'; intros n Hn; rewrite Z.land_spec, Z.bits_0; apply andb_false_iff;
  (destruct (decide (n < 40)); [left; apply Z.mul_pow2_bits_low; lia|right]);
  (destruct (decide (expires = 0)) as [->|]; [apply Z.bits_0|]);
  (apply Z.bits_above_log2; [lia|]; apply Z.lt_le_trans with 40; [apply Z.log2_lt_pow2; lia|lia]).
Qed.

Lemma unpack_pack owner expires :
  0 ≤ owner < 2 ^ 24 → 0 ≤ expires < 2 ^ 40 → unpack (pack owner expires) = (owner, expires).
Proof.
  intros Ho He. rewrite pack_split by done. unfold unpack, as_u32, OWNER_SHIFT.
  change EXPIRES_MASK with (2 ^ 40 - 1). rewrite land_mask_mod, Z.shiftr_div_pow2 by lia.
  rewrite Z.div_add_l by lia. rewrite (Z.div_small expires), Z.add_0_r by lia.
  rewrite (Z.mod_small owner) by lia. f_equal. rewrite Z.add_comm, Z.mod_add by lia. by apply Z.mod_small.
Qed.

Lemma truncate_owner_range w : uint 32 w → 1 ≤ truncate_owner w < 2 ^ 24.
Proof.
  unfold uint. intros Hw. unfold truncate_owner. change OWNER_MAX with (2 ^ 24 - 1).
  rewrite land_mask_mod, Z.shiftr_div_pow2 by lia.
  pose proof (Z.mod_pos_bound w (2 ^ 24) ltac:(lia)). assert (0 ≤ w / 2 ^ 24 < 2 ^ 24).
  { split; [apply Z.div_pos; lia|apply Z.div_lt_upper_bound; lia]. }
  set (lo := w mod 2 ^ 24) in *. set (hi := w / 2 ^ 24) in *.
  assert (0 ≤ Z.lxor lo hi) by (apply Z.lxor_nonneg; lia).
  destruct (Z.lxor lo hi =? 0) eqn:E; [lia|]. bool_solve. split; [lia|].
  apply Z.log2_lt_pow2; [lia|]. pose proof (Z.log2_lxor lo hi ltac:(lia) ltac:(lia)).
  assert (∀ x, 0 ≤ x < 2 ^ 24 → Z.log2 x < 24) as Hl.
  { intros x Hx. destruct (decide (x = 0)) as [->|]; [done|]. apply Z.log2_lt_pow2; lia. }
  pose proof (Hl lo ltac:(lia)). pose proof (Hl hi ltac:(lia)). lia.
Qed.

Lemma new_expiry_range now ttl : 0 ≤ now → 0 ≤ ttl → 0 ≤ new_expiry now ttl < 2 ^ 40.
Proof.
  intros Hn Ht. unfold new_expiry, clamp_now, saturating_add. change EXPIRES_MASK with (2 ^ 40 - 1). lia.
Qed.

(** ** One call at a time *)

(** The word of a lease is always a packed pair. *)
Definition word_ok (w : Z) : Prop := ∃ owner expires,
  0 ≤ owner < 2 ^ 24 ∧ 0 ≤ expires < 2 ^ 40 ∧ w = pack owner expires.

(** What a call does.  Acquiring succeeds exactly when the caller already owns
    the lease, or nobody does, or it has expired by the caller's clock; it then
    stores the caller and the new expiry together, and counts a new epoch only on
    a take-over.  Otherwise, and when releasing someone else's lease, the call
    fails and changes nothing; releasing one's own leaves it idle. *)
Theorem lease_calls l worker now ttl :
  word_ok (state l) → uint 32 worker → worker ≠ 0 → uint 64 now → uint 64 ttl → ttl ≠ 0 →
  let '(owner, expires) := unpack (state l) in
  let me := truncate_owner worker in
  let '(l1, acquired) := try_acquire l worker now ttl in
  let '(l2, released) := release l worker in
  (acquired = true ↔ owner = me ∨ owner = 0 ∨ expires ≤ Z.min now (2 ^ 40 - 1)) ∧
  (acquired = true →
     unpack (state l1) = (me, Z.min (now + ttl) (2 ^ 40 - 1)) ∧
     (epoch l1 = epoch l ↔ owner = me)) ∧
  (acquired = false → l1 = l) ∧
  (released = true ↔ owner = me) ∧
  (released = true → unpack (state l2) = (0, 0)) ∧
  (released = false → l2 = l).
Proof.
  unfold uint. intros (o & e & Ho & He & Hw) Hwk Hw0 Hnow Httl Ht0. rewrite Hw, unpack_pack by done. cbn zeta.
  pose proof (truncate_owner_range worker Hwk). pose proof (new_expiry_range now ttl ltac:(lia) ltac:(lia)).
  assert (new_expiry now ttl = Z.min (now + ttl) (2 ^ 40 - 1)) as Hexp.
  { unfold new_expiry, clamp_now, saturating_add. change EXPIRES_MASK with (2 ^ 40 - 1). lia. }
  unfold try_acquire, release. rewrite Hw, unpack_pack by done.
  replace (worker =? 0) with false by lia. replace (ttl =? 0) with false by lia. cbn [orb].
  assert (wrapping_add 64 (epoch l) 1 ≠ epoch l) as Hep.
  { unfold wrapping_add. intros Heq. pose proof (Z.mod_pos_bound (epoch l + 1) (2 ^ 64) ltac:(lia)).
    destruct (decide (epoch l + 1 < 2 ^ 64)); [rewrite Z.mod_small in Heq by lia; lia|].
    replace (epoch l) with (2 ^ 64 - 1) in Heq by lia. vm_compute in Heq. done. }
  assert (unpack (pack 0 0) = (0, 0)) as H00 by reflexivity.
  assert (unpack (pack (truncate_owner worker) (new_expiry now ttl)) =
    (truncate_owner worker, Z.min (now + ttl) (2 ^ 40 - 1))) as Hup by (by rewrite unpack_pack, Hexp by lia).
  unfold clamp_now. change EXPIRES_MASK with (2 ^ 40 - 1).
  destruct (o =? truncate_owner worker) eqn:E1; bool_solve; cbn [negb].
  - split_and!; try done; try tauto.
  - destruct (negb (o =? 0) && (Z.min now (2 ^ 40 - 1) <? e)) eqn:E2;
      (split_and!; try done; try tauto); try lia.
Qed.

Lemma lease_calls_witness :
  let l := {| state := pack 9 500; epoch := 3 |} in
  (try_acquire l 7 400 1000).2 = false ∧ (try_acquire l 7 600 1000).2 = true ∧
  unpack (state (try_acquire l 7 600 1000).1) = (7, 1600).
Proof.
  intros l. assert (word_ok (state l)) as Hw by (exists 9, 500; done).
  pose proof (lease_calls l 7 400 1000 Hw) as H1. pose proof (lease_calls l 7 600 1000 Hw) as H2.
  split; [reflexivity|]. split; [reflexivity|].
  destruct H2 as (_ & H & _); [by vm_compute|lia|by vm_compute|by vm_compute|lia|].
  exact (proj1 (H eq_refl)).
Defined.

(** ** Interleaved calls *)


(** A worker inside a call is where the call it made can be, and has seen what
    the call asks for. *)
Definition lpc_ok (call : option LCall) (p : lpc) : Prop :=
  match p with
  | Away => True
  | AcqLoad w now ttl => call = Some (Acquire w now ttl) ∧ uint 32 w ∧ uint 64 now ∧ uint 64 ttl
  | AcqRenew w now ttl seen =>
    call = Some (Acquire w now ttl) ∧ uint 32 w ∧ uint 64 now ∧ uint 64 ttl ∧ (unpack seen).1 = truncate_owner w
  | AcqTake w now ttl seen =>
    call = Some (Acquire w now ttl) ∧ uint 32 w ∧ uint 64 now ∧ uint 64 ttl ∧
      ((unpack seen).1 = 0 ∨ (unpack seen).2 ≤ clamp_now now)
  | AcqBump w => True
  | RelLoad w => call = Some (Release w)
  | RelCas w seen => call = Some (Release w) ∧ (unpack seen).1 = truncate_owner w
  end.

Lemma lease_step_ok call l p l' p' r : lpc_ok call p → lease_step l p = Some (l', p', r) → lpc_ok call p'.
Proof.
  destruct p as [|w now ttl|w now ttl seen|w now ttl seen|w|w|w seen]; cbn [lease_step lpc_ok]; intros Hok H; [done|..].
  - destruct (_ || _); [by injection H as <- <- <-|]. destruct (unpack (state l)) as [o e] eqn:Eu.
    destruct (o =? truncate_owner w) eqn:E1; [|destruct (negb _ && _) eqn:E2]; injection H as <- <- <-; cbn [lpc_ok]; rewrite ?Eu; cbn [fst snd]; bool_solve.
    + tauto.
    + done.
    + split_and!; try tauto. cbn. apply andb_false_iff in E2. lia.
  - destruct (state l =? seen); injection H as <- <- <-; cbn; tauto.
  - destruct (state l =? seen); injection H as <- <- <-; cbn; tauto.
  - injection H as <- <- <-. done.
  - destruct (unpack (state l)) as [o e] eqn:Eu. destruct (negb _) eqn:E; injection H as <- <- <-; cbn [lpc_ok]; [done|].
    rewrite Eu. cbn. split; [done|]. lia.
  - destruct (state l =? seen); injection H as <- <- <-; cbn; tauto.
Qed.

(** A worker that made no change is where it was. *)
Lemma lease_step_moves l p l' p' r : lease_step l p = Some (l', p', r) → state l' ≠ state l → p' ≠ p.
Proof.
  destruct p as [|w now ttl|w now ttl seen|w now ttl seen|w|w|w seen]; cbn [lease_step]; intros H Hne; [done|..].
  - destruct (_ || _); [by injection H as <- <- <-|]. destruct (unpack (state l)) as [o e].
    destruct (o =? _); [by simplify_eq|]. destruct (negb _ && _); by simplify_eq.
  - destruct (_ =? _); by simplify_eq.
  - destruct (_ =? _); by simplify_eq.
  - by simplify_eq.
  - destruct (unpack (state l)) as [o e]. destruct (negb _); by simplify_eq.
  - destruct (_ =? _); by simplify_eq.
Qed.

Definition workers_ok (s : LState) : Prop :=
  length (calls s) = length (workers s) ∧
  ∀ t p, workers s !! t = Some p → ∃ c, calls s !! t = Some c ∧ lpc_ok c p.

Lemma workers_ok_insert s t p c l :
  workers_ok s → (t < length (workers s))%nat → lpc_ok c p →
  workers_ok {| lease := l; workers := <[t := p]> (workers s); calls := <[t := c]> (calls s) |}.
Proof.
  intros [Hlen Hok] Ht Hp. split; cbn; [by rewrite !length_insert|]. intros t' p' Hp'.
  destruct (decide (t = t')) as [->|].
  - rewrite list_lookup_insert_eq in Hp' by done. injection Hp' as <-. exists c.
    by rewrite list_lookup_insert_eq by congruence.
  - rewrite list_lookup_insert_ne in Hp' by done. rewrite list_lookup_insert_ne by done. by apply Hok.
Qed.

Lemma reachable_workers n s : rtc lstep (lease_initial n) s → workers_ok s.
Proof.
  revert s. apply (rtc_ind_r workers_ok).
  { split; cbn; [by rewrite !length_replicate|]. intros t p [-> Ht]%lookup_replicate. exists None.
    split; [by apply lookup_replicate|done]. }
  intros s s' _ Hs IH.
  destruct Hs as [s t w now ttl Ht ? ? ?|s t w Ht ?|s t p l' p' r Ht Hstep].
  - apply workers_ok_insert; [done|by apply lookup_lt_Some in Ht|done].
  - apply workers_ok_insert; [done|by apply lookup_lt_Some in Ht|done].
  - destruct (proj2 IH t p Ht) as (c & Hc & Hp). rewrite <- (list_insert_id (calls s) t c Hc).
    apply workers_ok_insert; [done|by apply lookup_lt_Some in Ht|]. by eapply lease_step_ok.
Qed.

(** C26: no race changes a live lease.  Under every interleaving of any number of
    workers, each single change of the lease word is made by one worker, inside a
    call, and is what that call asks for: an acquiring worker stores itself with
    the expiry its own clock and lifetime give, and only over a lease that is its
    own, idle, or expired by its own clock at the moment of the change; a
    releasing worker clears its own lease.  Owner and expiry change together. *)
Theorem lease_exclusive n s s' :
  rtc lstep (lease_initial n) s → lstep s s' → state (lease s') ≠ state (lease s) →
  let '(owner, expires) := unpack (state (lease s)) in
  ∃ t call, calls s !! t = Some (Some call) ∧ calls s' = calls s ∧
    workers s' !! t ≠ workers s !! t ∧ (∀ t', t' ≠ t → workers s' !! t' = workers s !! t') ∧
    match call with
    | Acquire worker now ttl =>
      unpack (state (lease s')) = (truncate_owner worker, new_expiry now ttl) ∧
      (owner = truncate_owner worker ∨ owner = 0 ∨ expires ≤ clamp_now now)
    | Release worker => owner = truncate_owner worker ∧ unpack (state (lease s')) = (0, 0)
    end.
Proof.
  intros Hr Hs. destruct Hs as [| |s t p l' p' r Ht Hstep]; cbn [lease workers calls]; [done|done|]. intros Hne.
  pose proof (lease_step_moves _ _ _ _ _ Hstep Hne) as Hmove.
  destruct (proj2 (reachable_workers n s Hr) t p Ht) as (c & Hc & Hok).
  assert (∀ w now ttl, uint 32 w → uint 64 now → uint 64 ttl →
    unpack (pack (truncate_owner w) (new_expiry now ttl)) = (truncate_owner w, new_expiry now ttl)) as Hup.
  { unfold uint. intros w now ttl ? ? ?. apply unpack_pack; [|apply new_expiry_range; lia].
    pose proof (truncate_owner_range w ltac:(done)). lia. }
  assert (<[t := p']> (workers s) !! t ≠ workers s !! t ∧ ∀ t', t' ≠ t → <[t := p']> (workers s) !! t' = workers s !! t') as Hthread.
  { split; [|intros t' ?; by rewrite list_lookup_insert_ne]. rewrite Ht, list_lookup_insert_eq by (by apply lookup_lt_Some in Ht). congruence. }
  destruct (unpack (state (lease s))) as [o e] eqn:Eu.
  destruct p as [|w now ttl|w now ttl seen|w now ttl seen|w|w|w seen]; cbn [lease_step lpc_ok] in *; [done|..].
  - rewrite Eu in Hstep. destruct (_ || _); [by simplify_eq|].
    destruct (o =? _); [by simplify_eq|]. destruct (negb _ && _); by simplify_eq.
  - destruct (state (lease s) =? seen) eqn:E; bool_solve; simplify_eq. destruct Hok as (-> & ? & ? & ? & Ho).
    rewrite Eu in Ho. cbn in Ho. exists t, (Acquire w now ttl). split_and!; try apply Hthread; try done; [by apply Hup|by left].
  - destruct (state (lease s) =? seen) eqn:E; bool_solve; simplify_eq. destruct Hok as (-> & ? & ? & ? & Ho).
    rewrite Eu in Ho. cbn in Ho. exists t, (Acquire w now ttl). split_and!; try apply Hthread; try done; [by apply Hup|by right].
  - by simplify_eq.
  - rewrite Eu in Hstep. destruct (negb _); by simplify_eq.
  - destruct (state (lease s) =? seen) eqn:E; bool_solve; simplify_eq. destruct Hok as (-> & Ho).
    rewrite Eu in Ho. cbn in Ho. exists t, (Release w). split_and!; try apply Hthread; done.
Qed.

(** Worker 5 has taken over an idle lease and has not bumped the epoch yet; worker
    6 is about to take over once that lease has expired. *)
Lemma sample_stall :
  ∃ s, rtc lstep (lease_initial 2) s ∧ state (lease s) = pack 5 1000 ∧
    workers s = [AcqBump 5; AcqTake 6 1500 1000 (pack 5 1000)].
Proof.
  eexists. split.
  - eapply rtc_l; [apply (lstep_acquire _ 0%nat 5 0 1000); [done|by vm_compute..]|].
    do 2 (eapply rtc_l; [eapply (lstep_thread _ 0%nat); reflexivity|]).
    eapply rtc_l; [apply (lstep_acquire _ 1%nat 6 1500 1000); [done|by vm_compute..]|].
    eapply rtc_l; [eapply (lstep_thread _ 1%nat); reflexivity|]. apply rtc_refl.
  - split_and!; reflexivity.
Qed.

Lemma lease_exclusive_witness :
  ∃ s s', rtc lstep (lease_initial 2) s ∧ lstep s s' ∧ unpack (state (lease s)) = (5, 1000) ∧
    ∃ t call, calls s !! t = Some (Some call) ∧
      match call with
      | Acquire worker now ttl =>
        unpack (state (lease s')) = (truncate_owner worker, new_expiry now ttl) ∧
        (5 = truncate_owner worker ∨ 5 = 0 ∨ 1000 ≤ clamp_now now)
      | Release worker => 5 = truncate_owner worker ∧ unpack (state (lease s')) = (0, 0)
      end.
Proof.
  destruct sample_stall as (s & Hr & Hst & Hw).
  assert (lstep s {| lease := lease s <| state := pack (truncate_owner 6) (new_expiry 1500 1000) |>;
    workers := <[1%nat := AcqBump 6]> (workers s); calls := calls s |}) as Hs.
  { eapply (lstep_thread _ 1%nat); [by rewrite Hw|]. cbn [lease_step]. by rewrite Hst, Z.eqb_refl. }
  assert (unpack (state (lease s)) = (5, 1000)) as Hu by (by rewrite Hst).
  eexists s, _. split; [exact Hr|]. split; [exact Hs|]. split; [exact Hu|].
  pose proof (lease_exclusive 2 s _ Hr Hs) as H. rewrite Hu in H.
  destruct H as (t & call & H1 & _ & _ & _ & H2); [rewrite Hst; vm_compute; congruence|].
  exists t, call. split; [exact H1|exact H2].
Defined.

(** Two workers [i] and [j] beside others that stay where they are. *)
Section two_workers.
Context (ws : list lpc) (i j : nat) (Hij : i ≠ j).
Context (Hi : ws !! i = Some Away) (Hj : ws !! j = Some Away).

Definition pair_at (l : LeaderLease) (p q : lpc) (cs : list (option LCall)) : LState :=
  {| lease := l; workers := <[j := q]> (<[i := p]> ws); calls := cs |}.

Lemma pair_away l cs : pair_at l Away Away cs = {| lease := l; workers := ws; calls := cs |}.
Proof using Hi Hj. unfold pair_at. by rewrite (list_insert_id _ i) by done; rewrite list_insert_id. Qed.

Lemma pair_first p q : <[j := q]> (<[i := p]> ws) !! i = Some p.
Proof using Hij Hi. rewrite list_lookup_insert_ne, list_lookup_insert_eq by (done || by eapply lookup_lt_Some). done. Qed.
Lemma pair_second p q : <[j := q]> (<[i := p]> ws) !! j = Some q.
Proof using Hj. rewrite list_lookup_insert_eq; [done|]. rewrite length_insert. by eapply lookup_lt_Some. Qed.
Lemma pair_set_first p q p' : <[i := p']> (<[j := q]> (<[i := p]> ws)) = <[j := q]> (<[i := p']> ws).
Proof using Hij. rewrite list_insert_insert_ne by done. by rewrite list_insert_insert_eq. Qed.
Lemma pair_set_second p q q' : <[j := q']> (<[j := q]> (<[i := p]> ws)) = <[j := q']> (<[i := p]> ws).
Proof using. by rewrite list_insert_insert_eq. Qed.

Lemma first_acquires l q cs w now ttl : uint 32 w → uint 64 now → uint 64 ttl →
  ∃ cs', lstep (pair_at l Away q cs) (pair_at l (AcqLoad w now ttl) q cs').
Proof using Hij Hi.
  intros. eexists. unfold pair_at. rewrite <- (pair_set_first Away q (AcqLoad w now ttl)).
  apply (lstep_acquire {| lease := l; workers := _; calls := cs |} i); try done. apply pair_first.
Qed.
Lemma second_acquires l p cs w now ttl : uint 32 w → uint 64 now → uint 64 ttl →
  ∃ cs', lstep (pair_at l p Away cs) (pair_at l p (AcqLoad w now ttl) cs').
Proof using Hj.
  intros. eexists. unfold pair_at. rewrite <- (pair_set_second p Away (AcqLoad w now ttl)).
  apply (lstep_acquire {| lease := l; workers := _; calls := cs |} j); try done. apply pair_second.
Qed.
Lemma first_steps l p q cs l' p' r :
  lease_step l p = Some (l', p', r) → lstep (pair_at l p q cs) (pair_at l' p' q cs).
Proof using Hij Hi.
  intros Hs. unfold pair_at. rewrite <- (pair_set_first p q p').
  eapply (lstep_thread {| lease := l; workers := _; calls := cs |} i); [apply pair_first|exact Hs].
Qed.
Lemma second_steps l p q cs l' q' r :
  lease_step l q = Some (l', q', r) → lstep (pair_at l p q cs) (pair_at l' p q' cs).
Proof using Hj.
  intros Hs. unfold pair_at. rewrite <- (pair_set_second p q q').
  eapply (lstep_thread {| lease := l; workers := _; calls := cs |} j); [apply pair_second|exact Hs].
Qed.
End two_workers.

(** An acquiring worker that finds the lease idle or expired stores itself and is
    left with the bump. *)
Lemma take_over_steps l w now ttl : w ≠ 0 → ttl ≠ 0 →
  (unpack (state l)).1 ≠ truncate_owner w → (unpack (state l)).1 = 0 ∨ (unpack (state l)).2 ≤ clamp_now now →
  lease_step l (AcqLoad w now ttl) = Some (l, AcqTake w now ttl (state l), None) ∧
  lease_step l (AcqTake w now ttl (state l)) =
    Some (l <| state := pack (truncate_owner w) (new_expiry now ttl) |>, AcqBump w, None).
Proof.
  intros Hw Ht Ho Hfree. cbn [lease_step]. rewrite Z.eqb_refl. split; [|done].
  rewrite (proj2 (Z.eqb_neq w 0) Hw), (proj2 (Z.eqb_neq ttl 0) Ht). cbn [orb].
  destruct (unpack (state l)) as [o e]. cbn in Ho, Hfree. rewrite (proj2 (Z.eqb_neq o _) Ho).
  replace (negb (o =? 0) && (clamp_now now <? e)) with false; [done|]. lia.
Qed.

(** C33: the epoch can move under a leader that still holds its lease.  Take-over
    and epoch bump are two accesses.  So, from every state with an idle lease, for
    any two workers with different owner tags and any clocks by which the second
    acts after the first one's lease has run out: if the first stalls between the
    two accesses, it bumps the epoch after its successor has taken over and
    returned.  The lease word, and so the successor's leadership, is unchanged,
    but the epoch it compares against when it applies counts no longer matches. *)
Theorem stalled_bump_moves_epoch s i j w1 now1 ttl1 w2 now2 ttl2 :
  i ≠ j → workers s !! i = Some Away → workers s !! j = Some Away → (unpack (state (lease s))).1 = 0 →
  uint 32 w1 → w1 ≠ 0 → uint 64 now1 → uint 64 ttl1 → ttl1 ≠ 0 →
  uint 32 w2 → w2 ≠ 0 → uint 64 now2 → uint 64 ttl2 → ttl2 ≠ 0 →
  truncate_owner w1 ≠ truncate_owner w2 → new_expiry now1 ttl1 ≤ clamp_now now2 →
  ∃ s1 s2, rtc lstep s s1 ∧ rtc lstep s1 s2 ∧ workers s1 !! j = Some Away ∧ workers s2 = workers s ∧
    snapshot (lease s1) = {| owner_worker := truncate_owner w2; expires_millis := new_expiry now2 ttl2;
                             snap_epoch := wrapping_add 64 (epoch (lease s)) 1 |} ∧
    state (lease s2) = state (lease s1) ∧
    epoch (lease s2) = wrapping_add 64 (epoch (lease s1)) 1 ∧ epoch (lease s2) ≠ epoch (lease s1).
Proof.
  intros Hij Hi Hj Hidle Hw1 Hz1 Hn1 Ht1 Htz1 Hw2 Hz2 Hn2 Ht2 Htz2 Howner Hexp.
  pose proof (truncate_owner_range w1 Hw1). pose proof (truncate_owner_range w2 Hw2).
  assert (∀ w now ttl, uint 32 w → uint 64 now → uint 64 ttl →
    unpack (pack (truncate_owner w) (new_expiry now ttl)) = (truncate_owner w, new_expiry now ttl)) as Hup.
  { unfold uint. intros w now ttl ? ? ?. apply unpack_pack; [|apply new_expiry_range; lia].
    pose proof (truncate_owner_range w ltac:(done)). lia. }
  destruct s as [l ws cs]. cbn [lease workers] in *.
  destruct (take_over_steps l w1 now1 ttl1) as [A1 A2]; [done|done|lia|by left|].
  set (l1 := l <| state := pack (truncate_owner w1) (new_expiry now1 ttl1) |>) in *.
  assert (unpack (state l1) = (truncate_owner w1, new_expiry now1 ttl1)) as Hu1 by (by apply Hup).
  destruct (take_over_steps l1 w2 now2 ttl2) as [B1 B2]; [done|done|by rewrite Hu1|rewrite Hu1; by right|].
  set (l2 := l1 <| state := pack (truncate_owner w2) (new_expiry now2 ttl2) |>) in *.
  rewrite <- (pair_away ws i j Hi Hj l cs).
  destruct (first_acquires ws i j Hij Hi l Away cs w1 now1 ttl1 Hw1 Hn1 Ht1) as [cs1 C1].
  destruct (second_acquires ws i j Hj l1 (AcqBump w1) cs1 w2 now2 ttl2 Hw2 Hn2 Ht2) as [cs2 C2].
  exists (pair_at ws i j (l2 <| epoch := wrapping_add 64 (epoch l2) 1 |>) (AcqBump w1) Away cs2).
  exists (pair_at ws i j (l2 <| epoch := wrapping_add 64 (wrapping_add 64 (epoch l2) 1) 1 |>) Away Away cs2).
  split.
  { eapply rtc_l; [exact C1|]. eapply rtc_l; [by eapply first_steps|]. eapply rtc_l; [by eapply first_steps|].
    eapply rtc_l; [exact C2|]. eapply rtc_l; [by eapply second_steps|]. eapply rtc_l; [by eapply second_steps|].
    eapply rtc_l; [by eapply second_steps|]. apply rtc_refl. }
  split; [eapply rtc_l; [by eapply first_steps|apply rtc_refl]|].
  split; [by eapply pair_second|]. split; [by rewrite pair_away|]. unfold snapshot. cbn [lease pair_at state epoch set_field].
  unfold l2 at 1. cbn [state set_field]. rewrite Hup by done. split; [done|]. split; [done|]. split; [done|].
  unfold wrapping_add. cbn. intros Heq. set (x := (epoch l + 1) mod 2 ^ 64) in *.
  pose proof (Z.mod_pos_bound (epoch l + 1) (2 ^ 64) ltac:(lia)). fold x in H1.
  destruct (decide (x + 1 < 2 ^ 64)); [rewrite Z.mod_small in Heq by lia; lia|].
  replace x with (2 ^ 64 - 1) in Heq by lia. vm_compute in Heq. done.
Qed.

Lemma stalled_bump_moves_epoch_witness :
  ∃ s1 s2, rtc lstep (lease_initial 2) s1 ∧ rtc lstep s1 s2 ∧
    snapshot (lease s1) = {| owner_worker := 6; expires_millis := 2500; snap_epoch := 1 |} ∧
    state (lease s2) = state (lease s1) ∧ epoch (lease s2) = wrapping_add 64 (epoch (lease s1)) 1.
Proof.
  destruct (stalled_bump_moves_epoch (lease_initial 2) 0%nat 1%nat 5 0 1000 6 1500 1000)
    as (s1 & s2 & H1 & H2 & _ & _ & H3 & H4 & H5 & _); [lia|reflexivity|reflexivity|reflexivity|unfold uint; lia|lia|unfold uint; lia|unfold uint; lia|lia|
        unfold uint; lia|lia|unfold uint; lia|unfold uint; lia|lia|vm_compute; discriminate|vm_compute; discriminate|].
  exists s1, s2. split; [exact H1|]. split; [exact H2|]. split; [exact H3|]. split; [exact H4|exact H5].
Defined.
