(* ===== verification/ShmTable.v ===== *)
(** * The shared-memory count table

    [crates/nginx/src/shm/aggregate.rs]: the linear-probing table of per-bucket
    totals that the gossip leader writes and every worker reads, as its single
    writer sees it: a slot is its sequence number and its cell, and no slot is
    mid-write between two operations.  The table is shown to represent a finite
    map, and [apply] to meet the same contract as the server's store as long as
    no write is dropped.  The table hash is a parameter. *)

From S2P Require Import Prelude Types Bytes IO Index Window Rules DashMap.
Import CellIndex.

Definition MAX_PROBE : Z := 128.

Record AggregateCell := {
  ac_rule_fingerprint : Z;
  ac_key_hash : Z;
  ac_bucket : Z;
  ac_count : Z;
  ac_last_update_millis : Z;
}.
Record AggregateSlot := { as_seq : Z; as_cell : AggregateCell }.
Definition zero_cell : AggregateCell :=
  {| ac_rule_fingerprint := 0; ac_key_hash := 0; ac_bucket := 0; ac_count := 0; ac_last_update_millis := 0 |}.
Definition AggregateSlot_empty : AggregateSlot := {| as_seq := 0; as_cell := zero_cell |}.

Inductive Read := Empty | Busy | Live (c : AggregateCell).
Inductive Probe := Found (index : Z) (c : AggregateCell) | Vacant (index : Z) | Full.

(** [AggregateSlot::read]: the fields are loaded under the sequence number [sl]
    has first, which is loaded again ([seq_again]) after them. *)
Definition slot_read_across (sl : AggregateSlot) (seq_again : Z) : Read :=
  if as_seq sl =? 0 then Empty
  else if Z.land (as_seq sl) 1 =? 1 then Busy
  else
    let cell := as_cell sl in
    if seq_again =? as_seq sl then Live cell else Busy.

(** A read of a slot that is not written during it: the single writer's reads,
    and those of a worker while the leader is between two writes. *)
Definition slot_read (sl : AggregateSlot) : Read := slot_read_across sl (as_seq sl).

Lemma slot_read_quiet sl :
  slot_read sl = if as_seq sl =? 0 then Empty else if Z.land (as_seq sl) 1 =? 1 then Busy else Live (as_cell sl).
Proof. unfold slot_read, slot_read_across. by rewrite Z.eqb_refl. Qed.

(** [None] is the failed [debug_assert!]. *)
Definition slot_write (seq : Z) (c : AggregateCell) : option AggregateSlot :=
  assert_ ((Z.land seq 1 =? 0) && negb (seq =? 0));;
  Some {| as_seq := seq; as_cell := c |}.

(** The parts of the zone the writer touches, and the epoch of its lease. *)
Record Region := {
  agg_slots : list AggregateSlot;
  aggregate_write_seq : Z;
  aggregate_dropped : Z;
  lease_epoch : Z;
}.
#[export] Instance eta_Region : Eta Region := λ x,
  {| agg_slots := agg_slots x; aggregate_write_seq := aggregate_write_seq x;
     aggregate_dropped := aggregate_dropped x; lease_epoch := lease_epoch x |}.

Section table.
Context (oneshot : list Z → Z).

Definition mix_index (fp kh bucket : Z) : Z :=
  let buf := to_le_bytes 16 fp ++ to_le_bytes 16 kh ++ to_le_bytes 4 bucket in
  let h := oneshot buf in
  Z.lxor (as_u64 h) (as_u64 (Z.shiftr h 64)).

Definition mask (slots : list AggregateSlot) : Z := zlen slots - 1.

(** [for distance in 0..MAX_PROBE], from [distance] on. *)
Fixpoint probe_loop (n : nat) (slots : list AggregateSlot) (home distance : Z) (fp kh bucket : Z) :
    option Probe :=
  match n with
  | O => Some Full
  | S n =>
    let index := Z.land (home + distance) (mask slots) in
    sl ← zget slots index;
    match slot_read sl with
    | Empty => Some (Vacant index)
    | Live c =>
      if (ac_rule_fingerprint c =? fp) && (ac_key_hash c =? kh) && (ac_bucket c =? bucket)
      then Some (Found index c)
      else probe_loop n slots home (distance + 1) fp kh bucket
    | Busy => probe_loop n slots home (distance + 1) fp kh bucket
    end
  end.

Definition probe (slots : list AggregateSlot) (fp kh bucket : Z) : option Probe :=
  let home := Z.land (mix_index fp kh bucket) (mask slots) in
  probe_loop (Z.to_nat MAX_PROBE) slots home 0 fp kh bucket.

Definition get (slots : list AggregateSlot) (fp kh bucket : Z) : option (option AggregateCell) :=
  p ← probe slots fp kh bucket;
  Some match p with Found _ c => Some c | _ => None end.

Fixpoint sum_live (slots : list AggregateSlot) (fp kh current offset : Z) (n : nat) (total : Z) : option Z :=
  match n with
  | O => Some total
  | S n =>
    if current <? offset then Some total else
    c ← get slots fp kh (current - offset);
    sum_live slots fp kh current (offset + 1) n
      (match c with Some c => saturating_add 64 total (ac_count c) | None => total end)
  end.

Definition window_total (slots : list AggregateSlot) (fp kh now_millis bucket_millis live_buckets : Z) :
    option Z :=
  let bm := Z.max bucket_millis 1 in
  let current := as_u32 (now_millis / bm) in
  let live := Z.max live_buckets 1 in
  sum_live slots fp kh current 0 (Z.to_nat live) 0.

(** A read that panicked would abort the walk; [get] never does, see below. *)
Definition time_until_admit_millis (slots : list AggregateSlot) (spec : RuleSpec) (kh : Z)
    (now_millis total hits : Z) : option Z :=
  Window.time_until_admit_millis
    (λ b, match get slots (spec_fingerprint spec) kh b with
          | Some (Some c) => ac_count c
          | _ => 0
          end)
    now_millis (spec_bucket_millis spec) (spec_live_buckets spec) (spec_limit spec) total hits.

(** ** The writer *)
Definition write (r : Region) (index : Z) (c : AggregateCell) : option Region :=
  let seq := aggregate_write_seq r in
  sl ← slot_write seq c;
  slots ← zset (agg_slots r) index sl;
  Some (r <| agg_slots := slots |> <| aggregate_write_seq := wrapping_add 64 seq 2 |>).

Definition note_dropped_write (r : Region) : Region :=
  r <| aggregate_dropped := wrapping_add 64 (aggregate_dropped r) 1 |>.

Definition write_delta (r : Region) (fp kh bucket delta now_millis : Z) : option Region :=
  p ← probe (agg_slots r) fp kh bucket;
  let cell count := {| ac_rule_fingerprint := fp; ac_key_hash := kh; ac_bucket := bucket;
                       ac_count := count; ac_last_update_millis := now_millis |} in
  match p with
  | Found index c => write r index (cell (saturating_add 64 (ac_count c) delta))
  | Vacant index => write r index (cell delta)
  | Full => Some (note_dropped_write r)
  end.

(** The loop of [remove]; the last hole becomes empty. *)
Fixpoint remove_loop (fuel : nat) (r : Region) (hole gap : Z) : option Region :=
  let finish :=
    sl ← zget (agg_slots r) hole;
    slots ← zset (agg_slots r) hole {| as_seq := 0; as_cell := as_cell sl |};
    Some (r <| agg_slots := slots |>) in
  match fuel with
  | O => None
  | S fuel =>
    if negb (gap <? MAX_PROBE) then finish else
    let gap := gap + 1 in
    let index := Z.land (hole + gap) (mask (agg_slots r)) in
    sl ← zget (agg_slots r) index;
    match slot_read sl with
    | Empty => finish
    | Live c =>
      let home := mix_index (ac_rule_fingerprint c) (ac_key_hash c) (ac_bucket c) in
      if gap <=? Z.land (wrapping_sub 64 index home) (mask (agg_slots r)) then
        r ← write r hole c;
        remove_loop fuel r index 0
      else remove_loop fuel r hole gap
    | Busy => remove_loop fuel r hole gap
    end
  end.

(** Every move brings a cell closer to its home, and at most [MAX_PROBE] slots
    are read between two moves. *)
Definition remove_fuel (slots : list AggregateSlot) : nat :=
  Z.to_nat (MAX_PROBE * (MAX_PROBE * zlen slots + 1) + 1).

Definition remove (r : Region) (hole : Z) : option Region :=
  remove_loop (remove_fuel (agg_slots r)) r hole 0.

Definition write_expiration (r : Region) (fp kh bucket last_count : Z) : option Region :=
  p ← probe (agg_slots r) fp kh bucket;
  match p with
  | Found index c =>
    let count := saturating_sub (ac_count c) last_count in
    if count =? 0 then remove r index
    else write r index {| ac_rule_fingerprint := ac_rule_fingerprint c; ac_key_hash := ac_key_hash c;
                          ac_bucket := ac_bucket c; ac_count := count;
                          ac_last_update_millis := ac_last_update_millis c |}
  | _ => Some r
  end.

Definition apply_delta (deltas : DeltaSink.t) (r : Region) (i : Z) : option Region :=
  a ← zget (DeltaSink.applies_locally deltas) i;
  if a =? 0 then Some r else
  key ← zget (DeltaSink.keys deltas) i;
  d ← zget (DeltaSink.deltas deltas) i;
  if d =? 0 then Some r else
  write_delta r (Types.rule_fingerprint key) (key_hash key) (bucket key) d 0.

Definition apply_expiration (expirations : ExpirationSink.t) (r : Region) (i : Z) : option Region :=
  a ← zget (ExpirationSink.applies_locally expirations) i;
  if a =? 0 then Some r else
  key ← zget (ExpirationSink.keys expirations) i;
  last ← zget (ExpirationSink.last_counts expirations) i;
  write_expiration r (Types.rule_fingerprint key) (key_hash key) (bucket key) last.

(** [epoch] is the lease epoch the writer won. *)
Definition apply (epoch : Z) (r : Region) (deltas : DeltaSink.t) (expirations : ExpirationSink.t) :
    option Region :=
  if negb (lease_epoch r =? epoch) then Some r else
  r ← for_each (zrange 0 (DeltaSink.len deltas)) r (apply_delta deltas);
  for_each (zrange 0 (ExpirationSink.len expirations)) r (apply_expiration expirations).

(** [ShmAggregateStore::new]: the emptied table and the epoch read. *)
Definition store_new (r : Region) : Region * Z :=
  (r <| agg_slots := (λ sl, if as_seq sl =? 0 then sl else {| as_seq := 0; as_cell := as_cell sl |})
                       <$> agg_slots r |>, lease_epoch r).
End table.

(** ** Linear probing with bounded displacement

    [T i] is the cell at slot [i].  Every cell is within [MAX_PROBE] of its home
    and every slot between its home and the cell is occupied. *)
Definition cell_key (c : AggregateCell) : CellIdentity :=
  {| Types.rule_fingerprint := ac_rule_fingerprint c; key_hash := ac_key_hash c; bucket := ac_bucket c |}.

Definition displaced (cap : Z) (home : CellIdentity → Z) (i : Z) (c : AggregateCell) : Z :=
  dist cap i (home (cell_key c)).

Definition upd (T : Z → option AggregateCell) (i : Z) (v : option AggregateCell) : Z → option AggregateCell :=
  λ j, if decide (j = i) then v else T j.

Lemma upd_eq T i v : upd T i v i = v.
Proof. unfold upd. by rewrite decide_True. Qed.
Lemma upd_ne T i j v : j ≠ i → upd T i v j = T j.
Proof. intros. unfold upd. by rewrite decide_False. Qed.

Record tinv (cap : Z) (home : CellIdentity → Z) (T : Z → option AggregateCell)
    (M : gmap CellIdentity AggregateCell) : Prop := {
  ti_near i c : 0 ≤ i < cap → T i = Some c → displaced cap home i c < MAX_PROBE;
  ti_chain i c j : 0 ≤ i < cap → T i = Some c → 0 ≤ j < displaced cap home i c →
    T ((home (cell_key c) + j) mod cap) ≠ None;
  ti_unique i i' c c' : 0 ≤ i < cap → 0 ≤ i' < cap → T i = Some c → T i' = Some c' →
    cell_key c = cell_key c' → i = i';
  ti_map k c : M !! k = Some c ↔ cell_key c = k ∧ ∃ i, 0 ≤ i < cap ∧ T i = Some c;
}.

(** The table while [remove] runs: slot [hole] holds a stale cell, and the [gap]
    slots after it hold cells whose homes lie after the hole. *)
Record holed (cap : Z) (home : CellIdentity → Z) (T : Z → option AggregateCell)
    (M : gmap CellIdentity AggregateCell) (hole gap : Z) : Prop := {
  ho_range : 0 ≤ hole < cap;
  ho_stale : T hole ≠ None;
  ho_near i c : 0 ≤ i < cap → i ≠ hole → T i = Some c → displaced cap home i c < MAX_PROBE;
  ho_chain i c j : 0 ≤ i < cap → i ≠ hole → T i = Some c → 0 ≤ j < displaced cap home i c →
    T ((home (cell_key c) + j) mod cap) ≠ None;
  ho_unique i i' c c' : 0 ≤ i < cap → 0 ≤ i' < cap → i ≠ hole → i' ≠ hole → T i = Some c → T i' = Some c' →
    cell_key c = cell_key c' → i = i';
  ho_map k c : M !! k = Some c ↔ cell_key c = k ∧ ∃ i, 0 ≤ i < cap ∧ i ≠ hole ∧ T i = Some c;
  ho_scanned g : 1 ≤ g ≤ gap → ∃ c, T ((hole + g) mod cap) = Some c ∧
    displaced cap home ((hole + g) mod cap) c < g;
}.

Section probing.
Context (cap : Z) (Hcap : 0 < cap) (home : CellIdentity → Z).
Context (Hhome : ∀ k, 0 ≤ home k < cap).
Implicit Types (T : Z → option AggregateCell) (M : gmap CellIdentity AggregateCell).

Lemma displaced_range i c : 0 ≤ displaced cap home i c < cap.
Proof using Hcap. by apply dist_range. Qed.

Lemma slot_of_displaced i c :
  0 ≤ i < cap → (home (cell_key c) + displaced cap home i c) mod cap = i.
Proof using Hcap. intros. by apply home_dist. Qed.

Lemma mod_range i : 0 ≤ i mod cap < cap.
Proof using Hcap. by apply Z.mod_pos_bound. Qed.

(** The slot [d] steps after the home of [k] is [d] away from it. *)
Lemma dist_step k d : 0 ≤ d < cap → dist cap ((home k + d) mod cap) (home k) = d.
Proof using Hcap. intros. rewrite dist_home by done. by apply Z.mod_small. Qed.

(** An absent key and the first free slot of its run: it can be put there. *)
Lemma tinv_insert T M i c d :
  tinv cap home T M → M !! cell_key c = None →
  i = (home (cell_key c) + d) mod cap → 0 ≤ d < MAX_PROBE → d < cap → T i = None →
  (∀ j, 0 ≤ j < d → T ((home (cell_key c) + j) mod cap) ≠ None) →
  tinv cap home (upd T i (Some c)) (<[cell_key c := c]> M).
Proof using Hcap Hhome.
  intros [Hn Hc Hu Hm] HM -> Hd Hdc HT Hrun. set (i := (home (cell_key c) + d) mod cap) in *.
  assert (0 ≤ i < cap) as Hi by apply mod_range.
  assert (displaced cap home i c = d) as Hdisp by (apply dist_step; lia).
  assert (∀ j, T j ≠ None → upd T i (Some c) j ≠ None) as Hocc'.
  { intros j Hj. unfold upd. by case_decide. }
  assert (∀ j c', upd T i (Some c) j = Some c' → (j = i ∧ c' = c) ∨ (j ≠ i ∧ T j = Some c')) as Hcase.
  { intros j c'. unfold upd. case_decide; [intros [= <-]; by left|by right]. }
  assert (∀ j c', 0 ≤ j < cap → T j = Some c' → cell_key c' ≠ cell_key c) as Hfresh.
  { intros j c' Hj Hc' Heq. assert (M !! cell_key c = Some c') by (apply Hm; eauto). congruence. }
  split.
  - intros j c' Hj [[-> ->]|[_ ?]]%Hcase; [lia|by eapply Hn].
  - intros j c' x Hj [[-> ->]|[_ ?]]%Hcase Hx; [|by eapply Hocc', Hc].
    apply Hocc', Hrun. lia.
  - intros j j' c1 c2 Hj Hj' [[-> ->]|[_ ?]]%Hcase [[-> ->]|[_ ?]]%Hcase Hk; try done.
    + by destruct (Hfresh j' c2).
    + by destruct (Hfresh j c1).
    + by eapply Hu.
  - intros k c'. rewrite lookup_insert. case_decide as Hk.
    + subst k. split.
      * intros [= <-]. split; [done|]. exists i. by rewrite upd_eq.
      * intros [Hk (j & Hj & [[-> ->]|[_ ?]]%Hcase)]; [done|]. by destruct (Hfresh j c').
    + rewrite Hm. split; intros [Hk' (j & Hj & HTj)]; (split; [done|]).
      * exists j. split; [done|]. rewrite upd_ne; [done|]. intros ->. congruence.
      * apply Hcase in HTj as [[-> ->]|[? ?]]; [by destruct Hk|by exists j].
Qed.

(** Overwriting a cell in place. *)
Lemma tinv_update T M i c c' :
  tinv cap home T M → 0 ≤ i < cap → T i = Some c → cell_key c' = cell_key c →
  tinv cap home (upd T i (Some c')) (<[cell_key c := c']> M).
Proof using Hcap Hhome.
  intros [Hn Hc Hu Hm] Hi HTi Hk.
  assert (∀ j, T j ≠ None → upd T i (Some c') j ≠ None) as Hocc.
  { intros j Hj. unfold upd. by case_decide. }
  assert (∀ j x, upd T i (Some c') j = Some x → ∃ x', T j = Some x' ∧ cell_key x' = cell_key x ∧ (j = i ∧ x = c' ∨ j ≠ i ∧ x' = x)) as Hcase.
  { intros j x. unfold upd. case_decide; [intros [= <-]; subst j; exists c; eauto|intros ?; exists x; eauto]. }
  split.
  - intros j x Hj (x' & HTj & Hkx & _)%Hcase. unfold displaced. rewrite <- Hkx. by eapply Hn.
  - intros j x y Hj (x' & HTj & Hkx & _)%Hcase. unfold displaced. rewrite <- Hkx. intros Hy. by eapply Hocc, Hc.
  - intros j j' x y Hj Hj' (x' & HTj & Hkx & _)%Hcase (y' & HTj' & Hky & _)%Hcase Hxy. eapply (Hu j j'); eauto. congruence.
  - intros k x. rewrite lookup_insert. case_decide as Hkk.
    + subst k. split.
      * intros [= <-]. split; [done|]. exists i. by rewrite upd_eq.
      * intros [Hkx (j & Hj & (x' & HTj & Hkx' & Hor)%Hcase)]. assert (j = i) as -> by (eapply Hu; eauto; congruence).
        destruct Hor as [[_ ->]|[]]; done.
    + rewrite Hm. split; intros [Hkx (j & Hj & HTj)]; (split; [done|]).
      * exists j. split; [done|]. rewrite upd_ne; [done|]. intros ->. congruence.
      * apply Hcase in HTj as (x' & HTj & Hkx' & [[-> ->]|[? ->]]); [congruence|by exists j].
Qed.

(** ** Removal *)
Lemma holed_start T M i c :
  tinv cap home T M → 0 ≤ i < cap → T i = Some c → holed cap home T (delete (cell_key c) M) i 0.
Proof using.
  intros [Hn Hc Hu Hm] Hi HTi. split; try done.
  - by rewrite HTi.
  - intros j x Hj _ HTj. by eapply Hn.
  - intros j x y Hj _ HTj Hy. by eapply Hc.
  - intros j j' x y Hj Hj' _ _. by apply Hu.
  - intros k x. rewrite lookup_delete_Some, Hm. split.
    + intros [Hne [Hk (j & Hj & HTj)]]. split; [done|]. exists j. split; [done|]. split; [|done]. intros ->. congruence.
    + intros [Hk (j & Hj & Hne & HTj)]. split; [|eauto]. intros Heq. destruct Hne. eapply (Hu j i); eauto. congruence.
  - intros g Hg. lia.
Qed.

(** A scanned cell that may not move: its home lies after the hole. *)
Lemma holed_skip T M hole gap c :
  holed cap home T M hole gap → T ((hole + (gap + 1)) mod cap) = Some c →
  displaced cap home ((hole + (gap + 1)) mod cap) c < gap + 1 → holed cap home T M hole (gap + 1).
Proof using.
  intros [] HT Hd. split; try done. intros g Hg. destruct (decide (g = gap + 1)) as [->|]; [by exists c|].
  apply ho_scanned0. lia.
Qed.

(** A cell whose home is at or before the hole moves into it. *)
Lemma holed_move T M hole gap c :
  holed cap home T M hole gap → 0 ≤ gap →
  let i := (hole + (gap + 1)) mod cap in
  T i = Some c → gap + 1 ≤ displaced cap home i c →
  holed cap home (upd T hole (Some c)) M i 0 ∧ i ≠ hole ∧
  displaced cap home hole c = displaced cap home i c - (gap + 1).
Proof using Hcap Hhome.
  intros [Hr Hst Hn Hc Hu Hm Hs] Hg i HTi Hd. pose proof (displaced_range i c) as Hdr.
  assert (0 ≤ i < cap) as Hi by apply mod_range.
  assert (i ≠ hole) as Hne.
  { unfold i. intros Heq. assert ((gap + 1) mod cap = 0) as Hz.
    { replace (gap + 1) with (hole + (gap + 1) - hole) by lia. rewrite <- Zminus_mod_idemp_l, Heq, Z.sub_diag.
      apply Z.mod_0_l. lia. }
    rewrite Z.mod_small in Hz by lia. lia. }
  assert (displaced cap home hole c = displaced cap home i c - (gap + 1)) as Hdh.
  { unfold displaced in *. set (h := home (cell_key c)) in *. unfold dist in *. unfold i in *.
    rewrite Zminus_mod_idemp_l in *.
    replace (hole - h) with (hole + (gap + 1) - h - (gap + 1)) by lia.
    rewrite <- Zminus_mod_idemp_l. rewrite (Z.mod_small (_ - (gap + 1))); lia. }
  assert (∀ j, T j ≠ None → upd T hole (Some c) j ≠ None) as Hocc by (intros j Hj; unfold upd; by case_decide).
  assert (∀ j x, upd T hole (Some c) j = Some x → (j = hole ∧ x = c) ∨ (j ≠ hole ∧ T j = Some x)) as Hcase.
  { intros j x. unfold upd. case_decide; [intros [= <-]; by left|by right]. }
  split; [|done]. split.
  - done.
  - rewrite upd_ne by done. by rewrite HTi.
  - intros j x Hj Hji [[-> ->]|[? ?]]%Hcase; [|by eapply Hn]. rewrite Hdh. pose proof (Hn i c Hi Hne HTi). lia.
  - intros j x y Hj Hji [[-> ->]|[? ?]]%Hcase Hy; [|by eapply Hocc, Hc].
    apply Hocc, (Hc i c y Hi Hne HTi). lia.
  - intros j j' x y Hj Hj' Hji Hji' [[-> ->]|[? ?]]%Hcase [[-> ->]|[? ?]]%Hcase Hxy; try done.
    + destruct Hji'. symmetry. by eapply (Hu i j').
    + destruct Hji. by eapply (Hu j i).
    + by eapply Hu.
  - intros k x. rewrite Hm. split; intros [Hk (j & Hj & Hjh & HTj)]; (split; [done|]).
    + destruct (decide (j = i)) as [->|Hji]; [|exists j; by rewrite upd_ne].
      exists hole. rewrite upd_eq. split; [done|]. split; [done|]. congruence.
    + apply Hcase in HTj as [[-> ->]|[? ?]]; [by exists i|by exists j].
  - intros g Hg'. lia.
Qed.

(** When the scan ends no cell's run crosses the hole, so it can be emptied. *)
Lemma holed_finish T M hole gap :
  holed cap home T M hole gap → 0 ≤ gap →
  (MAX_PROBE ≤ gap ∨ T ((hole + (gap + 1)) mod cap) = None) →
  tinv cap home (upd T hole None) M.
Proof using Hcap Hhome.
  intros [Hr Hst Hn Hc Hu Hm Hs] Hg Hend.
  assert (∀ j x, upd T hole None j = Some x → j ≠ hole ∧ T j = Some x) as Hcase.
  { intros j x. unfold upd. by case_decide. }
  split.
  - intros j x Hj [? ?]%Hcase. by eapply Hn.
  - intros i c j Hi [Hne HTi]%Hcase Hj. set (h := home (cell_key c)) in *. pose proof (displaced_range i c) as Hdr.
    destruct (decide ((h + j) mod cap = hole)) as [Hx|]; [|rewrite upd_ne by done; by apply (Hc i c j)].
    exfalso. set (d := displaced cap home i c) in *. set (g := d - j).
    assert ((hole + g) mod cap = i) as Hgi.
    { rewrite <- Hx, Zplus_mod_idemp_l. unfold g. replace (h + j + (d - j)) with (h + d) by lia.
      by apply slot_of_displaced. }
    pose proof (Hn i c Hi Hne HTi) as Hnear. fold d in Hnear.
    destruct (decide (g ≤ gap)).
    + destruct (Hs g ltac:(unfold g in *; lia)) as (c' & HT' & Hd'). rewrite Hgi in HT', Hd'.
      assert (c' = c) as -> by congruence. fold d in Hd'. unfold g in Hd'. lia.
    + destruct Hend as [?|Hend]; [unfold g in *; lia|].
      destruct (decide (g = gap + 1)) as [Heq|]; [rewrite <- Heq, Hgi in Hend; congruence|].
      apply (Hc i c (j + (gap + 1)) Hi Hne HTi); [fold d; unfold g in *; lia|]. fold h.
      rewrite <- Hx, Zplus_mod_idemp_l in Hend. by rewrite Z.add_assoc.
  - intros j j' x y Hj Hj' [? ?]%Hcase [? ?]%Hcase. by apply Hu.
  - intros k x. rewrite Hm. split; intros [Hk (j & Hj & H)]; (split; [done|]); exists j; (split; [done|]).
    + destruct H as [? ?]. by rewrite upd_ne.
    + by apply Hcase.
Qed.
End probing.

(** ** Potential: how far the cells other than the hole are from home *)
Definition zsum (f : Z → Z) (l : list Z) : Z := foldr (λ i acc, f i + acc) 0 l.

Lemma zsum_cons f x l : zsum f (x :: l) = f x + zsum f l.
Proof. done. Qed.

Lemma zsum_ext f g l : (∀ i, i ∈ l → f i = g i) → zsum f l = zsum g l.
Proof.
  induction l as [|x l IH]; intros H; [done|]. rewrite !zsum_cons, (H x) by (apply elem_of_cons; by left).
  f_equal. apply IH. intros i Hi. apply H, elem_of_cons. by right.
Qed.

Lemma zsum_change f g l a :
  NoDup l → a ∈ l → (∀ i, i ∈ l → i ≠ a → f i = g i) → zsum g l = zsum f l + (g a - f a).
Proof.
  induction l as [|x l IH]; intros Hnd Ha Heq; [by apply not_elem_of_nil in Ha|].
  apply NoDup_cons in Hnd as [Hx Hnd]. rewrite !zsum_cons. destruct (decide (x = a)) as [->|Hne].
  - assert (zsum f l = zsum g l) as ->; [|lia]. apply zsum_ext. intros i Hi. apply Heq; [apply elem_of_cons; by right|].
    intros ->. done.
  - apply elem_of_cons in Ha as [?|Ha]; [done|]. rewrite IH; [|done|done|].
    + rewrite (Heq x); [lia|apply elem_of_cons; by left|done].
    + intros i Hi. apply Heq. apply elem_of_cons. by right.
Qed.

Lemma zsum_bound f l b : (∀ i, i ∈ l → 0 ≤ f i ≤ b) → 0 ≤ zsum f l ≤ b * zlen l.
Proof.
  induction l as [|x l IH]; intros H; [change (zlen []) with 0; cbn [zsum foldr]; lia|]. rewrite zsum_cons.
  assert (zlen (x :: l) = zlen l + 1) as -> by (unfold zlen; cbn; lia).
  pose proof (H x ltac:(apply elem_of_cons; by left)).
  assert (0 ≤ zsum f l ≤ b * zlen l) by (apply IH; intros i Hi; apply H, elem_of_cons; by right).
  lia.
Qed.

Definition potential (cap : Z) (home : CellIdentity → Z) (T : Z → option AggregateCell) (hole : Z) : Z :=
  zsum (λ i, if decide (i = hole) then 0
             else match T i with Some c => displaced cap home i c | None => 0 end) (zrange 0 cap).

Section potential.
Context (cap : Z) (Hcap : 0 < cap) (home : CellIdentity → Z) (Hhome : ∀ k, 0 ≤ home k < cap).

Lemma potential_bound T M hole gap :
  holed cap home T M hole gap → 0 ≤ potential cap home T hole ≤ (MAX_PROBE - 1) * cap.
Proof using Hcap.
  intros Hh. unfold potential. match goal with |- 0 ≤ ?x ≤ _ =>
    assert (0 ≤ x ≤ (MAX_PROBE - 1) * zlen (zrange 0 cap)) as Hx; [|by rewrite zlen_zrange, Z.sub_0_r in Hx by lia] end.
  apply zsum_bound. intros i Hi%elem_of_zrange. unfold MAX_PROBE. case_decide; [lia|].
  destruct (T i) as [c|] eqn:E; [|lia]. pose proof (displaced_range cap Hcap home i c).
  pose proof (ho_near _ _ _ _ _ _ Hh i c Hi ltac:(done) E). unfold MAX_PROBE in *. lia.
Qed.

Lemma potential_move T M hole gap c :
  holed cap home T M hole gap → 0 ≤ gap →
  let i := (hole + (gap + 1)) mod cap in
  T i = Some c → gap + 1 ≤ displaced cap home i c →
  potential cap home (upd T hole (Some c)) i = potential cap home T hole - (gap + 1).
Proof using Hcap Hhome.
  intros Hh Hg i HTi Hd. destruct (holed_move cap Hcap home Hhome T M hole gap c Hh Hg HTi Hd) as (_ & Hne & Hdh).
  fold i in Hne, Hdh. assert (0 ≤ i < cap) as Hi by (by apply Z.mod_pos_bound).
  pose proof (ho_range _ _ _ _ _ _ Hh) as Hr.
  set (f := λ j, if decide (j = hole) then 0 else match T j with Some c => displaced cap home j c | None => 0 end).
  set (f1 := λ j, if decide (j = i) then 0 else f j).
  set (f2 := λ j, if decide (j = i) then 0 else match upd T hole (Some c) j with Some c => displaced cap home j c | None => 0 end).
  change (zsum f2 (zrange 0 cap) = zsum f (zrange 0 cap) - (gap + 1)).
  rewrite (zsum_change f1 f2 _ hole), (zsum_change f f1 _ i).
  - unfold f1, f2, f. rewrite (decide_True (P := i = i)), !(decide_False (P := i = hole)), !(decide_False (P := hole = i)),
      (decide_True (P := hole = hole)), upd_eq, HTi by done. lia.
  - apply NoDup_zrange.
  - by apply elem_of_zrange.
  - intros j _ Hj. unfold f1. by rewrite decide_False.
  - apply NoDup_zrange.
  - by apply elem_of_zrange.
  - intros j _ Hj. unfold f1, f2, f. case_decide; [done|]. by rewrite decide_False, upd_ne.
Qed.
End potential.

#[export] Instance tinv_proper cap home :
  Proper (pointwise_relation Z eq ==> eq ==> iff) (tinv cap home).
Proof.
  assert (∀ T T' M, (∀ i, T i = T' i) → tinv cap home T M → tinv cap home T' M) as H.
  { intros T T' M HT [Hn Hc Hu Hm]. split.
    - intros i c. rewrite <- HT. apply Hn.
    - intros i c j. rewrite <- !HT. apply Hc.
    - intros i i' c c'. rewrite <- !HT. apply Hu.
    - intros k c. rewrite Hm. by setoid_rewrite HT. }
  intros T T' HT M ? <-. split; apply H; [done|]. intros i. symmetry. apply HT.
Qed.

#[export] Instance holed_proper cap home :
  Proper (pointwise_relation Z eq ==> eq ==> eq ==> eq ==> iff) (holed cap home).
Proof.
  assert (∀ T T' M h g, (∀ i, T i = T' i) → holed cap home T M h g → holed cap home T' M h g) as H.
  { intros T T' M h g HT [Hr Hst Hn Hc Hu Hm Hs]. split; [done|by rewrite <- HT|..].
    - intros i c. rewrite <- HT. apply Hn.
    - intros i c j. rewrite <- !HT. apply Hc.
    - intros i i' c c'. rewrite <- !HT. apply Hu.
    - intros k c. rewrite Hm. by setoid_rewrite HT.
    - intros g' Hg'. destruct (Hs g' Hg') as (c & Hc' & ?). exists c. by rewrite <- HT. }
  intros T T' HT M ? <- h ? <- g ? <-. split; apply H; [done|]. intros i. symmetry. apply HT.
Qed.

(** ** The table as the writer holds it *)
Definition view (slots : list AggregateSlot) (i : Z) : option AggregateCell :=
  match zget slots i with
  | Some sl => match slot_read sl with Live c => Some c | _ => None end
  | None => None
  end.

Section region.
Context (oneshot : list Z → Z).

Definition home_of (cap : Z) (k : CellIdentity) : Z :=
  mix_index oneshot (Types.rule_fingerprint k) (key_hash k) (bucket k) mod cap.

Definition totals_ok (M : gmap CellIdentity AggregateCell) : Prop :=
  map_Forall (λ _ c, 0 < ac_count c ≤ U64_MAX) M.

(** No slot is mid-write, the next sequence number is even and not zero, and the
    table represents [M]. *)
Record rshape (r : Region) : Prop := {
  rs_cap : ∃ e, 1 ≤ e ≤ 63 ∧ zlen (agg_slots r) = 2 ^ e;
  rs_stable : Forall (λ sl, Z.land (as_seq sl) 1 = 0) (agg_slots r);
  rs_seq : 2 ≤ aggregate_write_seq r < 2 ^ 64 ∧ Z.land (aggregate_write_seq r) 1 = 0;
}.
Definition represents (r : Region) (M : gmap CellIdentity AggregateCell) : Prop :=
  rshape r ∧ tinv (zlen (agg_slots r)) (home_of (zlen (agg_slots r))) (view (agg_slots r)) M.

Section shaped.
Context (r : Region) (Hr : rshape r).
Let slots := agg_slots r.
Let cap := zlen slots.

Lemma cap_pos : 2 ≤ cap ≤ 2 ^ 63.
Proof using Hr.
  destruct (rs_cap _ Hr) as (e & He & Hc). unfold cap, slots. rewrite Hc. split.
  - rewrite <- (Z.pow_1_r 2) at 1. apply Z.pow_le_mono_r; lia.
  - apply Z.pow_le_mono_r; lia.
Qed.

Lemma land_mask_cap x : Z.land x (mask slots) = x mod cap.
Proof using Hr.
  destruct (rs_cap _ Hr) as (e & He & Hc). unfold mask. fold cap. unfold cap, slots. rewrite Hc.
  apply land_mask_mod. lia.
Qed.

Lemma home_of_range k : 0 ≤ home_of cap k < cap.
Proof using Hr. apply Z.mod_pos_bound. pose proof cap_pos. lia. Qed.

Lemma read_view i sl : zget slots i = Some sl →
  slot_read sl = match view slots i with Some c => Live c | None => Empty end.
Proof using Hr.
  intros Hs. unfold view. rewrite Hs. pose proof (rs_stable _ Hr) as Hf. rewrite Forall_forall in Hf.
  specialize (Hf sl (zget_elem_of _ _ _ Hs)). rewrite slot_read_quiet, Hf.
  destruct (as_seq sl =? 0); done.
Qed.

Lemma slot_exists i : 0 ≤ i < cap → ∃ sl, zget slots i = Some sl.
Proof using. apply zget_in_range. Qed.

(** The walk from [distance]: the slots before it are occupied by other cells. *)
Lemma probe_loop_ok k n : ∀ d,
  d + Z.of_nat n = MAX_PROBE → 0 ≤ d →
  (∀ j, 0 ≤ j < d → ∃ c, view slots ((home_of cap k + j) mod cap) = Some c ∧ cell_key c ≠ k) →
  ∃ p, probe_loop n slots (home_of cap k) d (Types.rule_fingerprint k) (key_hash k) (bucket k) = Some p ∧
    match p with
    | Found i c => 0 ≤ i < cap ∧ view slots i = Some c ∧ cell_key c = k
    | Vacant i => ∃ d', 0 ≤ d' < MAX_PROBE ∧ i = (home_of cap k + d') mod cap ∧ view slots i = None ∧
        ∀ j, 0 ≤ j < d' → ∃ c, view slots ((home_of cap k + j) mod cap) = Some c ∧ cell_key c ≠ k
    | Full => ∀ j, 0 ≤ j < MAX_PROBE → ∃ c, view slots ((home_of cap k + j) mod cap) = Some c ∧ cell_key c ≠ k
    end.
Proof using Hr.
  induction n as [|n IH]; intros d Hdn Hd Hpre; cbn [probe_loop].
  { exists Full. split; [done|]. intros j Hj. apply Hpre. lia. }
  rewrite land_mask_cap. set (i := (home_of cap k + d) mod cap).
  assert (0 ≤ i < cap) as Hi by (apply Z.mod_pos_bound; pose proof cap_pos; lia).
  destruct (slot_exists i Hi) as [sl Hsl]. rewrite Hsl. cbn [mbind option_bind].
  rewrite (read_view i sl Hsl). destruct (view slots i) as [c|] eqn:Hv.
  - destruct ((ac_rule_fingerprint c =? Types.rule_fingerprint k) && (ac_key_hash c =? key_hash k) && (ac_bucket c =? bucket k)) eqn:E.
    + apply andb_true_iff in E as [[?%Z.eqb_eq ?%Z.eqb_eq]%andb_true_iff ?%Z.eqb_eq].
      exists (Found i c). split; [done|]. split; [done|]. split; [done|]. destruct k. cbn in *. unfold cell_key. by f_equal.
    + apply IH; [lia|lia|]. intros j Hj. destruct (decide (j = d)) as [->|]; [|apply Hpre; lia].
      exists c. split; [done|]. intros <-. cbn in E. by rewrite !Z.eqb_refl in E.
  - exists (Vacant i). split; [done|]. exists d. split; [lia|]. done.
Qed.

Context (M : gmap CellIdentity AggregateCell) (HM : tinv cap (home_of cap) (view slots) M).

(** A probe finds the cell of its key, or an empty slot within reach of the home
    with the run before it occupied, or a run of [MAX_PROBE] other cells. *)
Lemma probe_ok k :
  ∃ p, probe oneshot slots (Types.rule_fingerprint k) (key_hash k) (bucket k) = Some p ∧
    match p with
    | Found i c => M !! k = Some c ∧ 0 ≤ i < cap ∧ view slots i = Some c ∧ cell_key c = k
    | Vacant i => M !! k = None ∧ ∃ d, 0 ≤ d < MAX_PROBE ∧ d < cap ∧ i = (home_of cap k + d) mod cap ∧
        view slots i = None ∧ ∀ j, 0 ≤ j < d → view slots ((home_of cap k + j) mod cap) ≠ None
    | Full => M !! k = None ∧ ∀ j, 0 ≤ j < MAX_PROBE → view slots ((home_of cap k + j) mod cap) ≠ None
    end.
Proof using Hr HM.
  pose proof cap_pos as Hcp. unfold probe. rewrite land_mask_cap. fold (home_of cap k).
  destruct (probe_loop_ok k (Z.to_nat MAX_PROBE) 0) as (p & -> & Hp); [done|done|lia|].
  exists p. split; [done|].
  (* a cell of key [k] is within reach, behind occupied slots *)
  assert (∀ c, M !! k = Some c → ∃ d, 0 ≤ d < MAX_PROBE ∧ view slots ((home_of cap k + d) mod cap) = Some c ∧
    cell_key c = k ∧ ∀ j, 0 ≤ j < d → view slots ((home_of cap k + j) mod cap) ≠ None) as Hreach.
  { intros c Hc. apply (ti_map _ _ _ _ HM) in Hc as [Hk (i & Hi & Hv)]. exists (displaced cap (home_of cap) i c).
    pose proof (displaced_range cap ltac:(lia) (home_of cap) i c). pose proof (ti_near _ _ _ _ HM i c Hi Hv).
    split; [lia|]. rewrite <- Hk at 1. rewrite slot_of_displaced by lia. split; [done|]. split; [done|].
    intros j Hj. rewrite <- Hk.
    exact (ti_chain _ _ _ _ HM i c j Hi Hv Hj). }
  assert (∀ c, M !! k = Some c → ∀ d, (∀ j, 0 ≤ j < d → ∃ c', view slots ((home_of cap k + j) mod cap) = Some c' ∧ cell_key c' ≠ k) →
    d ≤ MAX_PROBE → ∃ d0, d ≤ d0 < MAX_PROBE ∧ view slots ((home_of cap k + d0) mod cap) = Some c ∧
      ∀ j, 0 ≤ j < d0 → view slots ((home_of cap k + j) mod cap) ≠ None) as Hbeyond.
  { intros c Hc d Hpre _. destruct (Hreach c Hc) as (d0 & Hd0 & Hv & Hk & Hrun). exists d0. split; [|done].
    destruct (decide (d ≤ d0)); [lia|]. destruct (Hpre d0 ltac:(lia)) as (c' & Hv' & Hk'). congruence. }
  destruct p as [i c|i|].
  - destruct Hp as (Hi & Hv & Hk). split; [|done]. apply (ti_map _ _ _ _ HM). split; [done|]. by exists i.
  - destruct Hp as (d & Hd & -> & Hv & Hpre). split.
    + destruct (M !! k) as [c|] eqn:HMk; [|done]. destruct (Hbeyond c eq_refl d Hpre ltac:(lia)) as (d0 & Hd0 & Hv0 & Hrun).
      destruct (decide (d0 = d)) as [->|]; [congruence|]. by destruct (Hrun d ltac:(lia)).
    + exists d. split; [done|]. split.
      { destruct (decide (d < cap)); [done|]. destruct (Hpre (d - cap) ltac:(lia)) as (c & Hc & _).
        replace (home_of cap k + d) with (home_of cap k + (d - cap) + 1 * cap) in Hv by lia.
        rewrite Z.mod_add in Hv by lia. congruence. }
      split; [done|]. split; [done|]. intros j Hj. destruct (Hpre j Hj) as (c & -> & _). done.
  - split.
    + destruct (M !! k) as [c|] eqn:HMk; [|done]. destruct (Hbeyond c eq_refl MAX_PROBE Hp ltac:(lia)) as (d0 & Hd0 & _). lia.
    + intros j Hj. destruct (Hp j Hj) as (c & -> & _). done.
Qed.

Lemma get_ok k : get oneshot slots (Types.rule_fingerprint k) (key_hash k) (bucket k) = Some (M !! k).
Proof using Hr HM.
  unfold get. destruct (probe_ok k) as (p & -> & Hp). cbn [mbind option_bind].
  destruct p as [i c|i|]; destruct Hp as (-> & _); done.
Qed.
End shaped.

(** ** Writing *)

(** What an operation leaves alone, and how many sequence numbers it uses. *)
Record touched (r r' : Region) (writes : Z) : Prop := {
  to_cap : zlen (agg_slots r') = zlen (agg_slots r);
  to_epoch : lease_epoch r' = lease_epoch r;
  to_seq : aggregate_write_seq r ≤ aggregate_write_seq r' ≤ aggregate_write_seq r + 2 * writes;
}.

Lemma touched_trans r1 r2 r3 n m : touched r1 r2 n → touched r2 r3 m → touched r1 r3 (n + m).
Proof using. intros [] []. split; [congruence|congruence|lia]. Qed.

Definition budget (r : Region) (writes : Z) : Prop := aggregate_write_seq r + 2 * writes < 2 ^ 64.

Lemma view_zupd slots i sl v :
  0 ≤ i < zlen slots → (match slot_read sl with Live c => Some c | _ => None end) = v →
  ∀ j, view (zupd slots i sl) j = upd (view slots) i v j.
Proof using.
  intros Hi Hv j. unfold view, upd. rewrite zget_zupd by done. destruct (decide (j = i)) as [->|].
  - by rewrite decide_True.
  - by rewrite decide_False by done.
Qed.

Lemma rshape_upd r i sl :
  rshape r → 0 ≤ i < zlen (agg_slots r) → Z.land (as_seq sl) 1 = 0 →
  rshape (r <| agg_slots := zupd (agg_slots r) i sl |>).
Proof using.
  intros [Hc Hs Hq] Hi Hsl. split; cbn; [by rewrite zlen_zupd| |done].
  unfold zupd. rewrite (proj2 (Z.leb_le 0 i)) by lia. by apply Forall_insert.
Qed.

Lemma write_ok r i c :
  rshape r → 0 ≤ i < zlen (agg_slots r) → budget r 1 →
  ∃ r', write r i c = Some r' ∧ rshape r' ∧ touched r r' 1 ∧ aggregate_dropped r' = aggregate_dropped r ∧
    ∀ j, view (agg_slots r') j = upd (view (agg_slots r)) i (Some c) j.
Proof using.
  intros Hr Hi Hb. pose proof (rs_seq _ Hr) as [Hq Hev]. unfold budget in Hb. unfold write, slot_write.
  replace ((Z.land (aggregate_write_seq r) 1 =? 0) && negb (aggregate_write_seq r =? 0)) with true by lia.
  cbn [assert_ mbind option_bind]. rewrite zset_ok by done. cbn [mbind option_bind].
  eexists. split; [done|]. set (sl := {| as_seq := aggregate_write_seq r; as_cell := c |}).
  assert (wrapping_add 64 (aggregate_write_seq r) 2 = aggregate_write_seq r + 2) as Hw
    by (unfold wrapping_add; apply Z.mod_small; lia).
  pose proof (rshape_upd r i sl Hr Hi Hev) as [? ? ?]. split; [|split; [|split; [done|]]].
  - split; cbn; [done|done|]. rewrite Hw. split; [lia|].
    change 1 with (2 ^ 1 - 1) in *. rewrite land_mask_mod in * by lia. change (2 ^ 1) with 2 in *.
    rewrite <- Zplus_mod_idemp_l, Hev. done.
  - split; cbn; [by rewrite zlen_zupd|done|]. rewrite Hw. lia.
  - cbn. apply view_zupd; [done|]. rewrite slot_read_quiet. cbn. replace (aggregate_write_seq r =? 0) with false by lia.
    by rewrite Hev.
Qed.

(** ** Removal *)
Lemma finish_ok r M hole gap :
  rshape r → let cap := zlen (agg_slots r) in
  holed cap (home_of cap) (view (agg_slots r)) M hole gap → 0 ≤ gap →
  (MAX_PROBE ≤ gap ∨ view (agg_slots r) ((hole + (gap + 1)) mod cap) = None) →
  ∃ r', (sl ← zget (agg_slots r) hole;
         slots ← zset (agg_slots r) hole {| as_seq := 0; as_cell := as_cell sl |};
         Some (r <| agg_slots := slots |>)) = Some r' ∧
    represents r' M ∧ touched r r' 0 ∧ aggregate_dropped r' = aggregate_dropped r.
Proof using.
  intros Hr cap Hh Hg Hend. pose proof (ho_range _ _ _ _ _ _ Hh) as Hrange.
  destruct (slot_exists r hole Hrange) as [sl ->]. cbn [mbind option_bind]. rewrite zset_ok by done. cbn [mbind option_bind].
  eexists. split; [done|]. set (sl0 := {| as_seq := 0; as_cell := as_cell sl |}).
  split; [|split; [split; cbn; [by rewrite zlen_zupd|done|lia]|done]].
  split; [by apply rshape_upd|]. cbn. rewrite zlen_zupd. fold cap.
  pose proof (holed_finish cap ltac:(pose proof (cap_pos r Hr); unfold cap; lia) (home_of cap) (home_of_range r Hr) _ _ _ _ Hh Hg Hend) as Hf.
  eapply tinv_proper; [|reflexivity|exact Hf]. intros j. by apply view_zupd.
Qed.

Lemma shm_remove_loop_ok fuel : ∀ r M hole gap,
  rshape r → let cap := zlen (agg_slots r) in
  holed cap (home_of cap) (view (agg_slots r)) M hole gap → 0 ≤ gap ≤ MAX_PROBE →
  let P := potential cap (home_of cap) (view (agg_slots r)) hole in
  MAX_PROBE * P + (MAX_PROBE - gap) < Z.of_nat fuel → budget r P →
  ∃ r', remove_loop oneshot fuel r hole gap = Some r' ∧ represents r' M ∧ touched r r' P ∧
    aggregate_dropped r' = aggregate_dropped r.
Proof using.
  induction fuel as [|fuel IH]; intros r M hole gap Hr cap Hh Hg P Hfuel Hb;
    pose proof (cap_pos r Hr) as Hcap; fold cap in Hcap;
    pose proof (potential_bound cap ltac:(lia) (home_of cap) _ _ _ _ Hh) as HP; fold P in HP; [unfold MAX_PROBE in *; lia|].
  assert (∀ r', touched r r' 0 → touched r r' P) as H0P by (intros r' []; split; [done|done|lia]).
  cbn [remove_loop]. destruct (gap <? MAX_PROBE) eqn:Eg; cbn [negb]; bool_solve.
  2:{ destruct (finish_ok r M hole gap Hr Hh ltac:(lia) ltac:(left; lia)) as (r' & He & ? & ? & ?).
      exists r'. split; [exact He|]. auto. }
  rewrite (land_mask_cap r Hr). fold cap. set (i := (hole + (gap + 1)) mod cap).
  assert (0 ≤ i < cap) as Hi by (apply Z.mod_pos_bound; lia).
  destruct (slot_exists r i Hi) as [sl Hsl]. rewrite Hsl. cbn [mbind option_bind].
  rewrite (read_view r Hr i sl Hsl). destruct (view (agg_slots r) i) as [c|] eqn:Hv.
  2:{ destruct (finish_ok r M hole gap Hr Hh ltac:(lia) ltac:(right; exact Hv)) as (r' & He & ? & ? & ?).
      exists r'. split; [exact He|]. auto. }
  assert (Z.land (wrapping_sub 64 i (mix_index oneshot (ac_rule_fingerprint c) (ac_key_hash c) (ac_bucket c))) (mask (agg_slots r)) =
    displaced cap (home_of cap) i c) as Hdisp.
  { rewrite (land_mask_cap r Hr). fold cap. unfold wrapping_sub, displaced, dist, home_of. cbn.
    destruct (rs_cap _ Hr) as (e & He & Hc). unfold cap. rewrite Hc, mod_mod_pow by lia.
    by rewrite Zminus_mod_idemp_r. }
  rewrite Hdisp. destruct (gap + 1 <=? displaced cap (home_of cap) i c) eqn:Ed; bool_solve.
  - pose proof (holed_move cap ltac:(lia) (home_of cap) (home_of_range r Hr) _ _ _ _ c Hh ltac:(lia) Hv Ed) as (Hh' & Hne & _).
    pose proof (potential_move cap ltac:(lia) (home_of cap) (home_of_range r Hr) _ _ _ _ c Hh ltac:(lia) Hv Ed) as HP'.
    fold i in Hh', HP'. fold P in HP'. pose proof (ho_range _ _ _ _ _ _ Hh) as Hrange.
    pose proof (potential_bound cap ltac:(lia) (home_of cap) _ _ _ _ Hh') as HPb.
    destruct (write_ok r hole c Hr Hrange ltac:(unfold budget in *; lia)) as (r1 & -> & Hr1 & Ht1 & Hd1 & Hv1).
    cbn [mbind option_bind]. pose proof (to_cap _ _ _ Ht1) as Hc1. fold cap in Hc1.
    assert (potential cap (home_of cap) (view (agg_slots r1)) i = P - (gap + 1)) as HP1.
    { rewrite <- HP'. apply zsum_ext. intros j _. by rewrite Hv1. }
    destruct (IH r1 M i 0 Hr1) as (r' & He & Hrep & Ht & Hd).
    + rewrite Hc1. eapply holed_proper; [|reflexivity..|exact Hh']. intros j. apply Hv1.
    + unfold MAX_PROBE. lia.
    + rewrite Hc1, HP1. unfold MAX_PROBE in *. lia.
    + rewrite Hc1, HP1. pose proof (to_seq _ _ _ Ht1). unfold budget in *. lia.
    + exists r'. split; [exact He|]. split; [done|]. split; [|congruence].
      rewrite Hc1, HP1 in Ht. pose proof (touched_trans _ _ _ _ _ Ht1 Ht) as [? ? ?]. split; [done|done|lia].
  - apply (IH r M hole (gap + 1) Hr); [|lia|fold cap; fold P; lia|done].
    by eapply holed_skip.
Qed.

Lemma shm_remove_ok r M i c :
  represents r M → 0 ≤ i < zlen (agg_slots r) → view (agg_slots r) i = Some c →
  budget r (MAX_PROBE * zlen (agg_slots r)) →
  ∃ r', remove oneshot r i = Some r' ∧ represents r' (delete (cell_key c) M) ∧
    touched r r' (MAX_PROBE * zlen (agg_slots r)) ∧ aggregate_dropped r' = aggregate_dropped r.
Proof using.
  intros [Hr HM] Hi Hv Hb. pose proof (cap_pos r Hr) as Hcap.
  pose proof (holed_start _ _ _ _ _ _ HM Hi Hv) as Hh.
  pose proof (potential_bound (zlen (agg_slots r)) ltac:(lia) _ _ _ _ _ Hh) as HP.
  unfold remove. destruct (shm_remove_loop_ok (remove_fuel (agg_slots r)) r _ i 0 Hr Hh) as (r' & He & ? & Ht & ?).
  - unfold MAX_PROBE. lia.
  - unfold remove_fuel, MAX_PROBE in *. lia.
  - unfold budget, MAX_PROBE in *. lia.
  - exists r'. split; [exact He|]. split; [done|]. split; [|done].
    destruct Ht as [? ? ?]. split; [done|done|]. unfold MAX_PROBE in *. lia.
Qed.

(** ** The operations on the represented map *)
Definition key_cell (k : CellIdentity) (count now_millis : Z) : AggregateCell :=
  {| ac_rule_fingerprint := Types.rule_fingerprint k; ac_key_hash := key_hash k; ac_bucket := bucket k;
     ac_count := count; ac_last_update_millis := now_millis |}.

Definition set_count (c : AggregateCell) (count : Z) : AggregateCell :=
  key_cell (cell_key c) count (ac_last_update_millis c).

Lemma cell_key_key_cell k count now : cell_key (key_cell k count now) = k.
Proof using. by destruct k. Qed.

Lemma represents_home r M k c : represents r M → M !! k = Some c → cell_key c = k.
Proof using. intros [_ HM] Hc. by apply (ti_map _ _ _ _ HM) in Hc as [? _]. Qed.

(** A slot of the table is overwritten by a cell whose key it holds, or by a new
    key within reach of its home. *)
Lemma write_represents r M i c d :
  represents r M → budget r 1 → 0 ≤ d < MAX_PROBE → d < zlen (agg_slots r) →
  let cap := zlen (agg_slots r) in
  (∃ c0, 0 ≤ i < cap ∧ view (agg_slots r) i = Some c0 ∧ cell_key c0 = cell_key c) ∨
  (M !! cell_key c = None ∧ i = (home_of cap (cell_key c) + d) mod cap ∧ view (agg_slots r) i = None ∧
   ∀ j, 0 ≤ j < d → view (agg_slots r) ((home_of cap (cell_key c) + j) mod cap) ≠ None) →
  ∃ r', write r i c = Some r' ∧ represents r' (<[cell_key c := c]> M) ∧ touched r r' 1 ∧
    aggregate_dropped r' = aggregate_dropped r.
Proof using.
  intros [Hr HM] Hb Hd Hdc cap Hor. pose proof (cap_pos r Hr) as Hcap. fold cap in Hcap.
  assert (0 ≤ i < cap ∧ tinv cap (home_of cap) (upd (view (agg_slots r)) i (Some c)) (<[cell_key c := c]> M)) as [Hi Ht].
  { destruct Hor as [(c0 & Hi & Hv & Hk)|(Hn & -> & Hv & Hrun)].
    - split; [done|]. rewrite <- Hk. apply tinv_update; [lia|apply (home_of_range r Hr)|done|done|done|done].
    - split; [apply Z.mod_pos_bound; lia|]. by apply (tinv_insert cap ltac:(lia) _ (home_of_range r Hr) _ _ _ _ d). }
  destruct (write_ok r i c Hr Hi Hb) as (r' & He & Hr' & Htc & Hdr & Hv). exists r'. split; [done|].
  split; [|done]. split; [done|]. rewrite (to_cap _ _ _ Htc). fold cap.
  eapply tinv_proper; [|reflexivity|exact Ht]. exact Hv.
Qed.

Lemma write_delta_ok r M k delta now :
  represents r M → budget r 1 →
  ∃ r', write_delta oneshot r (Types.rule_fingerprint k) (key_hash k) (bucket k) delta now = Some r' ∧
    ((represents r' (<[k := key_cell k (match M !! k with
                                        | Some c => saturating_add 64 (ac_count c) delta
                                        | None => delta
                                        end) now]> M) ∧
      touched r r' 1 ∧ aggregate_dropped r' = aggregate_dropped r) ∨
     (M !! k = None ∧ r' = note_dropped_write r ∧
      ∀ j, 0 ≤ j < MAX_PROBE → view (agg_slots r) ((home_of (zlen (agg_slots r)) k + j) mod zlen (agg_slots r)) ≠ None)).
Proof using.
  intros Hrep Hb. pose proof Hrep as [Hr HM]. pose proof (cap_pos r Hr) as Hcap. unfold write_delta.
  destruct (probe_ok r Hr M HM k) as (p & -> & Hp). cbn [mbind option_bind].
  assert (∀ n, cell_key (key_cell k n now) = k) as Hkk by (intros; apply cell_key_key_cell).
  destruct p as [i c|i|].
  - destruct Hp as (HMk & Hi & Hv & Hk).
    destruct (write_represents r M i (key_cell k (saturating_add 64 (ac_count c) delta) now) 0 Hrep Hb) as (r' & He & Hrep' & Ht & Hd).
    { done. } { lia. } { left. exists c. by rewrite Hkk. }
    exists r'. split; [exact He|]. left. rewrite Hkk in Hrep'. by rewrite HMk.
  - destruct Hp as (HMk & d & Hd & Hdc & Hi & Hv & Hrun).
    destruct (write_represents r M i (key_cell k delta now) d Hrep Hb) as (r' & He & Hrep' & Ht & Hdr); [done|done| |].
    { right. by rewrite Hkk. }
    exists r'. split; [exact He|]. left. rewrite Hkk in Hrep'. by rewrite HMk.
  - destruct Hp as (HMk & Hrun). eexists. split; [done|]. by right.
Qed.

Lemma write_expiration_ok r M k last :
  represents r M → budget r (MAX_PROBE * zlen (agg_slots r)) →
  ∃ r', write_expiration oneshot r (Types.rule_fingerprint k) (key_hash k) (bucket k) last = Some r' ∧
    represents r' (match M !! k with
                   | Some c => let count := saturating_sub (ac_count c) last in
                               if count =? 0 then delete k M else <[k := set_count c count]> M
                   | None => M
                   end) ∧
    touched r r' (MAX_PROBE * zlen (agg_slots r)) ∧ aggregate_dropped r' = aggregate_dropped r.
Proof using.
  intros Hrep Hb. pose proof Hrep as [Hr HM]. pose proof (cap_pos r Hr) as Hcap. unfold write_expiration.
  assert (touched r r (MAX_PROBE * zlen (agg_slots r))) as Hsame by (split; [done|done|unfold MAX_PROBE; lia]).
  destruct (probe_ok r Hr M HM k) as (p & -> & Hp). cbn [mbind option_bind].
  destruct p as [i c|i|]; [|destruct Hp as (-> & _); by exists r..].
  destruct Hp as (HMk & Hi & Hv & Hk). rewrite HMk. cbv zeta.
  destruct (saturating_sub (ac_count c) last =? 0) eqn:E.
  - destruct (shm_remove_ok r M i c Hrep Hi Hv Hb) as (r' & He & ? & ? & ?). rewrite Hk in *. by exists r'.
  - destruct (write_represents r M i (set_count c (saturating_sub (ac_count c) last)) 0 Hrep) as (r' & He & Hrep' & Ht & Hd).
    { unfold budget, MAX_PROBE in *. lia. } { done. } { lia. }
    { left. exists c. split; [done|]. split; [done|]. unfold set_count. by rewrite cell_key_key_cell. }
    exists r'. split; [exact He|]. unfold set_count in Hrep' at 1. rewrite cell_key_key_cell, Hk in Hrep'.
    split; [done|]. split; [|done]. destruct Ht as [? ? ?]. split; [done|done|unfold MAX_PROBE; lia].
Qed.

(** ** One gossip pass *)

(** The counts the table holds, as the server's store would hold them. *)
Definition counts (M : gmap CellIdentity AggregateCell) : DashMapStore.t := ac_count <$> M.

Lemma read_counts_insert M k c cid :
  DashMapStore.read (counts (<[k := c]> M)) cid =
    if decide (k = cid) then ac_count c else DashMapStore.read (counts M) cid.
Proof using. unfold counts. rewrite fmap_insert. apply DashMapStore.read_insert. Qed.

Lemma read_counts M k :
  DashMapStore.read (counts M) k = match M !! k with Some c => ac_count c | None => 0 end.
Proof using. unfold DashMapStore.read, counts. rewrite lookup_fmap. by destruct (M !! k). Qed.

Lemma counts_ok M : totals_ok M → DashMapStore.ok (counts M).
Proof using. intros Hok. unfold DashMapStore.ok, counts. by apply map_Forall_fmap. Qed.

Lemma counts_range M cid : totals_ok M → 0 ≤ DashMapStore.read (counts M) cid ≤ U64_MAX.
Proof using. intros. by apply DashMapStore.ok_read, counts_ok. Qed.

Lemma apply_delta_shm rows r M i d :
  zget rows i = Some d → represents r M → totals_ok M → budget r 1 → 0 ≤ d_delta d ≤ U64_MAX →
  ∃ r' M', apply_delta oneshot (DeltaSink.of_rows rows) r i = Some r' ∧ represents r' M' ∧ totals_ok M' ∧
    touched r r' 1 ∧
    ((aggregate_dropped r' = aggregate_dropped r ∧
      ∀ cid, DashMapStore.read (counts M') cid =
        saturating_add 64 (DashMapStore.read (counts M) cid) (local_deltas [d] cid)) ∨
     (aggregate_dropped r' = wrapping_add 64 (aggregate_dropped r) 1 ∧ M' = M)).
Proof using.
  intros Hd Hrep Hok Hb Hv. unfold apply_delta. cbn. rewrite !zget_fmap, Hd. cbn.
  pose proof Hrep as [Hr _].
  assert (touched r r 1) as Ht0 by (split; [done|done|lia]).
  assert (∀ cid, DashMapStore.read (counts M) cid = saturating_add 64 (DashMapStore.read (counts M) cid) 0) as Hsame.
  { intros cid. pose proof (counts_range M cid Hok). unfold saturating_add, U64_MAX in *. lia. }
  destruct (d_applies_locally d); cbn; [|exists r, M; by eauto 10].
  destruct (d_delta d =? 0) eqn:E0; bool_solve.
  { exists r, M. do 4 (split; [done|]). left. split; [done|]. intros cid. case_bool_decide; [by rewrite E0|done]. }
  destruct (write_delta_ok r M (d_key d) (d_delta d) 0 Hrep Hb) as (r' & -> & [(Hrep' & Ht & Hdr)|(HMk & -> & _)]).
  - eexists r', _. split; [done|]. split; [exact Hrep'|]. split; [|split; [done|left; split; [done|]]].
    + apply map_Forall_insert_2; [|done]. cbn. pose proof (counts_range M (d_key d) Hok) as Hrg. rewrite read_counts in Hrg.
      destruct (M !! d_key d); unfold saturating_add, U64_MAX in *; lia.
    + intros cid. rewrite read_counts_insert. case_bool_decide as Hk; [|by rewrite decide_False].
      subst cid. rewrite decide_True by done. rewrite read_counts. cbn.
      destruct (M !! d_key d); unfold saturating_add, U64_MAX in *; lia.
  - eexists _, M. split; [done|]. split; [|split; [done|split; [|right; done]]].
    + destruct Hrep as [[] HM]. split; [by split|done].
    + split; cbn; [done|done|lia].
Qed.

Lemma apply_expiration_shm rows r M i e :
  zget rows i = Some e → represents r M → totals_ok M → budget r (MAX_PROBE * zlen (agg_slots r)) →
  0 ≤ e_last_count e ≤ U64_MAX →
  ∃ r' M', apply_expiration oneshot (ExpirationSink.of_rows rows) r i = Some r' ∧ represents r' M' ∧ totals_ok M' ∧
    touched r r' (MAX_PROBE * zlen (agg_slots r)) ∧ aggregate_dropped r' = aggregate_dropped r ∧
    ∀ cid, DashMapStore.read (counts M') cid =
      saturating_sub (DashMapStore.read (counts M) cid) (local_expirations [e] cid).
Proof using.
  intros He Hrep Hok Hb Hv. unfold apply_expiration. cbn. rewrite !zget_fmap, He. cbn.
  assert (∀ cid, DashMapStore.read (counts M) cid = saturating_sub (DashMapStore.read (counts M) cid) 0) as Hsame.
  { intros cid. pose proof (counts_range M cid Hok). unfold saturating_sub. lia. }
  assert (touched r r (MAX_PROBE * zlen (agg_slots r))) as Ht0.
  { pose proof (cap_pos r (proj1 Hrep)). split; [done|done|unfold MAX_PROBE; lia]. }
  destruct (e_applies_locally e); cbn; [|exists r, M; by eauto 10].
  destruct (write_expiration_ok r M (e_key e) (e_last_count e) Hrep Hb) as (r' & -> & Hrep' & Ht & Hdr).
  eexists r', _. split; [done|]. split; [exact Hrep'|].
  destruct (M !! e_key e) as [c|] eqn:HMk; cbv zeta.
  2:{ do 3 (split; [done|]). intros cid. case_bool_decide; [|done]. subst cid. rewrite read_counts, HMk. unfold saturating_sub. lia. }
  pose proof (Hok _ _ HMk) as Hc. cbn in Hc.
  assert (DashMapStore.read (counts M) (e_key e) = ac_count c) as Hrc by (by rewrite read_counts, HMk).
  destruct (saturating_sub (ac_count c) (e_last_count e) =? 0) eqn:E0; bool_solve.
  - split; [by apply map_Forall_delete|]. do 2 (split; [done|]). intros cid. rewrite read_counts, lookup_delete.
    case_decide; case_bool_decide; try done.
    + subst cid. rewrite Hrc, Z.add_0_r. done.
    + rewrite <- Hsame. by rewrite read_counts.
  - split; [|split; [done|split; [done|]]].
    + apply map_Forall_insert_2; [|done]. cbn. unfold saturating_sub in *. lia.
    + intros cid. rewrite read_counts_insert. case_bool_decide as Hk; [|by rewrite decide_False].
      subst cid. rewrite decide_True by done. cbn. by rewrite Hrc, Z.add_0_r.
Qed.

(** The sequence numbers a pass may use. *)
Definition pass_writes (r : Region) (ds : list CellDelta) (es : list CellExpiration) : Z :=
  zlen ds + MAX_PROBE * zlen (agg_slots r) * zlen es.

Lemma apply_deltas_shm r M rows :
  represents r M → totals_ok M → deltas_ok rows → budget r (zlen rows) →
  0 ≤ aggregate_dropped r → aggregate_dropped r + zlen rows < 2 ^ 64 →
  ∃ r', for_each (zrange 0 (zlen rows)) r (apply_delta oneshot (DeltaSink.of_rows rows)) = Some r' ∧
    ∃ M', represents r' M' ∧ totals_ok M' ∧ touched r r' (zlen rows) ∧
      aggregate_dropped r ≤ aggregate_dropped r' ≤ aggregate_dropped r + zlen rows ∧
      (∀ cid, DashMapStore.read (counts M') cid ≤
        saturating_add 64 (DashMapStore.read (counts M) cid) (local_deltas rows cid)) ∧
      (aggregate_dropped r' = aggregate_dropped r → ∀ cid, DashMapStore.read (counts M') cid =
        saturating_add 64 (DashMapStore.read (counts M) cid) (local_deltas rows cid)).
Proof using.
  intros Hrep Hok Hrows Hb Hd0 Hd1.
  apply (for_each_index rows r _ (λ pre s, ∃ M', represents s M' ∧ totals_ok M' ∧ touched r s (zlen pre) ∧
      aggregate_dropped r ≤ aggregate_dropped s ≤ aggregate_dropped r + zlen pre ∧
      (∀ cid, DashMapStore.read (counts M') cid ≤
        saturating_add 64 (DashMapStore.read (counts M) cid) (local_deltas pre cid)) ∧
      (aggregate_dropped s = aggregate_dropped r → ∀ cid, DashMapStore.read (counts M') cid =
        saturating_add 64 (DashMapStore.read (counts M) cid) (local_deltas pre cid)))).
  { unfold zlen. cbn [length]. exists M. do 2 (split; [done|]). split; [split; [done|done|cbn; lia]|]. split; [cbn; lia|].
    split; intros; pose proof (counts_range M cid Hok); unfold saturating_add, U64_MAX in *; cbn; lia. }
  intros pre d suf s -> (M1 & Hrep1 & Hok1 & Ht1 & Hdr & Hle & Heq).
  apply Forall_app in Hrows as [Hpre [Hd _]%Forall_cons]. rewrite zlen_app, (zlen_app [d] suf : zlen (d :: suf) = 1 + _) in *.
  pose proof (zlen_nonneg suf) as Hsuf. pose proof (zlen_nonneg pre) as Hprelen.
  destruct (apply_delta_shm (pre ++ d :: suf) s M1 (zlen pre) d) as (s' & M' & He & Hrep' & Hok' & Ht' & Hcase); [|done|done| |done|].
  { unfold zlen. by rewrite zget_nat, list_lookup_middle. }
  { unfold budget in *. destruct Ht1. lia. }
  exists s'. split; [done|]. exists M'. do 2 (split; [done|]). rewrite ?zlen_app. change (zlen [d]) with 1.
  split; [by eapply touched_trans|].
  assert (∀ cid, 0 ≤ local_deltas pre cid ∧ 0 ≤ local_deltas [d] cid ∧
    local_deltas (pre ++ [d]) cid = local_deltas pre cid + local_deltas [d] cid ∧
    0 ≤ DashMapStore.read (counts M) cid ≤ U64_MAX) as Hfacts.
  { intros cid. split; [by apply local_deltas_nonneg|]. split; [exact (local_deltas_nonneg [d] cid (proj2 (Forall_singleton _ _) Hd))|].
    split; [apply local_deltas_snoc|by apply counts_range]. }
  destruct Hcase as [[Hdr' Hrd]|[Hdr' ->]].
  - rewrite Hdr'. split; [lia|]. split; intros; rewrite Hrd; specialize (Hfacts cid) as (?&?&->&?);
      [specialize (Hle cid)|specialize (Heq ltac:(done) cid)]; unfold saturating_add, U64_MAX in *; lia.
  - assert (aggregate_dropped s' = aggregate_dropped s + 1) as Hp.
    { rewrite Hdr'. unfold wrapping_add. apply Z.mod_small. lia. }
    split; [lia|]. split; [|lia]. intros cid. specialize (Hle cid). specialize (Hfacts cid) as (?&?&->&?).
    unfold saturating_add, U64_MAX in *. lia.
Qed.

Lemma apply_expirations_shm r M rows :
  represents r M → totals_ok M → expirations_ok rows → budget r (MAX_PROBE * zlen (agg_slots r) * zlen rows) →
  ∃ r', for_each (zrange 0 (zlen rows)) r (apply_expiration oneshot (ExpirationSink.of_rows rows)) = Some r' ∧
    ∃ M', represents r' M' ∧ totals_ok M' ∧ touched r r' (MAX_PROBE * zlen (agg_slots r) * zlen rows) ∧
      aggregate_dropped r' = aggregate_dropped r ∧
      ∀ cid, DashMapStore.read (counts M') cid =
        saturating_sub (DashMapStore.read (counts M) cid) (local_expirations rows cid).
Proof using.
  intros Hrep Hok Hrows Hb. pose proof (cap_pos r (proj1 Hrep)) as Hcap. set (W := MAX_PROBE * zlen (agg_slots r)) in *.
  assert (0 ≤ W) as HW by (unfold W, MAX_PROBE; lia).
  apply (for_each_index rows r _ (λ pre s, ∃ M', represents s M' ∧ totals_ok M' ∧ touched r s (W * zlen pre) ∧
      aggregate_dropped s = aggregate_dropped r ∧
      ∀ cid, DashMapStore.read (counts M') cid =
        saturating_sub (DashMapStore.read (counts M) cid) (local_expirations pre cid))).
  { unfold zlen. cbn [length]. exists M. do 2 (split; [done|]). split; [split; [done|done|cbn; lia]|]. split; [done|].
    intros. pose proof (counts_range M cid Hok). unfold saturating_sub. cbn. lia. }
  intros pre e suf s -> (M1 & Hrep1 & Hok1 & Ht1 & Hdr & Heq).
  apply Forall_app in Hrows as [Hpre [He _]%Forall_cons]. rewrite zlen_app, (zlen_app [e] suf : zlen (e :: suf) = 1 + _) in *.
  pose proof (zlen_nonneg suf) as Hsuf. pose proof (zlen_nonneg pre) as Hprelen.
  assert (MAX_PROBE * zlen (agg_slots s) = W) as HWs by (unfold W; by rewrite (to_cap _ _ _ Ht1)).
  destruct (apply_expiration_shm (pre ++ e :: suf) s M1 (zlen pre) e) as (s' & M' & Hx & Hrep' & Hok' & Ht' & Hdr' & Hrd); [|done|done| |done|].
  { unfold zlen. by rewrite zget_nat, list_lookup_middle. }
  { unfold budget in *. rewrite HWs. destruct Ht1. nia. }
  exists s'. split; [done|]. exists M'. do 2 (split; [done|]). rewrite ?zlen_app. change (zlen [e]) with 1. rewrite HWs in Ht'.
  split; [|split; [congruence|]].
  - replace (W * (zlen pre + 1)) with (W * zlen pre + W) by lia. by eapply touched_trans.
  - intros cid. rewrite Hrd, Heq, local_expirations_snoc.
    pose proof (local_expirations_nonneg pre cid Hpre).
    pose proof (local_expirations_nonneg [e] cid (proj2 (Forall_singleton _ _) He)). unfold saturating_sub. lia.
Qed.

Lemma apply_shm_ok r M ds es :
  represents r M → totals_ok M → deltas_ok ds → expirations_ok es → budget r (pass_writes r ds es) →
  0 ≤ aggregate_dropped r → aggregate_dropped r + zlen ds < 2 ^ 64 →
  ∃ r' M', apply oneshot (lease_epoch r) r (DeltaSink.of_rows ds) (ExpirationSink.of_rows es) = Some r' ∧
    represents r' M' ∧ totals_ok M' ∧ touched r r' (pass_writes r ds es) ∧
    aggregate_dropped r ≤ aggregate_dropped r' ≤ aggregate_dropped r + zlen ds ∧
    let ref cid := saturating_sub (saturating_add 64 (DashMapStore.read (counts M) cid) (local_deltas ds cid))
                                  (local_expirations es cid) in
    (∀ cid, DashMapStore.read (counts M') cid ≤ ref cid) ∧
    (aggregate_dropped r' = aggregate_dropped r → ∀ cid, DashMapStore.read (counts M') cid = ref cid).
Proof using.
  intros Hrep Hok Hds Hes Hb Hd0 Hd1. unfold apply. rewrite Z.eqb_refl. cbn [negb].
  rewrite DeltaSink.delta_len_of_rows, ExpirationSink.exp_len_of_rows.
  pose proof (zlen_nonneg ds). pose proof (zlen_nonneg es). pose proof (cap_pos r (proj1 Hrep)) as Hcap.
  assert (0 ≤ MAX_PROBE * zlen (agg_slots r) * zlen es) as HW by (unfold MAX_PROBE; nia).
  unfold budget, pass_writes in Hb.
  destruct (apply_deltas_shm r M ds Hrep Hok Hds ltac:(unfold budget; lia) Hd0 Hd1) as (r1 & -> & M1 & Hrep1 & Hok1 & Ht1 & Hdr1 & Hle1 & Heq1).
  cbn [mbind option_bind]. pose proof (to_cap _ _ _ Ht1) as Hc1.
  destruct (apply_expirations_shm r1 M1 es Hrep1 Hok1 Hes) as (r2 & -> & M2 & Hrep2 & Hok2 & Ht2 & Hdr2 & Heq2).
  { rewrite Hc1. unfold budget. destruct Ht1. lia. }
  exists r2, M2. split; [done|]. do 2 (split; [done|]). rewrite Hc1 in Ht2. split; [by eapply touched_trans|].
  split; [lia|]. cbv zeta. split.
  - intros cid. rewrite Heq2. specialize (Hle1 cid). unfold saturating_sub. lia.
  - intros Hs cid. rewrite Heq2, Heq1 by lia. done.
Qed.

(** ** What a worker reads *)
Lemma get_count r M fp kh b :
  represents r M →
  get oneshot (agg_slots r) fp kh b = Some (M !! {| Types.rule_fingerprint := fp; key_hash := kh; bucket := b |}).
Proof using. intros [Hr HM]. exact (get_ok r Hr M HM {| Types.rule_fingerprint := fp; key_hash := kh; bucket := b |}). Qed.

Lemma sum_live_ok r M fp kh current n :
  represents r M → ∀ offset total,
  sum_live oneshot (agg_slots r) fp kh current offset n total =
    Some (DashMapStore.sum_window (counts M) fp kh current offset n total).
Proof using.
  intros Hrep. induction n as [|n IH]; intros offset total; cbn [sum_live DashMapStore.sum_window]; [done|].
  destruct (current <? offset); [done|]. rewrite (get_count r M) by done. cbn [mbind option_bind].
  rewrite IH. unfold counts. rewrite lookup_fmap. by destruct (M !! _).
Qed.

Lemma window_total_shm r M fp kh now bm live :
  represents r M →
  window_total oneshot (agg_slots r) fp kh now bm live =
    DashMapStore.window_total (counts M) fp kh now (Z.max bm 1) (Z.max live 1).
Proof using.
  intros Hrep. unfold window_total, DashMapStore.window_total.
  replace (Z.max bm 1 =? 0) with false by lia. by apply sum_live_ok.
Qed.

Lemma time_until_admit_shm r M spec kh now total hits :
  represents r M →
  time_until_admit_millis oneshot (agg_slots r) spec kh now total hits =
    DashMapStore.time_until_admit_millis (counts M) spec kh now total hits.
Proof using.
  intros Hrep. unfold time_until_admit_millis, DashMapStore.time_until_admit_millis.
  apply Window.time_until_admit_proper; try done. intros b. rewrite (get_count r M) by done.
  unfold counts. rewrite lookup_fmap. by destruct (M !! _).
Qed.

(** ** A new leader starts from an empty table *)
Lemma shm_new_ok r :
  (∃ e, 1 ≤ e ≤ 63 ∧ zlen (agg_slots r) = 2 ^ e) →
  2 ≤ aggregate_write_seq r < 2 ^ 64 → Z.land (aggregate_write_seq r) 1 = 0 →
  represents (store_new r).1 ∅ ∧ (store_new r).2 = lease_epoch r.
Proof using.
  intros Hcap Hseq Hev. split; [|done]. unfold store_new. cbn [fst].
  set (f := λ sl, if as_seq sl =? 0 then sl else {| as_seq := 0; as_cell := as_cell sl |}).
  assert (∀ sl, as_seq (f sl) = 0) as Hf by (intros sl; unfold f; destruct (as_seq sl =? 0) eqn:E; cbn; lia).
  assert (∀ i, view (f <$> agg_slots r) i = None) as Hv.
  { intros i. unfold view. rewrite zget_fmap. destruct (zget (agg_slots r) i) as [sl|]; cbn; [|done].
    by rewrite slot_read_quiet, Hf. }
  split; [split; cbn; [by rewrite zlen_fmap| |done]|].
  - apply Forall_fmap, Forall_true. intros sl. cbn. by rewrite Hf.
  - cbn. split.
    + intros i c _. by rewrite Hv.
    + intros i c j _. by rewrite Hv.
    + intros i i' c c' _ _. by rewrite Hv.
    + intros k c. rewrite lookup_empty. split; [done|]. intros (_ & i & _ & Hi). by rewrite Hv in Hi.
Qed.
End region.

(** ** The properties *)

(** C22: The table is a finite map of cells, whatever the table hash.  On every
    branch: a lookup returns exactly the map's cell; a delta adds to the cell of
    its key (saturating) or creates it, or, when the key is absent and the
    [MAX_PROBE] slots from its home are all taken, changes no slot and counts a
    dropped write; an expiration takes off its count, deletes the cell when
    nothing is left and ignores an absent key.  No operation panics or fails to
    terminate, and the table keeps its shape. *)
Theorem table_refines_map oneshot r M k delta last now :
  represents oneshot r M → budget r (MAX_PROBE * zlen (agg_slots r)) →
  let fp := Types.rule_fingerprint k in
  get oneshot (agg_slots r) fp (key_hash k) (bucket k) = Some (M !! k) ∧
  (∃ r', write_delta oneshot r fp (key_hash k) (bucket k) delta now = Some r' ∧
    ((represents oneshot r' (<[k := key_cell k (match M !! k with
                                        | Some c => saturating_add 64 (ac_count c) delta
                                        | None => delta
                                        end) now]> M) ∧ aggregate_dropped r' = aggregate_dropped r) ∨
     (M !! k = None ∧ r' = note_dropped_write r ∧ ∀ j, 0 ≤ j < MAX_PROBE →
        view (agg_slots r) ((home_of oneshot (zlen (agg_slots r)) k + j) mod zlen (agg_slots r)) ≠ None))) ∧
  (∃ r', write_expiration oneshot r fp (key_hash k) (bucket k) last = Some r' ∧
    represents oneshot r' (match M !! k with
                   | Some c => let count := saturating_sub (ac_count c) last in
                               if count =? 0 then delete k M else <[k := set_count c count]> M
                   | None => M
                   end) ∧ aggregate_dropped r' = aggregate_dropped r).
Proof.
  intros Hrep Hb fp. pose proof (cap_pos r (proj1 Hrep)) as Hcap. split; [|split].
  - apply (get_ok oneshot r (proj1 Hrep) M (proj2 Hrep)).
  - destruct (write_delta_ok oneshot r M k delta now Hrep) as (r' & He & [(?&?&?)|?]);
      [unfold budget, MAX_PROBE in *; lia|exists r'; eauto..].
  - destruct (write_expiration_ok oneshot r M k last Hrep Hb) as (r' & ? & ? & ? & ?). by exists r'.
Qed.

(** C23: One gossip pass over the shared table never over-counts: every total ends
    at most where the server's store would put it (deltas added, expirations
    taken off, saturating), and exactly there when the pass dropped no write; the
    drop counter tells which.  A writer whose lease epoch is no longer the
    current one changes nothing. *)
Theorem table_pass_undercounts oneshot epoch r M ds es :
  represents oneshot r M → totals_ok M → deltas_ok ds → expirations_ok es → budget r (pass_writes r ds es) →
  0 ≤ aggregate_dropped r → aggregate_dropped r + zlen ds < 2 ^ 64 →
  let ref cid := saturating_sub (saturating_add 64 (DashMapStore.read (counts M) cid) (local_deltas ds cid))
                                (local_expirations es cid) in
  ∃ r' M', apply oneshot epoch r (DeltaSink.of_rows ds) (ExpirationSink.of_rows es) = Some r' ∧
    represents oneshot r' M' ∧ totals_ok M' ∧
    if decide (lease_epoch r = epoch) then
      aggregate_dropped r ≤ aggregate_dropped r' ≤ aggregate_dropped r + zlen ds ∧
      (∀ cid, DashMapStore.read (counts M') cid ≤ ref cid) ∧
      (aggregate_dropped r' = aggregate_dropped r → ∀ cid, DashMapStore.read (counts M') cid = ref cid)
    else r' = r ∧ M' = M.
Proof.
  intros Hrep Hok Hds Hes Hb Hd0 Hd1 ref. case_decide as He.
  - subst epoch. destruct (apply_shm_ok oneshot r M ds es Hrep Hok Hds Hes Hb Hd0 Hd1) as (r' & M' & ? & ? & ? & _ & ?).
    by exists r', M'.
  - exists r, M. unfold apply. by rewrite (proj2 (Z.eqb_neq _ _) He).
Qed.

(** C30: A worker that reads the table while no write is in progress decides like
    the gRPC server on the same counts: for every rule whose bucket length and
    number of live buckets are not zero the window total is the server's, and for
    every rule the wait until a request would be admitted is.  The two differ at
    zero: the table reads a zero length or number of buckets as one, where the
    server's total panics on the length and counts nothing for the number. *)
Theorem table_reads_as_server oneshot r M spec kh now total hits :
  represents oneshot r M →
  let shm bm live := window_total oneshot (agg_slots r) (spec_fingerprint spec) kh now bm live in
  let server bm live := DashMapStore.window_total (counts M) (spec_fingerprint spec) kh now bm live in
  (∀ bm live, 0 < bm → 0 < live → shm bm live = server bm live) ∧
  (∀ bm live, shm bm live = server (Z.max bm 1) (Z.max live 1)) ∧
  (∀ live, server 0 live = None) ∧ (∀ bm, 0 < bm → server bm 0 = Some 0) ∧
  time_until_admit_millis oneshot (agg_slots r) spec kh now total hits =
    DashMapStore.time_until_admit_millis (counts M) spec kh now total hits.
Proof.
  intros Hrep shm server.
  assert (∀ bm live, shm bm live = server (Z.max bm 1) (Z.max live 1)) as Hmax by (intros; by apply window_total_shm).
  split; [intros bm live ? ?; by rewrite Hmax, !Z.max_l by lia|]. split; [exact Hmax|]. split; [done|].
  split; [|by apply time_until_admit_shm]. intros bm Hbm. unfold server, DashMapStore.window_total.
  by replace (bm =? 0) with false by lia.
Qed.

(** A worker that wins the lease empties the table first, mid-write slots of
    the former leader included, so its first pass counts from zero: whatever the
    table held, a total ends at most at the pass's own rows, and exactly there
    when nothing was dropped. *)
Theorem new_leader_counts_afresh oneshot r ds es e :
  1 ≤ e ≤ 63 → zlen (agg_slots r) = 2 ^ e → Z.land (aggregate_write_seq r) 1 = 0 → 2 ≤ aggregate_write_seq r →
  deltas_ok ds → expirations_ok es → budget r (pass_writes r ds es) →
  0 ≤ aggregate_dropped r → aggregate_dropped r + zlen ds < 2 ^ 64 →
  let '(r0, epoch) := store_new r in
  let ref cid := saturating_sub (Z.min (local_deltas ds cid) U64_MAX) (local_expirations es cid) in
  ∃ r' M', apply oneshot epoch r0 (DeltaSink.of_rows ds) (ExpirationSink.of_rows es) = Some r' ∧
    represents oneshot r' M' ∧
    (∀ cid, DashMapStore.read (counts M') cid ≤ ref cid) ∧
    (aggregate_dropped r' = aggregate_dropped r → ∀ cid, DashMapStore.read (counts M') cid = ref cid).
Proof.
  intros He Hc Hev Hq Hds Hes Hb Hd0 Hd1.
  pose proof (zlen_nonneg ds). pose proof (zlen_nonneg es).
  assert (0 ≤ pass_writes r ds es) as HW by (unfold pass_writes, MAX_PROBE; pose proof (zlen_nonneg (agg_slots r)); nia).
  unfold budget in Hb.
  destruct (shm_new_ok oneshot r ltac:(eauto) ltac:(lia) Hev) as [Hrep _].
  change (store_new r) with ((store_new r).1, lease_epoch r).
  assert (pass_writes (store_new r).1 ds es = pass_writes r ds es) as Hpw by (unfold pass_writes, store_new; cbn; by rewrite zlen_fmap).
  destruct (apply_shm_ok oneshot (store_new r).1 ∅ ds es) as (r' & M' & Ha & Hrep' & _ & _ & _ & Hle & Heq);
    [done|apply map_Forall_empty|done|done|unfold budget; rewrite Hpw; done|done|done|].
  exists r', M'. split; [exact Ha|]. split; [done|].
  assert (∀ cid, saturating_add 64 (DashMapStore.read (counts ∅) cid) (local_deltas ds cid) = Z.min (local_deltas ds cid) U64_MAX) as Hz.
  { intros cid. rewrite read_counts. rewrite lookup_empty. unfold saturating_add, U64_MAX. lia. }
  split; intros; [specialize (Hle cid); rewrite Hz in Hle|rewrite Heq, Hz]; done.
Qed.

(** ** Witnesses: four slots, a hash that sends every key to the last one *)
Definition demo_hash (_ : list Z) : Z := 3.
Definition demo_region : Region :=
  {| agg_slots := replicate 4 AggregateSlot_empty; aggregate_write_seq := 2; aggregate_dropped := 0; lease_epoch := 7 |}.
Definition demo_key (b : Z) : CellIdentity := {| Types.rule_fingerprint := 11; key_hash := 22; bucket := b |}.
Definition demo_deltas : list CellDelta :=
  (λ b, {| d_handle := {| h_index := b; h_generation := 1 |}; d_key := demo_key b;
          d_previous_count := 0; d_current_count := 10 + b; d_delta := 10 + b; d_applies_locally := true |}) <$> [0; 1; 2].
Definition demo_expirations : list CellExpiration :=
  [{| e_handle := {| h_index := 0; h_generation := 1 |}; e_key := demo_key 0; e_last_count := 10;
     e_last_update_millis := 0; e_applies_locally := true |}].
Definition demo_map : gmap CellIdentity AggregateCell :=
  <[demo_key 1 := key_cell (demo_key 1) 11 0]> (<[demo_key 0 := key_cell (demo_key 0) 10 0]> ∅).
Definition demo_filled : Region :=
  default demo_region (r ← write_delta demo_hash demo_region 11 22 0 10 0; write_delta demo_hash r 11 22 1 11 0).

Lemma demo_empty : represents demo_hash demo_region ∅.
Proof.
  assert (∃ e, 1 ≤ e ≤ 63 ∧ zlen (agg_slots demo_region) = 2 ^ e) as He by (exists 2; split; [lia|reflexivity]).
  pose proof (shm_new_ok demo_hash demo_region He ltac:(cbn; lia) eq_refl) as [Hrep _].
  exact Hrep.
Qed.

Lemma demo_filled_ok : represents demo_hash demo_filled demo_map ∧ totals_ok demo_map.
Proof.
  split; [|by apply map_Forall_insert_2, map_Forall_insert_2, map_Forall_empty; vm_compute].
  destruct (write_delta_ok demo_hash demo_region ∅ (demo_key 0) 10 0 demo_empty) as (r1 & E1 & [(Hr1 & _)|(_ & -> & _)]);
    [done| |vm_compute in E1; discriminate E1].
  destruct (write_delta_ok demo_hash r1 _ (demo_key 1) 11 0 Hr1) as (r2 & E2 & [(Hr2 & _)|(_ & -> & _)]).
  - vm_compute in E1. injection E1 as <-. done.
  - vm_compute in E1. injection E1 as <-. vm_compute in E2. injection E2 as <-. exact Hr2.
  - vm_compute in E1. injection E1 as <-. vm_compute in E2. discriminate E2.
Qed.

Lemma table_refines_map_witness :
  get demo_hash (agg_slots demo_filled) 11 22 1 = Some (Some (key_cell (demo_key 1) 11 0)) ∧
  (∃ r', write_expiration demo_hash demo_filled 11 22 0 10 = Some r' ∧
    represents demo_hash r' (delete (demo_key 0) demo_map)).
Proof.
  destruct (table_refines_map demo_hash demo_filled demo_map (demo_key 0) 0 10 0 (proj1 demo_filled_ok) eq_refl)
    as (_ & _ & r' & He & Hr & _).
  split; [vm_compute; reflexivity|]. exists r'. split; [exact He|exact Hr].
Defined.

Lemma table_pass_undercounts_witness :
  ∃ r' M', apply demo_hash 7 demo_filled (DeltaSink.of_rows demo_deltas) (ExpirationSink.of_rows demo_expirations) = Some r' ∧
    represents demo_hash r' M' ∧ DashMapStore.read (counts M') (demo_key 1) ≤ 22.
Proof.
  destruct (table_pass_undercounts demo_hash 7 demo_filled demo_map demo_deltas demo_expirations
    (proj1 demo_filled_ok) (proj2 demo_filled_ok)) as (r' & M' & He & Hr & _ & Hd).
  - repeat constructor; vm_compute; discriminate.
  - repeat constructor; vm_compute; discriminate.
  - reflexivity.
  - vm_compute. discriminate.
  - reflexivity.
  - exists r', M'. split; [exact He|]. split; [exact Hr|]. destruct Hd as (_ & Hd & _). exact (Hd (demo_key 1)).
Defined.

Lemma table_reads_as_server_witness :
  let spec := {| spec_id := 1; spec_fingerprint := 11; spec_limit := 5; spec_bucket_millis := 100; spec_window_millis := 200;
                 spec_live_buckets := 2 |} in
  window_total demo_hash (agg_slots demo_filled) 11 22 150 100 2 = Some 21 ∧
  time_until_admit_millis demo_hash (agg_slots demo_filled) spec 22 150 21 1 =
    DashMapStore.time_until_admit_millis (counts demo_map) spec 22 150 21 1.
Proof.
  intros spec. destruct (table_reads_as_server demo_hash demo_filled demo_map spec 22 150 21 1 (proj1 demo_filled_ok)) as (Hw & _ & _ & _ & Ht).
  split; [exact (Hw 100 2 ltac:(lia) ltac:(lia))|exact Ht].
Defined.

Lemma new_leader_counts_afresh_witness :
  ∃ r' M', apply demo_hash 7 (store_new demo_filled).1 (DeltaSink.of_rows demo_deltas) (ExpirationSink.of_rows demo_expirations) = Some r' ∧
    represents demo_hash r' M' ∧ DashMapStore.read (counts M') (demo_key 1) ≤ 11.
Proof.
  destruct (new_leader_counts_afresh demo_hash demo_filled demo_deltas demo_expirations 2) as (r' & M' & He & Hr & Hd & _).
  - lia.
  - reflexivity.
  - reflexivity.
  - vm_compute. discriminate.
  - repeat constructor; vm_compute; discriminate.
  - repeat constructor; vm_compute; discriminate.
  - reflexivity.
  - vm_compute. discriminate.
  - reflexivity.
  - exists r', M'. split; [exact He|]. split; [exact Hr|]. exact (Hd (demo_key 1)).
Defined.
