(* ===== verification/NginxRules.v ===== *)
(** * The nginx adapter's rules

    [crates/nginx/src/rules.rs]: descriptor bindings as the directives spell them,
    the names the parser accepts, and the compilation of rule configurations into
    the table the access path walks.  nginx's own variable machinery is behind the
    [BindingCompiler] trait: a compiler is a parameter, and the one the source
    ships for builds without nginx is defined here. *)

From stdpp Require Import strings.
From S2P Require Import Prelude Types Bytes Str IO Window Rules DashMap Limiter.

Record CardinalitySettings := {
  cs_max_descriptor_count : Z;
  cs_max_descriptor_bytes : Z;
  cs_max_key_bytes : Z;
}.
Definition CardinalitySettings_default : CardinalitySettings := {|
  cs_max_descriptor_count := STORAGE_MAX_DESCRIPTOR_COUNT;
  cs_max_descriptor_bytes := STORAGE_MAX_DESCRIPTOR_BYTES;
  cs_max_key_bytes := STORAGE_MAX_KEY_BYTES;
|}.

Record DescriptorBinding := { db_key : str; db_source : str }.

Inductive BindingLookup :=
  | Uri | RequestUri | Args | RemoteAddr
  | Arg (name : str)
  | IndexedVariable (name : str) (index : Z)
  | ComplexValue (source : str) (compiled_value : Z).

Record CompiledBinding := { cb_key : str; cb_lookup : BindingLookup }.

Record RuleConfig := {
  rcfg_name : str;
  rcfg_domain : str;
  rcfg_bindings : list DescriptorBinding;
  rcfg_limit : Z;
  rcfg_window : Z;
  rcfg_bucket : Z;
  rcfg_mode : EnforcementMode;
  rcfg_except_if : option str;
}.

Record CompiledRule := {
  cr_name : str;
  cr_rule : Rule;
  cr_bindings : list CompiledBinding;
  cr_except_if : option BindingLookup;
}.

Inductive RuleConfigError :=
  | EmptyConfig
  | EmptyBindings (rule : str)
  | TooManyBindings (rule : str)
  | ZeroLimit (rule : str)
  | KeyTooLong (rule key : str)
  | CompileBinding (rule spec message : str)
  | UnsupportedBinding (spec : str).

(** ** Names *)
Definition is_ascii_lowercase (c : Z) : bool := (97 <=? c) && (c <=? 122).
Definition is_ascii_digit (c : Z) : bool := (48 <=? c) && (c <=? 57).
Definition is_ascii_alphabetic (c : Z) : bool := is_ascii_lowercase c || ((65 <=? c) && (c <=? 90)).
Definition is_ascii_alphanumeric (c : Z) : bool := is_ascii_alphabetic c || is_ascii_digit c.

Definition is_single_ident (s : str) : bool :=
  match s with
  | [] => false
  | c :: s => ((c =? 95) || is_ascii_alphabetic c) && forallb (λ c, (c =? 95) || is_ascii_alphanumeric c) s
  end.

Definition is_descriptor_key (s : str) : bool :=
  match s with
  | [] => false
  | c :: s => ((c =? 95) || is_ascii_alphabetic c) &&
              forallb (λ c, (c =? 95) || (c =? 46) || (c =? 45) || is_ascii_alphanumeric c) s
  end.

Definition is_zone_name (s : str) : bool :=
  negb (bool_decide (s = [])) && forallb (λ c, (c =? 95) || is_ascii_alphanumeric c) s.

(** [None] is an out-of-range index. *)
Definition is_dns_label (s : str) : option bool :=
  let bytes := str_bytes s in
  let len := zlen bytes in
  if negb ((1 <=? len) && (len <=? 63)) then Some false else
  head ← zget bytes 0;
  tail ← zget bytes (len - 1);
  let head_ok := is_ascii_lowercase head || is_ascii_digit head in
  let tail_ok := is_ascii_lowercase tail || is_ascii_digit tail in
  if negb head_ok || negb tail_ok then Some false else
  Some (forallb (λ b, is_ascii_lowercase b || is_ascii_digit b || (b =? 45)) bytes).

(** ** Bindings *)
Definition compile_inline (source : str) : option BindingLookup :=
  let stripped := default source (strip_prefix (lit "$") source) in
  if negb (is_single_ident stripped) then None
  else if bool_decide (stripped = lit "uri") then Some Uri
  else if bool_decide (stripped = lit "request_uri") then Some RequestUri
  else if bool_decide (stripped = lit "args") then Some Args
  else if bool_decide (stripped = lit "remote_addr") then Some RemoteAddr
  else Arg <$> strip_prefix (lit "arg_") stripped.

Definition compile_single_variable (source : str) (index : Z) : option BindingLookup :=
  stripped ← strip_prefix (lit "$") source;
  if negb (is_single_ident stripped) then None else Some (IndexedVariable stripped index).

Definition NopBindingCompiler (source : str) : BindingLookup + RuleConfigError :=
  match compile_inline source with
  | Some b => Ok b
  | None =>
    match compile_single_variable source 0 with
    | Some b => Ok b
    | None => Err (UnsupportedBinding source)
    end
  end.

(** The four messages of the parser. *)
Inductive BindingError := ExpectedBinding | KeyOverBudget | BadKey | EmptySource.

Definition parse_binding (rest : str) : DescriptorBinding + BindingError :=
  match strip_prefix (lit "$") rest with
  | Some stripped =>
    if is_single_ident stripped then
      if STORAGE_MAX_KEY_BYTES <? str_len stripped then Err KeyOverBudget
      else Ok {| db_key := stripped; db_source := rest |}
    else Err ExpectedBinding
  | None =>
    match split_once (lit ":") rest with
    | None => Err ExpectedBinding
    | Some (key, source) =>
      if negb (is_descriptor_key key) then Err BadKey
      else if bool_decide (source = []) then Err EmptySource
      else if STORAGE_MAX_KEY_BYTES <? str_len key then Err KeyOverBudget
      else Ok {| db_key := key; db_source := source |}
    end
  end.

(** ** Compilation *)
Definition duration_millis (d : Z) : Z := Z.max (Z.min (d / 1000000) U64_MAX) 1.

Section compile.
Context (xxh3 : list Z → Z).
(** A compiler and how its errors print. *)
Context {E : Type} (compiler : str → BindingLookup + E) (to_string : E → str).

Definition compile_source (rule source : str) : BindingLookup + RuleConfigError :=
  match compiler source with
  | inl lookup => Ok lookup
  | inr err => Err (CompileBinding rule source (to_string err))
  end.

Fixpoint compile_bindings (rule : str) (bs : list DescriptorBinding) : list CompiledBinding + RuleConfigError :=
  match bs with
  | [] => Ok []
  | b :: bs =>
    match compile_source rule (db_source b) with
    | inr e => Err e
    | inl lookup =>
      match compile_bindings rule bs with
      | inr e => Err e
      | inl rest => Ok ({| cb_key := db_key b; cb_lookup := lookup |} :: rest)
      end
    end
  end.

(** One iteration of the loop over the configurations. *)
Definition compile_one (cardinality : CardinalitySettings) (idx : Z) (cfg : RuleConfig) :
    CompiledRule + RuleConfigError :=
  if bool_decide (rcfg_bindings cfg = []) then Err (EmptyBindings (rcfg_name cfg)) else
  if cs_max_descriptor_count cardinality <? zlen (rcfg_bindings cfg) then
    Err (TooManyBindings (rcfg_name cfg)) else
  match List.find (λ b, cs_max_key_bytes cardinality <? str_len (db_key b)) (rcfg_bindings cfg) with
  | Some b => Err (KeyTooLong (rcfg_name cfg) (db_key b))
  | None =>
    let id := as_u32 (idx + 1) in
    let descriptors := (λ b, {| pat_key := db_key b; pat_value := lit "*" |}) <$> rcfg_bindings cfg in
    if rcfg_limit cfg =? 0 then Err (ZeroLimit (rcfg_name cfg)) else
    let rule := Rule_new xxh3 id (rcfg_domain cfg) descriptors (rcfg_limit cfg)
                  (duration_millis (rcfg_window cfg)) (duration_millis (rcfg_bucket cfg)) (rcfg_mode cfg) in
    match compile_bindings (rcfg_name cfg) (rcfg_bindings cfg) with
    | inr e => Err e
    | inl bindings =>
      match (match rcfg_except_if cfg with
             | Some var =>
               match compile_source (rcfg_name cfg) (lit "$" ++ var) with
               | inl lookup => Ok (Some lookup)
               | inr e => Err e
               end
             | None => Ok None
             end) with
      | inr e => Err e
      | inl except_if =>
        Ok {| cr_name := rcfg_name cfg; cr_rule := rule; cr_bindings := bindings; cr_except_if := except_if |}
      end
    end
  end.

Fixpoint compile_loop (cardinality : CardinalitySettings) (idx : Z) (configs : list RuleConfig) :
    list CompiledRule + RuleConfigError :=
  match configs with
  | [] => Ok []
  | cfg :: configs =>
    match compile_one cardinality idx cfg with
    | inr e => Err e
    | inl rule =>
      match compile_loop cardinality (idx + 1) configs with
      | inr e => Err e
      | inl rules => Ok (rule :: rules)
      end
    end
  end.

(** The compiled list; the [RuleTable] beside it holds the same rules in order. *)
Definition compile_with (configs : list RuleConfig) (cardinality : CardinalitySettings) :
    list CompiledRule + RuleConfigError :=
  if bool_decide (configs = []) then Err EmptyConfig else compile_loop cardinality 0 configs.
End compile.

Definition compile (xxh3 : list Z → Z) (show : RuleConfigError → str) (configs : list RuleConfig) :
    list CompiledRule + RuleConfigError :=
  compile_with xxh3 NopBindingCompiler show configs CardinalitySettings_default.

Definition table (rules : list CompiledRule) : list Rule := cr_rule <$> rules.
Definition by_name (rules : list CompiledRule) (name : str) : option CompiledRule :=
  List.find (λ r, bool_decide (cr_name r = name)) rules.
Fixpoint index_from (i : Z) (rules : list CompiledRule) (name : str) : option Z :=
  match rules with
  | [] => None
  | r :: rules => if bool_decide (cr_name r = name) then Some i else index_from (i + 1) rules name
  end.
Definition index_by_name (rules : list CompiledRule) (name : str) : option Z := index_from 0 rules name.

(** ** What compilation accepts *)
Record config_ok (card : CardinalitySettings) (cfg : RuleConfig) : Prop := {
  cfg_some : rcfg_bindings cfg ≠ [];
  cfg_count : zlen (rcfg_bindings cfg) ≤ cs_max_descriptor_count card;
  cfg_keys : Forall (λ b, str_len (db_key b) ≤ cs_max_key_bytes card) (rcfg_bindings cfg);
  cfg_limit : rcfg_limit cfg ≠ 0;
}.

Section compile_spec.
Context (xxh3 : list Z → Z) {E : Type} (compiler : str → BindingLookup + E) (to_string : E → str).

(** The rule at position [idx]: its bindings in order, each with the lookup its
    source compiles to, and a wildcard pattern per binding. *)
Record compiled_as (idx : Z) (cfg : RuleConfig) (cr : CompiledRule) : Prop := {
  ca_name : cr_name cr = rcfg_name cfg;
  ca_rule : cr_rule cr = Rule_new xxh3 (as_u32 (idx + 1)) (rcfg_domain cfg)
    ((λ b, {| pat_key := db_key b; pat_value := lit "*" |}) <$> rcfg_bindings cfg) (rcfg_limit cfg)
    (duration_millis (rcfg_window cfg)) (duration_millis (rcfg_bucket cfg)) (rcfg_mode cfg);
  ca_bindings : Forall2 (λ b cb, cb_key cb = db_key b ∧ compiler (db_source b) = inl (cb_lookup cb))
    (rcfg_bindings cfg) (cr_bindings cr);
  ca_except : match rcfg_except_if cfg with
              | Some var => ∃ l, compiler (lit "$" ++ var) = inl l ∧ cr_except_if cr = Some l
              | None => cr_except_if cr = None
              end;
}.

Lemma compile_source_ok rule source l :
  compile_source compiler to_string rule source = inl l ↔ compiler source = inl l.
Proof using. unfold compile_source. destruct (compiler source); split; congruence. Qed.

Lemma compile_bindings_ok rule bs : ∀ cbs,
  compile_bindings compiler to_string rule bs = inl cbs ↔
  Forall2 (λ b cb, cb_key cb = db_key b ∧ compiler (db_source b) = inl (cb_lookup cb)) bs cbs.
Proof using.
  induction bs as [|b bs IH]; intros cbs; cbn [compile_bindings].
  { split; [intros [= <-]; constructor|]. by inversion 1. }
  destruct (compile_source compiler to_string rule (db_source b)) as [l|e] eqn:El.
  - apply compile_source_ok in El. destruct (compile_bindings compiler to_string rule bs) as [rest|e] eqn:Er.
    + split.
      * intros [= <-]. constructor; [done|]. by apply IH.
      * inversion 1 as [|? [k l'] ? cbs' [Hk Hl] Hr]; subst. apply IH in Hr. cbn in *. congruence.
    + split; [done|]. inversion 1 as [|? ? ? cbs' _ Hr]; subst. apply IH in Hr. congruence.
  - split; [done|]. inversion 1 as [|? ? ? ? [_ Hl] _]; subst.
    apply (compile_source_ok rule) in Hl. congruence.
Qed.

Lemma find_long_key n bs :
  match List.find (λ b, n <? str_len (db_key b)) bs with
  | Some b => ¬ Forall (λ b, str_len (db_key b) ≤ n) bs
  | None => Forall (λ b, str_len (db_key b) ≤ n) bs
  end.
Proof using.
  induction bs as [|b bs IH]; cbn; [constructor|]. destruct (n <? str_len (db_key b)) eqn:Hlen; bool_solve.
  - rewrite Forall_cons. lia.
  - destruct (List.find _ bs); rewrite Forall_cons; [tauto|done].
Qed.

Lemma compile_one_ok card idx cfg cr :
  compile_one xxh3 compiler to_string card idx cfg = inl cr ↔ config_ok card cfg ∧ compiled_as idx cfg cr.
Proof using.
  unfold compile_one. case_bool_decide as Hb; [split; [done|]; by intros [[] _]|].
  destruct (_ <? zlen _) eqn:Ec; bool_solve; [split; [done|]; intros [[? Hc] _]; lia|].
  pose proof (find_long_key (cs_max_key_bytes card) (rcfg_bindings cfg)) as Hk.
  destruct (List.find _ _) as [b|]; [split; [done|]; by intros [[] _]|].
  destruct (rcfg_limit cfg =? 0) eqn:El; bool_solve; [split; [done|]; by intros [[] _]|].
  assert (config_ok card cfg) as Hok by (by split).
  destruct (compile_bindings compiler to_string (rcfg_name cfg) (rcfg_bindings cfg)) as [bs|e] eqn:Ebs.
  2:{ split; [done|]. intros [_ [_ _ Hbs _]]. apply (compile_bindings_ok (rcfg_name cfg)) in Hbs. congruence. }
  destruct (rcfg_except_if cfg) as [var|] eqn:Ee.
  - destruct (compile_source compiler to_string (rcfg_name cfg) (lit "$" ++ var)) as [l|e] eqn:Es.
    + apply compile_source_ok in Es. split.
      * intros [= <-]. split; [done|]. split; [done|done|by eapply compile_bindings_ok|]. rewrite Ee. by exists l.
      * intros [_ [Hn Hr Hbs Hx]]. rewrite Ee in Hx. destruct Hx as (l' & Hl & Hx).
        apply (compile_bindings_ok (rcfg_name cfg)) in Hbs. destruct cr. cbn in *. congruence.
    + split; [done|]. intros [_ [_ _ _ Hx]]. rewrite Ee in Hx. destruct Hx as (l' & Hl & Hx).
      apply (compile_source_ok (rcfg_name cfg)) in Hl. congruence.
  - split.
    + intros [= <-]. split; [done|]. split; [done|done|by eapply compile_bindings_ok|]. by rewrite Ee.
    + intros [_ [Hn Hr Hbs Hx]]. rewrite Ee in Hx.
      apply (compile_bindings_ok (rcfg_name cfg)) in Hbs. destruct cr. cbn in *. congruence.
Qed.

Lemma compile_loop_ok card configs : ∀ idx rules,
  compile_loop xxh3 compiler to_string card idx configs = inl rules ↔
  length rules = length configs ∧
  ∀ k cfg cr, configs !! k = Some cfg → rules !! k = Some cr →
    config_ok card cfg ∧ compiled_as (idx + Z.of_nat k) cfg cr.
Proof using.
  induction configs as [|cfg configs IH]; intros idx rules; cbn [compile_loop].
  { split; [intros [= <-]; done|]. by intros [->%nil_length_inv _]. }
  destruct (compile_one xxh3 compiler to_string card idx cfg) as [r|e] eqn:Er.
  - apply compile_one_ok in Er. destruct (compile_loop xxh3 compiler to_string card (idx + 1) configs) as [rs|e] eqn:Ers.
    + split.
      * intros [= <-]. apply IH in Ers as [Hl Hk]. split; [cbn; lia|]. intros [|k] c cr; cbn.
        { intros [= <-] [= <-]. by rewrite Z.add_0_r. }
        intros Hc Hr. replace (idx + Z.of_nat (S k)) with (idx + 1 + Z.of_nat k) by lia. by apply Hk.
      * destruct rules as [|r' rules]; intros [Hl Hk]; [done|].
        assert (inl rs = (inl rules : list CompiledRule + RuleConfigError)) as [= ->].
        { rewrite <- Ers. apply IH. split; [by injection Hl|]. intros k c cr Hc Hr.
          replace (idx + 1 + Z.of_nat k) with (idx + Z.of_nat (S k)) by lia. by apply Hk. }
        f_equal. f_equal. destruct (Hk 0%nat cfg r' eq_refl eq_refl) as [_ Hr]. rewrite Z.add_0_r in Hr.
        assert (compile_one xxh3 compiler to_string card idx cfg = inl r ∧
                compile_one xxh3 compiler to_string card idx cfg = inl r') as [H1 H2] by (split; apply compile_one_ok; [done|by split; [apply Er|]]).
        congruence.
    + split; [done|]. destruct rules as [|r' rules]; intros [Hl Hk]; [done|].
      assert (inr e = (inl rules : list CompiledRule + RuleConfigError)); [|done]. rewrite <- Ers. apply IH.
      split; [by injection Hl|]. intros k c cr Hc Hr.
      replace (idx + 1 + Z.of_nat k) with (idx + Z.of_nat (S k)) by lia. by apply Hk.
  - split; [done|]. destruct rules as [|r' rules]; intros [Hl Hk]; [done|].
    destruct (Hk 0%nat cfg r' eq_refl eq_refl) as [Hc Hr]. rewrite Z.add_0_r in Hr.
    assert (compile_one xxh3 compiler to_string card idx cfg = inl r') by (by apply compile_one_ok). congruence.
Qed.

Lemma compile_loop_err card configs : ∀ idx e,
  compile_loop xxh3 compiler to_string card idx configs = inr e →
  ∃ k cfg, configs !! k = Some cfg ∧ compile_one xxh3 compiler to_string card (idx + Z.of_nat k) cfg = inr e ∧
    ∀ j c, (j < k)%nat → configs !! j = Some c → ∃ r, compile_one xxh3 compiler to_string card (idx + Z.of_nat j) c = inl r.
Proof using.
  induction configs as [|cfg configs IH]; intros idx e; cbn [compile_loop]; [done|].
  destruct (compile_one xxh3 compiler to_string card idx cfg) as [r|e'] eqn:Er.
  - destruct (compile_loop xxh3 compiler to_string card (idx + 1) configs) as [rs|e'] eqn:Ers; [done|].
    intros [= <-]. destruct (IH _ _ Ers) as (k & c & Hc & He & Hpre). exists (S k), c. split; [done|].
    replace (idx + Z.of_nat (S k)) with (idx + 1 + Z.of_nat k) by lia. split; [done|].
    intros [|j] c' Hj; cbn.
    + intros [= <-]. exists r. by rewrite Z.add_0_r.
    + intros Hc'. replace (idx + Z.of_nat (S j)) with (idx + 1 + Z.of_nat j) by lia. apply (Hpre j); [lia|done].
  - intros [= <-]. exists 0%nat, cfg. split; [done|]. rewrite Z.add_0_r. split; [done|]. lia.
Qed.
End compile_spec.

(** ** What the binding parser accepts *)
Lemma split_once_char a s : ∀ l r,
  split_once [a] s = Some (l, r) ↔ s = l ++ a :: r ∧ a ∉ l.
Proof.
  induction s as [|c s IH]; intros l r.
  { cbn. split; [done|]. intros [H _]. by destruct l. }
  cbn [split_once strip_prefix]. destruct (a =? c) eqn:Ea; bool_solve.
  - subst c. destruct s; cbn [strip_prefix].
    all: split; [intros [= <- <-]; split; [done|apply not_elem_of_nil]|].
    all: intros [Heq Hn]; destruct l as [|x l]; cbn in *; [by simplify_eq|].
    all: exfalso; apply Hn; injection Heq as <- _; by left.
  - destruct (split_once [a] s) as [[l' r']|] eqn:Es.
    + pose proof (proj1 (IH l' r') eq_refl) as [-> Hn']. split.
      * intros [= <- <-]. split; [done|]. rewrite not_elem_of_cons. done.
      * intros [Heq Hn]. destruct l as [|x l]; [cbn in Heq; by simplify_eq|].
        injection Heq as <- Heq. rewrite not_elem_of_cons in Hn.
        apply split_unique in Heq as [-> ->]; [done|done|tauto].
    + split; [done|]. intros [Heq Hn]. destruct l as [|x l]; [cbn in Heq; by simplify_eq|].
      injection Heq as <- Heq. rewrite not_elem_of_cons in Hn.
      pose proof (proj2 (IH l r) (conj Heq (proj2 Hn))). done.
Qed.

Lemma strip_prefix_char a s r : strip_prefix [a] s = Some r ↔ s = a :: r.
Proof.
  destruct s as [|c s]; cbn [strip_prefix]; [done|]. destruct (a =? c) eqn:Ea; bool_solve.
  - subst c. destruct s; split; congruence.
  - split; [done|]. intros [= ? _]. congruence.
Qed.

Lemma descriptor_key_chars s :
  is_descriptor_key s = true → Forall (λ c, 0 < c < 128 ∧ c ≠ 58) s ∧ head s ≠ Some 36.
Proof.
  destruct s as [|c s]; [done|]. cbn [is_descriptor_key]. rewrite andb_true_iff, forallb_forall. intros [Hc Hs].
  unfold is_ascii_alphanumeric, is_ascii_alphabetic, is_ascii_lowercase, is_ascii_digit in *. split.
  - constructor; [lia|]. apply Forall_forall. intros x Hx%list_elem_of_In. specialize (Hs x Hx). lia.
  - intros [= ->]. lia.
Qed.

Lemma single_ident_chars s : is_single_ident s = true → is_descriptor_key s = true.
Proof.
  destruct s as [|c s]; [done|]. cbn. rewrite !andb_true_iff, !forallb_forall. intros [Hc Hs]. split; [done|].
  intros x Hx. specialize (Hs x Hx). destruct (x =? 95), (x =? 46), (x =? 45); done.
Qed.

(** What a positional binding argument means: [$name] names itself, [key:source]
    is split at the first colon. *)
Definition binding_form (rest : str) (b : DescriptorBinding) : Prop :=
  (is_single_ident (db_key b) = true ∧ rest = lit "$" ++ db_key b ∧ db_source b = rest ∨
   is_descriptor_key (db_key b) = true ∧ db_source b ≠ [] ∧ rest = db_key b ++ lit ":" ++ db_source b) ∧
  str_len (db_key b) ≤ STORAGE_MAX_KEY_BYTES.

Lemma binding_form_dollar x b :
  binding_form (36 :: x) b ↔
  is_single_ident x = true ∧ b = {| db_key := x; db_source := 36 :: x |} ∧ str_len x ≤ STORAGE_MAX_KEY_BYTES.
Proof.
  unfold binding_form. split.
  - intros [[(Hi & Hr & Hs)|(Hk & _ & Hr)] Hl].
    + injection Hr as ->. destruct b. cbn in *. by subst.
    + apply descriptor_key_chars in Hk as [_ Hk]. destruct (db_key b); [done|]. injection Hr as <- _. done.
  - intros (Hi & -> & Hl). split; [by left|done].
Qed.

Lemma binding_form_keyed rest b :
  (∀ x, rest ≠ 36 :: x) →
  binding_form rest b ↔
  split_once (lit ":") rest = Some (db_key b, db_source b) ∧ is_descriptor_key (db_key b) = true ∧
  db_source b ≠ [] ∧ str_len (db_key b) ≤ STORAGE_MAX_KEY_BYTES.
Proof.
  intros Hnd. unfold binding_form. change (lit ":") with [58]. rewrite split_once_char. split.
  - intros [[(_ & Hr & _)|(Hk & Hs & Hr)] Hl]; [by apply Hnd in Hr|]. split_and!; try done.
    apply descriptor_key_chars in Hk as [Hf _]. rewrite Forall_forall in Hf. intros Hin. by destruct (Hf _ Hin).
  - intros ((-> & _) & Hk & Hs & Hl). split; [right; by split_and!|done].
Qed.

(** The parser accepts these forms and nothing else. *)
Lemma parse_binding_form rest b : parse_binding rest = Ok b ↔ binding_form rest b.
Proof.
  unfold parse_binding. change (lit "$") with [36]. destruct (strip_prefix [36] rest) as [x|] eqn:Ep.
  - apply strip_prefix_char in Ep as ->. rewrite binding_form_dollar.
    destruct (is_single_ident x); [|split; [done|]; by intros [? _]].
    destruct (STORAGE_MAX_KEY_BYTES <? str_len x) eqn:El; bool_solve; [split; [done|]; lia|].
    split; [intros [= <-]; split_and!; try done; lia|]. by intros (_ & -> & _).
  - rewrite binding_form_keyed.
    2:{ intros x Hx. pose proof (proj2 (strip_prefix_char 36 rest x) Hx). congruence. }
    destruct (split_once (lit ":") rest) as [[k src]|]; [|split; [done|]; by intros [? _]].
    destruct (is_descriptor_key k) eqn:Ek; cbn [negb]; [|split; [done|]; intros ([= -> ->] & ? & _); congruence].
    case_bool_decide as Hsrc; [split; [done|]; intros ([= -> ->] & _ & ? & _); done|].
    destruct (STORAGE_MAX_KEY_BYTES <? str_len k) eqn:El; bool_solve.
    + split; [done|]. intros ([= -> ->] & _ & _ & ?). lia.
    + split; [intros [= <-]; cbn; split_and!; try done; lia|]. intros ([= -> ->] & _). by destruct b.
Qed.

Lemma binding_key_ok rest b : binding_form rest b → str_ok (db_key b) ∧ 0 ∉ db_key b.
Proof.
  intros [[(Hk & _)|(Hk & _)] _]; [apply single_ident_chars in Hk|];
    apply descriptor_key_chars in Hk as [Hf _]; rewrite Forall_forall in Hf.
  all: split; [apply Forall_forall; intros c Hc; specialize (Hf c Hc); unfold scalar; lia|].
  all: intros H0; destruct (Hf _ H0); lia.
Qed.

(** ** The properties *)

(** What compiling a rule list does, exactly.  It succeeds just when there is a
    rule and each rule has between one and the configured number of bindings, no
    key over the budget, a limit that is not zero and sources that the compiler
    resolves; then the compiled list has one rule per configuration, in order,
    numbered from 1, with a wildcard pattern and the resolved lookup for each
    binding in order.  Otherwise the error is that of the first rule that does not
    compile. *)
Theorem compile_with_exact xxh3 E (compiler : str → BindingLookup + E) to_string configs card :
  match compile_with xxh3 compiler to_string configs card with
  | inl rules => configs ≠ [] ∧ length rules = length configs ∧
      ∀ k cfg cr, configs !! k = Some cfg → rules !! k = Some cr →
        config_ok card cfg ∧ compiled_as xxh3 compiler (Z.of_nat k) cfg cr
  | inr e => (configs = [] ∧ e = EmptyConfig) ∨
      ∃ k cfg, configs !! k = Some cfg ∧ compile_one xxh3 compiler to_string card (Z.of_nat k) cfg = inr e ∧
        (∀ cr, ¬ (config_ok card cfg ∧ compiled_as xxh3 compiler (Z.of_nat k) cfg cr)) ∧
        ∀ j c, (j < k)%nat → configs !! j = Some c →
          ∃ cr, config_ok card c ∧ compiled_as xxh3 compiler (Z.of_nat j) c cr
  end.
Proof.
  unfold compile_with. case_bool_decide as Hne; [by left|].
  destruct (compile_loop xxh3 compiler to_string card 0 configs) as [rules|e] eqn:El.
  - split; [done|]. by apply compile_loop_ok in El.
  - right. apply compile_loop_err in El as (k & cfg & Hk & He & Hpre). exists k, cfg. split; [done|]. split; [done|]. split.
    + intros cr Hcr. apply (compile_one_ok xxh3 compiler to_string) in Hcr. rewrite Z.add_0_l in He. congruence.
    + intros j c Hj Hc. destruct (Hpre j c Hj Hc) as [r Hr]. exists r. by apply compile_one_ok in Hr.
Qed.

(** The directive parser built the bindings, and the domain has no NUL. *)
Definition parsed (cfg : RuleConfig) : Prop :=
  str_ok (rcfg_domain cfg) ∧ (0 ∉ rcfg_domain cfg) ∧
  Forall (λ b, ∃ rest, parse_binding rest = Ok b) (rcfg_bindings cfg).

Lemma parsed_pairs_ok cfg (value : DescriptorBinding → str) :
  parsed cfg → (∀ b, b ∈ rcfg_bindings cfg → str_ok (value b)) →
  pairs_ok ((λ b, (db_key b, value b)) <$> rcfg_bindings cfg).
Proof.
  intros (_ & _ & Hb) Hv. unfold pairs_ok. apply Forall_fmap. rewrite Forall_forall in *. intros b Hin. cbn.
  destruct (Hb b Hin) as [rest Hr%parse_binding_form%binding_key_ok]. destruct Hr. split_and!; auto.
Qed.

Lemma key_preimage_id id id' dom ds :
  uint 32 id → uint 32 id' → key_preimage id dom ds = key_preimage id' dom ds → id = id'.
Proof.
  unfold uint. intros Hid Hid' Heq%app_inv_head%app_inv_head.
  apply app_inj_1 in Heq as [Hl _]; [|by rewrite !length_to_le_bytes].
  apply to_le_bytes_inj in Hl; [done|simpl; lia..].
Qed.

(** The patterns that [compile_with] builds are equal exactly when the keys are. *)
Lemma wildcards_inj (bs bs' : list DescriptorBinding) :
  db_key <$> bs = db_key <$> bs' →
  (λ b, {| pat_key := db_key b; pat_value := lit "*" |}) <$> bs = (λ b, {| pat_key := db_key b; pat_value := lit "*" |}) <$> bs'.
Proof.
  intros Hk. change (λ b, {| pat_key := db_key b; pat_value := lit "*" |}) with
    ((λ k, {| pat_key := k; pat_value := lit "*" |}) ∘ db_key). by rewrite !list_fmap_compose, Hk.
Qed.

(** C32: the identity of nginx rules across nodes.  Take a rule out of each of two
    compiled configurations whose bindings the directive parser produced.  The
    inputs of their fingerprints, the hashed domain and patterns of the compiled
    rules, agree exactly when the configurations have the same domain and the same
    keys in the same order, wherever the rules stand and whatever their limit,
    window or sources; so then do the fingerprints.  Rule ids are positions from 1,
    and the input of a request key contains the id: two nodes that list the same
    rule at different positions count the same client under different keys. *)
Theorem nginx_rule_identity xxh3 E (compiler : str → BindingLookup + E) show configs configs' card card' rules rules'
    i j cfg cfg' cr cr' dom ds :
  compile_with xxh3 compiler show configs card = Ok rules → compile_with xxh3 compiler show configs' card' = Ok rules' →
  configs !! i = Some cfg → configs' !! j = Some cfg' → rules !! i = Some cr → rules' !! j = Some cr' →
  parsed cfg → parsed cfg' → Z.of_nat i < U32_MAX → Z.of_nat j < U32_MAX →
  let input cr := rule_preimage (domain (cr_rule cr)) (descriptors (cr_rule cr)) in
  let same := rcfg_domain cfg = rcfg_domain cfg' ∧ db_key <$> rcfg_bindings cfg = db_key <$> rcfg_bindings cfg' in
  rule_fp (cr_rule cr) = xxh3 (input cr) ∧ rule_fp (cr_rule cr') = xxh3 (input cr') ∧
  (input cr = input cr' ↔ same) ∧ (same → rule_fp (cr_rule cr) = rule_fp (cr_rule cr')) ∧
  rule_id (cr_rule cr) = Z.of_nat i + 1 ∧ rule_id (cr_rule cr') = Z.of_nat j + 1 ∧
  (key_preimage (rule_id (cr_rule cr)) dom ds = key_preimage (rule_id (cr_rule cr')) dom ds ↔ i = j).
Proof.
  intros Hc Hc' Hi Hj Hr Hr' Hp Hp' Hni Hnj input same.
  unfold compile_with in Hc, Hc'. case_bool_decide; [done|]. case_bool_decide; [done|].
  apply compile_loop_ok in Hc as [_ Hc]. apply compile_loop_ok in Hc' as [_ Hc'].
  destruct (Hc i cfg cr Hi Hr) as [_ [_ Hrule _ _]]. destruct (Hc' j cfg' cr' Hj Hr') as [_ [_ Hrule' _ _]].
  rewrite Z.add_0_l in Hrule, Hrule'.
  assert (same → input cr = input cr') as Hsame.
  { intros [Hd Hk]. unfold input. rewrite Hrule, Hrule'. cbn [domain descriptors Rule_new]. by rewrite Hd, (wildcards_inj _ _ Hk). }
  assert (input cr = input cr' → same) as Hinj.
  { unfold input. rewrite Hrule, Hrule'. cbn [domain descriptors Rule_new]. unfold rule_preimage.
    intros Heq%app_inv_head%app_inv_head. rewrite <- !list_fmap_compose in Heq.
    assert (str_ok (lit "*")) as Hstar by (by repeat constructor).
    apply shape_preimage_inj in Heq as [Hd Heq].
    - split; [done|]. apply (f_equal (fmap fst)) in Heq. by rewrite <- !list_fmap_compose in Heq.
    - split; [apply Hp|split; [apply Hp|]]. apply (parsed_pairs_ok cfg (λ _, lit "*")); auto.
    - split; [apply Hp'|split; [apply Hp'|]]. apply (parsed_pairs_ok cfg' (λ _, lit "*")); auto. }
  assert (rule_fp (cr_rule cr) = xxh3 (input cr)) as Hf by (unfold input; by rewrite Hrule).
  assert (rule_fp (cr_rule cr') = xxh3 (input cr')) as Hf' by (unfold input; by rewrite Hrule').
  assert (rule_id (cr_rule cr) = Z.of_nat i + 1) as Hid
    by (rewrite Hrule; cbn; unfold as_u32, U32_MAX in *; by rewrite Z.mod_small by lia).
  assert (rule_id (cr_rule cr') = Z.of_nat j + 1) as Hid'
    by (rewrite Hrule'; cbn; unfold as_u32, U32_MAX in *; by rewrite Z.mod_small by lia).
  split; [done|]. split; [done|]. split; [by split|]. split; [intros Hs; rewrite Hf, Hf'; f_equal; auto|].
  split; [done|]. split; [done|]. rewrite Hid, Hid'. split; [|by intros ->]. unfold U32_MAX in *.
  intros Heq%key_preimage_id; [lia|unfold uint; lia..].
Qed.

Definition sample_config (limit : Z) : RuleConfig := {|
  rcfg_name := lit "per-ip"; rcfg_domain := lit "nginx";
  rcfg_bindings := [ {| db_key := lit "remote_addr"; db_source := lit "$remote_addr" |} ];
  rcfg_limit := limit; rcfg_window := 60000000000; rcfg_bucket := 1000000000; rcfg_mode := Enforce;
  rcfg_except_if := Some (lit "trusted");
|}.

Lemma sample_config_parsed limit : parsed (sample_config limit).
Proof.
  split; [by repeat constructor|]. split; [by apply (bool_decide_unpack _); vm_compute|].
  constructor; [|constructor]. exists (lit "$remote_addr"). reflexivity.
Qed.

Lemma nginx_rule_identity_witness :
  ∃ rules rules' cr cr',
    compile_with (λ bs, zlen bs) NopBindingCompiler (λ _, []) [sample_config 5; sample_config 10] CardinalitySettings_default = Ok rules ∧
    compile_with (λ bs, zlen bs) NopBindingCompiler (λ _, []) [sample_config 20] CardinalitySettings_default = Ok rules' ∧
    rules !! 1%nat = Some cr ∧ rules' !! 0%nat = Some cr' ∧ rule_fp (cr_rule cr) = rule_fp (cr_rule cr') ∧
    key_preimage (rule_id (cr_rule cr)) (lit "nginx") sample_ds ≠ key_preimage (rule_id (cr_rule cr')) (lit "nginx") sample_ds.
Proof.
  destruct (compile_with (λ bs, zlen bs) NopBindingCompiler (λ _, []) [sample_config 5; sample_config 10] CardinalitySettings_default)
    as [rules|e] eqn:E1; [|vm_compute in E1; discriminate E1].
  destruct (compile_with (λ bs, zlen bs) NopBindingCompiler (λ _, []) [sample_config 20] CardinalitySettings_default)
    as [rules'|e] eqn:E2; [|vm_compute in E2; discriminate E2].
  destruct (rules !! 1%nat) as [cr|] eqn:R1; [|vm_compute in E1; injection E1 as <-; discriminate R1].
  destruct (rules' !! 0%nat) as [cr'|] eqn:R2; [|vm_compute in E2; injection E2 as <-; discriminate R2].
  destruct (nginx_rule_identity (λ bs, zlen bs) _ NopBindingCompiler (λ _, []) [sample_config 5; sample_config 10] [sample_config 20]
    CardinalitySettings_default CardinalitySettings_default rules rules' 1%nat 0%nat (sample_config 10) (sample_config 20) cr cr'
    (lit "nginx") sample_ds E1 E2 eq_refl eq_refl R1 R2 (sample_config_parsed 10) (sample_config_parsed 20))
    as (_ & _ & _ & H1 & _ & _ & H2); [reflexivity|reflexivity|].
  exists rules, rules', cr, cr'. split; [reflexivity|]. split; [reflexivity|]. split; [exact R1|]. split; [exact R2|].
  split; [apply H1; split; reflexivity|]. intros Heq%H2. discriminate Heq.
Defined.
