(* ===== verification/Access.v ===== *)
(** * The nginx access path

    [crates/nginx/src/access.rs] and [crates/nginx/src/headers.rs]: one request is
    evaluated against the rules of its location; the hits of an admitted request
    are pushed to the shared queue, and the decision is rendered as response
    headers.  The request's variables are behind the [VariableLookup] trait and are
    a parameter.  The table and the queue are read and written without
    interference. *)

From stdpp Require Import strings.
From S2P Require Import Prelude Types Bytes Str IO Window Rules DashMap Limiter Queue ShmTable NginxRules.

Module Access.
Definition MAX_DESCRIPTOR_BYTES : Z := STORAGE_MAX_DESCRIPTOR_BYTES.
Definition MAX_KEY_BYTES : Z := STORAGE_MAX_KEY_BYTES.
Definition STATS_MAX_RULES : Z := 64.

Record RejectInfo := {
  ri_spec : RuleSpec;
  ri_total : Z;
  ri_now_millis : Z;
  ri_delta_until_admit_millis : Z;
}.
Record AllowInfo := { ai_spec : RuleSpec; ai_remaining : Z; ai_now_millis : Z }.
Inductive AccessOutcome :=
  | Allow (info : option AllowInfo)
  | Reject (info : RejectInfo)
  | Cardinality
  | Decline.

Record QuotaSnapshot := { qs_spec : RuleSpec; qs_remaining : Z }.
Inductive RuleOutcome :=
  | RuleAllow (snapshot : QuotaSnapshot) (events : list QueueEvent)
  | RuleReject (info : RejectInfo)
  | RuleDecline
  | RuleCardinality
  | RuleExempt (id : Z).

Record Stats := {
  st_requests : Z;
  st_allowed : Z;
  st_rejected : Z;
  st_rejected_cardinality : Z;
  st_declines_invalid_descriptor : Z;
  st_matched_rule_overflows : Z;
  st_exempted : Z;
  st_exempted_per_rule : list Z;
  st_queue_pushed : Z;
  st_queue_drained : Z;
  st_queue_dropped : Z;
}.
#[export] Instance eta_Stats : Eta Stats := λ x,
  {| st_requests := st_requests x; st_allowed := st_allowed x; st_rejected := st_rejected x;
     st_rejected_cardinality := st_rejected_cardinality x;
     st_declines_invalid_descriptor := st_declines_invalid_descriptor x;
     st_matched_rule_overflows := st_matched_rule_overflows x; st_exempted := st_exempted x;
     st_exempted_per_rule := st_exempted_per_rule x; st_queue_pushed := st_queue_pushed x;
     st_queue_drained := st_queue_drained x;
     st_queue_dropped := st_queue_dropped x |}.

Definition Stats_default : Stats := {|
  st_requests := 0; st_allowed := 0; st_rejected := 0; st_rejected_cardinality := 0;
  st_declines_invalid_descriptor := 0; st_matched_rule_overflows := 0; st_exempted := 0;
  st_exempted_per_rule := replicate (Z.to_nat STATS_MAX_RULES) 0; st_queue_pushed := 0; st_queue_drained := 0;
  st_queue_dropped := 0 |}.

Definition bump (n : Z) : Z := wrapping_add 64 n 1.
Definition record_request (s : Stats) : Stats := s <| st_requests := bump (st_requests s) |>.
Definition record_allow (s : Stats) : Stats := s <| st_allowed := bump (st_allowed s) |>.
Definition record_reject (s : Stats) : Stats := s <| st_rejected := bump (st_rejected s) |>.
Definition record_cardinality_reject (s : Stats) : Stats :=
  s <| st_rejected_cardinality := bump (st_rejected_cardinality s) |>.
Definition record_decline_invalid_descriptor (s : Stats) : Stats :=
  s <| st_declines_invalid_descriptor := bump (st_declines_invalid_descriptor s) |>.
Definition record_matched_rule_overflow (s : Stats) : Stats :=
  s <| st_matched_rule_overflows := bump (st_matched_rule_overflows s) |>.
Definition record_queue_push (s : Stats) : Stats := s <| st_queue_pushed := bump (st_queue_pushed s) |>.
Definition record_queue_drain (s : Stats) (n : Z) : Stats :=
  if 0 <? n then s <| st_queue_drained := wrapping_add 64 (st_queue_drained s) n |> else s.
Definition record_queue_drop (s : Stats) : Stats := s <| st_queue_dropped := bump (st_queue_dropped s) |>.
Definition record_exempt (s : Stats) (rule_id : Z) : option Stats :=
  let s := s <| st_exempted := bump (st_exempted s) |> in
  let idx := wrapping_sub 64 rule_id 1 in
  if idx <? STATS_MAX_RULES then
    n ← zget (st_exempted_per_rule s) idx;
    l ← zset (st_exempted_per_rule s) idx (bump n);
    Some (s <| st_exempted_per_rule := l |>)
  else Some s.

(** [value] is matched as bytes against the ten literals. *)
Definition falsy_words : list (list Z) :=
  lit <$> ["0"; "false"; "False"; "FALSE"; "off"; "Off"; "OFF"; "no"; "No"; "NO"]%string.
Definition is_truthy (value : list Z) : bool :=
  if bool_decide (value = []) then false else negb (bool_decide (value ∈ falsy_words)).

Definition pick_longest_window (current : option RejectInfo) (candidate : RejectInfo) : RejectInfo :=
  match current with
  | Some c => if spec_window_millis (ri_spec candidate) <=? spec_window_millis (ri_spec c) then c else candidate
  | None => candidate
  end.

Definition pick_min_remaining (current : option QuotaSnapshot) (candidate : QuotaSnapshot) : QuotaSnapshot :=
  match current with
  | Some c =>
    if qs_remaining c <? qs_remaining candidate then c
    else if (qs_remaining c =? qs_remaining candidate) &&
            (spec_window_millis (qs_spec candidate) <=? spec_window_millis (qs_spec c)) then c
    else candidate
  | None => candidate
  end.

Section access.
(** XXH3-128, the rules and settings of the zone, and the request. *)
Context (xxh3 : list Z → Z) (rules : list CompiledRule) (ctx_domain : str).
Context (cardinality : CardinalitySettings) (lookup : BindingLookup → option (list Z)).

(** The loop over the bindings; the outer [None] is the panic of a full
    [ArrayVec]. *)
Inductive Built := Ready (ds : list Descriptor) | Missing | OverBudget | NotUtf8.
Fixpoint build_descriptors (bindings : list CompiledBinding) (bytes : Z) (ds : list Descriptor) : option Built :=
  match bindings with
  | [] => Some (Ready ds)
  | b :: bindings =>
    match lookup (cb_lookup b) with
    | None => Some Missing
    | Some value =>
      let bytes := saturating_add 64 (saturating_add 64 bytes (str_len (cb_key b))) (zlen value) in
      if cs_max_descriptor_bytes cardinality <? bytes then Some OverBudget else
      match from_utf8 value with
      | None => Some NotUtf8
      | Some value_str =>
        assert_ (zlen ds <? MAX_DESCRIPTORS);;
        build_descriptors bindings bytes (ds ++ [{| desc_key := cb_key b; desc_value := value_str |}])
      end
    end
  end.

Definition decide_one (aggregate : list AggregateSlot) (stats : Stats) (rule_index now_millis : Z) :
    option (Stats * RuleOutcome) :=
  match zget rules rule_index with
  | None => Some (stats, RuleDecline)
  | Some compiled =>
    let exempt :=
      match cr_except_if compiled with
      | Some predicate => match lookup predicate with Some value => is_truthy value | None => false end
      | None => false
      end in
    if exempt then Some (stats, RuleExempt (rule_id (cr_rule compiled))) else
    b ← build_descriptors (cr_bindings compiled) (str_len ctx_domain) [];
    match b with
    | Missing => Some (stats, RuleDecline)
    | OverBudget => Some (stats, RuleCardinality)
    | NotUtf8 => Some (record_decline_invalid_descriptor stats, RuleDecline)
    | Ready descriptors =>
      let rule := cr_rule compiled in
      if bool_decide (mode rule = Disabled) then Some (stats, RuleDecline) else
      let spec := spec rule in
      let key_hash := hash_key xxh3 (spec_id spec) ctx_domain descriptors in
      total ← ShmTable.window_total xxh3 aggregate (spec_fingerprint spec) key_hash now_millis
                (spec_bucket_millis spec) (spec_live_buckets spec);
      let hits := 1 in
      if (spec_limit spec <? saturating_add 64 total hits) && bool_decide (mode rule = Enforce) then
        d ← ShmTable.time_until_admit_millis xxh3 aggregate spec key_hash now_millis total hits;
        Some (stats, RuleReject {| ri_spec := spec; ri_total := total; ri_now_millis := now_millis;
                                   ri_delta_until_admit_millis := d |})
      else
        assert_ (negb (spec_bucket_millis spec =? 0));;
        let bucket := as_u32 (now_millis / spec_bucket_millis spec) in
        let planned := [{| ev_rule_fingerprint := spec_fingerprint spec; ev_key_hash := key_hash;
                           ev_bucket := bucket; ev_hits := 1; ev_rule_limit := spec_limit spec;
                           ev_now_millis := now_millis |}] in
        let remaining := saturating_sub (saturating_sub (spec_limit spec) total) hits in
        Some (stats, RuleAllow {| qs_spec := spec; qs_remaining := remaining |} planned)
    end
  end.

(** The loop's accumulators. *)
Record Folded := {
  worst_reject : option RejectInfo;
  tightest_allow : option QuotaSnapshot;
  all_events : list QueueEvent;
  had_non_exempt_outcome : bool;
  any_exempt : bool;
  any_cardinality : bool;
}.
Definition Folded_new : Folded :=
  {| worst_reject := None; tightest_allow := None; all_events := []; had_non_exempt_outcome := false;
     any_exempt := false; any_cardinality := false |}.
#[local] Instance eta_Folded : Eta Folded := λ x,
  {| worst_reject := worst_reject x; tightest_allow := tightest_allow x; all_events := all_events x;
     had_non_exempt_outcome := had_non_exempt_outcome x; any_exempt := any_exempt x;
     any_cardinality := any_cardinality x |}.

(** [try_push] of each event, [break] at the first that does not fit. *)
Fixpoint extend_events (all : list QueueEvent) (stats : Stats) (events : list QueueEvent) :
    list QueueEvent * Stats :=
  match events with
  | [] => (all, stats)
  | ev :: events =>
    if zlen all <? MAX_MATCHED_RULES then extend_events (all ++ [ev]) stats events
    else (all, record_matched_rule_overflow stats)
  end.

Definition fold_outcome (f : Folded) (stats : Stats) (o : RuleOutcome) : option (Folded * Stats) :=
  match o with
  | RuleAllow snapshot events =>
    let f := f <| had_non_exempt_outcome := true |>
               <| tightest_allow := Some (pick_min_remaining (tightest_allow f) snapshot) |> in
    let '(all, stats) := extend_events (all_events f) stats events in
    Some (f <| all_events := all |>, stats)
  | RuleReject info =>
    Some (f <| had_non_exempt_outcome := true |>
            <| worst_reject := Some (pick_longest_window (worst_reject f) info) |>, stats)
  | RuleDecline => Some (f, stats)
  | RuleCardinality => Some (f <| any_cardinality := true |>, record_cardinality_reject stats)
  | RuleExempt rule_id =>
    stats ← record_exempt stats rule_id;
    Some (f <| any_exempt := true |>, stats)
  end.

Fixpoint fold_rules (aggregate : list AggregateSlot) (now_millis : Z) (f : Folded) (stats : Stats)
    (rule_indices : list Z) : option (Folded * Stats) :=
  match rule_indices with
  | [] => Some (f, stats)
  | index :: rule_indices =>
    '(stats, o) ← decide_one aggregate stats index now_millis;
    '(f, stats) ← fold_outcome f stats o;
    fold_rules aggregate now_millis f stats rule_indices
  end.

Fixpoint push_events (queue : RequestQueue) (stats : Stats) (events : list QueueEvent) :
    option (RequestQueue * Stats) :=
  match events with
  | [] => Some (queue, stats)
  | event :: events =>
    '(queue, ok) ← push queue event;
    push_events queue (if (ok : bool) then record_queue_push stats else record_queue_drop stats) events
  end.

Definition decide_all (aggregate : list AggregateSlot) (queue : RequestQueue) (stats : Stats)
    (rule_indices : list Z) (now_millis : Z) : option (RequestQueue * Stats * AccessOutcome) :=
  let stats := record_request stats in
  '(f, stats) ← fold_rules aggregate now_millis Folded_new stats rule_indices;
  match worst_reject f with
  | Some info => Some (queue, record_reject stats, Reject info)
  | None =>
    if had_non_exempt_outcome f then
      '(queue, stats) ← push_events queue stats (all_events f);
      Some (queue, record_allow stats,
            Allow ((λ snap, {| ai_spec := qs_spec snap; ai_remaining := qs_remaining snap;
                               ai_now_millis := now_millis |}) <$> tightest_allow f))
    else if any_exempt f then Some (queue, stats, Allow None)
    else if any_cardinality f then Some (queue, stats, Cardinality)
    else Some (queue, stats, Decline)
  end.

Definition decide (aggregate : list AggregateSlot) (queue : RequestQueue) (stats : Stats)
    (rule_index now_millis : Z) : option (RequestQueue * Stats * AccessOutcome) :=
  decide_all aggregate queue stats [rule_index] now_millis.
End access.

(** ** Headers: the text of each value *)
Record AdmissionHeaders := {
  h_limit : list Z;
  h_remaining : list Z;
  h_reset : list Z;
  h_retry_after : option (list Z);
}.

(** [StackWriter]: what fits of the text in a buffer of [room] bytes. *)
Definition write_str (room : Z) (text : str) : list Z := take (Z.to_nat room) (str_bytes text).
Definition HeaderBuffer_from_u64 (value : Z) : list Z := write_str 32 (decimal value).

Definition build_for_allow (info : AllowInfo) : AdmissionHeaders :=
  let delta := time_until_next_bucket_boundary_millis (ai_now_millis info) (spec_bucket_millis (ai_spec info)) in
  {| h_limit := HeaderBuffer_from_u64 (spec_limit (ai_spec info));
     h_remaining := HeaderBuffer_from_u64 (ai_remaining info);
     h_reset := HeaderBuffer_from_u64 (reset_unix_seconds (ai_now_millis info) delta);
     h_retry_after := None |}.

Definition build_for_reject (info : RejectInfo) : AdmissionHeaders :=
  {| h_limit := HeaderBuffer_from_u64 (spec_limit (ri_spec info));
     h_remaining := HeaderBuffer_from_u64 0;
     h_reset := HeaderBuffer_from_u64 (reset_unix_seconds (ri_now_millis info) (ri_delta_until_admit_millis info));
     h_retry_after := Some (HeaderBuffer_from_u64 (retry_after_seconds (ri_delta_until_admit_millis info))) |}.

(** The text is written in pieces, each truncated; the whole is truncated alike. *)
Definition RejectBody_build (info : RejectInfo) : list Z :=
  let over := saturating_sub (saturating_add 64 (ri_total info) 1) (spec_limit (ri_spec info)) in
  write_str 128 (lit "rate limit exceeded: rule=" ++ decimal (spec_id (ri_spec info)) ++
                 lit " limit=" ++ decimal (spec_limit (ri_spec info)) ++
                 lit " over_by=" ++ decimal over ++ [10]).
End Access.

(** ** What a rule says about a request *)
Section verdict.
Import Access.
Context (xxh3 : list Z → Z) (Hxxh3 : ∀ bs, uint 128 (xxh3 bs)).
Context (ctx_domain : str) (cardinality : CardinalitySettings) (lookup : BindingLookup → option (list Z)).
Context (Hbudget : cs_max_descriptor_bytes cardinality < U64_MAX).

(** The descriptor a binding gives for this request. *)
Definition resolved (b : CompiledBinding) (d : Descriptor) : Prop :=
  desc_key d = cb_key b ∧ ∃ value, lookup (cb_lookup b) = Some value ∧ from_utf8 value = Some (desc_value d).

Definition descriptor_bytes (ds : list Descriptor) : Z :=
  foldr (λ d acc, str_len (desc_key d) + str_len (desc_value d) + acc) 0 ds.

(** What [build_descriptors] answers: every binding resolved within the budget,
    or the first one that fails, after others that did not. *)
Definition built_ok (bindings : list CompiledBinding) (bytes : Z) (b : Built) : Prop :=
  let budget := cs_max_descriptor_bytes cardinality in
  match b with
  | Ready ds => Forall2 resolved bindings ds ∧ bytes + descriptor_bytes ds ≤ budget
  | _ => ∃ pre c suf ds, bindings = pre ++ c :: suf ∧ Forall2 resolved pre ds ∧
      (pre = [] ∨ bytes + descriptor_bytes ds ≤ budget) ∧
      match lookup (cb_lookup c) with
      | None => b = Missing
      | Some v => if budget <? bytes + descriptor_bytes ds + str_len (cb_key c) + zlen v
                  then b = OverBudget else b = NotUtf8 ∧ from_utf8 v = None
      end
  end.

Lemma descriptor_bytes_nonneg ds : 0 ≤ descriptor_bytes ds.
Proof using.
  induction ds as [|d ds IH]; [done|]. cbn [descriptor_bytes foldr]. fold (descriptor_bytes ds).
  pose proof (zlen_nonneg (str_bytes (desc_key d))). pose proof (zlen_nonneg (str_bytes (desc_value d))).
  unfold str_len. lia.
Qed.

Lemma build_descriptors_ok bindings : ∀ bytes acc,
  0 ≤ bytes → zlen acc + zlen bindings ≤ MAX_DESCRIPTORS →
  ∃ b, build_descriptors cardinality lookup bindings bytes acc =
         Some (match b with Ready ds => Ready (acc ++ ds) | _ => b end) ∧
    (bytes ≤ cs_max_descriptor_bytes cardinality ∨ bindings ≠ [] → built_ok bindings bytes b).
Proof using Hbudget.
  induction bindings as [|c bs IH]; intros bytes acc Hb Hacc; cbn [build_descriptors].
  { exists (Ready []). rewrite app_nil_r. split; [done|]. intros [?|?]; [|done]. split; [constructor|]. cbn. lia. }
  set (budget := cs_max_descriptor_bytes cardinality) in *.
  pose proof (zlen_nonneg (str_bytes (cb_key c))) as Hkl. change (0 ≤ str_len (cb_key c)) in Hkl.
  destruct (lookup (cb_lookup c)) as [v|] eqn:El.
  2:{ exists Missing. split; [done|]. intros _. exists [], c, bs, []. rewrite El. split_and!; [done|constructor|by left|done]. }
  pose proof (zlen_nonneg v) as Hvl. set (bytes' := saturating_add 64 (saturating_add 64 bytes (str_len (cb_key c))) (zlen v)).
  assert ((budget <? bytes') = (budget <? bytes + str_len (cb_key c) + zlen v) ∧
          ((budget <? bytes') = false → bytes' = bytes + str_len (cb_key c) + zlen v)) as [Hcmp Hexact].
  { unfold bytes', saturating_add. unfold U64_MAX in Hbudget. fold budget in Hbudget.
    destruct (base.decide (bytes + str_len (cb_key c) + zlen v ≤ 2 ^ 64 - 1)); split; lia. }
  rewrite Hcmp in Hexact. cbv zeta. fold budget bytes'. rewrite Hcmp. clear Hcmp.
  destruct (budget <? bytes + str_len (cb_key c) + zlen v) eqn:Eb; bool_solve.
  { exists OverBudget. split; [done|]. intros _. exists [], c, bs, []. rewrite El. cbn.
    split_and!; [done|constructor|by left|]. fold budget. by rewrite Z.add_0_r, (proj2 (Z.ltb_lt _ _)) by lia. }
  destruct (from_utf8 v) as [s|] eqn:Eu.
  2:{ exists NotUtf8. split; [done|]. intros _. exists [], c, bs, []. rewrite El. cbn.
      split_and!; [done|constructor|by left|]. fold budget. by rewrite Z.add_0_r, (proj2 (Z.ltb_ge _ _)) by lia. }
  assert (zlen (c :: bs) = 1 + zlen bs) as Hlen by apply (zlen_app [c] bs). rewrite Hlen in Hacc.
  pose proof (zlen_nonneg bs). rewrite (proj2 (Z.ltb_lt _ _)) by lia. cbn [assert_ mbind option_bind].
  set (d := {| desc_key := cb_key c; desc_value := s |}).
  destruct (IH bytes' (acc ++ [d])) as (b & -> & Hok).
  { rewrite (Hexact eq_refl). lia. } { rewrite zlen_app. change (zlen [d]) with 1. lia. }
  assert (resolved c d) as Hres by (split; [done|by exists v]).
  assert (descriptor_bytes [d] = str_len (cb_key c) + zlen v) as Hdb.
  { cbn. apply from_utf8_spec in Eu as [_ <-]. unfold str_len. lia. }
  assert (bytes' = bytes + descriptor_bytes [d]) as Hb' by (rewrite Hdb, (Hexact eq_refl); lia).
  assert (∀ l, descriptor_bytes (d :: l) = descriptor_bytes [d] + descriptor_bytes l) as Hcons by (intros l; unfold descriptor_bytes; cbn [foldr]; lia).
  specialize (Hok ltac:(left; fold budget; rewrite (Hexact eq_refl); lia)).
  exists (match b with Ready ds => Ready (d :: ds) | _ => b end). destruct b as [ds| | |]; split.
  1: by rewrite <- app_assoc.
  1:{ intros _. destruct Hok as [Hf Hle]. split; [by constructor|]. rewrite Hcons. lia. }
  all: try done.
  all: intros _; destruct Hok as (pre & c' & suf & ds & -> & Hf & Hpre & Hc); exists (c :: pre), c', suf, (d :: ds).
  all: assert (bytes' + descriptor_bytes ds ≤ budget) as Hwithin
    by (destruct Hpre as [->|Hpre]; [apply Forall2_nil_inv_l in Hf as ->; cbn; rewrite (Hexact eq_refl); lia|exact Hpre]).
  all: split; [done|]; split; [by constructor|]; rewrite Hb' in Hc, Hwithin; rewrite Hcons.
  all: split; [right; fold budget; lia|].
  all: destruct (lookup (cb_lookup c')) as [v'|]; [|done].
  all: match type of Hc with context [if ?x <? ?y then _ else _] =>
         match goal with |- context [if x <? ?y' then _ else _] => replace y' with y by lia end end; done.
Qed.

(** A compiled rule as [compile_with] builds it. *)
Record rule_ok (c : CompiledRule) : Prop := {
  ro_count : zlen (cr_bindings c) ≤ MAX_DESCRIPTORS;
  ro_some : cr_bindings c ≠ [];
  ro_fp : uint 128 (rule_fp (cr_rule c));
  ro_id : 1 ≤ rule_id (cr_rule c) ≤ U32_MAX;
  ro_bucket : 0 < rule_bucket_millis (cr_rule c);
  ro_live : 0 < rule_live_buckets (cr_rule c);
}.

(** The hits counted for a key in the live buckets of a rule. *)
Definition window_hits (M : gmap CellIdentity AggregateCell) (sp : RuleSpec) (kh now : Z) : Z :=
  let current := as_u32 (now / spec_bucket_millis sp) in
  bucket_sum (λ b, DashMapStore.read (counts M)
      {| Types.rule_fingerprint := spec_fingerprint sp; key_hash := kh; bucket := b |})
    (Z.max 0 (current - spec_live_buckets sp + 1)) current.

Definition exempted (c : CompiledRule) : Prop :=
  ∃ p v, cr_except_if c = Some p ∧ lookup p = Some v ∧ is_truthy v = true.

(** What the rule says, given the counts [M]. *)
Definition verdict (M : gmap CellIdentity AggregateCell) (now : Z) (c : CompiledRule) (o : RuleOutcome) : Prop :=
  let rule := cr_rule c in
  let sp := spec rule in
  let built := built_ok (cr_bindings c) (str_len ctx_domain) in
  match o with
  | RuleExempt id => exempted c ∧ id = rule_id rule
  | RuleCardinality => ¬ exempted c ∧ built OverBudget
  | RuleDecline => ¬ exempted c ∧
      (built Missing ∨ built NotUtf8 ∨ (mode rule = Disabled ∧ ∃ ds, built (Ready ds)))
  | RuleReject info => ¬ exempted c ∧ mode rule = Enforce ∧ ∃ ds d, built (Ready ds) ∧
      let kh := hash_key xxh3 (rule_id rule) ctx_domain ds in
      let total := Z.min (window_hits M sp kh now) U64_MAX in
      limit rule < Z.min (total + 1) U64_MAX ∧
      DashMapStore.time_until_admit_millis (counts M) sp kh now total 1 = Some d ∧
      info = {| ri_spec := sp; ri_total := total; ri_now_millis := now; ri_delta_until_admit_millis := d |}
  | RuleAllow snap evs => ¬ exempted c ∧ mode rule ≠ Disabled ∧ ∃ ds, built (Ready ds) ∧
      let kh := hash_key xxh3 (rule_id rule) ctx_domain ds in
      let total := Z.min (window_hits M sp kh now) U64_MAX in
      (mode rule = Enforce → Z.min (total + 1) U64_MAX ≤ limit rule) ∧
      snap = {| qs_spec := sp; qs_remaining := Z.max 0 (limit rule - total - 1) |} ∧
      evs = [{| ev_rule_fingerprint := rule_fp rule; ev_key_hash := kh;
                ev_bucket := as_u32 (now / rule_bucket_millis rule); ev_hits := 1; ev_rule_limit := limit rule;
                ev_now_millis := now |}]
  end.

Lemma exempt_test c :
  (match cr_except_if c with
   | Some p => match lookup p with Some v => is_truthy v | None => false end
   | None => false
   end) = true ↔ exempted c.
Proof using.
  unfold exempted. split.
  - destruct (cr_except_if c) as [p|]; [|done]. destruct (lookup p) as [v|] eqn:El; [|done]. intros. by exists p, v.
  - by intros (p & v & -> & -> & ?).
Qed.

Context (r : Region) (M : gmap CellIdentity AggregateCell).
Context (Hrep : represents xxh3 r M) (Htot : totals_ok M).

Lemma window_total_hits sp kh now :
  0 < spec_bucket_millis sp → 0 < spec_live_buckets sp →
  ShmTable.window_total xxh3 (agg_slots r) (spec_fingerprint sp) kh now (spec_bucket_millis sp) (spec_live_buckets sp) =
    Some (Z.min (window_hits M sp kh now) U64_MAX).
Proof using Hrep Htot.
  intros Hb Hl. rewrite (window_total_shm xxh3 r M) by done. rewrite !Z.max_l by lia. unfold DashMapStore.window_total.
  replace (spec_bucket_millis sp =? 0) with false by lia.
  rewrite DashMapStore.sum_window_spec by (try apply counts_ok; try done; unfold U64_MAX; lia).
  cbv zeta. unfold window_hits, saturating_add, U64_MAX. rewrite Z.add_0_l, Z.sub_0_r, Z2Nat.id by lia. done.
Qed.

Lemma window_hits_nonneg sp kh now : 0 ≤ window_hits M sp kh now.
Proof using Htot.
  unfold window_hits, bucket_sum. cbv zeta.
  induction (zrange _ _) as [|b bs IH]; cbn; [done|]. pose proof (counts_range M
    {| Types.rule_fingerprint := spec_fingerprint sp; key_hash := kh; bucket := b |} Htot). lia.
Qed.

Lemma decide_one_ok rules stats index now c :
  zget rules index = Some c → rule_ok c → 0 ≤ limit (cr_rule c) →
  ∃ stats' o, decide_one xxh3 rules ctx_domain cardinality lookup (agg_slots r) stats index now = Some (stats', o) ∧
    verdict M now c o ∧ st_exempted_per_rule stats' = st_exempted_per_rule stats.
Proof using Hbudget Hrep Htot.
  intros Hc Hok Hlim. pose proof Hok as [Hcount Hsome _ _ Hbm Hlive]. unfold decide_one. rewrite Hc.
  pose proof (exempt_test c) as Hx. destruct (match cr_except_if c with Some _ => _ | None => _ end).
  { exists stats, (RuleExempt (rule_id (cr_rule c))). split_and!; try done. split; [by apply Hx|done]. }
  assert (¬ exempted c) as Hne by (intros Hf%Hx; done). clear Hx.
  destruct (build_descriptors_ok (cr_bindings c) (str_len ctx_domain) []) as (b & -> & Hb).
  { apply zlen_nonneg. } { done. } specialize (Hb ltac:(by right)).
  cbn [mbind option_bind]. destruct b as [ds| | |]; cbn [app].
  2-4: eexists _, _; split; [reflexivity|]; split; [cbn; eauto|done].
  case_bool_decide as Hdis.
  { eexists _, _. split; [reflexivity|]. split; [cbn; eauto 10|done]. }
  cbv zeta. set (sp := spec (cr_rule c)). change (spec_id sp) with (rule_id (cr_rule c)).
  set (kh := hash_key xxh3 (rule_id (cr_rule c)) ctx_domain ds).
  rewrite window_total_hits by done. cbn [mbind option_bind].
  pose proof (window_hits_nonneg sp kh now) as Hw. set (total := Z.min (window_hits M sp kh now) U64_MAX) in *.
  change (spec_limit sp) with (limit (cr_rule c)).
  destruct (limit (cr_rule c) <? saturating_add 64 total 1) eqn:El; case_bool_decide as Em; cbn [andb]; bool_solve.
  1:{ rewrite (time_until_admit_shm xxh3 r M) by done.
      destruct (DashMapStore.time_until_admit_millis (counts M) sp kh now total 1) as [d|] eqn:Ed.
      2:{ edestruct Window.time_until_admit_defined as [d Hd]. unfold DashMapStore.time_until_admit_millis in Ed.
          by rewrite Hd in Ed. }
      cbn [mbind option_bind]. eexists _, _. split; [reflexivity|]. split; [|done]. cbn. split; [done|].
        split; [done|]. exists ds, d. split; [done|]. fold sp. fold kh. fold total. done. }
  all: change (spec_bucket_millis sp) with (rule_bucket_millis (cr_rule c)).
  all: replace (rule_bucket_millis (cr_rule c) =? 0) with false by lia; cbn [negb assert_ mbind option_bind].
  all: eexists _, _; split; [reflexivity|]; split; [|done]; cbn; split; [done|]; split; [done|].
  all: exists ds; split; [done|]; fold sp; fold kh; fold total; split; [intros; unfold saturating_add, U64_MAX in *; first [done|lia]|].
  all: split; [|done]; f_equal; unfold saturating_sub; lia.
Qed.

(** ** Folding the rules of a location *)
Definition says (rules : list CompiledRule) (now i : Z) (o : RuleOutcome) : Prop :=
  match zget rules i with Some c => verdict M now c o | None => o = RuleDecline end.

Definition events_of (o : RuleOutcome) : list QueueEvent := match o with RuleAllow _ evs => evs | _ => [] end.
Definition planned (os : list RuleOutcome) : list QueueEvent :=
  take (Z.to_nat MAX_MATCHED_RULES) (os ≫= events_of).

Definition longest (os : list RuleOutcome) (x : option RejectInfo) : Prop :=
  match x with
  | Some i => RuleReject i ∈ os ∧ ∀ i', RuleReject i' ∈ os →
      spec_window_millis (ri_spec i') ≤ spec_window_millis (ri_spec i)
  | None => ∀ i, RuleReject i ∉ os
  end.
Definition tightest (os : list RuleOutcome) (x : option QuotaSnapshot) : Prop :=
  match x with
  | Some s => (∃ evs, RuleAllow s evs ∈ os) ∧ ∀ s' evs, RuleAllow s' evs ∈ os →
      qs_remaining s < qs_remaining s' ∨
      (qs_remaining s = qs_remaining s' ∧ spec_window_millis (qs_spec s') ≤ spec_window_millis (qs_spec s))
  | None => ∀ s evs, RuleAllow s evs ∉ os
  end.

Definition opines (o : RuleOutcome) : bool := match o with RuleAllow _ _ | RuleReject _ => true | _ => false end.
Definition is_exempt (o : RuleOutcome) : bool := match o with RuleExempt _ => true | _ => false end.
Definition is_cardinality (o : RuleOutcome) : bool := match o with RuleCardinality => true | _ => false end.

Record folded (os : list RuleOutcome) (f : Folded) : Prop := {
  fo_worst : longest os (worst_reject f);
  fo_tight : tightest os (tightest_allow f);
  fo_events : all_events f = planned os;
  fo_had : had_non_exempt_outcome f = existsb opines os;
  fo_exempt : any_exempt f = existsb is_exempt os;
  fo_card : any_cardinality f = existsb is_cardinality os;
}.

Lemma in_snoc {A} (l : list A) x y : y ∈ l ++ [x] ↔ y ∈ l ∨ y = x.
Proof using. by rewrite elem_of_app, list_elem_of_singleton. Qed.

Lemma longest_snoc os x o : longest os x →
  longest (os ++ [o]) (match o with RuleReject i => Some (pick_longest_window x i) | _ => x end).
Proof using.
  intros Hx. destruct o as [s evs|i| | |id].
  1,3-5: destruct x as [c|]; cbn in *; setoid_rewrite in_snoc; [|by intros i [Hi%Hx|Hi]].
  1-4: destruct Hx as [Hin Hmax]; split; [by left|]; intros i' [Hi|Hi]; [by apply Hmax|done].
  destruct x as [c|]; cbn in *; setoid_rewrite in_snoc.
  - destruct Hx as [Hin Hmax]. destruct (_ <=? _) eqn:E; bool_solve; split; try by auto.
    + intros i' [Hi| [= ->]]; [by apply Hmax|done].
    + intros i' [Hi| [= ->]]; [specialize (Hmax i' Hi); lia|lia].
  - split; [by right|]. intros i' [Hi%Hx| [= ->]]; [done|lia].
Qed.

Lemma tightest_quota_snoc os x o : tightest os x →
  tightest (os ++ [o]) (match o with RuleAllow s _ => Some (pick_min_remaining x s) | _ => x end).
Proof using.
  intros Hx. destruct o as [s evs|i| | |id].
  2-5: destruct x as [c|]; cbn in *; setoid_rewrite in_snoc; [|by intros s evs [Hi%Hx|Hi]].
  2-5: destruct Hx as [[evs Hin] Hmax]; split; [exists evs; by left|]; intros s' evs' [Hi|Hi]; [by eapply Hmax|done].
  destruct x as [c|]; cbn in *; setoid_rewrite in_snoc.
  - destruct Hx as [[evs0 Hin] Hmax].
    destruct (qs_remaining c <? qs_remaining s) eqn:E1; [|destruct (qs_remaining c =? qs_remaining s) eqn:E2;
      [destruct (spec_window_millis (qs_spec s) <=? spec_window_millis (qs_spec c)) eqn:E3|]]; cbn [andb]; bool_solve.
    1,2: split; [exists evs0; by left|]; intros s' evs' [Hi| [= -> _]]; [by eapply Hmax|lia].
    1,2: split; [exists evs; by right|]; intros s' evs' [Hi| [= -> _]]; [specialize (Hmax s' evs' Hi); lia|lia].
  - split; [exists evs; by right|]. intros s' evs' [Hi%Hx| [= -> _]]; [done|lia].
Qed.

Lemma extend_events_ok stats evs : ∀ all, zlen all ≤ MAX_MATCHED_RULES → ∃ stats',
  extend_events all stats evs = (take (Z.to_nat MAX_MATCHED_RULES) (all ++ evs), stats') ∧
  st_exempted_per_rule stats' = st_exempted_per_rule stats.
Proof using.
  induction evs as [|ev evs IH]; intros all Hall; cbn [extend_events].
  { exists stats. rewrite app_nil_r, take_ge; [done|]. unfold zlen in Hall. lia. }
  destruct (zlen all <? MAX_MATCHED_RULES) eqn:E; bool_solve.
  - destruct (IH (all ++ [ev])) as (st & -> & Hst); [rewrite zlen_app; change (zlen [ev]) with 1; lia|].
    exists st. by rewrite <- app_assoc.
  - exists (record_matched_rule_overflow stats). split; [|done]. f_equal.
    unfold zlen in *. rewrite take_app_le, take_ge by lia. done.
Qed.

Lemma record_exempt_ok stats id :
  zlen (st_exempted_per_rule stats) = STATS_MAX_RULES →
  ∃ stats', record_exempt stats id = Some stats' ∧ zlen (st_exempted_per_rule stats') = STATS_MAX_RULES.
Proof using.
  intros Hl. unfold record_exempt. cbv zeta.
  destruct (wrapping_sub 64 id 1 <? STATS_MAX_RULES) eqn:E; bool_solve; [|by eexists].
  pose proof (wrapping_sub_range 64 id 1 ltac:(lia)) as Hr. unfold uint in Hr.
  destruct (zget_in_range (st_exempted_per_rule stats) (wrapping_sub 64 id 1) ltac:(lia)) as [n Hn].
  cbn. rewrite Hn. cbn [mbind option_bind]. rewrite zset_ok by lia. cbn. eexists. split; [done|]. cbn. by rewrite zlen_zupd.
Qed.

Lemma planned_snoc os o :
  planned (os ++ [o]) = take (Z.to_nat MAX_MATCHED_RULES) (planned os ++ events_of o) ∧
  zlen (planned os) ≤ MAX_MATCHED_RULES.
Proof using.
  split.
  - unfold planned. rewrite bind_app. cbn [mbind list_bind]. rewrite app_nil_r.
    destruct (base.decide (length (os ≫= events_of) ≤ Z.to_nat MAX_MATCHED_RULES)%nat).
    + by rewrite (take_ge (os ≫= events_of)) by lia.
    + rewrite !take_app_le; [by rewrite take_take, Nat.min_id|rewrite length_take; lia|lia].
  - unfold planned, zlen. rewrite length_take. change MAX_MATCHED_RULES with 16. lia.
Qed.

Lemma fold_outcome_ok os f stats o :
  folded os f → zlen (st_exempted_per_rule stats) = STATS_MAX_RULES →
  ∃ f' stats', fold_outcome f stats o = Some (f', stats') ∧ folded (os ++ [o]) f' ∧
    zlen (st_exempted_per_rule stats') = STATS_MAX_RULES.
Proof using.
  intros [Hw Ht He Hh Hx Hc] Hl.
  pose proof (longest_snoc os _ o Hw) as Hw'. pose proof (tightest_quota_snoc os _ o Ht) as Ht'.
  destruct (planned_snoc os o) as [Hpl Hp16].
  assert (∃ all stats1, extend_events (all_events f) stats (events_of o) = (all, stats1) ∧ all = planned (os ++ [o]) ∧
    st_exempted_per_rule stats1 = st_exempted_per_rule stats) as (all & stats1 & Hext & Hall & Hst1).
  { destruct (extend_events_ok stats (events_of o) (all_events f)) as (st & Hext & Hst); [by rewrite He|].
    eexists _, st. split; [exact Hext|]. by rewrite Hpl, He. }
  assert (∀ f', worst_reject f' = (match o with RuleReject i => Some (pick_longest_window (worst_reject f) i) | _ => worst_reject f end) →
    tightest_allow f' = (match o with RuleAllow s _ => Some (pick_min_remaining (tightest_allow f) s) | _ => tightest_allow f end) →
    all_events f' = all → had_non_exempt_outcome f' = had_non_exempt_outcome f || opines o →
    any_exempt f' = any_exempt f || is_exempt o → any_cardinality f' = any_cardinality f || is_cardinality o →
    folded (os ++ [o]) f') as Hfold.
  { intros f' H1 H2 H3 H4 H5 H6. split; rewrite ?H1, ?H2, ?H3, ?H4, ?H5, ?H6, ?existsb_app; cbn; rewrite ?orb_false_r; congruence. }
  assert (events_of o = [] → all_events f = all) as Hnone.
  { intros Hn. rewrite Hn in Hext. cbn in Hext. congruence. }
  destruct o as [s evs|i| | |id]; cbn [fold_outcome]; cbn in Hfold; rewrite ?orb_false_r in Hfold.
  - cbn in *. rewrite Hext. eexists _, stats1. split; [reflexivity|]. split; [|by rewrite Hst1]. apply Hfold; cbn; by rewrite ?orb_true_r.
  - eexists _, stats. split; [reflexivity|]. split; [|done]. apply Hfold; cbn; rewrite ?orb_true_r; auto.
  - eexists _, stats. split; [reflexivity|]. split; [|done]. apply Hfold; auto.
  - eexists _, _. split; [reflexivity|]. split; [|done]. apply Hfold; cbn; rewrite ?orb_true_r; auto.
  - destruct (record_exempt_ok stats id Hl) as (st & -> & Hst). cbn [mbind option_bind].
    eexists _, st. split; [reflexivity|]. split; [|done]. apply Hfold; cbn; rewrite ?orb_true_r; auto.
Qed.

Lemma fold_rules_ok rules now indices :
  (∀ i c, i ∈ indices → zget rules i = Some c → rule_ok c ∧ 0 ≤ limit (cr_rule c)) →
  ∀ pre f stats, folded pre f → zlen (st_exempted_per_rule stats) = STATS_MAX_RULES →
  ∃ os f' stats', fold_rules xxh3 rules ctx_domain cardinality lookup (agg_slots r) now f stats indices = Some (f', stats') ∧
    Forall2 (says rules now) indices os ∧ folded (pre ++ os) f'.
Proof using Hbudget Hrep Htot.
  induction indices as [|i indices IH]; intros Hrules pre f stats Hf Hl; cbn [fold_rules].
  { exists [], f, stats. rewrite app_nil_r. by split_and!; [|constructor|]. }
  assert (∃ st o, decide_one xxh3 rules ctx_domain cardinality lookup (agg_slots r) stats i now = Some (st, o) ∧
    says rules now i o ∧ st_exempted_per_rule st = st_exempted_per_rule stats) as (st & o & -> & Ho & Hst).
  { unfold says. destruct (zget rules i) as [c|] eqn:Hc.
    - destruct (Hrules i c) as [Hok Hlim]; [by left|done|]. by apply (decide_one_ok rules stats i now c Hc Hok Hlim).
    - unfold decide_one. rewrite Hc. by eexists _, _. }
  cbn [mbind option_bind].
  destruct (fold_outcome_ok pre f st o Hf) as (f1 & st1 & -> & Hf1 & Hl1); [by rewrite Hst|]. cbn [mbind option_bind].
  destruct (IH ltac:(intros j c Hj; apply Hrules; by right) (pre ++ [o]) f1 st1 Hf1 Hl1) as (os & f' & st' & -> & Hos & Hf').
  exists (o :: os), f', st'. split; [done|]. split; [by constructor|]. by rewrite <- app_assoc in Hf'.
Qed.

(** ** Committing *)
Context (k : Z) (Hk : 1 ≤ k).

Lemma push_events_ok evs : ∀ q stats l,
  Queue.contents k q l → Forall event_ok evs → enqueue_pos (control q) + zlen evs + 2 ^ k < 2 ^ 63 → zlen l ≤ 2 ^ k →
  ∃ q' stats', push_events q stats evs = Some (q', stats') ∧
    Queue.contents k q' (l ++ take (Z.to_nat (2 ^ k - zlen l)) evs).
Proof using Hk.
  induction evs as [|ev evs IH]; intros q stats l Hq Hevs Hb Hl; cbn [push_events].
  { exists q, stats. by rewrite take_nil, app_nil_r. }
  apply Forall_cons in Hevs as [Hev Hevs]. assert (zlen (ev :: evs) = 1 + zlen evs) as Hlen by apply (zlen_app [ev] evs).
  pose proof (zlen_nonneg evs). rewrite Hlen in Hb.
  destruct (push_contents k Hk q l ev Hq Hev ltac:(lia)) as (q1 & -> & Hq1 & Hpos). cbn [mbind option_bind].
  destruct (zlen l <? 2 ^ k) eqn:E; bool_solve.
  - destruct (IH q1 (record_queue_push stats) (l ++ [ev]) Hq1 Hevs ltac:(lia)) as (q' & st & -> & Hc).
    { rewrite zlen_app. change (zlen [ev]) with 1. lia. }
    exists q', st. split; [done|]. rewrite zlen_app, <- app_assoc in Hc. change (zlen [ev]) with 1 in Hc.
    replace (Z.to_nat (2 ^ k - zlen l)) with (S (Z.to_nat (2 ^ k - (zlen l + 1)))) by lia. exact Hc.
  - destruct (IH q1 (record_queue_drop stats) l Hq1 Hevs ltac:(lia) Hl) as (q' & st & -> & Hc).
    exists q', st. split; [done|]. replace (Z.to_nat (2 ^ k - zlen l)) with 0%nat in * by lia. exact Hc.
Qed.

Lemma planned_ok rules now indices os :
  (∀ i c, i ∈ indices → zget rules i = Some c → rule_ok c ∧ 0 ≤ limit (cr_rule c)) →
  Forall2 (says rules now) indices os → Forall event_ok (planned os).
Proof using Hxxh3.
  intros Hrules Hos. apply Forall_take. apply Forall_bind, Forall_forall. intros o Ho.
  apply list_elem_of_lookup in Ho as [n Ho]. destruct (Forall2_lookup_r _ _ _ _ _ Hos Ho) as (i & Hi & Hsay).
  destruct o as [s evs| | | |]; cbn; try constructor. unfold says in Hsay.
  destruct (zget rules i) as [c|] eqn:Hc; [|done].
  destruct (Hrules i c (list_elem_of_lookup_2 _ _ _ Hi) Hc) as [Hok _].
  destruct Hsay as (_ & _ & ds & _ & _ & _ & ->). repeat constructor; cbn; [apply (ro_fp _ Hok)..|apply Hxxh3|apply Hxxh3].
Qed.

(** What a request ends with, given what its rules say. *)
Definition concluded (q q' : RequestQueue) (l : list QueueEvent) (now : Z) (os : list RuleOutcome) (out : AccessOutcome) : Prop :=
  match out with
  | Reject info => longest os (Some info) ∧ q' = q
  | Allow (Some a) => longest os None ∧
      tightest os (Some {| qs_spec := ai_spec a; qs_remaining := ai_remaining a |}) ∧ ai_now_millis a = now ∧
      Queue.contents k q' (l ++ take (Z.to_nat (2 ^ k - zlen l)) (planned os))
  | Allow None => existsb opines os = false ∧ existsb is_exempt os = true ∧ q' = q
  | Cardinality => existsb opines os = false ∧ existsb is_exempt os = false ∧ existsb is_cardinality os = true ∧ q' = q
  | Decline => Forall (λ o, o = RuleDecline) os ∧ q' = q
  end.

Lemma tightest_none_opines os : longest os None → tightest os None → existsb opines os = false.
Proof using.
  intros Hl Ht. apply not_true_is_false. intros (o & Ho%list_elem_of_In & Hop)%existsb_exists.
  destruct o; try done; [by apply Ht in Ho|by apply Hl in Ho].
Qed.

Lemma all_decline os :
  existsb opines os = false → existsb is_exempt os = false → existsb is_cardinality os = false →
  Forall (λ o, o = RuleDecline) os.
Proof using.
  induction os as [|o os IH]; cbn; [constructor|]. rewrite !orb_false_iff. intros [? ?] [? ?] [? ?].
  constructor; [by destruct o|by apply IH].
Qed.

Lemma access_decide_all_ok rules q stats l now indices :
  (∀ i c, i ∈ indices → zget rules i = Some c → rule_ok c ∧ 0 ≤ limit (cr_rule c)) →
  zlen (st_exempted_per_rule stats) = STATS_MAX_RULES →
  Queue.contents k q l → zlen l ≤ 2 ^ k → enqueue_pos (control q) + MAX_MATCHED_RULES + 2 ^ k < 2 ^ 63 →
  ∃ q' stats' out os,
    decide_all xxh3 rules ctx_domain cardinality lookup (agg_slots r) q stats indices now = Some (q', stats', out) ∧
    Forall2 (says rules now) indices os ∧ concluded q q' l now os out.
Proof using Hxxh3 Hbudget Hrep Htot Hk.
  intros Hrules Hl Hq Hlen Hb. unfold decide_all.
  destruct (fold_rules_ok rules now indices Hrules [] Folded_new (record_request stats)) as (os & f & st & -> & Hos & Hf); [|done|].
  { split; [intros i; apply not_elem_of_nil|intros s evs; apply not_elem_of_nil|done..]. }
  cbn [mbind option_bind app] in *. destruct Hf as [Hw Ht He Hh Hx Hc].
  destruct (worst_reject f) as [info|] eqn:Ew; [by eexists _, _, _, os|].
  destruct (planned_snoc os RuleDecline) as [_ H16]. pose proof (planned_ok rules now indices os Hrules Hos) as Hevs.
  rewrite Hh. destruct (existsb opines os) eqn:Eo.
  - rewrite He. destruct (push_events_ok (planned os) q st l Hq Hevs ltac:(lia) Hlen) as (q' & st' & -> & Hq').
    cbn [mbind option_bind]. eexists _, _, _, os. split; [reflexivity|]. split; [done|].
    destruct (tightest_allow f) as [snap|] eqn:Et; cbn.
    + split; [done|]. split; [by destruct snap|]. done.
    + by rewrite (tightest_none_opines os) in Eo.
  - rewrite Hx. destruct (existsb is_exempt os) eqn:Ee; [by eexists _, _, _, os|].
    rewrite Hc. destruct (existsb is_cardinality os) eqn:Ec; eexists _, _, _, os; (split; [reflexivity|]); [done|].
    split; [done|]. split; [by apply all_decline|done].
Qed.
End verdict.

(** ** Rules that [compile_with] built *)
Lemma compiled_rule_ok xxh3 E (compiler : str → BindingLookup + E) card idx cfg cr :
  (∀ bs, uint 128 (xxh3 bs)) → cs_max_descriptor_count card ≤ MAX_DESCRIPTORS → 0 ≤ idx < U32_MAX →
  div_ceil (duration_millis (rcfg_window cfg)) (duration_millis (rcfg_bucket cfg)) ≤ U32_MAX →
  config_ok card cfg → compiled_as xxh3 compiler idx cfg cr →
  rule_ok cr ∧ limit (cr_rule cr) = rcfg_limit cfg.
Proof.
  intros Hx Hcard Hidx Hdiv [Hne Hcount _ _] [_ Hrule Hbs _]. rewrite Hrule.
  assert (1 ≤ duration_millis (rcfg_window cfg) ∧ 1 ≤ duration_millis (rcfg_bucket cfg)) as [Hw Hb]
    by (unfold duration_millis; lia).
  pose proof (Forall2_length _ _ _ Hbs) as Hlen. split; [|done]. split; rewrite ?Hrule; cbn.
  - unfold zlen in *. lia.
  - intros Hnil. rewrite Hnil in Hlen. by destruct (rcfg_bindings cfg).
  - apply Hx.
  - unfold as_u32, U32_MAX in *. rewrite Z.mod_small by lia. lia.
  - lia.
  - rewrite (Z.max_l (duration_millis (rcfg_window cfg)) 1), (Z.max_l (duration_millis (rcfg_bucket cfg)) 1) by lia.
    pose proof (div_ceil_spec (duration_millis (rcfg_window cfg)) (duration_millis (rcfg_bucket cfg)) ltac:(lia) ltac:(lia)).
    unfold as_u32, U32_MAX in *. set (n := div_ceil _ _) in *. assert (1 ≤ n) by nia.
    rewrite Z.mod_small by lia. lia.
Qed.

(** ** Headers *)
Lemma ascii_bytes s : Forall (λ c, 48 ≤ c ≤ 57) s → str_bytes s = s.
Proof.
  induction 1 as [|c s Hc _ IH]; [done|]. change (str_bytes (c :: s)) with (utf8_char c ++ str_bytes s).
  rewrite IH. unfold utf8_char. by replace (c <? 128) with true by lia.
Qed.

Lemma digits_length fuel n : (length (digits fuel n) ≤ fuel)%nat.
Proof.
  revert n. induction fuel as [|fuel IH]; intros n; cbn; [lia|]. destruct (n <? 10); cbn; [lia|].
  rewrite length_app. cbn. specialize (IH (n / 10)). lia.
Qed.

(** Every value fits its buffer and is read back as the number it was made of. *)
Lemma header_value n : 0 ≤ n ≤ U64_MAX → parse_u64 (Access.HeaderBuffer_from_u64 n) = Some n.
Proof.
  intros Hn. unfold Access.HeaderBuffer_from_u64, Access.write_str.
  rewrite ascii_bytes by (apply digits_chars; lia). rewrite take_ge by (unfold decimal; pose proof (digits_length 20 n); lia).
  by apply parse_decimal.
Qed.

(** One request at the nginx access phase, exactly.  Given the counts [M] in
    the shared table and the events [l] in the shared queue, every rule of the
    location gives its verdict ([verdict]: exempt by a truthy predicate; declining
    for a missing variable, an undecodable value or a disabled rule; over the byte
    budget; rejecting an enforced rule just when the hits of its live buckets plus
    one exceed the limit, with the exact wait; otherwise allowing with the quota
    left), and the request is rejected if any rule rejects, with the context of the
    longest window and no hit recorded; else allowed if a rule allows, with the
    context of the smallest quota, and the hits of the allowing rules (the first
    sixteen) are appended to the queue as far as there is room; else allowed
    without context if a rule is exempt; else a cardinality error if a rule was
    over budget; else declined.  No step panics. *)
Theorem request_decision_exact xxh3 k r M rules domain cardinality lookup q stats l now indices :
  (∀ bs, uint 128 (xxh3 bs)) → 1 ≤ k → cs_max_descriptor_bytes cardinality < U64_MAX →
  represents xxh3 r M → totals_ok M →
  (∀ i c, i ∈ indices → zget rules i = Some c → rule_ok c ∧ 0 ≤ limit (cr_rule c)) →
  zlen (Access.st_exempted_per_rule stats) = Access.STATS_MAX_RULES →
  Queue.contents k q l → zlen l ≤ 2 ^ k → enqueue_pos (control q) + MAX_MATCHED_RULES + 2 ^ k < 2 ^ 63 →
  ∃ q' stats' out os,
    Access.decide_all xxh3 rules domain cardinality lookup (agg_slots r) q stats indices now = Some (q', stats', out) ∧
    Forall2 (says xxh3 domain cardinality lookup M rules now) indices os ∧
    concluded k q q' l now os out.
Proof. intros. by apply access_decide_all_ok. Qed.

(** C31: the headers of a rejected request carry the rule's limit, zero remaining,
    and a [Retry-After] that is the least number of seconds, at least one, that
    covers the exact wait; [X-RateLimit-Reset] is the current second plus it.  The
    headers of an admitted request carry the quota left, no [Retry-After], and a
    reset that is the current second plus the least number of seconds, at least
    one, that reaches the next bucket boundary.  Every value fits its buffer: it
    is read back as the number it was made of. *)
Theorem headers_exact (rej : Access.RejectInfo) (adm : Access.AllowInfo) :
  let delta := Access.ri_delta_until_admit_millis rej in
  let now := Access.ri_now_millis rej in
  let now' := Access.ai_now_millis adm in
  let bm := spec_bucket_millis (Access.ai_spec adm) in
  0 ≤ delta ≤ U64_MAX → 0 ≤ now ≤ U64_MAX → 0 ≤ now' ≤ U64_MAX → 0 < bm ≤ U64_MAX →
  0 ≤ spec_limit (Access.ri_spec rej) ≤ U64_MAX → 0 ≤ spec_limit (Access.ai_spec adm) ≤ U64_MAX →
  0 ≤ Access.ai_remaining adm ≤ U64_MAX →
  let h := Access.build_for_reject rej in
  let a := Access.build_for_allow adm in
  let covers wait seconds := 1 ≤ seconds ∧ wait ≤ 1000 * seconds ∧ (seconds = 1 ∨ 1000 * (seconds - 1) < wait) in
  parse_u64 (Access.h_limit h) = Some (spec_limit (Access.ri_spec rej)) ∧
  parse_u64 (Access.h_remaining h) = Some 0 ∧
  (∃ text retry, Access.h_retry_after h = Some text ∧ parse_u64 text = Some retry ∧ covers delta retry ∧
     parse_u64 (Access.h_reset h) = Some (now / 1000 + retry)) ∧
  parse_u64 (Access.h_limit a) = Some (spec_limit (Access.ai_spec adm)) ∧
  parse_u64 (Access.h_remaining a) = Some (Access.ai_remaining adm) ∧ Access.h_retry_after a = None ∧
  (∃ wait seconds, now' + wait = (now' / bm + 1) * bm ∧ 0 < wait ≤ bm ∧ covers wait seconds ∧
     parse_u64 (Access.h_reset a) = Some (now' / 1000 + seconds)).
Proof.
  intros delta now now' bm Hd Hn Hn' Hb Hl Hla Hra h a covers.
  cbn [h a Access.h_limit Access.build_for_reject Access.build_for_allow].
  assert (∀ t wait, 0 ≤ t ≤ U64_MAX → 0 ≤ wait ≤ U64_MAX → covers wait (retry_after_seconds wait) ∧
    0 ≤ retry_after_seconds wait ≤ U64_MAX ∧
    parse_u64 (Access.HeaderBuffer_from_u64 (reset_unix_seconds t wait)) = Some (t / 1000 + retry_after_seconds wait)) as Hreset.
  { intros t wait Ht Hwait. destruct (retry_after_spec wait ltac:(lia)) as (H1 & H2 & H3).
    pose proof (Z.div_mod t 1000 ltac:(lia)). pose proof (Z.mod_pos_bound t 1000 ltac:(lia)).
    assert (0 ≤ t / 1000) by (apply Z.div_pos; lia). unfold U64_MAX in *.
    split; [done|]. split; [lia|].
    assert (reset_unix_seconds t wait = t / 1000 + retry_after_seconds wait) as -> by (unfold reset_unix_seconds, saturating_add; lia).
    apply header_value. unfold U64_MAX. lia. }
  destruct (Hreset now delta ltac:(lia) ltac:(lia)) as (Hc & Hr & Hp).
  destruct (next_boundary_spec now' bm ltac:(lia) ltac:(lia)) as [Hw Hbd].
  set (wait := time_until_next_bucket_boundary_millis now' bm) in *.
  destruct (Hreset now' wait ltac:(lia) ltac:(lia)) as (Hc' & _ & Hp').
  split_and!; try done; try (apply header_value; unfold U64_MAX in *; lia).
  - eexists _, (retry_after_seconds delta). split; [reflexivity|]. split; [by apply header_value|]. split; [exact Hc|exact Hp].
  - exists wait, (retry_after_seconds wait). split; [exact Hbd|]. split; [exact Hw|]. split; [exact Hc'|exact Hp'].
Qed.

(** ** Witnesses *)
Definition sample_lookup (b : BindingLookup) : option (list Z) :=
  match b with RemoteAddr => Some (lit "10.0.0.1") | _ => None end.
Definition sample_rules : list CompiledRule :=
  match compile demo_hash (λ _, []) [sample_config 10] with inl rs => rs | inr _ => [] end.
Definition sample_stats : Access.Stats := Access.Stats_default.

Lemma sample_rules_ok i c : zget sample_rules i = Some c → rule_ok c ∧ 0 ≤ limit (cr_rule c).
Proof.
  intros Hc. apply zget_elem_of in Hc. vm_compute in Hc. apply list_elem_of_singleton in Hc as ->.
  split; [split; vm_compute; try split; congruence|]. vm_compute. congruence.
Qed.

Lemma request_decision_exact_witness :
  ∃ q' stats' os, Access.decide_all demo_hash sample_rules (lit "nginx") CardinalitySettings_default sample_lookup
      (agg_slots demo_filled) (queue_new (2 ^ 1)) sample_stats [0; 7] 5000 =
    Some (q', stats', Access.Allow (Some {| Access.ai_spec := spec (Rule_new demo_hash 1 (lit "nginx")
       [ {| pat_key := lit "remote_addr"; pat_value := lit "*" |} ] 10 60000 1000 Enforce);
       Access.ai_remaining := 9; Access.ai_now_millis := 5000 |})) ∧
    Queue.contents 1 q' (take 2 (planned os)).
Proof.
  destruct (request_decision_exact demo_hash 1 demo_filled demo_map sample_rules (lit "nginx")
    CardinalitySettings_default sample_lookup (queue_new (2 ^ 1)) sample_stats [] 5000 [0; 7])
    as (q' & stats' & out & os & He & Hos & Hc).
  - intros bs. unfold uint, demo_hash. lia.
  - lia.
  - reflexivity.
  - exact (proj1 demo_filled_ok).
  - exact (proj2 demo_filled_ok).
  - intros i c _. apply sample_rules_ok.
  - reflexivity.
  - apply new_contents. lia.
  - vm_compute. congruence.
  - reflexivity.
  - pose proof He as Hout. vm_compute in Hout. injection Hout as _ _ <-. exists q', stats', os. split; [exact He|].
    destruct Hc as (_ & _ & _ & Hc). exact Hc.
Defined.

Lemma headers_exact_witness :
  let sp := spec (Rule_new demo_hash 1 (lit "nginx") [] 10 60000 1000 Enforce) in
  let rej := {| Access.ri_spec := sp; Access.ri_total := 10; Access.ri_now_millis := 1999; Access.ri_delta_until_admit_millis := 500 |} in
  let adm := {| Access.ai_spec := sp; Access.ai_remaining := 3; Access.ai_now_millis := 1999 |} in
  parse_u64 (Access.h_limit (Access.build_for_reject rej)) = Some 10 ∧
  parse_u64 (Access.h_remaining (Access.build_for_allow adm)) = Some 3.
Proof.
  intros sp rej adm. destruct (headers_exact rej adm) as (H1 & _ & _ & _ & H2 & _);
    [cbn; unfold U64_MAX; lia..|]. split; [exact H1|exact H2].
Defined.
