(* ===== verification/Shm.v ===== *)
(** * The shared-memory zone

    [crates/nginx/src/shm.rs] and [shm/header.rs]: the layout of the zone that
    the nginx workers share, the largest table that fits a zone of a given
    size, the addresses of its parts, and the node identity in its header.
    [None] is the overflow panic of a plain addition. *)

From S2P Require Import Prelude Access.

Definition CACHELINE : Z := 64.
Definition QUEUE_CAPACITY : Z := 2048.
Definition MIN_AGGREGATE_CAPACITY : Z := 1024.

(** [(value + mask) & !mask] *)
Definition align_up (value align : Z) : option Z :=
  mask ← checked 64 (align - 1);
  sum ← checked 64 (value + mask);
  Some (Z.land sum (Z.lxor mask U64_MAX)).

(** ** Sizes of the [repr(C)] structures *)
Definition SIZE_NODE_IDENTITY : Z := 8 + 8 + 4 + 4.
Definition SIZE_HEADER : Z := 4 + 4 + SIZE_NODE_IDENTITY + 5 * 8.
Definition SIZE_LEASE : Z := 8 + 8.
Definition SIZE_QUEUE_CONTROL : Z := 4 * 8.
Definition SIZE_QUEUE_SLOT : Z := 5 * 8 + 4 + 4 + 3 * 8.
Definition SIZE_AGGREGATE_SLOT : Z := 8 * 8.
Definition SIZE_STATS : Z := 7 * 8 + Access.STATS_MAX_RULES * 8 + 4 * 8.

Module Layout.
Record t := {
  queue_capacity : Z;
  aggregate_capacity : Z;
  header_offset : Z;
  lease_offset : Z;
  queue_control_offset : Z;
  queue_slots_offset : Z;
  aggregate_slots_offset : Z;
  stats_offset : Z;
  total_bytes : Z;
}.

Definition new (queue_capacity aggregate_capacity : Z) : option (option t) :=
  if negb (is_power_of_two queue_capacity) || (queue_capacity <? 2) then Some None else
  if negb (is_power_of_two aggregate_capacity) || (aggregate_capacity <? 2) then Some None else
  let header_offset := 0 in
  lease_offset ← (n ← checked 64 (header_offset + SIZE_HEADER); align_up n CACHELINE);
  queue_control_offset ← (n ← checked 64 (lease_offset + SIZE_LEASE); align_up n CACHELINE);
  queue_slots_offset ← (n ← checked 64 (queue_control_offset + SIZE_QUEUE_CONTROL); align_up n CACHELINE);
  match checked 64 (queue_capacity * SIZE_QUEUE_SLOT) with
  | None => Some None
  | Some queue_slots_bytes =>
    aggregate_slots_offset ← (n ← checked 64 (queue_slots_offset + queue_slots_bytes); align_up n CACHELINE);
    match checked 64 (aggregate_capacity * SIZE_AGGREGATE_SLOT) with
    | None => Some None
    | Some aggregate_slots_bytes =>
      stats_offset ← (n ← checked 64 (aggregate_slots_offset + aggregate_slots_bytes); align_up n CACHELINE);
      total_bytes ← (n ← checked 64 (stats_offset + SIZE_STATS); align_up n CACHELINE);
      Some (Some {|
        queue_capacity := queue_capacity; aggregate_capacity := aggregate_capacity; header_offset := header_offset;
        lease_offset := lease_offset; queue_control_offset := queue_control_offset;
        queue_slots_offset := queue_slots_offset; aggregate_slots_offset := aggregate_slots_offset;
        stats_offset := stats_offset; total_bytes := total_bytes |})
    end
  end.

(** The search of [for_zone]: halving from the largest power of two. *)
Fixpoint fit (fuel : nat) (usable capacity : Z) : option (option t) :=
  match fuel with
  | O => Some None
  | S fuel =>
    if capacity <? MIN_AGGREGATE_CAPACITY then Some None else
    layout ← new QUEUE_CAPACITY capacity;
    match layout with
    | None => Some None
    | Some layout => if total_bytes layout <=? usable then Some (Some layout) else fit fuel usable (capacity / 2)
    end
  end.

(** A [usize] has 64 bits, so 64 halvings exhaust the search. *)
Definition for_zone (zone_bytes page_bytes : Z) : option (option t) :=
  pages ← checked 64 (4 * page_bytes);
  overhead ← checked 64 (zone_bytes / 128 + pages);
  if zone_bytes <? overhead then Some None else
  let usable := zone_bytes - overhead in
  let slots := usable / SIZE_AGGREGATE_SLOT in
  if slots =? 0 then Some None else fit 64 usable (Z.shiftl 1 (Z.log2 slots)).
End Layout.

(** ** Addresses, relative to the base of the zone *)
Section pointers.
Context (layout : Layout.t).
Definition header_ptr : Z := Layout.header_offset layout.
Definition lease_ptr : Z := Layout.lease_offset layout.
Definition queue_control_ptr : Z := Layout.queue_control_offset layout.
Definition queue_slot_ptr (index : Z) : Z := Layout.queue_slots_offset layout + index * SIZE_QUEUE_SLOT.
Definition aggregate_slot_ptr (index : Z) : Z := Layout.aggregate_slots_offset layout + index * SIZE_AGGREGATE_SLOT.
Definition stats_ptr : Z := Layout.stats_offset layout.
End pointers.

(** ** The identity in the header *)
Record NodeIdentityFields := { node_id_lo : Z; node_id_hi : Z; incarnation : Z }.
#[export] Instance eta_identity_fields : Eta NodeIdentityFields := λ x, {|
  node_id_lo := node_id_lo x; node_id_hi := node_id_hi x; incarnation := incarnation x |}.
Definition NodeIdentityFields_default : NodeIdentityFields := {| node_id_lo := 0; node_id_hi := 0; incarnation := 0 |}.

Definition store_node_id (self : NodeIdentityFields) (node_id : Z) : NodeIdentityFields :=
  self <| node_id_lo := as_u64 node_id |> <| node_id_hi := as_u64 (Z.shiftr node_id 64) |>.
Definition load_node_id (self : NodeIdentityFields) : Z := Z.lor (Z.shiftl (node_id_hi self) 64) (node_id_lo self).
Definition store_incarnation (self : NodeIdentityFields) (n : Z) : NodeIdentityFields := self <| incarnation := n |>.
Definition load_incarnation (self : NodeIdentityFields) : Z := incarnation self.

(** ** Rounding up to a cache line *)
Lemma land_line s : 0 ≤ s < 2 ^ 64 → Z.land s (Z.lxor 63 U64_MAX) = 64 * (s / 64).
Proof.
  intros Hs. change (Z.lxor 63 U64_MAX) with (Z.shiftl (Z.ones 58) 6).
  replace (64 * (s / 64)) with (Z.shiftl (Z.shiftr s 6) 6)
    by (rewrite Z.shiftl_mul_pow2, Z.shiftr_div_pow2 by lia; change (2 ^ 6) with 64; lia).
  apply Z.bits_inj'. intros n Hn.
  rewrite Z.land_spec. destruct (decide (n < 6)) as [H6|H6].
  - rewrite !Z.shiftl_spec_low by lia. apply andb_false_r.
  - rewrite !Z.shiftl_spec_high, Z.shiftr_spec by lia. replace (n - 6 + 6) with n by lia.
    destruct (decide (n < 64)) as [H64|H64].
    + rewrite Z.ones_spec_low by lia. apply andb_true_r.
    + rewrite Z.ones_spec_high, andb_false_r by lia. symmetry. destruct (decide (s = 0)) as [->|]; [apply Z.bits_0|].
      apply Z.bits_above_log2; [lia|]. apply Z.log2_lt_pow2; [lia|]. eapply Z.lt_le_trans; [apply Hs|].
      apply Z.pow_le_mono_r; lia.
Qed.

Lemma align_up_line v : 0 ≤ v < 2 ^ 63 →
  ∃ r, align_up v CACHELINE = Some r ∧ v ≤ r < v + 64 ∧ r mod 64 = 0.
Proof.
  intros Hv. unfold align_up, CACHELINE. rewrite checked_ok by lia. cbn [mbind option_bind].
  rewrite checked_ok by lia. cbn [mbind option_bind]. change (64 - 1) with 63. rewrite land_line by lia.
  eexists. split; [done|]. pose proof (Z.div_mod (v + 63) 64 ltac:(lia)). pose proof (Z.mod_pos_bound (v + 63) 64 ltac:(lia)).
  split; [lia|]. rewrite Z.mul_comm. apply Z.mod_mul. lia.
Qed.

Lemma align_up_ge v r : 0 ≤ v → align_up v CACHELINE = Some r → v ≤ r.
Proof.
  unfold align_up, CACHELINE. intros Hv. change (checked 64 (64 - 1)) with (Some 63). cbn [mbind option_bind].
  destruct (checked 64 (v + 63)) as [s|] eqn:E; [|done]. apply checked_Some in E as [-> Hs]. cbn [mbind option_bind].
  rewrite land_line by done. intros [= <-]. pose proof (Z.div_mod (v + 63) 64 ltac:(lia)).
  pose proof (Z.mod_pos_bound (v + 63) 64 ltac:(lia)). lia.
Qed.

(** ** The layout of a zone *)
Definition regions (l : Layout.t) : list (Z * Z) :=
  [(header_ptr l, SIZE_HEADER); (lease_ptr l, SIZE_LEASE); (queue_control_ptr l, SIZE_QUEUE_CONTROL);
   (queue_slot_ptr l 0, Layout.queue_capacity l * SIZE_QUEUE_SLOT);
   (aggregate_slot_ptr l 0, Layout.aggregate_capacity l * SIZE_AGGREGATE_SLOT); (stats_ptr l, SIZE_STATS)].

(** Regions on cache lines of their own, in order, between [lo] and [hi]. *)
Fixpoint packed (lo : Z) (rs : list (Z * Z)) (hi : Z) : Prop :=
  match rs with
  | [] => lo ≤ hi
  | (offset, size) :: rs => lo ≤ offset ∧ offset mod 64 = 0 ∧ packed (offset + size) rs hi
  end.

Lemma aligned_ok v n : 0 ≤ v + n < 2 ^ 63 →
  ∃ r, (s ← checked 64 (v + n); align_up s CACHELINE) = Some r ∧ v + n ≤ r < v + n + 64 ∧ r mod 64 = 0.
Proof. intros H. rewrite checked_ok by lia. cbn [mbind option_bind]. by apply align_up_line. Qed.

Ltac align_step :=
  match goal with |- context [mbind (λ s, align_up s CACHELINE) (checked 64 (?v + ?n))] =>
    destruct (aligned_ok v n) as (? & -> & ? & ?); [lia|] end; cbn [mbind option_bind].

Lemma sizes :
  SIZE_HEADER = 72 ∧ SIZE_LEASE = 16 ∧ SIZE_QUEUE_CONTROL = 32 ∧ SIZE_QUEUE_SLOT = 72 ∧ SIZE_AGGREGATE_SLOT = 64 ∧
  SIZE_STATS = 600.
Proof. done. Qed.

Lemma layout_new_ok q a :
  is_power_of_two q = true → 2 ≤ q → is_power_of_two a = true → 2 ≤ a → q ≤ 2 ^ 40 → a ≤ 2 ^ 54 →
  ∃ l, Layout.new q a = Some (Some l) ∧ Layout.queue_capacity l = q ∧ Layout.aggregate_capacity l = a ∧
    packed 0 (regions l) (Layout.total_bytes l) ∧ a * 64 ≤ Layout.total_bytes l.
Proof.
  intros Hq Hq2 Ha Ha2 Hqm Ham. unfold Layout.new. rewrite Hq, Ha.
  replace (q <? 2) with false by lia. replace (a <? 2) with false by lia. cbn [negb orb].
  destruct sizes as (H1 & H2 & H3 & H4 & H5 & H6).
  rewrite H1, H2, H3, H4, H5, H6. do 3 align_step.
  rewrite (checked_ok 64 (q * 72)) by lia. align_step. rewrite (checked_ok 64 (a * 64)) by lia. do 2 align_step.
  eexists. split; [done|]. split; [done|]. split; [done|].
  unfold regions, header_ptr, lease_ptr, queue_control_ptr, queue_slot_ptr, aggregate_slot_ptr, stats_ptr.
  rewrite H1, H2, H3, H4, H5, H6. cbn [packed Layout.header_offset Layout.lease_offset Layout.queue_control_offset
    Layout.queue_slots_offset Layout.aggregate_slots_offset Layout.stats_offset Layout.total_bytes
    Layout.queue_capacity Layout.aggregate_capacity].
  rewrite !Z.mul_0_l, !Z.add_0_r. split; [|lia]. split_and!; try done; lia.
Qed.

Lemma aligned_sum v n r : 0 ≤ v → 0 ≤ n → (s ← checked 64 (v + n); align_up s CACHELINE) = Some r → v + n ≤ r.
Proof.
  intros Hv Hn. destruct (checked 64 (v + n)) as [s|] eqn:E; [|done]. apply checked_Some in E as [-> _].
  cbn [mbind option_bind]. apply align_up_ge. lia.
Qed.

Ltac sum_step :=
  match goal with |- context [mbind (λ s, align_up s CACHELINE) (checked 64 (?v + ?n))] =>
    let E := fresh "E" in
    destruct (mbind (λ s, align_up s CACHELINE) (checked 64 (v + n))) as [?|] eqn:E; [|done];
    apply aligned_sum in E; [|lia|lia]; cbn [mbind option_bind] end.
Ltac mul_step :=
  match goal with |- context [checked 64 (?v * ?n)] =>
    let E := fresh "E" in
    destruct (checked 64 (v * n)) as [?|] eqn:E; [|repeat sum_step; done]; apply checked_Some in E as [-> ?] end.

Lemma layout_new_ge q a l : Layout.new q a = Some (Some l) → a * 64 ≤ Layout.total_bytes l.
Proof.
  unfold Layout.new. destruct sizes as (-> & -> & -> & -> & -> & ->).
  destruct (_ || (q <? 2)) eqn:Eq; [done|]. destruct (_ || (a <? 2)) eqn:Ea; [done|].
  apply orb_false_elim in Eq as [_ Eq]. apply orb_false_elim in Ea as [_ Ea].
  do 2 mul_step. repeat sum_step. intros [= <-]. cbn [Layout.total_bytes]. lia.
Qed.

(** A table of [2 ^ k] slots does not fit in [usable] bytes. *)
Definition too_big (usable k : Z) : Prop :=
  ∀ l, Layout.new QUEUE_CAPACITY (2 ^ k) = Some (Some l) → usable < Layout.total_bytes l.

Lemma fit_ok fuel usable : ∀ k, 0 ≤ k ≤ 54 → k < Z.of_nat fuel → (∀ j, k < j → too_big usable j) →
  ∃ r, Layout.fit fuel usable (2 ^ k) = Some r ∧
  match r with
  | Some l => packed 0 (regions l) (Layout.total_bytes l) ∧ Layout.total_bytes l ≤ usable ∧
      Layout.queue_capacity l = QUEUE_CAPACITY ∧
      ∃ j, 0 ≤ j ∧ Layout.aggregate_capacity l = 2 ^ j ∧ MIN_AGGREGATE_CAPACITY ≤ 2 ^ j ∧ ∀ i, j < i → too_big usable i
  | None => ∀ j, MIN_AGGREGATE_CAPACITY ≤ 2 ^ j → too_big usable j
  end.
Proof.
  induction fuel as [|fuel IH]; intros k Hk Hf Hbig; [lia|]. cbn [Layout.fit].
  destruct (2 ^ k <? MIN_AGGREGATE_CAPACITY) eqn:E; bool_solve.
  { eexists. split; [done|]. intros j Hj. apply Hbig. apply (Z.pow_lt_mono_r_iff 2); [lia|..].
    - apply Z.le_ngt. intros Hneg. rewrite Z.pow_neg_r in Hj by done. by unfold MIN_AGGREGATE_CAPACITY in Hj.
    - lia. }
  destruct (layout_new_ok QUEUE_CAPACITY (2 ^ k)) as (l & Hl & Hq & Ha & Hp & Hge).
  { done. } { done. } { apply is_power_of_two_pow. lia. } { unfold MIN_AGGREGATE_CAPACITY in E. lia. } { done. }
  { apply Z.pow_le_mono_r; lia. }
  rewrite Hl. cbn [mbind option_bind]. destruct (Layout.total_bytes l <=? usable) eqn:Ef; bool_solve.
  { eexists. split; [done|]. split_and!; try done. exists k. by split_and!; try lia. }
  assert (10 ≤ k) as Hk10.
  { apply (Z.pow_le_mono_r_iff 2); [lia..|]. by change (2 ^ 10) with MIN_AGGREGATE_CAPACITY. }
  replace (2 ^ k / 2) with (2 ^ (k - 1)).
  2:{ rewrite Z.pow_sub_r by lia. done. }
  apply IH; [lia|lia|]. intros j Hj. destruct (decide (j = k)) as [->|Hne]; [|apply Hbig; lia].
  intros l' Hl'. rewrite Hl in Hl'. injection Hl' as <-. lia.
Qed.

(** C38: the zone holds the largest table that fits.  For every zone size up to
    2^60 bytes and page size up to 2^40, [for_zone] neither panics nor overflows.  It returns a layout exactly when a
    table of at least 1024 slots fits beside the queue within the zone less its
    allocator's overhead; the table is then the largest power of two that fits,
    and header, lease, queue, table and counters lie on cache lines of their
    own, in order, without overlapping, inside the bytes it asks for. *)
Theorem zone_layout_exact zone_bytes page_bytes :
  0 ≤ zone_bytes ≤ 2 ^ 60 → 0 ≤ page_bytes ≤ 2 ^ 40 →
  let usable := zone_bytes - (zone_bytes / 128 + 4 * page_bytes) in
  ∃ r, Layout.for_zone zone_bytes page_bytes = Some r ∧
  match r with
  | Some l => packed 0 (regions l) (Layout.total_bytes l) ∧ Layout.total_bytes l ≤ usable ∧
      Layout.queue_capacity l = QUEUE_CAPACITY ∧
      ∃ k, 0 ≤ k ∧ Layout.aggregate_capacity l = 2 ^ k ∧ MIN_AGGREGATE_CAPACITY ≤ 2 ^ k ∧ ∀ j, k < j → too_big usable j
  | None => ∀ k, MIN_AGGREGATE_CAPACITY ≤ 2 ^ k → too_big usable k
  end.
Proof.
  intros Hz Hp usable. unfold Layout.for_zone. pose proof (Z.div_pos zone_bytes 128 ltac:(lia) ltac:(lia)).
  assert (zone_bytes / 128 ≤ zone_bytes) by (apply Z.div_le_upper_bound; lia).
  rewrite checked_ok by lia. cbn [mbind option_bind]. rewrite checked_ok by lia. cbn [mbind option_bind]. fold usable.
  assert (∀ k, too_big usable k ∨ 0 ≤ k ∧ 2 ^ k * 64 ≤ usable) as Hfits.
  { intros k. destruct (decide (k < 0)) as [Hneg|Hk].
    - left. intros l. by rewrite Z.pow_neg_r by done.
    - destruct (decide (2 ^ k * 64 ≤ usable)) as [?|Hbig]; [right; lia|]. left. intros l Hl%layout_new_ge. lia. }
  destruct (zone_bytes <? zone_bytes / 128 + 4 * page_bytes) eqn:E; bool_solve.
  { eexists. split; [done|]. intros k _. destruct (Hfits k) as [?|[? Hle]]; [done|].
    pose proof (Z.pow_pos_nonneg 2 k ltac:(lia) ltac:(lia)). lia. }
  change SIZE_AGGREGATE_SLOT with 64. destruct (usable / 64 =? 0) eqn:Es; bool_solve.
  { eexists. split; [done|]. intros k _. destruct (Hfits k) as [?|[? Hle]]; [done|].
    pose proof (Z.pow_pos_nonneg 2 k ltac:(lia) ltac:(lia)). pose proof (Z.div_le_lower_bound usable 64 1 ltac:(lia) ltac:(lia)). lia. }
  assert (0 < usable / 64) as Hpos by (pose proof (Z.div_pos usable 64 ltac:(lia) ltac:(lia)); lia).
  rewrite Z.shiftl_1_l. apply fit_ok.
  - split; [apply Z.log2_nonneg|].
    assert (usable / 64 < 2 ^ 55) as Hlt by (apply Z.div_lt_upper_bound; lia).
    apply Z.log2_lt_pow2 in Hlt; lia.
  - assert (usable / 64 < 2 ^ 55) as Hlt by (apply Z.div_lt_upper_bound; lia). apply Z.log2_lt_pow2 in Hlt; lia.
  - intros j Hj. destruct (Hfits j) as [?|[Hj0 Hle]]; [done|].
    apply Z.log2_lt_pow2 in Hj; [|done]. pose proof (Z.div_le_lower_bound usable 64 (2 ^ j) ltac:(lia) ltac:(lia)). lia.
Qed.

Lemma zone_layout_exact_witness :
  ∃ l, Layout.for_zone (1024 * 1024) 4096 = Some (Some l) ∧ packed 0 (regions l) (Layout.total_bytes l) ∧
    Layout.aggregate_capacity l = 8192 ∧ Layout.for_zone (128 * 1024) 4096 = Some None.
Proof.
  destruct (zone_layout_exact (1024 * 1024) 4096 ltac:(lia) ltac:(lia)) as (r & Hr & Hl).
  destruct r as [l|]; [|vm_compute in Hr; discriminate Hr]. exists l. split; [exact Hr|]. destruct Hl as (Hp & _).
  split; [exact Hp|]. split; [|vm_compute; reflexivity].
  assert (Layout.aggregate_capacity <$> (mjoin (Layout.for_zone (1024 * 1024) 4096)) = Some 8192) as H by (vm_compute; reflexivity).
  rewrite Hr in H. injection H as H. exact H.
Defined.

(** ** The identity read back *)
Lemma node_id_roundtrip self n : uint 128 n → load_node_id (store_node_id self n) = n.
Proof.
  unfold uint. intros Hn. unfold load_node_id, store_node_id, as_u64. cbn [node_id_hi node_id_lo set_field].
  rewrite Z.shiftr_div_pow2 by lia. rewrite (Z.mod_small (n / 2 ^ 64)).
  2:{ split; [apply Z.div_pos; lia|]. apply Z.div_lt_upper_bound; lia. }
  rewrite Z.shiftl_mul_pow2 by lia. apply Z.bits_inj'. intros i Hi. rewrite Z.lor_spec.
  destruct (decide (i < 64)) as [Hlo|Hhi].
  - rewrite Z.mul_pow2_bits_low, Z.mod_pow2_bits_low by lia. done.
  - rewrite Z.mul_pow2_bits, Z.mod_pow2_bits_high, orb_false_r, Z.div_pow2_bits by lia. f_equal. lia.
Qed.
