(* ===== verification/Runtime.v ===== *)
(** * The gossip event loop

    [crates/gabion/src/gossip/runtime.rs], with the request, admin and
    discovery messages it handles: one select over six arms, a handler per
    arm, one [AggregateStore::apply] per iteration and the acknowledgement
    after it.

    What the loop awaits is an argument of one iteration: [Ready] says which
    futures have resolved and with what, [Env] what the clock and the socket
    answer if the iteration asks them.  Logging is not modelled; everything
    that leaves the process (datagrams, acknowledgements, admin replies) is a
    list of effects in the order they happen. *)

From S2P Require Import Prelude Types Hash Index Freelist Dictionary DirtyRing PeerFrontier IO CellStore Bytes WireHeader WireBody Wire DashMap.

(** [std::net::SocketAddr] *)
Inductive SocketAddr :=
  | V4 (ip port : Z)
  | V6 (ip port flowinfo scope_id : Z).
#[export] Instance SocketAddr_eq_dec : EqDecision SocketAddr.
Proof. solve_decision. Defined.

(** [Vec::pop]: the last element. *)
Fixpoint vec_pop {A} (l : list A) : option (list A * A) :=
  match l with
  | [] => None
  | [x] => Some ([], x)
  | x :: l => '(l, y) ← vec_pop l; Some (x :: l, y)
  end.

(** [slice::swap] *)
Definition swap {A} (l : list A) (i j : Z) : option (list A) :=
  x ← zget l i;
  y ← zget l j;
  l ← zset l i y;
  zset l j x.

(** [Duration], in nanoseconds *)
Abbreviation Duration := Z (only parsing).
Definition as_millis (d : Duration) : Z := d / 1000000.

(** ** SplitMix64 *)
Module SplitMix64.
Definition GOLDEN : Z := 11400714819323198485. (* 0x9E37_79B9_7F4A_7C15 *)

Definition new (seed : Z) : Z := wrapping_add 64 seed GOLDEN.

Definition next_u64 (self : Z) : Z * Z :=
  let self := wrapping_add 64 self GOLDEN in
  let z := self in
  let z := wrapping_mul 64 (Z.lxor z (Z.shiftr z 30)) 13787848793156543929 in (* 0xBF58_476D_1CE4_E5B9 *)
  let z := wrapping_mul 64 (Z.lxor z (Z.shiftr z 27)) 10723151780598845931 in (* 0x94D0_49BB_1331_11EB *)
  (self, Z.lxor z (Z.shiftr z 31)).
End SplitMix64.

(** ** Messages *)
Record LimitRequest := {
  lr_rule_fingerprint : Z;
  lr_key_hash : KeyHash;
  lr_bucket : BucketEpoch;
  lr_hits : Z;
  lr_rule_limit : Z;
  lr_now_millis : Z;
  lr_reply : option Z;
}.

Inductive Request := Limit (r : LimitRequest) | Shutdown.

(** What [RecordPermit::record] puts in the request queue. *)
Definition record (rule_fingerprint : Z) (key_hash : KeyHash) (bucket : BucketEpoch)
    (hits rule_limit now_millis : Z) (reply : option Z) : Request :=
  Limit {| lr_rule_fingerprint := rule_fingerprint; lr_key_hash := key_hash;
           lr_bucket := bucket; lr_hits := hits; lr_rule_limit := rule_limit;
           lr_now_millis := now_millis; lr_reply := reply |}.

Inductive PeerEvent := Added (addr : SocketAddr) | Removed (addr : SocketAddr).

(** A reply channel is known by its number. *)
Inductive AdminCommand := Snapshot (reply : Z) | CellDump (reply : Z).

Record PeerEntry := {
  pe_addr : SocketAddr;
  pe_node_id : option NodeId;
  pe_peer_slot : option Z;
}.

Record AdminSnapshot := {
  as_local_identity : NodeIdentity;
  as_peers : list PeerEntry;
  as_store_stats : CellStoreStats;
  as_local_dirty_len : Z;
  as_forwarded_dirty_len : Z;
  as_send_pending_depth : Z;
  as_decode_reject_count : Z;
  as_max_send_pending_depth : Z;
  as_ticks_total : Z;
  as_threshold_fires : Z;
  as_dirty_ticks : Z;
  as_last_effective_fanout : Z;
  as_peak_effective_fanout : Z;
  as_last_error_budget : Z;
}.

Record CellDumpEntry := {
  cd_rule_fingerprint : Z;
  cd_key_hash : Z;
  cd_bucket : BucketEpoch;
  cd_count : Z;
  cd_last_update_millis : Z;
  cd_origin_sequence : Z;
  cd_origin_node_id : option Z;
  cd_origin_incarnation : option Incarnation;
  cd_rule_window_millis : Z;
  cd_rule_bucket_millis : Z;
  cd_rule_limit : Z;
  cd_applies_locally : bool;
}.

Record CellDumpSnapshot := {
  cs_local_identity : NodeIdentity;
  cs_cells : list CellDumpEntry;
}.

(** [io::Error] by the distinction the loop makes. *)
Inductive IoError := WouldBlock | OtherIo.
Inductive GossipError := RuntimeShutDown | Io (e : IoError) | Encode (e : EncodeError).

(** ** Configuration *)
Record GossipConfig := {
  gc_local_identity : NodeIdentity;
  gc_cluster_id_hash : Z;
  gc_bootstrap_peers : list SocketAddr;
  gc_fanout : Z;
  gc_max_cells_per_tick : Z;
  gc_wire_limits : FrameLimits;
  gc_send_queue_capacity : Z;
  gc_limit_queue_capacity : Z;
  gc_tick_interval : Duration;
  gc_auth_key : option (list Z);
  gc_rng_seed : Z;
  gc_target_err_bps : Z;
  gc_min_emit_interval : Duration;
}.

#[global] Instance eta_GossipConfig : Eta GossipConfig := λ x,
  {| gc_local_identity := gc_local_identity x; gc_cluster_id_hash := gc_cluster_id_hash x;
     gc_bootstrap_peers := gc_bootstrap_peers x; gc_fanout := gc_fanout x;
     gc_max_cells_per_tick := gc_max_cells_per_tick x; gc_wire_limits := gc_wire_limits x;
     gc_send_queue_capacity := gc_send_queue_capacity x;
     gc_limit_queue_capacity := gc_limit_queue_capacity x;
     gc_tick_interval := gc_tick_interval x; gc_auth_key := gc_auth_key x;
     gc_rng_seed := gc_rng_seed x; gc_target_err_bps := gc_target_err_bps x;
     gc_min_emit_interval := gc_min_emit_interval x |}.

(** [rng_seed] comes from the operating system's entropy. *)
Definition GossipConfig_default (rng_seed : Z) : GossipConfig := {|
  gc_local_identity := {| node_id := 0; ni_incarnation := 1 |};
  gc_cluster_id_hash := 0;
  gc_bootstrap_peers := [];
  gc_fanout := 3;
  gc_max_cells_per_tick := 1024;
  gc_wire_limits := FrameLimits_default;
  gc_send_queue_capacity := 32;
  gc_limit_queue_capacity := 1024;
  gc_tick_interval := 100 * 1000000;
  gc_auth_key := None;
  gc_rng_seed := rng_seed;
  gc_target_err_bps := 100;
  gc_min_emit_interval := 5 * 1000000;
|}.

(** [⌈ln n + GOSSIP_COVERAGE_MARGIN⌉] for [1 ≤ n ≤ e^23]: with margin 3, three
    more than the number of [k] with [e^k < n].  The entries are [⌊e^k⌋]. *)
Definition exp_floors : list Z :=
  [1; 2; 7; 20; 54; 148; 403; 1096; 2980; 8103; 22026; 59874; 162754; 442413;
   1202604; 3269017; 8886110; 24154952; 65659969; 178482300; 485165195;
   1318815734; 3584912846].
Definition GOSSIP_COVERAGE_MARGIN : Z := 3.
Definition coverage_fanout (n : Z) : Z :=
  zlen (filter (λ e, e < n) exp_floors) + GOSSIP_COVERAGE_MARGIN.

(** ** Parts of the runtime's state *)
Record Peer := {
  addr : SocketAddr;
  p_node_id : option NodeId;
  p_peer_slot : option Z;
}.
#[global] Instance eta_Peer : Eta Peer := λ x,
  {| addr := addr x; p_node_id := p_node_id x; p_peer_slot := p_peer_slot x |}.

Definition fresh_peer (a : SocketAddr) : Peer :=
  {| addr := a; p_node_id := None; p_peer_slot := None |}.

Module AckColumns.
Record t := mk {
  origin_node_ids : list NodeId;
  incarnations : list Incarnation;
  origin_sequences : list Z;
}.
Definition with_capacity (capacity : Z) : t := mk [] [] [].
Definition clear (self : t) : t := mk [] [] [].
Definition push (self : t) (origin_node_id : NodeId) (incarnation : Incarnation)
    (origin_sequence : Z) : t :=
  mk (origin_node_ids self ++ [origin_node_id]) (incarnations self ++ [incarnation])
     (origin_sequences self ++ [origin_sequence]).
Definition len (self : t) : Z := zlen (origin_node_ids self).
End AckColumns.

(** ** The runtime *)
Module GossipRuntime.

(** The transport, the clock and the request queue are outside; of the admin
    channel only its presence is state. *)
Record t (S : Type) := mk {
  config : GossipConfig;
  store : CellStore.t;
  admin_rx : bool;
  aggregates : S;
  recv_buf : list Z;
  scratch : WireScratch;
  obs_buf : ObservationBatch.t;
  ack_buf : AckColumns.t;
  sink_buf : DeltaSink.t;
  expiration_buf : ExpirationSink.t;
  frame_handles : list CellHandle;
  send_pool : list PacketBuf;
  send_pending : list (SocketAddr * Z);
  send_free : list Z;
  peers : list Peer;
  rng : Z;
  pending_reply : option Z;
  decode_reject_count : Z;
  max_send_pending_depth : Z;
  rule_pending : list Z;
  rule_last_emit_ms : list Z;
  want_immediate_flush : bool;
  ticks_total : Z;
  threshold_fires : Z;
  dirty_ticks : Z;
  last_effective_fanout : Z;
  peak_effective_fanout : Z;
  last_error_budget : Z;
}.
Arguments mk {S}.
Arguments config {S}. Arguments store {S}. Arguments admin_rx {S}. Arguments aggregates {S}.
Arguments recv_buf {S}. Arguments scratch {S}. Arguments obs_buf {S}. Arguments ack_buf {S}.
Arguments sink_buf {S}. Arguments expiration_buf {S}. Arguments frame_handles {S}.
Arguments send_pool {S}. Arguments send_pending {S}. Arguments send_free {S}.
Arguments peers {S}. Arguments rng {S}. Arguments pending_reply {S}.
Arguments decode_reject_count {S}. Arguments max_send_pending_depth {S}.
Arguments rule_pending {S}. Arguments rule_last_emit_ms {S}.
Arguments want_immediate_flush {S}. Arguments ticks_total {S}. Arguments threshold_fires {S}.
Arguments dirty_ticks {S}. Arguments last_effective_fanout {S}.
Arguments peak_effective_fanout {S}. Arguments last_error_budget {S}.

#[global] Instance eta_t {S} : Eta (t S) := λ x,
  mk (config x) (store x) (admin_rx x) (aggregates x) (recv_buf x) (scratch x) (obs_buf x)
     (ack_buf x) (sink_buf x) (expiration_buf x) (frame_handles x) (send_pool x)
     (send_pending x) (send_free x) (peers x) (rng x) (pending_reply x)
     (decode_reject_count x) (max_send_pending_depth x) (rule_pending x)
     (rule_last_emit_ms x) (want_immediate_flush x) (ticks_total x) (threshold_fires x)
     (dirty_ticks x) (last_effective_fanout x) (peak_effective_fanout x)
     (last_error_budget x).

(** What an iteration sends out of the process. *)
Inductive Effect :=
  | Ack (reply : Z)
  | SnapshotReply (reply : Z) (s : AdminSnapshot)
  | CellDumpReply (reply : Z) (s : CellDumpSnapshot)
  | Datagram (dst : SocketAddr) (bytes : list Z).

(** What the environment answers during one iteration: the clock, and the
    result of [try_send_to]. *)
Record Env := {
  now_millis : Z;
  try_send_to : unit + IoError;
}.

Section runtime.
Context `{C : Count} (hmac : list Z → list Z → list Z) {S : Type} `{AggregateStore S}.
Implicit Types (self : t S).

Definition from_parts_with_admin (config : GossipConfig) (store : CellStore.t)
    (aggregates : S) (admin_rx : bool) : t S :=
  let send_pool_size := Z.max (gc_send_queue_capacity config) 1 in
  let rule_capacity := Dict.capacity (CellStore.rule_dictionary store) in
  {| config := config;
     store := store;
     admin_rx := admin_rx;
     aggregates := aggregates;
     recv_buf := replicate (Z.to_nat (max_payload_bytes (gc_wire_limits config))) 0;
     scratch := for_store store;
     obs_buf := ObservationBatch.with_capacity (gc_max_cells_per_tick config);
     ack_buf := AckColumns.with_capacity (max_cells (gc_wire_limits config));
     sink_buf := DeltaSink.with_capacity (gc_max_cells_per_tick config);
     expiration_buf := ExpirationSink.with_capacity (gc_max_cells_per_tick config);
     frame_handles := [];
     send_pool := replicate (Z.to_nat send_pool_size) (PacketBuf_for_limits (gc_wire_limits config));
     send_pending := [];
     send_free := reverse (zrange 0 (as_u8 send_pool_size));
     peers := fresh_peer <$> gc_bootstrap_peers config;
     rng := SplitMix64.new (gc_rng_seed config);
     pending_reply := None;
     decode_reject_count := 0;
     max_send_pending_depth := 0;
     rule_pending := replicate (Z.to_nat rule_capacity) 0;
     rule_last_emit_ms := replicate (Z.to_nat rule_capacity) 0;
     want_immediate_flush := false;
     ticks_total := 0;
     threshold_fires := 0;
     dirty_ticks := 0;
     last_effective_fanout := 0;
     peak_effective_fanout := 0;
     last_error_budget := 0 |}.

(** *** Limit requests *)

(** The error budget [ε = max(1, limit * bps / (10_000 * peers))]. *)
Definition error_budget self (rule_limit : Z) : option Z :=
  let n := Z.max (zlen (peers self)) 1 in
  let limit := Z.max rule_limit 1 in
  let bps := Z.max (gc_target_err_bps (config self)) 1 in
  d ← checked 64 (10000 * n);
  Some (Z.max (saturating_mul 64 limit bps / d) 1).

(** The threshold part of [handle_limit_request]. *)
Definition note_pending self (env : Env) (req : LimitRequest) : option (t S) :=
  slot ← CellStore.find_rule (store self) (lr_rule_fingerprint req);
  match slot with
  | None => Some self
  | Some idx =>
    cur ← zget (rule_pending self) idx;
    let pending := saturating_add 32 cur (as_u32 (Z.min (lr_hits req) U32_MAX)) in
    column ← zset (rule_pending self) idx pending;
    let self := self <| rule_pending := column |> in
    epsilon ← error_budget self (lr_rule_limit req);
    let self := self <| last_error_budget := epsilon |> in
    if epsilon <? pending then
      last ← zget (rule_last_emit_ms self) idx;
      let floor := as_u64 (as_millis (gc_min_emit_interval (config self))) in
      if (last =? 0) || (floor <=? saturating_sub (now_millis env) last)
      then Some (self <| want_immediate_flush := true |>)
      else Some self
    else Some self
  end.

Definition handle_limit_request self (env : Env) (req : LimitRequest) : option (t S) :=
  self ← note_pending self env req;
  let obs := ObservationBatch.clear (obs_buf self) in
  let sink := DeltaSink.clear (sink_buf self) in
  let obs := ObservationBatch.push obs {|
    o_rule_fingerprint := lr_rule_fingerprint req;
    o_key_hash := lr_key_hash req;
    o_bucket := lr_bucket req;
    o_origin := 0;
    o_incarnation := 0;
    o_count := saturating_from_u64 (lr_hits req);
    o_last_update_millis := lr_now_millis req |} in
  '(st, sink) ← CellStore.ingest_local (store self) obs sink;
  Some (self <| store := st |> <| obs_buf := obs |> <| sink_buf := sink |>
             <| pending_reply := lr_reply req |>).

(** *** Inbound packets *)

(** The callback of the decoder: the ack columns and the batch grow together. *)
Definition on_cell (st : AckColumns.t * ObservationBatch.t) (cell : WireCell) :
    AckColumns.t * ObservationBatch.t :=
  let '(acks, obs) := st in
  (AckColumns.push acks (wc_origin_node_id cell) (wc_origin_incarnation cell)
     (wc_origin_sequence cell),
   ObservationBatch.push obs {|
     o_rule_fingerprint := wc_rule_fingerprint cell;
     o_key_hash := wc_key_hash cell;
     o_bucket := wc_bucket cell;
     o_origin := wc_origin_node_id cell;
     o_incarnation := wc_origin_incarnation cell;
     o_count := wc_count cell;
     o_last_update_millis := wc_last_update_millis cell |}).

(** The frontier advances for the origins the store knows. *)
Definition record_acks (acks : AckColumns.t) (peer_slot : Z) (st : CellStore.t) :
    option CellStore.t :=
  for_each (zrange 0 (AckColumns.len acks)) st (λ st i,
    origin_id ← zget (AckColumns.origin_node_ids acks) i;
    incarnation ← zget (AckColumns.incarnations acks) i;
    sequence ← zget (AckColumns.origin_sequences acks) i;
    node_slot ← CellStore.find_node st origin_id incarnation;
    match node_slot with
    | None => Some st
    | Some node_slot =>
      pf ← PeerFrontierTable.record_acked (CellStore.peer_frontiers st) peer_slot node_slot sequence;
      Some (st <| CellStore.peer_frontiers := pf |>)
    end).

(** [peers.iter_mut().find(..)] and the two writes through it. *)
Fixpoint cache_peer (l : list Peer) (src : SocketAddr) (sender_id : NodeId) (peer_slot : Z) :
    list Peer :=
  match l with
  | [] => []
  | p :: l =>
    if bool_decide (addr p = src)
    then p <| p_node_id := Some sender_id |> <| p_peer_slot := Some peer_slot |> :: l
    else p :: cache_peer l src sender_id peer_slot
  end.

Definition handle_inbound self (n : Z) (src : SocketAddr) : option (t S) :=
  let obs := ObservationBatch.clear (obs_buf self) in
  let acks := AckColumns.clear (ack_buf self) in
  let sink := DeltaSink.clear (sink_buf self) in
  bytes ← zslice (recv_buf self) 0 n;
  '(cells, decoded) ← match gc_auth_key (config self) with
                      | Some key => decode_auth_visit hmac bytes key (gc_wire_limits (config self)) (λ _, true)
                      | None => decode_unauth_visit hmac bytes (gc_wire_limits (config self)) (λ _, true)
                      end;
  let '(acks, obs) := foldl on_cell (acks, obs) cells in
  let self := self <| obs_buf := obs |> <| ack_buf := acks |> <| sink_buf := sink |> in
  match decoded with
  | inr _ =>
    Some (self <| decode_reject_count := saturating_add 64 (decode_reject_count self) 1 |>)
  | inl summary =>
    '(st, sink) ← CellStore.merge_remote (store self) obs sink;
    let self := self <| sink_buf := sink |> in
    let sender_id := sender_node_id (ds_header summary) in
    '(pf, peer_slot) ← PeerFrontierTable.intern_peer (CellStore.peer_frontiers st) sender_id;
    let st := st <| CellStore.peer_frontiers := pf |> in
    match peer_slot with
    | None => Some (self <| store := st |>)
    | Some peer_slot =>
      st ← record_acks acks peer_slot st;
      Some (self <| store := st |>
                 <| peers := cache_peer (peers self) src sender_id peer_slot |>)
    end
  end.

(** *** Sending *)
Definition drain_one_send self (env : Env) : option (t S * list Effect * (unit + GossipError)) :=
  match send_pending self with
  | [] => Some (self, [], Ok ())
  | (dst, slot) :: rest =>
    buf ← zget (send_pool self) slot;
    match try_send_to env with
    | inl _ =>
      Some (self <| send_pending := rest |> <| send_free := send_free self ++ [slot] |>,
            [Datagram dst (as_bytes buf)], Ok ())
    | inr WouldBlock => Some (self, [], Ok ())
    | inr e =>
      Some (self <| send_pending := rest |> <| send_free := send_free self ++ [slot] |>,
            [], Err (Io e))
    end
  end.

(** The loop of [encode_packets_for]: a packet per free buffer, until the
    frame is drained or the pool is empty. *)
Fixpoint encode_loop (fuel : nat) self (dst : SocketAddr) (packets : Packets) :
    option (t S * Packets) :=
  match fuel with
  | O => None
  | Datatypes.S fuel =>
    match vec_pop (send_free self) with
    | None => Some (self, packets)
    | Some (free, slot) =>
      let self := self <| send_free := free |> in
      buf ← zget (send_pool self) slot;
      '(packets, buf, r) ← next_into hmac (store self) packets buf;
      pool ← zset (send_pool self) slot buf;
      let self := self <| send_pool := pool |> in
      match r with
      | inl (Some _) =>
        encode_loop fuel (self <| send_pending := send_pending self ++ [(dst, slot)] |>) dst packets
      | inl None | inr _ => Some (self <| send_free := send_free self ++ [slot] |>, packets)
      end
    end
  end.

Definition outbound_header self : Header := {|
  cluster_id_hash := gc_cluster_id_hash (config self);
  sender_node_id := node_id (CellStore.local_identity (store self));
  sender_incarnation := ni_incarnation (CellStore.local_identity (store self));
  count_width := 0;
  cell_count := 0;
  body_len := 0;
  min_origin_sequence := 0;
  max_origin_sequence := 0;
  hdr_flags := 0 |}.

(** The iterator borrows the scratch columns and returns them on drop.  Its
    [debug_assert] that no handle is left is off, as in a release build: a tick
    that runs out of buffers drops the rest of the frame. *)
Definition encode_packets_for self (dst : SocketAddr) : option (t S) :=
  let packets_result :=
    match gc_auth_key (config self) with
    | Some key => auth (outbound_header self) (frame_handles self) key (scratch self)
                    (gc_wire_limits (config self))
    | None => unauth (outbound_header self) (frame_handles self) (scratch self)
                (gc_wire_limits (config self))
    end in
  match packets_result with
  | inr _ => Some self
  | inl packets =>
    '(self, packets) ← encode_loop (Datatypes.S (length (send_free self))) self dst packets;
    Some (self <| scratch := pk_scratch packets |>)
  end.

(** *** The gossip tick *)

(** The partial Fisher-Yates shuffle of the peers. *)
Definition shuffle_step (n : Z) (st : list Peer * Z) (i : Z) : option (list Peer * Z) :=
  let '(ps, rng) := st in
  let '(rng, r) := SplitMix64.next_u64 rng in
  m ← checked 64 (n - i);
  if m =? 0 then None else
  j ← checked 64 (i + r mod m);
  ps ← swap ps i j;
  Some (ps, rng).

Definition pick_peers (n pick_count : Z) (ps : list Peer) (rng : Z) : option (list Peer * Z) :=
  for_each (zrange 0 pick_count) (ps, rng) (shuffle_step n).

(** One picked peer: its frame, cut into packets.  [false] is the [break]. *)
Definition gossip_to self (peer_idx : Z) : option (t S * bool) :=
  if bool_decide (send_free self = []) then Some (self, false) else
  peer ← zget (peers self) peer_idx;
  '(st, handles) ← match p_peer_slot peer with
    | Some slot => CellStore.fill_gossip_frame_for_peer (store self)
                     (gc_max_cells_per_tick (config self)) slot
    | None => CellStore.fill_gossip_frame (store self) (gc_max_cells_per_tick (config self))
    end;
  let self := self <| store := st |> <| frame_handles := handles |> in
  if bool_decide (handles = []) then Some (self, true) else
  self ← encode_packets_for self (addr peer);
  Some (self, true).

(** The sweep that resets the per-rule counters after an emission. *)
Definition reset_pending self (stamp : Z) : option (t S) :=
  '(pending, last) ← for_each (zrange 0 (zlen (rule_pending self)))
    (rule_pending self, rule_last_emit_ms self) (λ '(pending, last) slot,
      v ← zget pending slot;
      if v =? 0 then Some (pending, last) else
      pending ← zset pending slot 0;
      last ← zset last slot stamp;
      Some (pending, last));
  Some (self <| rule_pending := pending |> <| rule_last_emit_ms := last |>).

Definition handle_gossip_tick self (env : Env) : option (t S) :=
  let self := self <| ticks_total := saturating_add 64 (ticks_total self) 1 |> in
  let expired := ExpirationSink.clear (expiration_buf self) in
  '(st, expired) ← CellStore.expire_at (store self) (now_millis env) expired;
  let self := self <| store := st |> <| expiration_buf := expired |> in
  if CellStore.is_empty (store self) || bool_decide (peers self = []) ||
     bool_decide (send_free self = [])
  then Some self else
  let self := self <| dirty_ticks := saturating_add 64 (dirty_ticks self) 1 |> in
  let n := zlen (peers self) in
  let pick_count := Z.min (Z.max (gc_fanout (config self)) (coverage_fanout n)) n in
  let self := self <| last_effective_fanout := pick_count |>
                   <| peak_effective_fanout := Z.max (peak_effective_fanout self) pick_count |> in
  '(ps, g) ← pick_peers n pick_count (peers self) (rng self);
  let self := self <| peers := ps |> <| rng := g |> in
  self ← for_each_while (zrange 0 pick_count) self gossip_to;
  reset_pending self (Z.max (now_millis env) 1).

(** *** Membership *)
Definition handle_peer_event self (evt : PeerEvent) : option (t S) :=
  match evt with
  | Added a =>
    Some (if existsb (λ x, bool_decide (addr x = a)) (peers self) then self
          else self <| peers := peers self ++ [fresh_peer a] |>)
  | Removed a =>
    match PeerFrontierTable.position (λ x, bool_decide (addr x = a)) (peers self) 0 with
    | None => Some self
    | Some pos =>
      removed ← zget (peers self) pos;
      let self := self <| peers := delete (Z.to_nat pos) (peers self) |> in
      match p_node_id removed with
      | None => Some self
      | Some id =>
        pf ← PeerFrontierTable.remove_peer (CellStore.peer_frontiers (store self)) id;
        Some (self <| store := store self <| CellStore.peer_frontiers := pf |> |>)
      end
    end
  end.

(** *** Observability *)
Definition admin_snapshot self : AdminSnapshot := {|
  as_local_identity := CellStore.local_identity (store self);
  as_peers := (λ p, {| pe_addr := addr p; pe_node_id := p_node_id p;
                       pe_peer_slot := p_peer_slot p |}) <$> peers self;
  as_store_stats := CellStore.stats (store self);
  as_local_dirty_len := DirtyRing.len (CellStore.local_dirty (store self));
  as_forwarded_dirty_len := DirtyRing.len (CellStore.forwarded_dirty (store self));
  as_send_pending_depth := zlen (send_pending self);
  as_decode_reject_count := decode_reject_count self;
  as_max_send_pending_depth := max_send_pending_depth self;
  as_ticks_total := ticks_total self;
  as_threshold_fires := threshold_fires self;
  as_dirty_ticks := dirty_ticks self;
  as_last_effective_fanout := last_effective_fanout self;
  as_peak_effective_fanout := peak_effective_fanout self;
  as_last_error_budget := last_error_budget self |}.

Definition dump_entry (st : CellStore.t) (row : CellRow) : option CellDumpEntry :=
  rule ← RuleDictionary.descriptor (CellStore.rule_dictionary st) (ck_rule (cr_key row));
  origin ← NodeDictionary.descriptor (CellStore.node_dictionary st) (ck_origin (cr_key row));
  Some {|
    cd_rule_fingerprint := match rule with Some r => fingerprint r | None => 0 end;
    cd_key_hash := ck_key_hash (cr_key row);
    cd_bucket := ck_bucket (cr_key row);
    cd_count := cr_count row;
    cd_last_update_millis := cr_last_update_millis row;
    cd_origin_sequence := cr_origin_sequence row;
    cd_origin_node_id := node_id <$> origin;
    cd_origin_incarnation := ni_incarnation <$> origin;
    cd_rule_window_millis := match rule with Some r => window_millis r | None => 0 end;
    cd_rule_bucket_millis := match rule with Some r => bucket_millis r | None => 0 end;
    cd_rule_limit := match rule with Some r => limit r | None => 0 end;
    cd_applies_locally := match rule with Some r => applies_locally r | None => false end |}.

Definition build_cell_dump self : option CellDumpSnapshot :=
  handles ← CellStore.active_handles (store self);
  cells ← for_each handles [] (λ cells h,
    row ← CellStore.get (store self) h;
    match row with
    | None => Some cells
    | Some row => e ← dump_entry (store self) row; Some (cells ++ [e])
    end);
  Some {| cs_local_identity := CellStore.local_identity (store self); cs_cells := cells |}.

Definition handle_admin_command self (cmd : AdminCommand) : option (list Effect) :=
  match cmd with
  | Snapshot reply => Some [SnapshotReply reply (admin_snapshot self)]
  | CellDump reply => dump ← build_cell_dump self; Some [CellDumpReply reply dump]
  end.

(** *** The loop *)
Inductive ArmOutcome :=
  | RequestArm (r : option Request)
  | Inbound (r : (Z * SocketAddr) + IoError)
  | Writable
  | PeerEventArm (evt : option PeerEvent)
  | Admin (cmd : option AdminCommand)
  | Tick.

(** The futures that have resolved.  [recv_from] hands over the buffer it
    wrote into with the number of bytes and the sender. *)
Record Ready := {
  rd_request : option (option Request);
  rd_recv : option ((list Z * Z * SocketAddr) + IoError);
  rd_writable : bool;
  rd_peer_event : option (option PeerEvent);
  rd_admin : option (option AdminCommand);
  rd_tick : bool;
}.

#[global] Instance eta_Ready : Eta Ready := λ x,
  {| rd_request := rd_request x; rd_recv := rd_recv x; rd_writable := rd_writable x;
     rd_peer_event := rd_peer_event x; rd_admin := rd_admin x; rd_tick := rd_tick x |}.

(** [run]'s own locals beside [self]. *)
Record RunState := {
  rs_self : t S;
  peer_events_done : bool;
}.

(** [tokio::select! { biased; .. }]: the first enabled arm that is ready, in
    the order of the arms; [None] waits. *)
Definition select (rs : RunState) (rd : Ready) : option (t S * ArmOutcome) :=
  let self := rs_self rs in
  match rd_request rd with
  | Some req => Some (self, RequestArm req)
  | None =>
  match rd_recv rd with
  | Some (inl (buf, n, src)) => Some (self <| recv_buf := buf |>, Inbound (inl (n, src)))
  | Some (inr e) => Some (self, Inbound (inr e))
  | None =>
  if negb (bool_decide (send_pending self = [])) && rd_writable rd then Some (self, Writable) else
  match (if peer_events_done rs then None else rd_peer_event rd) with
  | Some evt => Some (self, PeerEventArm evt)
  | None =>
  match (if admin_rx self then rd_admin rd else None) with
  | Some cmd => Some (self, Admin cmd)
  | None => if rd_tick rd then Some (self, Tick) else None
  end end end end.

(** The outcome the iteration dispatches: a synthetic tick when a flush is
    wanted, else what [select!] returns. *)
Definition next_outcome (rs : RunState) (rd : Ready) : option (t S * ArmOutcome) :=
  let self := rs_self rs in
  if want_immediate_flush self then
    Some (self <| want_immediate_flush := false |>
               <| threshold_fires := saturating_add 64 (threshold_fires self) 1 |>, Tick)
  else select rs rd.

Inductive Flow := Continue | Return (r : unit + GossipError).

(** The [match outcome] of the loop. *)
Definition dispatch self (done : bool) (env : Env) (outcome : ArmOutcome) :
    option (t S * bool * list Effect * Flow) :=
  match outcome with
  | RequestArm None | RequestArm (Some Shutdown) => Some (self, done, [], Return (Ok ()))
  | RequestArm (Some (Limit r)) =>
    self ← handle_limit_request self env r; Some (self, done, [], Continue)
  | Inbound (inl (n, src)) =>
    self ← handle_inbound self n src; Some (self, done, [], Continue)
  | Inbound (inr e) => Some (self, done, [], Return (Err (Io e)))
  | Writable =>
    '(self, effs, r) ← drain_one_send self env;
    Some (self, done, effs, match r with inl _ => Continue | inr e => Return (Err e) end)
  | PeerEventArm (Some evt) =>
    self ← handle_peer_event self evt; Some (self, done, [], Continue)
  | PeerEventArm None => Some (self, true, [], Continue)
  | Admin (Some cmd) =>
    effs ← handle_admin_command self cmd; Some (self, done, effs, Continue)
  | Admin None => Some (self <| admin_rx := false |>, done, [], Continue)
  | Tick => self ← handle_gossip_tick self env; Some (self, done, [], Continue)
  end.

(** The bottom of the loop: one apply, then the acknowledgement. *)
Definition apply_rows self : option (t S) :=
  if negb (DeltaSink.is_empty (sink_buf self)) || negb (ExpirationSink.is_empty (expiration_buf self))
  then
    s ← agg_apply (aggregates self) (sink_buf self) (expiration_buf self);
    Some (self <| aggregates := s |> <| sink_buf := DeltaSink.clear (sink_buf self) |>
               <| expiration_buf := ExpirationSink.clear (expiration_buf self) |>)
  else Some self.

(** Every effect comes with the aggregate store as it is when the effect goes
    out: what a task that is woken by it reads. *)
Definition finish_observed self : option (t S * list (Effect * S)) :=
  self ← apply_rows self;
  let self := if max_send_pending_depth self <? zlen (send_pending self)
              then self <| max_send_pending_depth := zlen (send_pending self) |> else self in
  match pending_reply self with
  | Some reply => Some (self <| pending_reply := None |>, [(Ack reply, aggregates self)])
  | None => Some (self, [])
  end.

(** One turn of the loop.  An iteration in which nothing is ready waits. *)
Definition iteration_observed (rs : RunState) (env : Env) (rd : Ready) :
    option (RunState * list (Effect * S) * Flow) :=
  match next_outcome rs rd with
  | None => Some (rs, [], Continue)
  | Some (self, outcome) =>
    '(self, done, effs, flow) ← dispatch self (peer_events_done rs) env outcome;
    let effs := (λ e, (e, aggregates self)) <$> effs in
    match flow with
    | Return r => Some ({| rs_self := self; peer_events_done := done |}, effs, Return r)
    | Continue =>
      '(self, acks) ← finish_observed self;
      Some ({| rs_self := self; peer_events_done := done |}, effs ++ acks, Continue)
    end
  end.

(** The same with the effects alone. *)
Definition finish_iteration self : option (t S * list Effect) :=
  '(self, acks) ← finish_observed self; Some (self, acks.*1).
Definition iteration (rs : RunState) (env : Env) (rd : Ready) :
    option (RunState * list Effect * Flow) :=
  '(rs, effs, flow) ← iteration_observed rs env rd; Some (rs, effs.*1, flow).

Lemma iteration_eq rs env rd : iteration rs env rd =
  match next_outcome rs rd with
  | None => Some (rs, [], Continue)
  | Some (self, outcome) =>
    '(self, done, effs, flow) ← dispatch self (peer_events_done rs) env outcome;
    match flow with
    | Return r => Some ({| rs_self := self; peer_events_done := done |}, effs, Return r)
    | Continue =>
      '(self, acks) ← finish_iteration self;
      Some ({| rs_self := self; peer_events_done := done |}, effs ++ acks, Continue)
    end
  end.
Proof using.
  unfold iteration, iteration_observed, finish_iteration.
  destruct (next_outcome rs rd) as [[self o]|]; [|done].
  destruct (dispatch self _ env o) as [[[[self1 d] effs] flow]|]; [|done]. cbn [mbind option_bind].
  assert (((λ e, (e, aggregates self1)) <$> effs).*1 = effs) as He.
  { rewrite <- list_fmap_compose. apply list_fmap_id. }
  destruct flow; [|cbn [mbind option_bind]; by rewrite He].
  destruct (finish_observed self1) as [[self2 acks]|]; [|done]. cbn [mbind option_bind]. by rewrite fmap_app, He.
Qed.
#[global] Arguments iteration : simpl never.

(** [run] over a sequence of wake-ups, with the effects in order. *)
Fixpoint run (rs : RunState) (evs : list (Env * Ready)) :
    option (RunState * list Effect * Flow) :=
  match evs with
  | [] => Some (rs, [], Continue)
  | (env, rd) :: evs =>
    '(rs, effs, flow) ← iteration rs env rd;
    match flow with
    | Return r => Some (rs, effs, Return r)
    | Continue => '(rs, effs', flow) ← run rs evs; Some (rs, effs ++ effs', flow)
    end
  end.
End runtime.
End GossipRuntime.
