(* ===== verification/RuntimeSend.v ===== *)
(** * The gossip event loop: the outbound pool

    Every buffer of the pool is either free or queued, each once; a queued
    buffer holds a packet that decodes at any peer with the same key; sending,
    deferring and encoding keep it so. *)

From S2P Require Import Prelude Types Hash Index Freelist Dictionary DirtyRing PeerFrontier IO CellStore CellSlots CellInv CellOps CellMerge CellExpire GossipFrame CellTyped Bytes WireHeader WireBody WirePlan WireCodec Wire WireTyped DashMap Runtime.
Import GossipRuntime.

(** ** Stacks *)
Lemma vec_pop_snoc {A} (l : list A) x : vec_pop (l ++ [x]) = Some (l, x).
Proof.
  induction l as [|y l IH]; [done|]. cbn [app vec_pop].
  destruct (l ++ [x]) eqn:E; [by destruct l|]. by rewrite IH.
Qed.

Lemma vec_pop_None {A} (l : list A) : vec_pop l = None → l = [].
Proof.
  destruct l as [|l x] using rev_ind; [done|]. by rewrite vec_pop_snoc.
Qed.

Lemma vec_pop_Some {A} (l l' : list A) x : vec_pop l = Some (l', x) → l = l' ++ [x].
Proof.
  destruct l as [|l y] using rev_ind; [done|]. rewrite vec_pop_snoc. by intros [= <- <-].
Qed.

Section send.
Context {C : Count} {CL : CountLaws C} (hmac : list Z → list Z → list Z).
Context (hmac_len : tags_ok hmac).
Context {S : Type} `{AggregateStore S}.
Implicit Types (self : t S).

(** A frame that any peer with the same key and the same or larger limits
    accepts, with this sender in its header. *)
Definition valid_packet (config : GossipConfig) (id : NodeIdentity) (bytes : list Z) : Prop :=
  Forall byte bytes ∧ zlen bytes ≤ max_payload_bytes (gc_wire_limits config) ∧
  ∃ hdr cells flags, cluster_id_hash hdr = gc_cluster_id_hash config ∧
    sender_node_id hdr = node_id id ∧ sender_incarnation hdr = ni_incarnation id ∧
    ∀ limits accept, zlen bytes ≤ max_payload_bytes limits → zlen cells ≤ max_cells limits →
      decode_inner hmac bytes (gc_auth_key config) limits accept =
        Some (if accept hdr then cells else [],
              Ok {| ds_header := hdr; ds_cell_count := zlen cells; ds_flags := flags |}).

Record pool_inv (config : GossipConfig) (id : NodeIdentity) (pool : list PacketBuf)
    (pending : list (SocketAddr * Z)) (free : list Z) : Prop := {
  pl_slots : free ++ pending.*2 ≡ₚ zrange 0 (as_u8 (Z.max (gc_send_queue_capacity config) 1));
  pl_pool : as_u8 (Z.max (gc_send_queue_capacity config) 1) ≤ zlen pool;
  pl_packets dst slot : (dst, slot) ∈ pending →
    ∃ buf, zget pool slot = Some buf ∧ valid_packet config id (as_bytes buf);
}.

Lemma pl_nodup config id pool pending free :
  pool_inv config id pool pending free → NoDup (free ++ pending.*2).
Proof using. intros []. rewrite pl_slots0. apply NoDup_zrange. Qed.

Lemma pl_range config id pool pending free s :
  pool_inv config id pool pending free → s ∈ free ++ pending.*2 → 0 ≤ s < zlen pool.
Proof using.
  intros [Hs Hp _]. rewrite Hs, elem_of_zrange. lia.
Qed.

Lemma pool_inv_initial config id pool :
  zlen pool = Z.max (gc_send_queue_capacity config) 1 →
  pool_inv config id pool [] (reverse (zrange 0 (as_u8 (Z.max (gc_send_queue_capacity config) 1)))).
Proof using.
  intros Hl. split.
  - by rewrite app_nil_r, reverse_Permutation.
  - rewrite Hl. apply Z.mod_le; lia.
  - by intros dst slot ?%elem_of_nil.
Qed.

(** ** Draining *)
Lemma drain_one_send_ok self env :
  pool_inv (config self) (CellStore.local_identity (store self)) (send_pool self)
    (send_pending self) (send_free self) →
  ∃ self' effs r, drain_one_send self env = Some (self', effs, r) ∧
    (∃ pending free, self' = self <| send_pending := pending |> <| send_free := free |> ∧
       pool_inv (config self) (CellStore.local_identity (store self)) (send_pool self) pending free) ∧
    match send_pending self, try_send_to env with
    | [], _ => self' = self ∧ effs = [] ∧ r = Ok ()
    | (dst, slot) :: rest, inl _ =>
      send_pending self' = rest ∧ send_free self' = send_free self ++ [slot] ∧ r = Ok () ∧
      ∃ bytes, effs = [Datagram dst bytes] ∧
        valid_packet (config self) (CellStore.local_identity (store self)) bytes
    | _ :: _, inr WouldBlock => self' = self ∧ effs = [] ∧ r = Ok ()
    | _ :: rest, inr e => send_pending self' = rest ∧ effs = [] ∧ r = Err (Io e)
    end.
Proof using.
  intros Hp. unfold drain_one_send.
  assert (∃ pending free, self = self <| send_pending := pending |> <| send_free := free |> ∧
    pool_inv (config self) (CellStore.local_identity (store self)) (send_pool self) pending free) as Hid.
  { exists (send_pending self), (send_free self). by destruct self. }
  destruct (send_pending self) as [|[dst slot] rest] eqn:E; [by eexists _, _, _|].
  destruct (pl_packets _ _ _ _ _ Hp dst slot) as (buf & Hb & Hv); [by left|].
  rewrite Hb. cbn [mbind option_bind].
  assert (pool_inv (config self) (CellStore.local_identity (store self)) (send_pool self) rest
    (send_free self ++ [slot])) as Hp'.
  { destruct Hp as [Hs Hl Hk]. split; [|done|].
    - rewrite <- Hs. simpl. rewrite <- app_assoc. simpl. done.
    - intros d s Hin. apply (Hk d). by right. }
  destruct (try_send_to env) as [[]|[]]; eexists _, _, _; (split; [done|]); simpl; eauto 10.
Qed.

(** ** Encoding *)

(** The buffers the loop fills: one slot per packet of the stream. *)
Definition holds (pool : list PacketBuf) (slots : list Z) (ps : list (list Z * PacketWritten)) : Prop :=
  Forall2 (λ slot p, ∃ buf, zget pool slot = Some buf ∧ as_bytes buf = p.1 ∧ Forall byte p.1) slots ps.

Lemma holds_other pool pool' slots ps :
  holds pool slots ps → (∀ s, s ∈ slots → zget pool' s = zget pool s) → holds pool' slots ps.
Proof using.
  intros Hh. induction Hh as [|slot p slots ps (buf & Hb & Hp) _ IH]; intros Hs; constructor.
  - exists buf. split; [|done]. rewrite Hs by (by left). done.
  - apply IH. intros s ?. apply Hs. by right.
Qed.

Context (V : gmap CellName Z).

Lemma encode_loop_ok fuel : ∀ self dst packets,
  inv (store self) V → store_typed (store self) V → packets_ok (store self) packets →
  NoDup (send_free self) → (∀ s, s ∈ send_free self → 0 ≤ s < zlen (send_pool self)) →
  (length (send_free self) < fuel)%nat →
  ∃ packets' pool free slots ps parts rest,
    encode_loop hmac fuel self dst packets =
      Some (self <| send_free := free |> <| send_pool := pool |>
                 <| send_pending := send_pending self ++ ((λ s, (dst, s)) <$> slots) |>, packets') ∧
    packets_ok (store self) packets' ∧ send_free self = free ++ reverse slots ∧
    zlen pool = zlen (send_pool self) ∧
    (∀ s, s ∉ send_free self → zget pool s = zget (send_pool self) s) ∧
    stream_ok hmac (store self) V packets ps parts ∧ holds pool slots ps ∧
    drop (Z.to_nat (pk_cursor packets)) (pk_handles packets) = concat parts.*1 ++ rest ∧
    (rest = [] ∨ free = []).
Proof using CL hmac_len.
  induction fuel as [|fuel IH]; intros self dst packets Hinv Hty Hok Hnd Hr Hf; [lia|].
  cbn [encode_loop]. destruct (vec_pop (send_free self)) as [[free slot]|] eqn:Ep.
  2:{ apply vec_pop_None in Ep. exists packets, (send_pool self), [], [], [], [],
        (drop (Z.to_nat (pk_cursor packets)) (pk_handles packets)).
      split; [rewrite fmap_nil, app_nil_r, <- Ep; by destruct self|].
      split; [done|]. split; [done|]. split; [done|]. split; [done|].
      split; [constructor|]. split; [constructor|]. split; [done|]. by right. }
  apply vec_pop_Some in Ep.
  assert (0 ≤ slot < zlen (send_pool self)) as Hslot.
  { apply Hr. rewrite Ep. apply elem_of_app. right. by apply list_elem_of_singleton. }
  destruct (zget_in_range (send_pool self) slot Hslot) as [buf Hbuf].
  cbn [send_pool set_field mbind option_bind]. rewrite Hbuf. cbn [mbind option_bind].
  assert ((slot ∉ free) ∧ NoDup free) as [Hsf Hndf].
  { rewrite Ep in Hnd. apply NoDup_app in Hnd as (? & Hd & _). split; [|done].
    intros Hin. apply (Hd slot Hin). by apply list_elem_of_singleton. }
  destruct (decide (pk_cursor packets = zlen (pk_handles packets))) as [Hend|Hmore].
  - (* the frame is drained *)
    unfold next_into. replace (zlen (pk_handles packets) <=? pk_cursor packets) with true by lia.
    cbn [mbind option_bind]. rewrite zset_ok by done. cbn [mbind option_bind].
    exists packets, (zupd (send_pool self) slot {| pb_inner := []; pb_capacity := pb_capacity buf |}),
      (free ++ [slot]), [], [], [], [].
    split; [by rewrite fmap_nil, app_nil_r|].
    split; [done|]. rewrite zlen_zupd, app_nil_r. split; [done|]. split; [done|].
    split.
    { intros s Hs. apply zget_zupd_ne. intros ->. apply Hs. rewrite Ep, elem_of_app. right.
      by apply list_elem_of_singleton. }
    split; [constructor|]. split; [constructor|]. split; [|by left].
    rewrite Hend. apply drop_ge. unfold zlen. lia.
  - destruct (next_into_ok hmac (λ k p, proj1 (hmac_len k p)) (store self) V Hinv Hty packets buf Hok)
      as (sc & buf' & pw & hs & es & rest0 & Hn & Hok' & Hhs & Hdrop & Hpost).
    { pose proof (po_cursor _ _ Hok). lia. }
    change (store (self <| send_free := free |>)) with (store self). rewrite Hn.
    cbn [mbind option_bind]. rewrite zset_ok by done. cbn [mbind option_bind].
    set (packets1 := packets <| pk_scratch := sc |> <| pk_cursor := pk_cursor packets + zlen hs |>) in *.
    set (pool1 := zupd (send_pool self) slot buf').
    match goal with |- context [encode_loop hmac fuel ?x dst packets1] => set (self1 := x) end.
    destruct (IH self1 dst packets1) as (packets' & pool & free' & slots & ps & parts & rest &
      -> & Hok2 & Hfree & Hlen & Hsame & Hst & Hh & Hcat & Hfin); try done.
    { intros s Hs. unfold self1, pool1. cbn. rewrite zlen_zupd. apply Hr. rewrite Ep.
      apply elem_of_app. by left. }
    { unfold self1. cbn. rewrite Ep, length_app in Hf. simpl in Hf. lia. }
    change (send_free self1) with free in Hfree, Hsame.
    exists packets', pool, free', (slot :: slots), ((as_bytes buf', pw) :: ps), ((hs, es) :: parts), rest.
    split; [unfold self1; cbn; by rewrite <- app_assoc|]. split; [done|].
    split; [rewrite Ep, Hfree, reverse_cons, app_assoc; done|].
    split; [rewrite Hlen; unfold self1, pool1; cbn; by rewrite zlen_zupd|].
    assert (zget pool slot = Some buf') as Hgs.
    { rewrite Hsame by done. unfold self1, pool1. cbn. by apply zget_zupd_eq. }
    split; [|split; [|split; [|split; [|done]]]].
    + intros s Hs. rewrite Ep, elem_of_app, list_elem_of_singleton in Hs.
      rewrite Hsame by tauto. unfold self1, pool1. cbn. apply zget_zupd_ne. intros ->. tauto.
    + constructor; [simpl; eauto|]. eapply Forall2_impl; [exact Hst|].
      intros p part (? & more & Hp). split; [done|]. exists more.
      by eapply packet_post_stream; [..|exact Hp].
    + constructor; [|done]. exists buf'. split_and!; [done..|]. simpl.
      by apply (next_into_bytes hmac _ _ _ _ hmac_len Hn).
    + rewrite Hdrop. cbn [fmap list_fmap fst concat]. rewrite <- app_assoc. f_equal.
      etrans; [|exact Hcat]. unfold packets1. cbn.
      assert (rest0 = drop (length hs) (drop (Z.to_nat (pk_cursor packets)) (pk_handles packets))) as ->
        by (by rewrite Hdrop, drop_app_length).
      rewrite drop_drop. f_equal. pose proof (po_cursor _ _ Hok). unfold zlen. lia.
Qed.

(** A packet of the stream this node encodes is valid for its peers. *)
Lemma packet_valid self packets bytes pw hs es more :
  packet_post hmac (store self) V packets bytes pw hs es more →
  pk_header packets = outbound_header self → pk_key packets = gc_auth_key (config self) →
  pk_limits packets = gc_wire_limits (config self) →
  Forall byte bytes →
  valid_packet (config self) (CellStore.local_identity (store self)) bytes.
Proof using.
  intros [_ _ _ _ Hb (hdr & (Hc & Hs & Hi) & _ & _ & _ & _ & Hd)] Hh Hk Hl Hby. rewrite Hl in Hb.
  split; [done|]. split; [done|]. exists hdr, (wire_cell_of <$> es), (pw_flags pw).
  rewrite Hh in Hc, Hs, Hi. split_and!; try done. rewrite zlen_fmap, <- Hk. exact Hd.
Qed.
End send.
