(* ===== verification/RuntimeAdmin.v ===== *)
(** * The gossip event loop: the admin channel

    Neither admin command can fail, and the cell dump lists the contents of
    the store: every cell once, with its resolved rule and origin. *)

From S2P Require Import Prelude Types Hash Index Freelist Dictionary DirtyRing PeerFrontier IO CellStore CellSlots CellInv CellOps CellMerge CellExpire Bytes Wire WireTyped DashMap Runtime.
Import GossipRuntime.

(** The cell a dump entry describes. *)
Definition dump_cell (e : CellDumpEntry) : CellName * Z :=
  ({| cn_fingerprint := cd_rule_fingerprint e; cn_key_hash := cd_key_hash e;
      cn_bucket := cd_bucket e; cn_node := default 0 (cd_origin_node_id e);
      cn_incarnation := default 0 (cd_origin_incarnation e) |}, cd_count e).

Section dump.
Context {C : Count} {CL : CountLaws C}.
Context (st : CellStore.t) A Mr Mn pins V (Hi : inv_at st A Mr Mn pins V).

Lemma active_handles_ok :
  ∃ hs, CellStore.active_handles st = Some hs ∧ NoDup (h_index <$> hs) ∧
    (∀ s, s ∈ h_index <$> hs ↔ s ∈ dom A) ∧
    ∀ h, h ∈ hs → zget (CellStore.generations st) (h_index h) = Some (h_generation h).
Proof using Hi.
  pose proof (iv_slots _ _ _ _ _ _ Hi) as Hsl. unfold CellStore.active_handles.
  destruct (for_each_inv (λ todo hs, (∀ s, s ∈ todo → 0 ≤ s < CellStore.capacity st) ∧ NoDup todo ∧
      NoDup (h_index <$> hs) ∧ (∀ s, s ∈ h_index <$> hs ↔ s ∈ dom A ∧ s ∉ todo) ∧
      ∀ h, h ∈ hs → zget (CellStore.generations st) (h_index h) = Some (h_generation h))
    (zrange 0 (CellStore.capacity st)) [] (λ out i,
      a ← CellStore.is_active st i;
      if (a : bool) then h ← CellStore.handle_for st i; Some (out ++ [h]) else Some out))
    as (hs & -> & _ & _ & Hnd & Hmem & Hgen).
  - intros s todo hs (Hr & [Hs Hnt]%NoDup_cons & Hnd & Hmem & Hgen).
    assert (0 ≤ s < CellStore.capacity st) as Hsr by (apply Hr, elem_of_cons; by left).
    assert (∀ s', s' ∈ todo → 0 ≤ s' < CellStore.capacity st) as Hr'
      by (intros s' ?; apply Hr, elem_of_cons; by right).
    rewrite (is_active_ok _ _ Hsl) by done. cbn [mbind option_bind]. case_bool_decide as HA.
    + destruct (handle_for_ok _ _ Hsl s Hsr) as (g & -> & Hg). cbn [mbind option_bind].
      eexists. split; [done|]. split; [done|]. split; [done|]. rewrite fmap_app. simpl.
      assert (s ∉ h_index <$> hs) as Hnew.
      { rewrite Hmem, not_elem_of_cons. tauto. }
      split; [|split].
      * apply NoDup_app. split; [done|]. split; [|apply NoDup_singleton].
        intros x Hx ->%list_elem_of_singleton. done.
      * intros x. rewrite elem_of_app, list_elem_of_singleton, Hmem, not_elem_of_cons.
        destruct (decide (x = s)) as [->|]; tauto.
      * intros h [?| ->%list_elem_of_singleton]%elem_of_app; [by apply Hgen|done].
    + eexists. split; [done|]. do 3 (split; [done|]). split; [|done].
      intros x. rewrite Hmem, not_elem_of_cons. destruct (decide (x = s)) as [->|]; tauto.
  - split; [intros s; apply elem_of_zrange|]. split; [apply NoDup_zrange|].
    split; [apply NoDup_nil_2|]. split; [|by intros h ?%elem_of_nil].
    intros s. split; [by intros ?%elem_of_nil|]. intros [Hs Hn]. destruct Hn. apply elem_of_zrange.
    by apply (si_live _ _ Hsl).
  - exists hs. split; [done|]. split; [done|]. split; [|done]. intros s. rewrite Hmem.
    split; [tauto|]. intros Hs. split; [done|]. by intros ?%elem_of_nil.
Qed.

(** A live handle's entry names its cell. *)
Lemma dump_entry_ok h :
  h_index h ∈ dom A → zget (CellStore.generations st) (h_index h) = Some (h_generation h) →
  ∃ row e, CellStore.get st h = Some (Some row) ∧ dump_entry st row = Some e ∧
    cell_at st A Mr Mn (h_index h) (dump_cell e).1 (cd_count e) ∧ is_Some (cd_origin_node_id e) ∧
    ∃ d, Mr !! ck_rule (cr_key row) = Some d ∧ cd_applies_locally e = applies_locally d ∧
      cd_rule_limit e = limit d.
Proof using Hi.
  intros HA Hg. pose proof Hi as [Hsl Hrows Hd Hl Hcs HV]. pose proof HA as [k Hk]%elem_of_dom.
  destruct (wi_key _ _ Hrows _ _ Hk) as [Hs Hka].
  destruct (zget_in_range (CellStore.counts st) (h_index h)) as [c Hc]; [by rewrite (si_counts _ _ Hsl)|].
  destruct (zget_in_range (CellStore.last_update_millis st) (h_index h)) as [u Hu];
    [by rewrite (si_updates _ _ Hsl)|].
  destruct (zget_in_range (CellStore.origin_sequences st) (h_index h)) as [q Hq];
    [by rewrite (si_sequences _ _ Hsl)|].
  unfold CellStore.get. destruct h as [s g]. simpl in *.
  rewrite (resolve_ok _ _ _ _ Hsl HA Hg). cbn [mbind option_bind]. rewrite Hka. cbn [mbind option_bind].
  rewrite Hc. cbn [mbind option_bind]. rewrite Hu. cbn [mbind option_bind]. rewrite Hq.
  cbn [mbind option_bind].
  destruct (ti_cells _ _ _ _ _ Hd s k Hk) as ([dr Hdr] & dn & Hdn & Hinc).
  pose proof (refs_pos ck_rule A s k _ Hk eq_refl) as Hrp.
  pose proof (refs_pos ck_origin A s k _ Hk eq_refl) as Hnp.
  eexists _, _. split; [done|]. unfold dump_entry. simpl.
  unfold RuleDictionary.descriptor, NodeDictionary.descriptor.
  rewrite (dict_descriptor_ok _ _ _ _ (ti_rules _ _ _ _ _ Hd) _ _ (ti_rule_refs _ _ _ _ _ Hd _ _ Hdr)).
  cbn [mbind option_bind].
  rewrite (dict_descriptor_ok _ _ _ _ (ti_nodes _ _ _ _ _ Hd) _ _ (ti_node_refs _ _ _ _ _ Hd _ _ Hdn)).
  cbn [mbind option_bind].
  replace (0 <? refs ck_rule A (ck_rule k) + _) with true by (case_decide; lia).
  replace (0 <? refs ck_origin A (ck_origin k) + _) with true by (case_decide; lia).
  rewrite Hdr, Hdn. split; [reflexivity|]. split.
  - by exists k, dr, dn.
  - split; [done|]. by exists dr.
Qed.

Lemma dump_rows_ok hs :
  (∀ h, h ∈ hs → h_index h ∈ dom A ∧
     zget (CellStore.generations st) (h_index h) = Some (h_generation h)) →
  ∃ cells, for_each hs [] (λ cells h,
      row ← CellStore.get st h;
      match row with
      | None => Some cells
      | Some row => e ← dump_entry st row; Some (cells ++ [e])
      end) = Some cells ∧
    Forall2 (λ h e, cell_at st A Mr Mn (h_index h) (dump_cell e).1 (cd_count e)) hs cells ∧
    Forall (λ e, is_Some (cd_origin_node_id e)) cells.
Proof using Hi.
  intros Hhs.
  destruct (for_each_inv (λ todo cells, (∀ h, h ∈ todo → h ∈ hs) ∧ ∃ done, hs = done ++ todo ∧
      Forall2 (λ h e, cell_at st A Mr Mn (h_index h) (dump_cell e).1 (cd_count e)) done cells ∧
      Forall (λ e, is_Some (cd_origin_node_id e)) cells)
    hs [] (λ cells h,
      row ← CellStore.get st h;
      match row with
      | None => Some cells
      | Some row => e ← dump_entry st row; Some (cells ++ [e])
      end)) as (cells & He & _ & done & Heq & Hf & Hs).
  - intros h todo cells (Hin & done & Heq & Hf & Hs).
    destruct (Hhs h) as [HA Hg]; [apply Hin, elem_of_cons; by left|].
    destruct (dump_entry_ok h HA Hg) as (row & e & -> & He & Hcell & Ho & _). cbn [mbind option_bind].
    rewrite He. cbn [mbind option_bind]. eexists. split; [done|].
    split; [intros h' ?; apply Hin, elem_of_cons; by right|].
    exists (done ++ [h]). split; [by rewrite <- app_assoc|]. split.
    + apply Forall2_app; [done|]. by constructor.
    + apply Forall_app_2; [done|]. by apply Forall_singleton.
  - split; [done|]. exists []. split_and!; constructor.
  - exists cells. split; [done|]. rewrite app_nil_r in Heq. by rewrite Heq.
Qed.

(** Entries of distinct cells list the contents. *)
Lemma dump_contents hs cells :
  NoDup (h_index <$> hs) → (∀ s, s ∈ h_index <$> hs ↔ s ∈ dom A) →
  Forall2 (λ h e, cell_at st A Mr Mn (h_index h) (dump_cell e).1 (cd_count e)) hs cells →
  dump_cell <$> cells ≡ₚ map_to_list V.
Proof using Hi.
  intros Hnd Hmem Hf. pose proof Hi as [Hsl Hrows Hd Hl Hcs HV].
  apply NoDup_Permutation; [|apply NoDup_map_to_list|].
  - apply NoDup_alt. intros i j x (e1 & -> & He1)%list_lookup_fmap_Some (e2 & Heq & He2)%list_lookup_fmap_Some.
    destruct (Forall2_lookup_r _ _ _ _ _ Hf He1) as (h1 & Hh1 & Hc1).
    destruct (Forall2_lookup_r _ _ _ _ _ Hf He2) as (h2 & Hh2 & Hc2).
    rewrite NoDup_alt in Hnd. apply (Hnd i j (h_index h1)).
    + by rewrite list_lookup_fmap, Hh1.
    + rewrite list_lookup_fmap, Hh2. simpl. f_equal. symmetry.
      rewrite <- Heq in Hc2. by eapply (cell_at_name st A Mr Mn pins).
  - intros [n c]. rewrite elem_of_map_to_list. split.
    + intros (e & [= -> ->] & [i He]%list_elem_of_lookup)%list_elem_of_fmap.
      destruct (Forall2_lookup_r _ _ _ _ _ Hf He) as (h & _ & Hc). apply HV. by exists (h_index h).
    + intros (s & Hc)%HV. pose proof Hc as (k & dr & dn & Hk & _).
      assert (s ∈ h_index <$> hs) as (h & -> & [i Hh]%list_elem_of_lookup)%list_elem_of_fmap
        by (apply Hmem, elem_of_dom; eauto).
      destruct (Forall2_lookup_l _ _ _ _ _ Hf Hh) as (e & He & Hc2).
      apply list_elem_of_fmap. exists e. split; [|by eapply list_elem_of_lookup_2].
      destruct Hc as (k1 & dr1 & dn1 & Hk1 & Hr1 & Hn1 & -> & Hc1).
      destruct Hc2 as (k2 & dr2 & dn2 & Hk2 & Hr2 & Hn2 & Hname & Hcc).
      rewrite (surjective_pairing (dump_cell e)), Hname. simpl. simplify_eq. done.
Qed.
End dump.
