(* ===== verification/RuntimeInv.v ===== *)
(** * The gossip event loop: invariant and handlers

    What holds between two iterations of the loop ([rt_inv]), and for each
    handler: it does not panic, keeps the invariant, and its effect on the
    store's contents and on the two row channels is the stated one. *)

From S2P Require Import Prelude Types Hash Index Freelist Dictionary DirtyRing PeerFrontier IO CellStore CellSlots CellInv CellOps CellMerge CellExpire GossipFrame CellTyped StoreSpec Bytes WireHeader WireBody WirePlan WireCodec Wire WireTyped Exchange DashMap Mirror Runtime RuntimeSend.
Import GossipRuntime.

(** The settings are values of their types, and the payload limit fits the
    header's length field. *)
Record config_wf (c : GossipConfig) : Prop := {
  cw_cluster : uint 128 (gc_cluster_id_hash c);
  cw_fanout : 0 ≤ gc_fanout c;
  cw_tick : 0 ≤ gc_max_cells_per_tick c;
  cw_payload : 0 ≤ max_payload_bytes (gc_wire_limits c) ≤ U32_MAX;
  cw_cells : 0 ≤ max_cells (gc_wire_limits c);
  cw_bps : uint 32 (gc_target_err_bps c);
}.

(** [node_id] and [peer_slot] are set together, and the slot is one of the
    frontier table. *)
Definition peer_ok (K : Z) (p : Peer) : Prop :=
  match p_node_id p, p_peer_slot p with
  | None, None => True
  | Some _, Some s => 0 ≤ s < K
  | _, _ => False
  end.

Section runtime.
Context {C : Count} {CL : CountLaws C} (hmac : list Z → list Z → list Z).
Context (hmac_len : tags_ok hmac).
Context {S : Type} `{AggregateStore S} (L : gset Z) (K : Z).
Implicit Types (self : t S).

(** A store of the runtime: well formed with contents [V], and typed. *)
Record store_inv (st : CellStore.t) (V : gmap CellName Z) : Prop := {
  so_inv : inv_on (Some L) st V;
  so_cols : cols_typed K st;
  so_names n c : V !! n = Some c → name_typed n;
  so_node : uint 128 (node_id (CellStore.local_identity st));
  so_inc : uint 32 (ni_incarnation (CellStore.local_identity st));
}.

Record rt_inv (self : t S) (V : gmap CellName Z) : Prop := {
  ri_config : config_wf (config self);
  ri_store : store_inv (store self) V;
  ri_scratch : scratch_for (store self) (scratch self);
  ri_recv : Forall byte (recv_buf self);
  ri_recv_len : zlen (recv_buf self) = max_payload_bytes (gc_wire_limits (config self));
  ri_pool : pool_inv hmac (config self) (CellStore.local_identity (store self))
              (send_pool self) (send_pending self) (send_free self);
  ri_peers : Forall (peer_ok K) (peers self);
  ri_pending : zlen (rule_pending self) = Dict.capacity (CellStore.rule_dictionary (store self));
  ri_emit : zlen (rule_last_emit_ms self) = Dict.capacity (CellStore.rule_dictionary (store self));
  ri_pending_typed : Forall (uint 32) (rule_pending self);
}.

Lemma store_inv_inv st V : store_inv st V → inv st V.
Proof using. intros []. by eapply inv_on_inv. Qed.

Lemma store_inv_typed st V : store_inv st V → store_typed st V.
Proof using. intros [_ [] ? _ _]. by split. Qed.

Lemma scratch_for_stable st st' sc : stable st st' → scratch_for st sc → scratch_for st' sc.
Proof using. unfold scratch_for. intros [_ _ _ Hr Hn]. by rewrite Hr, Hn. Qed.

Lemma store_inv_step st V st' V' :
  store_inv st V → inv_on (Some L) st' V' → cols_typed K st' → stable st st' →
  (∀ n c, V' !! n = Some c → name_typed n) → store_inv st' V'.
Proof using.
  intros [_ _ _ Hn Hi] Hi' Hc Hst Hnames. by split; rewrite ?(st_identity _ _ Hst).
Qed.

(** ** Encoding a frame *)
Definition with_send self st fh sc pool pending free : t S :=
  self <| store := st |> <| frame_handles := fh |> <| scratch := sc |> <| send_pool := pool |>
       <| send_pending := pending |> <| send_free := free |>.

Lemma packets_init self V packets :
  rt_inv self V → Forall (λ h, 0 ≤ h_index h) (frame_handles self) →
  zlen (frame_handles self) ≤ U32_MAX →
  Packets_new (outbound_header self) (frame_handles self) (gc_auth_key (config self))
    (scratch self) (gc_wire_limits (config self)) = inl packets →
  packets_ok (store self) packets ∧ pk_header packets = outbound_header self ∧
  pk_key packets = gc_auth_key (config self) ∧ pk_limits packets = gc_wire_limits (config self) ∧
  pk_handles packets = frame_handles self ∧ pk_cursor packets = 0.
Proof using.
  intros Hi Hh Hl. unfold Packets_new. destruct (_ <? _) eqn:E; [done|]. bool_solve.
  intros [= <-]. split; [|done].
  pose proof (cw_payload _ (ri_config _ _ Hi)). destruct (ri_store _ _ Hi) as [_ _ _ Hn Hinc].
  split; simpl; try done; try lia.
  - apply Hi.
  - pose proof (cw_cluster _ (ri_config _ _ Hi)). unfold header_ok, outbound_header, uint in *. simpl.
    split_and!; lia.
  - pose proof (zlen_nonneg (frame_handles self)). lia.
Qed.

Lemma pool_inv_queue c id pool pending free0 dst pool' free slots ps :
  pool_inv hmac c id pool pending free0 → free0 = free ++ reverse slots →
  zlen pool' = zlen pool → (∀ s, s ∉ free0 → zget pool' s = zget pool s) →
  holds pool' slots ps → Forall (λ p, valid_packet hmac c id p.1) ps →
  pool_inv hmac c id pool' (pending ++ ((λ s, (dst, s)) <$> slots)) free.
Proof using.
  intros Hp Hf Hl Hsame Hh Hv. pose proof (pl_nodup _ _ _ _ _ _ Hp) as Hnd. destruct Hp as [Hs Hpl Hk].
  split; [|lia|].
  - rewrite <- Hs, Hf, fmap_app, <- list_fmap_compose, list_fmap_id.
    rewrite (reverse_Permutation slots), <- app_assoc.
    by rewrite (Permutation_app_comm slots).
  - intros d s [Hin|Hin]%elem_of_app.
    + destruct (Hk d s Hin) as (buf & Hb & Hv'). exists buf. split; [|done].
      rewrite Hsame; [done|]. intros Hsf. apply NoDup_app in Hnd as (_ & Hd & _).
      apply (Hd s Hsf). apply list_elem_of_fmap. by exists (d, s).
    + apply list_elem_of_fmap in Hin as (s' & [= -> ->] & Hin).
      apply list_elem_of_lookup in Hin as [i Hi].
      destruct (Forall2_lookup_l _ _ _ _ _ Hh Hi) as (p & Hpi & buf & Hb & Heq & _).
      exists buf. split; [done|]. rewrite Heq. rewrite Forall_lookup in Hv. by apply (Hv i).
Qed.

(** What encoding a frame adds to the queue: the packets of its stream, one
    slot each, the whole frame unless the pool ran out. *)
Definition queued self V (dst : SocketAddr) (frame : list CellHandle) (st : CellStore.t)
    (pool : list PacketBuf) (pending : list (SocketAddr * Z)) (free : list Z) : Prop :=
  ∃ slots ps, pending = send_pending self ++ ((λ s, (dst, s)) <$> slots) ∧
    send_free self = free ++ reverse slots ∧ holds pool slots ps ∧
    (min_payload_bytes count_size (auth_overhead (gc_auth_key (config self))) ≤
       max_payload_bytes (gc_wire_limits (config self)) →
     ∃ packets parts rest, pk_key packets = gc_auth_key (config self) ∧
       pk_limits packets = gc_wire_limits (config self) ∧ stream_ok hmac st V packets ps parts ∧
       frame = concat parts.*1 ++ rest ∧ (rest = [] ∨ free = [])).

Lemma encode_packets_for_ok self V dst :
  rt_inv self V → Forall (λ h, 0 ≤ h_index h) (frame_handles self) →
  zlen (frame_handles self) ≤ U32_MAX →
  ∃ sc pool pending free,
    encode_packets_for hmac self dst =
      Some (with_send self (store self) (frame_handles self) sc pool pending free) ∧
    rt_inv (with_send self (store self) (frame_handles self) sc pool pending free) V ∧
    queued self V dst (frame_handles self) (store self) pool pending free.
Proof using CL hmac_len.
  intros Hi Hh Hl. unfold encode_packets_for.
  assert ((match gc_auth_key (config self) with
    | Some key => auth (outbound_header self) (frame_handles self) key (scratch self)
                    (gc_wire_limits (config self))
    | None => unauth (outbound_header self) (frame_handles self) (scratch self)
                (gc_wire_limits (config self)) end) =
    Packets_new (outbound_header self) (frame_handles self) (gc_auth_key (config self))
      (scratch self) (gc_wire_limits (config self))) as -> by (by destruct (gc_auth_key _)).
  destruct (Packets_new _ _ _ _ _) as [packets|] eqn:Ep.
  2:{ exists (scratch self), (send_pool self), (send_pending self), (send_free self).
      unfold with_send. split; [by destruct self|]. split; [destruct Hi; by split|].
      exists [], []. rewrite !app_nil_r. split_and!; [done..|constructor|].
      intros Hmin. unfold Packets_new in Ep. destruct (_ <? _) eqn:E in Ep; [bool_solve; lia|done]. }
  destruct (packets_init self V packets Hi Hh Hl Ep) as (Hok & Hhd & Hkey & Hlim & Hhs & Hcur).
  pose proof (ri_pool _ _ Hi) as Hp. pose proof (store_inv_typed _ _ (ri_store _ _ Hi)) as Hty.
  pose proof (store_inv_inv _ _ (ri_store _ _ Hi)) as Hinv.
  destruct (encode_loop_ok hmac hmac_len V (Datatypes.S (length (send_free self))) self dst packets)
    as (packets' & pool & free & slots & ps & parts & rest & -> & Hok' & Hf & Hpl & Hsame & Hst &
        Hhold & Hcat & Hfin); try done.
  { pose proof (pl_nodup _ _ _ _ _ _ Hp) as Hnd. by apply NoDup_app in Hnd as [? _]. }
  { intros s Hs. eapply pl_range; [exact Hp|]. apply elem_of_app. by left. }
  { lia. }
  cbn [mbind option_bind].
  eexists (pk_scratch packets'), pool, _, free. split; [unfold with_send; by destruct self|].
  split.
  - destruct Hi. unfold with_send. split; try done; simpl; [apply Hok'|].
    eapply pool_inv_queue; try done. clear -Hst Hhd Hkey Hlim Hhold. revert slots Hhold.
    induction Hst as [|p part ps parts (_ & more & Hp) _ IH]; intros slots Hhold; constructor;
      inversion Hhold as [|slot ? slots' ? (buf & _ & _ & Hb)]; subst; [by eapply packet_valid|by eapply IH].
  - exists slots, ps. split_and!; try done. intros _. exists packets, parts, rest. split_and!; try done.
    rewrite Hcur, drop_0, Hhs in Hcat. exact Hcat.
Qed.

(** ** Frames *)
Lemma frame_for_ok st V p max :
  store_inv st V → 0 ≤ max → peer_ok K p →
  ∃ A Mr Mn pins v st' handles,
    match p_peer_slot p with
    | Some slot => CellStore.fill_gossip_frame_for_peer st max slot
    | None => CellStore.fill_gossip_frame st max
    end = Some (st', handles) ∧
    inv_at st A Mr Mn pins V ∧ frame_post st A Mr Mn pins V max st' handles v ∧
    store_inv st' V ∧ stable st st' ∧ Forall (λ h, 0 ≤ h_index h) handles ∧
    zlen handles ≤ U32_MAX.
Proof using.
  intros Hs Hmax Hp. pose proof Hs as [(A & Mr & Mn & pins & Hi & Henf) Hc Hn _ _].
  assert (∃ st' handles v,
    match p_peer_slot p with
    | Some slot => CellStore.fill_gossip_frame_for_peer st max slot
    | None => CellStore.fill_gossip_frame st max
    end = Some (st', handles) ∧ frame_post st A Mr Mn pins V max st' handles v)
    as (st' & handles & v & He & Hf).
  { unfold peer_ok in Hp. destruct (p_peer_slot p) as [slot|]; [|by apply fill_gossip_frame_ok].
    destruct (p_node_id p); [|done]. unfold CellStore.fill_gossip_frame_for_peer.
    destruct (fill_frame_ok st A Mr Mn pins V Hi (λ st i, CellStore.peer_lacks st slot i) max Hmax)
      as (st' & handles & v & ? & ?); [|by exists st', handles, v].
    intros ms e s HsA. eapply peer_lacks_ok; [exact Hi| |done]. by rewrite (ct_peers _ _ Hc). }
  pose proof (fp_stable _ _ _ _ _ _ _ _ _ _ Hf) as Hst.
  pose proof (fp_inv _ _ _ _ _ _ _ _ _ _ Hf) as Hi'.
  exists A, Mr, Mn, pins, v, st', handles. split; [done|]. split; [done|]. split; [done|].
  split; [|split; [done|split]].
  - eapply store_inv_step; [exact Hs| |by eapply frame_typed|done|done]. by exists A, Mr, Mn, pins.
  - apply Forall_forall. intros h Hh. destruct (fp_current _ _ _ _ _ _ _ _ _ _ Hf h Hh) as [HL _].
    by apply (si_live _ _ (iv_slots _ _ _ _ _ _ Hi)) in HL as [? _].
  - pose proof (frame_length _ _ _ _ _ _ _ _ _ _ Hi Hf).
    pose proof (iv_slots _ _ _ _ _ _ Hi) as Hsl. pose proof (si_cap _ _ Hsl).
    assert (Z.of_nat (size (dom A)) ≤ CellStore.capacity st).
    { apply set_size_le_range; [lia|]. intros s Hs'. by apply (si_live _ _ Hsl). }
    rewrite (si_active _ _ Hsl) in *. unfold U32_MAX. lia.
Qed.

Lemma with_send_inv self V st fh :
  rt_inv self V → store_inv st V → stable (store self) st →
  rt_inv (self <| store := st |> <| frame_handles := fh |>) V.
Proof using.
  intros Hi Hs Hst. pose proof Hst as [_ Hid _ Hrc _]. destruct Hi. split; simpl; try done.
  - by eapply scratch_for_stable.
  - by rewrite Hid.
  - by rewrite Hrc.
  - by rewrite Hrc.
Qed.

(** One picked peer changes nothing but the store's lanes and the pool. *)
Lemma gossip_to_ok self V i :
  rt_inv self V → 0 ≤ i < zlen (peers self) →
  ∃ b st fh sc pool pending free,
    gossip_to hmac self i = Some (with_send self st fh sc pool pending free, b) ∧
    rt_inv (with_send self st fh sc pool pending free) V ∧ stable (store self) st.
Proof using CL hmac_len.
  intros Hi Hr. unfold gossip_to. case_bool_decide as Hf.
  { exists false, (store self), (frame_handles self), (scratch self), (send_pool self),
      (send_pending self), (send_free self). unfold with_send.
    split; [by destruct self|]. split; [|done]. destruct Hi. by split. }
  destruct (zget_in_range _ _ Hr) as [p Hp]. rewrite Hp. cbn [mbind option_bind].
  pose proof (ri_peers _ _ Hi) as Hps. rewrite Forall_forall in Hps.
  destruct (frame_for_ok (store self) V p (gc_max_cells_per_tick (config self)))
    as (A & Mr & Mn & pins & v & st' & handles & -> & _ & _ & Hs & Hst & Hh & Hl);
    [apply Hi|apply (ri_config _ _ Hi)|by eapply Hps, zget_elem_of|].
  cbn [mbind option_bind].
  pose proof (with_send_inv self V st' handles Hi Hs Hst) as Hi1.
  set (self1 := self <| store := st' |> <| frame_handles := handles |>) in *.
  case_bool_decide.
  { by exists true, st', handles, (scratch self), (send_pool self), (send_pending self), (send_free self). }
  destruct (encode_packets_for_ok self1 V (addr p) Hi1 Hh Hl)
    as (sc & pool & pending & free & -> & Hi2 & _). cbn [mbind option_bind].
  by exists true, st', handles, sc, pool, pending, free.
Qed.

(** ** Picking peers *)
Lemma insert_cons_delete {A} (l : list A) i y :
  (i < length l)%nat → <[i := y]> l ≡ₚ y :: delete i l.
Proof using.
  revert i. induction l as [|x l IH]; intros [|i] Hi; simpl in *; try lia; [done|].
  change (x :: <[i := y]> l ≡ₚ y :: x :: delete i l). rewrite IH by lia. constructor.
Qed.

Lemma swap_ok {A} (l : list A) i j :
  0 ≤ i < zlen l → 0 ≤ j < zlen l → ∃ l', swap l i j = Some l' ∧ l' ≡ₚ l.
Proof using.
  intros Hi Hj. unfold swap.
  destruct (zget_in_range l i Hi) as [x Hx]. destruct (zget_in_range l j Hj) as [y Hy].
  rewrite Hx, Hy. cbn [mbind option_bind]. rewrite zset_ok by done. cbn [mbind option_bind].
  rewrite zset_ok by (by rewrite zlen_zupd). eexists. split; [done|].
  rewrite zget_lookup in Hx, Hy by lia. unfold zupd.
  replace (0 <=? i) with true by lia. replace (0 <=? j) with true by lia.
  unfold zlen in *. set (m := <[Z.to_nat i := y]> l).
  assert (length m = length l) as Hlm by apply length_insert.
  assert (m !! Z.to_nat j = Some y) as Hmj.
  { unfold m. rewrite list_lookup_insert. case_decide; [done|]. done. }
  pose proof (delete_Permutation _ _ _ Hmj) as H1.
  pose proof (insert_cons_delete l (Z.to_nat i) y ltac:(lia)) as H2. fold m in H2.
  assert (delete (Z.to_nat j) m ≡ₚ delete (Z.to_nat i) l) as H3.
  { apply (Permutation_cons_inv (a := y)). by rewrite <- H1, H2. }
  rewrite insert_cons_delete by lia. rewrite H3. symmetry. by apply delete_Permutation.
Qed.

Lemma pick_peers_ok ps g k :
  0 ≤ k ≤ zlen ps → zlen ps ≤ 2 ^ 50 →
  ∃ ps' g', pick_peers (zlen ps) k ps g = Some (ps', g') ∧ ps' ≡ₚ ps.
Proof using.
  intros Hk Hn. unfold pick_peers.
  destruct (for_each_inv (λ todo st, (∀ i, i ∈ todo → 0 ≤ i < zlen ps) ∧ st.1 ≡ₚ ps)
    (zrange 0 k) (ps, g) (shuffle_step (zlen ps))) as ([ps' g'] & He & _ & Hp).
  - intros i todo [ps1 g1] [Hr Hp]. simpl in Hp. unfold shuffle_step.
    destruct (SplitMix64.next_u64 g1) as [g2 r].
    assert (0 ≤ i < zlen ps) as Hi by (apply Hr, elem_of_cons; by left).
    rewrite checked_ok by lia. cbn [mbind option_bind].
    replace (zlen ps - i =? 0) with false by lia.
    pose proof (Z.mod_pos_bound r (zlen ps - i) ltac:(lia)).
    rewrite checked_ok by lia. cbn [mbind option_bind].
    assert (zlen ps1 = zlen ps) as Hl by (unfold zlen; by rewrite (Permutation_length Hp)).
    destruct (swap_ok ps1 i (i + r mod (zlen ps - i))) as (ps2 & -> & Hp2); [lia..|].
    cbn [mbind option_bind]. eexists. split; [done|]. split; [|simpl; by rewrite Hp2].
    intros i' ?. apply Hr, elem_of_cons. by right.
  - split; [|done]. intros i Hi%elem_of_zrange. lia.
  - by exists ps', g'.
Qed.

(** ** The sweep after an emission *)
Lemma reset_pending_ok self stamp :
  zlen (rule_last_emit_ms self) = zlen (rule_pending self) →
  ∃ pending last, reset_pending self stamp =
      Some (self <| rule_pending := pending |> <| rule_last_emit_ms := last |>) ∧
    zlen pending = zlen (rule_pending self) ∧ zlen last = zlen (rule_pending self) ∧
    ∀ i v, zget (rule_pending self) i = Some v →
      zget pending i = Some 0 ∧
      zget last i = if v =? 0 then zget (rule_last_emit_ms self) i else Some stamp.
Proof using.
  intros Hl. unfold reset_pending.
  destruct (for_each_inv (λ todo st, (∀ i, i ∈ todo → 0 ≤ i < zlen (rule_pending self)) ∧ NoDup todo ∧
      zlen st.1 = zlen (rule_pending self) ∧ zlen st.2 = zlen (rule_pending self) ∧
      ∀ i v, zget (rule_pending self) i = Some v →
        if decide (i ∈ todo) then zget st.1 i = Some v ∧ zget st.2 i = zget (rule_last_emit_ms self) i
        else zget st.1 i = Some 0 ∧
             zget st.2 i = if v =? 0 then zget (rule_last_emit_ms self) i else Some stamp)
    (zrange 0 (zlen (rule_pending self))) (rule_pending self, rule_last_emit_ms self)
    (λ '(pending, last) slot,
      v ← zget pending slot;
      if v =? 0 then Some (pending, last) else
      pending ← zset pending slot 0;
      last ← zset last slot stamp;
      Some (pending, last))) as ([pending last] & -> & _ & _ & Hlp & Hll & Hv).
  - intros i todo [pending last] (Hr & [Hni Hnd]%NoDup_cons & Hlp & Hll & Hv). simpl in Hlp, Hll, Hv.
    assert (0 ≤ i < zlen (rule_pending self)) as Hi by (apply Hr, elem_of_cons; by left).
    assert (∀ i', i' ∈ todo → 0 ≤ i' < zlen (rule_pending self)) as Hr'
      by (intros i' ?; apply Hr, elem_of_cons; by right).
    destruct (zget_in_range _ _ Hi) as [v Hvi]. pose proof (Hv i v Hvi) as Hh.
    rewrite decide_True in Hh by (apply elem_of_cons; by left). destruct Hh as [Hp Hlast].
    rewrite Hp. cbn [mbind option_bind]. destruct (v =? 0) eqn:E; bool_solve.
    + eexists. split; [done|]. split; [done|]. split; [done|]. split; [done|]. split; [done|].
      intros i' v' Hv'. specialize (Hv i' v' Hv'). destruct (decide (i' = i)) as [->|Hne].
      * rewrite decide_False by done. simpl. rewrite Hvi in Hv'. injection Hv' as <-.
        rewrite E. simpl. by rewrite Hp, E.
      * rewrite (decide_ext (i' ∈ todo) (i' ∈ i :: todo)); [done|]. rewrite elem_of_cons. tauto.
    + rewrite !zset_ok by lia. cbn [mbind option_bind]. eexists. split; [done|].
      split; [done|]. split; [done|]. simpl. rewrite !zlen_zupd. split; [done|]. split; [done|].
      intros i' v' Hv'. specialize (Hv i' v' Hv'). rewrite !zget_zupd by lia.
      destruct (decide (i = i')) as [<-|Hne].
      * rewrite decide_False by done. rewrite Hvi in Hv'. injection Hv' as <-.
        by replace (v =? 0) with false by lia.
      * rewrite (decide_ext (i' ∈ todo) (i' ∈ i :: todo)); [done|]. rewrite elem_of_cons.
        split; [tauto|]. intros [->|?]; done.
  - split; [intros i; apply elem_of_zrange|]. split; [apply NoDup_zrange|]. split; [done|]. split; [done|].
    intros i v Hv. rewrite decide_True; [done|]. apply elem_of_zrange. by eapply zget_Some_range.
  - cbn [mbind option_bind]. exists pending, last. split; [done|]. split; [done|]. split; [done|].
    intros i v Hvi. specialize (Hv i v Hvi). rewrite decide_False in Hv by (by intros ?%elem_of_nil). done.
Qed.
End runtime.
