(* ===== verification/RuntimeStep.v ===== *)
(** * The gossip event loop: one iteration

    Each handler, then the apply and the acknowledgement at the bottom of the
    loop, keep the invariant; the aggregate store mirrors the contents of the
    cell store between iterations. *)

From S2P Require Import Prelude Types Hash Index Freelist Dictionary DirtyRing PeerFrontier IO CellStore CellSlots CellInv CellOps CellMerge CellExpire GossipFrame CellTyped StoreSpec Bytes WireHeader WireBody WirePlan WireCodec Wire WireTyped Exchange DashMap Mirror Runtime RuntimeSend RuntimeInv.
Import GossipRuntime.

(** An observation with values of its types. *)
Definition obs_typed (o : Observation) : Prop :=
  name_typed (remote_name o) ∧ uint 64 (o_last_update_millis o).

Definition request_typed (r : LimitRequest) : Prop :=
  uint 128 (lr_rule_fingerprint r) ∧ uint 128 (lr_key_hash r) ∧ uint 32 (lr_bucket r) ∧
  uint 64 (lr_hits r) ∧ uint 64 (lr_rule_limit r) ∧ uint 64 (lr_now_millis r).

(** Names come from the contents or from the batch. *)
Lemma raise_all_names {C : Count} mode name obs : ∀ V n c,
  raise_all mode name V obs !! n = Some c → is_Some (V !! n) ∨ ∃ o, o ∈ obs ∧ name o = n.
Proof.
  induction obs as [|o obs IH]; intros V n c Hn; [left; by eexists|].
  apply IH in Hn as [[c' Hc]|(o' & Ho & Hn)].
  - unfold raise in Hc. apply lookup_insert_Some in Hc as [[<- _]|[_ Hc]]; [|left; by eexists].
    right. exists o. split; [by left|done].
  - right. exists o'. split; [by right|done].
Qed.

Section step.
Context {C : Count} {CL : CountLaws C} (hmac : list Z → list Z → list Z).
Context (hmac_len : tags_ok hmac).
Context {S : Type} `{AggregateStore S} (L : gset Z) (K : Z).
Implicit Types (self : t S).

Abbreviation rt_inv := (rt_inv hmac L K).
Abbreviation store_inv := (store_inv L K).

(** What every handler leaves alone. *)
Record outside (self self' : t S) : Prop := {
  od_config : config self' = config self;
  od_aggregates : aggregates self' = aggregates self;
  od_stable : stable (store self) (store self');
}.

(** ** Limit requests *)
Lemma error_budget_ok self limit :
  zlen (peers self) ≤ 2 ^ 50 → 0 ≤ limit → config_wf (config self) →
  ∃ e, error_budget self limit = Some e ∧ 1 ≤ e.
Proof using.
  intros Hp Hl Hc. unfold error_budget. pose proof (zlen_nonneg (peers self)).
  rewrite checked_ok by lia. cbn [mbind option_bind]. eexists. split; [done|]. lia.
Qed.

(** What the threshold bookkeeping does, exactly. *)
Lemma note_pending_ok self V env req :
  rt_inv self V → zlen (peers self) ≤ 2 ^ 50 → request_typed req →
  ∃ column budget want,
    note_pending self env req =
      Some (self <| rule_pending := column |> <| last_error_budget := budget |>
                 <| want_immediate_flush := want |>) ∧
    zlen column = zlen (rule_pending self) ∧ Forall (uint 32) column ∧
    match CellStore.find_rule (store self) (lr_rule_fingerprint req) with
    | Some (Some idx) => ∃ cur e last,
        zget (rule_pending self) idx = Some cur ∧ error_budget self (lr_rule_limit req) = Some e ∧
        zget (rule_last_emit_ms self) idx = Some last ∧
        column = zupd (rule_pending self) idx (Z.min (cur + lr_hits req) U32_MAX) ∧ budget = e ∧
        want = want_immediate_flush self ||
          ((e <? Z.min (cur + lr_hits req) U32_MAX) &&
           ((last =? 0) || (as_u64 (as_millis (gc_min_emit_interval (config self)))
                             <=? saturating_sub (now_millis env) last)))
    | _ => column = rule_pending self ∧ budget = last_error_budget self ∧
           want = want_immediate_flush self
    end.
Proof using.
  intros Hi Hp (_ & _ & _ & Hh & Hl & _). unfold note_pending.
  destruct (so_inv _ _ _ _ (ri_store _ _ _ _ _ Hi)) as (A & Mr & Mn & pins & Hat & _).
  pose proof (ti_rules _ _ _ _ _ (iv_dicts _ _ _ _ _ _ Hat)) as Hrd.
  destruct (dict_find_ok _ _ _ _ Hrd (lr_rule_fingerprint req)) as (r & Hf & Hr).
  unfold CellStore.find_rule, RuleDictionary.find. rewrite Hf. cbn [mbind option_bind].
  destruct r as [idx|].
  2:{ exists (rule_pending self), (last_error_budget self), (want_immediate_flush self).
      split; [by destruct self|]. split; [done|]. split; [apply Hi|done]. }
  destruct Hr as (d & Hd & _). destruct (di_live _ _ _ _ Hrd _ _ Hd) as [Hx _].
  assert (0 ≤ idx < zlen (rule_pending self)) as Hidx by (rewrite (ri_pending _ _ _ _ _ Hi); lia).
  assert (0 ≤ idx < zlen (rule_last_emit_ms self)) as Hidx' by (rewrite (ri_emit _ _ _ _ _ Hi); lia).
  destruct (zget_in_range _ _ Hidx) as [cur Hcur]. rewrite Hcur. cbn [mbind option_bind].
  rewrite zset_ok by done. cbn [mbind option_bind].
  destruct (zget_in_range _ _ Hidx') as [last Hlast].
  pose proof (ri_pending_typed _ _ _ _ _ Hi) as Hty.
  assert (uint 32 cur) as Hc32 by (rewrite Forall_forall in Hty; by eapply Hty, zget_elem_of).
  assert (saturating_add 32 cur (as_u32 (Z.min (lr_hits req) U32_MAX)) =
          Z.min (cur + lr_hits req) U32_MAX) as ->.
  { unfold saturating_add, as_u32, U32_MAX, uint in *. rewrite Z.mod_small by lia. lia. }
  set (p := Z.min (cur + lr_hits req) U32_MAX).
  match goal with |- context [error_budget ?x _] => change (error_budget x (lr_rule_limit req))
    with (error_budget self (lr_rule_limit req)) end.
  destruct (error_budget_ok self (lr_rule_limit req) Hp) as (e & He & _);
    [unfold uint in Hl; lia|apply Hi|]. rewrite He. cbn [mbind option_bind].
  assert (Forall (uint 32) (zupd (rule_pending self) idx p)) as Hcol.
  { unfold zupd. case_match; [|done]. apply Forall_insert; [done|].
    unfold p, uint, U32_MAX in *. lia. }
  assert (zlen (zupd (rule_pending self) idx p) = zlen (rule_pending self)) as Hlen by apply zlen_zupd.
  assert (∃ want, (if e <? p then
      last ← zget (rule_last_emit_ms (self <| rule_pending := zupd (rule_pending self) idx p |>
                                           <| last_error_budget := e |>)) idx;
      if (last =? 0) || (as_u64 (as_millis (gc_min_emit_interval (config self)))
                          <=? saturating_sub (now_millis env) last)
      then Some (self <| rule_pending := zupd (rule_pending self) idx p |>
                      <| last_error_budget := e |> <| want_immediate_flush := true |>)
      else Some (self <| rule_pending := zupd (rule_pending self) idx p |> <| last_error_budget := e |>)
    else Some (self <| rule_pending := zupd (rule_pending self) idx p |> <| last_error_budget := e |>)) =
    Some (self <| rule_pending := zupd (rule_pending self) idx p |>
               <| last_error_budget := e |> <| want_immediate_flush := want |>) ∧
    want = want_immediate_flush self || ((e <? p) && ((last =? 0) ||
      (as_u64 (as_millis (gc_min_emit_interval (config self)))
         <=? saturating_sub (now_millis env) last)))) as (want & Heq & Hwant).
  { simpl. rewrite Hlast. cbn [mbind option_bind].
    destruct (e <? p); [destruct (_ || _)|]; eexists; (split; [reflexivity|]);
      rewrite ?orb_true_r, ?orb_false_r; done. }
  exists (zupd (rule_pending self) idx p), e, want. split; [exact Heq|]. split; [done|]. split; [done|].
  by exists cur, e, last.
Qed.

(** The hit a request stands for. *)
Definition request_obs (req : LimitRequest) : Observation := {|
  o_rule_fingerprint := lr_rule_fingerprint req; o_key_hash := lr_key_hash req;
  o_bucket := lr_bucket req; o_origin := 0; o_incarnation := 0;
  o_count := saturating_from_u64 (lr_hits req); o_last_update_millis := lr_now_millis req |}.

Lemma request_obs_ok req : request_typed req → obs_ok (request_obs req).
Proof using CL.
  intros (_ & _ & _ & Hh & _). unfold obs_ok, request_obs, uint in *. simpl.
  pose proof count_MAX_bounds. rewrite saturating_from_u64_min by (unfold U64_MAX; lia). lia.
Qed.

(** The invariant does not read the reply, the counters and the buffers. *)
Lemma rt_inv_store self V self' V' :
  rt_inv self V → store_inv (store self') V' → stable (store self) (store self') →
  config self' = config self → scratch self' = scratch self → recv_buf self' = recv_buf self →
  send_pool self' = send_pool self → send_pending self' = send_pending self →
  send_free self' = send_free self → Forall (peer_ok K) (peers self') →
  zlen (rule_pending self') = zlen (rule_pending self) →
  zlen (rule_last_emit_ms self') = zlen (rule_last_emit_ms self) →
  Forall (uint 32) (rule_pending self') → rt_inv self' V'.
Proof using.
  intros [] Hs Hst Hc Hsc Hrb Hpl Hpn Hfr Hps Hrp Hle Hu.
  split; rewrite ?Hc, ?Hsc, ?Hrb, ?Hpl, ?Hpn, ?Hfr, ?Hrp, ?Hle, ?(st_rule_cap _ _ Hst),
    ?(st_identity _ _ Hst); try done.
  by eapply scratch_for_stable.
Qed.

Lemma handle_limit_request_ok self V env req :
  rt_inv self V → zlen (peers self) ≤ 2 ^ 50 → request_typed req →
  ∃ self' ds acc,
    let V' := ingest_all (CellStore.local_identity (store self)) V acc in
    handle_limit_request self env req = Some self' ∧ rt_inv self' V' ∧ outside self self' ∧
    acc `sublist_of` [request_obs req] ∧
    (room (store self) 1 → acc = [request_obs req]) ∧
    (is_Some (V !! local_name (CellStore.local_identity (store self)) (request_obs req)) →
       acc = [request_obs req]) ∧
    sink_buf self' = DeltaSink.of_rows ds ∧ Forall (delta_ok (Some L)) ds ∧
    (∀ cid, total V' cid = total V cid + delta_total ds cid) ∧
    expiration_buf self' = expiration_buf self ∧ pending_reply self' = lr_reply req ∧
    peers self' = peers self ∧ send_pending self' = send_pending self ∧
    admin_rx self' = admin_rx self ∧
    note_pending self env req =
      Some (self <| rule_pending := rule_pending self' |> <| last_error_budget := last_error_budget self' |>
                 <| want_immediate_flush := want_immediate_flush self' |>).
Proof using CL.
  intros Hi Hp Hr. unfold handle_limit_request.
  destruct (note_pending_ok self V env req Hi Hp Hr)
    as (column & budget & want & -> & Hlen & Hcol & _). cbn [mbind option_bind].
  set (self1 := self <| rule_pending := column |> <| last_error_budget := budget |>
                     <| want_immediate_flush := want |>).
  change (store self1) with (store self).
  change (ObservationBatch.push (ObservationBatch.clear (obs_buf self1)) _)
    with (ObservationBatch.of_rows [request_obs req]).
  change (DeltaSink.clear (sink_buf self1)) with (DeltaSink.of_rows []).
  pose proof (ri_store _ _ _ _ _ Hi) as Hs. pose proof (request_obs_ok req Hr) as Hok.
  destruct (ingest_local_on (Some L) (store self) V [request_obs req] [] (so_inv _ _ _ _ Hs))
    as (st & ds & acc & He & Hst & Hinv & Hsub & Hroom & Hknown & Hds & Htot & _); [by constructor|].
  rewrite He. cbn [mbind option_bind].
  exists (self1 <| store := st |> <| obs_buf := ObservationBatch.of_rows [request_obs req] |>
           <| sink_buf := DeltaSink.of_rows ds |> <| pending_reply := lr_reply req |>), ds, acc.
  assert (store_inv st (ingest_all (CellStore.local_identity (store self)) V acc)) as Hs'.
  { eapply store_inv_step; [exact Hs|done| |done|].
    - eapply ingest_local_typed; [exact He| |apply Hs]. apply Forall_singleton. apply Hr.
    - intros n c Hn. apply raise_all_names in Hn as [[c' Hc']|(o & Ho & <-)]; [by eapply Hs|].
      assert (o = request_obs req) as ->.
      { apply list_elem_of_singleton. by eapply elem_of_sublist. }
      destruct Hr as (? & ? & ? & _). unfold name_typed, local_name. simpl. split_and!; try done; apply Hs. }
  split; [done|]. split; [|split; [by split|]].
  - eapply (rt_inv_store self V); try done. apply Hi.
  - split; [done|]. split; [intros Hrm; apply Hroom; unfold zlen; simpl; exact Hrm|].
    split; [|by split_and!]. intros Hk. apply Hknown. intros o ->%list_elem_of_singleton. done.
Qed.

(** ** Inbound packets *)
Definition acks_of (cells : list WireCell) : AckColumns.t :=
  AckColumns.mk (wc_origin_node_id <$> cells) (wc_origin_incarnation <$> cells)
    (wc_origin_sequence <$> cells).

Lemma on_cell_rows cells : ∀ done,
  foldl on_cell (acks_of done, ObservationBatch.of_rows (observation_from_wire <$> done)) cells =
    (acks_of (done ++ cells), ObservationBatch.of_rows (observation_from_wire <$> (done ++ cells))).
Proof using.
  induction cells as [|c cells IH]; intros done; [by rewrite app_nil_r|]. cbn [foldl].
  replace (on_cell (acks_of done, ObservationBatch.of_rows (observation_from_wire <$> done)) c)
    with (acks_of (done ++ [c]), ObservationBatch.of_rows (observation_from_wire <$> (done ++ [c]))).
  { rewrite IH. by rewrite <- app_assoc. }
  unfold on_cell, acks_of, AckColumns.push. cbn [AckColumns.origin_node_ids AckColumns.incarnations
    AckColumns.origin_sequences]. rewrite !fmap_app. f_equal.
  by rewrite ObservationBatch.obs_push_of_rows.
Qed.

Lemma with_frontier_inv st V pf :
  store_inv st V → PeerFrontierTable.inv pf →
  PeerFrontierTable.node_capacity pf =
    PeerFrontierTable.node_capacity (CellStore.peer_frontiers st) →
  PeerFrontierTable.peer_capacity pf = K →
  store_inv (st <| CellStore.peer_frontiers := pf |>) V.
Proof using.
  intros [(A & Mr & Mn & pins & [Hsl Hrows Hd Hl Hcs HV] & Henf) [] Hn ? ?] Hpf Hnc Hpc.
  split; try done.
  exists A, Mr, Mn, pins. split; [|done].
  split; [reframe Hsl|reframe Hrows|reframe Hd| |done|done].
  destruct Hl. split; simpl; try done. congruence.
Qed.

Lemma stable_frontier st pf :
  PeerFrontierTable.peer_capacity pf = PeerFrontierTable.peer_capacity (CellStore.peer_frontiers st) →
  stable st (st <| CellStore.peer_frontiers := pf |>).
Proof using. by split. Qed.

Lemma frontier_inv st V : store_inv st V → PeerFrontierTable.inv (CellStore.peer_frontiers st).
Proof using. intros [(A & Mr & Mn & pins & Hi & _) _ _ _ _]. apply (iv_lanes _ _ _ _ _ _ Hi). Qed.

Lemma record_acks_ok cells p st V :
  store_inv st V → 0 ≤ p < K →
  ∃ pf, record_acks (acks_of cells) p st = Some (st <| CellStore.peer_frontiers := pf |>) ∧
    store_inv (st <| CellStore.peer_frontiers := pf |>) V ∧
    PeerFrontierTable.peer_ids pf = PeerFrontierTable.peer_ids (CellStore.peer_frontiers st).
Proof using.
  intros Hs Hp. unfold record_acks, AckColumns.len. simpl. rewrite zlen_fmap.
  destruct (for_each_index cells st (λ st i,
    origin_id ← zget (AckColumns.origin_node_ids (acks_of cells)) i;
    incarnation ← zget (AckColumns.incarnations (acks_of cells)) i;
    sequence ← zget (AckColumns.origin_sequences (acks_of cells)) i;
    node_slot ← CellStore.find_node st origin_id incarnation;
    match node_slot with
    | None => Some st
    | Some node_slot =>
      pf ← PeerFrontierTable.record_acked (CellStore.peer_frontiers st) p node_slot sequence;
      Some (st <| CellStore.peer_frontiers := pf |>)
    end) (λ _ st', ∃ pf, st' = st <| CellStore.peer_frontiers := pf |> ∧ store_inv st' V ∧
      PeerFrontierTable.peer_ids pf = PeerFrontierTable.peer_ids (CellStore.peer_frontiers st)))
    as (st' & He & pf & -> & ? & ?); [..|by exists pf].
  { exists (CellStore.peer_frontiers st). split; [by destruct st|done]. }
  intros pre c suf st1 -> (pf & -> & Hs1 & Hids). simpl.
  assert (∀ B (f : WireCell → B), zget (f <$> (pre ++ c :: suf)) (zlen pre) = Some (f c)) as Hg.
  { intros B f. rewrite zget_fmap. unfold zlen. by rewrite zget_nat, list_lookup_middle. }
  rewrite !Hg. cbn [mbind option_bind].
  destruct (so_inv _ _ _ _ Hs1) as (A & Mr & Mn & pins & Hi & _).
  pose proof (ti_nodes _ _ _ _ _ (iv_dicts _ _ _ _ _ _ Hi)) as Hnd.
  destruct (dict_find_ok _ _ _ _ Hnd {| node_id := wc_origin_node_id c; ni_incarnation := wc_origin_incarnation c |})
    as (r & Hf & Hr). unfold CellStore.find_node, NodeDictionary.find. rewrite Hf. cbn [mbind option_bind].
  destruct r as [ns|]; [|by exists (st <| CellStore.peer_frontiers := pf |>); eauto].
  destruct Hr as (d & Hd & _). destruct (di_live _ _ _ _ Hnd _ _ Hd) as [Hns _].
  pose proof (iv_lanes _ _ _ _ _ _ Hi) as Hl. pose proof (ct_peers _ _ (so_cols _ _ _ _ Hs1)) as HK.
  destruct (PeerFrontierTable.record_acked_ok _ (li_frontier _ Hl) p ns (wc_origin_sequence c))
    as (pf' & Hpf' & Hinv' & _).
  { split; [lia|]. rewrite (li_frontier_nodes _ Hl). lia. }
  destruct (PeerFrontierTable.record_acked_caps _ _ _ _ _ Hpf') as (Hpc & Hnc & Hids').
  simpl in Hpf'. rewrite Hpf'. cbn [mbind option_bind]. eexists. split; [done|]. exists pf'. split; [done|].
  split; [|simpl in Hids'; congruence]. eapply (with_frontier_inv _ V pf' Hs1); [done|done|]. congruence.
Qed.

Lemma cache_peer_ok ps src id s :
  Forall (peer_ok K) ps → 0 ≤ s < K →
  Forall (peer_ok K) (cache_peer ps src id s) ∧ addr <$> cache_peer ps src id s = addr <$> ps.
Proof using.
  intros Hps Hs. induction Hps as [|p ps Hp Hps [IH1 IH2]]; cbn [cache_peer]; [done|].
  case_bool_decide; (split; [constructor; try done|]); [done|]. rewrite !fmap_cons. by rewrite IH2.
Qed.

Lemma merge_remote_store st V cells :
  store_inv st V → Forall cell_typed cells →
  ∃ st' ds acc,
    CellStore.merge_remote st (ObservationBatch.of_rows (observation_from_wire <$> cells))
      (DeltaSink.of_rows []) = Some (st', DeltaSink.of_rows ds) ∧
    store_inv st' (merge_all V acc) ∧ stable st st' ∧
    acc `sublist_of` (observation_from_wire <$> cells) ∧
    (room st (zlen cells) → acc = observation_from_wire <$> cells) ∧
    Forall (delta_ok (Some L)) ds ∧
    (∀ cid, total (merge_all V acc) cid = total V cid + delta_total ds cid) ∧
    ∀ k, room st (k + zlen cells) → room st' k.
Proof using CL.
  intros Hs Hc.
  destruct (merge_remote_on (Some L) st V (observation_from_wire <$> cells) [] (so_inv _ _ _ _ Hs))
    as (st' & ds & acc & He & Hst & Hinv & Hsub & Hroom & _ & Hds & Htot & Hkeep).
  { apply Forall_fmap. eapply Forall_impl; [exact Hc|]. intros c (_ & _ & _ & _ & _ & ? & _). done. }
  exists st', ds, acc. split; [done|]. rewrite zlen_fmap in Hroom, Hkeep. split; [|done].
  eapply store_inv_step; [exact Hs|done| |done|].
  - eapply merge_remote_typed; [exact He| |apply Hs]. simpl.
    rewrite <- list_fmap_compose. apply Forall_fmap. eapply Forall_impl; [exact Hc|].
    intros c (_ & _ & _ & _ & _ & _ & ? & _). done.
  - intros n c Hn. apply (raise_all_names (λ o, MaxMerge (o_count o)) remote_name) in Hn
      as [[c' Hc']|(o & Ho & <-)]; [by eapply Hs|].
    pose proof (elem_of_sublist _ _ _ Ho Hsub) as (cell & -> & Hcell)%list_elem_of_fmap.
    rewrite Forall_forall in Hc. destruct (Hc cell Hcell) as (? & ? & ? & ? & ? & _). by split_and!.
Qed.

Lemma handle_inbound_ok self V n src :
  rt_inv self V → 0 ≤ n ≤ zlen (recv_buf self) →
  ∃ self' V' ds bytes cells r,
    handle_inbound hmac self n src = Some self' ∧ rt_inv self' V' ∧ outside self self' ∧
    zslice (recv_buf self) 0 n = Some bytes ∧
    decode_inner hmac bytes (gc_auth_key (config self)) (gc_wire_limits (config self)) (λ _, true) =
      Some (cells, r) ∧
    match r with
    | inr _ => V' = V ∧ store self' = store self ∧ peers self' = peers self ∧
        decode_reject_count self' = saturating_add 64 (decode_reject_count self) 1
    | inl _ => ∃ acc, V' = merge_all V acc ∧ acc `sublist_of` (observation_from_wire <$> cells) ∧
        (room (store self) (zlen cells) → acc = observation_from_wire <$> cells) ∧
        (∀ k, room (store self) (k + zlen cells) → room (store self') k) ∧
        decode_reject_count self' = decode_reject_count self
    end ∧
    sink_buf self' = DeltaSink.of_rows ds ∧ Forall (delta_ok (Some L)) ds ∧
    (∀ cid, total V' cid = total V cid + delta_total ds cid) ∧
    expiration_buf self' = expiration_buf self ∧ pending_reply self' = pending_reply self ∧
    addr <$> peers self' = addr <$> peers self ∧ send_pending self' = send_pending self ∧
    admin_rx self' = admin_rx self ∧ want_immediate_flush self' = want_immediate_flush self.
Proof using CL.
  intros Hi Hn. unfold handle_inbound.
  destruct (zslice_ok (recv_buf self) 0 n) as (bytes & Hb & _); [lia..|]. rewrite Hb.
  cbn [mbind option_bind].
  assert (Forall byte bytes) as Hbytes by (eapply zslice_byte; [apply Hi|exact Hb]).
  destruct (decode_inner_total hmac bytes (gc_auth_key (config self))
    (gc_wire_limits (config self)) (λ _, true) Hbytes) as (cells & r & Hd & Hct & _);
    [apply (ri_config _ _ _ _ _ Hi)|].
  assert (match gc_auth_key (config self) with
    | Some key => decode_auth_visit hmac bytes key (gc_wire_limits (config self)) (λ _, true)
    | None => decode_unauth_visit hmac bytes (gc_wire_limits (config self)) (λ _, true)
    end = Some (cells, r)) as -> by (by destruct (gc_auth_key (config self))).
  cbn [mbind option_bind].
  change (AckColumns.clear (ack_buf self), ObservationBatch.clear (obs_buf self))
    with (acks_of [], ObservationBatch.of_rows (observation_from_wire <$> [])).
  rewrite on_cell_rows. cbn [app]. change (DeltaSink.clear (sink_buf self)) with (DeltaSink.of_rows []).
  destruct r as [summary|e].
  2:{ eexists _, V, [], bytes, cells, (inr e). split; [done|].
      split; [eapply (rt_inv_store self V); try done; apply Hi|]. split; [by split|].
      split; [done|]. split; [done|]. split; [done|]. split; [done|]. split; [constructor|].
      split; [intros cid; simpl; lia|]. done. }
  pose proof (ri_store _ _ _ _ _ Hi) as Hs. cbn [store set_field].
  destruct (merge_remote_store (store self) V cells Hs Hct)
    as (st & ds & acc & He & Hs1 & Hst & Hsub & Hroom & Hds & Htot & Hkeep).
  match goal with |- context [CellStore.merge_remote ?x] => change x with (store self) end.
  rewrite He. cbn [mbind option_bind].
  destruct (PeerFrontierTable.intern_peer_ok _ (frontier_inv st _ Hs1) (sender_node_id (ds_header summary)))
    as (pf & slot & Hint & Hpi & _ & _ & Hslot).
  destruct (PeerFrontierTable.intern_peer_caps _ _ _ _ Hint) as [Hpc Hnc].
  pose proof (ct_peers _ _ (so_cols _ _ _ _ Hs1)) as HK. rewrite HK in Hpc.
  pose proof (with_frontier_inv st _ pf Hs1 Hpi Hnc Hpc) as Hs2.
  rewrite Hint. cbn [mbind option_bind]. destruct slot as [slot|].
  - destruct Hslot as [Hslot _]. apply zget_Some_range in Hslot.
    rewrite (PeerFrontierTable.fi_ids _ Hpi), Hpc in Hslot.
    destruct (record_acks_ok cells slot (st <| CellStore.peer_frontiers := pf |>) _ Hs2 Hslot)
      as (pf' & -> & Hs3 & _). cbn [mbind option_bind].
    destruct (cache_peer_ok (peers self) src (sender_node_id (ds_header summary)) slot) as [Hps Haddr];
      [apply Hi|done|].
    assert (stable (store self) (st <| CellStore.peer_frontiers := pf |>
      <| CellStore.peer_frontiers := pf' |>)) as Hst'.
    { etrans; [exact Hst|]. pose proof (ct_peers _ _ (so_cols _ _ _ _ Hs3)). split; try done. simpl in *. congruence. }
    eexists _, (merge_all V acc), ds, bytes, cells, (inl summary). split; [done|].
    split; [eapply (rt_inv_store self V); try done; apply Hi|]. split; [by split|].
    split; [done|]. split; [done|]. split; [by exists acc|]. done.
  - assert (stable (store self) (st <| CellStore.peer_frontiers := pf |>)) as Hst'
      by (etrans; [exact Hst|apply stable_frontier; congruence]).
    eexists _, (merge_all V acc), ds, bytes, cells, (inl summary). split; [done|].
    split; [eapply (rt_inv_store self V); try done; apply Hi|]. split; [by split|].
    split; [done|]. split; [done|]. split; [by exists acc|]. done.
Qed.

(** ** Membership *)
Lemma position_range {A} (p : A → bool) l k i : PeerFrontierTable.position p l k = Some i → k ≤ i < k + zlen l.
Proof using.
  intros (Hk & x & Hx & _)%PeerFrontierTable.position_Some. apply zget_Some_range in Hx. lia.
Qed.

(** Who the peers are after an event. *)
Lemma peer_event_members (self self' : t S) evt :
  handle_peer_event self evt = Some self' → NoDup (addr <$> peers self) →
  NoDup (addr <$> peers self') ∧
  ∀ a, a ∈ addr <$> peers self' ↔
    match evt with
    | Added b => a = b ∨ a ∈ addr <$> peers self
    | Removed b => a ≠ b ∧ a ∈ addr <$> peers self
    end.
Proof using.
  intros He Hnd. destruct evt as [a|a]; cbn [handle_peer_event] in He.
  - injection He as <-. destruct (existsb _ _) eqn:E.
    + split; [done|]. intros b. split; [by right|].
      intros [->|?]; [|done]. apply existsb_exists in E as (p & Hp%list_elem_of_In & Ha%bool_decide_eq_true).
      apply list_elem_of_fmap. by exists p.
    + simpl. rewrite fmap_app. split.
      * apply NoDup_app. split; [done|]. split; [|apply NoDup_singleton].
        intros b (p & -> & Hp)%list_elem_of_fmap Hb%list_elem_of_singleton. simpl in Hb.
        assert (existsb (λ x, bool_decide (addr x = a)) (peers self) = true); [|congruence].
        apply existsb_exists. exists p. split; [by apply list_elem_of_In|by apply bool_decide_true].
      * intros b. rewrite elem_of_app. simpl. rewrite list_elem_of_singleton. tauto.
  - destruct (PeerFrontierTable.position _ _ _) as [pos|] eqn:E.
    2:{ injection He as <-. split; [done|]. intros b. split; [|tauto].
        intros Hb. split; [|done]. intros ->. apply list_elem_of_fmap in Hb as (p & -> & Hp).
        pose proof (PeerFrontierTable.position_None _ _ _ _ E Hp) as Hf. simpl in Hf.
        by apply bool_decide_eq_false in Hf. }
    pose proof (position_range _ _ _ _ E) as Hpos.
    apply PeerFrontierTable.position_Some in E as (_ & p & Hp & Ha%bool_decide_eq_true).
    rewrite Z.sub_0_r in Hp. rewrite Hp in He. cbn [mbind option_bind] in He.
    rewrite zget_lookup in Hp by lia.
    assert (peers self' = delete (Z.to_nat pos) (peers self)) as ->.
    { destruct (p_node_id p); [|by injection He as <-]. apply bind_Some in He as (pf & _ & He). by injection He as <-. }
    pose proof (fmap_Permutation addr _ _ (delete_Permutation _ _ _ Hp)) as Hpa. rewrite fmap_cons, Ha in Hpa.
    rewrite Hpa in Hnd. apply NoDup_cons in Hnd as [Hna Hnd]. split; [done|].
    intros b. rewrite Hpa, elem_of_cons. split; [|tauto]. intros Hb. split; [|by right]. by intros ->.
Qed.

Lemma handle_peer_event_runs self V evt :
  rt_inv self V →
  ∃ self', handle_peer_event self evt = Some self' ∧ rt_inv self' V ∧ outside self self' ∧
    sink_buf self' = sink_buf self ∧ expiration_buf self' = expiration_buf self ∧
    pending_reply self' = pending_reply self ∧ send_pending self' = send_pending self ∧
    admin_rx self' = admin_rx self ∧ want_immediate_flush self' = want_immediate_flush self ∧
    zlen (peers self') ≤ zlen (peers self) + 1.
Proof using.
  intros Hi. destruct evt as [a|a]; cbn [handle_peer_event].
  - destruct (existsb _ _) eqn:E.
    + exists self. split; [done|]. split; [done|]. split; [by split|]. do 6 (split; [done|]). lia.
    + eexists. split; [done|].
      split; [eapply (rt_inv_store self V); try done; [apply Hi..| |apply Hi]|].
      { simpl. apply Forall_app. split; [apply Hi|]. by apply Forall_singleton. }
      split; [by split|]. do 6 (split; [done|]). simpl. rewrite zlen_app. unfold zlen; simpl; lia.
  - destruct (PeerFrontierTable.position _ _ _) as [pos|] eqn:E.
    2:{ exists self. split; [done|]. split; [done|]. split; [by split|]. do 6 (split; [done|]). lia. }
    pose proof (position_range _ _ _ _ E) as Hpos.
    apply PeerFrontierTable.position_Some in E as (_ & p & Hp & Ha%bool_decide_eq_true).
    rewrite Z.sub_0_r in Hp. rewrite Hp. cbn [mbind option_bind].
    rewrite zget_lookup in Hp by lia.
    pose proof (delete_Permutation _ _ _ Hp) as Hperm.
    assert (Forall (peer_ok K) (delete (Z.to_nat pos) (peers self))) as Hps.
    { pose proof (ri_peers _ _ _ _ _ Hi) as Hps. rewrite Hperm in Hps. by apply Forall_cons in Hps as [_ ?]. }
    assert (zlen (delete (Z.to_nat pos) (peers self)) ≤ zlen (peers self) + 1) as Hlen.
    { unfold zlen. rewrite (Permutation_length Hperm). simpl. lia. }
    cbn [store set_field]. destruct (p_node_id p) as [id|].
    + pose proof (ri_store _ _ _ _ _ Hi) as Hs.
      match goal with |- context [CellStore.peer_frontiers (store ?x)] => change (store x) with (store self) end.
      destruct (PeerFrontierTable.remove_peer_ok _ (frontier_inv _ _ Hs) id)
        as (pf & -> & Hpi & Hpc & Hnc & _). cbn [mbind option_bind].
      rewrite (ct_peers _ _ (so_cols _ _ _ _ Hs)) in Hpc.
      pose proof (with_frontier_inv _ _ pf Hs Hpi Hnc Hpc) as Hs2.
      eexists. split; [done|]. split; [|split; [split; [done|done|apply stable_frontier; simpl; by rewrite (ct_peers _ _ (so_cols _ _ _ _ Hs))]|done]].
      eapply (rt_inv_store self V); try done; [apply stable_frontier; by rewrite (ct_peers _ _ (so_cols _ _ _ _ Hs))|apply Hi].
    + eexists. split; [done|]. split; [|split; [by split|done]].
      eapply (rt_inv_store self V); try done; apply Hi.
Qed.

Lemma handle_peer_event_ok self V evt :
  rt_inv self V →
  ∃ self', handle_peer_event self evt = Some self' ∧ rt_inv self' V ∧ outside self self' ∧
    sink_buf self' = sink_buf self ∧ expiration_buf self' = expiration_buf self ∧
    pending_reply self' = pending_reply self ∧ send_pending self' = send_pending self ∧
    admin_rx self' = admin_rx self ∧ want_immediate_flush self' = want_immediate_flush self ∧
    zlen (peers self') ≤ zlen (peers self) + 1 ∧
    (NoDup (addr <$> peers self) → NoDup (addr <$> peers self') ∧
       ∀ a, a ∈ addr <$> peers self' ↔
         match evt with
         | Added b => a = b ∨ a ∈ addr <$> peers self
         | Removed b => a ≠ b ∧ a ∈ addr <$> peers self
         end).
Proof using.
  intros Hi. destruct (handle_peer_event_runs self V evt Hi) as (self' & He & H1 & H2 & H3 & H4 & H5 & H6 & H7 & H8 & H9).
  exists self'. do 10 (split; [done|]). by apply peer_event_members.
Qed.

(** ** The tick *)
Lemma coverage_fanout_nonneg n : 3 ≤ coverage_fanout n.
Proof using. unfold coverage_fanout, GOSSIP_COVERAGE_MARGIN. pose proof (zlen_nonneg (filter (λ e, e < n) exp_floors)). lia. Qed.

(** What the tick does after expiring, when there is something to send. *)
Definition emit_frames self (k : Z) (stamp : Z) : option (t S) :=
  '(ps, g) ← pick_peers (zlen (peers self)) k (peers self) (rng self);
  self ← for_each_while (zrange 0 k) (self <| peers := ps |> <| rng := g |>) (gossip_to hmac);
  reset_pending self stamp.

Lemma gossip_all_ok self V k :
  rt_inv self V → 0 ≤ k ≤ zlen (peers self) →
  ∃ st fh sc pool pending free,
    for_each_while (zrange 0 k) self (gossip_to hmac) = Some (with_send self st fh sc pool pending free) ∧
    rt_inv (with_send self st fh sc pool pending free) V ∧ stable (store self) st.
Proof using CL hmac_len.
  intros Hi Hk.
  set (Q := λ st' : t S, ∃ st fh sc pool pending free,
    st' = with_send self st fh sc pool pending free ∧ rt_inv st' V ∧ stable (store self) st).
  destruct (for_each_while_inv (λ todo st', (∀ i, i ∈ todo → 0 ≤ i < zlen (peers self)) ∧ Q st') Q
    (zrange 0 k) self (gossip_to hmac)) as (st' & He & st & fh & sc & pool & pending & free & -> & ? & ?);
    [|by intros st' [_ ?]| |by exists st, fh, sc, pool, pending, free].
  - intros i todo st' [Hr (st & fh & sc & pool & pending & free & -> & Hi' & Hst)].
    destruct (gossip_to_ok hmac hmac_len L K _ V i Hi')
      as (b & st2 & fh2 & sc2 & pool2 & pending2 & free2 & He & Hi2 & Hst2).
    { apply Hr, elem_of_cons. by left. }
    exists (with_send (with_send self st fh sc pool pending free) st2 fh2 sc2 pool2 pending2 free2), b.
    split; [exact He|].
    assert (Q (with_send (with_send self st fh sc pool pending free) st2 fh2 sc2 pool2 pending2 free2)) as HQ.
    { exists st2, fh2, sc2, pool2, pending2, free2. split; [done|]. split; [done|]. by etrans. }
    destruct b; [|done]. split; [|done]. intros i' ?. apply Hr, elem_of_cons. by right.
  - split; [intros i Hx%elem_of_zrange; lia|].
    exists (store self), (frame_handles self), (scratch self), (send_pool self), (send_pending self), (send_free self).
    unfold with_send. split; [by destruct self|done].
Qed.

Lemma emit_frames_ok self V k stamp :
  rt_inv self V → 0 ≤ k ≤ zlen (peers self) → zlen (peers self) ≤ 2 ^ 50 →
  ∃ self', emit_frames self k stamp = Some self' ∧ rt_inv self' V ∧
    config self' = config self ∧ aggregates self' = aggregates self ∧
    sink_buf self' = sink_buf self ∧ expiration_buf self' = expiration_buf self ∧
    pending_reply self' = pending_reply self ∧ admin_rx self' = admin_rx self ∧
    want_immediate_flush self' = want_immediate_flush self ∧ peers self' ≡ₚ peers self ∧
    stable (store self) (store self') ∧ last_effective_fanout self' = last_effective_fanout self ∧
    ∀ i v, zget (rule_pending self) i = Some v →
      zget (rule_pending self') i = Some 0 ∧
      zget (rule_last_emit_ms self') i =
        if v =? 0 then zget (rule_last_emit_ms self) i else Some stamp.
Proof using CL hmac_len.
  intros Hi Hk Hp. unfold emit_frames.
  destruct (pick_peers_ok (peers self) (rng self) k Hk Hp) as (ps & g & -> & Hperm).
  cbn [mbind option_bind].
  assert (rt_inv (self <| peers := ps |> <| rng := g |>) V) as Hi1.
  { eapply (rt_inv_store self V); try done; [apply Hi| |apply Hi]. simpl. rewrite Hperm. apply Hi. }
  destruct (gossip_all_ok (self <| peers := ps |> <| rng := g |>) V k Hi1)
    as (st & fh & sc & pool & pending & free & -> & Hi2 & Hst).
  { simpl. unfold zlen in *. by rewrite (Permutation_length Hperm). }
  cbn [mbind option_bind].
  set (self2 := with_send (self <| peers := ps |> <| rng := g |>) st fh sc pool pending free) in *.
  destruct (reset_pending_ok self2 stamp) as (pend & last & -> & Hl1 & Hl2 & Hv).
  { by rewrite (ri_emit _ _ _ _ _ Hi2), (ri_pending _ _ _ _ _ Hi2). }
  eexists. split; [done|]. split; [|split_and!; try done].
  eapply (rt_inv_store self2 V); try done; [apply Hi2|apply Hi2| |].
  - by rewrite (ri_emit _ _ _ _ _ Hi2), <- (ri_pending _ _ _ _ _ Hi2).
  - apply Forall_forall. intros v Hv'. apply list_elem_of_lookup in Hv' as [i Hi']. simpl in Hi'.
    rewrite <- zget_nat in Hi'. pose proof (zget_Some_range _ _ _ Hi') as Hr. rewrite Hl1 in Hr.
    destruct (zget_in_range _ _ Hr) as [v0 Hv0]. destruct (Hv _ _ Hv0) as [Hz _].
    rewrite Hz in Hi'. injection Hi' as <-. unfold uint. lia.
Qed.

Definition live_at (st : CellStore.t) (now : Z) (V : gmap CellName Z) : gmap CellName Z :=
  filter (λ p, retained st now p.1 = true) V.

(** Expiring, and the tick up to the first early return. *)
Lemma expire_store st V now :
  store_inv st V →
  ∃ st' es, CellStore.expire_at st now (ExpirationSink.of_rows []) =
      Some (st', ExpirationSink.of_rows es) ∧
    store_inv st' (live_at st now V) ∧ stable st st' ∧ Forall (expiration_ok (Some L)) es ∧
    reports V (live_at st now V) es.
Proof using CL.
  intros Hs. destruct (expire_at_on (Some L) st V now [] (so_inv _ _ _ _ Hs))
    as (st' & es & He & Hst & Hi & Hr & Hes).
  exists st', es. split; [done|]. split; [|done].
  eapply store_inv_step; [exact Hs|done|eapply expire_at_typed; [exact He|apply Hs]|done|].
  intros n c [Hn _]%map_lookup_filter_Some. by eapply Hs.
Qed.

(** The tick emits when there is something to send, someone to send it to and
    a buffer to send it in. *)
Definition fanout_of (c : GossipConfig) (n : Z) : Z :=
  Z.min (Z.max (gc_fanout c) (coverage_fanout n)) n.
Definition can_emit self : bool :=
  negb (CellStore.is_empty (store self)) && negb (bool_decide (peers self = [])) &&
  negb (bool_decide (send_free self = [])).

Lemma handle_gossip_tick_ok self V env :
  rt_inv self V → zlen (peers self) ≤ 2 ^ 50 →
  ∃ self' es,
    let V' := live_at (store self) (now_millis env) V in
    handle_gossip_tick hmac self env = Some self' ∧ rt_inv self' V' ∧ outside self self' ∧
    expiration_buf self' = ExpirationSink.of_rows es ∧ Forall (expiration_ok (Some L)) es ∧
    reports V V' es ∧ sink_buf self' = sink_buf self ∧ pending_reply self' = pending_reply self ∧
    admin_rx self' = admin_rx self ∧ want_immediate_flush self' = want_immediate_flush self ∧
    peers self' ≡ₚ peers self ∧
    ∃ st, CellStore.expire_at (store self) (now_millis env) (ExpirationSink.of_rows []) =
        Some (st, ExpirationSink.of_rows es) ∧
      if can_emit (self <| store := st |>) then
        last_effective_fanout self' = fanout_of (config self) (zlen (peers self)) ∧
        ∀ i v, zget (rule_pending self) i = Some v →
          zget (rule_pending self') i = Some 0 ∧
          zget (rule_last_emit_ms self') i =
            if v =? 0 then zget (rule_last_emit_ms self) i else Some (Z.max (now_millis env) 1)
      else rule_pending self' = rule_pending self ∧ send_pending self' = send_pending self.
Proof using CL hmac_len.
  intros Hi Hp. unfold handle_gossip_tick. cbn [store set_field expiration_buf].
  change (ExpirationSink.clear _) with (ExpirationSink.of_rows []).
  pose proof (ri_store _ _ _ _ _ Hi) as Hs.
  match goal with |- context [CellStore.expire_at ?x] => change x with (store self) end.
  destruct (expire_store (store self) V (now_millis env) Hs) as (st & es & Hex & Hs1 & Hst & Hes & Hr).
  rewrite Hex. cbn [mbind option_bind].
  set (self1 := self <| ticks_total := saturating_add 64 (ticks_total self) 1 |>
                     <| store := st |> <| expiration_buf := ExpirationSink.of_rows es |>).
  set (V' := live_at (store self) (now_millis env) V) in *.
  assert (rt_inv self1 V') as Hi1 by (eapply (rt_inv_store self V); try done; apply Hi).
  assert (can_emit (self <| store := st |>) =
    negb (CellStore.is_empty (store self1) || bool_decide (peers self1 = []) ||
          bool_decide (send_free self1 = []))) as Hcan by (unfold can_emit; by rewrite !negb_orb).
  destruct (CellStore.is_empty _ || _ || _) eqn:E in |- *.
  { exists self1, es. split; [done|]. split; [done|]. split; [by split|]. split_and!; try done.
    exists st. split; [done|]. rewrite Hcan. unfold self1 at 1 2 3. simpl.
    simpl in E. by rewrite E. }
  set (k := fanout_of (config self) (zlen (peers self))).
  set (self2 := self1 <| dirty_ticks := saturating_add 64 (dirty_ticks self1) 1 |>
    <| last_effective_fanout := k |> <| peak_effective_fanout := Z.max (peak_effective_fanout self) k |>).
  assert (rt_inv self2 V') as Hi2 by (eapply (rt_inv_store self1 V'); try done; apply Hi1).
  assert (0 ≤ k ≤ zlen (peers self2)) as Hk.
  { pose proof (coverage_fanout_nonneg (zlen (peers self))). pose proof (zlen_nonneg (peers self)).
    change (peers self2) with (peers self). unfold k, fanout_of. lia. }
  destruct (emit_frames_ok self2 V' k (Z.max (now_millis env) 1) Hi2 Hk Hp)
    as (self' & He & Hi' & Hc & Ha & Hsk & Hexb & Hpr & Had & Hw & Hps & Hst' & Hlf & Hpend).
  exists self', es. split; [exact He|]. split; [done|].
  split; [split; [done|done|by etrans]|]. split_and!; try done.
  exists st. split; [done|]. rewrite Hcan. simpl. simpl in E. rewrite E. simpl. done.
Qed.
End step.
