(* ===== verification/RuntimeLoop.v ===== *)
(** * The gossip event loop: every run

    The composition: handlers, apply and acknowledgement over any sequence of
    wake-ups.  The loop does not panic, the aggregate store reads the totals
    of the replicated counters between any two iterations, and the contents
    move only by the steps of an abstract node. *)

From S2P Require Import Prelude Types Hash Index Freelist Dictionary DirtyRing PeerFrontier IO CellStore CellSlots CellInv CellOps CellMerge CellExpire GossipFrame CellTyped StoreSpec Bytes WireHeader WireBody WirePlan WireCodec Wire WireTyped Exchange DashMap Mirror Runtime RuntimeSend RuntimeAdmin RuntimeInv RuntimeStep.
Import GossipRuntime.

(** ** The abstract node

    Its state is the map of counts.  Hits add to the node's own cells, packets
    raise cells to a maximum, a tick drops expired cells; rows may be dropped
    for lack of room. *)
Inductive node_step `{C : Count} (id : NodeIdentity) : gmap CellName Z → gmap CellName Z → Prop :=
  | node_hit r acc V :
    request_typed r → acc `sublist_of` [request_obs r] → node_step id V (ingest_all id V acc)
  | node_merge cells acc V :
    Forall cell_typed cells → acc `sublist_of` (observation_from_wire <$> cells) →
    node_step id V (merge_all V acc)
  | node_expire (keep : CellName → bool) V : node_step id V (filter (λ p, keep p.1 = true) V)
  | node_idle V : node_step id V V.

(** A wake-up carries values of their types, and [recv_from] returns the
    runtime's own buffer. *)
Definition event_ok (c : GossipConfig) (ev : Env * Ready) : Prop :=
  uint 64 (now_millis ev.1) ∧
  (∀ r, rd_request ev.2 = Some (Some (Limit r)) → request_typed r) ∧
  (∀ buf n src, rd_recv ev.2 = Some (inl (buf, n, src)) →
     Forall byte buf ∧ zlen buf = max_payload_bytes (gc_wire_limits c) ∧ 0 ≤ n ≤ zlen buf).

Section loop.
Context {C : Count} {CL : CountLaws C} (Hw : narrow) (hmac : list Z → list Z → list Z).
Context (hmac_len : tags_ok hmac).
Context {S : Type} `{AggregateLaws S} (L : gset Z) (K : Z).
Implicit Types (self : t S).

Abbreviation rt_inv := (rt_inv hmac L K).
Abbreviation store_inv := (store_inv L K).

(** Between two iterations. *)
Record loop_inv (self : t S) (V : gmap CellName Z) : Prop := {
  lp_inv : rt_inv self V;
  lp_sink : sink_buf self = DeltaSink.of_rows [];
  lp_expired : expiration_buf self = ExpirationSink.of_rows [];
  lp_reply : pending_reply self = None;
  lp_mirrors : mirrors L (aggregates self) V;
}.

(** After a handler, before the apply: the channels hold the change. *)
Record dispatched (self : t S) (V : gmap CellName Z) (self' : t S) (V' : gmap CellName Z) : Prop := {
  dp_inv : rt_inv self' V';
  dp_config : config self' = config self;
  dp_aggregates : aggregates self' = aggregates self;
  dp_identity : CellStore.local_identity (store self') = CellStore.local_identity (store self);
  dp_step : node_step (CellStore.local_identity (store self)) V V';
  dp_rows : ∃ ds es st1 V1, sink_buf self' = DeltaSink.of_rows ds ∧
    expiration_buf self' = ExpirationSink.of_rows es ∧ inv st1 V1 ∧
    Forall (delta_ok (Some L)) ds ∧ (∀ cid, total V1 cid = total V cid + delta_total ds cid) ∧
    Forall (expiration_ok (Some L)) es ∧
    ∀ cid, total V' cid = total V1 cid - expiration_total es cid;
}.

Lemma apply_rows_ok self V self' V' :
  rt_inv self V → mirrors L (aggregates self) V → dispatched self V self' V' →
  ∃ s, apply_rows self' =
      Some (self' <| aggregates := s |> <| sink_buf := DeltaSink.of_rows [] |>
                  <| expiration_buf := ExpirationSink.of_rows [] |>) ∧ mirrors L s V'.
Proof using CL Hw.
  intros Hi Hm [Hi' _ Ha _ _ (ds & es & st1 & V1 & Hds & Hes & Hi1 & Hok1 & Ht1 & Hok2 & Ht2)].
  unfold apply_rows. rewrite Hds, Hes. unfold DeltaSink.is_empty, ExpirationSink.is_empty.
  rewrite DeltaSink.delta_len_of_rows, ExpirationSink.exp_len_of_rows.
  destruct (negb (zlen ds =? 0) || negb (zlen es =? 0)) eqn:E.
  - rewrite Ha. destruct (mirrors_apply Hw L (aggregates self) (store self) V st1 V1 (store self') V' ds es)
      as (s & -> & Hm'); try done; [by eapply store_inv_inv, Hi|by eapply store_inv_inv, Hi'|].
    by exists s.
  - apply orb_false_iff in E as [E1 E2]. apply negb_false_iff, Z.eqb_eq in E1, E2.
    assert (ds = []) as -> by (destruct ds; [done|unfold zlen in E1; simpl in E1; lia]).
    assert (es = []) as -> by (destruct es; [done|unfold zlen in E2; simpl in E2; lia]).
    exists (aggregates self'). split; [rewrite <- Hds, <- Hes; by destruct self'|].
    rewrite Ha. destruct Hm as [Hok Hr]. split; [done|]. intros cid. rewrite Hr, Ht2, Ht1. simpl.
    case_decide; lia.
Qed.

(** The bottom of the loop. *)
Lemma finish_iteration_ok self V self' V' :
  rt_inv self V → mirrors L (aggregates self) V → dispatched self V self' V' →
  ∃ self2, finish_iteration self' =
      Some (self2, match pending_reply self' with Some r => [Ack r] | None => [] end) ∧
    loop_inv self2 V' ∧ config self2 = config self ∧ peers self2 = peers self' ∧
    send_pending self2 = send_pending self' ∧ send_free self2 = send_free self' ∧
    want_immediate_flush self2 = want_immediate_flush self' ∧ store self2 = store self' ∧
    admin_rx self2 = admin_rx self' ∧ rule_pending self2 = rule_pending self' ∧
    rule_last_emit_ms self2 = rule_last_emit_ms self' ∧ last_error_budget self2 = last_error_budget self' ∧
    decode_reject_count self2 = decode_reject_count self' ∧ send_pool self2 = send_pool self'.
Proof using CL Hw.
  intros Hi Hm Hd. destruct (apply_rows_ok self V self' V' Hi Hm Hd) as (s & He & Hm').
  unfold finish_iteration, finish_observed. rewrite He. cbn [mbind option_bind].
  pose proof (dp_inv _ _ _ _ Hd) as Hi'. pose proof (dp_config _ _ _ _ Hd) as Hc.
  set (self1 := self' <| aggregates := s |> <| sink_buf := DeltaSink.of_rows [] |>
                      <| expiration_buf := ExpirationSink.of_rows [] |>).
  set (self2 := if max_send_pending_depth self1 <? zlen (send_pending self1)
                then self1 <| max_send_pending_depth := zlen (send_pending self1) |> else self1).
  assert (∃ d, self2 = self1 <| max_send_pending_depth := d |>) as [d Hd2].
  { unfold self2. destruct (_ <? _); [by eexists|]. exists (max_send_pending_depth self1).
    unfold self1. by destruct self'. }
  change (pending_reply self') with (pending_reply self1).
  assert (pending_reply self2 = pending_reply self1) as Hpr by (by rewrite Hd2). rewrite Hpr.
  destruct (pending_reply self1) as [r|] eqn:E; rewrite Hd2; eexists; (split; [reflexivity|]).
  all: split; [|by split_and!].
  all: split; try done; eapply (rt_inv_store hmac L K self' V'); try done; apply Hi'.
Qed.

(** ** Dispatch *)
Definition outcome_ok self (o : ArmOutcome) : Prop :=
  match o with
  | RequestArm (Some (Limit r)) => request_typed r
  | Inbound (inl (n, _)) => 0 ≤ n ≤ zlen (recv_buf self)
  | _ => True
  end.

(** Every datagram that leaves is a valid packet of this node. *)
Definition effects_ok self (effs : list Effect) : Prop :=
  ∀ dst bytes, Datagram dst bytes ∈ effs →
    valid_packet hmac (config self) (CellStore.local_identity (store self)) bytes.

Lemma no_effects self : effects_ok self [].
Proof using. by intros dst bytes ?%elem_of_nil. Qed.

(** A handler that touches neither the contents nor the channels. *)
Lemma dispatched_quiet self V self' :
  rt_inv self V → sink_buf self = DeltaSink.of_rows [] →
  expiration_buf self = ExpirationSink.of_rows [] → rt_inv self' V →
  config self' = config self → aggregates self' = aggregates self →
  CellStore.local_identity (store self') = CellStore.local_identity (store self) →
  sink_buf self' = sink_buf self → expiration_buf self' = expiration_buf self →
  dispatched self V self' V.
Proof using.
  intros Hi Hs Hx Hi' Hc Ha Hid Hs' Hx'. split; try done; [constructor|].
  exists [], [], (store self), V. rewrite Hs', Hx', Hs, Hx. split_and!; try done.
  - by eapply store_inv_inv, Hi.
  - intros cid. simpl. lia.
  - intros cid. simpl. lia.
Qed.

(** A handler that raises cells and reports the deltas. *)
Lemma dispatched_grow self V self' V' ds :
  rt_inv self' V' → outside self self' → node_step (CellStore.local_identity (store self)) V V' →
  expiration_buf self' = ExpirationSink.of_rows [] → sink_buf self' = DeltaSink.of_rows ds →
  Forall (delta_ok (Some L)) ds → (∀ cid, total V' cid = total V cid + delta_total ds cid) →
  dispatched self V self' V'.
Proof using.
  intros Hi' [Hc Ha Hst] Hstep Hx Hs Hds Htot. split; try done; [by apply Hst|].
  exists ds, [], (store self'), V'. split_and!; try done; [by eapply store_inv_inv, Hi'|]. intros cid. simpl. lia.
Qed.

Lemma inbound_step self V V' n bytes cells (r : DecodedSummary + DecodeError) :
  rt_inv self V → zslice (recv_buf self) 0 n = Some bytes →
  decode_inner hmac bytes (gc_auth_key (config self)) (gc_wire_limits (config self)) (λ _, true) = Some (cells, r) →
  match r with
  | inr _ => V' = V
  | inl _ => ∃ acc, V' = merge_all V acc ∧ acc `sublist_of` (observation_from_wire <$> cells)
  end → node_step (CellStore.local_identity (store self)) V V'.
Proof using CL.
  intros Hi Hb Hdec Hcase. destruct r as [s|e]; [|subst; constructor].
  destruct Hcase as (acc & -> & Hsub). eapply node_merge; [|exact Hsub].
  assert (Forall byte bytes) as Hbytes by (eapply zslice_byte; [apply Hi|exact Hb]).
  destruct (decode_inner_total hmac bytes (gc_auth_key (config self))
    (gc_wire_limits (config self)) (λ _, true) Hbytes) as (cells' & r' & Hd' & Hct & _);
    [apply (ri_config _ _ _ _ _ Hi)|]. rewrite Hdec in Hd'. by injection Hd' as <- <-.
Qed.

Lemma admin_ok self V cmd :
  rt_inv self V → ∃ effs, handle_admin_command self cmd = Some effs ∧
    (∀ dst bytes, Datagram dst bytes ∉ effs) ∧
    match cmd with
    | Snapshot r => effs = [SnapshotReply r (admin_snapshot self)]
    | CellDump r => ∃ dump, effs = [CellDumpReply r dump] ∧ dump_cell <$> cs_cells dump ≡ₚ map_to_list V ∧
        Forall (λ e, is_Some (cd_origin_node_id e)) (cs_cells dump) ∧
        cs_local_identity dump = CellStore.local_identity (store self)
    end.
Proof using.
  intros Hi. destruct cmd as [r|r]; simpl.
  { eexists. split; [done|]. split; [|done]. intros dst bytes ?%list_elem_of_singleton. done. }
  destruct (so_inv _ _ _ _ (ri_store _ _ _ _ _ Hi)) as (A & Mr & Mn & pins & Hat & _).
  unfold build_cell_dump.
  destruct (active_handles_ok (store self) A Mr Mn pins V Hat) as (hs & -> & Hnd & Hmem & Hg).
  cbn [mbind option_bind].
  destruct (dump_rows_ok (store self) A Mr Mn pins V Hat hs) as (cells & -> & Hf & Hs).
  { intros h Hh. split; [|by apply Hg]. apply Hmem, list_elem_of_fmap. by exists h. }
  cbn [mbind option_bind]. eexists. split; [done|].
  split; [intros dst bytes ?%list_elem_of_singleton; done|]. eexists. split; [done|]. simpl.
  split; [by eapply dump_contents|done].
Qed.

(** The tick as the loop sees it. *)
Lemma tick_dispatched self V env :
  rt_inv self V → sink_buf self = DeltaSink.of_rows [] → zlen (peers self) ≤ 2 ^ 50 →
  ∃ self', handle_gossip_tick hmac self env = Some self' ∧
    dispatched self V self' (live_at (store self) (now_millis env) V) ∧
    pending_reply self' = pending_reply self ∧ peers self' ≡ₚ peers self ∧
    stable (store self) (store self') ∧ want_immediate_flush self' = want_immediate_flush self ∧
    ∃ st es, CellStore.expire_at (store self) (now_millis env) (ExpirationSink.of_rows []) = Some (st, es) ∧
      (can_emit (self <| store := st |>) = true →
         ∀ i v, zget (rule_pending self) i = Some v → zget (rule_pending self') i = Some 0).
Proof using CL hmac_len.
  intros Hi Hsk Hp.
  destruct (handle_gossip_tick_ok hmac hmac_len L K self V env Hi Hp)
    as (self' & es & -> & Hi' & [Hc Ha Hst] & Hx' & Hes & Hrep & Hs' & Hr' & _ & Hwf & Hps & st & Hexp & Hpend).
  exists self'. split; [done|]. split; [|split_and!; try done].
  - split; try done; [by apply Hst|constructor|].
    exists [], es, (store self), V. rewrite Hs', Hsk. split_and!; try done.
    + by eapply store_inv_inv, Hi.
    + intros cid. simpl. lia.
    + intros cid. apply reports_total; [apply map_filter_subseteq|done].
  - exists st, (ExpirationSink.of_rows es). split; [done|]. intros Hcan. rewrite Hcan in Hpend.
    intros i v Hv. by apply Hpend in Hv as [? _].
Qed.

(** Discovery alone changes who the peers are. *)
Definition peers_after (o : ArmOutcome) (before after : list SocketAddr) : Prop :=
  NoDup before → NoDup after ∧ ∀ a, a ∈ after ↔
    match o with
    | PeerEventArm (Some (Added b)) => a = b ∨ a ∈ before
    | PeerEventArm (Some (Removed b)) => a ≠ b ∧ a ∈ before
    | _ => a ∈ before
    end.

Lemma peers_after_same o before after :
  match o with PeerEventArm (Some _) => False | _ => True end → after ≡ₚ before → peers_after o before after.
Proof using.
  intros Ho Hp Hnd. rewrite Hp. split; [done|]. intros a. rewrite Hp. by destruct o as [| | |[?|]| |].
Qed.

Lemma dispatch_ok self V done env outcome :
  rt_inv self V → sink_buf self = DeltaSink.of_rows [] →
  expiration_buf self = ExpirationSink.of_rows [] → pending_reply self = None →
  zlen (peers self) ≤ 2 ^ 50 → outcome_ok self outcome →
  ∃ self' done' effs flow V',
    dispatch hmac self done env outcome = Some (self', done', effs, flow) ∧
    dispatched self V self' V' ∧ zlen (peers self') ≤ zlen (peers self) + 1 ∧
    effects_ok self effs ∧
    peers_after outcome (addr <$> peers self) (addr <$> peers self') ∧
    pending_reply self' =
      match outcome with RequestArm (Some (Limit r)) => lr_reply r | _ => None end ∧
    (flow ≠ Continue →
      match outcome with
      | RequestArm None | RequestArm (Some Shutdown) | Inbound (inr _) => True
      | Writable => match try_send_to env with inr OtherIo => True | _ => False end
      | _ => False
      end).
Proof using CL hmac_len.
  intros Hi Hsk Hex Hpr Hp Hok. pose proof no_effects as Hne.
  assert (dispatched self V self V) as Hsame by (by apply dispatched_quiet).
  pose proof (zlen_nonneg (peers self)) as Hpn.
  destruct outcome as [[[r|]|]|[[n src]|e]| |[evt|]|[cmd|]|]; cbn [dispatch outcome_ok] in *.
  - destruct (handle_limit_request_ok hmac L K self V env r Hi Hp Hok)
      as (self' & ds & acc & -> & Hi' & Hout & Hsub & _ & _ & Hs' & Hds & Htot & Hx' & Hr' & Hps & _).
    cbn [mbind option_bind]. eexists self', _, _, _, _. split; [done|].
    split; [|split; [rewrite Hps; lia|]; split; [done|]; split; [by apply peers_after_same; rewrite ?Hps|]; done].
    eapply dispatched_grow; try done; [by econstructor|congruence].
  - eexists self, _, _, _, V. split; [done|]. split; [done|]. split; [lia|]. split; [done|]. split; [by apply peers_after_same|done].
  - eexists self, _, _, _, V. split; [done|]. split; [done|]. split; [lia|]. split; [done|]. split; [by apply peers_after_same|done].
  - destruct (handle_inbound_ok hmac L K self V n src Hi Hok)
      as (self' & V' & ds & bytes & cells & r & -> & Hi' & Hout & Hb & Hdec & Hcase & Hs' & Hds & Htot &
          Hx' & Hr' & Haddr & _).
    cbn [mbind option_bind].
    assert (zlen (peers self') = zlen (peers self)) as Hl.
    { unfold zlen. by rewrite <- (length_fmap addr (peers self')), Haddr, length_fmap. }
    eexists self', _, _, _, V'. split; [done|].
    split; [|split; [lia|]; split; [done|]; split; [by apply peers_after_same; rewrite ?Haddr|]; rewrite Hr'; done].
    eapply dispatched_grow; try done; [|congruence]. eapply inbound_step; try done.
    destruct r; [destruct Hcase as (acc & ? & ? & _); by exists acc|by destruct Hcase].
  - eexists self, _, _, _, V. split; [done|]. split; [done|]. split; [lia|]. split; [done|]. split; [by apply peers_after_same|done].
  - destruct (drain_one_send_ok hmac self env (ri_pool _ _ _ _ _ Hi))
      as (self' & effs & r & -> & (pending & free & -> & Hpl) & Hcase). cbn [mbind option_bind].
    eexists _, _, _, _, V. split; [done|].
    split; [apply dispatched_quiet; try done; destruct Hi; by split|].
    split; [simpl; lia|]. split; [|split; [by apply peers_after_same|]; split; [done|]].
    + destruct (send_pending self) as [|[dst slot] rest]; [by destruct Hcase as (_ & -> & _)|].
      destruct (try_send_to env) as [[]|[]]; [|by destruct Hcase as (_ & -> & _)..].
      destruct Hcase as (_ & _ & _ & bytes & -> & Hv). intros d b [= -> ->]%list_elem_of_singleton. done.
    + destruct (send_pending self) as [|[dst slot] rest]; [by destruct Hcase as (_ & _ & ->)|].
      destruct (try_send_to env) as [[]|[]];
        [by destruct Hcase as (_ & _ & -> & _)|by destruct Hcase as (_ & _ & ->)|done].
  - destruct (handle_peer_event_ok hmac L K self V evt Hi)
      as (self' & -> & Hi' & [Hc Ha Hst] & Hs' & Hx' & Hr' & _ & _ & _ & Hl & Hnd).
    cbn [mbind option_bind]. eexists self', _, _, _, V. split; [done|].
    split; [apply dispatched_quiet; try done; apply Hst|]. split; [done|]. split; [done|].
    split; [intros Hx; destruct evt; by apply Hnd|]. by rewrite Hr'.
  - eexists self, _, _, _, V. split; [done|]. split; [done|]. split; [lia|]. split; [done|]. split; [by apply peers_after_same|done].
  - destruct (admin_ok self V cmd Hi) as (effs & -> & Heff & _). cbn [mbind option_bind].
    eexists self, _, _, _, V. split; [done|]. split; [done|]. split; [lia|].
    split; [|split; [by apply peers_after_same|done]]. intros dst bytes Hin. by destruct (Heff dst bytes).
  - eexists _, _, _, _, V. split; [done|].
    split; [apply dispatched_quiet; try done; destruct Hi; by split|]. split; [simpl; lia|]. split; [done|].
    split; [by apply peers_after_same|done].
  - destruct (tick_dispatched self V env Hi Hsk Hp) as (self' & -> & Hd & Hr' & Hps & _).
    cbn [mbind option_bind]. eexists self', _, _, _, _. split; [done|]. split; [exact Hd|].
    split; [unfold zlen; rewrite (Permutation_length Hps); lia|]. split; [done|].
    split; [by apply peers_after_same; rewrite ?Hps|by rewrite Hr'].
Qed.

(** ** One iteration *)
Definition same_world self self' : Prop :=
  config self' = config self ∧
  CellStore.local_identity (store self') = CellStore.local_identity (store self).

(** [select!] hands out a state of the loop and an outcome fit for it. *)
Lemma next_outcome_ok rs V env rd self o :
  loop_inv (rs_self rs) V → event_ok (config (rs_self rs)) (env, rd) →
  next_outcome rs rd = Some (self, o) →
  loop_inv self V ∧ outcome_ok self o ∧ config self = config (rs_self rs) ∧
  store self = store (rs_self rs) ∧ peers self = peers (rs_self rs).
Proof using.
  intros Hi (_ & Hreq & Hrecv). pose proof Hi as [Hri Hsk Hex Hpr Hm]. unfold next_outcome, select.
  destruct (want_immediate_flush (rs_self rs)).
  { intros [= <- <-]. split; [|done]. split; try done. eapply (rt_inv_store hmac L K (rs_self rs) V); try done; apply Hri. }
  simpl in Hreq, Hrecv. destruct (rd_request rd) as [req|].
  { intros [= <- <-]. split; [done|]. split; [|done]. destruct req as [[r|]|]; try done. by apply Hreq. }
  destruct (rd_recv rd) as [[[[buf n] src]|e]|].
  { destruct (Hrecv _ _ _ eq_refl) as (Hb & Hl & Hn). intros [= <- <-].
    split; [|by split_and!]. destruct Hri. split; try done; by split. }
  { by intros [= <- <-]. }
  destruct (_ && _); [by intros [= <- <-]|].
  destruct (if peer_events_done rs then _ else _) as [evt|]; [by intros [= <- <-]|].
  destruct (if admin_rx (rs_self rs) then _ else _) as [cmd|]; [by intros [= <- <-]|].
  destruct (rd_tick rd); [by intros [= <- <-]|done].
Qed.

Lemma iteration_ok rs V env rd :
  loop_inv (rs_self rs) V → event_ok (config (rs_self rs)) (env, rd) →
  zlen (peers (rs_self rs)) ≤ 2 ^ 50 →
  ∃ rs' effs flow V', iteration hmac rs env rd = Some (rs', effs, flow) ∧
    node_step (CellStore.local_identity (store (rs_self rs))) V V' ∧
    (flow = Continue → loop_inv (rs_self rs') V') ∧ same_world (rs_self rs) (rs_self rs') ∧
    zlen (peers (rs_self rs')) ≤ zlen (peers (rs_self rs)) + 1 ∧ effects_ok (rs_self rs) effs ∧
    peers_after (match next_outcome rs rd with Some (_, o) => o | None => Tick end)
      (addr <$> peers (rs_self rs)) (addr <$> peers (rs_self rs')).
Proof using CL Hw hmac_len.
  intros Hi Hev Hp. rewrite iteration_eq. destruct (next_outcome rs rd) as [[self o]|] eqn:En.
  2:{ exists rs, [], Continue, V. split; [done|]. split; [constructor|]. split; [done|].
      split; [done|]. split; [lia|]. split; [apply no_effects|by apply peers_after_same]. }
  destruct (next_outcome_ok rs V env rd self o Hi Hev En) as (Hi1 & Ho & Hc & Hst & Hps).
  pose proof Hi1 as [Hri Hsk Hex Hpr Hm]. rewrite <- Hps in *.
  destruct (dispatch_ok self V (peer_events_done rs) env o Hri Hsk Hex Hpr Hp Ho)
    as (self' & done' & effs & flow & V' & -> & Hd & Hl & Heff & Hnd & Hrep & _).
  cbn [mbind option_bind].
  assert (effects_ok (rs_self rs) effs) as Heff' by (intros d b Hin; rewrite <- Hc, <- Hst; by apply (Heff d b)).
  pose proof (dp_step _ _ _ _ Hd) as Hstep. rewrite Hst in Hstep.
  destruct flow as [|r].
  - destruct (finish_iteration_ok self V self' V' Hri Hm Hd)
      as (self2 & -> & Hi2 & Hc2 & Hps2 & _ & _ & _ & Hst2 & _). cbn [mbind option_bind].
    eexists _, _, Continue, V'. split; [done|]. split; [done|]. split; [done|]. simpl.
    split; [split; [congruence|rewrite Hst2, (dp_identity _ _ _ _ Hd); congruence]|].
    rewrite Hps2. split; [done|]. split; [|done].
    intros d b [?|Hin]%elem_of_app; [by apply (Heff' d b)|].
    destruct (pending_reply self'); [by apply list_elem_of_singleton in Hin|by apply elem_of_nil in Hin].
  - eexists _, effs, (Return r), V'. split; [done|]. split; [done|]. split; [done|]. simpl.
    split; [split; [rewrite (dp_config _ _ _ _ Hd); congruence|rewrite (dp_identity _ _ _ _ Hd); congruence]|].
    done.
Qed.

(** ** Runs *)
Lemma effects_ok_world self self' effs : same_world self self' → effects_ok self' effs → effects_ok self effs.
Proof using. intros [Hc Hid] He d b Hin. rewrite <- Hc, <- Hid. by apply (He d b). Qed.

Lemma run_ok evs : ∀ rs V,
  loop_inv (rs_self rs) V → Forall (event_ok (config (rs_self rs))) evs →
  zlen (peers (rs_self rs)) + zlen evs ≤ 2 ^ 50 →
  ∃ rs' effs flow V', run hmac rs evs = Some (rs', effs, flow) ∧
    rtc (node_step (CellStore.local_identity (store (rs_self rs)))) V V' ∧
    (flow = Continue → loop_inv (rs_self rs') V') ∧ effects_ok (rs_self rs) effs ∧
    same_world (rs_self rs) (rs_self rs') ∧
    (NoDup (addr <$> peers (rs_self rs)) → NoDup (addr <$> peers (rs_self rs'))).
Proof using CL Hw hmac_len.
  induction evs as [|[env rd] evs IH]; intros rs V Hi Hev Hp; cbn [run].
  { exists rs, [], Continue, V. split; [done|]. split; [done|]. split; [done|]. split; [apply no_effects|done]. }
  apply Forall_cons in Hev as [Hev Hevs].
  assert (zlen ((env, rd) :: evs) = zlen evs + 1) as Hlen by (unfold zlen; simpl; lia).
  pose proof (zlen_nonneg evs).
  destruct (iteration_ok rs V env rd Hi Hev ltac:(lia))
    as (rs1 & effs & flow & V1 & -> & Hs & Hi1 & Hsw & Hl & Heff & Hnd). cbn [mbind option_bind].
  destruct flow as [|r].
  2:{ eexists rs1, effs, (Return r), V1. split; [done|]. split; [by apply rtc_once|].
      split_and!; try done. intros Hx. by apply Hnd. }
  destruct (IH rs1 V1 (Hi1 eq_refl)) as (rs2 & effs2 & flow2 & V2 & -> & Hs2 & Hi2 & Heff2 & Hsw2 & Hnd2).
  { by rewrite (proj1 Hsw). }
  { lia. }
  cbn [mbind option_bind]. eexists rs2, _, flow2, V2. split; [done|].
  rewrite (proj2 Hsw) in Hs2. split; [by eapply rtc_l|]. split; [done|].
  split; [|split; [destruct Hsw, Hsw2; split; congruence|intros Hx; apply Hnd2; by apply Hnd]].
  intros d b [?|Hin]%elem_of_app; [by apply (Heff d b)|]. by apply (effects_ok_world _ _ effs2 Hsw Heff2 d b).
Qed.
End loop.
