(* ===== verification/RuntimeView.v ===== *)
(** * The gossip event loop against the bounded view

    What a run does to the cell store, call by call: every arm the loop
    dispatches is replayed on the [View] of the store.  A limit request is one
    local observation, a datagram that decodes is the batch of its cells, a tick
    drops the cells outside their windows; no other arm touches the counts.  The
    replay takes from the runtime only which arm is served next. *)

From S2P Require Import Prelude Types Hash Index Freelist Dictionary DirtyRing PeerFrontier IO CellStore CellSlots CellInv CellOps CellMerge CellExpire GossipFrame CellTyped View StoreSpec Bytes WireHeader WireBody WirePlan WireCodec Wire WireTyped Exchange DashMap Mirror Runtime RuntimeSend RuntimeAdmin RuntimeInv RuntimeStep RuntimeLoop.
Import GossipRuntime.

(** [peel] through tuples. *)
Ltac opened H :=
  repeat (let x := fresh "x" in let E := fresh "E" in apply bind_Some in H as (x & E & H);
          repeat match goal with p : prod _ _ |- _ => destruct p end).

(** ** The replay *)
Section replay.
Context `{C : Count} (hmac : list Z → list Z → list Z) {S : Type} `{AggregateStore S}.
Context (scfg : CellStoreConfig) (id : NodeIdentity).

(** What a datagram reports: the cells of a packet that decodes and is
    authentic, nothing for any other. *)
Definition reported (c : GossipConfig) (buf : list Z) (n : Z) : list Observation :=
  match bytes ← zslice buf 0 n; decode_inner hmac bytes (gc_auth_key c) (gc_wire_limits c) (λ _, true) with
  | Some (cells, inl _) => observation_from_wire <$> cells
  | _ => []
  end.

Definition outcome_view (c : GossipConfig) (buf : list Z) (now : Z) (W : View) (o : ArmOutcome) : View :=
  match o with
  | RequestArm (Some (Limit r)) => ingest_view scfg id W (request_obs r)
  | Inbound (inl (n, _)) => foldl (merge_view scfg) W (reported c buf n)
  | Tick => expire_at_view id W now
  | _ => W
  end.

Definition iteration_view (rs : @RunState S) (env : Env) (rd : Ready) (W : View) : View :=
  match next_outcome rs rd with
  | Some (self, o) => outcome_view (config self) (recv_buf self) (now_millis env) W o
  | None => W
  end.

Fixpoint run_view (rs : @RunState S) (evs : list (Env * Ready)) (W : View) : View :=
  match evs with
  | [] => W
  | (env, rd) :: evs =>
    let W := iteration_view rs env rd W in
    match iteration hmac rs env rd with Some (rs, _, Continue) => run_view rs evs W | _ => W end
  end.
End replay.

(** The view of a store with its rules registered. *)
Definition started_view (scfg : CellStoreConfig) (id : NodeIdentity) (rules : list RuleDescriptor) : View :=
  foldl (intern_rule_view scfg) (view_new id) rules.

(** ** What handlers leave alone *)
Section frame.
Context {C : Count} (hmac : list Z → list Z → list Z) {S : Type} `{AggregateStore S}.
Implicit Types (self : t S).

Lemma swap_perm {A} (l l' : list A) i j : Runtime.swap l i j = Some l' → l' ≡ₚ l.
Proof using.
  intros He. pose proof He as Hs. unfold Runtime.swap in Hs. opened Hs.
  destruct (swap_ok l i j) as (l2 & He2 & Hp); [by eapply zget_Some_range..|]. congruence.
Qed.

Lemma pick_peers_perm n k ps g ps' g' : pick_peers n k ps g = Some (ps', g') → ps' ≡ₚ ps.
Proof using.
  intros He. change (ps' ≡ₚ ps) with ((λ st : list Peer * Z, st.1 ≡ₚ ps) (ps', g')).
  eapply (for_each_partial (λ st, st.1 ≡ₚ ps)); [exact He| |done].
  intros [ps1 g1] i st Hp Hs. unfold shuffle_step in Hs. destruct (SplitMix64.next_u64 g1) as [g2 r].
  apply bind_Some in Hs as (m & _ & Hs). destruct (m =? 0); [done|]. opened Hs. injection Hs as <-.
  cbn in *. rewrite <- Hp. by eapply swap_perm.
Qed.

Lemma encode_loop_frame fuel self dst packets self' packets' :
  encode_loop hmac fuel self dst packets = Some (self', packets') →
  peers self' = peers self ∧ store self' = store self ∧ config self' = config self.
Proof using.
  revert self packets. induction fuel as [|fuel IH]; intros self packets He; [done|]. cbn [encode_loop] in He.
  destruct (vec_pop (send_free self)) as [[free slot]|]; [|by injection He as <- _]. opened He.
  match type of He with context [match ?r with _ => _ end] => destruct r as [[?|]|] end;
    [by apply IH in He as (-> & -> & ->)|by injection He as <- _..].
Qed.

Lemma encode_frame self dst self' :
  encode_packets_for hmac self dst = Some self' →
  peers self' = peers self ∧ store self' = store self ∧ config self' = config self.
Proof using.
  unfold encode_packets_for. intros He.
  destruct (match gc_auth_key _ with Some _ => _ | None => _ end); [|by injection He as <-].
  opened He. injection He as <-. match goal with Hk : encode_loop _ _ _ _ _ = Some _ |- _ => by apply encode_loop_frame in Hk end.
Qed.

(** One peer of a tick: only its frame is filled. *)
Lemma gossip_to_frame self i self' b : gossip_to hmac self i = Some (self', b) →
  peers self' = peers self ∧ config self' = config self ∧
  (store self' = store self ∨ ∃ p handles, p ∈ peers self ∧
     match p_peer_slot p with
     | Some slot => CellStore.fill_gossip_frame_for_peer (store self) (gc_max_cells_per_tick (config self)) slot
     | None => CellStore.fill_gossip_frame (store self) (gc_max_cells_per_tick (config self))
     end = Some (store self', handles)).
Proof using.
  unfold gossip_to. intros He. case_bool_decide; [injection He as <- _; auto|]. opened He.
  assert (x ∈ peers self) as Hx by (by eapply zget_elem_of).
  case_bool_decide; [injection He as <- _; cbn; eauto 8|]. opened He. injection He as <- _.
  match goal with Hk : encode_packets_for _ _ _ = Some _ |- _ => apply encode_frame in Hk as (-> & -> & ->) end. cbn. eauto 8.
Qed.

Lemma note_pending_frame self env req self' : note_pending self env req = Some self' →
  peers self' = peers self ∧ store self' = store self ∧ config self' = config self.
Proof using.
  unfold note_pending. intros Hn. opened Hn. case_match; [|by injection Hn as <-]. opened Hn.
  case_match; [|by injection Hn as <-]. opened Hn. by case_match; injection Hn as <-.
Qed.

Lemma finish_frame self self' acks : finish_iteration self = Some (self', acks) →
  peers self' = peers self ∧ store self' = store self.
Proof using.
  unfold finish_iteration. intros He. opened He. injection He as <- _. unfold finish_observed, apply_rows in E.
  apply bind_Some in E as (self1 & Ha & He).
  assert (peers self1 = peers self ∧ store self1 = store self) as [<- <-]
    by (destruct (_ || _); [opened Ha; by injection Ha as <-|by injection Ha as <-]).
  destruct (_ <? _) in He; destruct (pending_reply _); by injection He as <- _.
Qed.

Lemma next_outcome_frame (rs : @RunState S) rd self o : next_outcome rs rd = Some (self, o) →
  peers self = peers (rs_self rs) ∧ store self = store (rs_self rs) ∧ config self = config (rs_self rs).
Proof using. unfold next_outcome, select. intros Ho. repeat (case_match; simplify_eq); done. Qed.

Lemma drain_frame self env self' effs r : drain_one_send self env = Some (self', effs, r) →
  peers self' = peers self ∧ store self' = store self.
Proof using.
  unfold drain_one_send. intros He. destruct (send_pending self) as [|[dst slot] rest]; [by injection He as <- _ _|].
  opened He. repeat case_match; by injection He as <- _ _.
Qed.

Lemma record_acks_frame acks p st st' : record_acks acks p st = Some st' →
  ∃ pf, st' = st <| CellStore.peer_frontiers := pf |>.
Proof using.
  intros He. unfold record_acks in He.
  eapply (for_each_partial (λ s, ∃ pf, s = st <| CellStore.peer_frontiers := pf |>)) in He; [done| |].
  - intros s i s' (pf & ->) Hs. opened Hs. case_match; [|injection Hs as <-; by exists pf]. opened Hs. injection Hs as <-. by eexists.
  - exists (CellStore.peer_frontiers st). by destruct st.
Qed.
End frame.

(** ** The store follows the replay *)
Section follow.
Context {C : Count} {CL : CountLaws C} (Hw : narrow) (hmac : list Z → list Z → list Z).
Context (hmac_len : tags_ok hmac).
Context {S : Type} `{AggregateLaws S} (L : gset Z).
Context (scfg : CellStoreConfig) (id : NodeIdentity).
Implicit Types (self : t S).
Abbreviation K := (peer_capacity scfg).
Abbreviation views := (views scfg id).
Abbreviation rt_inv := (rt_inv hmac L K).
Abbreviation loop_inv := (loop_inv hmac L K).
Abbreviation outcome_view := (outcome_view hmac scfg id).

(** A call of the store, named by its [op]. *)
Lemma called st W o st' :
  views st W → op_ok scfg o → exec st o = Some st' → views st' (spec scfg id (slot_of st) W o).
Proof using CL.
  intros Hv Ho He. destruct (exec_ok scfg id st W o Hv Ho) as (s & He' & Hv'). congruence.
Qed.

(** A new frontier table that the store's invariant accepts. *)
Lemma new_frontiers st W pf V :
  views st W → store_inv L K (st <| CellStore.peer_frontiers := pf |>) V → views (st <| CellStore.peer_frontiers := pf |>) W.
Proof using.
  intros Hv Hs. destruct (views_frontier scfg id st W Hv) as (_ & Hpc & Hnc).
  pose proof (ct_peers _ _ (so_cols _ _ _ _ Hs)) as Hp. destruct (so_inv _ _ _ _ Hs) as (A & Mr & Mn & pins & Hi & _).
  pose proof (iv_lanes _ _ _ _ _ _ Hi) as Hl. apply frontier_view; [done|apply Hl| |].
  - simpl in Hp. congruence.
  - pose proof (li_frontier_nodes _ Hl) as Hn. simpl in Hn. rewrite Hn, Hnc. apply Hv.
Qed.

Lemma request_view self W env r self' :
  handle_limit_request self env r = Some self' → request_typed r → views (store self) W →
  views (store self') (ingest_view scfg id W (request_obs r)).
Proof using CL.
  intros He Hr Hv. unfold handle_limit_request in He. apply bind_Some in He as (self1 & Hn & He).
  apply note_pending_frame in Hn as (_ & Hst & _). opened He. injection He as <-. cbn.
  apply (called (store self) W (IngestLocal [request_obs r])); [done|by apply Forall_singleton, request_obs_ok|].
  cbn [exec]. change (ObservationBatch.push (ObservationBatch.clear (obs_buf self1)) _)
    with (ObservationBatch.of_rows [request_obs r]) in E.
  change (DeltaSink.clear (sink_buf self1)) with (DeltaSink.of_rows []) in E. rewrite Hst in E. by rewrite E.
Qed.

Lemma inbound_view self V W n src self' now :
  handle_inbound hmac self n src = Some self' → rt_inv self V → 0 ≤ n ≤ zlen (recv_buf self) → views (store self) W →
  views (store self') (outcome_view (config self) (recv_buf self) now W (Inbound (Ok (n, src)))).
Proof using CL.
  intros He Hi Hn Hv.
  destruct (handle_inbound_ok hmac L K self V n src Hi Hn)
    as (self2 & V' & ds & bytes & cells & r & He2 & Hi' & _ & Hb & Hd & Hr & _).
  assert (self2 = self') as -> by congruence. clear He2.
  assert (Forall byte bytes) as Hbytes by (eapply zslice_byte; [apply Hi|exact Hb]).
  destruct (decode_inner_total hmac bytes (gc_auth_key (config self)) (gc_wire_limits (config self)) (λ _, true) Hbytes)
    as (cells2 & r2 & Hd2 & Hct & _); [apply (ri_config _ _ _ _ _ Hi)|]. rewrite Hd in Hd2. injection Hd2 as <- <-.
  cbn [RuntimeView.outcome_view]. unfold reported. rewrite Hb. cbn [mbind option_bind]. rewrite Hd.
  destruct r as [summary|e]; [|by destruct Hr as (_ & -> & _)].
  unfold handle_inbound in He. rewrite Hb in He. cbn [mbind option_bind] in He.
  assert (match gc_auth_key (config self) with
    | Some key => decode_auth_visit hmac bytes key (gc_wire_limits (config self)) (λ _, true)
    | None => decode_unauth_visit hmac bytes (gc_wire_limits (config self)) (λ _, true)
    end = Some (cells, inl summary)) as Hm by (by destruct (gc_auth_key (config self))).
  rewrite Hm in He. cbn [mbind option_bind] in He.
  change (AckColumns.clear (ack_buf self), ObservationBatch.clear (obs_buf self))
    with (acks_of [], ObservationBatch.of_rows (observation_from_wire <$> [])) in He.
  rewrite on_cell_rows in He. cbn [app] in He. change (DeltaSink.clear (sink_buf self)) with (DeltaSink.of_rows []) in He.
  apply bind_Some in He as ([st sink] & Hmerge & He).
  assert (views st (foldl (merge_view scfg) W (observation_from_wire <$> cells))) as Hv1.
  { apply (called (store self) W (MergeRemote (observation_from_wire <$> cells))); [done| |cbn [exec]; cbn in Hmerge; by rewrite Hmerge].
    apply Forall_fmap. eapply Forall_impl; [exact Hct|]. intros c (_ & _ & _ & _ & _ & ? & _). done. }
  pose proof (ri_store _ _ _ _ _ Hi') as Hs'. opened He. destruct o as [slot|].
  - opened He. injection He as <-. cbn in *.
    match goal with Hk : record_acks _ _ _ = Some _ |- _ => apply record_acks_frame in Hk as (pf & ->) end.
    by eapply (new_frontiers st _ pf).
  - injection He as <-. cbn in *. by eapply new_frontiers.
Qed.

Lemma peer_event_view self V W evt self' :
  handle_peer_event self evt = Some self' → rt_inv self V → views (store self) W → views (store self') W.
Proof using.
  intros He Hi Hv. destruct (handle_peer_event_runs hmac L K self V evt Hi) as (self2 & He2 & Hi' & _).
  assert (self2 = self') as -> by congruence. pose proof (ri_store _ _ _ _ _ Hi') as Hs'. destruct evt as [a|a]; cbn [handle_peer_event] in He.
  - injection He as <-. by destruct (existsb _ _).
  - destruct (PeerFrontierTable.position _ _ _); [|by injection He as <-]. opened He. case_match; [|by injection He as <-].
    opened He. injection He as <-. by eapply new_frontiers.
Qed.

Lemma gossip_to_view self W i self' b :
  gossip_to hmac self i = Some (self', b) → Forall (peer_ok K) (peers self) → 0 ≤ gc_max_cells_per_tick (config self) →
  views (store self) W → views (store self') W.
Proof using CL.
  intros He Hp Hm Hv. apply gossip_to_frame in He as (_ & _ & [->|(p & hs & Hin & Hf)]); [done|].
  rewrite Forall_forall in Hp. specialize (Hp p Hin). unfold peer_ok in Hp.
  destruct (p_peer_slot p) as [slot|]; [destruct (p_node_id p); [|done]|].
  - eapply (called _ W (FillFrameForPeer _ slot)); [done|by split|]. cbn [exec]. by rewrite Hf.
  - eapply (called _ W (FillFrame _)); [done|done|]. cbn [exec]. by rewrite Hf.
Qed.

Lemma gossip_all_view l : ∀ self W self',
  for_each_while l self (gossip_to hmac) = Some self' → Forall (peer_ok K) (peers self) →
  0 ≤ gc_max_cells_per_tick (config self) → views (store self) W → views (store self') W.
Proof using CL.
  induction l as [|i l IH]; intros self W self' He Hp Hm Hv; cbn [for_each_while] in He; [by injection He as <-|].
  apply bind_Some in He as ([self1 b] & H1 & He). pose proof (gossip_to_view _ _ _ _ _ H1 Hp Hm Hv) as Hv1.
  apply gossip_to_frame in H1 as (Hps & Hc & _). destruct b; [|by injection He as <-].
  eapply IH; [exact He|by rewrite Hps|by rewrite Hc|done].
Qed.

Lemma tick_view self V W env self' :
  handle_gossip_tick hmac self env = Some self' → rt_inv self V → views (store self) W →
  views (store self') (expire_at_view id W (now_millis env)).
Proof using CL.
  intros He Hi Hv. unfold handle_gossip_tick in He. apply bind_Some in He as ([st expired] & Hx & He).
  assert (views st (expire_at_view id W (now_millis env))) as Hv1.
  { apply (called (store self) W (ExpireAt (now_millis env))); [done|done|]. cbn [exec]. cbn in Hx.
    change (ExpirationSink.clear (expiration_buf self)) with (ExpirationSink.of_rows []) in Hx. by rewrite Hx. }
  case_match; [by injection He as <-|]. opened He. injection He as <-. cbn.
  eapply gossip_all_view; [done|cbn|cbn|done].
  - match goal with Hk : pick_peers _ _ _ _ = Some _ |- _ => apply pick_peers_perm in Hk; rewrite Hk end. apply Hi.
  - apply (ri_config _ _ _ _ _ Hi).
Qed.

Lemma dispatch_view self V W done env o self' done' effs flow :
  dispatch hmac self done env o = Some (self', done', effs, flow) → rt_inv self V → outcome_ok self o →
  views (store self) W → views (store self') (outcome_view (config self) (recv_buf self) (now_millis env) W o).
Proof using CL Hw.
  intros He Hi Ho Hv. destruct o as [[[r|]|]|[[n src]|e]| |[evt|]|[c|]|]; cbn [dispatch outcome_ok] in *;
    opened He; injection He as <- _ _ _; try exact Hv; try (by cbn).
  - by eapply request_view.
  - by eapply inbound_view.
  - match goal with Hk : drain_one_send _ _ = Some _ |- _ => apply drain_frame in Hk as [_ ->] end. done.
  - by eapply peer_event_view.
  - by eapply tick_view.
Qed.

Lemma iteration_follows (rs : @RunState S) V W env rd rs' effs flow :
  iteration hmac rs env rd = Some (rs', effs, flow) → loop_inv (rs_self rs) V → event_ok (config (rs_self rs)) (env, rd) →
  views (store (rs_self rs)) W → views (store (rs_self rs')) (iteration_view hmac scfg id rs env rd W).
Proof using CL Hw.
  rewrite iteration_eq. unfold iteration_view. intros He Hi Hev Hv.
  destruct (next_outcome rs rd) as [[self o]|] eqn:En; [|by injection He as <- _ _].
  destruct (next_outcome_ok hmac L K rs V env rd self o Hi Hev En) as ([Hri _ _ _ _] & Ho & _).
  apply next_outcome_frame in En as (_ & Hst & _). rewrite <- Hst in Hv. apply bind_Some in He as ([[[self1 d] e] fl] & Hd & He).
  pose proof (dispatch_view _ _ _ _ _ _ _ _ _ _ Hd Hri Ho Hv) as Hv1. destruct fl; [|by injection He as <- _ _].
  apply bind_Some in He as ([self2 acks] & Hf & He). apply finish_frame in Hf as [_ Hs2]. injection He as <- _ _. cbn. by rewrite Hs2.
Qed.

Lemma run_follows evs : ∀ (rs : @RunState S) V W rs' effs flow,
  run hmac rs evs = Some (rs', effs, flow) → loop_inv (rs_self rs) V → Forall (event_ok (config (rs_self rs))) evs →
  zlen (peers (rs_self rs)) + zlen evs ≤ 2 ^ 50 → views (store (rs_self rs)) W →
  views (store (rs_self rs')) (run_view hmac scfg id rs evs W).
Proof using CL Hw hmac_len.
  induction evs as [|[env rd] evs IH]; intros rs V W rs' effs flow He Hi Hev Hp Hv; cbn [run run_view] in *;
    [by injection He as <- _ _|].
  apply Forall_cons in Hev as [Hev Hevs]. assert (zlen ((env, rd) :: evs) = zlen evs + 1) as Hlen by (unfold zlen; simpl; lia).
  pose proof (zlen_nonneg evs).
  destruct (iteration_ok Hw hmac hmac_len L K rs V env rd Hi Hev ltac:(lia))
    as (rs1 & effs1 & flow1 & V1 & Hit & _ & Hi1 & [Hc _] & Hl & _).
  pose proof (iteration_follows _ _ _ _ _ _ _ _ Hit Hi Hev Hv) as Hv1. rewrite Hit in He |- *. cbn [mbind option_bind] in He.
  destruct flow1; [|by injection He as <- _ _]. opened He. injection He as <- _ _.
  eapply (IH rs1 V1); [done|by apply Hi1|by rewrite Hc|lia|done].
Qed.

(** Both accounts of a store name the same counts. *)
Lemma views_counts st V W : store_inv L K st V → views st W → V = vw_cells W.
Proof using CL.
  intros Hs Hv. apply map_eq. intros n. pose proof (read_ok st V n (store_inv_inv _ _ _ _ Hs)) as H1.
  rewrite (read_ok st _ n (views_inv scfg id _ _ Hv)) in H1. congruence.
Qed.

Lemma register_view rules : ∀ st W st', register st rules = Some (Some st') → views st W →
  views st' (foldl (intern_rule_view scfg) W rules).
Proof using CL.
  induction rules as [|d rules IH]; intros st W st' He Hv; cbn [register foldl] in *; [by injection He as <-|].
  destruct (intern_rule_view_ok scfg id st W d Hv) as (st1 & r & Hr & Hv1). rewrite Hr in He. cbn [mbind option_bind] in He.
  destruct r; [|done]. by eapply IH.
Qed.

Lemma new_register_view rules st0 st :
  config_ok scfg → CellStore.new scfg id = Some st0 → register st0 rules = Some (Some st) → views st (started_view scfg id rules).
Proof using CL.
  intros Hc Hn Hr. destruct (new_view scfg id Hc) as (s & Hn' & Hv). assert (s = st0) as -> by congruence. by eapply register_view.
Qed.
End follow.
