(* ===== verification/RuntimeSpec.v ===== *)
(** * The gossip event loop: what it promises

    The properties of the loop as its users see them: rate-limit adapters that
    record hits and read the aggregate store, peers that receive its packets,
    operators who read the admin channel. *)

From S2P Require Import Prelude Types Hash Index Freelist Dictionary DirtyRing PeerFrontier IO CellStore CellSlots CellInv CellOps CellMerge CellExpire GossipFrame CellTyped View StoreSpec Bytes WireHeader WireBody WirePlan WireCodec Wire WireTyped Exchange DashMap Mirror Runtime RuntimeSend RuntimeAdmin RuntimeInv RuntimeStep RuntimeLoop RuntimeView.
Import GossipRuntime.
#[local] Existing Instances DashMapStore.aggregate DashMapStore.aggregate_laws.

Section start.
Context {C : Count} {CL : CountLaws C} (hmac : list Z → list Z → list Z).
Context {S : Type} `{AggregateLaws S} (L : gset Z) (K : Z).

(** The runtime as the adapters construct it. *)
Lemma from_parts_ok config st agg admin :
  config_wf config → store_inv L K st ∅ → agg_ok agg → (∀ cid, agg_read agg cid = 0) →
  loop_inv hmac L K (from_parts_with_admin config st agg admin) ∅.
Proof using.
  intros Hc Hs Hok Hr. pose proof (cw_payload _ Hc). unfold from_parts_with_admin.
  destruct (so_inv _ _ _ _ Hs) as (A & Mr & Mn & pins & Hi & _).
  pose proof (di_cap _ _ _ _ (ti_rules _ _ _ _ _ (iv_dicts _ _ _ _ _ _ Hi))) as Hcap.
  split; try done.
  - split; simpl; try done; rewrite ?zlen_replicate; try lia.
    + by eapply scratch_for_store, Hi.
    + apply Forall_replicate. unfold byte, uint. lia.
    + apply pool_inv_initial. rewrite zlen_replicate. lia.
    + apply Forall_fmap, Forall_forall. intros a _. done.
    + apply Forall_replicate. unfold uint. lia.
  - split; [done|]. intros cid. rewrite Hr. unfold total. rewrite map_fold_empty. by case_decide.
Qed.
End start.

(** A node's store: fresh, with the configured rules registered. *)
Definition started `{C : Count} (scfg : CellStoreConfig) (id : NodeIdentity)
    (rules : list RuleDescriptor) : option (option CellStore.t) :=
  st ← CellStore.new scfg id; register st rules.

Lemma started_ok {C : Count} {CL : CountLaws C} scfg id rules st :
  config_ok scfg → uint 128 (node_id id) → uint 32 (ni_incarnation id) →
  Forall (λ d, applies_locally d = true) rules → started scfg id rules = Some (Some st) →
  store_inv (fingerprints rules) (peer_capacity scfg) st ∅ ∧ CellStore.local_identity st = id.
Proof.
  intros Hc Hn Hi Hr. destruct (new_register_ok scfg id rules Hc Hr) as (st0 & r & Hnew & Hreg & Hok).
  unfold started. rewrite Hnew. cbn [mbind option_bind]. rewrite Hreg. intros [= ->].
  destruct (Hok st eq_refl) as (Hinv & Hcols & Hst & Hid).
  assert (CellStore.local_identity st = id) as Hid' by (rewrite (st_identity _ _ Hst); done).
  split; [|done].
  split; [done|exact Hcols|by intros n c ?%lookup_empty_Some|by rewrite Hid'|by rewrite Hid'].
Qed.

Lemma started_views {C : Count} {CL : CountLaws C} scfg id rules st :
  config_ok scfg → started scfg id rules = Some (Some st) → views scfg id st (started_view scfg id rules).
Proof.
  intros Hc Hs. unfold started in Hs. apply bind_Some in Hs as (st0 & Hn & Hr). by eapply new_register_view.
Qed.

(** ** A small node *)
Definition node_rule : RuleDescriptor :=
  RuleDescriptor_default <| fingerprint := 11 |> <| limit := 100 |> <| local_rule_id := 0 |>.
Definition node_peer : SocketAddr := V4 167772162 7946.
Definition node_config : GossipConfig :=
  GossipConfig_default 42 <| gc_bootstrap_peers := [node_peer] |>
    <| gc_wire_limits := sample_limits |> <| gc_auth_key := Some [1; 2] |>.
Definition node_request : LimitRequest := {|
  lr_rule_fingerprint := 11; lr_key_hash := 5; lr_bucket := 3; lr_hits := 4;
  lr_rule_limit := 100; lr_now_millis := 3000; lr_reply := Some 9 |}.
Definition quiet : Ready := {|
  rd_request := None; rd_recv := None; rd_writable := false; rd_peer_event := None;
  rd_admin := None; rd_tick := false |}.
Definition sent_at (now : Z) : Env := {| now_millis := now; try_send_to := Ok () |}.
Definition node_events : list (Env * Ready) :=
  [(sent_at 3000, quiet <| rd_request := Some (Some (Limit node_request)) |>);
   (sent_at 3001, quiet <| rd_tick := true |>);
   (sent_at 3002, quiet <| rd_writable := true |>)].

Lemma node_config_wf : config_wf node_config.
Proof. split; simpl; unfold uint, U32_MAX; lia. Qed.

Lemma node_events_ok : Forall (event_ok node_config) node_events.
Proof.
  assert (request_typed node_request) by (unfold request_typed, uint; simpl; lia).
  repeat apply Forall_cons_2; [..|constructor]; (split; [unfold uint; simpl; lia|]); split; try done.
  by intros r [= <-].
Qed.

Lemma node_rules_ok : Forall (λ d, applies_locally d = true) [node_rule].
Proof. by repeat constructor. Qed.

(** The node when it starts, and the invariant it starts with. *)
Definition node_store : option (option CellStore.t) := @started Count_u16 sample_config sample_id [node_rule].
Definition node_runtime (st : CellStore.t) : RunState :=
  {| rs_self := from_parts_with_admin node_config st (∅ : DashMapStore.t) true; peer_events_done := false |}.

Lemma node_store_started : ∃ st, node_store = Some (Some st).
Proof. eexists. vm_compute. reflexivity. Qed.

Lemma node_store_room : ∃ st, node_store = Some (Some st) ∧ room st 1.
Proof. eexists. split; [vm_compute; reflexivity|]. vm_compute. split_and!; discriminate. Qed.

Lemma sample_tags_ok : tags_ok sample_hmac.
Proof. intros key payload. split; [apply sample_hmac_len|]. apply to_le_bytes_bytes. Qed.

Lemma narrow_u16 : @narrow Count_u16.
Proof. unfold narrow. vm_compute. done. Qed.

Definition node_inv (rs : @RunState DashMapStore.t) (V : gmap CellName Z) : Prop :=
  @loop_inv Count_u16 sample_hmac DashMapStore.t _ _ (fingerprints [node_rule]) (peer_capacity sample_config)
    (rs_self rs) V.

Lemma node_starts st : node_store = Some (Some st) →
  node_inv (node_runtime st) ∅ ∧ CellStore.local_identity st = sample_id.
Proof.
  intros Hst. destruct (@started_ok Count_u16 _ sample_config sample_id [node_rule] st) as [Hs Hid];
    [apply sample_config_ok|unfold uint; simpl; lia..|apply node_rules_ok|done|].
  split; [|done]. unfold node_inv. apply from_parts_ok; [apply node_config_wf|done|done|done].
Qed.

(** C4: the event loop as a whole.  A node that starts with its rules registered
    and an empty aggregate store runs on any sequence of wake-ups without
    panicking; its contents are those of an abstract node (hits add, packets
    raise, ticks expire), and they are the counts reached by replaying every
    arm the loop dispatched on the bounded view: each request as one local
    observation, each datagram that decodes as the batch of its cells, each tick
    as the expiry at its time; and after every such run the aggregate store
    reads, for each identity of a registered rule, exactly the sum of that
    identity's counts over all origins, and nothing for any other rule.  The
    store's configuration has the capacities [config_ok] asks for, the counters
    are of 16 or 32 bits, and [2^50] bounds the peers and wake-ups. *)
Theorem run_mirrors_totals {C : Count} {CL : CountLaws C} hmac {S : Type} `{AggregateLaws S}
    scfg id rules st config (agg : S) admin evs :
  tags_ok hmac → narrow →
  config_ok scfg → uint 128 (node_id id) → uint 32 (ni_incarnation id) →
  Forall (λ d, applies_locally d = true) rules → started scfg id rules = Some (Some st) →
  config_wf config → agg_ok agg → (∀ cid, agg_read agg cid = 0) →
  Forall (event_ok config) evs → zlen (gc_bootstrap_peers config) + zlen evs ≤ 2 ^ 50 →
  ∃ rs effs flow V,
    run hmac {| rs_self := from_parts_with_admin config st agg admin; peer_events_done := false |} evs =
      Some (rs, effs, flow) ∧
    rtc (node_step id) ∅ V ∧
    (flow = Continue →
       V = vw_cells (run_view hmac scfg id
             {| rs_self := from_parts_with_admin config st agg admin; peer_events_done := false |} evs
             (started_view scfg id rules)) ∧
       (∀ n, read (store (rs_self rs)) n = Some (V !! n)) ∧
       ∀ cid, agg_read (aggregates (rs_self rs)) cid =
         if decide (rule_fingerprint cid ∈ fingerprints rules) then total V cid else 0).
Proof.
  intros Hmac Hw Hsc Hn Hinc Hr Hst Hc Hok Hread Hev Hp.
  destruct (started_ok scfg id rules st Hsc Hn Hinc Hr Hst) as [Hs Hid].
  pose proof (from_parts_ok hmac (fingerprints rules) (peer_capacity scfg) config st agg admin Hc Hs Hok Hread) as Hi.
  destruct (run_ok Hw hmac Hmac (fingerprints rules) (peer_capacity scfg) evs
    {| rs_self := from_parts_with_admin config st agg admin; peer_events_done := false |} ∅ Hi Hev)
    as (rs & effs & flow & V & He & Hrtc & Hi' & _).
  { simpl. by rewrite zlen_fmap. }
  exists rs, effs, flow, V. split; [done|]. simpl in Hrtc. rewrite Hid in Hrtc. split; [done|].
  intros Hf. destruct (Hi' Hf) as [Hri _ _ _ [_ Hm]]. split.
  { eapply views_counts; [apply Hri|]. eapply (run_follows Hw hmac Hmac (fingerprints rules) scfg id); [exact He|exact Hi|exact Hev| |].
    - simpl. by rewrite zlen_fmap.
    - by apply started_views. }
  split; [|done].
  intros n. apply read_ok. by eapply store_inv_inv, Hri.
Qed.

Lemma run_mirrors_totals_witness :
  ∃ st, node_store = Some (Some st) ∧
  ∃ rs effs flow V,
    @run Count_u16 sample_hmac _ _ (node_runtime st) node_events = Some (rs, effs, flow) ∧
    rtc (@node_step Count_u16 sample_id) ∅ V ∧
    (flow = Continue →
       V = vw_cells (@run_view Count_u16 sample_hmac _ _ sample_config sample_id (node_runtime st) node_events
             (started_view sample_config sample_id [node_rule])) ∧
       (∀ n, read (store (rs_self rs)) n = Some (V !! n)) ∧
       ∀ cid, agg_read (aggregates (rs_self rs)) cid =
         if decide (rule_fingerprint cid ∈ fingerprints [node_rule]) then total V cid else 0).
Proof.
  destruct node_store_started as [st Hst]. exists st. split; [done|].
  apply (@run_mirrors_totals Count_u16 _ sample_hmac DashMapStore.t _ _ sample_config sample_id [node_rule]);
    [apply sample_tags_ok|apply narrow_u16|apply sample_config_ok|unfold uint; simpl; lia..|
     apply node_rules_ok|done|apply node_config_wf|done|done|apply node_events_ok|vm_compute; done].
Defined.

(** ** Requests *)
Section requests.
Context {C : Count} {CL : CountLaws C} (Hw : narrow) (hmac : list Z → list Z → list Z).
Context (hmac_len : tags_ok hmac).
Context {S : Type} `{AggregateLaws S} (L : gset Z) (K : Z).

Abbreviation loop_inv := (loop_inv hmac L K).

Definition ack_of (r : LimitRequest) : list Effect :=
  match lr_reply r with Some reply => [Ack reply] | None => [] end.

(** The contents after the hit of a request, when its row is not dropped. *)
Definition hit_name (self : t S) (r : LimitRequest) : CellName :=
  local_name (CellStore.local_identity (store self)) (request_obs r).
Definition after_hit (self : t S) (V : gmap CellName Z) (r : LimitRequest) : gmap CellName Z :=
  <[hit_name self r := Z.min (default 0 (V !! hit_name self r) + lr_hits r) count_MAX]> V.

Lemma ingest_hit self V r :
  store_inv L K (store self) V → request_typed r →
  ingest_all (CellStore.local_identity (store self)) V [request_obs r] = after_hit self V r.
Proof using CL.
  intros Hs (_ & _ & _ & Hh & _). unfold ingest_all, after_hit, hit_name. simpl. unfold ingest_one, raise. f_equal.
  destruct (so_inv _ _ _ _ Hs) as (A & Mr & Mn & pins & Hi & _). simpl.
  pose proof count_MAX_bounds as Hm. unfold uint, U64_MAX in *.
  assert (0 ≤ default 0 (V !! local_name (CellStore.local_identity (store self)) (request_obs r)) ≤ count_MAX).
  { destruct (V !! _) as [c|] eqn:E; simpl; [by eapply contents_range|lia]. }
  rewrite saturating_from_u64_min by (unfold U64_MAX; lia).
  rewrite saturating_add_hits_min by (unfold U64_MAX; lia). lia.
Qed.

Lemma loop_inv_flag self V b : loop_inv self V → loop_inv (self <| want_immediate_flush := b |>) V.
Proof using.
  intros [Hi ? ? ? ?]. split; try done. eapply (rt_inv_store _ _ _ self V); try done; apply Hi.
Qed.

(** One wake-up with a request ready and no flush wanted. *)
Lemma iteration_request rs V env rd r :
  loop_inv (rs_self rs) V → event_ok (config (rs_self rs)) (env, rd) →
  zlen (peers (rs_self rs)) ≤ 2 ^ 50 → want_immediate_flush (rs_self rs) = false →
  rd_request rd = Some (Some (Limit r)) →
  ∃ rs' V', iteration hmac rs env rd = Some (rs', ack_of r, Continue) ∧ loop_inv (rs_self rs') V' ∧
    peers (rs_self rs') = peers (rs_self rs) ∧ config (rs_self rs') = config (rs_self rs) ∧
    (V' = V ∨ V' = after_hit (rs_self rs) V r) ∧
    (room (store (rs_self rs)) 1 ∨ is_Some (V !! hit_name (rs_self rs) r) → V' = after_hit (rs_self rs) V r) ∧
    note_pending (rs_self rs) env r =
      Some (rs_self rs <| rule_pending := rule_pending (rs_self rs') |>
              <| last_error_budget := last_error_budget (rs_self rs') |>
              <| want_immediate_flush := want_immediate_flush (rs_self rs') |>).
Proof using CL Hw.
  intros Hi (_ & Hreq & _) Hp Hf Hr. pose proof Hi as [Hri Hsk Hex Hpr Hm].
  specialize (Hreq _ Hr). rewrite iteration_eq. unfold next_outcome, select. rewrite Hf, Hr. cbn [dispatch].
  destruct (handle_limit_request_ok hmac L K (rs_self rs) V env r Hri Hp Hreq)
    as (self' & ds & acc & -> & Hi' & [Hc Ha Hst] & Hsub & Hroom & Hknown & Hs' & Hds & Htot & Hx' & Hr' & Hps & _ & _ & Hn).
  cbn [mbind option_bind]. pose proof (ri_store _ _ _ _ _ Hri) as Hs.
  assert (dispatched hmac L K (rs_self rs) V self'
    (ingest_all (CellStore.local_identity (store (rs_self rs))) V acc)) as Hd.
  { eapply dispatched_grow; try done; [by econstructor|congruence]. }
  destruct (finish_iteration_ok Hw hmac L K (rs_self rs) V self' _ Hri Hm Hd) as (self2 & -> & Hi2 & Hc2 & Hps2 & _ & _ & Hw2 & _ & _ & Hrp2 & _ & Hle2 & _).
  cbn [mbind option_bind]. eexists _, _. split; [by rewrite Hr'|]. split; [done|]. simpl.
  split; [congruence|]. split; [congruence|].
  rewrite <- (ingest_hit (rs_self rs) V r Hs Hreq). rewrite Hw2, Hrp2, Hle2.
  split; [|split; [by intros [->%Hroom| ->%Hknown]|exact Hn]].
  apply sublist_cons_r in Hsub as [->%sublist_nil_r|(acc' & -> & ->%sublist_nil_r)]; [by left|by right].
Qed.

(** An iteration that dispatches a tick. *)
Lemma iteration_tick rs V env rd self :
  loop_inv (rs_self rs) V → event_ok (config (rs_self rs)) (env, rd) →
  zlen (peers (rs_self rs)) ≤ 2 ^ 50 → next_outcome rs rd = Some (self, Tick) →
  ∃ rs' self', iteration hmac rs env rd = Some (rs', [], Continue) ∧ handle_gossip_tick hmac self env = Some self' ∧
    loop_inv (rs_self rs') (live_at (store (rs_self rs)) (now_millis env) V) ∧
    peers (rs_self rs') ≡ₚ peers (rs_self rs) ∧ config (rs_self rs') = config (rs_self rs) ∧
    stable (store (rs_self rs)) (store (rs_self rs')) ∧
    want_immediate_flush (rs_self rs') = want_immediate_flush self ∧
    send_pending (rs_self rs') = send_pending self' ∧ send_pool (rs_self rs') = send_pool self' ∧
    ∃ st es, CellStore.expire_at (store (rs_self rs)) (now_millis env) (ExpirationSink.of_rows []) =
        Some (st, es) ∧
      (can_emit (self <| store := st |>) = true →
         ∀ i v, zget (rule_pending self) i = Some v → zget (rule_pending (rs_self rs')) i = Some 0).
Proof using CL Hw hmac_len.
  intros Hi Hev Hp Hn. rewrite iteration_eq, Hn. cbn [dispatch].
  destruct (next_outcome_ok hmac L K rs V env rd self Tick Hi Hev Hn) as ([Hri Hsk Hex Hpr Hm] & _ & Hc & Hs & Hps0).
  rewrite <- Hps0 in Hp |- *. rewrite <- Hc, <- Hs.
  destruct (tick_dispatched hmac hmac_len L K self V env Hri Hsk Hp) as (self' & He & Hd & Hr' & Hps & Hst & Hwf & Hpend).
  rewrite He. cbn [mbind option_bind].
  destruct (finish_iteration_ok Hw hmac L K self V self' _ Hri Hm Hd)
    as (self2 & -> & Hi2 & Hc2 & Hps2 & Hsp2 & _ & Hw2 & Hst2 & _ & Hrp2 & _ & _ & _ & Hpl2).
  cbn [mbind option_bind]. rewrite Hr', Hpr.
  eexists _, self'. split; [done|]. cbn [rs_self]. rewrite Hps2, Hc2, Hst2, Hw2, Hsp2, Hpl2, Hrp2. done.
Qed.

(** A wanted flush is a tick, whatever is ready. *)
Lemma iteration_flush rs V env rd :
  loop_inv (rs_self rs) V → event_ok (config (rs_self rs)) (env, rd) →
  zlen (peers (rs_self rs)) ≤ 2 ^ 50 → want_immediate_flush (rs_self rs) = true →
  ∃ rs', iteration hmac rs env rd = Some (rs', [], Continue) ∧
    loop_inv (rs_self rs') (live_at (store (rs_self rs)) (now_millis env) V) ∧
    peers (rs_self rs') ≡ₚ peers (rs_self rs) ∧ config (rs_self rs') = config (rs_self rs) ∧
    stable (store (rs_self rs)) (store (rs_self rs')) ∧
    want_immediate_flush (rs_self rs') = false ∧
    ∃ st es, CellStore.expire_at (store (rs_self rs)) (now_millis env) (ExpirationSink.of_rows []) =
        Some (st, es) ∧
      (can_emit (rs_self rs <| store := st |>) = true →
         ∀ i v, zget (rule_pending (rs_self rs)) i = Some v → zget (rule_pending (rs_self rs')) i = Some 0).
Proof using CL Hw hmac_len.
  intros Hi Hev Hp Hf.
  destruct (iteration_tick rs V env rd (rs_self rs <| want_immediate_flush := false |>
      <| threshold_fires := saturating_add 64 (threshold_fires (rs_self rs)) 1 |>) Hi Hev Hp)
    as (rs' & self' & He & _ & Hi' & Hps & Hc & Hst & Hwf & _ & _ & Hpend).
  { unfold next_outcome. by rewrite Hf. }
  exists rs'. by split_and!.
Qed.

Lemma after_hit_total (self : t S) V r cid :
  total (after_hit self V r) cid = total V cid +
    (if decide (identity_of (hit_name self r) = cid)
     then Z.min (default 0 (V !! hit_name self r) + lr_hits r) count_MAX - default 0 (V !! hit_name self r) else 0).
Proof using. apply total_insert. Qed.
End requests.

(** The one effect of a request goes out when the rows have been applied. *)
Lemma request_observed {C : Count} hmac {S : Type} `{AggregateStore S} (rs rs' : @RunState S) env rd r effs :
  iteration hmac rs env rd = Some (rs', effs, Continue) → want_immediate_flush (rs_self rs) = false →
  rd_request rd = Some (Some (Limit r)) →
  iteration_observed hmac rs env rd = Some (rs', (λ e, (e, aggregates (rs_self rs'))) <$> effs, Continue).
Proof.
  intros He Hf Hr. unfold iteration, iteration_observed, next_outcome, select in *. rewrite Hf, Hr in *. cbn [dispatch] in *.
  destruct (handle_limit_request _ _ _) as [self1|]; [|done]. cbn [mbind option_bind fmap list_fmap app] in *.
  destruct (finish_observed self1) as [[self2 acks]|] eqn:E; [|done]. cbn [mbind option_bind] in *.
  injection He as <- <-. do 3 f_equal. unfold finish_observed in E. apply bind_Some in E as (self3 & _ & E).
  destruct (pending_reply _); injection E as <- <-; [|done]. by destruct (_ <? _).
Qed.

(** C6: a request's hits are visible when it is acknowledged.  The iteration
    that takes a request off the queue sends its acknowledgement, if one was
    asked for, and nothing else; the aggregate store at the moment it is sent
    ([seen], what a task that it wakes reads) already reads, for the request's
    identity, the hits more (up to the saturation of the node's own counter)
    when its rule is registered, and every other identity reads as before.  The
    row is not dropped when the node already counts the cell or there is room
    for one more. *)
Theorem hit_visible_at_ack {C : Count} {CL : CountLaws C} hmac {S : Type} `{AggregateLaws S} L K
    (rs : @RunState S) V env rd r :
  narrow → loop_inv hmac L K (rs_self rs) V → event_ok (config (rs_self rs)) (env, rd) →
  zlen (peers (rs_self rs)) ≤ 2 ^ 50 → want_immediate_flush (rs_self rs) = false →
  rd_request rd = Some (Some (Limit r)) →
  room (store (rs_self rs)) 1 ∨ is_Some (V !! hit_name (rs_self rs) r) →
  ∃ rs' seen, iteration_observed hmac rs env rd = Some (rs', (λ e, (e, seen)) <$> ack_of r, Continue) ∧
    iteration hmac rs env rd = Some (rs', ack_of r, Continue) ∧ aggregates (rs_self rs') = seen ∧
    ∀ cid, agg_read seen cid = agg_read (aggregates (rs_self rs)) cid +
      let own := default 0 (V !! hit_name (rs_self rs) r) in
      if decide (cid = identity_of (hit_name (rs_self rs) r) ∧ lr_rule_fingerprint r ∈ L)
      then Z.min (own + lr_hits r) count_MAX - own else 0.
Proof.
  intros Hw Hi Hev Hp Hf Hr Hroom.
  destruct (iteration_request Hw hmac L K rs V env rd r Hi Hev Hp Hf Hr)
    as (rs' & V' & He & Hi' & _ & _ & _ & HV & _). exists rs', (aggregates (rs_self rs')).
  split; [by eapply request_observed|]. split; [done|]. split; [done|]. intros cid.
  rewrite (proj2 (lp_mirrors _ _ _ _ _ Hi')), (proj2 (lp_mirrors _ _ _ _ _ Hi)), (HV Hroom), after_hit_total. cbv zeta.
  destruct (decide (identity_of _ = cid)) as [<-|Hne].
  - simpl. case_decide; [rewrite decide_True by done|rewrite decide_False by tauto]; lia.
  - rewrite (decide_False (P := _ ∧ _)) by (intros [? _]; congruence). case_decide; lia.
Qed.

Definition request_ready : Ready := quiet <| rd_request := Some (Some (Limit node_request)) |> <| rd_tick := true |>.

Lemma request_ready_ok now : uint 64 now → event_ok node_config (sent_at now, request_ready).
Proof.
  intros Hn. split; [done|]. split; [|done]. intros r [= <-]. unfold request_typed, uint. simpl. lia.
Qed.

Lemma hit_visible_at_ack_witness :
  ∃ st, node_store = Some (Some st) ∧
  ∃ rs' seen, @iteration_observed Count_u16 sample_hmac _ _ (node_runtime st) (sent_at 3000) request_ready =
      Some (rs', [(Ack 9, seen)], Continue) ∧
    @iteration Count_u16 sample_hmac _ _ (node_runtime st) (sent_at 3000) request_ready =
      Some (rs', [Ack 9], Continue) ∧ aggregates (rs_self rs') = seen ∧
    ∀ cid, agg_read seen cid =
      0 + let own := 0 in
          if decide (cid = {| rule_fingerprint := 11; key_hash := 5; bucket := 3 |} ∧ 11 ∈ fingerprints [node_rule])
          then Z.min (own + 4) 65535 - own else 0.
Proof.
  destruct node_store_room as (st & Hst & Hr). exists st. split; [done|].
  destruct (node_starts st Hst) as [Hi _].
  apply (@hit_visible_at_ack Count_u16 _ sample_hmac DashMapStore.t _ _ _ _ (node_runtime st) ∅ (sent_at 3000)
    request_ready node_request narrow_u16 Hi);
    [apply request_ready_ok; unfold uint; lia|vm_compute; done|done|done|by left].
Defined.

(** C17: a request that is ready is served.  Whatever else is ready, the
    iteration that finds it ready acknowledges it; only a flush that an earlier
    request asked for goes first, and then the next iteration acknowledges it.
    So after at most two wake-ups the acknowledgement, and no other effect, has
    been sent, and the loop is back at its invariant. *)
Theorem request_served {C : Count} {CL : CountLaws C} hmac {S : Type} `{AggregateLaws S} L K
    (rs : @RunState S) V env1 rd1 env2 rd2 r :
  tags_ok hmac →
  narrow → loop_inv hmac L K (rs_self rs) V → zlen (peers (rs_self rs)) ≤ 2 ^ 50 →
  Forall (event_ok (config (rs_self rs))) [(env1, rd1); (env2, rd2)] →
  rd_request rd1 = Some (Some (Limit r)) → rd_request rd2 = Some (Some (Limit r)) →
  let flush := want_immediate_flush (rs_self rs) in
  ∃ rs' V', run hmac rs (if flush then [(env1, rd1); (env2, rd2)] else [(env1, rd1)]) =
      Some (rs', ack_of r, Continue) ∧ loop_inv hmac L K (rs_self rs') V' ∧
    let V1 := if flush then live_at (store (rs_self rs)) (now_millis env1) V else V in
    (V' = V1 ∨ V' = after_hit (rs_self rs) V1 r) ∧
    (is_Some (V1 !! hit_name (rs_self rs) r) → V' = after_hit (rs_self rs) V1 r).
Proof.
  intros Hmac Hw Hi Hp [Hev1 [Hev2 _]%Forall_cons]%Forall_cons Hr1 Hr2. cbv zeta.
  destruct (want_immediate_flush (rs_self rs)) eqn:Hf; cbn [run].
  - destruct (iteration_flush Hw hmac Hmac L K rs V env1 rd1 Hi Hev1 Hp Hf)
      as (rs1 & -> & Hi1 & Hps & Hc & Hst & Hf1 & _). cbn [mbind option_bind].
    destruct (iteration_request Hw hmac L K rs1 _ env2 rd2 r Hi1)
      as (rs2 & V' & -> & Hi2 & _ & _ & HV & Hk & _); [by rewrite Hc| |done..|].
    { unfold zlen. by rewrite (Permutation_length Hps). }
    cbn [mbind option_bind]. exists rs2, V'. rewrite app_nil_l, app_nil_r. split; [done|]. split; [done|].
    unfold after_hit, hit_name in *. rewrite (st_identity _ _ Hst) in *.
    split; [done|]. intros ?. apply Hk. by right.
  - destruct (iteration_request Hw hmac L K rs _ env1 rd1 r Hi Hev1 Hp Hf Hr1)
      as (rs2 & V' & -> & Hi2 & _ & _ & HV & Hk & _).
    cbn [mbind option_bind]. exists rs2, V'. rewrite app_nil_r. split; [done|]. split; [done|].
    split; [done|]. intros ?. apply Hk. by right.
Qed.

(** The node when a flush is wanted. *)
Definition node_flushing (st : CellStore.t) : RunState :=
  {| rs_self := rs_self (node_runtime st) <| want_immediate_flush := true |>; peer_events_done := false |}.

Lemma node_flushes st : node_store = Some (Some st) →
  node_inv (node_flushing st) ∅.
Proof.
  intros Hst. unfold node_inv. apply loop_inv_flag. apply (node_starts st Hst).
Qed.

Lemma request_served_witness :
  ∃ st, node_store = Some (Some st) ∧ ∃ rs' V',
    @run Count_u16 sample_hmac _ _ (node_flushing st) [(sent_at 3000, request_ready); (sent_at 3001, request_ready)] =
      Some (rs', [Ack 9], Continue) ∧
    node_inv rs' V' ∧
    let V1 := live_at st 3000 ∅ in
    (V' = V1 ∨ V' = @after_hit Count_u16 _ (rs_self (node_flushing st)) V1 node_request) ∧
    (is_Some (V1 !! @hit_name Count_u16 _ (rs_self (node_flushing st)) node_request) →
       V' = @after_hit Count_u16 _ (rs_self (node_flushing st)) V1 node_request).
Proof.
  destruct node_store_started as [st Hst]. exists st. split; [done|].
  apply (@request_served Count_u16 _ sample_hmac DashMapStore.t _ _ _ _ (node_flushing st) ∅ (sent_at 3000)
    request_ready (sent_at 3001) request_ready node_request sample_tags_ok narrow_u16 (node_flushes st Hst));
    [vm_compute; done| |done|done].
  repeat apply Forall_cons_2; [apply request_ready_ok; unfold uint; lia..|constructor].
Defined.

(** ** The threshold flush *)

(** [ε = max(1, limit * bps / (10_000 * n))], the product saturating. *)
Definition budget_of (c : GossipConfig) (n limit : Z) : Z :=
  Z.max 1 (Z.min (Z.max limit 1 * Z.max (gc_target_err_bps c) 1) U64_MAX / (10000 * Z.max n 1)).

(** C16: the flush threshold.  A request adds its hits to the pending count of
    its rule, up to the largest [u32]; a flush is wanted exactly when the
    pending count then exceeds the error budget and the rule has not emitted
    within the floor.  A wanted flush is taken by the next iteration, whatever
    is ready, and once: if there is something to send, a peer and a buffer,
    every rule's pending count is zero after it. *)
Theorem threshold_flush {C : Count} {CL : CountLaws C} hmac {S : Type} `{AggregateLaws S} L K
    (rs : @RunState S) V env rd r idx cur last :
  tags_ok hmac →
  narrow → loop_inv hmac L K (rs_self rs) V → event_ok (config (rs_self rs)) (env, rd) →
  zlen (peers (rs_self rs)) ≤ 2 ^ 50 → want_immediate_flush (rs_self rs) = false →
  rd_request rd = Some (Some (Limit r)) →
  CellStore.find_rule (store (rs_self rs)) (lr_rule_fingerprint r) = Some (Some idx) →
  zget (rule_pending (rs_self rs)) idx = Some cur → zget (rule_last_emit_ms (rs_self rs)) idx = Some last →
  ∃ rs1, iteration hmac rs env rd = Some (rs1, ack_of r, Continue) ∧
    let pending := Z.min (cur + lr_hits r) U32_MAX in
    zget (rule_pending (rs_self rs1)) idx = Some pending ∧
    want_immediate_flush (rs_self rs1) =
      (budget_of (config (rs_self rs)) (zlen (peers (rs_self rs))) (lr_rule_limit r) <? pending) &&
      ((last =? 0) || (as_u64 (as_millis (gc_min_emit_interval (config (rs_self rs)))) <=?
                        saturating_sub (now_millis env) last)) ∧
    (want_immediate_flush (rs_self rs1) = true →
     ∀ env2 rd2, event_ok (config (rs_self rs)) (env2, rd2) →
     ∃ rs2 st es, iteration hmac rs1 env2 rd2 = Some (rs2, [], Continue) ∧
       want_immediate_flush (rs_self rs2) = false ∧
       CellStore.expire_at (store (rs_self rs1)) (now_millis env2) (ExpirationSink.of_rows []) = Some (st, es) ∧
       (can_emit (rs_self rs1 <| store := st |>) = true →
        ∀ i v, zget (rule_pending (rs_self rs1)) i = Some v → zget (rule_pending (rs_self rs2)) i = Some 0)).
Proof.
  intros Hmac Hw Hi Hev Hp Hf Hr Hidx Hcur Hlast.
  destruct (iteration_request Hw hmac L K rs V env rd r Hi Hev Hp Hf Hr)
    as (rs1 & V1 & He & Hi1 & Hps & Hc & _ & _ & Hn). exists rs1. split; [done|]. cbv zeta.
  pose proof (proj1 (proj2 Hev) _ Hr) as Hty.
  destruct (note_pending_ok hmac L K (rs_self rs) V env r (lp_inv _ _ _ _ _ Hi) Hp Hty)
    as (column & budget & want & Hn' & _ & _ & Hm). rewrite Hidx in Hm.
  destruct Hm as (cur' & e & last' & Hcur' & He' & Hlast' & -> & -> & ->).
  rewrite Hcur in Hcur'. rewrite Hlast in Hlast'. injection Hcur' as <-. injection Hlast' as <-.
  rewrite Hn' in Hn. apply (inj Some) in Hn.
  assert (rule_pending (rs_self rs1) = zupd (rule_pending (rs_self rs)) idx (Z.min (cur + lr_hits r) U32_MAX)) as Hrp
    by (by injection Hn).
  assert (want_immediate_flush (rs_self rs1) = want_immediate_flush (rs_self rs) ||
    ((e <? Z.min (cur + lr_hits r) U32_MAX) && ((last =? 0) ||
      (as_u64 (as_millis (gc_min_emit_interval (config (rs_self rs)))) <=? saturating_sub (now_millis env) last)))) as Hwf
    by (by injection Hn).
  rewrite Hf in Hwf. simpl in Hwf.
  assert (e = budget_of (config (rs_self rs)) (zlen (peers (rs_self rs))) (lr_rule_limit r)) as ->.
  { unfold error_budget in He'. rewrite checked_ok in He' by (pose proof (zlen_nonneg (peers (rs_self rs))); lia).
    injection He' as <-. unfold budget_of, saturating_mul, U64_MAX. rewrite Z.max_comm. done. }
  split_and!; [|done|].
  - rewrite Hrp, zget_zupd_eq; [done|]. by eapply zget_Some_range.
  - intros Hwt env2 rd2 Hev2.
    destruct (iteration_flush Hw hmac Hmac L K rs1 V1 env2 rd2 Hi1) as (rs2 & He2 & _ & _ & _ & _ & Hf2 & st & es & Hx & Hz);
      [by rewrite Hc|by rewrite Hps|done|]. by exists rs2, st, es.
Qed.

Lemma node_rule_slot : ∃ st, node_store = Some (Some st) ∧ CellStore.find_rule st 11 = Some (Some 0) ∧
  zget (rule_pending (rs_self (node_runtime st))) 0 = Some 0 ∧
  zget (rule_last_emit_ms (rs_self (node_runtime st))) 0 = Some 0.
Proof. eexists. split; [vm_compute; reflexivity|]. vm_compute. done. Qed.

Lemma threshold_flush_witness :
  ∃ st, node_store = Some (Some st) ∧
  ∃ rs1, @iteration Count_u16 sample_hmac _ _ (node_runtime st) (sent_at 3000) request_ready =
      Some (rs1, [Ack 9], Continue) ∧
    zget (rule_pending (rs_self rs1)) 0 = Some 4 ∧ want_immediate_flush (rs_self rs1) = true.
Proof.
  destruct node_rule_slot as (st & Hst & Hidx & Hcur & Hlast). exists st. split; [done|].
  destruct (node_starts st Hst) as [Hi _].
  destruct (@threshold_flush Count_u16 _ sample_hmac DashMapStore.t _ _ _ _ (node_runtime st) ∅ (sent_at 3000)
    request_ready node_request 0 0 0 sample_tags_ok narrow_u16 Hi) as (rs1 & He & Hp & Hwt & _);
    [apply request_ready_ok; unfold uint; lia|vm_compute; done|done|done|done|done|done|].
  exists rs1. split; [exact He|]. split; [exact Hp|]. rewrite Hwt. vm_compute. reflexivity.
Defined.
