(* ===== verification/RuntimeNet.v ===== *)
(** * The gossip event loop: the network side

    Datagrams out of the send queue and into the store, membership, and the
    admin channel. *)

From S2P Require Import Prelude Types Hash Index Freelist Dictionary DirtyRing PeerFrontier IO CellStore CellSlots CellInv CellOps CellMerge CellExpire GossipFrame CellTyped StoreSpec Bytes WireHeader WireBody WirePlan WireCodec Wire WireTyped Exchange DashMap Mirror Runtime RuntimeSend RuntimeAdmin RuntimeInv RuntimeStep RuntimeLoop RuntimeSpec.
Import GossipRuntime.
#[local] Existing Instances DashMapStore.aggregate DashMapStore.aggregate_laws.

Section net.
Context {C : Count} {CL : CountLaws C} (Hw : narrow) (hmac : list Z → list Z → list Z).
Context {S : Type} `{AggregateLaws S} (L : gset Z) (K : Z).

Abbreviation loop_inv := (loop_inv hmac L K).

(** The datagram a queue entry stands for. *)
Definition datagram_of (pool : list PacketBuf) (entry : SocketAddr * Z) (e : Effect) : Prop :=
  ∃ buf, zget pool entry.2 = Some buf ∧ e = Datagram entry.1 (as_bytes buf).

(** ** Sending *)

(** A wake-up in which the socket takes a datagram and nothing else is ready. *)
Definition writable_ok (ev : Env * Ready) : Prop :=
  try_send_to ev.1 = Ok () ∧ rd_writable ev.2 = true ∧ rd_request ev.2 = None ∧ rd_recv ev.2 = None.

Lemma iteration_writable (rs : @RunState S) V env rd entry rest :
  loop_inv (rs_self rs) V → want_immediate_flush (rs_self rs) = false → writable_ok (env, rd) →
  send_pending (rs_self rs) = entry :: rest →
  ∃ rs' e, iteration hmac rs env rd = Some (rs', [e], Continue) ∧ loop_inv (rs_self rs') V ∧
    datagram_of (send_pool (rs_self rs)) entry e ∧
    send_pending (rs_self rs') = rest ∧ send_free (rs_self rs') = send_free (rs_self rs) ++ [entry.2] ∧
    send_pool (rs_self rs') = send_pool (rs_self rs) ∧ config (rs_self rs') = config (rs_self rs) ∧
    store (rs_self rs') = store (rs_self rs) ∧ want_immediate_flush (rs_self rs') = false.
Proof using CL Hw.
  intros Hi Hf (Hsend & Hwr & Hreq & Hrecv) Hp. destruct entry as [dst slot]. simpl in Hsend, Hwr, Hreq, Hrecv.
  pose proof Hi as [Hri Hsk Hex Hpr Hm]. pose proof (ri_pool _ _ _ _ _ Hri) as Hpool.
  destruct (pl_packets _ _ _ _ _ _ Hpool dst slot) as (buf & Hb & _); [rewrite Hp; by left|].
  set (self' := rs_self rs <| send_pending := rest |> <| send_free := send_free (rs_self rs) ++ [slot] |>).
  assert (drain_one_send (rs_self rs) env = Some (self', [Datagram dst (as_bytes buf)], Ok ())) as Hd
    by (unfold drain_one_send; by rewrite Hp, Hsend, Hb).
  destruct (drain_one_send_ok hmac (rs_self rs) env Hpool) as (x & effs & r & Hd' & (pending & free & -> & Hpl) & _).
  rewrite Hd in Hd'.
  assert (rest = pending ∧ send_free (rs_self rs) ++ [slot] = free) as [<- <-].
  { apply (inj Some) in Hd'. apply (f_equal (λ p, (send_pending p.1.1, send_free p.1.1))) in Hd'. by injection Hd'. }
  assert (dispatched hmac L K (rs_self rs) V self' V) as Hdd
    by (apply dispatched_quiet; try done; destruct Hri; by split).
  destruct (finish_iteration_ok Hw hmac L K (rs_self rs) V self' V Hri Hm Hdd)
    as (self2 & Hfin & Hi2 & Hc2 & _ & Hsp2 & Hsf2 & Hw2 & Hst2 & _ & _ & _ & _ & _ & Hpl2).
  rewrite iteration_eq. unfold next_outcome, select. rewrite Hf, Hreq, Hrecv, Hwr, Hp.
  cbn [bool_decide negb andb dispatch]. rewrite bool_decide_eq_false_2 by done. simpl. rewrite Hd. cbn [mbind option_bind].
  rewrite Hfin. cbn [mbind option_bind]. change (pending_reply self') with (pending_reply (rs_self rs)). rewrite Hpr.
  eexists _, _. split; [done|]. cbn [rs_self]. rewrite Hc2, Hsp2, Hsf2, Hst2, Hw2, Hpl2.
  split_and!; try done. by exists buf.
Qed.

(** As many wake-ups as there are queued packets empty the queue, in order. *)
Lemma run_writable evs : ∀ (rs : @RunState S) V,
  loop_inv (rs_self rs) V → want_immediate_flush (rs_self rs) = false → Forall writable_ok evs →
  length evs = length (send_pending (rs_self rs)) →
  ∃ rs' effs, run hmac rs evs = Some (rs', effs, Continue) ∧ loop_inv (rs_self rs') V ∧
    Forall2 (datagram_of (send_pool (rs_self rs))) (send_pending (rs_self rs)) effs ∧
    send_pending (rs_self rs') = [] ∧
    send_free (rs_self rs') = send_free (rs_self rs) ++ (send_pending (rs_self rs)).*2 ∧
    config (rs_self rs') = config (rs_self rs) ∧ store (rs_self rs') = store (rs_self rs) ∧
    want_immediate_flush (rs_self rs') = false.
Proof using CL Hw.
  induction evs as [|[env rd] evs IH]; intros rs V Hi Hf Hev Hl; destruct (send_pending (rs_self rs)) as [|entry rest] eqn:Hp;
    try done; cbn [run].
  { exists rs, []. rewrite app_nil_r. by split_and!. }
  apply Forall_cons in Hev as [Hev Hevs].
  destruct (iteration_writable rs V env rd entry rest Hi Hf Hev Hp)
    as (rs1 & e & -> & Hi1 & He & Hp1 & Hfr1 & Hpl1 & Hc1 & Hst1 & Hf1). cbn [mbind option_bind].
  destruct (IH rs1 V Hi1 Hf1 Hevs) as (rs2 & effs & -> & Hi2 & Heffs & Hp2 & Hfr2 & Hc2 & Hst2 & Hf2);
    [rewrite Hp1; simpl in Hl; lia|].
  cbn [mbind option_bind]. exists rs2, (e :: effs). rewrite Hp1, Hpl1 in Heffs.
  split; [done|]. split; [done|]. split; [by constructor|]. split; [done|].
  split; [rewrite Hfr2, Hfr1, Hp1, <- app_assoc; done|]. split_and!; congruence.
Qed.
End net.

(** C19: the send queue drains.  When the socket takes datagrams and nothing of
    higher priority is ready, as many wake-ups as there are queued packets send
    exactly those packets, first in first out, to the peers they were queued
    for; the queue is then empty and every buffer of the pool is free again. *)
Theorem send_queue_drains {C : Count} {CL : CountLaws C} hmac {S : Type} `{AggregateLaws S} L K
    (rs : @RunState S) V evs :
  narrow → loop_inv hmac L K (rs_self rs) V → want_immediate_flush (rs_self rs) = false →
  Forall writable_ok evs → length evs = length (send_pending (rs_self rs)) →
  ∃ rs' effs, run hmac rs evs = Some (rs', effs, Continue) ∧ loop_inv hmac L K (rs_self rs') V ∧
    Forall2 (datagram_of (send_pool (rs_self rs))) (send_pending (rs_self rs)) effs ∧
    send_pending (rs_self rs') = [] ∧
    send_free (rs_self rs') ≡ₚ zrange 0 (as_u8 (Z.max (gc_send_queue_capacity (config (rs_self rs))) 1)).
Proof.
  intros Hw Hi Hf Hev Hl.
  destruct (run_writable Hw hmac L K evs rs V Hi Hf Hev Hl) as (rs' & effs & He & Hi' & Hd & Hp & Hfr & _).
  exists rs', effs. split_and!; try done. rewrite Hfr.
  apply (pl_slots _ _ _ _ _ _ (ri_pool _ _ _ _ _ (lp_inv _ _ _ _ _ Hi))).
Qed.

(** The small node with a packet in its queue. *)
Lemma node_run_queued : ∃ st rs effs, node_store = Some (Some st) ∧
  @run Count_u16 sample_hmac _ _ (node_runtime st) (take 2 node_events) = Some (rs, effs, Continue) ∧
  want_immediate_flush (rs_self rs) = false ∧ length (send_pending (rs_self rs)) = 1%nat ∧
  admin_rx (rs_self rs) = true.
Proof.
  assert (match node_store with
    | Some (Some st) =>
      match @run Count_u16 sample_hmac _ _ (node_runtime st) (take 2 node_events) with
      | Some (rs, _, Continue) => negb (want_immediate_flush (rs_self rs)) && (length (send_pending (rs_self rs)) =? 1)%nat && admin_rx (rs_self rs)
      | _ => false
      end
    | _ => false
    end = true) as Hrun by (vm_compute; reflexivity).
  destruct node_store as [[st|]|]; [|done..]. destruct (run _ _ _) as [[[rs effs] [|]]|] eqn:E; [|done..].
  apply andb_true_iff in Hrun as [[Hf%negb_true_iff Hl%Nat.eqb_eq]%andb_true_iff Hrx]. by exists st, rs, effs.
Qed.

Lemma node_queued : ∃ (rs : @RunState DashMapStore.t) V,
  node_inv rs V ∧ want_immediate_flush (rs_self rs) = false ∧ length (send_pending (rs_self rs)) = 1%nat ∧
  admin_rx (rs_self rs) = true.
Proof.
  destruct node_run_queued as (st & rs & effs & Hst & Hrun & Hf & Hl & Hrx).
  destruct (node_starts st Hst) as [Hi _].
  destruct (run_ok narrow_u16 sample_hmac sample_tags_ok (fingerprints [node_rule]) (peer_capacity sample_config)
    (take 2 node_events) (node_runtime st) ∅ Hi) as (rs' & effs' & flow & V & He & _ & Hi' & _).
  { apply Forall_take, node_events_ok. }
  { vm_compute. done. }
  rewrite Hrun in He. injection He as <- <- <-. exists rs, V.
  exact (conj (Hi' eq_refl) (conj Hf (conj Hl Hrx))).
Qed.

Definition writable : Ready := quiet <| rd_writable := true |>.

Lemma send_queue_drains_witness :
  ∃ (rs : @RunState DashMapStore.t) V, length (send_pending (rs_self rs)) = 1%nat ∧
  ∃ rs' effs, @run Count_u16 sample_hmac _ _ rs [(sent_at 3002, writable)] = Some (rs', effs, Continue) ∧
    node_inv rs' V ∧
    Forall2 (datagram_of (send_pool (rs_self rs))) (send_pending (rs_self rs)) effs ∧
    send_pending (rs_self rs') = [] ∧
    send_free (rs_self rs') ≡ₚ zrange 0 (as_u8 (Z.max (gc_send_queue_capacity (config (rs_self rs))) 1)).
Proof.
  destruct node_queued as (rs & V & Hi & Hf & Hl & _). exists rs, V. split; [done|].
  apply (@send_queue_drains Count_u16 _ sample_hmac DashMapStore.t _ _ _ _ rs V [(sent_at 3002, writable)] narrow_u16 Hi Hf);
    [|by rewrite Hl]. apply Forall_cons_2; [by split_and!|constructor].
Defined.

(** C18: whatever leaves the node is a packet.  Over any run, each datagram sent
    is a list of bytes no longer than the payload limit, carries the cluster and
    the identity of this node in its header, and decodes completely at every
    receiver that has the same key and limits that admit it. *)
Theorem datagrams_well_formed {C : Count} {CL : CountLaws C} hmac {S : Type} `{AggregateLaws S}
    scfg id rules st config (agg : S) admin evs :
  tags_ok hmac → narrow →
  config_ok scfg → uint 128 (node_id id) → uint 32 (ni_incarnation id) →
  Forall (λ d, applies_locally d = true) rules → started scfg id rules = Some (Some st) →
  config_wf config → agg_ok agg → (∀ cid, agg_read agg cid = 0) →
  Forall (event_ok config) evs → zlen (gc_bootstrap_peers config) + zlen evs ≤ 2 ^ 50 →
  ∃ rs effs flow,
    run hmac {| rs_self := from_parts_with_admin config st agg admin; peer_events_done := false |} evs =
      Some (rs, effs, flow) ∧
    ∀ dst bytes, Datagram dst bytes ∈ effs →
      Forall byte bytes ∧ zlen bytes ≤ max_payload_bytes (gc_wire_limits config) ∧
      ∃ hdr cells flags, cluster_id_hash hdr = gc_cluster_id_hash config ∧
        sender_node_id hdr = node_id id ∧ sender_incarnation hdr = ni_incarnation id ∧
        ∀ limits, zlen bytes ≤ max_payload_bytes limits → zlen cells ≤ max_cells limits →
          decode_inner hmac bytes (gc_auth_key config) limits (λ _, true) =
            Some (cells, Ok {| ds_header := hdr; ds_cell_count := zlen cells; ds_flags := flags |}).
Proof.
  intros Hmac Hw Hsc Hn Hinc Hr Hst Hc Hok Hread Hev Hp.
  destruct (started_ok scfg id rules st Hsc Hn Hinc Hr Hst) as [Hs Hid].
  pose proof (from_parts_ok hmac (fingerprints rules) (peer_capacity scfg) config st agg admin Hc Hs Hok Hread) as Hi.
  destruct (run_ok Hw hmac Hmac (fingerprints rules) (peer_capacity scfg) evs
    {| rs_self := from_parts_with_admin config st agg admin; peer_events_done := false |} ∅ Hi Hev)
    as (rs & effs & flow & V & He & _ & _ & Heff & _); [simpl; by rewrite zlen_fmap|].
  exists rs, effs, flow. split; [done|]. intros dst bytes Hin.
  destruct (Heff dst bytes Hin) as (Hb & Hl & hdr & cells & flags & Hch & Hsn & Hsi & Hdec). simpl in *.
  rewrite Hid in Hsn, Hsi. split; [done|]. split; [done|]. exists hdr, cells, flags. split_and!; try done.
  intros limits H1 H2. by rewrite Hdec.
Qed.

(** The small node sends its one packet. *)
Lemma datagrams_well_formed_witness :
  ∃ st, node_store = Some (Some st) ∧ ∃ rs effs flow,
    @run Count_u16 sample_hmac _ _ (node_runtime st) node_events = Some (rs, effs, flow) ∧
    ∃ bytes hdr cells flags, Datagram node_peer bytes ∈ effs ∧ sender_node_id hdr = 7 ∧
      ∀ limits, zlen bytes ≤ max_payload_bytes limits → zlen cells ≤ max_cells limits →
        @decode_inner Count_u16 sample_hmac bytes (Some [1; 2]) limits (λ _, true) =
          Some (cells, Ok {| ds_header := hdr; ds_cell_count := zlen cells; ds_flags := flags |}).
Proof.
  destruct node_store_started as [st Hst]. exists st. split; [done|].
  destruct (@datagrams_well_formed Count_u16 _ sample_hmac DashMapStore.t _ _ sample_config sample_id [node_rule] st
    node_config ∅ true node_events) as (rs & effs & flow & He & Hwf);
    [apply sample_tags_ok|apply narrow_u16|apply sample_config_ok|unfold uint; simpl; lia..|
     apply node_rules_ok|done|apply node_config_wf|done|done|apply node_events_ok|vm_compute; done|].
  exists rs, effs, flow. split; [exact He|].
  assert (match node_store with
    | Some (Some st) =>
      match @run Count_u16 sample_hmac _ _ (node_runtime st) node_events with
      | Some (_, effs, _) => existsb (λ e, match e with Datagram dst _ => bool_decide (dst = node_peer) | _ => false end) effs
      | None => false
      end
    | _ => false
    end = true) as Hrun by (vm_compute; reflexivity).
  rewrite Hst in Hrun. unfold node_runtime in Hrun. rewrite He in Hrun.
  assert (∃ bytes, Datagram node_peer bytes ∈ effs) as [bytes Hin].
  { apply existsb_exists in Hrun as (e & Hin%list_elem_of_In & Hd). destruct e as [| | |dst bytes]; try discriminate Hd.
    apply bool_decide_eq_true in Hd as ->. by exists bytes. }
  destruct (Hwf _ _ Hin) as (_ & _ & hdr & cells & flags & _ & Hsn & _ & Hdec).
  exists bytes, hdr, cells, flags. split; [exact Hin|]. split; [exact Hsn|exact Hdec].
Defined.

(** ** Receiving *)
Section receive.
Context {C : Count} {CL : CountLaws C} (Hw : narrow) (hmac : list Z → list Z → list Z).
Context {S : Type} `{AggregateLaws S} (L : gset Z) (K : Z).

Abbreviation loop_inv := (loop_inv hmac L K).

(** What one datagram does to a node. *)
Lemma iteration_inbound (rs : @RunState S) V env rd buf n src :
  loop_inv (rs_self rs) V → event_ok (config (rs_self rs)) (env, rd) →
  want_immediate_flush (rs_self rs) = false → rd_request rd = None → rd_recv rd = Some (inl (buf, n, src)) →
  ∃ rs' V' cells r,
    iteration hmac rs env rd = Some (rs', [], Continue) ∧ loop_inv (rs_self rs') V' ∧
    decode_inner hmac (take (Z.to_nat n) buf) (gc_auth_key (config (rs_self rs)))
      (gc_wire_limits (config (rs_self rs))) (λ _, true) = Some (cells, r) ∧
    config (rs_self rs') = config (rs_self rs) ∧ stable (store (rs_self rs)) (store (rs_self rs')) ∧
    want_immediate_flush (rs_self rs') = false ∧
    addr <$> peers (rs_self rs') = addr <$> peers (rs_self rs) ∧
    send_pending (rs_self rs') = send_pending (rs_self rs) ∧
    match r with
    | inr _ => V' = V ∧ store (rs_self rs') = store (rs_self rs) ∧ peers (rs_self rs') = peers (rs_self rs) ∧
        decode_reject_count (rs_self rs') = saturating_add 64 (decode_reject_count (rs_self rs)) 1
    | inl _ => ∃ acc, V' = merge_all V acc ∧ acc `sublist_of` (observation_from_wire <$> cells) ∧
        (room (store (rs_self rs)) (zlen cells) → acc = observation_from_wire <$> cells) ∧
        (∀ k, room (store (rs_self rs)) (k + zlen cells) → room (store (rs_self rs')) k) ∧
        decode_reject_count (rs_self rs') = decode_reject_count (rs_self rs)
    end.
Proof using CL Hw.
  intros Hi Hev Hf Hreq Hrecv. rewrite iteration_eq. unfold next_outcome. rewrite Hf.
  pose proof (next_outcome_ok hmac L K rs V env rd (rs_self rs <| recv_buf := buf |>) (Inbound (inl (n, src))) Hi Hev) as Hn.
  unfold next_outcome, select in Hn. rewrite Hf, Hreq, Hrecv in Hn.
  destruct (Hn eq_refl) as ([Hri Hsk Hex Hpr Hm] & Ho & _). simpl in Ho.
  unfold select. rewrite Hreq, Hrecv. cbn [dispatch].
  set (self := rs_self rs <| recv_buf := buf |>) in *.
  destruct (handle_inbound_ok hmac L K self V n src Hri Ho)
    as (self' & V' & ds & bytes & cells & r & -> & Hi' & Hout & Hb & Hdec & Hcase & Hs' & Hds & Htot &
        Hx' & Hr' & Haddr & Hsp & _ & Hwf).
  cbn [mbind option_bind].
  assert (dispatched hmac L K self V self' V') as Hd.
  { eapply dispatched_grow; try done; [|congruence]. eapply inbound_step; try done.
    destruct r; [destruct Hcase as (acc & ? & ? & _); by exists acc|by destruct Hcase]. }
  destruct (finish_iteration_ok Hw hmac L K self V self' V' Hri Hm Hd)
    as (self2 & -> & Hi2 & Hc2 & Hps2 & Hsp2 & _ & Hw2 & Hst2 & _ & _ & _ & _ & Hrj & _).
  rewrite Hr', Hpr. cbn [mbind option_bind]. exists {| rs_self := self2; peer_events_done := peer_events_done rs |}, V', cells, r.
  split; [done|]. split; [done|].
  cbn [rs_self]. rewrite Hc2, Hst2, Hw2, Hps2, Hsp2, Hrj.
  split_and!; try done; [|apply Hout|by rewrite Hwf].
  rewrite <- Hdec. f_equal. apply zslice_Some in Hb as (_ & _ & _ & ->). by rewrite Z.sub_0_r.
Qed.
End receive.

(** What one datagram does.  A datagram the decoder rejects (short, foreign
    version, bad tag, malformed body) changes nothing a user can see: the
    store, the peers and every aggregate read are as they were and only the
    reject counter moves, up to its saturation.  A datagram it accepts raises
    the counts of its cells to the maximum of both sides, with no other change
    of the contents; all of them when the store has room.  Neither panics. *)
Theorem datagram_effect {C : Count} {CL : CountLaws C} hmac {S : Type} `{AggregateLaws S} L K
    (rs : @RunState S) V env rd buf n src :
  narrow → loop_inv hmac L K (rs_self rs) V → event_ok (config (rs_self rs)) (env, rd) →
  want_immediate_flush (rs_self rs) = false → rd_request rd = None → rd_recv rd = Some (inl (buf, n, src)) →
  ∃ rs' V' cells r,
    iteration hmac rs env rd = Some (rs', [], Continue) ∧ loop_inv hmac L K (rs_self rs') V' ∧
    decode_inner hmac (take (Z.to_nat n) buf) (gc_auth_key (config (rs_self rs)))
      (gc_wire_limits (config (rs_self rs))) (λ _, true) = Some (cells, r) ∧
    match r with
    | inr _ => store (rs_self rs') = store (rs_self rs) ∧ peers (rs_self rs') = peers (rs_self rs) ∧
        (∀ cid, agg_read (aggregates (rs_self rs')) cid = agg_read (aggregates (rs_self rs)) cid) ∧
        decode_reject_count (rs_self rs') = Z.min (decode_reject_count (rs_self rs) + 1) U64_MAX
    | inl _ => decode_reject_count (rs_self rs') = decode_reject_count (rs_self rs) ∧
        ∃ acc, V' = merge_all V acc ∧ acc `sublist_of` (observation_from_wire <$> cells) ∧
          (room (store (rs_self rs)) (zlen cells) → acc = observation_from_wire <$> cells)
    end.
Proof.
  intros Hw Hi Hev Hf Hreq Hrecv.
  destruct (iteration_inbound Hw hmac L K rs V env rd buf n src Hi Hev Hf Hreq Hrecv)
    as (rs' & V' & cells & r & He & Hi' & Hd & _ & _ & _ & _ & _ & Hcase).
  exists rs', V', cells, r. split; [done|]. split; [done|]. split; [done|]. destruct r as [s|e].
  - destruct Hcase as (acc & -> & Hsub & Hall & _ & Hc). split; [done|]. by exists acc.
  - destruct Hcase as (-> & Hst & Hps & Hc). split_and!; try done.
    intros cid. by rewrite (proj2 (lp_mirrors _ _ _ _ _ Hi')), (proj2 (lp_mirrors _ _ _ _ _ Hi)).
Qed.

(** The node with another cluster identifier. *)
Definition with_cluster {S} (c : Z) (self : t S) : t S :=
  self <| config := config self <| gc_cluster_id_hash := c |> |>.

(** The cluster identifier plays no part in what a node accepts.  Whatever
    the identifier of the receiving node is, the handler does the same with
    every datagram: packets of another cluster are decoded and merged like
    those of the node's own. *)
Theorem inbound_ignores_cluster {C : Count} hmac {S : Type} (self : t S) n src c :
  handle_inbound hmac (with_cluster c self) n src = with_cluster c <$> handle_inbound hmac self n src.
Proof.
  unfold handle_inbound. cbn [with_cluster set_field recv_buf config obs_buf ack_buf sink_buf].
  change (gc_auth_key (config (with_cluster c self))) with (gc_auth_key (config self)).
  change (gc_wire_limits (config (with_cluster c self))) with (gc_wire_limits (config self)).
  change (recv_buf (with_cluster c self)) with (recv_buf self).
  destruct (zslice (recv_buf self) 0 n) as [bytes|]; [|done]. cbn [mbind option_bind].
  destruct (match gc_auth_key (config self) with Some key => _ | None => _ end) as [[cells decoded]|]; [|done].
  cbn [mbind option_bind].
  change (ack_buf (with_cluster c self)) with (ack_buf self). change (obs_buf (with_cluster c self)) with (obs_buf self).
  change (sink_buf (with_cluster c self)) with (sink_buf self).
  destruct (foldl on_cell _ cells) as [acks obs]. destruct decoded as [summary|e]; [|done].
  cbn [store set_field]. repeat match goal with |- context [CellStore.merge_remote ?x obs] =>
    progress change x with (store self) end.
  destruct (CellStore.merge_remote (store self) obs _) as [[st sink]|]; [|done]. cbn [mbind option_bind].
  destruct (PeerFrontierTable.intern_peer _ _) as [[pf slot]|]; [|done]. cbn [mbind option_bind].
  destruct slot as [slot|]; [|done]. destruct (record_acks acks slot _) as [st'|]; done.
Qed.
(** The wake-up in which a datagram arrives, at the front of the receive buffer. *)
Definition received (c : GossipConfig) (bytes : list Z) : list Z :=
  bytes ++ replicate (Z.to_nat (max_payload_bytes (gc_wire_limits c) - zlen bytes)) 0.
Definition deliver (c : GossipConfig) (src : SocketAddr) (bytes : list Z) : Ready :=
  quiet <| rd_recv := Some (inl (received c bytes, zlen bytes, src)) |>.

Lemma deliver_ok c src bytes env :
  uint 64 (now_millis env) → Forall byte bytes → zlen bytes ≤ max_payload_bytes (gc_wire_limits c) →
  event_ok c (env, deliver c src bytes).
Proof.
  intros Hn Hb Hl. split; [done|]. split; [done|]. intros buf n src' [= <- <- <-]. unfold received.
  pose proof (zlen_nonneg bytes). rewrite zlen_app, zlen_replicate. split; [|lia].
  apply Forall_app. split; [done|]. apply Forall_replicate. unfold byte, uint. lia.
Qed.

Lemma take_received c bytes : take (Z.to_nat (zlen bytes)) (received c bytes) = bytes.
Proof. unfold zlen, received. by rewrite Nat2Z.id, take_app_length. Qed.

(** A datagram of three bytes. *)
Definition junk : Ready := deliver node_config node_peer [1; 2; 3].

Lemma datagram_effect_witness :
  ∃ st, node_store = Some (Some st) ∧ ∃ rs' V' cells e,
    @iteration Count_u16 sample_hmac _ _ (node_runtime st) (sent_at 3000) junk = Some (rs', [], Continue) ∧
    node_inv rs' V' ∧
    @decode_inner Count_u16 sample_hmac [1; 2; 3] (Some [1; 2]) sample_limits (λ _, true) = Some (cells, inr e) ∧
    store (rs_self rs') = st ∧ decode_reject_count (rs_self rs') = 1.
Proof.
  destruct node_store_started as [st Hst]. exists st. split; [done|]. destruct (node_starts st Hst) as [Hi _].
  destruct (@datagram_effect Count_u16 _ sample_hmac DashMapStore.t _ _ _ _ (node_runtime st) ∅ (sent_at 3000) junk
    (received node_config [1; 2; 3]) 3 node_peer narrow_u16 Hi) as (rs' & V' & cells & r & He & Hi' & Hd & Hc);
    [|reflexivity..|].
  - apply deliver_ok; [unfold uint; simpl; lia| |vm_compute; discriminate].
    repeat apply Forall_cons_2; [unfold byte, uint; lia..|constructor].
  - change 3 with (zlen [1; 2; 3]) in Hd at 1. rewrite take_received in Hd. destruct r as [s|e].
    + vm_compute in Hd. discriminate.
    + exists rs', V', cells, e. destruct Hc as (Hs & _ & _ & Hc).
      split; [exact He|]. split; [exact Hi'|]. split; [exact Hd|]. split; [exact Hs|]. rewrite Hc. vm_compute. reflexivity.
Defined.

(** ** Membership *)
Section membership.
Context {C : Count} {CL : CountLaws C} (Hw : narrow) (hmac : list Z → list Z → list Z).
Context (hmac_len : tags_ok hmac).
Context {S : Type} `{AggregateLaws S} (L : gset Z) (K : Z).

(** The peer events a run dispatches, in order. *)
Fixpoint peer_log (rs : @RunState S) (evs : list (Env * Ready)) : list PeerEvent :=
  match evs with
  | [] => []
  | (env, rd) :: evs =>
    match next_outcome rs rd with Some (_, PeerEventArm (Some e)) => [e] | _ => [] end ++
    match iteration hmac rs env rd with
    | Some (rs', _, Continue) => peer_log rs' evs
    | _ => []
    end
  end.

(** Is [a] a member after the events, when [known] says whether it was before? *)
Definition member (a : SocketAddr) (known : bool) (log : list PeerEvent) : bool :=
  foldl (λ b e, match e with
                | Added x => bool_decide (a = x) || b
                | Removed x => negb (bool_decide (a = x)) && b
                end) known log.

Lemma member_app a b l1 l2 : member a b (l1 ++ l2) = member a (member a b l1) l2.
Proof using. apply foldl_app. Qed.

Lemma peers_after_member o before after a :
  peers_after o before after → NoDup before →
  bool_decide (a ∈ after) =
    member a (bool_decide (a ∈ before)) (match o with PeerEventArm (Some e) => [e] | _ => [] end).
Proof using.
  intros Hp Hnd. apply Hp in Hnd as [_ Ha]. specialize (Ha a).
  destruct o as [| | |[[b|b]|]| |]; simpl; repeat case_bool_decide; simpl; tauto.
Qed.

Lemma run_members evs : ∀ (rs : @RunState S) V,
  loop_inv hmac L K (rs_self rs) V → Forall (event_ok (config (rs_self rs))) evs →
  zlen (peers (rs_self rs)) + zlen evs ≤ 2 ^ 50 → NoDup (addr <$> peers (rs_self rs)) →
  ∃ rs' effs flow, run hmac rs evs = Some (rs', effs, flow) ∧ NoDup (addr <$> peers (rs_self rs')) ∧
    ∀ a, bool_decide (a ∈ addr <$> peers (rs_self rs')) =
         member a (bool_decide (a ∈ addr <$> peers (rs_self rs))) (peer_log rs evs).
Proof using CL Hw hmac_len.
  induction evs as [|[env rd] evs IH]; intros rs V Hi Hev Hp Hnd; cbn [run peer_log]; [by exists rs, [], Continue|].
  apply Forall_cons in Hev as [Hev Hevs].
  assert (zlen ((env, rd) :: evs) = zlen evs + 1) as Hlen by (unfold zlen; simpl; lia).
  pose proof (zlen_nonneg evs).
  destruct (iteration_ok Hw hmac hmac_len L K rs V env rd Hi Hev ltac:(lia))
    as (rs1 & effs & flow & V1 & -> & _ & Hi1 & Hsw & Hl & _ & Hpa). cbn [mbind option_bind].
  set (now := match next_outcome rs rd with Some (_, PeerEventArm (Some e)) => [e] | _ => [] end).
  assert (∀ a, bool_decide (a ∈ addr <$> peers (rs_self rs1)) =
               member a (bool_decide (a ∈ addr <$> peers (rs_self rs))) now) as Hm.
  { intros a. rewrite (peers_after_member _ _ _ a Hpa Hnd). unfold now. by destruct (next_outcome rs rd) as [[? ?]|]. }
  destruct (Hpa Hnd) as [Hnd1 _]. destruct flow as [|r].
  2:{ exists rs1, effs, (Return r). by rewrite app_nil_r. }
  destruct (IH rs1 V1 (Hi1 eq_refl)) as (rs2 & effs2 & flow2 & -> & Hnd2 & Hm2); [by rewrite (proj1 Hsw)|lia|done|].
  cbn [mbind option_bind]. eexists rs2, _, flow2. split; [done|]. split; [done|].
  intros a. rewrite Hm2, Hm. unfold member. by rewrite foldl_app.
Qed.
End membership.

(** The peers are the discovered members.  Over any run of a node whose
    bootstrap addresses are distinct, the peer list holds each address at most
    once, and an address is in it exactly when the bootstrap list and the peer
    events the loop dispatched make it a member: no datagram, request or tick
    adds or loses a peer. *)
Theorem peers_are_members {C : Count} {CL : CountLaws C} hmac {S : Type} `{AggregateLaws S}
    scfg id rules st config (agg : S) admin evs :
  tags_ok hmac → narrow →
  config_ok scfg → uint 128 (node_id id) → uint 32 (ni_incarnation id) →
  Forall (λ d, applies_locally d = true) rules → started scfg id rules = Some (Some st) →
  config_wf config → agg_ok agg → (∀ cid, agg_read agg cid = 0) →
  Forall (event_ok config) evs → zlen (gc_bootstrap_peers config) + zlen evs ≤ 2 ^ 50 →
  NoDup (gc_bootstrap_peers config) →
  let rs := {| rs_self := from_parts_with_admin config st agg admin; peer_events_done := false |} in
  ∃ rs' effs flow, run hmac rs evs = Some (rs', effs, flow) ∧ NoDup (addr <$> peers (rs_self rs')) ∧
    ∀ a, bool_decide (a ∈ addr <$> peers (rs_self rs')) =
         member a (bool_decide (a ∈ gc_bootstrap_peers config)) (peer_log hmac rs evs).
Proof.
  intros Hmac Hw Hsc Hn Hinc Hr Hst Hc Hok Hread Hev Hp Hnd rs.
  destruct (started_ok scfg id rules st Hsc Hn Hinc Hr Hst) as [Hs _].
  pose proof (from_parts_ok hmac (fingerprints rules) (peer_capacity scfg) config st agg admin Hc Hs Hok Hread) as Hi.
  assert (addr <$> peers (rs_self rs) = gc_bootstrap_peers config) as Hb.
  { simpl. rewrite <- list_fmap_compose. apply list_fmap_id. }
  rewrite <- Hb in Hnd |- *. eapply run_members; try done. simpl. by rewrite zlen_fmap.
Qed.

Lemma event_quiet c env rd :
  uint 64 (now_millis env) → rd_request rd = None → rd_recv rd = None → event_ok c (env, rd).
Proof. intros Hn Hq Hr. split; [done|]. cbn. rewrite Hq, Hr. done. Qed.

Definition other_peer : SocketAddr := V4 167772163 7946.
Definition member_events : list (Env * Ready) :=
  [(sent_at 3000, quiet <| rd_peer_event := Some (Some (Added other_peer)) |>);
   (sent_at 3001, quiet <| rd_peer_event := Some (Some (Removed node_peer)) |>)].

Lemma peers_are_members_witness :
  ∃ st, node_store = Some (Some st) ∧
  ∃ rs' effs flow, @run Count_u16 sample_hmac _ _ (node_runtime st) member_events = Some (rs', effs, flow) ∧
    NoDup (addr <$> peers (rs_self rs')) ∧
    ∀ a, bool_decide (a ∈ addr <$> peers (rs_self rs')) =
         member a (bool_decide (a ∈ [node_peer])) (@peer_log Count_u16 sample_hmac _ _ (node_runtime st) member_events).
Proof.
  destruct node_store_started as [st Hst]. exists st. split; [done|].
  apply (@peers_are_members Count_u16 _ sample_hmac DashMapStore.t _ _ sample_config sample_id [node_rule]);
    [apply sample_tags_ok|apply narrow_u16|apply sample_config_ok|unfold uint; simpl; lia..|
     apply node_rules_ok|done|apply node_config_wf|done|done| |vm_compute; done|apply NoDup_singleton].
  repeat apply Forall_cons_2; [apply event_quiet; [unfold uint; simpl; lia|reflexivity..]..|constructor].
Defined.

(** ** The admin channel *)

(** Nothing the loop prefers to an admin command is ready. *)
Definition only_admin {S} (rs : @RunState S) (rd : Ready) (cmd : AdminCommand) : Prop :=
  want_immediate_flush (rs_self rs) = false ∧ rd_request rd = None ∧ rd_recv rd = None ∧
  (send_pending (rs_self rs) = [] ∨ rd_writable rd = false) ∧
  (peer_events_done rs = true ∨ rd_peer_event rd = None) ∧
  admin_rx (rs_self rs) = true ∧ rd_admin rd = Some (Some cmd).

(** The cell dump is the contents.  A dump command is answered, on its own
    reply channel, with exactly one entry per live cell: its rule, key, bucket,
    origin and count, each cell once and nothing else; answering changes
    neither the contents nor any aggregate read. *)
Theorem cell_dump_exact {C : Count} {CL : CountLaws C} hmac {S : Type} `{AggregateLaws S} L K
    (rs : @RunState S) V env rd reply :
  narrow → loop_inv hmac L K (rs_self rs) V → only_admin rs rd (CellDump reply) →
  ∃ rs' dump, iteration hmac rs env rd = Some (rs', [CellDumpReply reply dump], Continue) ∧
    dump_cell <$> cs_cells dump ≡ₚ map_to_list V ∧
    cs_local_identity dump = CellStore.local_identity (store (rs_self rs)) ∧
    loop_inv hmac L K (rs_self rs') V ∧ store (rs_self rs') = store (rs_self rs).
Proof.
  intros Hw Hi (Hf & Hreq & Hrecv & Hwr & Hpe & Hrx & Hcmd). pose proof Hi as [Hri Hsk Hex Hpr Hm].
  rewrite iteration_eq. unfold next_outcome, select. rewrite Hf, Hreq, Hrecv, Hrx, Hcmd.
  replace (negb (bool_decide (send_pending (rs_self rs) = [])) && rd_writable rd) with false
    by (destruct Hwr as [->| ->]; [done|by rewrite andb_false_r]).
  replace (if peer_events_done rs then None else rd_peer_event rd) with (@None (option PeerEvent))
    by (destruct Hpe as [->| ->]; [done|by destruct (peer_events_done rs)]).
  cbn [dispatch]. destruct (admin_ok hmac L K (rs_self rs) V (CellDump reply) Hri) as (effs & -> & _ & dump & -> & Hd & _ & Hid).
  cbn [mbind option_bind].
  destruct (finish_iteration_ok Hw hmac L K (rs_self rs) V (rs_self rs) V Hri Hm)
    as (self2 & -> & Hi2 & _ & _ & _ & _ & _ & Hst2 & _); [by apply dispatched_quiet|].
  cbn [mbind option_bind]. rewrite Hpr. eexists _, dump. split_and!; done.
Qed.

Lemma cell_dump_exact_witness :
  ∃ (rs : @RunState DashMapStore.t) V, length (send_pending (rs_self rs)) = 1%nat ∧
  ∃ rs' dump, @iteration Count_u16 sample_hmac _ _ rs (sent_at 3002) (quiet <| rd_admin := Some (Some (CellDump 5)) |>) =
      Some (rs', [CellDumpReply 5 dump], Continue) ∧
    dump_cell <$> cs_cells dump ≡ₚ map_to_list V ∧
    cs_local_identity dump = CellStore.local_identity (store (rs_self rs)) ∧
    node_inv rs' V ∧ store (rs_self rs') = store (rs_self rs).
Proof.
  destruct node_queued as (rs & V & Hi & Hf & Hl & Hrx). exists rs, V. split; [exact Hl|].
  apply (@cell_dump_exact Count_u16 _ sample_hmac DashMapStore.t _ _ _ _ rs V (sent_at 3002)
    (quiet <| rd_admin := Some (Some (CellDump 5)) |>) 5 narrow_u16 Hi).
  split; [exact Hf|]. split; [reflexivity|]. split; [reflexivity|]. split; [right; reflexivity|].
  split; [right; reflexivity|]. split; [exact Hrx|reflexivity].
Defined.

(** ** A pool whose size is a multiple of 256 *)
Section mute.
Context {C : Count} {CL : CountLaws C} (Hw : narrow) (hmac : list Z → list Z → list Z).
Context (hmac_len : tags_ok hmac).
Context {S : Type} `{AggregateLaws S} (L : gset Z) (K : Z).

Definition no_datagram (effs : list Effect) : Prop := ∀ dst bytes, Datagram dst bytes ∉ effs.

Lemma dispatch_no_datagram (self : t S) V done env o r :
  rt_inv hmac L K self V → o ≠ Writable → dispatch hmac self done env o = Some r → no_datagram r.1.2.
Proof using.
  intros Hi Ho. assert (no_datagram []) as Hn by (intros dst bytes ?%elem_of_nil; done).
  destruct o as [[[q|]|]|[[n src]|e]| |[evt|]|[cmd|]|]; cbn [dispatch]; try done.
  - destruct (handle_limit_request _ _ _); [|done]. by intros [= <-].
  - by intros [= <-].
  - by intros [= <-].
  - destruct (handle_inbound _ _ _); [|done]. by intros [= <-].
  - by intros [= <-].
  - destruct (handle_peer_event _ _); [|done]. by intros [= <-].
  - by intros [= <-].
  - destruct (admin_ok hmac L K self V cmd Hi) as (effs & -> & Heff & _). by intros [= <-].
  - by intros [= <-].
  - destruct (handle_gossip_tick _ _ _); [|done]. by intros [= <-].
Qed.

(** With no slot to hand out, the queue stays empty and the write arm disabled. *)
Lemma no_slots c id pool pending free :
  pool_inv hmac c id pool pending free → as_u8 (Z.max (gc_send_queue_capacity c) 1) = 0 →
  pending = [] ∧ free = [].
Proof using.
  intros [Hs _ _] Hz. rewrite Hz in Hs. change (zrange 0 0) with (@nil Z) in Hs.
  apply Permutation_nil_r, app_eq_nil in Hs as [-> Hp]. by destruct pending.
Qed.

Lemma iteration_mute (rs : @RunState S) V env rd r :
  loop_inv hmac L K (rs_self rs) V → event_ok (config (rs_self rs)) (env, rd) →
  as_u8 (Z.max (gc_send_queue_capacity (config (rs_self rs))) 1) = 0 →
  iteration hmac rs env rd = Some r → no_datagram r.1.2.
Proof using.
  intros Hi Hev Hz. destruct (no_slots _ _ _ _ _ (ri_pool _ _ _ _ _ (lp_inv _ _ _ _ _ Hi)) Hz) as [Hp _].
  rewrite iteration_eq. destruct (next_outcome rs rd) as [[self o]|] eqn:En.
  2:{ intros [= <-] dst bytes ?%elem_of_nil. done. }
  destruct (next_outcome_ok hmac L K rs V env rd self o Hi Hev En) as ([Hri _ _ _ _] & _).
  assert (o ≠ Writable) as Ho.
  { intros ->. unfold next_outcome, select in En. rewrite Hp in En. simpl in En.
    repeat case_match; simplify_eq. }
  destruct (dispatch hmac self _ env o) as [[[[self' done'] effs] flow]|] eqn:Ed; [|done].
  pose proof (dispatch_no_datagram self V _ env o _ Hri Ho Ed) as Hn. cbn [mbind option_bind]. destruct flow.
  - unfold finish_iteration, finish_observed. destruct (apply_rows self') as [self2|]; [|done]. cbn [mbind option_bind].
    destruct (pending_reply _); intros [= <-] dst bytes [Hin|Hin]%elem_of_app; try by apply (Hn dst bytes).
    + by apply list_elem_of_singleton in Hin.
    + by apply elem_of_nil in Hin.
  - by intros [= <-].
Qed.

Lemma run_mute evs : ∀ (rs : @RunState S) V,
  loop_inv hmac L K (rs_self rs) V → Forall (event_ok (config (rs_self rs))) evs →
  zlen (peers (rs_self rs)) + zlen evs ≤ 2 ^ 50 →
  as_u8 (Z.max (gc_send_queue_capacity (config (rs_self rs))) 1) = 0 →
  ∃ rs' effs flow, run hmac rs evs = Some (rs', effs, flow) ∧ no_datagram effs.
Proof using CL Hw hmac_len.
  induction evs as [|[env rd] evs IH]; intros rs V Hi Hev Hp Hz; cbn [run].
  { exists rs, [], Continue. split; [done|]. intros dst bytes ?%elem_of_nil. done. }
  apply Forall_cons in Hev as [Hev Hevs].
  assert (zlen ((env, rd) :: evs) = zlen evs + 1) as Hlen by (unfold zlen; simpl; lia).
  pose proof (zlen_nonneg evs).
  destruct (iteration_ok Hw hmac hmac_len L K rs V env rd Hi Hev ltac:(lia))
    as (rs1 & effs & flow & V1 & He & _ & Hi1 & [Hc Hid] & Hl & _).
  pose proof (iteration_mute rs V env rd _ Hi Hev Hz He) as Hn. simpl in Hn. rewrite He. cbn [mbind option_bind].
  destruct flow as [|r]; [|by exists rs1, effs, (Return r)].
  destruct (IH rs1 V1 (Hi1 eq_refl)) as (rs2 & effs2 & flow2 & -> & Hn2); [by rewrite Hc|lia|by rewrite Hc|].
  cbn [mbind option_bind]. exists rs2, (effs ++ effs2), flow2. split; [done|].
  intros dst bytes [?|?]%elem_of_app; [by apply (Hn dst bytes)|by apply (Hn2 dst bytes)].
Qed.
End mute.

(** C37: a send queue whose capacity is a multiple of 256 never sends.  The free
    list is built from the capacity cut to eight bits, so the pool's buffers are
    allocated and none is ever handed out: whatever happens to the node, no
    datagram leaves it. *)
Theorem capacity_256_is_mute {C : Count} {CL : CountLaws C} hmac {S : Type} `{AggregateLaws S}
    scfg id rules st config (agg : S) admin evs k :
  tags_ok hmac → narrow →
  config_ok scfg → uint 128 (node_id id) → uint 32 (ni_incarnation id) →
  Forall (λ d, applies_locally d = true) rules → started scfg id rules = Some (Some st) →
  config_wf config → agg_ok agg → (∀ cid, agg_read agg cid = 0) →
  Forall (event_ok config) evs → zlen (gc_bootstrap_peers config) + zlen evs ≤ 2 ^ 50 →
  0 < k → gc_send_queue_capacity config = 256 * k →
  ∃ rs effs flow,
    run hmac {| rs_self := from_parts_with_admin config st agg admin; peer_events_done := false |} evs =
      Some (rs, effs, flow) ∧ ∀ dst bytes, Datagram dst bytes ∉ effs.
Proof.
  intros Hmac Hw Hsc Hn Hinc Hr Hst Hc Hok Hread Hev Hp Hk Hcap.
  destruct (started_ok scfg id rules st Hsc Hn Hinc Hr Hst) as [Hs _].
  pose proof (from_parts_ok hmac (fingerprints rules) (peer_capacity scfg) config st agg admin Hc Hs Hok Hread) as Hi.
  eapply run_mute; try done; simpl; [by rewrite zlen_fmap|].
  rewrite Hcap, Z.max_l by lia. unfold as_u8. rewrite Z.mul_comm. by apply Z.mod_mul.
Qed.

Lemma capacity_256_is_mute_witness :
  ∃ st, node_store = Some (Some st) ∧ ∃ rs effs flow,
    @run Count_u16 sample_hmac _ _
      {| rs_self := from_parts_with_admin (node_config <| gc_send_queue_capacity := 256 |>) st (∅ : DashMapStore.t) true;
         peer_events_done := false |} node_events = Some (rs, effs, flow) ∧
    ∀ dst bytes, Datagram dst bytes ∉ effs.
Proof.
  destruct node_store_started as [st Hst]. exists st. split; [done|].
  apply (@capacity_256_is_mute Count_u16 _ sample_hmac DashMapStore.t _ _ sample_config sample_id [node_rule] st
    (node_config <| gc_send_queue_capacity := 256 |>) ∅ true node_events 1);
    [apply sample_tags_ok|apply narrow_u16|apply sample_config_ok|unfold uint; simpl; lia..|
     apply node_rules_ok|done| |done|done|exact node_events_ok|vm_compute; done|lia|reflexivity].
  destruct node_config_wf. split; assumption.
Defined.
