(* ===== verification/RuntimeExchange.v ===== *)
(** * One gossip round between two event loops

    The tick of one node, its queue drained into datagrams, and those datagrams
    delivered to another node: the composition of the cell store, the frame, the
    packet stream, the send queue, the decoder and the merge, as the two loops
    run it. *)

From S2P Require Import Prelude Types Hash Index Freelist Dictionary DirtyRing PeerFrontier IO CellStore CellSlots CellInv CellOps CellMerge CellExpire GossipFrame CellTyped StoreSpec Bytes WireHeader WireBody WirePlan WireCodec Wire WireTyped Exchange DashMap Mirror Runtime RuntimeSend RuntimeAdmin RuntimeInv RuntimeStep RuntimeLoop RuntimeSpec RuntimeNet.
Import GossipRuntime.
#[local] Existing Instances DashMapStore.aggregate DashMapStore.aggregate_laws.

(** A cell per name, exactly. *)
Lemma active_len_size {C : Count} st V : inv st V → CellStore.active_len st = Z.of_nat (size V).
Proof.
  intros (A & Mr & Mn & pins & Hi).
  destruct (active_handles_ok st A Mr Mn pins V Hi) as (hs & _ & Hnd & Hmem & Hg).
  destruct (dump_rows_ok st A Mr Mn pins V Hi hs) as (cells & _ & Hf & _).
  { intros h Hh. split; [|by apply Hg]. apply Hmem, list_elem_of_fmap. by exists h. }
  pose proof (dump_contents st A Mr Mn pins V Hi hs cells Hnd Hmem Hf) as Hp.
  apply Permutation_length in Hp. rewrite length_fmap, <- (Forall2_length _ _ _ Hf), length_map_to_list in Hp.
  rewrite (si_active _ _ (iv_slots _ _ _ _ _ _ Hi)), <- Hp, <- (length_fmap h_index hs).
  rewrite <- (size_list_to_set (C := gset Z) _ Hnd). do 2 f_equal. apply set_eq. intros s.
  by rewrite elem_of_list_to_set, Hmem.
Qed.

Lemma snapshot_size {C : Count} st V obs :
  inv st V → snapshot V obs → obs = [] → V = ∅.
Proof. intros _ Hs ->. apply map_empty. intros n. apply eq_None_not_Some. intros [c Hc]. apply Hs in Hc as (o & ?%elem_of_nil & _). done. Qed.

Section sender.
Context {C : Count} {CL : CountLaws C} (Hw : narrow) (hmac : list Z → list Z → list Z) (hmac_len : tags_ok hmac).
Context {S : Type} `{AggregateLaws S} (L : gset Z) (K : Z).
Implicit Types (self : t S).

(** The queue gained packets for [dst] that together carry the contents [W]. *)
Definition carries_all self (W : gmap CellName Z) (dst : SocketAddr) (pool : list PacketBuf)
    (pending : list (SocketAddr * Z)) : Prop :=
  ∃ slots ps parts packets st, pending = send_pending self ++ ((λ s, (dst, s)) <$> slots) ∧ holds pool slots ps ∧
    pk_key packets = gc_auth_key (config self) ∧ pk_limits packets = gc_wire_limits (config self) ∧
    stream_ok hmac st W packets ps parts ∧ snapshot W (wire_obs <$> concat parts.*2) ∧
    zlen (concat parts.*2) ≤ Z.of_nat (size W).

(** What the configuration must allow for one frame to hold the contents. *)
Record fits (c : GossipConfig) (n : Z) : Prop := {
  ft_frame : n < gc_max_cells_per_tick c;
  ft_payload : min_payload_bytes count_size (auth_overhead (gc_auth_key c)) ≤ max_payload_bytes (gc_wire_limits c);
}.

Lemma carries_nothing self dst pool : carries_all self ∅ dst pool (send_pending self).
Proof using.
  exists [], [], [], {| pk_header := outbound_header self; pk_handles := []; pk_key := gc_auth_key (config self);
    pk_scratch := scratch self; pk_limits := gc_wire_limits (config self); pk_cursor := 0 |}, (store self).
  simpl. rewrite app_nil_r. split_and!; try done; [constructor..|].
  intros n c. rewrite lookup_empty. split; [|done]. by intros (o & ?%elem_of_nil & _).
Qed.

(** Each packet takes at least one handle. *)
Lemma stream_length st W packets ps parts :
  stream_ok hmac st W packets ps parts → (length ps ≤ length (concat parts.*1))%nat.
Proof using.
  induction 1 as [|p [hs es] ps parts (Hne & _) _ IH]; [done|].
  change (concat ((hs, es) :: parts).*1) with (hs ++ concat parts.*1). rewrite length_app.
  destruct hs; [done|]. cbn [length]. lia.
Qed.

Lemma gossip_to_carries self V i p :
  rt_inv hmac L K self V → zget (peers self) i = Some p → fits (config self) (Z.of_nat (size V)) →
  Z.of_nat (size V) ≤ zlen (send_free self) →
  ∃ b st fh sc pool pending free,
    gossip_to hmac self i = Some (with_send self st fh sc pool pending free, b) ∧
    rt_inv hmac L K (with_send self st fh sc pool pending free) V ∧ stable (store self) st ∧
    carries_all self V (addr p) pool pending.
Proof using CL hmac_len.
  intros Hi Hp [Hframe Hpay] Hfree. unfold gossip_to. case_bool_decide as Hf.
  { exists false, (store self), (frame_handles self), (scratch self), (send_pool self),
      (send_pending self), (send_free self). unfold with_send.
    split; [by destruct self|]. split; [destruct Hi; by split|]. split; [done|].
    assert (V = ∅) as -> by (apply map_size_empty_iff; rewrite Hf in Hfree; unfold zlen in Hfree; simpl in Hfree; lia).
    apply carries_nothing. }
  rewrite Hp. cbn [mbind option_bind].
  pose proof (ri_peers _ _ _ _ _ Hi) as Hps. rewrite Forall_forall in Hps.
  destruct (frame_for_ok L K (store self) V p (gc_max_cells_per_tick (config self)))
    as (A & Mr & Mn & pins & v & st' & handles & -> & Hat & Hfp & Hs & Hst & Hh & Hl);
    [apply Hi|apply (ri_config _ _ _ _ _ Hi)|by eapply Hps, zget_elem_of|].
  cbn [mbind option_bind].
  pose proof (frame_length _ _ _ _ _ _ _ _ _ _ Hat Hfp) as Hlen.
  rewrite (active_len_size _ V) in Hlen by (by exists A, Mr, Mn, pins).
  assert (∀ es, resolves st' handles es → Forall (wire_entry V) es → snapshot V (wire_obs <$> es)) as Hsnap.
  { intros es. eapply frame_snapshot; [exact Hat|exact Hfp|lia]. }
  pose proof (with_send_inv hmac L K self V st' handles Hi Hs Hst) as Hi1.
  set (self1 := self <| store := st' |> <| frame_handles := handles |>) in *.
  case_bool_decide as Hnil.
  { exists true, st', handles, (scratch self), (send_pool self), (send_pending self), (send_free self).
    split; [done|]. split; [done|]. split; [done|].
    assert (V = ∅) as ->; [|apply carries_nothing].
    eapply snapshot_size; [by eapply store_inv_inv|apply (Hsnap []); [|constructor]|done]. rewrite Hnil. by exists []. }
  destruct (encode_packets_for_ok hmac hmac_len L K self1 V (addr p) Hi1 Hh Hl)
    as (sc & pool & pending & free & -> & Hi2 & slots & ps & Hpend & Hfr & Hhold & Hq). cbn [mbind option_bind].
  exists true, st', handles, sc, pool, pending, free. split; [done|]. split; [done|]. split; [done|].
  destruct (Hq Hpay) as (packets & parts & rest & Hk & Hlim & Hstream & Hcat & Hfin).
  change (frame_handles self1) with handles in Hcat. change (send_free self1) with (send_free self) in Hfr.
  assert (rest = []) as ->.
  { destruct Hfin as [?|Hnf]; [done|]. rewrite Hnf in Hfr. simpl in Hfr.
    pose proof (stream_length _ _ _ _ _ Hstream). pose proof (Forall2_length _ _ _ Hhold) as Hls.
    apply (f_equal length) in Hcat. rewrite length_app in Hcat.
    rewrite Hfr in Hfree. unfold zlen in *. rewrite length_reverse in Hfree.
    destruct rest; [done|]. simpl in Hcat. lia. }
  rewrite app_nil_r in Hcat.
  pose proof (stream_resolves _ _ _ _ _ _ Hstream) as Hres. rewrite <- Hcat in Hres.
  pose proof (resolves_length _ _ _ Hres).
  exists slots, ps, parts, packets, st'. split_and!; try done; [|lia].
  apply Hsnap; [done|]. by eapply stream_entries.
Qed.

Lemma tick_carries self V env p self' :
  let W := live_at (store self) (now_millis env) V in
  rt_inv hmac L K self V → peers self = [p] → fits (config self) (Z.of_nat (size W)) →
  Z.of_nat (size W) ≤ zlen (send_free self) → handle_gossip_tick hmac self env = Some self' →
  carries_all self W (addr p) (send_pool self') (send_pending self').
Proof using CL hmac_len.
  intros W Hi Hps Hfits Hfree. unfold handle_gossip_tick. cbn [store set_field expiration_buf].
  change (ExpirationSink.clear _) with (ExpirationSink.of_rows []).
  match goal with |- context [CellStore.expire_at ?x] => change x with (store self) end.
  destruct (expire_store L K (store self) V (now_millis env) (ri_store _ _ _ _ _ Hi)) as (st & es & -> & Hs1 & Hst & _ & _).
  cbn [mbind option_bind]. fold W in Hs1.
  set (self1 := self <| ticks_total := saturating_add 64 (ticks_total self) 1 |>
                     <| store := st |> <| expiration_buf := ExpirationSink.of_rows es |>).
  assert (rt_inv hmac L K self1 W) as Hi1 by (eapply (rt_inv_store hmac L K self V); try done; apply Hi).
  destruct (_ || _) eqn:E.
  { intros [= <-]. assert (W = ∅) as ->; [|apply (carries_nothing self)].
    apply map_size_empty_iff. simpl in E. rewrite Hps in E. unfold CellStore.is_empty in E. simpl in E.
    rewrite (active_len_size _ W) in E by (by eapply store_inv_inv). rewrite orb_false_r in E.
    apply orb_true_iff in E as [E|E%bool_decide_eq_true]; [lia|]. rewrite E in Hfree. unfold zlen in Hfree. simpl in Hfree. lia. }
  set (k := fanout_of (config self) (zlen (peers self))).
  set (self2 := self1 <| dirty_ticks := saturating_add 64 (dirty_ticks self1) 1 |>
    <| last_effective_fanout := k |> <| peak_effective_fanout := Z.max (peak_effective_fanout self) k |>).
  assert (rt_inv hmac L K self2 W) as Hi2 by (eapply (rt_inv_store hmac L K self1 W); try done; apply Hi1).
  change (emit_frames hmac self2 k (Z.max (now_millis env) 1) = Some self' →
    carries_all self W (addr p) (send_pool self') (send_pending self')).
  assert (k = 1) as ->.
  { unfold k, fanout_of. rewrite Hps. change (zlen [p]) with 1. pose proof (coverage_fanout_nonneg 1). lia. }
  unfold emit_frames. change (peers self2) with (peers self). rewrite Hps.
  destruct (pick_peers_ok [p] (rng self2) 1) as (ps & g & -> & Hperm%Permutation_singleton_r); [by vm_compute..|].
  subst ps. cbn [mbind option_bind]. change (zrange 0 1) with [0]. cbn [for_each_while].
  destruct (gossip_to_carries (self2 <| peers := [p] |> <| rng := g |>) W 0 p)
    as (b & st2 & fh & sc & pool & pending & free & -> & Hi3 & _ & Hc); [|done..|].
  { eapply (rt_inv_store hmac L K self2 W); try done; try apply Hi2.
    simpl. rewrite <- Hps. apply Hi. }
  cbn [mbind option_bind].
  match goal with |- context [if b then Some ?x else Some _] => replace (if b then Some x else Some x) with (Some x) by (by destruct b) end.
  cbn [mbind option_bind].
  match goal with |- context [reset_pending ?x ?y] => destruct (reset_pending_ok x y) as (q & last & -> & _) end.
  { rewrite (ri_pending _ _ _ _ _ Hi3). apply Hi3. }
  intros [= <-]. exact Hc.
Qed.
End sender.

Section receiver.
Context {C : Count} {CL : CountLaws C} (Hw : narrow) (hmac : list Z → list Z → list Z).
Context {S : Type} `{AggregateLaws S} (L : gset Z) (K : Z).

(** The wake-ups in which the packets arrive, one each. *)
Definition arrivals (c : GossipConfig) (src : SocketAddr) (envs : list Env) (packets : list (list Z)) :
    list (Env * Ready) :=
  zip_with (λ env bytes, (env, deliver c src bytes)) envs packets.

Lemma run_arrivals st W packets src ps parts :
  stream_ok hmac st W packets ps parts → ∀ envs (rs : @RunState S) V,
  loop_inv hmac L K (rs_self rs) V → want_immediate_flush (rs_self rs) = false →
  pk_key packets = gc_auth_key (config (rs_self rs)) →
  max_payload_bytes (pk_limits packets) ≤ max_payload_bytes (gc_wire_limits (config (rs_self rs))) →
  zlen (concat parts.*2) ≤ max_cells (gc_wire_limits (config (rs_self rs))) →
  room (store (rs_self rs)) (zlen (concat parts.*2)) →
  Forall (λ env, uint 64 (now_millis env)) envs → length envs = length ps → Forall (λ p, Forall byte p.1) ps →
  ∃ rs', run hmac rs (arrivals (config (rs_self rs)) src envs ps.*1) = Some (rs', [], Continue) ∧
    loop_inv hmac L K (rs_self rs') (merge_all V (wire_obs <$> concat parts.*2)).
Proof using CL Hw.
  induction 1 as [|[bytes pw] [hs es] ps parts (_ & more & Hpost) _ IH];
    intros envs rs V Hi Hf Hkey Hpay Hcells Hroom Henv Hl Hb; destruct envs as [|env envs]; try done.
  { by exists rs. }
  change (concat ((hs, es) :: parts).*2) with (es ++ concat parts.*2) in *. rewrite zlen_app in Hcells, Hroom.
  apply Forall_cons in Henv as [Hn Henv]. apply Forall_cons in Hb as [Hb Hbs]. simpl in Hb.
  pose proof (zlen_nonneg es). pose proof (zlen_nonneg (concat parts.*2)).
  destruct Hpost as [_ _ _ _ Hbound (hdr & _ & _ & _ & _ & _ & Hdec)]. simpl in Hbound, Hdec.
  destruct (iteration_inbound Hw hmac L K rs V env (deliver (config (rs_self rs)) src bytes)
    (received (config (rs_self rs)) bytes) (zlen bytes) src Hi)
    as (rs1 & V1 & cells & r & He & Hi1 & Hd & Hc1 & _ & Hf1 & _ & _ & Hcase); [|done..|].
  { apply deliver_ok; [done|done|lia]. }
  rewrite take_received, <- Hkey, Hdec in Hd by lia. injection Hd as <- <-.
  destruct Hcase as (acc & -> & _ & Hall & Hkeep & _). rewrite zlen_fmap in Hall, Hkeep.
  rewrite Hall in Hi1 by (unfold room in *; lia).
  cbn [arrivals zip_with fmap list_fmap fst]. cbn [run]. rewrite He. cbn [mbind option_bind].
  change (zip_with _ envs (fst <$> ps)) with (arrivals (config (rs_self rs)) src envs ps.*1). rewrite <- Hc1.
  destruct (IH envs rs1 _ Hi1 Hf1) as (rs2 & -> & Hi2); rewrite ?Hc1; try done; try lia.
  { apply Hkeep. by rewrite Z.add_comm. }
  { simpl in Hl. lia. }
  exists rs2. split; [done|]. cbn [mbind option_bind]. rewrite fmap_app.
  unfold merge_all in *. rewrite foldl_app, <- list_fmap_compose in *. exact Hi2.
Qed.
End receiver.

(** The datagrams of a drained queue are the packets it holds. *)
Lemma drained_datagrams {C : Count} pool dst slots ps effs :
  holds pool slots ps → Forall2 (datagram_of pool) ((λ s, (dst, s)) <$> slots) effs →
  effs = Datagram dst <$> ps.*1.
Proof.
  intros Hh. revert effs. induction Hh as [|slot p slots ps (buf & Hb & Hp & _) _ IH]; intros effs He.
  { by apply Forall2_nil_inv_l in He as ->. }
  apply Forall2_cons_inv_l in He as (e & effs' & (buf' & Hb' & ->) & He & ->). cbn [fst snd] in *.
  cbn [fmap list_fmap]. rewrite (IH effs' He). f_equal. rewrite Hb in Hb'. injection Hb' as <-. by rewrite Hp.
Qed.

Definition tick_ready : Ready := quiet <| rd_tick := true |>.

(** C5: one gossip round between two running nodes is the join.  Node [a] has
    one peer, an empty queue and a configuration that lets its live cells fit
    one frame and the free buffers; a tick expires its old cells and queues
    packets; when the socket takes them, they leave in order for that peer;
    node [b], with the same key, limits at least as large and room for the
    cells, takes them off the network in that order and holds afterwards, for
    every cell, the larger of both nodes' counts, and its aggregate store reads
    the totals of that join.  Neither loop panics or stops. *)
Theorem gossip_round_joins {C : Count} {CL : CountLaws C} hmac {SA SB : Type}
    `{AggregateLaws SA} `{AggregateLaws SB} LA KA LB KB
    (a : @RunState SA) (b : @RunState SB) VA VB p env src :
  tags_ok hmac → narrow →
  loop_inv hmac LA KA (rs_self a) VA → loop_inv hmac LB KB (rs_self b) VB →
  uint 64 (now_millis env) →
  want_immediate_flush (rs_self a) = false → want_immediate_flush (rs_self b) = false →
  peers (rs_self a) = [p] → send_pending (rs_self a) = [] →
  let W := live_at (store (rs_self a)) (now_millis env) VA in
  let n := Z.of_nat (size W) in
  fits (config (rs_self a)) n → n ≤ zlen (send_free (rs_self a)) →
  gc_auth_key (config (rs_self b)) = gc_auth_key (config (rs_self a)) →
  max_payload_bytes (gc_wire_limits (config (rs_self a))) ≤ max_payload_bytes (gc_wire_limits (config (rs_self b))) →
  n ≤ max_cells (gc_wire_limits (config (rs_self b))) → room (store (rs_self b)) n →
  ∃ a1 packets, iteration hmac a env tick_ready = Some (a1, [], Continue) ∧
    loop_inv hmac LA KA (rs_self a1) W ∧
    (∀ evs, Forall writable_ok evs → length evs = length packets →
       ∃ a2, run hmac a1 evs = Some (a2, Datagram (addr p) <$> packets, Continue) ∧
             loop_inv hmac LA KA (rs_self a2) W) ∧
    ∀ envs, Forall (λ e, uint 64 (now_millis e)) envs → length envs = length packets →
      ∃ b', run hmac b (arrivals (config (rs_self b)) src envs packets) = Some (b', [], Continue) ∧
        loop_inv hmac LB KB (rs_self b') (join VB W) ∧
        (∀ m, read (store (rs_self b')) m = Some (join VB W !! m)) ∧
        ∀ cid, agg_read (aggregates (rs_self b')) cid =
               if decide (rule_fingerprint cid ∈ LB) then total (join VB W) cid else 0.
Proof.
  intros Hmac Hw Ha Hb Hnow Hfa Hfb Hps Hpend W n Hfits Hfree Hkey Hpay Hcells Hroom.
  assert (next_outcome a tick_ready = Some (rs_self a, Tick)) as Hn.
  { unfold next_outcome, select. rewrite Hfa, Hpend. simpl. by destruct (peer_events_done a), (admin_rx (rs_self a)). }
  destruct (iteration_tick Hw hmac Hmac LA KA a VA env tick_ready (rs_self a) Ha)
    as (a1 & self' & He & Ht & Ha1 & _ & _ & _ & Hf1 & Hsp & Hpl & _); [|by rewrite Hps; vm_compute|done|].
  { by apply event_quiet. }
  destruct (tick_carries hmac Hmac LA KA (rs_self a) VA env p self' (lp_inv _ _ _ _ _ Ha) Hps Hfits Hfree Ht)
    as (slots & ps & parts & packets & st & Hpd & Hh & Hk & Hlim & Hst & Hsnap & Hle). fold W in Hst, Hsnap, Hle.
  rewrite Hpend in Hpd. simpl in Hpd.
  assert (length slots = length ps) as Hls by apply (Forall2_length _ _ _ Hh).
  exists a1, ps.*1. rewrite length_fmap. split; [done|]. split; [done|]. split.
  - intros evs Hev Hl.
    destruct (run_writable Hw hmac LA KA evs a1 W Ha1) as (a2 & effs & Hr & Ha2 & Hd & _);
      [by rewrite Hf1|done|by rewrite Hsp, Hpd, length_fmap, Hls|].
    rewrite Hsp, Hpl, Hpd in Hd. rewrite (drained_datagrams _ _ _ _ _ Hh Hd) in Hr. by exists a2.
  - intros envs Henv Hl.
    destruct (run_arrivals Hw hmac LB KB st W packets src ps parts Hst envs b VB Hb Hfb) as (b' & Hr & Hb');
      [congruence|by rewrite Hlim|lia| |done|done| |].
    { unfold room, n in *. lia. }
    { clear -Hh. induction Hh as [|? ? ? ? (? & _ & _ & ?)]; by constructor. }
    rewrite (merge_all_snapshot VB W) in Hb'; [|intros m c Hm; eapply inv_counts; [|exact Hm]..|done].
    + exists b'. split; [done|]. split; [done|]. split; [|apply Hb'].
      intros m. apply read_ok. by eapply store_inv_inv, Hb'.
    + by eapply store_inv_inv, Hb.
    + by eapply store_inv_inv, Ha1.
Qed.

(** ** A round between two small nodes *)
Definition one_hit : LimitRequest := {|
  lr_rule_fingerprint := 11; lr_key_hash := 5; lr_bucket := 3; lr_hits := 1;
  lr_rule_limit := 100; lr_now_millis := 3000; lr_reply := None |}.
Definition hit_event : Env * Ready := (sent_at 3000, quiet <| rd_request := Some (Some (Limit one_hit)) |>).

Lemma node_hit : ∃ (a : @RunState DashMapStore.t) V, node_inv a V ∧ config (rs_self a) = node_config ∧
  (want_immediate_flush (rs_self a), peers (rs_self a), send_pending (rs_self a), zlen (send_free (rs_self a)),
   CellStore.active_len (store (rs_self a))) = (false, [fresh_peer node_peer], [], 32, 1).
Proof.
  assert (match node_store with
    | Some (Some st) =>
      match @run Count_u16 sample_hmac _ _ (node_runtime st) [hit_event] with
      | Some (a, _, Continue) =>
        Some (want_immediate_flush (rs_self a), peers (rs_self a), send_pending (rs_self a), zlen (send_free (rs_self a)),
              CellStore.active_len (store (rs_self a)))
      | _ => None
      end
    | _ => None
    end = Some (false, [fresh_peer node_peer], [], 32, 1)) as Hrun by (vm_compute; reflexivity).
  destruct node_store as [[st|]|] eqn:Hst; [|done..]. destruct (node_starts st Hst) as [Hi _].
  destruct (run_ok narrow_u16 sample_hmac sample_tags_ok (fingerprints [node_rule]) (peer_capacity sample_config)
    [hit_event] (node_runtime st) ∅ Hi) as (rs' & effs & flow & V & He & _ & Hi' & _ & [Hc _] & _).
  { apply Forall_cons_2; [|constructor]. split; [unfold uint; simpl; lia|]. split; [|discriminate].
    intros r [= <-]. unfold request_typed, uint. simpl. lia. }
  { vm_compute. discriminate. }
  rewrite He in Hrun. destruct flow as [|]; [|discriminate]. exists rs', V.
  split; [exact (Hi' eq_refl)|]. split; [exact Hc|]. injection Hrun as -> -> -> -> ->. reflexivity.
Qed.

(** The other node: another identity, nothing counted yet. *)
Definition other_store : option (option CellStore.t) :=
  @started Count_u16 sample_config {| node_id := 8; ni_incarnation := 1 |} [node_rule].

Lemma other_starts : ∃ st, other_store = Some (Some st) ∧ room st 1 ∧ node_inv (node_runtime st) ∅.
Proof.
  assert (∃ st, other_store = Some (Some st) ∧ room st 1) as (st & Hst & Hr).
  { eexists. split; [vm_compute; reflexivity|]. vm_compute. split_and!; discriminate. }
  exists st. split; [done|]. split; [done|].
  destruct (@started_ok Count_u16 _ sample_config {| node_id := 8; ni_incarnation := 1 |} [node_rule] st) as [Hs _];
    [apply sample_config_ok|unfold uint; simpl; lia..|apply node_rules_ok|done|].
  unfold node_inv. apply from_parts_ok; [apply node_config_wf|done|done|done].
Qed.

Lemma gossip_round_joins_witness :
  ∃ (a : @RunState DashMapStore.t) VA st,
    node_inv a VA ∧ CellStore.active_len (store (rs_self a)) = 1 ∧ other_store = Some (Some st) ∧
    let W := live_at (store (rs_self a)) 3100 VA in
    ∃ a1 packets, @iteration Count_u16 sample_hmac _ _ a (sent_at 3100) tick_ready = Some (a1, [], Continue) ∧
      ∀ envs, Forall (λ e, uint 64 (now_millis e)) envs → length envs = length packets →
        ∃ b', @run Count_u16 sample_hmac _ _ (node_runtime st)
                (arrivals node_config node_peer envs packets) = Some (b', [], Continue) ∧
              node_inv b' (join ∅ W).
Proof.
  destruct node_hit as (a & VA & Ha & Hc & Hobs). injection Hobs as Hf Hps Hpend Hfree Hact.
  destruct other_starts as (st & Hst & Hroom & Hb). exists a, VA, st. split; [exact Ha|].
  split; [exact Hact|]. split; [exact Hst|]. intros W.
  assert (Z.of_nat (size W) ≤ 1) as Hsize.
  { rewrite <- Hact, (@active_len_size Count_u16 _ VA) by (by eapply store_inv_inv, (lp_inv _ _ _ _ _ Ha)).
    apply inj_le, map_subseteq_size, map_filter_subseteq. }
  destruct (@gossip_round_joins Count_u16 _ sample_hmac DashMapStore.t DashMapStore.t _ _ _ _ _ _ _ _ a (node_runtime st)
    VA ∅ (fresh_peer node_peer) (sent_at 3100) node_peer sample_tags_ok narrow_u16 Ha Hb)
    as (a1 & packets & He & _ & _ & Hrecv);
    [unfold uint; simpl; lia|exact Hf|reflexivity|exact Hps|exact Hpend|..].
  - change (now_millis (sent_at 3100)) with 3100. fold W. rewrite Hc. split; [change (gc_max_cells_per_tick _) with 1024; lia|vm_compute; discriminate].
  - change (now_millis (sent_at 3100)) with 3100. fold W. rewrite Hfree. lia.
  - by rewrite Hc.
  - by rewrite Hc.
  - change (now_millis (sent_at 3100)) with 3100. fold W. change (max_cells _) with 8. lia.
  - change (now_millis (sent_at 3100)) with 3100. fold W. change (store (rs_self (node_runtime st))) with st. unfold room in *. lia.
  - exists a1, packets. split; [exact He|]. intros envs Henv Hl.
    destruct (Hrecv envs Henv Hl) as (b' & Hrun & Hb' & _). exists b'. split; [exact Hrun|exact Hb'].
Defined.
