(* ===== verification/NetAddr.v ===== *)
(** * Network addresses

    What the source uses of [std::net]: [IpAddr::from_str] and
    [SocketAddr::from_str], written as the standard library's recursive-descent
    parser (each reader restores its input on failure), [SocketAddr::new], and
    [SocketAddr::to_string]. *)

From stdpp Require Import strings.
From S2P Require Import Prelude Bytes Str Runtime.

Inductive IpAddr := IpV4 (ip : Z) | IpV6 (ip : Z).

(** [SocketAddr::new] *)
Definition SocketAddr_new (ip : IpAddr) (port : Z) : SocketAddr :=
  match ip with IpV4 ip => V4 ip port | IpV6 ip => V6 ip port 0 0 end.

Definition SocketAddr_code (a : SocketAddr) : (Z * Z) + (Z * Z * Z * Z) :=
  match a with V4 ip port => inl (ip, port) | V6 ip port f s => inr (ip, port, f, s) end.
Definition SocketAddr_decode (c : (Z * Z) + (Z * Z * Z * Z)) : SocketAddr :=
  match c with inl (ip, port) => V4 ip port | inr (ip, port, f, s) => V6 ip port f s end.
#[export] Instance SocketAddr_countable : Countable SocketAddr.
Proof. apply (inj_countable' SocketAddr_code SocketAddr_decode). by intros []. Defined.

(** ** Readers *)
Definition read_given_char (c : Z) (s : str) : option str :=
  match s with x :: s => if x =? c then Some s else None | [] => None end.

Definition read_separator {A} (sep : Z) (index : nat) (inner : str → option (A * str)) (s : str) : option (A * str) :=
  match index with
  | O => inner s
  | S _ => s ← read_given_char sep s; inner s
  end.

(** The digits of a [bits]-wide number, at most [max] of them when it is given. *)
Fixpoint read_digits (radix bits : Z) (max : option Z) (count acc : Z) (s : str) : option (Z * Z * str) :=
  match s with
  | c :: rest =>
    match to_digit radix c with
    | Some d =>
      acc ← checked bits (acc * radix);
      acc ← checked bits (acc + d);
      if default false ((λ m, m <? count + 1) <$> max) then None else read_digits radix bits max (count + 1) acc rest
    | None => Some (acc, count, s)
    end
  | [] => Some (acc, count, [])
  end.

Definition read_number (radix bits : Z) (max : option Z) (allow_zero_prefix : bool) (s : str) : option (Z * str) :=
  let has_leading_zero := match s with c :: _ => c =? 48 | [] => false end in
  '(result, digit_count, s) ← read_digits radix bits max 0 0 s;
  if digit_count =? 0 then None
  else if negb allow_zero_prefix && has_leading_zero && (1 <? digit_count) then None
  else Some (result, s).

Definition read_octet (index : nat) : str → option (Z * str) := read_separator 46 index (read_number 10 8 (Some 3) false).

Definition read_ipv4_addr (s : str) : option (Z * str) :=
  '(a, s) ← read_octet 0 s;
  '(b, s) ← read_octet 1 s;
  '(c, s) ← read_octet 2 s;
  '(d, s) ← read_octet 3 s;
  Some (((a * 256 + b) * 256 + c) * 256 + d, s).

(** Up to [more] more groups, of which this is number [i]; whether the last two
    came from an embedded IPv4 address. *)
Fixpoint read_groups (i more : nat) (s : str) : list Z * bool * str :=
  match more with
  | O => ([], false, s)
  | S more =>
    match (if (more =? 0)%nat then None else read_separator 58 i read_ipv4_addr s) with
    | Some (v4, s) => ([v4 / 65536; v4 mod 65536], true, s)
    | None =>
      match read_separator 58 i (read_number 16 16 (Some 4) true) s with
      | Some (g, s) => let '(gs, v4, s) := read_groups (S i) more s in (g :: gs, v4, s)
      | None => ([], false, s)
      end
    end
  end.

Definition groups_value (gs : list Z) : Z := foldl (λ acc g, acc * 65536 + g) 0 gs.

Definition read_ipv6_addr (s : str) : option (Z * str) :=
  let '(head, head_ipv4, s) := read_groups 0 8 s in
  if (length head =? 8)%nat then Some (groups_value head, s)
  else if head_ipv4 then None
  else
    s ← read_given_char 58 s;
    s ← read_given_char 58 s;
    let '(tail, _, s) := read_groups 0 (8 - (length head + 1)) s in
    Some (groups_value (head ++ replicate (8 - length head - length tail) 0 ++ tail), s).

(** [str::parse::<IpAddr>]: the whole text must be consumed. *)
Definition parse_ip (s : str) : option IpAddr :=
  match read_ipv4_addr s with
  | Some (ip, rest) => if bool_decide (rest = []) then Some (IpV4 ip) else None
  | None =>
    '(ip, rest) ← read_ipv6_addr s;
    if bool_decide (rest = []) then Some (IpV6 ip) else None
  end.

(** [str::parse::<SocketAddr>] *)
Definition read_port (s : str) : option (Z * str) :=
  s ← read_given_char 58 s; read_number 10 16 None true s.

Definition read_socket_addr_v4 (s : str) : option (SocketAddr * str) :=
  '(ip, s) ← read_ipv4_addr s;
  '(port, s) ← read_port s;
  Some (V4 ip port, s).

Definition read_scope_id (s : str) : option (Z * str) :=
  s ← read_given_char 37 s; read_number 10 32 None true s.

Definition read_socket_addr_v6 (s : str) : option (SocketAddr * str) :=
  s ← read_given_char 91 s;
  '(ip, s) ← read_ipv6_addr s;
  let '(scope_id, s) := match read_scope_id s with Some p => p | None => (0, s) end in
  s ← read_given_char 93 s;
  '(port, s) ← read_port s;
  Some (V6 ip port 0 scope_id, s).

Definition parse_socket_addr (s : str) : option SocketAddr :=
  '(a, rest) ← (match read_socket_addr_v4 s with Some p => Some p | None => read_socket_addr_v6 s end);
  if bool_decide (rest = []) then Some a else None.

(** ** Dotted quads read back *)
Definition octet_str (d : Z) : str := print_radix 10 3 d.
Definition ipv4_str (a b c d : Z) : str :=
  octet_str a ++ 46 :: octet_str b ++ 46 :: octet_str c ++ 46 :: octet_str d.

(** No digit follows. *)
Definition stops (s : str) : Prop := match s with c :: _ => to_digit 10 c = None | [] => True end.

Lemma read_digits_stop radix bits max count acc s t v n :
  read_digits radix bits max count acc s = Some (v, n, []) →
  (match t with c :: _ => to_digit radix c = None | [] => True end) →
  read_digits radix bits max count acc (s ++ t) = Some (v, n, t).
Proof.
  revert count acc. induction s as [|c s IH]; intros count acc; cbn [app read_digits].
  - intros [= -> ->] Ht. destruct t as [|c t]; [done|]. cbn [read_digits]. by rewrite Ht.
  - destruct (to_digit radix c); [|done].
    destruct (checked bits (acc * radix)); simpl; [|done]. destruct (checked bits _); simpl; [|done].
    destruct (default false _); [done|]. apply IH.
Qed.

Lemma octet_reads d : 0 ≤ d < 256 →
  (∃ n, read_digits 10 8 (Some 3) 0 0 (octet_str d) = Some (d, n, []) ∧ (n =? 0) = false ∧
    negb false && match octet_str d with c :: _ => c =? 48 | [] => false end && (1 <? n) = false) ∧ octet_str d ≠ [].
Proof.
  intros Hd. assert (d ∈ zrange 0 256) as Hin by (apply elem_of_zrange; lia). clear Hd. revert d Hin.
  apply Forall_forall. repeat (apply Forall_cons_2; [split; [eexists; split_and!; reflexivity|discriminate]|]). constructor.
Qed.

Lemma read_number_octet d t : 0 ≤ d < 256 → stops t → read_number 10 8 (Some 3) false (octet_str d ++ t) = Some (d, t).
Proof.
  intros Hd Ht. destruct (octet_reads d Hd) as ((n & Hr & Hn & Hz) & Hne). unfold read_number.
  rewrite (read_digits_stop _ _ _ _ _ _ t _ _ Hr Ht). cbn [mbind option_bind]. rewrite Hn.
  destruct (octet_str d) as [|c s]; [done|]. cbn [app]. by rewrite Hz.
Qed.

Lemma read_ipv4_str a b c d t :
  0 ≤ a < 256 → 0 ≤ b < 256 → 0 ≤ c < 256 → 0 ≤ d < 256 → stops t →
  read_ipv4_addr (ipv4_str a b c d ++ t) = Some (((a * 256 + b) * 256 + c) * 256 + d, t).
Proof.
  intros Ha Hb Hc Hd Ht. unfold read_ipv4_addr, read_octet, ipv4_str. cbn [read_separator].
  rewrite <- !app_assoc. rewrite read_number_octet by done. cbn [app mbind option_bind read_given_char].
  rewrite Z.eqb_refl. cbn [mbind option_bind]. rewrite <- app_assoc, read_number_octet by done.
  cbn [app mbind option_bind read_given_char]. rewrite Z.eqb_refl. cbn [mbind option_bind].
  rewrite <- app_assoc, read_number_octet by done. cbn [app mbind option_bind read_given_char].
  rewrite Z.eqb_refl. cbn [mbind option_bind]. rewrite read_number_octet by done. done.
Qed.

(** Every IPv4 address in dotted decimal is read as itself. *)
Lemma parse_ipv4_str a b c d :
  0 ≤ a < 256 → 0 ≤ b < 256 → 0 ≤ c < 256 → 0 ≤ d < 256 →
  parse_ip (ipv4_str a b c d) = Some (IpV4 (((a * 256 + b) * 256 + c) * 256 + d)).
Proof.
  intros Ha Hb Hc Hd. unfold parse_ip. rewrite <- (app_nil_r (ipv4_str a b c d)), read_ipv4_str by done.
  by rewrite bool_decide_true.
Qed.

Example parse_ipv6_forms :
  parse_ip (lit "::1") = Some (IpV6 1) ∧ parse_ip (lit "fd00::a:0b") = Some (IpV6 (64768 * 2 ^ 112 + 10 * 65536 + 11)) ∧
  parse_ip (lit "::ffff:10.0.0.1") = Some (IpV6 (65535 * 2 ^ 32 + 167772161)) ∧
  parse_ip (lit "1:2:3:4:5:6:7:8") = Some (IpV6 (groups_value [1; 2; 3; 4; 5; 6; 7; 8])) ∧
  parse_ip (lit "1:2:3:4:5:6:7:8::") = None ∧ parse_ip (lit "10.0.0.01") = None ∧ parse_ip (lit "10.0.0.256") = None ∧
  parse_ip (lit "1.2.3.4::") = None ∧ parse_ip (lit "12345::") = None ∧ parse_ip (lit "") = None.
Proof. vm_compute. split_and!; reflexivity. Qed.

Example parse_socket_addr_forms :
  parse_socket_addr (lit "0.0.0.0:9000") = Some (V4 0 9000) ∧ parse_socket_addr (lit "[::]:9000") = Some (V6 0 9000 0 0) ∧
  parse_socket_addr (lit "[fe80::1%3]:80") = Some (V6 (65152 * 2 ^ 112 + 1) 80 0 3) ∧
  parse_socket_addr (lit "10.0.0.1") = None ∧ parse_socket_addr (lit "10.0.0.1:65536") = None ∧
  parse_socket_addr (lit "localhost:80") = None.
Proof. vm_compute. split_and!; reflexivity. Qed.

(** ** Printing *)
Definition octet_of (ip : Z) (k : Z) : Z := ip / 256 ^ k mod 256.
Definition ipv4_display (ip : Z) : str := ipv4_str (octet_of ip 3) (octet_of ip 2) (octet_of ip 1) (octet_of ip 0).
Definition port_str (port : Z) : str := print_radix 10 5 port.

(** The groups of an IPv6 address, first one first. *)
Definition segments (ip : Z) : list Z := (λ k, ip / 65536 ^ k mod 65536) <$> [7; 6; 5; 4; 3; 2; 1; 0].
Definition to_ipv4_mapped (ip : Z) : option Z := if ip / 2 ^ 32 =? 65535 then Some (ip mod 2 ^ 32) else None.

(** The first longest run of zero groups, as start and length. *)
Fixpoint zero_span (i : nat) (current longest : nat * nat) (gs : list Z) : nat * nat :=
  match gs with
  | [] => longest
  | g :: gs =>
    if g =? 0 then
      let current := ((if current.2 =? 0 then i else current.1)%nat, S current.2) in
      zero_span (S i) current (if longest.2 <? current.2 then current else longest)%nat gs
    else zero_span (S i) (0, 0)%nat longest gs
  end.
Fixpoint fmt_subslice (gs : list Z) : str :=
  match gs with
  | [] => []
  | [g] => print_radix 16 4 g
  | g :: gs => print_radix 16 4 g ++ 58 :: fmt_subslice gs
  end.
Definition ipv6_display (ip : Z) : str :=
  match to_ipv4_mapped ip with
  | Some v4 => lit "::ffff:" ++ ipv4_display v4
  | None =>
    let gs := segments ip in
    let '(start, len) := zero_span 0 (0, 0)%nat (0, 0)%nat gs in
    if (1 <? len)%nat then fmt_subslice (take start gs) ++ lit "::" ++ fmt_subslice (drop (start + len) gs)
    else fmt_subslice gs
  end.
Definition SocketAddr_to_string (a : SocketAddr) : str :=
  match a with
  | V4 ip port => ipv4_display ip ++ 58 :: port_str port
  | V6 ip port _ scope =>
    91 :: ipv6_display ip ++ (if scope =? 0 then [] else 37 :: print_radix 10 10 scope) ++ lit "]:" ++ port_str port
  end.

Example display_forms :
  SocketAddr_to_string (V4 167772161 9000) = lit "10.0.0.1:9000" ∧
  SocketAddr_to_string (V6 0 80 0 0) = lit "[::]:80" ∧ SocketAddr_to_string (V6 1 80 0 0) = lit "[::1]:80" ∧
  SocketAddr_to_string (V6 (65152 * 2 ^ 112 + 1) 80 0 3) = lit "[fe80::1%3]:80" ∧
  SocketAddr_to_string (V6 (65535 * 2 ^ 32 + 167772161) 80 0 0) = lit "[::ffff:10.0.0.1]:80" ∧
  SocketAddr_to_string (V6 (groups_value [1; 0; 0; 2; 0; 0; 0; 3]) 1 0 0) = lit "[1:0:0:2::3]:1".
Proof. vm_compute. split_and!; reflexivity. Qed.

(** A printed number reads back, whatever follows that is not a digit. *)
Lemma read_digits_cat radix bits s t : ∀ count acc v n,
  read_digits radix bits None count acc s = Some (v, n, []) →
  read_digits radix bits None count acc (s ++ t) = read_digits radix bits None n v t.
Proof.
  induction s as [|c s IH]; intros count acc v n; cbn [app read_digits]; [by intros [= -> ->]|].
  destruct (to_digit radix c); [|done]. destruct (checked bits (acc * radix)); simpl; [|done].
  destruct (checked bits _); simpl; [|done]. apply IH.
Qed.

Lemma read_digits_print radix bits fuel : 2 ≤ radix ≤ 16 → ∀ n, 0 ≤ n < radix ^ Z.of_nat fuel → n < 2 ^ bits →
  (0 < fuel)%nat → ∃ k, 0 < k ∧ read_digits radix bits None 0 0 (print_radix radix fuel n) = Some (n, k, []).
Proof.
  intros Hr. induction fuel as [|fuel IH]; intros n Hn Hb Hf; [lia|]. cbn [print_radix].
  destruct (n <? radix) eqn:E; bool_solve.
  - exists 1. split; [done|]. cbn [read_digits]. rewrite to_digit_char by lia. rewrite Z.mul_0_l, checked_ok by lia.
    cbn [mbind option_bind]. rewrite Z.add_0_l, checked_ok by lia. done.
  - rewrite Nat2Z.inj_succ, Z.pow_succ_r in Hn by lia.
    pose proof (Z.div_mod n radix ltac:(lia)). pose proof (Z.mod_pos_bound n radix ltac:(lia)).
    assert (0 < n / radix) by (apply Z.div_str_pos; lia).
    assert (n / radix < radix ^ Z.of_nat fuel) as Hlt by (apply Z.div_lt_upper_bound; lia).
    assert (n / radix ≤ n) by (apply Z.div_le_upper_bound; nia).
    destruct fuel as [|fuel]; [cbn in Hlt; lia|].
    destruct (IH (n / radix) ltac:(lia) ltac:(lia) ltac:(lia)) as (k & Hk & He). exists (k + 1). split; [lia|].
    rewrite (read_digits_cat _ _ _ _ _ _ _ _ He). cbn [read_digits]. rewrite to_digit_char by lia.
    rewrite checked_ok by nia. cbn [mbind option_bind]. rewrite checked_ok by nia. cbn [mbind option_bind from_option fmap option_fmap option_map].
    f_equal. f_equal. f_equal. lia.
Qed.

Lemma octets_value ip : uint 32 ip →
  ((octet_of ip 3 * 256 + octet_of ip 2) * 256 + octet_of ip 1) * 256 + octet_of ip 0 = ip.
Proof.
  unfold uint, octet_of. intros Hip. change (256 ^ 3) with 16777216. change (256 ^ 2) with 65536. change (256 ^ 1) with 256.
  change (256 ^ 0) with 1. Z.div_mod_to_equations. lia.
Qed.

Lemma port_reads port : uint 16 port → read_number 10 16 None true (port_str port) = Some (port, []).
Proof.
  unfold uint. intros Hp. unfold read_number, port_str.
  destruct (read_digits_print 10 16 5 ltac:(lia) port ltac:(cbn; lia) ltac:(lia) ltac:(lia)) as (k & Hk & ->).
  cbn [mbind option_bind]. by replace (k =? 0) with false by lia.
Qed.

(** A printed IPv4 socket address is parsed as itself. *)
Lemma socket_addr_v4_roundtrip ip port : uint 32 ip → uint 16 port →
  parse_socket_addr (SocketAddr_to_string (V4 ip port)) = Some (V4 ip port).
Proof.
  intros Hip Hport. unfold parse_socket_addr, read_socket_addr_v4, SocketAddr_to_string, ipv4_display.
  rewrite read_ipv4_str by (try done; unfold octet_of; apply Z.mod_pos_bound; lia). cbn [mbind option_bind].
  unfold read_port. cbn [read_given_char]. rewrite Z.eqb_refl. cbn [mbind option_bind]. rewrite port_reads by done.
  cbn [mbind option_bind]. rewrite octets_value by done. by rewrite bool_decide_true.
Qed.
