(* ===== verification/Sim.v ===== *)
(** * The simulated network and the clocks

    [crates/gabion/src/gossip/sim.rs] and [clock.rs]: an in-process network of
    bounded channels with per-link loss, deferred delivery and unbinding, and
    the clocks that drive the event loop.  The router is shared by every
    transport, so it is the state that each operation threads.  A channel of
    tokio is its queue, bounded, with a flag for a live receiver; it has no
    sender left once no address is bound to it. *)

From stdpp Require Import strings.
From S2P Require Import Prelude Bytes Str Runtime NetAddr.

(** ** Links *)

(** [f64] in what the router does with a probability: the two comparisons after
    clamping, and [(p * u32::MAX as f64) as u32]. *)
Class Probability (F : Type) := {
  at_most_zero : F → bool;
  at_least_one : F → bool;
  threshold : F → Z;
}.

Section sim.
Context {F : Type} `{!Probability F}.

Inductive LinkPolicy := Pass | Block | DropFirst (count : Z) | DropProb (p : F).
Record SimPacket := { pk_src : SocketAddr; pk_bytes : list Z }.

(** [mpsc::channel]: what is queued, and whether the receiver is alive. *)
Record Channel := { ch_queue : list SimPacket; ch_receiver : bool }.

Record SimRouter := {
  senders : gmap SocketAddr Z;
  channels : gmap Z Channel;
  next_channel : Z;
  policies : gmap (SocketAddr * SocketAddr) LinkPolicy;
  drop_counters : gmap (SocketAddr * SocketAddr) Z;
  received_counts : gmap SocketAddr Z;
  channel_capacity : Z;
  deferring : bool;
  held : list (SocketAddr * SimPacket);
}.
#[export] Instance eta_SimRouter : Eta SimRouter := λ x, {|
  senders := senders x; channels := channels x; next_channel := next_channel x; policies := policies x;
  drop_counters := drop_counters x; received_counts := received_counts x; channel_capacity := channel_capacity x;
  deferring := deferring x; held := held x |}.

Definition with_channel_capacity (capacity : Z) : SimRouter := {|
  senders := ∅; channels := ∅; next_channel := 0; policies := ∅; drop_counters := ∅; received_counts := ∅;
  channel_capacity := capacity; deferring := false; held := [] |}.
Definition SimRouter_new : SimRouter := with_channel_capacity 64.

Record SimTransport := { addr : SocketAddr; inbound_rx : Z; blocked : bool }.
#[export] Instance eta_SimTransport : Eta SimTransport := λ x, {|
  addr := addr x; inbound_rx := inbound_rx x; blocked := blocked x |}.

Definition received_count (self : SimRouter) (a : SocketAddr) : Z := default 0 (received_counts self !! a).

(** A channel without room panics. *)
Definition bind (self : SimRouter) (a : SocketAddr) : option (SimRouter * SimTransport) :=
  assert_ (0 <? channel_capacity self);;
  let id := next_channel self in
  Some (self <| channels := <[id := {| ch_queue := []; ch_receiver := true |}]> (channels self) |>
        <| next_channel := id + 1 |> <| senders := <[a := id]> (senders self) |>,
   {| addr := a; inbound_rx := id; blocked := false |}).

Definition unbind (self : SimRouter) (a : SocketAddr) : SimRouter * bool :=
  (self <| senders := delete a (senders self) |>, bool_decide (is_Some (senders self !! a))).

Definition set_link_policy (self : SimRouter) (src dst : SocketAddr) (policy : LinkPolicy) : SimRouter :=
  self <| policies := <[(src, dst) := policy]> (policies self) |>
       <| drop_counters := delete (src, dst) (drop_counters self) |>.

(** A multiplicative hash of the two addresses as text. *)
Definition link_seed (src dst : SocketAddr) : Z :=
  foldl (λ h octet, wrapping_mul 64 (Z.lxor h octet) 17592186044851) 14695981039346656037
    (str_bytes (SocketAddr_to_string src) ++ str_bytes (SocketAddr_to_string dst)).

(** The finalizer of splitmix64. *)
Definition sample (state : Z) : Z :=
  let z := wrapping_add 64 state 11400714819323198485 in
  let z := wrapping_mul 64 (Z.lxor z (Z.shiftr z 30)) 13787848793156543929 in
  let z := wrapping_mul 64 (Z.lxor z (Z.shiftr z 27)) 10723151780598845931 in
  Z.lxor z (Z.shiftr z 31).

Definition should_drop (self : SimRouter) (src dst : SocketAddr) : SimRouter * bool :=
  match policies self !! (src, dst) with
  | None | Some Pass => (self, false)
  | Some Block => (self, true)
  | Some (DropFirst count) =>
    let entry := default 0 (drop_counters self !! (src, dst)) in
    if entry <? count then (self <| drop_counters := <[(src, dst) := entry + 1]> (drop_counters self) |>, true)
    else (self <| drop_counters := <[(src, dst) := entry]> (drop_counters self) |>, false)
  | Some (DropProb p) =>
    if at_most_zero p then (self, false) else
    if at_least_one p then (self, true) else
    let state := default (as_u32 (link_seed src dst)) (drop_counters self !! (src, dst)) in
    (self <| drop_counters := <[(src, dst) := wrapping_add 32 state 1]> (drop_counters self) |>,
     as_u32 (sample state) <? threshold p)
  end.

Definition sender_for (self : SimRouter) (a : SocketAddr) : option Z := senders self !! a.

(** A plain [+= 1]: [None] is its overflow. *)
Definition record_delivery (self : SimRouter) (dst : SocketAddr) : option SimRouter :=
  n ← checked 64 (received_count self dst + 1);
  Some (self <| received_counts := <[dst := n]> (received_counts self) |>).

Inductive TrySend := Sent | Full | Closed.
(** [Sender::try_send] on a channel; the sender's channel exists. *)
Definition try_send (self : SimRouter) (id : Z) (packet : SimPacket) : option (SimRouter * TrySend) :=
  c ← channels self !! id;
  if negb (ch_receiver c) then Some (self, Closed) else
  if channel_capacity self <=? zlen (ch_queue c) then Some (self, Full) else
  Some (self <| channels := <[id := {| ch_queue := ch_queue c ++ [packet]; ch_receiver := true |}]> (channels self) |>, Sent).

Definition begin_deferred (self : SimRouter) : SimRouter := self <| deferring := true |>.

Fixpoint release_loop (self : SimRouter) (packets : list (SocketAddr * SimPacket)) : option SimRouter :=
  match packets with
  | [] => Some self
  | (dst, packet) :: packets =>
    self ← (match sender_for self dst with
            | Some id => '(self, _) ← try_send self id packet; Some self
            | None => Some self
            end);
    release_loop self packets
  end.
Definition release_deferred (self : SimRouter) : option SimRouter :=
  release_loop (self <| deferring := false |> <| held := [] |>) (held self).

Definition push_held (self : SimRouter) (dst : SocketAddr) (packet : SimPacket) : SimRouter :=
  self <| held := held self ++ [(dst, packet)] |>.

(** ** The transport *)

(** Whether [writable] yields before it resolves. *)
Definition writable_yields (self : SimTransport) : bool := blocked self.

Definition try_send_to (router : SimRouter) (self : SimTransport) (buf : list Z) (dst : SocketAddr) :
    option (SimRouter * SimTransport * (Z + IoError)) :=
  let '(router, dropped) := should_drop router (addr self) dst in
  if dropped then Some (router, self, Ok (zlen buf)) else
  match sender_for router dst with
  | None => Some (router, self, Ok (zlen buf))
  | Some id =>
    let packet := {| pk_src := addr self; pk_bytes := buf |} in
    if deferring router then
      router ← record_delivery (push_held router dst packet) dst;
      Some (router, self <| blocked := false |>, Ok (zlen buf))
    else
      '(router, r) ← try_send router id packet;
      match r with
      | Sent => router ← record_delivery router dst; Some (router, self <| blocked := false |>, Ok (zlen buf))
      | Full => Some (router, self <| blocked := true |>, Err WouldBlock)
      | Closed => Some (router, self <| blocked := false |>, Ok (zlen buf))
      end
  end.

(** [None] waits: nothing is queued and some address is bound to the channel.
    The buffer's prefix is overwritten. *)
Inductive Received := Wait | Eof | Got (buf : list Z) (n : Z) (src : SocketAddr).
Definition recv_from (router : SimRouter) (self : SimTransport) (buf : list Z) : option (SimRouter * Received) :=
  c ← channels router !! inbound_rx self;
  match ch_queue c with
  | [] => if bool_decide (map_Exists (λ _ id, id = inbound_rx self) (senders router)) then Some (router, Wait) else Some (router, Eof)
  | packet :: queue =>
    let n := Z.min (zlen (pk_bytes packet)) (zlen buf) in
    Some (router <| channels := <[inbound_rx self := {| ch_queue := queue; ch_receiver := ch_receiver c |}]> (channels router) |>,
          Got (take (Z.to_nat n) (pk_bytes packet) ++ drop (Z.to_nat n) buf) n (pk_src packet))
  end.

(** A transport that goes away closes its channel. *)
Definition drop_transport (router : SimRouter) (self : SimTransport) : SimRouter :=
  router <| channels := <[inbound_rx self := {| ch_queue := []; ch_receiver := false |}]> (channels router) |>.
End sim.

(** ** Clocks *)
Record TokioClock := { base_millis : Z; base_instant : Z }.

(** [since_epoch] and [instant] in nanoseconds. *)
Definition TokioClock_new (since_epoch : option Z) (instant : Z) : TokioClock :=
  {| base_millis := match since_epoch with Some d => as_u64 (d / 1000000) | None => 0 end; base_instant := instant |}.
Definition from_millis (base : Z) (instant : Z) : TokioClock := {| base_millis := base; base_instant := instant |}.
Definition TokioClock_now_millis (self : TokioClock) (instant : Z) : Z :=
  let elapsed := as_u64 (Z.max 0 (instant - base_instant self) / 1000000) in
  saturating_add 64 (base_millis self) elapsed.

(** The clock of tests is a cell. *)
Definition FixedClock_advance (now delta_millis : Z) : Z := saturating_add 64 now delta_millis.
