(* ===== verification/SimSpec.v ===== *)
(** * What the simulated network promises

    A receiver is handed packets that were sent to its address, unchanged (cut
    to its buffer), in the order of sending and none twice; loss follows the
    link's policy. *)

From stdpp Require Import strings.
From S2P Require Import Prelude Bytes Str Runtime NetAddr Sim.

Section network.
Context {F : Type} `{!Probability F}.
Abbreviation Router := (@SimRouter F).

(** ** Runs

    A network is the router, the sends that were accepted so far, the address
    each channel was bound at, and the results of each channel's receives: the
    source and the bytes that [recv_from] returned, with the length of the
    buffer it was given. *)
Record Receipt := { rc_src : SocketAddr; rc_bytes : list Z; rc_room : Z }.
Record Net := {
  n_router : Router;
  n_log : list (SocketAddr * SimPacket);
  n_owner : gmap Z SocketAddr;
  n_taken : Z → list Receipt;
}.

Definition took {A} (taken : Z → list A) (id : Z) (p : A) : Z → list A :=
  λ i, if i =? id then taken i ++ [p] else taken i.

(** What the caller of [recv_from] sees in its buffer. *)
Definition receive (taken : Z → list Receipt) (id : Z) (buf : list Z) (r : Received) : Z → list Receipt :=
  match r with
  | Got buf' n src => took taken id {| rc_src := src; rc_bytes := take (Z.to_nat n) buf'; rc_room := zlen buf |}
  | Wait | Eof => taken
  end.

Inductive net_step : Net → Net → Prop :=
  | step_bind router log owner taken a router' t :
      Sim.bind router a = Some (router', t) →
      net_step {| n_router := router; n_log := log; n_owner := owner; n_taken := taken |}
        {| n_router := router'; n_log := log; n_owner := <[inbound_rx t := a]> owner; n_taken := taken |}
  | step_unbind router log owner taken a :
      net_step {| n_router := router; n_log := log; n_owner := owner; n_taken := taken |}
        {| n_router := (unbind router a).1; n_log := log; n_owner := owner; n_taken := taken |}
  | step_policy router log owner taken src dst policy :
      net_step {| n_router := router; n_log := log; n_owner := owner; n_taken := taken |}
        {| n_router := set_link_policy router src dst policy; n_log := log; n_owner := owner; n_taken := taken |}
  | step_begin router log owner taken :
      net_step {| n_router := router; n_log := log; n_owner := owner; n_taken := taken |}
        {| n_router := begin_deferred router; n_log := log; n_owner := owner; n_taken := taken |}
  | step_release router log owner taken router' :
      release_deferred router = Some router' →
      net_step {| n_router := router; n_log := log; n_owner := owner; n_taken := taken |}
        {| n_router := router'; n_log := log; n_owner := owner; n_taken := taken |}
  | step_send router log owner taken t buf dst router' t' r :
      try_send_to router t buf dst = Some (router', t', r) →
      net_step {| n_router := router; n_log := log; n_owner := owner; n_taken := taken |}
        {| n_router := router';
           n_log := match r with inl _ => log ++ [(dst, {| pk_src := addr t; pk_bytes := buf |})] | inr _ => log end;
           n_owner := owner; n_taken := taken |}
  | step_recv router log owner taken t buf router' r :
      recv_from router t buf = Some (router', r) →
      net_step {| n_router := router; n_log := log; n_owner := owner; n_taken := taken |}
        {| n_router := router'; n_log := log; n_owner := owner;
           n_taken := receive taken (inbound_rx t) buf r |}
  | step_drop router log owner taken t :
      is_Some (channels router !! inbound_rx t) →
      net_step {| n_router := router; n_log := log; n_owner := owner; n_taken := taken |}
        {| n_router := drop_transport router t; n_log := log; n_owner := owner; n_taken := taken |}.

Definition net_new (capacity : Z) : Net :=
  {| n_router := with_channel_capacity capacity; n_log := []; n_owner := ∅; n_taken := λ _, [] |}.
Inductive reachable (capacity : Z) : Net → Prop :=
  | reach_new : reachable capacity (net_new capacity)
  | reach_step n n' : reachable capacity n → net_step n n' → reachable capacity n'.

(** ** The invariant *)
Definition sent_to (a : SocketAddr) (log : list (SocketAddr * SimPacket)) : list SimPacket :=
  snd <$> filter (λ e, e.1 = a) log.
Definition queued (router : Router) (id : Z) : list SimPacket :=
  match channels router !! id with Some c => ch_queue c | None => [] end.

(** A receive that returns what was sent: its source, and its bytes as far as
    the buffer has room. *)
Definition handed (got : Receipt) (p : SimPacket) : Prop :=
  rc_src got = pk_src p ∧ rc_bytes got = take (Z.to_nat (rc_room got)) (pk_bytes p).

(** With [pending] still to be delivered to channels; [taken] are the packets
    that left each channel's queue. *)
Record in_order (router : Router) (pending log : list (SocketAddr * SimPacket)) (owner : gmap Z SocketAddr)
    (taken : Z → list SimPacket) : Prop := {
  io_fifo id a : owner !! id = Some a → taken id ++ queued router id ++ sent_to a pending `sublist_of` sent_to a log;
  io_pending a : sent_to a pending `sublist_of` sent_to a log;
  io_bound a id : senders router !! a = Some id → owner !! id = Some a;
  io_fresh id : next_channel router ≤ id → owner !! id = None ∧ channels router !! id = None ∧ taken id = [];
  io_owned id : is_Some (channels router !! id) → is_Some (owner !! id);
}.
Definition net_inv (router : Router) (log : list (SocketAddr * SimPacket)) (owner : gmap Z SocketAddr)
    (taken : Z → list SimPacket) : Prop :=
  in_order router (held router) log owner taken ∧ (deferring router = false → held router = []).
Definition faithful (n : Net) : Prop :=
  ∃ taken, net_inv (n_router n) (n_log n) (n_owner n) taken ∧ ∀ id, Forall2 handed (n_taken n id) (taken id).

Lemma sent_to_app a l l' : sent_to a (l ++ l') = sent_to a l ++ sent_to a l'.
Proof using. unfold sent_to. by rewrite filter_app, fmap_app. Qed.
Lemma sent_to_one a b p : sent_to a [(b, p)] = if decide (b = a) then [p] else [].
Proof using. unfold sent_to. cbn. case_decide; done. Qed.

Lemma sent_to_tail a e l : sent_to a l `sublist_of` sent_to a (e :: l).
Proof using. change (e :: l) with ([e] ++ l). rewrite sent_to_app. by apply sublist_inserts_l. Qed.

(** An operation that leaves channels and bindings alone. *)
Lemma in_order_same router router' pending log owner taken :
  channels router' = channels router → next_channel router' = next_channel router →
  (∀ a id, senders router' !! a = Some id → senders router !! a = Some id) →
  in_order router pending log owner taken → in_order router' pending log owner taken.
Proof using.
  intros Hc Hn Hs [H1 Hp H2 H3 H4]. split; unfold queued in *; rewrite ?Hc, ?Hn; try done. intros a id Hi. by apply H2, Hs.
Qed.

Lemma should_drop_same router src dst : let router' := (should_drop router src dst).1 in
  channels router' = channels router ∧ next_channel router' = next_channel router ∧ senders router' = senders router ∧
  deferring router' = deferring router ∧ held router' = held router ∧ channel_capacity router' = channel_capacity router.
Proof using.
  unfold should_drop. destruct (policies router !! (src, dst)) as [[]|]; try done.
  - destruct (_ <? _); done.
  - destruct (at_most_zero p); [done|]. destruct (at_least_one p); done.
Qed.

(** A packet for [dst] that a channel takes or not. *)
Lemma try_send_in_order router id dst p pending log owner taken router' r :
  in_order router ((dst, p) :: pending) log owner taken → senders router !! dst = Some id →
  try_send router id p = Some (router', r) →
  in_order router' pending log owner taken ∧ deferring router' = deferring router ∧ held router' = held router.
Proof using.
  intros [H1 Hp H2 H3 H4] Hs. unfold try_send. destruct (channels router !! id) as [c|] eqn:Ec; [|done]. cbn [mbind option_bind].
  assert (∀ i a, taken i ++ queued router i ++ sent_to a pending `sublist_of` taken i ++ queued router i ++ sent_to a ((dst, p) :: pending)) as Hweak.
  { intros i a. apply sublist_app; [done|]. apply sublist_app; [done|]. apply sent_to_tail. }
  assert (∀ a, sent_to a pending `sublist_of` sent_to a log) as Hp' by (intros a; etrans; [apply sent_to_tail|apply Hp]).
  assert (in_order router pending log owner taken) as Hdrop.
  { split; try done. intros i a Hi. etrans; [apply Hweak|by apply H1]. }
  destruct (negb (ch_receiver c)); [by intros [= <- _]|]. destruct (_ <=? _); [by intros [= <- _]|].
  intros [= <- _]. split; [|done]. split; cbn.
  - intros i a Hi. unfold queued. cbn. destruct (decide (i = id)) as [->|Hne].
    + rewrite lookup_insert_eq. cbn [ch_queue]. specialize (H1 id a Hi). unfold queued in H1. rewrite Ec in H1.
      assert (a = dst) as -> by (apply H2 in Hs; congruence).
      change ((dst, p) :: pending) with ([(dst, p)] ++ pending) in H1.
      rewrite sent_to_app, sent_to_one, decide_True in H1 by done. by rewrite <- !app_assoc.
    + rewrite lookup_insert_ne by done. etrans; [apply Hweak|by apply H1].
  - done.
  - done.
  - intros i Hi. destruct (H3 i Hi) as (? & Hch & ?). split_and!; try done. rewrite lookup_insert_ne; [done|]. intros ->. congruence.
  - intros i. destruct (decide (i = id)) as [->|Hne]; [intros _; apply H4; by rewrite Ec|rewrite lookup_insert_ne by done; apply H4].
Qed.

Lemma release_loop_in_order packets : ∀ router log owner taken router',
  in_order router packets log owner taken → release_loop router packets = Some router' →
  in_order router' [] log owner taken ∧ deferring router' = deferring router ∧ held router' = held router.
Proof using.
  induction packets as [|[dst p] packets IH]; intros router log owner taken router' Hi; cbn [release_loop]; [by intros [= <-]|].
  unfold sender_for. destruct (senders router !! dst) as [id|] eqn:Es; cbn [mbind option_bind].
  - destruct (try_send router id p) as [[r1 res]|] eqn:Et; cbn [mbind option_bind]; [|done].
    destruct (try_send_in_order _ _ _ _ _ _ _ _ _ _ Hi Es Et) as (Hi1 & Hd & Hh).
    intros He. destruct (IH _ _ _ _ _ Hi1 He) as (? & ? & ?). split_and!; [done|congruence..].
  - intros He. apply (IH router log owner taken router'); [|done]. destruct Hi as [H1 Hp H2 H3 H4]. split; try done.
    + intros i a Hi. etrans; [|by apply H1]. apply sublist_app; [done|]. apply sublist_app; [done|]. apply sent_to_tail.
    + intros a. etrans; [apply sent_to_tail|apply Hp].
Qed.

(** A send adds to the log what it adds to channels or holds back. *)
Lemma in_order_logged router pending log owner taken dst p :
  in_order router pending log owner taken → in_order router (pending ++ [(dst, p)]) (log ++ [(dst, p)]) owner taken.
Proof using.
  intros [H1 Hp H2 H3 H4]. split; try done.
  - intros i a Hi. rewrite !sent_to_app. rewrite (app_assoc (queued router i)), app_assoc. apply sublist_app; [by apply H1|done].
  - intros a. rewrite !sent_to_app. by apply sublist_app.
Qed.
Lemma in_order_lost router pending log owner taken e :
  in_order router pending log owner taken → in_order router pending (log ++ [e]) owner taken.
Proof using.
  intros [H1 Hp H2 H3 H4]. split; try done.
  - intros i a Hi. rewrite sent_to_app. by apply sublist_inserts_r, H1.
  - intros a. rewrite sent_to_app. by apply sublist_inserts_r.
Qed.

Lemma record_delivery_same (router router' : Router) dst : record_delivery router dst = Some router' →
  channels router' = channels router ∧ next_channel router' = next_channel router ∧ senders router' = senders router ∧
  deferring router' = deferring router ∧ held router' = held router.
Proof using. unfold record_delivery. destruct (checked 64 _); [|done]. by intros [= <-]. Qed.

Lemma send_inv router log owner taken t buf dst router' t' r :
  net_inv router log owner taken →
  try_send_to router t buf dst = Some (router', t', r) →
  net_inv router' (match r with inl _ => log ++ [(dst, {| pk_src := addr t; pk_bytes := buf |})] | inr _ => log end) owner taken.
Proof using.
  intros [Hi Hd]. cbn in Hi, Hd. unfold try_send_to.
  pose proof (should_drop_same router (addr t) dst) as (Hc & Hn & Hs & Hdf & Hh & _).
  destruct (should_drop router (addr t) dst) as [r0 dropped]. cbn [fst] in *.
  assert (in_order r0 (held r0) log owner taken) as Hi0.
  { rewrite Hh. eapply in_order_same; [exact Hc|exact Hn| |exact Hi]. intros a id. by rewrite Hs. }
  assert (deferring r0 = false → held r0 = []) as Hd0 by (rewrite Hdf, Hh; exact Hd).
  destruct dropped; [intros [= <- _ <-]; split; [by apply in_order_lost|done]|].
  unfold sender_for. destruct (senders r0 !! dst) as [id|] eqn:Es; [|intros [= <- _ <-]; split; [by apply in_order_lost|done]].
  set (p := {| pk_src := addr t; pk_bytes := buf |}). destruct (deferring r0) eqn:Ed.
  - destruct (record_delivery (push_held r0 dst p) dst) as [r1|] eqn:Er; cbn [mbind option_bind]; [|done].
    apply record_delivery_same in Er as (Hc1 & Hn1 & Hs1 & Hd1 & Hh1). intros [= <- _ <-]. split; cbn.
    + rewrite Hh1. eapply in_order_same; [exact Hc1|exact Hn1|intros a i; by rewrite Hs1|].
      cbn. apply (in_order_logged _ _ _ _ _ dst p) in Hi0. eapply in_order_same; [..|exact Hi0]; done.
    + rewrite Hd1. cbn. by rewrite Ed.
  - specialize (Hd0 eq_refl). rewrite Hd0 in Hi0. apply (in_order_logged _ _ _ _ _ dst p) in Hi0 as Hl. cbn [app] in Hl.
    destruct (try_send r0 id p) as [[r1 res]|] eqn:Et; cbn [mbind option_bind]; [|done].
    destruct (try_send_in_order _ _ _ _ _ _ _ _ _ _ Hl Es Et) as (Hi1 & Hd1 & Hh1).
    destruct res.
    + destruct (record_delivery r1 dst) as [r2|] eqn:Er; cbn [mbind option_bind]; [|done].
      apply record_delivery_same in Er as (Hc2 & Hn2 & Hs2 & Hd2 & Hh2). intros [= <- _ <-]. split; cbn; [|congruence].
      rewrite Hh2, Hh1, Hd0. eapply in_order_same; [exact Hc2|exact Hn2|intros a i; by rewrite Hs2|done].
    + intros [= <- _ <-]. split; cbn; [|congruence]. rewrite Hh1, Hd0. unfold try_send in Et.
      destruct (channels r0 !! id); [|done]. cbn in Et. destruct (negb _); [done|]. destruct (_ <=? _); [|done]. by injection Et as <-.
    + intros [= <- _ <-]. split; cbn; [|congruence]. by rewrite Hh1, Hd0.
Qed.

Lemma handed_prefix p (buf : list Z) src : src = pk_src p →
  let n := Z.to_nat (Z.min (zlen (pk_bytes p)) (zlen buf)) in
  handed {| rc_src := src; rc_bytes := take n (take n (pk_bytes p) ++ drop n buf); rc_room := zlen buf |} p.
Proof using.
  intros ->. cbv zeta. unfold zlen. split; [done|]. cbn.
  rewrite Z2Nat.inj_min, !Nat2Z.id, take_app_le by (rewrite length_take; lia). rewrite take_take, Nat.min_id.
  destruct (decide (length (pk_bytes p) ≤ length buf)%nat); [rewrite Nat.min_l by done|by rewrite Nat.min_r by lia].
  by rewrite !take_ge by lia.
Qed.

Lemma recv_inv router log owner taken t buf router' r :
  net_inv router log owner taken →
  recv_from router t buf = Some (router', r) →
  match r with
  | Got buf' n src => ∃ p, net_inv router' log owner (took taken (inbound_rx t) p) ∧
      handed {| rc_src := src; rc_bytes := take (Z.to_nat n) buf'; rc_room := zlen buf |} p
  | Wait | Eof => net_inv router' log owner taken
  end.
Proof using.
  intros [[H1 Hp H2 H3 H4] Hd]. cbn in *. unfold recv_from. set (id := inbound_rx t).
  destruct (channels router !! id) as [[[|p queue] alive]|] eqn:Ec; cbn [mbind option_bind ch_queue]; [|..|done].
  { case_bool_decide; by intros [= <- <-]. }
  intros [= <- <-]. exists p. split; [|by apply handed_prefix]. split; [|done]. cbn. assert (id < next_channel router) as Hlt.
  { apply Z.nle_gt. intros Hge. destruct (H3 id Hge) as (_ & Hn & _). congruence. }
  split; cbn.
  - intros i a Hi. specialize (H1 i a Hi). unfold queued, took in *. cbn. destruct (i =? id) eqn:E; bool_solve.
    + subst i. rewrite Ec in H1. rewrite lookup_insert_eq. cbn in *. by rewrite <- app_assoc.
    + rewrite lookup_insert_ne by lia. done.
  - done.
  - done.
  - intros i Hi. destruct (H3 i Hi) as (? & ? & ?). unfold took. rewrite lookup_insert_ne by lia. by replace (i =? id) with false by lia.
  - intros i. destruct (decide (i = id)) as [->|Hne]; [intros _; apply H4; by rewrite Ec|rewrite lookup_insert_ne by done; apply H4].
Qed.

Lemma bind_inv router log owner taken a router' t :
  net_inv router log owner taken →
  Sim.bind router a = Some (router', t) →
  net_inv router' log (<[inbound_rx t := a]> owner) taken.
Proof using.
  intros [[H1 Hp H2 H3 H4] Hd]. unfold Sim.bind. destruct (assert_ _) as [[]|]; [|done]. cbn [mbind option_bind].
  intros [= <- <-]. cbn in *. set (id := next_channel router). destruct (H3 id (Z.le_refl _)) as (Ho & Hc & Ht).
  split; [|done]. split; cbn.
  - intros i b. unfold queued. cbn. destruct (decide (i = id)) as [->|Hne].
    + rewrite !lookup_insert_eq. intros [= <-]. rewrite Ht. cbn. apply Hp.
    + rewrite !lookup_insert_ne by done. apply H1.
  - done.
  - intros b i. destruct (decide (b = a)) as [->|Hne].
    + rewrite !lookup_insert_eq. intros [= <-]. by rewrite lookup_insert_eq.
    + rewrite lookup_insert_ne by done. intros Hs%H2. rewrite lookup_insert_ne; [done|]. intros <-. congruence.
  - intros i Hi. destruct (H3 i) as (? & ? & ?); [lia|]. rewrite !lookup_insert_ne by lia. done.
  - intros i. destruct (decide (i = id)) as [->|Hne]; [intros _; rewrite lookup_insert_eq; by eexists|rewrite !lookup_insert_ne by done; apply H4].
Qed.

Lemma drop_inv router log owner taken t :
  net_inv router log owner taken →
  is_Some (channels router !! inbound_rx t) →
  net_inv (drop_transport router t) log owner taken.
Proof using.
  intros [[H1 Hp H2 H3 H4] Hd] Hs. cbn in *. set (id := inbound_rx t) in *. split; [|done]. cbn. split; cbn; try done.
  - intros i a Hi. specialize (H1 i a Hi). unfold queued in *. cbn. fold id. destruct (decide (i = id)) as [->|Hne].
    + rewrite lookup_insert_eq. cbn. etrans; [|exact H1]. apply sublist_app; [done|]. by apply sublist_inserts_l.
    + by rewrite lookup_insert_ne by done.
  - intros i Hi. destruct (H3 i Hi) as (? & Hn & ?). fold id. rewrite lookup_insert_ne; [done|]. intros Heq. rewrite Heq in Hs. rewrite Hn in Hs. by destruct Hs.
  - intros i. fold id. destruct (decide (i = id)) as [->|Hne]; [intros _; by apply H4|rewrite lookup_insert_ne by done; apply H4].
Qed.

Lemma release_inv router log owner taken router' :
  net_inv router log owner taken → release_deferred router = Some router' → net_inv router' log owner taken.
Proof using.
  intros [Hi Hd] Hr. unfold release_deferred in Hr.
  destruct (release_loop_in_order (held router) (router <| deferring := false |> <| held := [] |>) log owner taken router')
    as (Hi' & Hd' & Hh'); [eapply in_order_same; [..|exact Hi]; done|done|].
  split; cbn in *; by rewrite Hh'.
Qed.

Lemma net_step_faithful n n' : faithful n → net_step n n' → faithful n'.
Proof using.
  intros (kept & Hi & Ht) Hs. destruct Hs; cbn in Hi, Ht; try (exists kept; split; [|exact Ht]; cbn).
  - by eapply bind_inv.
  - destruct Hi as [Hi Hd]. split; [|done]. eapply in_order_same; [..|exact Hi]; try done. cbn.
    intros b id. by intros [_ ?]%lookup_delete_Some.
  - destruct Hi as [Hi Hd]. split; [|done]. eapply in_order_same; [..|exact Hi]; done.
  - destruct Hi as [Hi Hd]. split; [|done]. eapply in_order_same; [..|exact Hi]; done.
  - by eapply release_inv.
  - by eapply send_inv.
  - pose proof (recv_inv _ _ _ _ _ _ _ _ Hi H) as Hr. destruct r as [| |buf' n src]; [by exists kept..|].
    destruct Hr as (p & Hr & Hp). eexists. split; [exact Hr|]. intros id. cbn. unfold took.
    destruct (id =? _); [|done]. apply Forall2_app; [done|]. by constructor.
  - by apply drop_inv.
Qed.

Lemma net_new_faithful capacity : faithful (net_new capacity).
Proof using.
  exists (λ _, []). split; [|intros id; constructor]. split; [|done]. split; cbn; try done.
  intros id. rewrite lookup_empty. intros [? ?]. done.
Qed.

(** What a link loses. *)
Fixpoint link_drops (router : Router) (src dst : SocketAddr) (n : nat) : list bool :=
  match n with
  | O => []
  | S n => let '(router, d) := should_drop router src dst in d :: link_drops router src dst n
  end.

Lemma drop_first_counts router src dst count k n :
  policies router !! (src, dst) = Some (DropFirst count) → default 0 (drop_counters router !! (src, dst)) = k → 0 ≤ k →
  link_drops router src dst n = replicate (Nat.min n (Z.to_nat (count - k))) true ++ replicate (n - Z.to_nat (count - k)) false.
Proof using.
  revert router k. induction n as [|n IH]; intros router k Hp Hk Hk0; [done|]. cbn [link_drops].
  unfold should_drop. rewrite Hp, Hk. destruct (k <? count) eqn:E; bool_solve.
  - rewrite (IH _ (k + 1)); [|done|cbn; by rewrite lookup_insert_eq|lia].
    replace (Z.to_nat (count - k)) with (S (Z.to_nat (count - (k + 1)))) by lia. done.
  - rewrite (IH _ k); [|done|cbn; by rewrite lookup_insert_eq|lia].
    replace (Z.to_nat (count - k)) with 0%nat by lia. rewrite !Nat.min_0_r, !Nat.sub_0_r. done.
Qed.

(** A send on an open link with room is queued last; with no room nothing changes. *)
Lemma open_link_sends (router : Router) t buf dst id c :
  policies router !! (addr t, dst) = None → senders router !! dst = Some id →
  channels router !! id = Some c → ch_receiver c = true → deferring router = false → received_count router dst < U64_MAX →
  0 ≤ received_count router dst →
  if zlen (ch_queue c) <? channel_capacity router then
    ∃ router', try_send_to router t buf dst = Some (router', t <| blocked := false |>, Ok (zlen buf)) ∧
      queued router' id = ch_queue c ++ [{| pk_src := addr t; pk_bytes := buf |}] ∧
      received_count router' dst = received_count router dst + 1
  else try_send_to router t buf dst = Some (router, t <| blocked := true |>, Err WouldBlock).
Proof using.
  intros Hp Hs Hc Hr Hd Hn Hn0. unfold try_send_to, should_drop, sender_for, try_send. rewrite Hp, Hs, Hd, Hc. cbn [mbind option_bind].
  rewrite Hr. cbn [negb]. destruct (zlen (ch_queue c) <? channel_capacity router) eqn:E; bool_solve.
  - replace (channel_capacity router <=? zlen (ch_queue c)) with false by lia. cbn [mbind option_bind].
    unfold record_delivery, received_count in *. cbn. rewrite checked_ok by (unfold U64_MAX in *; lia). cbn [mbind option_bind].
    eexists. split; [done|]. unfold queued. cbn. by rewrite !lookup_insert_eq.
  - by replace (channel_capacity router <=? zlen (ch_queue c)) with true by lia.
Qed.
End network.

(** C39: the simulated network loses but never forges, repeats or reorders.
    After any run of binds, unbinds, sends, receives, policy changes, deferred
    rounds and closures, the results that [recv_from] returned on a channel are
    those of packets [packets], one for one: each result has the packet's source
    and its bytes, cut to the length of the buffer given (whole when the buffer
    is as long).  [packets], followed by what still waits in the channel, is a
    subsequence of the packets accepted for the address the channel was bound
    at, in the order of sending. *)
Theorem sim_network_fifo {F} `{!Probability F} capacity (n : @Net F) id a :
  reachable capacity n → n_owner n !! id = Some a →
  ∃ packets, packets ++ queued (n_router n) id `sublist_of` sent_to a (n_log n) ∧
    Forall2 (λ got p, rc_src got = pk_src p ∧ rc_bytes got = take (Z.to_nat (rc_room got)) (pk_bytes p) ∧
               (zlen (pk_bytes p) ≤ rc_room got → rc_bytes got = pk_bytes p)) (n_taken n id) packets.
Proof.
  intros Hr Ho. assert (faithful n) as (taken & [[H1 _ _ _ _] _] & Ht).
  { clear Ho. induction Hr; [apply net_new_faithful|by eapply net_step_faithful]. }
  exists (taken id). split.
  - etrans; [|by apply (H1 id a)]. rewrite app_assoc. by apply sublist_inserts_r.
  - eapply Forall2_impl; [apply Ht|]. intros got p [Hs Hb]. split_and!; [done..|]. unfold zlen. intros Hl. rewrite Hb. apply take_ge. lia.
Qed.

(** ** Clocks *)
Theorem tokio_clock_monotone base instant instant' now : base_instant base ≤ instant ≤ instant' →
  instant' - base_instant base < 2 ^ 64 * 1000000 → TokioClock_now_millis base instant = now →
  now ≤ TokioClock_now_millis base instant'.
Proof.
  intros Hi Hb <-. unfold TokioClock_now_millis, saturating_add, as_u64.
  rewrite !Z.max_r by lia.
  assert (∀ d, 0 ≤ d < 2 ^ 64 * 1000000 → d / 1000000 mod 2 ^ 64 = d / 1000000) as Hm.
  { intros d Hd. apply Z.mod_small. split; [apply Z.div_pos; lia|]. apply Z.div_lt_upper_bound; lia. }
  rewrite !Hm by lia. pose proof (Z.div_le_mono (instant - base_instant base) (instant' - base_instant base) 1000000 ltac:(lia) ltac:(lia)). lia.
Qed.

(** ** Witness *)
Definition always : Probability unit := {| at_most_zero := λ _, false; at_least_one := λ _, true; threshold := λ _, 0 |}.
#[local] Existing Instance always.
Definition here : SocketAddr := V4 2130706433 9000.

(** Two packets are sent; the first is received whole and the second is cut. *)
Lemma sim_network_fifo_witness :
  ∃ n : @Net unit, reachable 2 n ∧ n_owner n !! 0 = Some here ∧
    n_taken n 0 = [{| rc_src := here; rc_bytes := [1; 2]; rc_room := 3 |}; {| rc_src := here; rc_bytes := [3]; rc_room := 1 |}] ∧
    ∃ packets, packets ++ queued (n_router n) 0 `sublist_of` sent_to here (n_log n) ∧
      Forall2 (λ got p, rc_src got = pk_src p ∧ rc_bytes got = take (Z.to_nat (rc_room got)) (pk_bytes p) ∧
                 (zlen (pk_bytes p) ≤ rc_room got → rc_bytes got = pk_bytes p)) (n_taken n 0) packets.
Proof.
  assert (∃ n : @Net unit, reachable 2 n ∧ n_owner n !! 0 = Some here ∧
    n_taken n 0 = [{| rc_src := here; rc_bytes := [1; 2]; rc_room := 3 |}; {| rc_src := here; rc_bytes := [3]; rc_room := 1 |}])
    as (n & Hr & Ho & Ht).
  { set (t := {| addr := here; inbound_rx := 0; blocked := false |}).
    eexists. split; [eapply reach_step; [eapply reach_step; [eapply reach_step; [eapply reach_step; [eapply reach_step; [apply reach_new|]|]|]|]|]|].
    - eapply (step_bind _ _ _ _ here). reflexivity.
    - eapply (step_send _ _ _ _ t [1; 2] here). reflexivity.
    - eapply (step_send _ _ _ _ t [3; 4] here). reflexivity.
    - eapply (step_recv _ _ _ _ t [0; 0; 0]). reflexivity.
    - eapply (step_recv _ _ _ _ t [0]). reflexivity.
    - split; vm_compute; reflexivity. }
  exists n. split; [exact Hr|]. split; [exact Ho|]. split; [exact Ht|]. exact (sim_network_fifo 2 n 0 here Hr Ho).
Defined.
