(* ===== verification/ServerConfig.v ===== *)
(** * The server's configuration

    [crates/server/src/config.rs] and [gossip::parse_cluster_id]: the typed
    settings, the environment overrides, and what start-up derives from them
    (the rule table, the cell-store and runtime configurations).  The YAML
    reader, the [config] crate's builder and its deserialization are parameters;
    so is humantime, as in [Rules]. *)

From stdpp Require Import strings.
From S2P Require Import Prelude Types Bytes Str Rules NginxRules Limiter WireHeader WireBody Wire Runtime.

(** ** Defaults *)
Definition STORAGE_MAX_CELLS : Z := 131072.
Definition GOSSIP_CLUSTER_ID_HASH : Z := 1.

Record StorageConfig := {
  sc_max_cells : option Z;
  sc_rule_dictionary_capacity : Z;
  sc_node_dictionary_capacity : Z;
  sc_local_dirty_capacity : Z;
  sc_forwarded_dirty_capacity : Z;
  sc_peer_capacity : Z;
  sc_max_descriptor_count : Z;
  sc_max_descriptor_bytes : Z;
  sc_max_key_bytes : Z;
}.
Definition StorageConfig_default : StorageConfig := {|
  sc_max_cells := None;
  sc_rule_dictionary_capacity := 64;
  sc_node_dictionary_capacity := 1024;
  sc_local_dirty_capacity := 65536;
  sc_forwarded_dirty_capacity := 524288;
  sc_peer_capacity := 256;
  sc_max_descriptor_count := 16;
  sc_max_descriptor_bytes := 512;
  sc_max_key_bytes := 128 |}.

Record RuntimeTuningConfig := { node_id_seed : option str; rt_rng_seed : option Z }.

Record GossipSettings := {
  gs_bind : option SocketAddr;
  gs_tick_interval : Duration;
  gs_fanout : Z;
  gs_max_payload_bytes : Z;
  gs_max_cells_per_frame : Z;
  gs_max_cells_per_tick : Z;
  gs_send_queue_capacity : Z;
  gs_limit_queue_capacity : Z;
  gs_cluster_id_hash : Z;
  gs_target_err_bps : Z;
  gs_min_emit_interval : Duration;
}.
Definition GossipSettings_default : GossipSettings := {|
  gs_bind := None;
  gs_tick_interval := 500 * 1000000;
  gs_fanout := 3;
  gs_max_payload_bytes := 1400;
  gs_max_cells_per_frame := 4096;
  gs_max_cells_per_tick := 4096;
  gs_send_queue_capacity := 128;
  gs_limit_queue_capacity := 8192;
  gs_cluster_id_hash := GOSSIP_CLUSTER_ID_HASH;
  gs_target_err_bps := 100;
  gs_min_emit_interval := 5 * 1000000 |}.

Definition into_runtime_config (self : GossipSettings) (identity : NodeIdentity) (rng_seed : Z) : GossipConfig := {|
  gc_local_identity := identity;
  gc_cluster_id_hash := gs_cluster_id_hash self;
  gc_bootstrap_peers := [];
  gc_fanout := gs_fanout self;
  gc_max_cells_per_tick := gs_max_cells_per_tick self;
  gc_wire_limits := {| max_payload_bytes := gs_max_payload_bytes self; max_cells := gs_max_cells_per_frame self |};
  gc_send_queue_capacity := gs_send_queue_capacity self;
  gc_limit_queue_capacity := gs_limit_queue_capacity self;
  gc_tick_interval := gs_tick_interval self;
  gc_auth_key := None;
  gc_rng_seed := rng_seed;
  gc_target_err_bps := gs_target_err_bps self;
  gc_min_emit_interval := gs_min_emit_interval self |}.

(** ** Rules *)
Record DescriptorConfig := { dc_key : str; dc_value : str }.
Definition any_value : str := lit "*".
Inductive EnforcementModeConfig := CfgEnforce | CfgDryRun | CfgDisabled.
Definition mode_from (value : EnforcementModeConfig) : EnforcementMode :=
  match value with CfgEnforce => Enforce | CfgDryRun => DryRun | CfgDisabled => Disabled end.

Record LimitRuleConfig := {
  lc_name : str;
  lc_domain : str;
  lc_descriptors : list DescriptorConfig;
  lc_rate : str;
  lc_window : option Duration;
  lc_bucket : option Duration;
  lc_mode : EnforcementModeConfig;
}.

Inductive ConfigError :=
  | EmptyDescriptorSet (rule : str)
  | DuplicateRule (name : str)
  | InvalidRate (name : str) (reason : RateError)
  | ResolveRate (name : str) (source : RateResolveError)
  | InvalidDescriptorKey (rule key : str)
  | MissingGossipBind
  | NonUtf8EnvVar (name : str).

(** The server's own copy of the descriptor-key grammar. *)
Definition is_descriptor_key (s : str) : bool :=
  match s with
  | c :: chars => ((c =? 95) || is_ascii_alphabetic c) &&
      forallb (λ c, (c =? 95) || (c =? 46) || (c =? 45) || is_ascii_alphanumeric c) chars
  | [] => false
  end.

Section config.
Context (xxh3 : list Z → Z) (parse_duration : str → option Z).

(** [for descriptor in .. { if !is_descriptor_key .. return Err }] *)
Fixpoint check_keys (rule : str) (ds : list DescriptorConfig) : unit + ConfigError :=
  match ds with
  | [] => Ok ()
  | d :: ds => if negb (is_descriptor_key (dc_key d)) then Err (InvalidDescriptorKey rule (dc_key d)) else check_keys rule ds
  end.

Definition to_rule (self : LimitRuleConfig) (id : Z) : Rule + ConfigError :=
  if bool_decide (lc_descriptors self = []) then Err (EmptyDescriptorSet (lc_name self)) else
  match check_keys (lc_name self) (lc_descriptors self) with
  | inr e => Err e
  | inl _ =>
    match parse_rate parse_duration (lc_rate self) with
    | inr reason => Err (InvalidRate (lc_name self) reason)
    | inl (rate_count, period) =>
      match resolve_rate rate_count period (lc_window self) (lc_bucket self) with
      | inr err => Err (ResolveRate (lc_name self) err)
      | inl resolved =>
        Ok (Rule_new xxh3 id (lc_domain self)
              ((λ d, {| pat_key := dc_key d; pat_value := dc_value d |}) <$> lc_descriptors self)
              (rr_limit resolved) (rr_window_millis resolved) (rr_bucket_millis resolved)
              (mode_from (lc_mode self)))
      end
    end
  end.

(** The loop of [rule_table]: [earlier] is [limits[..i]]; the identifier is a
    [u32] computed as [i as RuleId + 1]. *)
Fixpoint rule_table_loop (earlier limits : list LimitRuleConfig) (rules : list Rule) :
    option (list Rule + ConfigError) :=
  match limits with
  | [] => Some (Ok rules)
  | limit :: limits =>
    if existsb (λ e, bool_decide (lc_name e = lc_name limit)) earlier
    then Some (Err (DuplicateRule (lc_name limit)))
    else
      id ← checked 32 (as_u32 (zlen earlier) + 1);
      match to_rule limit id with
      | inr e => Some (Err e)
      | inl rule => rule_table_loop (earlier ++ [limit]) limits (rules ++ [rule])
      end
  end.

Definition rule_table (limits : list LimitRuleConfig) : option (list Rule + ConfigError) :=
  rule_table_loop [] limits [].
End config.

Record DiscoveryConfig := {
  self_addr : option SocketAddr;
  namespace_allow : list str;
  service_allow : list str;
}.

Record AppConfig := {
  envoy_bind : option SocketAddr;
  admin_bind : option SocketAddr;
  storage : StorageConfig;
  limits : list LimitRuleConfig;
  runtime : RuntimeTuningConfig;
  discovery : DiscoveryConfig;
  gossip : GossipSettings;
}.

Definition cardinality_limits (self : AppConfig) : CardinalityLimits := {|
  max_descriptor_count := sc_max_descriptor_count (storage self);
  max_descriptor_bytes := sc_max_descriptor_bytes (storage self);
  max_key_bytes := sc_max_key_bytes (storage self) |}.

Definition cell_store_config (self : AppConfig) : CellStoreConfig :=
  let max_cells := default STORAGE_MAX_CELLS (sc_max_cells (storage self)) in
  {| cell_capacity := as_u32 (Z.max max_cells 1);
     rule_dictionary_capacity := sc_rule_dictionary_capacity (storage self);
     node_dictionary_capacity := sc_node_dictionary_capacity (storage self);
     local_dirty_capacity := sc_local_dirty_capacity (storage self);
     forwarded_dirty_capacity := sc_forwarded_dirty_capacity (storage self);
     peer_capacity := sc_peer_capacity (storage self) |}.

(** ** Environment overrides *)
Inductive EnvValueKind := Scalar | List.
Module EnvBinding.
Record t := mk { env_name : str; config_path : str; kind : EnvValueKind }.
Definition scalar (env_name config_path : str) : t := mk env_name config_path Scalar.
Definition list (env_name config_path : str) : t := mk env_name config_path List.
End EnvBinding.

Definition ENV_BINDINGS : list EnvBinding.t :=
  [EnvBinding.scalar (lit "GABION_ENVOY_BIND") (lit "envoy_bind");
   EnvBinding.scalar (lit "GABION_ADMIN_BIND") (lit "admin_bind");
   EnvBinding.scalar (lit "GABION_STORAGE_MAX_CELLS") (lit "storage.max_cells");
   EnvBinding.scalar (lit "GABION_STORAGE_RULE_DICTIONARY_CAPACITY") (lit "storage.rule_dictionary_capacity");
   EnvBinding.scalar (lit "GABION_STORAGE_NODE_DICTIONARY_CAPACITY") (lit "storage.node_dictionary_capacity");
   EnvBinding.scalar (lit "GABION_STORAGE_LOCAL_DIRTY_CAPACITY") (lit "storage.local_dirty_capacity");
   EnvBinding.scalar (lit "GABION_STORAGE_FORWARDED_DIRTY_CAPACITY") (lit "storage.forwarded_dirty_capacity");
   EnvBinding.scalar (lit "GABION_STORAGE_PEER_CAPACITY") (lit "storage.peer_capacity");
   EnvBinding.scalar (lit "GABION_STORAGE_MAX_DESCRIPTOR_COUNT") (lit "storage.max_descriptor_count");
   EnvBinding.scalar (lit "GABION_STORAGE_MAX_DESCRIPTOR_BYTES") (lit "storage.max_descriptor_bytes");
   EnvBinding.scalar (lit "GABION_STORAGE_MAX_KEY_BYTES") (lit "storage.max_key_bytes");
   EnvBinding.scalar (lit "GABION_RUNTIME_NODE_ID_SEED") (lit "runtime.node_id_seed");
   EnvBinding.scalar (lit "GABION_RUNTIME_RNG_SEED") (lit "runtime.rng_seed");
   EnvBinding.scalar (lit "GABION_GOSSIP_BIND") (lit "gossip.bind");
   EnvBinding.scalar (lit "GABION_GOSSIP_TICK_INTERVAL") (lit "gossip.tick_interval");
   EnvBinding.scalar (lit "GABION_GOSSIP_FANOUT") (lit "gossip.fanout");
   EnvBinding.scalar (lit "GABION_GOSSIP_MAX_PAYLOAD_BYTES") (lit "gossip.max_payload_bytes");
   EnvBinding.scalar (lit "GABION_GOSSIP_MAX_CELLS_PER_FRAME") (lit "gossip.max_cells_per_frame");
   EnvBinding.scalar (lit "GABION_GOSSIP_MAX_CELLS_PER_TICK") (lit "gossip.max_cells_per_tick");
   EnvBinding.scalar (lit "GABION_GOSSIP_SEND_QUEUE_CAPACITY") (lit "gossip.send_queue_capacity");
   EnvBinding.scalar (lit "GABION_GOSSIP_LIMIT_QUEUE_CAPACITY") (lit "gossip.limit_queue_capacity");
   EnvBinding.scalar (lit "GABION_GOSSIP_CLUSTER_ID_HASH") (lit "gossip.cluster_id_hash");
   EnvBinding.scalar (lit "GABION_GOSSIP_TARGET_ERR_BPS") (lit "gossip.target_err_bps");
   EnvBinding.scalar (lit "GABION_GOSSIP_MIN_EMIT_INTERVAL") (lit "gossip.min_emit_interval");
   EnvBinding.scalar (lit "GABION_DISCOVERY_SELF_ADDR") (lit "discovery.self_addr");
   EnvBinding.list (lit "GABION_DISCOVERY_NAMESPACE_ALLOW") (lit "discovery.namespace_allow");
   EnvBinding.list (lit "GABION_DISCOVERY_SERVICE_ALLOW") (lit "discovery.service_allow")].

(** [str::split] at a character. *)
Fixpoint split_char (sep : Z) (s : str) : list str :=
  match s with
  | [] => [[]]
  | c :: s =>
    if c =? sep then [] :: split_char sep s
    else match split_char sep s with
         | seg :: segs => (c :: seg) :: segs
         | [] => [[c]]
         end
  end.

Definition parse_csv (raw : str) : list str :=
  filter (λ s, s ≠ []) (trim <$> split_char 44 raw).

Inductive Value := StringValue (s : str) | ArrayValue (l : list str).

(** [std::env::var]: unset, set, or set to something that is not UTF-8. *)
Inductive EnvVar := NotPresent | Present (value : str) | NotUnicode.

Definition read_env (env : str → EnvVar) (name : str) : option str + ConfigError :=
  match env name with
  | Present value => Ok (Some value)
  | NotPresent => Ok None
  | NotUnicode => Err (NonUtf8EnvVar name)
  end.

Section finalize.
Context {Builder CrateError : Type} (set_override : Builder → str → Value → Builder + CrateError).
Context (build : Builder → AppConfig + CrateError).

(** [ConfigError::Config] wraps the crate's error. *)
Fixpoint apply_bindings (env : str → EnvVar) (bindings : list EnvBinding.t) (builder : Builder) :
    Builder + (ConfigError + CrateError) :=
  match bindings with
  | [] => Ok builder
  | binding :: bindings =>
    match read_env env (EnvBinding.env_name binding) with
    | inr e => Err (inl e)
    | inl None => apply_bindings env bindings builder
    | inl (Some raw) =>
      let value := match EnvBinding.kind binding with
                   | Scalar => StringValue raw
                   | List => ArrayValue (parse_csv raw)
                   end in
      match set_override builder (EnvBinding.config_path binding) value with
      | inr e => Err (inr e)
      | inl builder => apply_bindings env bindings builder
      end
    end
  end.

Definition finalize (env : str → EnvVar) (builder : Builder) : AppConfig + (ConfigError + CrateError) :=
  match apply_bindings env ENV_BINDINGS builder with
  | inr e => Err e
  | inl builder => match build builder with inl c => Ok c | inr e => Err (inr e) end
  end.
End finalize.

(** ** Cluster identifiers *)

(** [u128::from_str_radix] on a string without a sign. *)
Fixpoint radix_digits (radix acc : Z) (s : str) : option Z :=
  match s with
  | [] => Some acc
  | c :: s =>
    d ← to_digit radix c;
    acc ← checked 128 (acc * radix);
    acc ← checked 128 (acc + d);
    radix_digits radix acc s
  end.

Definition parse_radix (radix : Z) (ds : str) : option Z :=
  match ds with
  | c :: _ =>
    match to_digit radix c with
    | None => None
    | Some _ => n ← radix_digits radix 0 ds; if n =? 0 then None else Some n
    end
  | [] => None
  end.

Definition parse_cluster_id (value : str) : option Z :=
  let value := trim value in
  let '(ds, radix) :=
    match strip_prefix (lit "0x") value with
    | Some hex => (hex, 16)
    | None => match strip_prefix (lit "0X") value with Some hex => (hex, 16) | None => (value, 10) end
    end in
  parse_radix radix ds.

(** The serde visitor: what it makes of each kind of scalar. *)
Inductive Scalar128 := U64 (v : Z) | U128 (v : Z) | I64 (v : Z) | Text (v : str).
Definition visit_u128 (v : Z) : option Z := if v =? 0 then None else Some v.
Definition visit (v : Scalar128) : option Z :=
  match v with
  | U64 v | U128 v => visit_u128 v
  | I64 v => if v <? 0 then None else visit_u128 v
  | Text v => parse_cluster_id v
  end.

(** ** What a configured rule becomes *)
Section rules.
Context (xxh3 : list Z → Z) (parse_duration : str → option Z).
Implicit Types (limit : LimitRuleConfig).

Lemma check_keys_exact rule ds :
  match check_keys rule ds with
  | inl _ => Forall (λ d, is_descriptor_key (dc_key d) = true) ds
  | inr e => ∃ pre d suf, ds = pre ++ d :: suf ∧ Forall (λ d, is_descriptor_key (dc_key d) = true) pre ∧
      is_descriptor_key (dc_key d) = false ∧ e = InvalidDescriptorKey rule (dc_key d)
  end.
Proof.
  induction ds as [|d ds IH]; cbn [check_keys]; [constructor|].
  destruct (is_descriptor_key (dc_key d)) eqn:E; simpl; [|by exists [], d, ds].
  destruct (check_keys rule ds); [by constructor|].
  destruct IH as (pre & d' & suf & -> & Hp & Hd & ->). exists (d :: pre), d', suf. by split_and!; [|constructor|..].
Qed.

(** The rule that a valid entry stands for. *)
Definition rule_of limit (id : Z) (r : Rule) : Prop :=
  lc_descriptors limit ≠ [] ∧ Forall (λ d, is_descriptor_key (dc_key d) = true) (lc_descriptors limit) ∧
  ∃ count period resolved, parse_rate parse_duration (lc_rate limit) = Ok (count, period) ∧
    resolve_rate count period (lc_window limit) (lc_bucket limit) = Ok resolved ∧
    r = Rule_new xxh3 id (lc_domain limit)
          ((λ d, {| pat_key := dc_key d; pat_value := dc_value d |}) <$> lc_descriptors limit)
          (rr_limit resolved) (rr_window_millis resolved) (rr_bucket_millis resolved) (mode_from (lc_mode limit)).

(** Its descriptors are in order. *)
Definition described limit : Prop :=
  lc_descriptors limit ≠ [] ∧ Forall (λ d, is_descriptor_key (dc_key d) = true) (lc_descriptors limit).

(** Why an entry is refused: the check that fails, after those that pass. *)
Definition refused limit (e : ConfigError) : Prop :=
  match e with
  | EmptyDescriptorSet n => n = lc_name limit ∧ lc_descriptors limit = []
  | InvalidDescriptorKey n k => n = lc_name limit ∧
      ∃ pre d suf, lc_descriptors limit = pre ++ d :: suf ∧ dc_key d = k ∧
        Forall (λ d, is_descriptor_key (dc_key d) = true) pre ∧ is_descriptor_key k = false
  | InvalidRate n reason => n = lc_name limit ∧ described limit ∧ parse_rate parse_duration (lc_rate limit) = Err reason
  | ResolveRate n err => n = lc_name limit ∧ described limit ∧ ∃ count period,
      parse_rate parse_duration (lc_rate limit) = Ok (count, period) ∧
      resolve_rate count period (lc_window limit) (lc_bucket limit) = Err err
  | _ => False
  end.

Lemma to_rule_exact limit id :
  match to_rule xxh3 parse_duration limit id with inl r => rule_of limit id r | inr e => refused limit e end.
Proof.
  unfold to_rule. case_bool_decide as Hn; [by split|].
  pose proof (check_keys_exact (lc_name limit) (lc_descriptors limit)) as Hk. destruct (check_keys _ _) as [u|e].
  2:{ destruct Hk as (pre & d & suf & Hds & Hp & Hd & ->). split; [done|]. by exists pre, d, suf. }
  destruct (parse_rate _ _) as [[count period]|reason] eqn:Er; [|by split_and!].
  destruct (resolve_rate _ _ _ _) as [resolved|err] eqn:Es; [|split; [done|split; [by split|by exists count, period]]].
  split; [done|]. split; [done|]. by exists count, period, resolved.
Qed.

Lemma check_keys_first rule pre d suf :
  Forall (λ d, is_descriptor_key (dc_key d) = true) pre → is_descriptor_key (dc_key d) = false →
  check_keys rule (pre ++ d :: suf) = Err (InvalidDescriptorKey rule (dc_key d)).
Proof. intros Hp Hd. induction Hp as [|x pre Hx _ IH]; cbn [check_keys app]; [by rewrite Hd|]. by rewrite Hx. Qed.

(** The reason is unique: it is the error [to_rule] returns. *)
Lemma refused_exact limit id e : to_rule xxh3 parse_duration limit id = Err e ↔ refused limit e.
Proof.
  split; [intros He; pose proof (to_rule_exact limit id) as H; by rewrite He in H|].
  unfold to_rule. destruct e as [n|n|n reason|n err|n k| |n]; cbn [refused]; try done.
  - intros [-> Hd]. by rewrite bool_decide_true.
  - intros (-> & [Hne Hk] & Hr). rewrite bool_decide_false by done.
    pose proof (check_keys_exact (lc_name limit) (lc_descriptors limit)) as Hc. destruct (check_keys _ _); [by rewrite Hr|].
    destruct Hc as (pre & d & suf & Hd & _ & Hbad & _). rewrite Hd in Hk. apply Forall_app in Hk as [_ Hk].
    apply Forall_cons in Hk as [? _]. congruence.
  - intros (-> & [Hne Hk] & count & period & Hr & Hs). rewrite bool_decide_false by done.
    pose proof (check_keys_exact (lc_name limit) (lc_descriptors limit)) as Hc. destruct (check_keys _ _); [by rewrite Hr, Hs|].
    destruct Hc as (pre & d & suf & Hd & _ & Hbad & _). rewrite Hd in Hk. apply Forall_app in Hk as [_ Hk].
    apply Forall_cons in Hk as [? _]. congruence.
  - intros (-> & pre & d & suf & Hd & <- & Hp & Hbad). rewrite Hd, bool_decide_false by (by destruct pre).
    by rewrite check_keys_first.
Qed.

Lemma rule_table_loop_ok limits : ∀ earlier rules,
  zlen earlier + zlen limits ≤ U32_MAX → NoDup (lc_name <$> earlier) → length rules = length earlier →
  (∀ i l, earlier !! i = Some l → ∃ r, rules !! i = Some r ∧ rule_of l (Z.of_nat i + 1) r) →
  ∃ res, rule_table_loop xxh3 parse_duration earlier limits rules = Some res ∧
    match res with
    | inl out => NoDup (lc_name <$> (earlier ++ limits)) ∧ length out = length (earlier ++ limits) ∧
        ∀ i l, (earlier ++ limits) !! i = Some l → ∃ r, out !! i = Some r ∧ rule_of l (Z.of_nat i + 1) r
    | inr e => ∃ pre l suf, earlier ++ limits = pre ++ l :: suf ∧ NoDup (lc_name <$> pre) ∧
        (∀ i x, pre !! i = Some x → ∃ r, rule_of x (Z.of_nat i + 1) r) ∧
        ((lc_name l ∈ lc_name <$> pre ∧ e = DuplicateRule (lc_name l)) ∨
         ((lc_name l ∉ lc_name <$> pre) ∧ refused l e))
    end.
Proof.
  induction limits as [|l limits IH]; intros earlier rules Hlen Hnd Hl Hr; cbn [rule_table_loop].
  { eexists. split; [done|]. by rewrite app_nil_r. }
  assert (zlen (l :: limits) = zlen limits + 1) as Hz by (unfold zlen; simpl; lia).
  pose proof (zlen_nonneg limits). pose proof (zlen_nonneg earlier).
  assert (∀ i x, earlier !! i = Some x → ∃ r, rule_of x (Z.of_nat i + 1) r) as Hpre
    by (intros i x Hx; destruct (Hr i x Hx) as (r & _ & ?); by exists r).
  destruct (existsb _ earlier) eqn:Ee.
  { eexists. split; [done|]. exists earlier, l, limits. split_and!; try done. left. split; [|done].
    apply existsb_exists in Ee as (x & Hx%list_elem_of_In & Hn%bool_decide_eq_true). apply list_elem_of_fmap. by exists x. }
  assert (lc_name l ∉ lc_name <$> earlier) as Hnin.
  { intros (x & Hn & Hx)%list_elem_of_fmap. assert (existsb (λ e, bool_decide (lc_name e = lc_name l)) earlier = true); [|congruence].
    apply existsb_exists. exists x. split; [by apply list_elem_of_In|by apply bool_decide_true]. }
  assert (checked 32 (as_u32 (zlen earlier) + 1) = Some (Z.of_nat (length earlier) + 1)) as ->.
  { unfold as_u32, U32_MAX in *. rewrite Z.mod_small by lia. rewrite checked_ok by lia. done. }
  cbn [mbind option_bind].
  pose proof (to_rule_exact l (Z.of_nat (length earlier) + 1)) as Ht. destruct (to_rule _ _ _ _) as [r|e].
  2:{ eexists. split; [done|]. exists earlier, l, limits. split_and!; try done. by right. }
  destruct (IH (earlier ++ [l]) (rules ++ [r])) as (res & -> & Hres).
  { rewrite zlen_app. unfold zlen in *. simpl. lia. }
  { rewrite fmap_app. apply NoDup_app. split; [done|]. split; [|apply NoDup_singleton].
    intros x Hx ->%list_elem_of_singleton. done. }
  { rewrite !length_app. simpl. lia. }
  { intros i x [Hx|[Hge Hx]]%lookup_app_Some.
    - destruct (Hr i x Hx) as (r' & Hr' & ?). exists r'. split; [by apply lookup_app_l_Some|done].
    - apply list_lookup_singleton_Some in Hx as [Hi <-]. exists r.
      assert (i = length earlier) as -> by lia.
      split; [|done]. rewrite lookup_app_r by lia. by rewrite Hl, Nat.sub_diag. }
  exists res. split; [done|]. rewrite <- app_assoc in Hres. exact Hres.
Qed.
End rules.

(** C36: the rule table.  A configuration is accepted exactly when its rule names
    are distinct and every entry is valid; the table then has one rule per
    entry, in order, with identifiers from 1, the entry's domain, patterns and
    mode and the limit its rate resolves to.  Otherwise the error is that of the
    first bad entry: a name an earlier entry has, or else the one of the checks
    (descriptors, keys, rate, window) that it fails after passing those before. *)
Theorem rule_table_exact xxh3 parse_duration limits :
  zlen limits ≤ U32_MAX →
  ∃ res, rule_table xxh3 parse_duration limits = Some res ∧
    match res with
    | inl rules => NoDup (lc_name <$> limits) ∧ length rules = length limits ∧
        ∀ i l, limits !! i = Some l →
          ∃ r, rules !! i = Some r ∧ rule_of xxh3 parse_duration l (Z.of_nat i + 1) r
    | inr e => ∃ pre l suf, limits = pre ++ l :: suf ∧ NoDup (lc_name <$> pre) ∧
        (∀ i x, pre !! i = Some x → ∃ r, rule_of xxh3 parse_duration x (Z.of_nat i + 1) r) ∧
        ((lc_name l ∈ lc_name <$> pre ∧ e = DuplicateRule (lc_name l)) ∨
         ((lc_name l ∉ lc_name <$> pre) ∧ refused parse_duration l e ∧ ∀ e', refused parse_duration l e' → e' = e))
    end.
Proof.
  intros Hl. destruct (rule_table_loop_ok xxh3 parse_duration limits [] []) as (res & Hr & Hres); [done|constructor|done|done|].
  exists res. split; [done|]. destruct res as [rules|e]; [done|].
  destruct Hres as (pre & l & suf & Hl' & Hnd & Hpre & Hcase). exists pre, l, suf. split; [done|]. split; [done|]. split; [done|].
  destruct Hcase as [?|[Hn He]]; [by left|]. right. split; [done|]. split; [done|]. intros e' He'.
  apply (refused_exact xxh3 parse_duration l 0) in He, He'. congruence.
Qed.

Definition sample_limit (name rate : str) : LimitRuleConfig := {|
  lc_name := name; lc_domain := lit "edge"; lc_descriptors := [ {| dc_key := lit "ip"; dc_value := any_value |} ];
  lc_rate := rate; lc_window := None; lc_bucket := None; lc_mode := CfgEnforce |}.

Lemma rule_table_exact_witness :
  (∃ rules, rule_table sample_hash (λ _, None) [sample_limit (lit "a") (lit "10r/s"); sample_limit (lit "b") (lit "5r/m")] =
     Some (Ok rules) ∧ length rules = 2%nat) ∧
  rule_table sample_hash (λ _, None) [sample_limit (lit "a") (lit "10r/s"); sample_limit (lit "a") (lit "5r/m")] =
    Some (Err (DuplicateRule (lit "a"))).
Proof.
  split.
  - destruct (rule_table_exact sample_hash (λ _, None)
      [sample_limit (lit "a") (lit "10r/s"); sample_limit (lit "b") (lit "5r/m")]) as (res & Hr & Hres);
      [vm_compute; discriminate|].
    destruct res as [rules|e]; [|vm_compute in Hr; discriminate Hr]. exists rules. split; [exact Hr|apply Hres].
  - vm_compute. reflexivity.
Defined.

(** ** Cluster identifiers read back *)
Lemma digit_char_plain d : 0 ≤ d < 16 → is_whitespace (digit_char d) = false ∧ digit_char d ≠ 120 ∧ digit_char d ≠ 88.
Proof.
  intros Hd. assert (d ∈ zrange 0 16) as Hin by (apply elem_of_zrange; lia). clear Hd.
  revert d Hin. apply Forall_forall. repeat apply Forall_cons_2; try (vm_compute; split_and!; done). constructor.
Qed.

Lemma radix_digits_app radix acc s t v :
  radix_digits radix acc s = Some v → radix_digits radix acc (s ++ t) = radix_digits radix v t.
Proof.
  revert acc. induction s as [|c s IH]; intros acc; simpl; [by intros [= ->]|].
  destruct (to_digit radix c) as [d|]; simpl; [|done].
  destruct (checked 128 (acc * radix)) as [a|]; simpl; [|done].
  destruct (checked 128 (a + d)) as [a'|]; simpl; [|done]. apply IH.
Qed.

Lemma radix_digits_one radix acc d :
  2 ≤ radix ≤ 16 → 0 ≤ d < radix → 0 ≤ acc → acc * radix + d < 2 ^ 128 →
  radix_digits radix acc [digit_char d] = Some (acc * radix + d).
Proof.
  intros Hr Hd Ha Hm. cbn [radix_digits]. rewrite to_digit_char by done. cbn [mbind option_bind].
  rewrite checked_ok by nia. cbn [mbind option_bind]. rewrite checked_ok by nia. done.
Qed.

Lemma print_radix_ok radix fuel : 2 ≤ radix ≤ 16 → ∀ n,
  0 ≤ n < radix ^ Z.of_nat fuel → n < 2 ^ 128 → radix_digits radix 0 (print_radix radix fuel n) = Some n.
Proof.
  intros Hr. induction fuel as [|fuel IH]; intros n Hn Hm; cbn [print_radix].
  { simpl in Hn. cbn. f_equal. lia. }
  destruct (n <? radix) eqn:E; bool_solve.
  { rewrite radix_digits_one by lia. done. }
  rewrite Nat2Z.inj_succ, Z.pow_succ_r in Hn by lia.
  pose proof (Z.div_mod n radix ltac:(lia)). pose proof (Z.mod_pos_bound n radix ltac:(lia)).
  assert (0 ≤ n / radix < radix ^ Z.of_nat fuel).
  { split; [apply Z.div_pos; lia|apply Z.div_lt_upper_bound; lia]. }
  assert (n / radix ≤ n) by (apply Z.div_le_upper_bound; nia).
  rewrite (radix_digits_app _ _ _ _ (n / radix)) by (apply IH; lia).
  rewrite radix_digits_one by lia. f_equal. lia.
Qed.

Lemma print_radix_chars radix fuel n : 2 ≤ radix ≤ 16 → 0 ≤ n →
  Forall (λ c, ∃ d, 0 ≤ d < radix ∧ c = digit_char d) (print_radix radix fuel n).
Proof.
  intros Hr. revert n. induction fuel as [|fuel IH]; intros n Hn; cbn [print_radix]; [constructor|].
  pose proof (Z.mod_pos_bound n radix ltac:(lia)). destruct (n <? radix) eqn:E; bool_solve.
  - apply Forall_singleton. by exists n.
  - apply Forall_app. split; [apply IH, Z.div_pos; lia|]. apply Forall_singleton. by exists (n mod radix).
Qed.

Lemma print_radix_nonempty radix fuel n : print_radix radix (S fuel) n ≠ [].
Proof. cbn [print_radix]. destruct (n <? radix); [done|]. by intros [_ ?]%app_nil. Qed.

(** [trim] removes exactly the white space around a text without any. *)
Abbreviation blank := (Forall (λ c, is_whitespace c = true)).

Lemma trim_start_blank ws s : blank ws → trim_start (ws ++ s) = trim_start s.
Proof. induction 1 as [|c ws Hc _ IH]; [done|]. simpl. by rewrite Hc. Qed.

Lemma trim_start_plain s : Forall (λ c, is_whitespace c = false) s → trim_start s = s.
Proof. destruct 1 as [|c s Hc _]; [done|]. simpl. by rewrite Hc. Qed.

Lemma trim_around ws1 s ws2 :
  blank ws1 → blank ws2 → Forall (λ c, is_whitespace c = false) s → s ≠ [] → trim (ws1 ++ s ++ ws2) = s.
Proof.
  intros H1 H2 Hs Hn. unfold trim. rewrite trim_start_blank by done.
  destruct s as [|c s]; [done|]. cbn [app trim_start]. apply Forall_cons in Hs as [Hc Hs]. rewrite Hc.
  rewrite app_comm_cons, rev_app_distr, trim_start_blank by (by apply List.Forall_rev).
  rewrite trim_start_plain by (apply List.Forall_rev; by constructor).
  apply rev_involutive.
Qed.

Lemma radix_digits_range radix s : ∀ acc v, 0 ≤ acc < 2 ^ 128 → radix_digits radix acc s = Some v → 0 ≤ v < 2 ^ 128.
Proof.
  induction s as [|c s IH]; intros acc v Ha; simpl; [by intros [= <-]|].
  destruct (to_digit radix c) as [d|]; simpl; [|done].
  destruct (checked 128 (acc * radix)) as [a|]; simpl; [|done].
  destruct (checked 128 (a + d)) as [a'|] eqn:E; simpl; [|done]. apply IH.
  apply checked_Some in E as [-> E]. lia.
Qed.

(** Forty digits are enough in decimal, thirty-three in hexadecimal. *)
Definition decimal128 (n : Z) : str := print_radix 10 40 n.
Definition hex128 (n : Z) : str := print_radix 16 33 n.

Lemma digits_plain radix fuel n :
  2 ≤ radix ≤ 16 → 0 ≤ n → Forall (λ c, is_whitespace c = false ∧ c ≠ 120 ∧ c ≠ 88) (print_radix radix fuel n).
Proof.
  intros Hr Hn. eapply Forall_impl; [by apply print_radix_chars|]. intros c (d & Hd & ->).
  apply digit_char_plain. lia.
Qed.

Lemma no_prefix x s : Forall (λ c, c ≠ x) s → strip_prefix [48; x] s = None.
Proof.
  intros Hs. destruct s as [|c s]; [done|]. cbn [strip_prefix]. destruct (48 =? c); [|done].
  destruct s as [|c' s]; [done|]. cbn [strip_prefix]. apply Forall_cons in Hs as [_ [Hc _]%Forall_cons].
  by replace (x =? c') with false by lia.
Qed.

Lemma parse_printed radix fuel n :
  2 ≤ radix ≤ 16 → 0 < n < radix ^ Z.of_nat (S fuel) → n < 2 ^ 128 →
  parse_radix radix (print_radix radix (S fuel) n) = Some n.
Proof.
  intros Hr Hn Hm. unfold parse_radix. pose proof (print_radix_nonempty radix fuel n).
  pose proof (print_radix_ok radix (S fuel) Hr n ltac:(lia) Hm) as Hp.
  pose proof (print_radix_chars radix (S fuel) n Hr ltac:(lia)) as Hc.
  destruct (print_radix radix (S fuel) n) as [|c s]; [done|]. apply Forall_cons in Hc as [(d & Hd & ->) _].
  rewrite to_digit_char, Hp by done. cbn [mbind option_bind]. by replace (n =? 0) with false by lia.
Qed.

(** A cluster identifier reads back.  Every non-zero 128-bit identifier,
    written in decimal or in hexadecimal after [0x] or [0X], with any white
    space around it, is parsed to itself; and whatever is parsed is such an
    identifier. *)
Theorem cluster_id_roundtrip :
  (∀ n ws1 ws2, 0 < n < 2 ^ 128 → blank ws1 → blank ws2 →
     parse_cluster_id (ws1 ++ decimal128 n ++ ws2) = Some n ∧
     parse_cluster_id (ws1 ++ (lit "0x" ++ hex128 n) ++ ws2) = Some n ∧
     parse_cluster_id (ws1 ++ (lit "0X" ++ hex128 n) ++ ws2) = Some n) ∧
  (∀ s n, parse_cluster_id s = Some n → 0 < n < 2 ^ 128).
Proof.
  split.
  - intros n ws1 ws2 Hn H1 H2. unfold parse_cluster_id.
    pose proof (digits_plain 10 40 n ltac:(lia) ltac:(lia)) as Hd.
    pose proof (digits_plain 16 33 n ltac:(lia) ltac:(lia)) as Hh.
    pose proof (print_radix_nonempty 10 39 n). pose proof (print_radix_nonempty 16 32 n).
    assert (∀ x, is_whitespace x = false → Forall (λ c, is_whitespace c = false) ([48; x] ++ hex128 n)) as Hx.
    { intros x Hx. repeat apply Forall_cons_2; [done|done|]. eapply Forall_impl; [exact Hh|]. by intros c (? & _). }
    assert (parse_radix 10 (decimal128 n) = Some n) as H10.
    { apply (parse_printed 10 39 n); [lia| |lia]. change (10 ^ Z.of_nat 40) with (10 ^ 40). lia. }
    assert (parse_radix 16 (hex128 n) = Some n) as H16.
    { apply (parse_printed 16 32 n); [lia| |lia]. change (16 ^ Z.of_nat 33) with (16 ^ 33). lia. }
    split_and!.
    + assert (Forall (λ c, is_whitespace c = false) (decimal128 n)) as Hp
        by (eapply Forall_impl; [exact Hd|]; by intros c (? & _)).
      rewrite (trim_around ws1 (decimal128 n) ws2 H1 H2 Hp ltac:(assumption)).
      change (lit "0x") with [48; 120]. change (lit "0X") with [48; 88].
      rewrite !no_prefix by (eapply Forall_impl; [exact Hd|]; by intros c (_ & ? & ?)).
      exact H10.
    + change (lit "0x") with [48; 120].
      rewrite (trim_around ws1 ([48; 120] ++ hex128 n) ws2 H1 H2 (Hx 120 eq_refl) ltac:(discriminate)).
      cbn [app strip_prefix Z.eqb Pos.eqb]. exact H16.
    + change (lit "0x") with [48; 120]. change (lit "0X") with [48; 88].
      rewrite (trim_around ws1 ([48; 88] ++ hex128 n) ws2 H1 H2 (Hx 88 eq_refl) ltac:(discriminate)).
      cbn [app strip_prefix Z.eqb Pos.eqb]. exact H16.
  - intros s n. unfold parse_cluster_id.
    destruct (match strip_prefix (lit "0x") (trim s) with Some _ => _ | None => _ end) as [ds radix].
    unfold parse_radix. destruct ds as [|c ds]; [done|]. destruct (to_digit radix c); [|done].
    destruct (radix_digits radix 0 (c :: ds)) as [v|] eqn:E; [|done]. cbn [mbind option_bind].
    destruct (v =? 0) eqn:Ev; [done|]. intros [= <-]. apply radix_digits_range in E; [|lia]. lia.
Qed.

Lemma cluster_id_roundtrip_witness :
  parse_cluster_id (lit " " ++ (lit "0x" ++ hex128 12648430) ++ lit "  ") = Some 12648430 ∧ 0 < 42 < 2 ^ 128.
Proof.
  split.
  - apply (proj1 cluster_id_roundtrip 12648430 (lit " ") (lit "  ")); [lia|..];
      repeat apply Forall_cons_2; first [reflexivity|constructor].
  - apply (proj2 cluster_id_roundtrip (lit "42")). vm_compute. reflexivity.
Defined.

(** ** Comma-separated lists *)
Lemma split_char_one sep s : sep ∉ s → split_char sep s = [s].
Proof.
  induction s as [|c s IH]; intros Hs; [done|]. cbn [split_char]. apply not_elem_of_cons in Hs as [Hc Hs].
  replace (c =? sep) with false by lia. by rewrite IH.
Qed.

Lemma split_char_app sep s t : sep ∉ s → split_char sep (s ++ sep :: t) = s :: split_char sep t.
Proof.
  induction s as [|c s IH]; intros Hs; cbn [app split_char]; [by rewrite Z.eqb_refl|].
  apply not_elem_of_cons in Hs as [Hc Hs]. replace (c =? sep) with false by lia. by rewrite IH.
Qed.

(** Segments with white space around them, separated by commas. *)
Fixpoint csv (segs : list (str * str * str)) : str :=
  match segs with
  | [] => []
  | [(l, s, r)] => l ++ s ++ r
  | (l, s, r) :: segs => (l ++ s ++ r) ++ 44 :: csv segs
  end.

Definition segment_ok (seg : str * str * str) : Prop :=
  let '(l, s, r) := seg in
  blank l ∧ blank r ∧ Forall (λ c, is_whitespace c = false ∧ c ≠ 44) s.

(** White space around a segment and empty segments are dropped. *)
Lemma parse_csv_segments segs :
  Forall segment_ok segs → parse_csv (csv segs) = filter (λ s, s ≠ []) ((λ seg, seg.1.2) <$> segs).
Proof.
  assert (∀ l s r, segment_ok (l, s, r) → (44 ∉ l ++ s ++ r) ∧ trim (l ++ s ++ r) = s) as Hseg.
  { intros l s r (Hl & Hr & Hs).
    assert (∀ w, blank w → 44 ∉ w) as Hb.
    { intros w Hw Hin. rewrite Forall_forall in Hw. by specialize (Hw 44 Hin). }
    split.
    - rewrite !elem_of_app. intros [?|[Hin|?]]; [by apply (Hb l)| |by apply (Hb r)].
      rewrite Forall_forall in Hs. by destruct (Hs 44 Hin).
    - destruct (decide (s = [])) as [->|Hn].
      + simpl. unfold trim. rewrite trim_start_blank by done.
        rewrite <- (app_nil_r r), trim_start_blank by done. done.
      + apply trim_around; try done. eapply Forall_impl; [exact Hs|]. by intros c []. }
  unfold parse_csv. induction 1 as [|[[l s] r] segs Hok Hoks IH]; [done|].
  destruct (Hseg l s r Hok) as [Hn Ht]. destruct segs as [|seg segs].
  - cbn [csv]. rewrite split_char_one by done. cbn [fmap list_fmap]. by rewrite Ht.
  - change (csv ((l, s, r) :: seg :: segs)) with ((l ++ s ++ r) ++ 44 :: csv (seg :: segs)).
    rewrite split_char_app by done. rewrite !fmap_cons, Ht, !filter_cons. cbn [fst snd]. by rewrite IH.
Qed.

(** The override table binds each variable and each field once. *)
Lemma env_bindings_distinct :
  NoDup (EnvBinding.env_name <$> ENV_BINDINGS) ∧ NoDup (EnvBinding.config_path <$> ENV_BINDINGS).
Proof. split; apply (bool_decide_unpack _); vm_compute; exact I. Qed.

Section layering.
Context {Builder CrateError : Type} (set_override : Builder → str → Value → Builder).

(** The value an environment gives a binding. *)
Definition override_of (env : str → EnvVar) (b : EnvBinding.t) : option (str * Value) :=
  match env (EnvBinding.env_name b) with
  | Present raw => Some (EnvBinding.config_path b,
      match EnvBinding.kind b with Scalar => StringValue raw | List => ArrayValue (parse_csv raw) end)
  | _ => None
  end.

(** The set variables override, in the order of the table; the first one that
    is not UTF-8 stops it. *)
Lemma apply_bindings_exact env bs (b : Builder) :
  apply_bindings (CrateError := CrateError) (λ b p v, Ok (set_override b p v)) env bs b =
    match List.find (λ x, match env (EnvBinding.env_name x) with NotUnicode => true | _ => false end) bs with
    | Some bad => Err (inl (NonUtf8EnvVar (EnvBinding.env_name bad)))
    | None => Ok (foldl (λ b '(p, v), set_override b p v) b (omap (override_of env) bs))
    end.
Proof.
  revert b. induction bs as [|x bs IH]; intros b; [done|]. cbn [apply_bindings List.find omap list_omap].
  unfold read_env, override_of at 1. destruct (env (EnvBinding.env_name x)); [apply IH| |done].
  rewrite IH. by destruct (List.find _ bs).
Qed.
End layering.
