(* ===== verification/Server.v ===== *)
(** * The server process

    What [gabiond] puts together at start-up ([crates/server/src/bin/gabiond.rs]):
    the configured rules become the rule table and the registered rules of a
    fresh cell store, the event loop owns the store, and the limiter reads the
    aggregate store the loop writes.  The theorem composes the event loop with
    the admission decision. *)

From stdpp Require Import strings.
From S2P Require Import Prelude Types Hash Index Freelist Dictionary DirtyRing PeerFrontier IO CellStore CellSlots CellInv CellOps CellMerge CellExpire GossipFrame CellTyped View StoreSpec Window Bytes WireHeader WireBody WirePlan WireCodec Wire WireTyped Exchange Str Rules DashMap Mirror Limiter Runtime RuntimeSend RuntimeAdmin RuntimeInv RuntimeStep RuntimeLoop RuntimeView RuntimeSpec ServerConfig.
Import GossipRuntime.
#[local] Existing Instances DashMapStore.aggregate DashMapStore.aggregate_laws Count_u32.

(** The descriptor a rule is registered under. *)
Definition descriptor_of (rule : Rule) : RuleDescriptor := {|
  fingerprint := rule_fp rule;
  window_millis := Z.min (rule_window_millis rule) U32_MAX;
  bucket_millis := Z.min (rule_bucket_millis rule) U32_MAX;
  Dictionary.limit := Rules.limit rule;
  flags := 0;
  local_rule_id := rule_id rule |}.

(** [None] inside is the error for a full rule dictionary. *)
Definition register_rules (cell_store : CellStore.t) (table : list Rule) : option (option CellStore.t) :=
  register cell_store (descriptor_of <$> table).

(** A bounded tokio channel panics without a buffer and above [usize::MAX >> 3]
    permits. *)
Definition mpsc_capacity_ok (capacity : Z) : bool := (0 <? capacity) && (capacity <? 2 ^ 61).

Inductive BootError := BadConfig (e : ConfigError) | RuleDictionaryFull.

(** From the loaded configuration to the event loop and the rule table.  The
    identity and the seed are drawn from the host and the operating system. *)
Definition boot (xxh3 : list Z → Z) (parse_duration : str → option Z) (config : AppConfig)
    (identity : NodeIdentity) (rng_seed : Z) : option ((@RunState DashMapStore.t * list Rule) + BootError) :=
  table ← rule_table xxh3 parse_duration (limits config);
  match table with
  | inr e => Some (Err (BadConfig e))
  | inl table =>
    cell_store ← CellStore.new (cell_store_config config) identity;
    registered ← register_rules cell_store table;
    match registered with
    | None => Some (Err RuleDictionaryFull)
    | Some cell_store =>
      match gs_bind (gossip config) with
      | None => Some (Err (BadConfig MissingGossipBind))
      | Some _ =>
        let rng_seed := default rng_seed (rt_rng_seed (runtime config)) in
        if negb (mpsc_capacity_ok (gs_limit_queue_capacity (gossip config))) then None else
        Some (Ok ({| rs_self := from_parts_with_admin (into_runtime_config (gossip config) identity rng_seed)
                                  cell_store (∅ : DashMapStore.t) true;
                     peer_events_done := false |}, table))
      end
    end
  end.

(** A configuration with values of their types and capacities in range. *)
Record app_ok (config : AppConfig) : Prop := {
  ap_store : config_ok (cell_store_config config);
  ap_limits : zlen (limits config) < U32_MAX;
  ap_cluster : uint 128 (gs_cluster_id_hash (gossip config));
  ap_fanout : 0 ≤ gs_fanout (gossip config);
  ap_tick : 0 ≤ gs_max_cells_per_tick (gossip config);
  ap_payload : 0 ≤ gs_max_payload_bytes (gossip config) ≤ U32_MAX;
  ap_frame : 0 ≤ gs_max_cells_per_frame (gossip config);
  ap_bps : uint 32 (gs_target_err_bps (gossip config));
}.

Lemma runtime_config_wf config identity seed :
  app_ok config → config_wf (into_runtime_config (gossip config) identity seed).
Proof. intros []. by split. Qed.

(** The rules of a table the configuration was accepted for. *)
Lemma table_rules xxh3 pd limits table :
  zlen limits < U32_MAX → rule_table xxh3 pd limits = Some (Ok table) →
  Forall (λ r, applies_locally (descriptor_of r) = true ∧ 1 ≤ rule_bucket_millis r ∧ 0 ≤ rule_live_buckets r) table.
Proof.
  intros Hl Ht. destruct (rule_table_loop_ok xxh3 pd limits [] []) as (res & Hr & Hres);
    [change (zlen []) with 0; lia|constructor|done|done|].
  unfold rule_table in Ht. rewrite Ht in Hr. injection Hr as <-. destruct Hres as (_ & Hlen & Hall).
  apply Forall_lookup. intros i r Hi. apply lookup_lt_Some in Hi as Hlt. rewrite Hlen in Hlt.
  apply lookup_lt_is_Some in Hlt as [l Hli]. destruct (Hall i l Hli) as (r' & Hr' & _ & _ & count & period & res & _ & _ & ->).
  rewrite Hi in Hr'. injection Hr' as ->. apply lookup_lt_Some in Hli. simpl in Hli. unfold zlen in Hl.
  split_and!.
  - unfold applies_locally. simpl. replace (Z.of_nat i + 1 =? U32_MAX) with false by lia. done.
  - simpl. lia.
  - simpl. unfold as_u32. apply Z.mod_pos_bound. lia.
Qed.

Lemma boot_ok xxh3 pd config identity seed rs table :
  app_ok config → uint 128 (node_id identity) → uint 32 (ni_incarnation identity) →
  boot xxh3 pd config identity seed = Some (Ok (rs, table)) →
  ∃ st cfg, rule_table xxh3 pd (limits config) = Some (Ok table) ∧ config_wf cfg ∧ gc_bootstrap_peers cfg = [] ∧
    store_inv (fingerprints (descriptor_of <$> table)) (peer_capacity (cell_store_config config)) st ∅ ∧
    views (cell_store_config config) identity st (started_view (cell_store_config config) identity (descriptor_of <$> table)) ∧
    CellStore.local_identity st = identity ∧
    rs = {| rs_self := from_parts_with_admin cfg st (∅ : DashMapStore.t) true; peer_events_done := false |}.
Proof.
  intros Ha Hn Hi. unfold boot. destruct (rule_table _ _ _) as [[t|e]|] eqn:Et; [|done..]. cbn [mbind option_bind].
  destruct (CellStore.new _ _) as [st0|] eqn:En; [|done]. cbn [mbind option_bind].
  destruct (register_rules st0 t) as [[st|]|] eqn:Er; [|done..]. cbn [mbind option_bind].
  destruct (gs_bind _) as [a|]; [|done]. destruct (negb _); [done|]. intros [= <- <-].
  pose proof (table_rules _ _ _ _ (ap_limits _ Ha) Et) as Hr.
  destruct (started_ok (cell_store_config config) identity (descriptor_of <$> t) st (ap_store _ Ha) Hn Hi) as [Hs Hid].
  { apply Forall_fmap. eapply Forall_impl; [exact Hr|]. by intros r (? & _). }
  { unfold started. rewrite En. exact Er. }
  eexists st, _. split; [done|]. split; [by apply runtime_config_wf|]. split; [done|]. split; [done|]. split; [|done].
  eapply new_register_view; [apply Ha|exact En|exact Er].
Qed.

(** Start-up never panics on such a configuration, and fails only for a rule
    that is refused, a full rule dictionary or a missing bind address. *)
Lemma boot_total xxh3 pd config identity seed :
  app_ok config → mpsc_capacity_ok (gs_limit_queue_capacity (gossip config)) = true →
  ∃ res, boot xxh3 pd config identity seed = Some res ∧
    match res with
    | inl (rs, table) => is_Some (gs_bind (gossip config)) ∧ rule_table xxh3 pd (limits config) = Some (Ok table)
    | inr (BadConfig MissingGossipBind) => gs_bind (gossip config) = None
    | inr (BadConfig e) => rule_table xxh3 pd (limits config) = Some (Err e)
    | inr RuleDictionaryFull => ∃ table st0, rule_table xxh3 pd (limits config) = Some (Ok table) ∧
        CellStore.new (cell_store_config config) identity = Some st0 ∧ register_rules st0 table = Some None
    end.
Proof.
  intros Ha Hq. destruct (rule_table_loop_ok xxh3 pd (limits config) [] []) as (t & Ht & Hres);
    [pose proof (ap_limits _ Ha); change (zlen []) with 0; lia|constructor|done|done|].
  unfold boot. change (rule_table_loop xxh3 pd [] (limits config) []) with (rule_table xxh3 pd (limits config)) in Ht.
  rewrite Ht. cbn [mbind option_bind]. destruct t as [table|e].
  2:{ eexists. split; [done|]. destruct Hres as (pre & l & suf & _ & _ & _ & [[_ ->]|[_ Hr]]); [done|]. by destruct e. }
  pose proof (table_rules _ _ _ _ (ap_limits _ Ha) Ht) as Hr.
  destruct (new_register_ok (cell_store_config config) identity (descriptor_of <$> table) (ap_store _ Ha))
    as (st0 & r & Hn & Hreg & _).
  { apply Forall_fmap. eapply Forall_impl; [exact Hr|]. by intros x (? & _). }
  rewrite Hn. cbn [mbind option_bind]. unfold register_rules. rewrite Hreg. cbn [mbind option_bind].
  destruct r as [st|]; [|eexists; split; [done|]; by exists table, st0].
  destruct (gs_bind _) as [a|] eqn:Eb; [|by eexists]. rewrite Hq. eexists. split; [done|]. by split.
Qed.

(** What the replicated counters say of a rule and a request: the sum over the
    rule's live buckets of the totals over all origins. *)
Definition cluster_total (xxh3 : list Z → Z) (V : gmap CellName Z) (request : Limiter.LimitRequest) (now : Z) (r : Rule) : Z :=
  let current := as_u32 (now / rule_bucket_millis r) in
  bucket_sum (λ b, total V {| Types.rule_fingerprint := rule_fp r; key_hash := key_of xxh3 request r; bucket := b |})
    (Z.max 0 (current - rule_live_buckets r + 1)) current.

Lemma over_cluster_total xxh3 table V (cs : DashMapStore.t) request now r :
  mirrors (fingerprints (descriptor_of <$> table)) cs V → r ∈ table → 0 ≤ rule_live_buckets r →
  0 ≤ Limiter.lr_hits request →
  over xxh3 cs request now r ↔
    mode r = Enforce ∧ Rules.limit r < Z.min (cluster_total xxh3 V request now r + Limiter.lr_hits request) U64_MAX.
Proof.
  intros [Hok Hread] Hr Hlive Hh. unfold over, total_of, cluster_total.
  rewrite DashMapStore.sum_window_spec; [|exact Hok|lia|unfold U64_MAX; lia].
  rewrite Z.sub_0_r, Z2Nat.id by done. set (current := as_u32 (now / rule_bucket_millis r)).
  set (cnt := λ b, DashMapStore.read cs {| Types.rule_fingerprint := rule_fp r; key_hash := key_of xxh3 request r; bucket := b |}).
  assert (∀ b, cnt b = total V {| Types.rule_fingerprint := rule_fp r; key_hash := key_of xxh3 request r; bucket := b |}) as Hc.
  { intros b. unfold cnt. etrans; [apply Hread|]. apply decide_True. cbn [Types.rule_fingerprint].
    apply elem_of_list_to_set, list_elem_of_fmap. exists (descriptor_of r). split; [done|]. by apply list_elem_of_fmap_2. }
  assert (0 ≤ bucket_sum cnt (Z.max 0 (current - rule_live_buckets r + 1)) current) as Hpos
    by (apply bucket_sum_nonneg; intros b; apply (DashMapStore.ok_read cs _ Hok)).
  match goal with |- context [bucket_sum (λ b, total V _) ?lo ?hi] =>
    replace (bucket_sum (λ b, total V {| Types.rule_fingerprint := rule_fp r; key_hash := key_of xxh3 request r; bucket := b |}) lo hi)
      with (bucket_sum cnt lo hi) end.
  2:{ unfold bucket_sum. f_equal. apply list_fmap_ext. intros i b _. apply Hc. }
  unfold saturating_add, U64_MAX. split; intros [? ?]; (split; [done|]); lia.
Qed.

Lemma checked_in_table xxh3 table request r : r ∈ checked_rules xxh3 table request → r ∈ table.
Proof.
  unfold checked_rules, matching. intros Hr. apply (subseteq_take _ _ _) in Hr.
  apply list_elem_of_In, filter_In in Hr as [Hr _]. by apply list_elem_of_In.
Qed.

(** The counts a server of this configuration holds: every arm its loop
    dispatched, replayed on the bounded view, from the registered rules. *)
Definition replicated (hmac : list Z → list Z → list Z) (config : AppConfig) (identity : NodeIdentity) (table : list Rule)
    (rs : @RunState DashMapStore.t) (evs : list (Env * Ready)) : gmap CellName Z :=
  let scfg := cell_store_config config in
  vw_cells (run_view hmac scfg identity rs evs (started_view scfg identity (descriptor_of <$> table))).

(** C2: the server limits by the whole cluster's count.  A server that boots from
    a valid configuration runs on any sequence of wake-ups without panicking.
    Its cell store then reads exactly the counts [V] that the requests, the
    decoded datagrams and the ticks which its loop dispatched make on the
    bounded view: requests add to its own cells, the cells of a datagram raise
    those of their origins, ticks expire, within the configured capacities.  And
    between any two wake-ups a request inside the cardinality envelope is
    refused exactly when one of the rules consulted for it is enforcing and the
    sum over that rule's live buckets of the counts in [V] of all origins, plus
    the request's hits, exceeds the rule's limit (saturating at [u64::MAX]). *)
Theorem server_limits_cluster_totals xxh3 parse_duration hmac config identity seed rs table evs
    {W} (counts : W → DashMapStore.t) (record : W → RecordCall → W * bool) :
  tags_ok hmac → app_ok config → uint 128 (node_id identity) → uint 32 (ni_incarnation identity) →
  boot xxh3 parse_duration config identity seed = Some (Ok (rs, table)) →
  Forall (event_ok (GossipRuntime.config (rs_self rs))) evs → zlen evs ≤ 2 ^ 50 →
  let V := replicated hmac config identity table rs evs in
  ∃ rs' effs flow, run hmac rs evs = Some (rs', effs, flow) ∧
    (flow = Continue → (∀ n, CellMerge.read (store (rs_self rs')) n = Some (V !! n)) ∧
     ∀ w notes request now,
       counts w = aggregates (rs_self rs') → 0 ≤ Limiter.lr_hits request →
       violates_cardinality request (cardinality_limits config) = false →
       (∃ ctx, evaluate counts record xxh3 table (cardinality_limits config) w notes request now =
          Some (w, notes, Reject GlobalLimit (Some ctx))) ↔
       ∃ r, r ∈ checked_rules xxh3 table request ∧ mode r = Enforce ∧
         Rules.limit r < Z.min (cluster_total xxh3 V request now r + Limiter.lr_hits request) U64_MAX).
Proof.
  intros Hmac Ha Hn Hi Hboot Hev Hlen V0.
  destruct (boot_ok _ _ _ _ _ _ _ Ha Hn Hi Hboot) as (st & cfg & Ht & Hwf & Hbp & Hs & Hv0 & Hid & ->).
  pose proof (table_rules _ _ _ _ (ap_limits _ Ha) Ht) as Hrules. rewrite Forall_forall in Hrules.
  assert (narrow (C := Count_u32)) as Hw by (vm_compute; discriminate).
  assert (loop_inv hmac _ _ (from_parts_with_admin cfg st (∅ : DashMapStore.t) true) ∅) as Hl
    by (apply from_parts_ok; [exact Hwf|exact Hs|done|done]).
  destruct (run_ok Hw hmac Hmac _ _ evs
    {| rs_self := from_parts_with_admin cfg st (∅ : DashMapStore.t) true; peer_events_done := false |} ∅ Hl Hev)
    as (rs' & effs & flow & V & He & _ & Hl' & _); [simpl; by rewrite Hbp|].
  exists rs', effs, flow. split; [done|]. intros Hf. destruct (Hl' Hf) as [Hri _ _ _ Hm].
  assert (V = V0) as ->.
  { eapply views_counts; [apply Hri|]. eapply run_follows; [exact Hw|exact Hmac|exact He|exact Hl|exact Hev| |exact Hv0].
    simpl. by rewrite Hbp. }
  split; [intros n; apply read_ok; by eapply store_inv_inv, Hri|].
  intros w notes request now Hcounts Hh Hv.
  assert (∀ r, r ∈ checked_rules xxh3 table request →
    over xxh3 (counts w) request now r ↔ mode r = Enforce ∧
      Rules.limit r < Z.min (cluster_total xxh3 V0 request now r + Limiter.lr_hits request) U64_MAX) as Hover.
  { intros r Hr. assert (r ∈ table) as Hin by (by eapply checked_in_table).
    rewrite Hcounts. eapply over_cluster_total; try done. by apply Hrules. }
  assert (buckets_ok table) as Hb.
  { apply Forall_forall. intros r Hr. by apply Hrules. }
  destruct (evaluate_ok counts record xxh3 table (cardinality_limits config) w notes request now Hb Hv)
    as [(pre & r & suf & ctx & Hchk & _ & Ho & _ & Heval)|(Hall & notes' & q & _ & Heval)].
  - split; [|by exists ctx]. intros _. assert (r ∈ checked_rules xxh3 table request) as Hr.
    { rewrite Hchk. apply elem_of_app. right. by left. }
    exists r. split; [done|]. by apply Hover.
  - split; [intros [ctx Hc]; rewrite Heval in Hc; discriminate Hc|].
    intros (r & Hr & Ho). rewrite Forall_forall in Hall. destruct (Hall r Hr). by apply Hover.
Qed.

(** ** A small server *)
Definition small_app : AppConfig := {|
  envoy_bind := None; admin_bind := None;
  storage := {| sc_max_cells := Some 4; sc_rule_dictionary_capacity := 4; sc_node_dictionary_capacity := 4;
                sc_local_dirty_capacity := 2; sc_forwarded_dirty_capacity := 2; sc_peer_capacity := 1;
                sc_max_descriptor_count := 16; sc_max_descriptor_bytes := 512; sc_max_key_bytes := 128 |};
  limits := [sample_limit (lit "per-ip") (lit "10r/s")];
  runtime := {| node_id_seed := None; rt_rng_seed := Some 1 |};
  discovery := {| self_addr := None; namespace_allow := []; service_allow := [] |};
  gossip := {| gs_bind := Some (V4 0 7946); gs_tick_interval := 500 * 1000000; gs_fanout := 3;
               gs_max_payload_bytes := 1400; gs_max_cells_per_frame := 64; gs_max_cells_per_tick := 64;
               gs_send_queue_capacity := 4; gs_limit_queue_capacity := 16; gs_cluster_id_hash := 1;
               gs_target_err_bps := 100; gs_min_emit_interval := 5 * 1000000 |} |}.

Definition ip_request (hits : Z) : Limiter.LimitRequest :=
  {| Limiter.lr_domain := lit "edge"; Limiter.lr_descriptors := sample_ds; Limiter.lr_hits := hits |}.

Lemma server_limits_cluster_totals_witness :
  ∃ rs table, boot sample_hash (λ _, None) small_app sample_id 7 = Some (Ok (rs, table)) ∧
  let V := replicated sample_hmac small_app sample_id table rs [(sent_at 3000, quiet <| rd_tick := true |>)] in
  ∃ rs' effs flow,
    run sample_hmac rs [(sent_at 3000, quiet <| rd_tick := true |>)] = Some (rs', effs, flow) ∧
    (flow = Continue → (∀ n, CellMerge.read (store (rs_self rs')) n = Some (V !! n)) ∧
       let w := aggregates (rs_self rs') in
       (∃ ctx, evaluate (λ w, w) (λ w _, (w, true)) sample_hash table (cardinality_limits small_app)
                 w (Build_Notes 0 0 0) (ip_request 11) 3000 =
          Some (w, Build_Notes 0 0 0, Reject GlobalLimit (Some ctx))) ↔
       ∃ r, r ∈ checked_rules sample_hash table (ip_request 11) ∧ mode r = Enforce ∧
         Rules.limit r < Z.min (cluster_total sample_hash V (ip_request 11) 3000 r + 11) U64_MAX).
Proof.
  assert (∃ rs table, boot sample_hash (λ _, None) small_app sample_id 7 = Some (Ok (rs, table))) as (rs & table & Hboot).
  { do 2 eexists. vm_compute. reflexivity. }
  exists rs, table. split; [exact Hboot|].
  destruct (server_limits_cluster_totals sample_hash (λ _, None) sample_hmac small_app sample_id 7 rs table
    [(sent_at 3000, quiet <| rd_tick := true |>)] (λ w : DashMapStore.t, w) (λ w _, (w, true)))
    as (rs' & effs & flow & He & Hdec);
    [apply sample_tags_ok| |unfold uint; simpl; lia..|exact Hboot| |vm_compute; discriminate|].
  - split; vm_compute; repeat split; (reflexivity || (let H := fresh in intros H; discriminate H)).
  - apply Forall_cons_2; [|constructor]. split; [unfold uint; simpl; lia|]. split; discriminate.
  - exists rs', effs, flow. split; [exact He|]. intros Hf. destruct (Hdec Hf) as [Hread Hd]. split; [exact Hread|]. intros w.
    apply (Hd w (Build_Notes 0 0 0) (ip_request 11) 3000); [reflexivity|vm_compute; discriminate|vm_compute; reflexivity].
Defined.
