(* ===== verification/Discovery.v ===== *)
(** * Peer discovery

    [discovery.rs] and [discovery/kubernetes.rs]: which Services are watched,
    the peers an EndpointSlice stands for, the per-slice accounting of one
    Service, and the streams that turn watch events into peer events.  The API
    objects have the fields the code reads.  What the watches deliver, and the
    order in which a hash set or map is iterated, are inputs of each step. *)

From stdpp Require Import strings.
From S2P Require Import Prelude Bytes Str Runtime NetAddr ServerConfig RuntimeNet.

(** ** API objects and watch events *)
Record ObjectMeta := { meta_name : option str; meta_namespace : option str }.
Record ServicePort := { sp_name : option str; sp_protocol : option str }.
Record ServiceSpec := { spec_ports : option (list ServicePort) }.
Record Service := { svc_metadata : ObjectMeta; svc_spec : option ServiceSpec }.
Record EndpointPort := { ep_name : option str; ep_protocol : option str; ep_port : option Z }.
Record EndpointConditions := { ready : option bool }.
Record Endpoint := { conditions : option EndpointConditions; addresses : list str }.
Record EndpointSlice := { es_metadata : ObjectMeta; es_ports : option (list EndpointPort); es_endpoints : list Endpoint }.

Inductive Event (A : Type) := Apply (x : A) | Delete (x : A) | Init | InitApply (x : A) | InitDone.
Arguments Apply {A}. Arguments Delete {A}. Arguments Init {A}. Arguments InitApply {A}. Arguments InitDone {A}.

Inductive ClientError := Api (code : Z) | OtherClientError.
Inductive WatcherError :=
  | InitialListFailed (e : ClientError)
  | WatchStartFailed (e : ClientError)
  | WatchFailed (e : ClientError)
  | WatchError (code : Z)
  | NoResourceVersion.

Definition is_fatal_status_code (code : Z) : bool := (code =? 401) || (code =? 403) || (code =? 404).

Definition is_fatal_watcher_error (err : WatcherError) : bool :=
  match err with
  | InitialListFailed e | WatchStartFailed e | WatchFailed e =>
    match e with Api code => is_fatal_status_code code | OtherClientError => false end
  | WatchError code => is_fatal_status_code code
  | NoResourceVersion => false
  end.

(** ** Which Services *)
Definition DEFAULT_GABION_SERVICE_NAME : str := lit "gabion".

Definition is_gabion_udp (name protocol : option str) : bool :=
  bool_decide (name = Some DEFAULT_GABION_SERVICE_NAME) && bool_decide (protocol = Some (lit "UDP")).

Definition has_gabion_udp_port (service : Service) : bool :=
  existsb (λ p, is_gabion_udp (sp_name p) (sp_protocol p))
    (match svc_spec service with Some spec => default [] (spec_ports spec) | None => [] end).

Definition matches_allow (name : str) (allow : list str) : bool :=
  let entries := filter (λ s, s ≠ []) allow in
  bool_decide (entries = []) || existsb (λ s, bool_decide (s = name)) entries.

Record Target := { tg_namespace : str; tg_service_name : str }.
#[export] Instance Target_eq_dec : EqDecision Target.
Proof. solve_decision. Defined.
#[export] Instance Target_countable : Countable Target.
Proof.
  apply (inj_countable' (λ t, (tg_namespace t, tg_service_name t)) (λ p, {| tg_namespace := p.1; tg_service_name := p.2 |})).
  by intros [].
Defined.

Definition take_from (service : Service) : option Target :=
  namespace ← meta_namespace (svc_metadata service);
  name ← meta_name (svc_metadata service);
  Some {| tg_namespace := namespace; tg_service_name := name |}.

Inductive ServiceChange := Track (t : Target) | Untrack (t : Target) | SvcInitDone | Ignore.

Definition service_change (event : Event Service) (allow : list str) : ServiceChange :=
  let classify svc present :=
    match take_from svc with
    | None => Ignore
    | Some target =>
      if negb (matches_allow (tg_service_name target) allow) then Ignore
      else if present : bool then Track target else Untrack target
    end in
  match event with
  | Apply svc | InitApply svc => classify svc (has_gabion_udp_port svc)
  | Delete svc => classify svc false
  | Init => Ignore
  | InitDone => SvcInitDone
  end.

(** The namespaces that [watch_services] watches. *)
Definition watch_services (default_namespace : str) (namespace_allow : list str) : list str :=
  let apis := filter (λ s, s ≠ []) namespace_allow in
  if bool_decide (apis = []) then [default_namespace] else apis.

(** ** The peers of an EndpointSlice *)
Definition select_gabion_udp_port (slice : EndpointSlice) : option Z :=
  p ← List.find (λ p, is_gabion_udp (ep_name p) (ep_protocol p)) (default [] (es_ports slice));
  p ← ep_port p;
  if (0 <=? p) && (p <=? U16_MAX) then Some p else None.

Definition is_ready (e : Endpoint) : bool := default true (c ← conditions e; ready c).

Definition peer_of (port : Z) (self_addr : option SocketAddr) (addr : str) : option SocketAddr :=
  ip ← parse_ip addr;
  let sock := SocketAddr_new ip port in
  if bool_decide (Some sock = self_addr) then None else Some sock.

Definition peers_from_endpoint_slice (slice : EndpointSlice) (self_addr : option SocketAddr) : gset SocketAddr :=
  match select_gabion_udp_port slice with
  | None => ∅
  | Some port => list_to_set (omap (peer_of port self_addr) (List.filter is_ready (es_endpoints slice) ≫= addresses))
  end.

(** ** Per-slice accounting *)

(** The order of iteration of the hash collections, chosen anew at each use. *)
Record Order := {
  set_order : gset SocketAddr → list SocketAddr;
  map_order : gmap (list Z) (gset SocketAddr) → list (gset SocketAddr);
}.
Definition order_ok (o : Order) : Prop :=
  (∀ X, set_order o X ≡ₚ elements X) ∧ (∀ m, map_order o m ≡ₚ (map_to_list m).*2).

Module EndpointSlicePeerSet.
(** [by_slice]: the peers of each slice, by the slice's name. *)
Abbreviation t := (gmap (list Z) (gset SocketAddr)).
Record PeerSetDiff := { diff_added : list SocketAddr; diff_removed : list SocketAddr }.

Definition apply (o : Order) (by_slice : t) (slice : EndpointSlice) (self_addr : option SocketAddr) :
    t * PeerSetDiff :=
  match meta_name (es_metadata slice) with
  | None => (by_slice, {| diff_added := []; diff_removed := [] |})
  | Some name =>
    let new := peers_from_endpoint_slice slice self_addr in
    let old := default ∅ (by_slice !! name) in
    (<[name := new]> by_slice,
     {| diff_removed := filter (λ p, p ∉ new) (set_order o old);
        diff_added := filter (λ p, p ∉ old) (set_order o new) |})
  end.

Definition delete (o : Order) (by_slice : t) (slice : EndpointSlice) : t * list SocketAddr :=
  match meta_name (es_metadata slice) with
  | None => (by_slice, [])
  | Some name => (base.delete name by_slice, default [] (set_order o <$> by_slice !! name))
  end.

Definition drain_peers (o : Order) (by_slice : t) : t * list SocketAddr :=
  (∅, map_order o by_slice ≫= set_order o).
End EndpointSlicePeerSet.

(** ** One Service's stream *)
Abbreviation Out := (PeerEvent + WatcherError)%type.

(** A suspended [watch_target]: what it still has to yield, and whether it
    returns after that.  [cancelled] is the state of the cancel channel. *)
Record Watch := {
  w_target : Target;
  w_cancelled : bool;
  by_slice : EndpointSlicePeerSet.t;
  w_out : list Out;
  w_done : bool;
}.

#[export] Instance eta_watch : Eta Watch := λ x, {|
  w_target := w_target x; w_cancelled := w_cancelled x; by_slice := by_slice x; w_out := w_out x; w_done := w_done x |}.

Definition fresh_watch (target : Target) : Watch :=
  {| w_target := target; w_cancelled := false; by_slice := ∅; w_out := []; w_done := false |}.

(** One turn of its loop: the cancel channel first, else the next watch event. *)
Definition watch_target (o : Order) (self_addr : option SocketAddr) (w : Watch)
    (event : option (Event EndpointSlice + WatcherError)) : Watch :=
  if w_cancelled w then
    let '(ps, peers) := EndpointSlicePeerSet.drain_peers o (by_slice w) in
    w <| by_slice := ps |> <| w_out := (λ p, inl (Removed p)) <$> peers |> <| w_done := true |>
  else
    match event with
    | None => w <| w_done := true |>
    | Some (inr err) => w <| w_out := [inr err] |> <| w_done := is_fatal_watcher_error err |>
    | Some (inl (Init | InitDone)) => w
    | Some (inl (Apply slice | InitApply slice)) =>
      let '(ps, diff) := EndpointSlicePeerSet.apply o (by_slice w) slice self_addr in
      w <| by_slice := ps |>
        <| w_out := ((λ p, inl (Removed p)) <$> EndpointSlicePeerSet.diff_removed diff) ++ ((λ p, inl (Added p)) <$> EndpointSlicePeerSet.diff_added diff) |>
    | Some (inl (Delete slice)) =>
      let '(ps, peers) := EndpointSlicePeerSet.delete o (by_slice w) slice in
      w <| by_slice := ps |> <| w_out := (λ p, inl (Removed p)) <$> peers |>
    end.

(** Polling it: what is left to yield comes before the next turn. *)
Definition poll_watch (o : Order) (self_addr : option SocketAddr) (w : Watch)
    (event : option (Event EndpointSlice + WatcherError)) : Watch * list Out :=
  match w_out w with
  | e :: out => (w <| w_out := out |>, [e])
  | [] => if w_done w then (w, []) else (watch_target o self_addr w event, [])
  end.

(** ** The merged stream *)

(** [watched] maps a target to the stream whose cancel channel it holds. *)
Record Discovery := {
  d_self_addr : option SocketAddr;
  d_service_allow : list str;
  watched : gmap Target nat;
  endpoints : list Watch;
  zero_match_warned : bool;
  d_done : bool;
}.

#[export] Instance eta_discovery : Eta Discovery := λ x, {|
  d_self_addr := d_self_addr x; d_service_allow := d_service_allow x; watched := watched x;
  endpoints := endpoints x; zero_match_warned := zero_match_warned x; d_done := d_done x |}.

(** The state of [peer_events] when the loop is entered; without a client the
    stream ends at once. *)
Definition peer_events (config : DiscoveryConfig) (client : bool) : Discovery := {|
  d_self_addr := self_addr config; d_service_allow := service_allow config;
  watched := ∅; endpoints := []; zero_match_warned := false; d_done := negb client |}.

Inductive Input :=
  | ServiceItem (item : Event Service + WatcherError)
  | EndpointPoll (i : nat) (o : Order) (item : option (Event EndpointSlice + WatcherError)).

Definition on_service (self : Discovery) (item : Event Service + WatcherError) : Discovery * list Out :=
  match item with
  | inr err => (self <| d_done := is_fatal_watcher_error err |>, [inr err])
  | inl event =>
    match service_change event (d_service_allow self) with
    | Track target =>
      match watched self !! target with
      | Some _ => (self, [])
      | None =>
        (self <| endpoints := endpoints self ++ [fresh_watch target] |>
              <| watched := <[target := length (endpoints self)]> (watched self) |>, [])
      end
    | Untrack target =>
      match watched self !! target with
      | Some i =>
        (self <| watched := delete target (watched self) |>
              <| endpoints := alter (λ w, w <| w_cancelled := true |>) i (endpoints self) |>, [])
      | None => (self, [])
      end
    | SvcInitDone =>
      (self <| zero_match_warned := zero_match_warned self || bool_decide (watched self = ∅) |>, [])
    | Ignore => (self, [])
    end
  end.

Definition step (self : Discovery) (input : Input) : Discovery * list Out :=
  if d_done self then (self, []) else
  match input with
  | ServiceItem item => on_service self item
  | EndpointPoll i o item =>
    match endpoints self !! i with
    | None => (self, [])
    | Some w =>
      let '(w, out) := poll_watch o (d_self_addr self) w item in
      (self <| endpoints := <[i := w]> (endpoints self) |>, out)
    end
  end.

Fixpoint discover (self : Discovery) (inputs : list Input) : Discovery * list Out :=
  match inputs with
  | [] => (self, [])
  | input :: inputs =>
    let '(self, out) := step self input in
    let '(self, outs) := discover self inputs in
    (self, out ++ outs)
  end.

(** The server's [discovery_stream]: errors are logged and skipped. *)
Definition discovery_stream (outs : list Out) : list PeerEvent :=
  omap (λ r, match r with inl event => Some event | inr _ => None end) outs.
