(* ===== verification/DiscoverySpec.v ===== *)
(** * What discovery promises

    The peer events that discovery yields, folded into a set of members, against
    the slices the watches delivered: when every address belongs to one slice,
    the members are the ready endpoints of the tracked Services; when it does
    not, or when a watch starts over, they are not. *)

From stdpp Require Import strings.
From S2P Require Import Prelude Bytes Str Runtime NetAddr ServerConfig RuntimeNet Discovery.
Implicit Types (a : SocketAddr) (w : Watch) (d : Discovery) (o : Order) (m : EndpointSlicePeerSet.t).

(** ** Folding peer events *)
Lemma member_removed a b ps : member a b (Removed <$> ps) = b && negb (bool_decide (a ∈ ps)).
Proof.
  revert b. induction ps as [|p ps IH]; intros b; [by rewrite bool_decide_false, andb_true_r by apply not_elem_of_nil|].
  rewrite fmap_cons. change (member a b (Removed p :: (Removed <$> ps)))
    with (member a (negb (bool_decide (a = p)) && b) (Removed <$> ps)). rewrite IH.
  rewrite (bool_decide_ext (a ∈ p :: ps) (a = p ∨ a ∈ ps) (elem_of_cons _ _ _)), bool_decide_or.
  by destruct b, (bool_decide (a = p)), (bool_decide (a ∈ ps)).
Qed.

Lemma member_added a b ps : member a b (Added <$> ps) = b || bool_decide (a ∈ ps).
Proof.
  revert b. induction ps as [|p ps IH]; intros b; [by rewrite bool_decide_false, orb_false_r by apply not_elem_of_nil|].
  rewrite fmap_cons. change (member a b (Added p :: (Added <$> ps)))
    with (member a (bool_decide (a = p) || b) (Added <$> ps)). rewrite IH.
  rewrite (bool_decide_ext (a ∈ p :: ps) (a = p ∨ a ∈ ps) (elem_of_cons _ _ _)), bool_decide_or.
  by destruct b, (bool_decide (a = p)), (bool_decide (a ∈ ps)).
Qed.

Definition event_addr (e : PeerEvent) : SocketAddr := match e with Added x | Removed x => x end.

Lemma member_other a b l : Forall (λ e, event_addr e ≠ a) l → member a b l = b.
Proof.
  intros Hl. revert b. induction Hl as [|e l He _ IH]; intros b; [done|].
  destruct e as [x|x]; simpl in He; cbn [member foldl] in *;
    rewrite (bool_decide_false (a = x)) by congruence; apply IH.
Qed.

Lemma stream_app l1 l2 : discovery_stream (l1 ++ l2) = discovery_stream l1 ++ discovery_stream l2.
Proof. apply omap_app. Qed.
Lemma stream_inl {A} (f : A → PeerEvent) l : discovery_stream ((λ x, inl (f x)) <$> l) = f <$> l.
Proof. induction l as [|x l IH]; [done|]. cbn in *. by f_equal. Qed.

(** ** What a watch has cached *)
Definition cached m : gset SocketAddr := ⋃ (map_to_list m).*2.

Lemma elem_of_cached m a : a ∈ cached m ↔ ∃ n X, m !! n = Some X ∧ a ∈ X.
Proof.
  unfold cached. rewrite elem_of_union_list. split.
  - intros (X & ([n X'] & -> & Hn%elem_of_map_to_list)%list_elem_of_fmap & Ha). by exists n, X'.
  - intros (n & X & Hn & Ha). exists X. split; [|done]. apply list_elem_of_fmap. exists (n, X).
    split; [done|by apply elem_of_map_to_list].
Qed.

Lemma cached_empty a : a ∉ cached ∅.
Proof. by intros (n & X & ?%lookup_empty_Some & _)%elem_of_cached. Qed.

(** An address belongs to one slice. *)
Definition slices_disjoint m : Prop :=
  ∀ n1 n2 X1 X2, m !! n1 = Some X1 → m !! n2 = Some X2 → n1 ≠ n2 → X1 ## X2.

(** The rest of the slices, besides [n]. *)
Lemma cached_split m n a : a ∈ cached m ↔ a ∈ default ∅ (m !! n) ∨ a ∈ cached (delete n m).
Proof.
  rewrite !elem_of_cached. split.
  - intros (n' & X & Hn & Ha). destruct (decide (n' = n)) as [->|Hne]; [left; by rewrite Hn|].
    right. exists n', X. split; [by rewrite lookup_delete_ne|done].
  - intros [Ha|(n' & X & [_ Hn]%lookup_delete_Some & Ha)]; [|by exists n', X].
    destruct (m !! n) as [X|] eqn:E; [by exists n, X|by apply elem_of_empty in Ha].
Qed.

Lemma cached_insert m n X a : a ∈ cached (<[n := X]> m) ↔ a ∈ X ∨ a ∈ cached (delete n m).
Proof. rewrite (cached_split _ n), lookup_insert_eq, delete_insert_eq. done. Qed.

Lemma cached_apart m n a : slices_disjoint m → a ∈ default ∅ (m !! n) → a ∉ cached (delete n m).
Proof.
  intros Hd Ha (n' & X & [Hne Hn]%lookup_delete_Some & Hx)%elem_of_cached.
  destruct (m !! n) as [Y|] eqn:E; [|by apply elem_of_empty in Ha]. by apply (Hd n n' Y X E Hn Hne a).
Qed.

Lemma elem_of_set_order o X a : order_ok o → a ∈ set_order o X ↔ a ∈ X.
Proof. intros [Ho _]. by rewrite (Ho X), elem_of_elements. Qed.

Lemma elem_of_drained o m a : order_ok o → a ∈ (EndpointSlicePeerSet.drain_peers o m).2 ↔ a ∈ cached m.
Proof.
  intros Ho. unfold EndpointSlicePeerSet.drain_peers. cbn [snd]. rewrite list_elem_of_bind, elem_of_cached. split.
  - intros (X & Ha%(elem_of_set_order _ _ _ Ho) & HX). rewrite (proj2 Ho m) in HX.
    apply list_elem_of_fmap in HX as ([n X'] & -> & Hn%elem_of_map_to_list). by exists n, X'.
  - intros (n & X & Hn & Ha). exists X. split; [by apply elem_of_set_order|]. rewrite (proj2 Ho m).
    apply list_elem_of_fmap. exists (n, X). split; [done|by apply elem_of_map_to_list].
Qed.

(** ** One turn of a watch *)
Section turn.
Context (self : option SocketAddr).
Abbreviation peers_of := (λ s, peers_from_endpoint_slice s self).

(** The latest version of each slice that the events leave. *)
Definition note_slice (sl : gmap (list Z) EndpointSlice) (e : Event EndpointSlice) : gmap (list Z) EndpointSlice :=
  match e with
  | Apply s | InitApply s => match meta_name (es_metadata s) with Some n => <[n := s]> sl | None => sl end
  | Delete s => match meta_name (es_metadata s) with Some n => delete n sl | None => sl end
  | Init | InitDone => sl
  end.
Definition latest : list (Event EndpointSlice) → gmap (list Z) EndpointSlice := foldl note_slice ∅.

Lemma turn_slices o w e sl :
  w_cancelled w = false → by_slice w = peers_of <$> sl →
  by_slice (watch_target o self w (Some (inl e))) = peers_of <$> note_slice sl e.
Proof.
  intros Hc Hw. unfold watch_target. rewrite Hc.
  destruct e as [s|s| |s|]; unfold EndpointSlicePeerSet.apply, EndpointSlicePeerSet.delete; simpl; try done;
    destruct (meta_name (es_metadata s)) as [n|]; simpl; try done; rewrite Hw;
    by rewrite ?fmap_insert, ?fmap_delete.
Qed.

(** An applied slice: its old peers go, its new ones come, the rest stays. *)
Lemma apply_member o m s a b :
  order_ok o → slices_disjoint m → b = bool_decide (a ∈ cached m) →
  let '(m', diff) := EndpointSlicePeerSet.apply o m s self in
  member a b ((Removed <$> EndpointSlicePeerSet.diff_removed diff) ++ (Added <$> EndpointSlicePeerSet.diff_added diff)) =
    bool_decide (a ∈ cached m').
Proof.
  intros Ho Hd ->. unfold EndpointSlicePeerSet.apply. destruct (meta_name _) as [n|]; [|done]. cbn [EndpointSlicePeerSet.diff_removed EndpointSlicePeerSet.diff_added].
  rewrite member_app, member_removed, member_added.
  pose proof (cached_split m n a) as H1. pose proof (cached_insert m n (peers_of s) a) as H2.
  pose proof (cached_apart m n a Hd) as H3.
  repeat match goal with |- context [bool_decide (a ∈ filter ?P ?l)] =>
    rewrite (bool_decide_ext (a ∈ filter P l) _ (list_elem_of_filter P l a)), bool_decide_and,
      (bool_decide_ext (a ∈ set_order _ _) _ (elem_of_set_order _ _ _ Ho)) end.
  rewrite (bool_decide_ext _ _ H1), (bool_decide_ext _ _ H2), !bool_decide_or, !bool_decide_not.
  destruct (decide (a ∈ default ∅ (m !! n))) as [Hold|Hold], (decide (a ∈ peers_of s)) as [Hnew|Hnew];
    rewrite ?(bool_decide_true (a ∈ default ∅ _)), ?(bool_decide_false (a ∈ default ∅ _)),
      ?(bool_decide_true (a ∈ peers_of s)), ?(bool_decide_false (a ∈ peers_of s)) by done;
    try rewrite (bool_decide_false (a ∈ cached (delete n m))) by (by apply H3); try done;
    by destruct (bool_decide (a ∈ cached (delete n m))).
Qed.

Lemma delete_member o m s a b :
  order_ok o → slices_disjoint m → b = bool_decide (a ∈ cached m) →
  let '(m', gone) := EndpointSlicePeerSet.delete o m s in
  member a b (Removed <$> gone) = bool_decide (a ∈ cached m').
Proof.
  intros Ho Hd ->. unfold EndpointSlicePeerSet.delete. destruct (meta_name _) as [n|]; [|done].
  rewrite member_removed. pose proof (cached_split m n a) as H1. pose proof (cached_apart m n a Hd) as H3.
  rewrite (bool_decide_ext _ _ H1), bool_decide_or.
  assert (a ∈ default [] (set_order o <$> m !! n) ↔ a ∈ default ∅ (m !! n)) as H4.
  { destruct (m !! n) as [X|]; simpl; [by apply elem_of_set_order|]. by rewrite elem_of_nil, elem_of_empty. }
  rewrite (bool_decide_ext _ _ H4). destruct (decide (a ∈ default ∅ (m !! n))) as [Hold|Hold].
  - rewrite (bool_decide_true (a ∈ default ∅ _)), bool_decide_false by (done || by apply H3). done.
  - rewrite (bool_decide_false (a ∈ default ∅ _)) by done. by destruct (bool_decide _).
Qed.

Lemma turn_member o w e a b :
  order_ok o → slices_disjoint (by_slice w) → w_out w = [] → b = bool_decide (a ∈ cached (by_slice w)) →
  let w' := watch_target o self w e in
  member a b (discovery_stream (w_out w')) = bool_decide (a ∈ cached (by_slice w')).
Proof.
  intros Ho Hd Hout Hb. unfold watch_target. destruct (w_cancelled w).
  { pose proof (elem_of_drained o (by_slice w) a Ho) as Hdr. unfold EndpointSlicePeerSet.drain_peers in *. cbn [snd] in Hdr. cbn [w_out by_slice set_field].
    rewrite stream_inl, member_removed, (bool_decide_ext _ _ Hdr), Hb.
    rewrite (bool_decide_false (a ∈ cached ∅)); [by destruct (bool_decide _)|].
    apply cached_empty. }
  destruct e as [[[s|s| |s|]|err]|]; simpl; rewrite ?Hout; try done.
  1,3: pose proof (apply_member o (by_slice w) s a b Ho Hd Hb) as Hm;
    destruct (EndpointSlicePeerSet.apply o (by_slice w) s self) as [m' diff]; simpl;
    by rewrite stream_app, !stream_inl.
  pose proof (delete_member o (by_slice w) s a b Ho Hd Hb) as Hm.
  destruct (EndpointSlicePeerSet.delete o (by_slice w) s) as [m' gone]; simpl. by rewrite stream_inl.
Qed.
End turn.

(** ** Every peer is a ready endpoint, and not this node *)
Lemma elem_of_peers s self a :
  a ∈ peers_from_endpoint_slice s self ↔ Some a ≠ self ∧
    ∃ port e text ip, select_gabion_udp_port s = Some port ∧ e ∈ es_endpoints s ∧ is_ready e = true ∧
      text ∈ addresses e ∧ parse_ip text = Some ip ∧ a = SocketAddr_new ip port.
Proof.
  unfold peers_from_endpoint_slice. destruct (select_gabion_udp_port s) as [port|].
  2:{ rewrite elem_of_empty. split; [done|]. by intros (_ & ? & ? & ? & ? & ? & _). }
  rewrite elem_of_list_to_set, list_elem_of_omap. unfold peer_of. split.
  - intros (text & (e & Ht & He)%list_elem_of_bind & Hp).
    apply list_elem_of_In, filter_In in He as [He%list_elem_of_In Hr].
    destruct (parse_ip text) as [ip|] eqn:Ei; [|done]. cbn [mbind option_bind] in Hp.
    case_bool_decide as Hs; [done|]. injection Hp as <-. split; [done|]. by exists port, e, text, ip.
  - intros (Hs & port' & e & text & ip & [= <-] & He & Hr & Ht & Hi & ->). exists text. split.
    + apply list_elem_of_bind. exists e. split; [done|]. apply list_elem_of_In, filter_In. by split; [apply list_elem_of_In|].
    + rewrite Hi. cbn [mbind option_bind]. by rewrite bool_decide_false.
Qed.

Lemma turn_addrs o self w e (P : SocketAddr → Prop) :
  order_ok o → (∀ a, a ∈ cached (by_slice w) → P a) →
  (∀ s, (e = Some (inl (Apply s)) ∨ e = Some (inl (InitApply s))) → ∀ a, a ∈ peers_from_endpoint_slice s self → P a) →
  w_out w = [] →
  let w' := watch_target o self w e in
  Forall (λ x, P (event_addr x)) (discovery_stream (w_out w')) ∧ (∀ a, a ∈ cached (by_slice w') → P a).
Proof.
  intros Ho Hc He Hout. unfold watch_target. destruct (w_cancelled w).
  { cbn [w_out by_slice set_field EndpointSlicePeerSet.drain_peers]. rewrite stream_inl. split.
    - apply Forall_fmap, Forall_forall. intros a Ha. apply Hc. by apply (elem_of_drained o).
    - by intros a ?%cached_empty. }
  assert (∀ s, (e = Some (inl (Apply s)) ∨ e = Some (inl (InitApply s))) →
    let '(m, diff) := EndpointSlicePeerSet.apply o (by_slice w) s self in
    Forall (λ x, P (event_addr x)) (discovery_stream
      (((λ p, inl (Removed p)) <$> EndpointSlicePeerSet.diff_removed diff) ++
       ((λ p, inl (Added p)) <$> EndpointSlicePeerSet.diff_added diff))) ∧ ∀ a, a ∈ cached m → P a) as Happ.
  { intros s Hs. specialize (He s Hs). unfold EndpointSlicePeerSet.apply. destruct (meta_name _) as [n|]; [|done].
    cbn [EndpointSlicePeerSet.diff_removed EndpointSlicePeerSet.diff_added].
    rewrite stream_app, !stream_inl. split.
    - apply Forall_app. split; apply Forall_fmap, Forall_forall;
        intros a [_ Ha%elem_of_set_order]%list_elem_of_filter; try done; simpl; [|by apply He].
      apply Hc, (cached_split _ n). by left.
    - intros a [Ha|Ha]%cached_insert; [by apply He|]. apply Hc, (cached_split _ n). by right. }
  destruct e as [[[s|s| |s|]|err]|]; simpl; rewrite ?Hout; try (by split; [constructor|]).
  - specialize (Happ s (or_introl eq_refl)). by destruct (EndpointSlicePeerSet.apply _ _ _ _).
  - unfold EndpointSlicePeerSet.delete. destruct (meta_name _) as [n|]; simpl; [|by split; [constructor|]].
    rewrite stream_inl. split.
    + apply Forall_fmap, Forall_forall. intros a Ha. apply Hc, (cached_split _ n). left.
      destruct (by_slice w !! n); simpl in *; [by apply elem_of_set_order in Ha|by apply elem_of_nil in Ha].
    + intros a Ha. apply Hc, (cached_split _ n). by right.
  - specialize (Happ s (or_intror eq_refl)). by destruct (EndpointSlicePeerSet.apply _ _ _ _).
Qed.

(** ** The merged stream *)
Definition order_of (input : Input) : Prop := match input with EndpointPoll _ o _ => order_ok o | ServiceItem _ => True end.

(** [own] says which stream an address belongs to; Services share none. *)
Definition owned (own : SocketAddr → nat) (self : option SocketAddr) (input : Input) : Prop :=
  match input with
  | EndpointPoll i _ (Some (inl (Apply s | InitApply s))) => ∀ a, a ∈ peers_from_endpoint_slice s self → own a = i
  | _ => True
  end.

(** The members are what the streams have cached, up to what is not yet yielded. *)
Record discovered (own : SocketAddr → nat) d (log : list PeerEvent) : Prop := {
  di_member : ∀ i w a, endpoints d !! i = Some w → own a = i →
    member a false (log ++ discovery_stream (w_out w)) = bool_decide (a ∈ cached (by_slice w));
  di_cached : ∀ i w a, endpoints d !! i = Some w → a ∈ cached (by_slice w) → own a = i;
  di_out : ∀ i w, endpoints d !! i = Some w → Forall (λ e, own (event_addr e) = i) (discovery_stream (w_out w));
  di_log : Forall (λ e, (own (event_addr e) < length (endpoints d))%nat) log;
}.

Lemma discovered_same own d d' log :
  endpoints d' = endpoints d → discovered own d log → discovered own d' (log ++ []).
Proof. intros He [H1 H2 H3 H4]. rewrite app_nil_r. split; by rewrite He. Qed.

Lemma discovered_track own d log t d' :
  endpoints d' = endpoints d ++ [fresh_watch t] → discovered own d log → discovered own d' (log ++ []).
Proof.
  intros He [H1 H2 H3 H4]. rewrite app_nil_r. split; rewrite He.
  - intros i w a [Hi|[Hi Hw]]%lookup_app_Some Ha; [by eapply H1|].
    apply list_lookup_singleton_Some in Hw as [Hi' <-]. simpl. rewrite app_nil_r, bool_decide_false.
    + apply member_other. eapply Forall_impl; [exact H4|]. intros e Hlt Heq. simpl in Hlt. rewrite Heq in Hlt. lia.
    + apply cached_empty.
  - intros i w a [Hi|[Hi Hw]]%lookup_app_Some Ha; [by eapply H2|].
    apply list_lookup_singleton_Some in Hw as [_ <-].
    by apply cached_empty in Ha.
  - intros i w [Hi|[Hi Hw]]%lookup_app_Some; [by eapply H3|].
    apply list_lookup_singleton_Some in Hw as [_ <-]. constructor.
  - eapply Forall_impl; [exact H4|]. intros e ?. simpl in *. rewrite length_app. lia.
Qed.

Lemma discovered_cancel own d log i d' :
  endpoints d' = alter (λ w, w <| w_cancelled := true |>) i (endpoints d) → discovered own d log → discovered own d' (log ++ []).
Proof.
  intros He [H1 H2 H3 H4]. rewrite app_nil_r.
  assert (∀ j w, endpoints d' !! j = Some w →
    ∃ w0, endpoints d !! j = Some w0 ∧ w_out w = w_out w0 ∧ by_slice w = by_slice w0) as Hj.
  { intros j w. rewrite He. destruct (decide (i = j)) as [->|Hne].
    - rewrite list_lookup_alter_eq. destruct (endpoints d !! j) as [w0|]; [|done]. intros [= <-]. by exists w0.
    - rewrite list_lookup_alter_ne by done. intros Hw. by exists w. }
  split.
  - intros j w a (w0 & Hw & -> & ->)%Hj. by apply H1.
  - intros j w a (w0 & Hw & _ & ->)%Hj. by apply H2.
  - intros j w (w0 & Hw & -> & _)%Hj. by apply H3.
  - rewrite He, length_alter. done.
Qed.

Lemma discovered_poll own d log i o item w w' out :
  order_ok o → owned own (d_self_addr d) (EndpointPoll i o item) → endpoints d !! i = Some w →
  slices_disjoint (by_slice w) → poll_watch o (d_self_addr d) w item = (w', out) → discovered own d log →
  discovered own (d <| endpoints := <[i := w']> (endpoints d) |>) (log ++ discovery_stream out).
Proof.
  intros Ho Hown Hw Hdis Hp [H1 H2 H3 H4]. pose proof (lookup_lt_Some _ _ _ Hw) as Hlt.
  assert ((∀ a, own a = i → member a false ((log ++ discovery_stream out) ++ discovery_stream (w_out w')) =
             bool_decide (a ∈ cached (by_slice w'))) ∧
          (∀ a, a ∈ cached (by_slice w') → own a = i) ∧
          Forall (λ e, own (event_addr e) = i) (discovery_stream (w_out w')) ∧
          Forall (λ e, own (event_addr e) = i) (discovery_stream out)) as (Ha & Hb & Hc & Hout).
  { unfold poll_watch in Hp. destruct (w_out w) as [|e rest] eqn:Eo.
    - destruct (w_done w).
      { injection Hp as <- <-. rewrite app_nil_r. split_and!; [by eauto|by eauto|by eauto|constructor]. }
      injection Hp as <- <-. rewrite app_nil_r.
      destruct (turn_addrs o (d_self_addr d) w item (λ a, own a = i) Ho) as [Hf Hc]; [by eauto| |done|].
      { intros s [->| ->] a; apply Hown. }
      split_and!; [|done|done|constructor]. intros a Ha. rewrite member_app. apply turn_member; try done.
      rewrite <- (H1 i w a Hw Ha), Eo. by rewrite app_nil_r.
    - injection Hp as <- <-. specialize (H3 i w Hw). rewrite Eo in H3.
      change (e :: rest) with ([e] ++ rest) in H3. rewrite stream_app in H3. apply Forall_app in H3 as [Hh Ht].
      split_and!; [|by eauto|done|done]. intros a Ha. cbn [by_slice w_out set_field].
      rewrite <- (H1 i w a Hw Ha), Eo, <- app_assoc, <- stream_app. done. }
  split; cbn [endpoints set_field].
  - intros j wj a Hj Hja. destruct (decide (i = j)) as [->|Hne].
    + rewrite list_lookup_insert_eq in Hj by done. injection Hj as <-. by apply Ha.
    + rewrite list_lookup_insert_ne in Hj by done. rewrite <- (H1 j wj a Hj Hja), !member_app.
      f_equal. apply member_other. eapply Forall_impl; [exact Hout|]. intros e He <-. simpl in *. congruence.
  - intros j wj a Hj Hca. destruct (decide (i = j)) as [->|Hne].
    + rewrite list_lookup_insert_eq in Hj by done. injection Hj as <-. by apply Hb.
    + rewrite list_lookup_insert_ne in Hj by done. by eapply H2.
  - intros j wj Hj. destruct (decide (i = j)) as [->|Hne].
    + rewrite list_lookup_insert_eq in Hj by done. by injection Hj as <-.
    + rewrite list_lookup_insert_ne in Hj by done. by eapply H3.
  - rewrite length_insert. apply Forall_app. split; [done|]. eapply Forall_impl; [exact Hout|]. intros e He. simpl in *. lia.
Qed.

Definition all_disjoint d : Prop := ∀ i w, endpoints d !! i = Some w → slices_disjoint (by_slice w).

Lemma step_self d input : d_self_addr (step d input).1 = d_self_addr d.
Proof.
  unfold step. destruct (d_done d); [done|]. destruct input as [[event|]|j o item]; cbn [on_service]; [|done|].
  - destruct (service_change event _); [destruct (watched d !! _)..| |]; done.
  - destruct (endpoints d !! j); [|done]. by destruct (poll_watch _ _ _ _).
Qed.

Lemma step_discovered own d log input :
  order_of input → owned own (d_self_addr d) input → all_disjoint d → discovered own d log →
  discovered own (step d input).1 (log ++ discovery_stream (step d input).2).
Proof.
  intros Ho Hown Hdis Hd. unfold step. destruct (d_done d); [by apply (discovered_same own d)|].
  destruct input as [item|i o item].
  - destruct item as [event|err]; cbn [on_service]; [|by apply (discovered_same own d)].
    destruct (service_change event _) as [t|t| |]; [destruct (watched d !! t)..| |];
      try (by apply (discovered_same own d)); [by apply (discovered_track own d log t)|by eapply (discovered_cancel own d)].
  - destruct (endpoints d !! i) as [w|] eqn:Ew; [|by apply (discovered_same own d)].
    destruct (poll_watch o (d_self_addr d) w item) as [w' out] eqn:Ep.
    eapply discovered_poll; try done. by apply (Hdis i w Ew).
Qed.

Lemma discover_discovered own inputs : ∀ d log,
  Forall order_of inputs → Forall (owned own (d_self_addr d)) inputs →
  (∀ pre suf, inputs = pre ++ suf → all_disjoint (discover d pre).1) → discovered own d log →
  discovered own (discover d inputs).1 (log ++ discovery_stream (discover d inputs).2).
Proof.
  induction inputs as [|input inputs IH]; intros d log Ho Hown Hdis Hd; cbn [discover].
  { by apply (discovered_same own d). }
  apply Forall_cons in Ho as [Ho Hos]. apply Forall_cons in Hown as [Hi His].
  pose proof (step_discovered own d log input Ho Hi (Hdis [] (input :: inputs) eq_refl) Hd) as Hd'.
  pose proof (step_self d input) as Hs.
  destruct (step d input) as [d' out] eqn:Es. cbn [fst snd] in *.
  specialize (IH d' (log ++ discovery_stream out) Hos). rewrite Hs in IH. specialize (IH His).
  destruct (discover d' inputs) as [d2 outs] eqn:Ed. cbn [fst snd] in *. rewrite stream_app, app_assoc. apply IH; [|done].
  intros pre suf ->. specialize (Hdis (input :: pre) suf eq_refl). cbn [discover] in Hdis. rewrite Es in Hdis.
  by destruct (discover d' pre).
Qed.

(** *** The tracked Services *)

(** A target is watched through the one stream of its own that is not cancelled. *)
Definition tracking d : Prop := ∀ t i,
  watched d !! t = Some i ↔ ∃ w, endpoints d !! i = Some w ∧ w_target w = t ∧ w_cancelled w = false.

Lemma poll_keeps o self w item w' out :
  poll_watch o self w item = (w', out) → w_target w' = w_target w ∧ w_cancelled w' = w_cancelled w.
Proof.
  unfold poll_watch, watch_target. intros Hp. destruct (w_out w); [|by injection Hp as <- <-].
  destruct (w_done w); [by injection Hp as <- <-|]. injection Hp as <- <-. destruct (w_cancelled w) eqn:Ec; simpl; [done|].
  destruct item as [[[s|s| |s|]|err]|]; simpl; try done;
    try destruct (EndpointSlicePeerSet.apply _ _ _ _); try destruct (EndpointSlicePeerSet.delete _ _ _); done.
Qed.

Lemma step_tracking d input : tracking d → tracking (step d input).1.
Proof.
  intros Ht. unfold step. destruct (d_done d); [done|]. destruct input as [item|i o item].
  - destruct item as [event|err]; cbn [on_service]; [|done].
    destruct (service_change event _) as [t|t| |]; [| |done..].
    + destruct (watched d !! t) as [i|] eqn:Et; [done|]. intros t' j. cbn. split.
      * intros [[<- <-]|[Hne Hj]]%lookup_insert_Some.
        { exists (fresh_watch t). split; [|done]. rewrite lookup_app_r by lia. by rewrite Nat.sub_diag. }
        apply Ht in Hj as (w & Hw & ?). exists w. split; [by apply lookup_app_l_Some|done].
      * intros (w & [Hw|[Hge Hw]]%lookup_app_Some & Htg & Hc).
        { rewrite lookup_insert_ne; [apply Ht; by exists w|]. intros ->. enough (watched d !! t' = Some j) by congruence.
          apply Ht. by exists w. }
        apply list_lookup_singleton_Some in Hw as [Hj <-]. simpl in Htg. subst t'.
        rewrite lookup_insert_eq. f_equal. lia.
    + destruct (watched d !! t) as [i|] eqn:Et; [|done]. intros t' j. cbn. split.
      * intros [Hne Hj]%lookup_delete_Some. apply Ht in Hj as (w & Hw & Htg & Hc). exists w. split; [|done].
        rewrite list_lookup_alter_ne; [done|]. intros ->. apply Ht in Et as (w' & Hw' & ? & ?). congruence.
      * destruct (decide (i = j)) as [->|Hne]; [rewrite list_lookup_alter_eq|rewrite list_lookup_alter_ne by done].
        { intros (w & Hw & _ & Hc). destruct (endpoints d !! j); [|done]. simpl in Hw. injection Hw as <-. done. }
        intros Hw. apply Ht in Hw. rewrite lookup_delete_ne; [done|]. congruence.
  - destruct (endpoints d !! i) as [w|] eqn:Ew; [|done].
    destruct (poll_watch o (d_self_addr d) w item) as [w' out] eqn:Ep.
    destruct (poll_keeps _ _ _ _ _ _ Ep) as [Htg Hc]. intros t j. cbn. rewrite (Ht t j).
    destruct (decide (i = j)) as [->|Hne]; [|by rewrite list_lookup_insert_ne].
    rewrite list_lookup_insert_eq by (by eapply lookup_lt_Some). rewrite Ew. split.
    + intros (w0 & [= <-] & ? & ?). exists w'. by rewrite Htg, Hc.
    + intros (w0 & [= <-] & ? & ?). exists w. by rewrite <- Htg, <- Hc.
Qed.

Lemma discover_tracking inputs : ∀ d, tracking d → tracking (discover d inputs).1.
Proof.
  induction inputs as [|input inputs IH]; intros d Ht; [done|]. cbn [discover].
  pose proof (step_tracking d input Ht) as Ht'. destruct (step d input) as [d' out]. specialize (IH d' Ht').
  by destruct (discover d' inputs).
Qed.

(** *** What each stream was told *)

(** The slice events that stream [i] takes at an input. *)
Definition taken (i : nat) d (input : Input) : list (Event EndpointSlice) :=
  match input with
  | EndpointPoll j _ (Some (inl e)) =>
    if bool_decide (i = j) && negb (d_done d) then
      match endpoints d !! i with
      | Some w => if bool_decide (w_out w = []) && negb (w_done w) then [e] else []
      | None => []
      end
    else []
  | _ => []
  end.
Fixpoint delivered (i : nat) d (inputs : list Input) : list (Event EndpointSlice) :=
  match inputs with
  | [] => []
  | input :: inputs => taken i d input ++ delivered i (step d input).1 inputs
  end.

Definition slices_at d (i : nat) : EndpointSlicePeerSet.t := default ∅ (by_slice <$> endpoints d !! i).
Definition cancelled_at d (i : nat) : bool := default false (w_cancelled <$> endpoints d !! i).

Lemma poll_slices o self w item w' out sl :
  poll_watch o self w item = (w', out) → w_cancelled w = false →
  by_slice w = (λ s, peers_from_endpoint_slice s self) <$> sl →
  by_slice w' = (λ s, peers_from_endpoint_slice s self) <$>
    foldl note_slice sl (match item with
                         | Some (inl e) => if bool_decide (w_out w = []) && negb (w_done w) then [e] else []
                         | _ => [] end).
Proof.
  unfold poll_watch. intros Hp Hc Hs. destruct (w_out w) as [|x rest].
  2:{ injection Hp as <- <-. cbn [by_slice set_field]. rewrite bool_decide_false by done. by destruct item as [[?|?]|]. }
  rewrite bool_decide_true by done. cbn [andb]. destruct (w_done w).
  { injection Hp as <- <-. by destruct item as [[?|?]|]. }
  injection Hp as <- <-. destruct item as [[e|err]|]; cbn [negb foldl];
    [by apply turn_slices|unfold watch_target; by rewrite Hc..].
Qed.

(** No input takes a cancellation back. *)
Lemma step_cancelled d input i : cancelled_at (step d input).1 i = false → cancelled_at d i = false.
Proof.
  unfold cancelled_at, step. destruct (d_done d); [done|]. destruct input as [[event|]|j o item]; cbn [on_service]; [|done|].
  - destruct (service_change event _) as [t|t| |]; [destruct (watched d !! t) as [k|]..| |]; try done; cbn [fst endpoints set_field].
    + destruct (decide (i < length (endpoints d))%nat); [by rewrite lookup_app_l by done|].
      by rewrite (lookup_ge_None_2 (endpoints d)) by lia.
    + destruct (decide (k = i)) as [->|Hne]; [|by rewrite list_lookup_alter_ne by done].
      rewrite list_lookup_alter_eq. by destruct (endpoints d !! i).
  - destruct (endpoints d !! j) as [w|] eqn:Ew; [|done]. destruct (poll_watch _ _ _ _) as [w' out] eqn:Ep. cbn [fst endpoints set_field].
    destruct (decide (i = j)) as [->|Hne]; [|by rewrite list_lookup_insert_ne by done].
    rewrite list_lookup_insert_eq by (by eapply lookup_lt_Some). rewrite Ew. simpl.
    destruct (poll_keeps _ _ _ _ _ _ Ep) as [_ ->]. done.
Qed.

Lemma discover_cancelled inputs : ∀ d i, cancelled_at (discover d inputs).1 i = false → cancelled_at d i = false.
Proof.
  induction inputs as [|input inputs IH]; intros d i; [done|]. cbn [discover].
  pose proof (step_cancelled d input i) as Hs. destruct (step d input) as [d' out]. specialize (IH d' i).
  destruct (discover d' inputs) as [d2 outs]. auto.
Qed.

Lemma step_slices d input i sl :
  cancelled_at (step d input).1 i = false →
  slices_at d i = (λ s, peers_from_endpoint_slice s (d_self_addr d)) <$> sl →
  slices_at (step d input).1 i =
    (λ s, peers_from_endpoint_slice s (d_self_addr d)) <$> foldl note_slice sl (taken i d input).
Proof.
  intros Hc%step_cancelled Hs. revert Hc Hs. unfold step, taken, slices_at, cancelled_at.
  destruct (d_done d); [destruct input as [?|? ? [[?|?]|]]; cbn [negb]; by rewrite ?andb_false_r|].
  destruct input as [item|j o item].
  - destruct item as [event|err]; cbn [on_service foldl]; [|done]. intros _ <-.
    destruct (service_change event _) as [t|t| |]; [destruct (watched d !! t) as [k|]..| |]; try done; cbn [fst endpoints set_field].
    + destruct (decide (i < length (endpoints d))%nat); [by rewrite lookup_app_l by done|].
      rewrite (lookup_ge_None_2 (endpoints d)), lookup_app_r by lia. by destruct (i - length (endpoints d))%nat as [|[|]].
    + destruct (decide (k = i)) as [->|Hne]; [|by rewrite list_lookup_alter_ne by done].
      rewrite list_lookup_alter_eq. by destruct (endpoints d !! i).
  - destruct (decide (i = j)) as [->|Hne].
    2:{ intros _ Hs. rewrite bool_decide_false by done. destruct (endpoints d !! j) as [w|];
          [destruct (poll_watch o (d_self_addr d) w item)|]; cbn [fst endpoints set_field];
          rewrite ?list_lookup_insert_ne by done; by destruct item as [[?|?]|]. }
    rewrite bool_decide_true by done. destruct (endpoints d !! j) as [w|] eqn:Ew.
    2:{ intros _ Hs. cbn [fst]. rewrite Ew. by destruct item as [[?|?]|]. }
    destruct (poll_watch o (d_self_addr d) w item) as [w' out] eqn:Ep. cbn [fst endpoints set_field].
    rewrite list_lookup_insert_eq by (by eapply lookup_lt_Some). cbn [fmap option_fmap option_map default].
    intros Hc Hs. rewrite (poll_slices _ _ _ _ _ _ _ Ep Hc Hs). by destruct item as [[?|?]|].
Qed.

Lemma discover_slices inputs : ∀ d i sl,
  cancelled_at (discover d inputs).1 i = false →
  slices_at d i = (λ s, peers_from_endpoint_slice s (d_self_addr d)) <$> sl →
  slices_at (discover d inputs).1 i =
    (λ s, peers_from_endpoint_slice s (d_self_addr d)) <$> foldl note_slice sl (delivered i d inputs).
Proof.
  induction inputs as [|input inputs IH]; intros d i sl Hf Hs; [done|]. cbn [discover delivered] in *.
  pose proof (step_self d input) as Hself. pose proof (step_slices d input i sl) as Hst.
  destruct (step d input) as [d' out]. cbn [fst] in *. specialize (IH d' i). pose proof (discover_cancelled inputs d' i) as Hc.
  destruct (discover d' inputs) as [d2 outs]. cbn [fst] in *. rewrite foldl_app, <- Hself. apply IH; [done|].
  rewrite Hself. apply Hst; [by apply Hc|done].
Qed.

(** Everything has been yielded, and every cancelled stream has drained. *)
Definition settled d : Prop := ∀ i w, endpoints d !! i = Some w →
  w_out w = [] ∧ (w_cancelled w = true → by_slice w = ∅).

Lemma start_discovered own config : discovered own (peer_events config true) [].
Proof. by split. Qed.

Lemma start_tracking config : tracking (peer_events config true).
Proof. intros t i. cbn [watched endpoints peer_events]. split; [by intros ?%lookup_empty_Some|by intros (w & ? & _)]. Qed.

(** [a] is a ready endpoint, at the UDP port named [gabion] and other than this
    node, of the latest version of a slice the watches delivered for a Service
    being tracked. *)
Definition ready_endpoint config inputs a : Prop :=
  ∃ t i n s port e text ip,
    watched (discover (peer_events config true) inputs).1 !! t = Some i ∧
    latest (delivered i (peer_events config true) inputs) !! n = Some s ∧
    select_gabion_udp_port s = Some port ∧ e ∈ es_endpoints s ∧ is_ready e = true ∧
    text ∈ addresses e ∧ parse_ip text = Some ip ∧ a = SocketAddr_new ip port ∧ Some a ≠ self_addr config.

(** Every address belongs to one slice of one Service, at all times. *)
Record apart (own : SocketAddr → nat) config inputs : Prop := {
  ap_orders : Forall order_of inputs;
  ap_owned : Forall (owned own (self_addr config)) inputs;
  ap_disjoint : ∀ pre suf, inputs = pre ++ suf → all_disjoint (discover (peer_events config true) pre).1;
}.

(** Discovery is exact: whatever the order of the events, of the polls and of
    hash iteration, and whatever errors came in between. *)
Theorem discovery_exact config own inputs :
  apart own config inputs → settled (discover (peer_events config true) inputs).1 → ∀ a,
  member a false (discovery_stream (discover (peer_events config true) inputs).2) = true ↔ ready_endpoint config inputs a.
Proof.
  intros [Ho Hown Hdis] Hset a. set (d := (discover (peer_events config true) inputs).1) in *. unfold ready_endpoint. fold d.
  pose proof (discover_discovered own inputs (peer_events config true) [] Ho Hown Hdis (start_discovered own config)) as [H1 H2 _ H4].
  pose proof (discover_tracking inputs _ (start_tracking config)) as Htr.
  fold d in H1, H2, H4, Htr. rewrite app_nil_l in *.
  assert (∀ t i, watched d !! t = Some i → ∃ w, endpoints d !! i = Some w ∧
    by_slice w = (λ s, peers_from_endpoint_slice s (self_addr config)) <$>
      latest (delivered i (peer_events config true) inputs)) as Hsl.
  { intros t i (w & Hw & _ & Hc)%Htr. exists w. split; [done|].
    pose proof (discover_slices inputs (peer_events config true) i ∅) as Hs. fold d in Hs.
    unfold slices_at, cancelled_at in Hs. rewrite Hw in Hs. apply Hs; [done|]. simpl. by rewrite fmap_empty. }
  split.
  - intros Hm. destruct (endpoints d !! own a) as [w|] eqn:Ew.
    2:{ rewrite member_other in Hm; [done|]. apply lookup_ge_None in Ew. eapply Forall_impl; [exact H4|].
        intros e Hlt Heq. simpl in Hlt. rewrite Heq in Hlt. lia. }
    destruct (Hset _ _ Ew) as [Hout Hcan]. specialize (H1 _ _ a Ew eq_refl). rewrite Hout, app_nil_r, Hm in H1.
    symmetry in H1. apply bool_decide_eq_true, elem_of_cached in H1 as (n & X & Hn & Ha).
    assert (watched d !! w_target w = Some (own a)) as Hwt.
    { apply Htr. exists w. split; [done|]. split; [done|]. destruct (w_cancelled w); [|done].
      rewrite (Hcan eq_refl) in Hn. by apply lookup_empty_Some in Hn. }
    destruct (Hsl _ _ Hwt) as (w' & Hw' & Hbs). rewrite Ew in Hw'. injection Hw' as <-. rewrite Hbs in Hn.
    apply lookup_fmap_Some in Hn as (s & <- & Hs).
    apply elem_of_peers in Ha as (Hself & port & e & text & ip & Hp & He & Hr & Ht & Hi & ->).
    by exists (w_target w), (own (SocketAddr_new ip port)), n, s, port, e, text, ip.
  - intros (t & i & n & s & port & e & text & ip & Hwt & Hs & Hp & He & Hr & Ht & Hi & -> & Hself).
    destruct (Hsl t i Hwt) as (w & Hw & Hbs).
    assert (SocketAddr_new ip port ∈ cached (by_slice w)) as Hc.
    { apply elem_of_cached. exists n, (peers_from_endpoint_slice s (self_addr config)). split.
      - rewrite Hbs. by apply lookup_fmap_Some; exists s.
      - apply elem_of_peers. split; [done|]. by exists port, e, text, ip. }
    destruct (Hset _ _ Hw) as [Hout _]. specialize (H1 _ _ (SocketAddr_new ip port) Hw (H2 _ _ _ Hw Hc)).
    rewrite Hout, app_nil_r in H1. rewrite H1. by apply bool_decide_true.
Qed.

(** ** A small cluster *)
Definition plain_order : Order := {| set_order := elements; map_order := λ m, (map_to_list m).*2 |}.
Lemma plain_order_ok : order_ok plain_order.
Proof. by split. Qed.

Definition meta (n : string) : ObjectMeta := {| meta_name := Some (lit n); meta_namespace := Some (lit "prod") |}.
Definition gabion_service : Service := {|
  svc_metadata := meta "edge";
  svc_spec := Some {| spec_ports := Some [ {| sp_name := Some (lit "gabion"); sp_protocol := Some (lit "UDP") |} ] |} |}.
Definition pod (ip : string) : Endpoint := {| conditions := Some {| ready := Some true |}; addresses := [lit ip] |}.
Definition slice_of (n : string) (pods : list Endpoint) : EndpointSlice := {|
  es_metadata := meta n;
  es_ports := Some [ {| ep_name := Some (lit "gabion"); ep_protocol := Some (lit "UDP"); ep_port := Some 7946 |} ];
  es_endpoints := pods |}.
Definition cluster_config : DiscoveryConfig := {|
  self_addr := Some (V4 167772161 7946); namespace_allow := []; service_allow := [] |}.
Abbreviation poll e := (EndpointPoll 0 plain_order (Some (inl e))).

(** Two pods are listed, one of them this node; the other is replaced. *)
Definition cluster_inputs : list Input :=
  [ServiceItem (inl (Apply gabion_service)); poll Init;
   poll (InitApply (slice_of "edge-a" [pod "10.0.0.1"; pod "10.0.0.2"])); poll InitDone;
   poll (Apply (slice_of "edge-a" [pod "10.0.0.1"; pod "10.0.0.3"])); poll Init; poll Init].

(** At most one slice per stream, at every prefix. *)
Definition one_slice d : bool := forallb (λ w, (length (map_to_list (by_slice w)) <=? 1)%nat) (endpoints d).
Lemma one_slice_disjoint d : one_slice d = true → all_disjoint d.
Proof.
  unfold one_slice. rewrite forallb_forall. intros Hf i w Hw%list_elem_of_lookup_2%list_elem_of_In n1 n2 X1 X2 H1 H2 Hne.
  apply Hf, Nat.leb_le in Hw. apply elem_of_map_to_list in H1, H2.
  destruct (map_to_list (by_slice w)) as [|p [|q l]]; simpl in Hw; [by apply elem_of_nil in H1| |lia].
  apply list_elem_of_singleton in H1, H2. congruence.
Qed.

Lemma prefixes_disjoint d inputs :
  forallb (λ k, one_slice (discover d (take k inputs)).1) (seq 0 (S (length inputs))) = true →
  ∀ pre suf, inputs = pre ++ suf → all_disjoint (discover d pre).1.
Proof.
  rewrite forallb_forall. intros Hf pre suf ->. apply one_slice_disjoint.
  specialize (Hf (length pre)). rewrite take_app_length in Hf. apply Hf, in_seq. rewrite length_app. lia.
Qed.

Lemma cluster_apart : apart (λ _, 0%nat) cluster_config cluster_inputs.
Proof.
  split.
  - repeat apply Forall_cons_2; [exact I|apply plain_order_ok..|constructor].
  - repeat (apply Forall_cons_2; [first [exact I|intros a _; reflexivity]|]). constructor.
  - apply prefixes_disjoint. vm_compute. reflexivity.
Qed.

Lemma cluster_settled : settled (discover (peer_events cluster_config true) cluster_inputs).1.
Proof.
  intros [|i] w Hw; [|vm_compute in Hw; discriminate Hw].
  match type of Hw with ?l !! _ = _ => assert (w_out <$> head l = Some [] ∧ w_cancelled <$> head l = Some false) as [Ho Hc]
    by (vm_compute; split; reflexivity); change (head l = Some w) in Hw end.
  rewrite Hw in Ho, Hc. injection Ho as Ho. injection Hc as Hc. split; [exact Ho|]. rewrite Hc. discriminate.
Qed.

(** ** What it does not do *)

Definition emptied w : Watch := w <| w_out := [] |>.

(** A stream fed events one after the other, with everything it yields. *)
Fixpoint feed o (self : option SocketAddr) w (es : list (Event EndpointSlice)) : Watch * list Out :=
  match es with
  | [] => (w, [])
  | e :: es =>
    let w' := watch_target o self w (Some (inl e)) in
    let '(w2, outs) := feed o self (emptied w') es in
    (w2, w_out w' ++ outs)
  end.

(** C34: an address that two slices hold is lost when one of them drops it.  The
    yielded events end its membership although the other slice, which is still
    cached, has it as a ready endpoint; and delivering that other slice again
    unchanged does not bring it back. *)
Theorem shared_address_lost o self w s s2 n1 n2 X1 X2 a known :
  order_ok o → w_cancelled w = false → n1 ≠ n2 →
  by_slice w !! n1 = Some X1 → by_slice w !! n2 = Some X2 → a ∈ X1 → a ∈ X2 →
  meta_name (es_metadata s) = Some n1 → a ∉ peers_from_endpoint_slice s self →
  meta_name (es_metadata s2) = Some n2 → peers_from_endpoint_slice s2 self = X2 →
  let '(w', outs) := feed o self w [Apply s; Apply s2] in
  by_slice w' !! n2 = Some X2 ∧ a ∈ X2 ∧ member a known (discovery_stream outs) = false.
Proof.
  intros Ho Hc Hne H1 H2 Ha1 Ha2 Hn1 Hnot Hn2 HX2. cbn [feed]. unfold watch_target, EndpointSlicePeerSet.apply.
  rewrite Hc, Hn1, Hn2. unfold emptied. cbn [by_slice w_out w_cancelled set_field EndpointSlicePeerSet.diff_removed EndpointSlicePeerSet.diff_added].
  rewrite Hc. cbn [by_slice w_out w_cancelled set_field EndpointSlicePeerSet.diff_removed EndpointSlicePeerSet.diff_added].
  rewrite (lookup_insert_ne _ n1 n2), H1, H2, HX2 by done. cbn [default].
  split; [by rewrite lookup_insert_eq|]. split; [done|].
  rewrite app_nil_r, !stream_app, !stream_inl, !member_app, !member_removed, !member_added.
  rewrite (bool_decide_true (a ∈ filter _ (set_order o X1))) by (by apply list_elem_of_filter; split; [|apply elem_of_set_order]).
  repeat match goal with |- context [bool_decide (a ∈ filter ?P (set_order o ?X))] =>
    rewrite (bool_decide_false (a ∈ filter P (set_order o X)))
      by (intros [? ?%(elem_of_set_order _ _ _ Ho)]%list_elem_of_filter; done) end.
  by rewrite andb_false_r.
Qed.

(** Both slices list 10.0.0.2 while a pod moves from one to the other. *)
Definition overlap : Watch :=
  (feed plain_order None (fresh_watch {| tg_namespace := lit "prod"; tg_service_name := lit "edge" |})
     [Apply (slice_of "edge-a" [pod "10.0.0.2"]); Apply (slice_of "edge-b" [pod "10.0.0.2"])]).1.

Lemma shared_address_lost_witness :
  let '(w', outs) := feed plain_order None overlap [Apply (slice_of "edge-a" []); Apply (slice_of "edge-b" [pod "10.0.0.2"])] in
  by_slice w' !! lit "edge-b" = Some (peers_from_endpoint_slice (slice_of "edge-b" [pod "10.0.0.2"]) None) ∧
  V4 167772162 7946 ∈ peers_from_endpoint_slice (slice_of "edge-b" [pod "10.0.0.2"]) None ∧
  member (V4 167772162 7946) true (discovery_stream outs) = false.
Proof.
  apply (shared_address_lost plain_order None overlap (slice_of "edge-a" []) (slice_of "edge-b" [pod "10.0.0.2"])
    (lit "edge-a") (lit "edge-b") (peers_from_endpoint_slice (slice_of "edge-a" [pod "10.0.0.2"]) None));
    [apply plain_order_ok|reflexivity|discriminate|vm_compute; reflexivity..| | |reflexivity| |reflexivity|reflexivity];
    apply (bool_decide_unpack _); vm_compute; exact I.
Defined.

Lemma feed_elsewhere o self listed n X a : order_ok o → ∀ w,
  w_cancelled w = false → by_slice w !! n = Some X → a ∉ cached (delete n (by_slice w)) →
  Forall (λ s, meta_name (es_metadata s) ≠ Some n ∧ a ∉ peers_from_endpoint_slice s self) listed →
  let '(w', outs) := feed o self w ((InitApply <$> listed) ++ [InitDone]) in
  by_slice w' !! n = Some X ∧ (w_out w = [] → Forall (λ e, event_addr e ≠ a) (discovery_stream outs)).
Proof.
  intros Ho. induction listed as [|s listed IH]; intros w Hc HX Ha Hl.
  { cbn [fmap list_fmap app feed]. unfold watch_target. rewrite Hc. split; [done|]. intros ->. constructor. }
  apply Forall_cons in Hl as [[Hn Hs] Hl]. rewrite fmap_cons, <- app_comm_cons. cbn [feed].
  set (w' := watch_target o self w (Some (inl (InitApply s)))).
  assert (w_cancelled w' = false ∧ by_slice w' !! n = Some X ∧ (a ∉ cached (delete n (by_slice w'))) ∧
    Forall (λ e, event_addr e ≠ a) (discovery_stream (w_out w'))) as (Hc' & HX' & Ha' & Ho').
  { unfold w', watch_target, EndpointSlicePeerSet.apply. rewrite Hc. destruct (meta_name (es_metadata s)) as [k|]; [|done].
    cbn [by_slice w_out w_cancelled set_field EndpointSlicePeerSet.diff_removed EndpointSlicePeerSet.diff_added].
    assert (k ≠ n) as Hk by congruence. rewrite lookup_insert_ne, delete_insert_ne by congruence.
    rewrite (cached_split _ k), lookup_delete_ne in Ha by congruence. split_and!; [done|done| |].
    - rewrite cached_insert. tauto.
    - rewrite stream_app, !stream_inl. apply Forall_app. split; apply Forall_fmap, Forall_forall;
        intros x [_ Hx%(elem_of_set_order _ _ _ Ho)]%list_elem_of_filter; simpl; intros ->; tauto. }
  clearbody w'. specialize (IH (emptied w') Hc' HX' Ha' Hl). destruct (feed o self (emptied w') _) as [w2 outs].
  destruct IH as [HX2 Ho2]. split; [done|]. intros _. rewrite stream_app. apply Forall_app. split; [done|by apply Ho2].
Qed.

(** C35: a watch that starts over forgets nothing.  When it lists its slices anew
    and a cached one is no longer among them, that slice stays cached, and an
    address that only it held stays a member though no listed slice has it. *)
Theorem relist_keeps_vanished o self w listed n X a :
  order_ok o → w_cancelled w = false → w_out w = [] → by_slice w !! n = Some X → a ∈ X →
  a ∉ cached (delete n (by_slice w)) →
  Forall (λ s, meta_name (es_metadata s) ≠ Some n ∧ a ∉ peers_from_endpoint_slice s self) listed →
  let '(w', outs) := feed o self w (Init :: (InitApply <$> listed) ++ [InitDone]) in
  by_slice w' !! n = Some X ∧ member a true (discovery_stream outs) = true.
Proof.
  intros Ho Hc Hout HX Ha Hsole Hl. cbn [feed]. unfold watch_target at 1 2. rewrite Hc, Hout.
  pose proof (feed_elsewhere o self listed n X a Ho (emptied w) Hc HX Hsole Hl) as H.
  destruct (feed o self (emptied w) _) as [w2 outs]. destruct H as [HX2 Hf]. split; [done|].
  cbn [app]. apply member_other. by apply Hf.
Qed.

(** The watch was down while slice [edge-a] was replaced by [edge-b]. *)
Definition stale : Watch :=
  (feed plain_order None (fresh_watch {| tg_namespace := lit "prod"; tg_service_name := lit "edge" |})
     [Apply (slice_of "edge-a" [pod "10.0.0.2"])]).1.

Lemma relist_keeps_vanished_witness :
  let '(w', outs) := feed plain_order None stale
    (Init :: (InitApply <$> [slice_of "edge-b" [pod "10.0.0.4"]]) ++ [InitDone]) in
  by_slice w' !! lit "edge-a" = Some (peers_from_endpoint_slice (slice_of "edge-a" [pod "10.0.0.2"]) None) ∧
  member (V4 167772162 7946) true (discovery_stream outs) = true.
Proof.
  apply (relist_keeps_vanished plain_order None); [apply plain_order_ok|reflexivity|vm_compute; reflexivity..| | |].
  1,2: apply (bool_decide_unpack _); vm_compute; exact I.
  apply Forall_singleton. split; [discriminate|]. apply (bool_decide_unpack _). vm_compute. exact I.
Defined.
