(* ===== verification/ServerPeers.v ===== *)
(** * The server's peers

    The event loop of a booted server consumes the peer events that discovery
    yields: its peers are the ready endpoints of the cluster. *)

From stdpp Require Import strings.
From S2P Require Import Prelude Types Hash Index Freelist Dictionary DirtyRing PeerFrontier IO CellStore CellSlots CellInv CellOps CellMerge CellExpire GossipFrame CellTyped StoreSpec Window Bytes WireHeader WireBody WirePlan WireCodec Wire WireTyped Exchange Str Rules DashMap Mirror Limiter Runtime RuntimeSend RuntimeAdmin RuntimeInv RuntimeStep RuntimeLoop RuntimeSpec RuntimeNet NetAddr ServerConfig Server Discovery DiscoverySpec.
Import GossipRuntime.
#[local] Existing Instances DashMapStore.aggregate DashMapStore.aggregate_laws Count_u32.

(** C3: the gossip peers are the cluster's ready endpoints.  A server that boots
    from a valid configuration and whose loop has dispatched what discovery
    yielded runs without panicking and has each peer once; when every address
    belongs to one slice of one Service, its peers are exactly the ready
    endpoints, at the UDP port named [gabion] and other than itself, of the
    latest version of each slice delivered for the tracked Services, whatever
    the order of the watch events, of the polls and of hash iteration, and
    whatever else the loop did. *)
Theorem server_peers_are_ready_endpoints xxh3 parse_duration hmac config identity seed rs table evs own inputs :
  tags_ok hmac → app_ok config → uint 128 (node_id identity) → uint 32 (ni_incarnation identity) →
  boot xxh3 parse_duration config identity seed = Some (Ok (rs, table)) →
  Forall (event_ok (GossipRuntime.config (rs_self rs))) evs → zlen evs ≤ 2 ^ 50 →
  apart own (discovery config) inputs →
  settled (discover (peer_events (discovery config) true) inputs).1 →
  peer_log hmac rs evs = discovery_stream (discover (peer_events (discovery config) true) inputs).2 →
  ∃ rs' effs flow, run hmac rs evs = Some (rs', effs, flow) ∧ NoDup (addr <$> peers (rs_self rs')) ∧
    ∀ a, a ∈ addr <$> peers (rs_self rs') ↔ ready_endpoint (discovery config) inputs a.
Proof.
  intros Hmac Ha Hn Hi Hboot Hev Hlen Hap Hset Hlog.
  destruct (boot_ok _ _ _ _ _ _ _ Ha Hn Hi Hboot) as (st & cfg & Ht & Hwf & Hbp & Hs & _ & Hid & ->).
  assert (narrow (C := Count_u32)) as Hw by (vm_compute; discriminate).
  set (rs := {| rs_self := from_parts_with_admin cfg st (∅ : DashMapStore.t) true; peer_events_done := false |}) in *.
  assert (loop_inv hmac (fingerprints (descriptor_of <$> table)) (peer_capacity (cell_store_config config)) (rs_self rs) ∅) as Hl
    by (apply from_parts_ok; [exact Hwf|exact Hs|done|done]).
  assert (peers (rs_self rs) = []) as Hp by (simpl; by rewrite Hbp).
  destruct (run_members Hw hmac Hmac _ _ evs rs ∅ Hl Hev) as (rs' & effs & flow & He & Hnd & Hm);
    [by rewrite Hp|rewrite Hp; constructor|].
  exists rs', effs, flow. split; [done|]. split; [done|]. intros a. specialize (Hm a).
  rewrite Hp, Hlog, (bool_decide_false (a ∈ addr <$> [])) in Hm by apply not_elem_of_nil.
  rewrite <- (discovery_exact (discovery config) own inputs Hap Hset a), <- Hm. symmetry. apply bool_decide_eq_true.
Qed.

(** ** A server in a small cluster *)
Definition cluster_app : AppConfig := {|
  envoy_bind := None; admin_bind := None; storage := storage small_app; limits := limits small_app;
  runtime := runtime small_app; discovery := cluster_config; gossip := gossip small_app |}.

Abbreviation hears e := (quiet <| rd_peer_event := Some (Some e) |>).
Definition cluster_events : list (Env * Ready) :=
  [(sent_at 3000, hears (Added (V4 167772162 7946))); (sent_at 3001, hears (Removed (V4 167772162 7946)));
   (sent_at 3002, hears (Added (V4 167772163 7946)))].

Lemma server_peers_are_ready_endpoints_witness :
  ∃ rs table, boot sample_hash (λ _, None) cluster_app sample_id 7 = Some (Ok (rs, table)) ∧
  ∃ rs' effs flow, run sample_hmac rs cluster_events = Some (rs', effs, flow) ∧ NoDup (addr <$> peers (rs_self rs')) ∧
    ∀ a, a ∈ addr <$> peers (rs_self rs') ↔ ready_endpoint cluster_config cluster_inputs a.
Proof.
  assert (match boot sample_hash (λ _, None) cluster_app sample_id 7 with
          | Some (inl (rs, table)) => peer_log sample_hmac rs cluster_events =
              discovery_stream (discover (peer_events cluster_config true) cluster_inputs).2
          | _ => False end) as Hb by (vm_compute; reflexivity).
  destruct (boot sample_hash (λ _, None) cluster_app sample_id 7) as [[[rs table]|e]|] eqn:Hboot; [|contradiction..].
  exists rs, table. split; [reflexivity|].
  apply (server_peers_are_ready_endpoints sample_hash (λ _, None) sample_hmac cluster_app sample_id 7 rs table
    cluster_events (λ _, 0%nat) cluster_inputs);
    [apply sample_tags_ok| |unfold uint; simpl; lia..|exact Hboot| |vm_compute; discriminate|
     apply cluster_apart|apply cluster_settled|exact Hb].
  - split; vm_compute; repeat split; (reflexivity || (let H := fresh in intros H; discriminate H)).
  - repeat apply Forall_cons_2; [apply event_quiet; [unfold uint; simpl; lia|reflexivity..]..|constructor].
Defined.
