(* ===== verification/Admin.v ===== *)
(** * The server's admin endpoint

    [crates/server/src/admin.rs]: what [/snapshot] and [/debug/introspection]
    answer from the replies of the event loop.  The HTTP server and the JSON
    encoder are not modelled: an answer is the value that is encoded, or a
    status and a message. *)

From stdpp Require Import strings.
From S2P Require Import Prelude Types Hash Index Freelist Dictionary DirtyRing PeerFrontier IO CellStore CellSlots CellInv Bytes Str Window Rules DashMap Wire Runtime RuntimeAdmin NetAddr ServerConfig.

(** ** Answers *)
Record IdentitySnapshot := { is_node_id : str; is_incarnation : Z }.
Record PeerSnapshot := { ps_addr : str; ps_node_id : option str }.
Record CellStoreStatsSnapshot := {
  css_active_cells : Z;
  css_cell_capacity : Z;
  css_rule_slots_used : Z;
  css_rule_slots_capacity : Z;
  css_node_slots_used : Z;
  css_node_slots_capacity : Z;
  css_cell_store_full_rejects : Z;
  css_rule_dictionary_full_rejects : Z;
  css_node_dictionary_full_rejects : Z;
}.
Record StoreSnapshot := { aggregate_rows : Z; cell_store : CellStoreStatsSnapshot }.
Record DescriptorPatternSnapshot := { dps_key : str; dps_value : str }.
Record RuleSnapshot := {
  rsn_id : Z;
  rsn_fingerprint : str;
  rsn_domain : str;
  rsn_descriptors : list DescriptorPatternSnapshot;
  rsn_limit : Z;
  rsn_window_millis : Z;
  rsn_bucket_millis : Z;
  rsn_mode : str;
}.
Record GossipSnapshot := { local_dirty_len : Z; forwarded_dirty_len : Z; send_pending_depth : Z }.
Record ServerSnapshot := {
  sn_identity : IdentitySnapshot;
  sn_peers : list PeerSnapshot;
  sn_store : StoreSnapshot;
  sn_rules : list RuleSnapshot;
  sn_gossip : GossipSnapshot;
}.

Definition stats_snapshot (stats : CellStoreStats) : CellStoreStatsSnapshot := {|
  css_active_cells := active_cells stats;
  css_cell_capacity := cell_capacity_stat stats;
  css_rule_slots_used := rule_slots_used stats;
  css_rule_slots_capacity := rule_slots_capacity stats;
  css_node_slots_used := node_slots_used stats;
  css_node_slots_capacity := node_slots_capacity stats;
  css_cell_store_full_rejects := stat_cell_store_full_rejects stats;
  css_rule_dictionary_full_rejects := stat_rule_dictionary_full_rejects stats;
  css_node_dictionary_full_rejects := stat_node_dictionary_full_rejects stats |}.

(** [format!("{:032x}")] of a 128-bit number *)
Definition pad (width : nat) (s : str) : str := replicate (width - length s) 48 ++ s.
Definition hex32 (n : Z) : str := pad 32 (hex128 n).

Definition pattern_snapshot (p : DescriptorPattern) : DescriptorPatternSnapshot :=
  {| dps_key := pat_key p; dps_value := pat_value p |}.

Definition rule_snapshot (rule : Rule) : RuleSnapshot := {|
  rsn_id := rule_id rule;
  rsn_fingerprint := hex32 (rule_fp rule);
  rsn_domain := domain rule;
  rsn_descriptors := pattern_snapshot <$> descriptors rule;
  rsn_limit := Rules.limit rule;
  rsn_window_millis := rule_window_millis rule;
  rsn_bucket_millis := rule_bucket_millis rule;
  rsn_mode := match mode rule with Enforce => lit "enforce" | DryRun => lit "dry_run" | Disabled => lit "disabled" end |}.

Definition identity_snapshot (id : NodeIdentity) : IdentitySnapshot :=
  {| is_node_id := hex32 (node_id id); is_incarnation := ni_incarnation id |}.
Definition peer_snapshot (p : PeerEntry) : PeerSnapshot :=
  {| ps_addr := SocketAddr_to_string (pe_addr p); ps_node_id := hex32 <$> pe_node_id p |}.

(** ** Asking the event loop *)
Definition SERVICE_UNAVAILABLE : Z := 503.
Abbreviation Failure := (Z * str)%type.

(** [sent] is whether the command was accepted, [reply] what came back. *)
Definition admin_snapshot (sent : bool) (reply : option AdminSnapshot) : AdminSnapshot + Failure :=
  if negb sent then Err (SERVICE_UNAVAILABLE, lit "gossip runtime is shut down") else
  match reply with
  | Some snapshot => Ok snapshot
  | None => Err (SERVICE_UNAVAILABLE, lit "gossip runtime dropped admin reply")
  end.
Definition admin_cell_dump (sent : bool) (reply : option CellDumpSnapshot) : CellDumpSnapshot + Failure :=
  if negb sent then Err (SERVICE_UNAVAILABLE, lit "gossip runtime is shut down") else
  match reply with
  | Some dump => Ok dump
  | None => Err (SERVICE_UNAVAILABLE, lit "gossip runtime dropped admin reply")
  end.

(** ** [GET /snapshot] *)
Definition snapshot_handler (rule_table : list Rule) (counts : DashMapStore.t) (sent : bool)
    (reply : option AdminSnapshot) : ServerSnapshot + Failure :=
  match admin_snapshot sent reply with
  | inr e => Err e
  | inl gossip => Ok {|
      sn_identity := identity_snapshot (as_local_identity gossip);
      sn_peers := peer_snapshot <$> as_peers gossip;
      sn_store := {| aggregate_rows := DashMapStore.len counts; cell_store := stats_snapshot (as_store_stats gossip) |};
      sn_rules := rule_snapshot <$> rule_table;
      sn_gossip := {| local_dirty_len := as_local_dirty_len gossip; forwarded_dirty_len := as_forwarded_dirty_len gossip;
                      send_pending_depth := as_send_pending_depth gossip |} |}
  end.

(** ** [GET /readyz] *)
Definition readyz_handler : str := lit "ready" ++ [10].

(** ** [GET /debug/introspection] *)
Record IntrospectionParams := { ip_max_cells : Z; ip_max_peers : Z }.
Definition default_max_cells : Z := 1024.
Definition default_max_peers : Z := 64.
(** A field that the query string lacks takes its default. *)
Definition IntrospectionParams_of (max_cells max_peers : option Z) : IntrospectionParams :=
  {| ip_max_cells := default default_max_cells max_cells; ip_max_peers := default default_max_peers max_peers |}.

Record IntrospectionGossip := {
  remote_active_cells : Z;
  decode_errors : Z;
  merge_cells : Z;
  send_bytes : Z;
  recv_bytes : Z;
  digest_mismatch : Z;
}.
Record IntrospectionCell := {
  ic_rule_fingerprint : str;
  ic_key_hash : str;
  ic_bucket : Z;
  ic_count : Z;
  ic_last_update_millis : Z;
  ic_origin_node_id : option str;
}.
Record IntrospectionResponse := {
  ir_identity : IdentitySnapshot;
  ir_gossip : IntrospectionGossip;
  ir_active_peers : list PeerSnapshot;
  ir_remote_cells : list IntrospectionCell;
}.

(** [str::cmp], on characters: UTF-8 keeps their order. *)
Fixpoint str_cmp (a b : str) : comparison :=
  match a, b with
  | [], [] => Eq
  | [], _ :: _ => Lt
  | _ :: _, [] => Gt
  | x :: a, y :: b => match x ?= y with Eq => str_cmp a b | c => c end
  end.
Definition cell_cmp (a b : IntrospectionCell) : comparison :=
  match str_cmp (ic_rule_fingerprint a) (ic_rule_fingerprint b) with
  | Eq => match str_cmp (ic_key_hash a) (ic_key_hash b) with
          | Eq => ic_bucket a ?= ic_bucket b
          | c => c
          end
  | c => c
  end.

(** [slice::sort_by]: a stable sort. *)
Fixpoint insert_by {A} (cmp : A → A → comparison) (x : A) (l : list A) : list A :=
  match l with
  | [] => [x]
  | y :: l => match cmp x y with Gt => y :: insert_by cmp x l | _ => x :: y :: l end
  end.
Definition sort_by {A} (cmp : A → A → comparison) (l : list A) : list A := foldr (insert_by cmp) [] l.

Definition is_remote (local_node_id : Z) (c : CellDumpEntry) : bool :=
  match cd_origin_node_id c with Some id => negb (id =? local_node_id) | None => true end.

Definition introspection_cell (c : CellDumpEntry) : IntrospectionCell := {|
  ic_rule_fingerprint := hex32 (cd_rule_fingerprint c);
  ic_key_hash := hex32 (cd_key_hash c);
  ic_bucket := cd_bucket c;
  ic_count := cd_count c;
  ic_last_update_millis := cd_last_update_millis c;
  ic_origin_node_id := hex32 <$> cd_origin_node_id c |}.

Definition introspection_handler (params : IntrospectionParams) (sent : bool) (reply : option AdminSnapshot)
    (dump_sent : bool) (dump_reply : option CellDumpSnapshot) : IntrospectionResponse + Failure :=
  match admin_snapshot sent reply with
  | inr e => Err e
  | inl snapshot =>
    match admin_cell_dump dump_sent dump_reply with
    | inr e => Err e
    | inl cell_dump =>
      let local_node_id := node_id (as_local_identity snapshot) in
      let remote := List.filter (is_remote local_node_id) (cs_cells cell_dump) in
      let remote_cells := introspection_cell <$> take (Z.to_nat (ip_max_cells params)) remote in
      let remote_cells := sort_by cell_cmp remote_cells in
      let active_peers := peer_snapshot <$> take (Z.to_nat (ip_max_peers params)) (as_peers snapshot) in
      Ok {| ir_identity := identity_snapshot (as_local_identity snapshot);
            ir_gossip := {| remote_active_cells := zlen remote_cells; decode_errors := as_decode_reject_count snapshot;
                            merge_cells := 0; send_bytes := 0; recv_bytes := 0; digest_mismatch := 0 |};
            ir_active_peers := active_peers;
            ir_remote_cells := remote_cells |}
    end
  end.

(** ** Routes *)
Inductive Route := SnapshotRoute | ReadyzRoute | IntrospectionRoute.
Definition router : list (str * Route) := [
  (lit "/snapshot", SnapshotRoute); (lit "/readyz", ReadyzRoute); (lit "/debug/introspection", IntrospectionRoute)].

Definition DEFAULT_ADMIN_CHANNEL_SIZE : Z := 8.
