(* ===== verification/AdminSpec.v ===== *)
(** * What the admin endpoint shows

    Identifiers are printed at full width, so that text order is numeric order
    and nothing is lost; an introspection lists remote cells of the store, each
    once and in order, and all of them when the cap allows. *)

From stdpp Require Import strings sorting.
From S2P Require Import Prelude Types Hash Index Freelist Dictionary DirtyRing PeerFrontier IO CellStore CellSlots CellInv CellOps CellMerge CellExpire GossipFrame CellTyped Bytes Str Window WireHeader WireBody WirePlan WireCodec Wire WireTyped Exchange Rules DashMap Mirror Runtime RuntimeSend RuntimeAdmin RuntimeInv RuntimeStep RuntimeLoop RuntimeSpec RuntimeNet NetAddr ServerConfig Admin.
Import GossipRuntime.
#[local] Existing Instances DashMapStore.aggregate DashMapStore.aggregate_laws.

(** ** Fixed-width hexadecimal *)
Fixpoint hexw (width : nat) (n : Z) : str :=
  match width with O => [] | S width => hexw width (n / 16) ++ [digit_char (n mod 16)] end.

Lemma hexw_length width n : length (hexw width n) = width.
Proof. revert n. induction width as [|w IH]; intros n; cbn; [done|]. rewrite length_app, IH. cbn. lia. Qed.

Lemma hexw_zero width : hexw width 0 = replicate width 48.
Proof.
  induction width as [|w IH]; [done|]. cbn [hexw]. rewrite Z.div_0_l, Z.mod_0_l, IH by lia.
  change [digit_char 0] with (replicate 1 48). rewrite <- replicate_add. f_equal. lia.
Qed.

Lemma pad_print width fuel : (width ≤ fuel)%nat → ∀ n, 0 ≤ n < 16 ^ Z.of_nat width → (0 < width)%nat →
  (length (print_radix 16 fuel n) ≤ width)%nat ∧ pad width (print_radix 16 fuel n) = hexw width n.
Proof.
  revert fuel. induction width as [|w IH]; intros fuel Hf n Hn Hw; [lia|]. destruct fuel as [|fuel]; [lia|]. cbn [print_radix hexw].
  destruct (n <? 16) eqn:E; bool_solve.
  - split; [cbn; lia|]. unfold pad. cbn [length]. rewrite (Z.div_small n 16), (Z.mod_small n 16), hexw_zero by lia.
    by replace (S w - 1)%nat with w by lia.
  - rewrite Nat2Z.inj_succ, Z.pow_succ_r in Hn by lia.
    assert (0 < n / 16) by (apply Z.div_str_pos; lia).
    assert (n / 16 < 16 ^ Z.of_nat w) as Hlt by (apply Z.div_lt_upper_bound; lia).
    destruct w as [|w]; [cbn in Hlt; lia|].
    destruct (IH fuel ltac:(lia) (n / 16) ltac:(lia) ltac:(lia)) as [Hl Hp]. rewrite length_app. cbn [length].
    split; [lia|]. rewrite <- Hp. unfold pad. rewrite length_app. cbn [length].
    rewrite app_assoc. by replace (S (S w) - (length (print_radix 16 fuel (n / 16)) + 1))%nat with (S w - length (print_radix 16 fuel (n / 16)))%nat by lia.
Qed.

Lemma hex32_fixed n : uint 128 n → hex32 n = hexw 32 n.
Proof. unfold uint. intros Hn. unfold hex32, hex128. apply pad_print; [lia| |lia]. by change (16 ^ Z.of_nat 32) with (2 ^ 128). Qed.

Lemma hexw_reads width : (width ≤ 32)%nat → ∀ n, 0 ≤ n < 16 ^ Z.of_nat width → radix_digits 16 0 (hexw width n) = Some n.
Proof.
  induction width as [|w IH]; intros Hw n Hn; cbn [hexw].
  { cbn in *. f_equal. lia. }
  rewrite Nat2Z.inj_succ, Z.pow_succ_r in Hn by lia.
  assert (n / 16 < 16 ^ Z.of_nat w) as Hlt by (apply Z.div_lt_upper_bound; lia).
  pose proof (Z.div_pos n 16 ltac:(lia) ltac:(lia)). pose proof (Z.div_mod n 16 ltac:(lia)). pose proof (Z.mod_pos_bound n 16 ltac:(lia)).
  rewrite (radix_digits_app 16 0 _ _ (n / 16)) by (apply IH; lia).
  assert (16 ^ Z.of_nat (S w) ≤ 2 ^ 128) as Hmax.
  { change (2 ^ 128) with (16 ^ Z.of_nat 32). apply Z.pow_le_mono_r; lia. }
  rewrite Nat2Z.inj_succ, Z.pow_succ_r in Hmax by lia.
  rewrite radix_digits_one; [f_equal; lia|lia..].
Qed.

Lemma hex32_reads n : uint 128 n → radix_digits 16 0 (hex32 n) = Some n.
Proof. intros Hn. rewrite hex32_fixed by done. apply hexw_reads; [lia|]. unfold uint in Hn. by change (16 ^ Z.of_nat 32) with (2 ^ 128). Qed.

Lemma str_cmp_snoc s t x y : length s = length t →
  str_cmp (s ++ [x]) (t ++ [y]) = match str_cmp s t with Eq => x ?= y | c => c end.
Proof.
  revert t. induction s as [|a s IH]; intros [|b t] Hl; try done; cbn [app str_cmp].
  - by destruct (x ?= y).
  - destruct (a ?= b); [|done..]. apply IH. by injection Hl.
Qed.

Lemma digit_char_cmp d e : 0 ≤ d < 16 → 0 ≤ e < 16 → (digit_char d ?= digit_char e) = (d ?= e).
Proof.
  intros Hd He. unfold digit_char. destruct (Z.compare_spec d e).
  - subst. apply Z.compare_refl.
  - apply Z.compare_lt_iff. destruct (d <? 10) eqn:?, (e <? 10) eqn:?; lia.
  - apply Z.compare_gt_iff. destruct (d <? 10) eqn:?, (e <? 10) eqn:?; lia.
Qed.

Lemma hexw_cmp width : ∀ a b, 0 ≤ a < 16 ^ Z.of_nat width → 0 ≤ b < 16 ^ Z.of_nat width →
  str_cmp (hexw width a) (hexw width b) = (a ?= b).
Proof.
  induction width as [|w IH]; intros a b Ha Hb; cbn [hexw].
  { cbn in *. symmetry. apply Z.compare_eq_iff. lia. }
  rewrite Nat2Z.inj_succ, Z.pow_succ_r in Ha, Hb by lia.
  rewrite str_cmp_snoc by by rewrite !hexw_length.
  pose proof (Z.div_mod a 16 ltac:(lia)). pose proof (Z.mod_pos_bound a 16 ltac:(lia)).
  pose proof (Z.div_mod b 16 ltac:(lia)). pose proof (Z.mod_pos_bound b 16 ltac:(lia)).
  rewrite IH by (split; [apply Z.div_pos; lia|apply Z.div_lt_upper_bound; lia]). rewrite digit_char_cmp by done.
  destruct (Z.compare_spec (a / 16) (b / 16)) as [Heq|Hlt|Hgt].
  - destruct (Z.compare_spec (a mod 16) (b mod 16)); symmetry;
      [apply Z.compare_eq_iff|apply Z.compare_lt_iff|apply Z.compare_gt_iff]; lia.
  - symmetry. apply Z.compare_lt_iff. lia.
  - symmetry. apply Z.compare_gt_iff. lia.
Qed.

Lemma hex32_cmp a b : uint 128 a → uint 128 b → str_cmp (hex32 a) (hex32 b) = (a ?= b).
Proof. intros Ha Hb. rewrite !hex32_fixed by done. unfold uint in *. by apply hexw_cmp. Qed.

(** ** Sorting *)
Section sort.
Context {A : Type} (key : A → Z).
Abbreviation by_key := (λ a b, key a ?= key b).

Lemma insert_by_perm (cmp : A → A → comparison) x l : insert_by cmp x l ≡ₚ x :: l.
Proof using.
  induction l as [|y l IH]; cbn [insert_by]; [done|]. destruct (cmp x y); [done..|]. rewrite IH. apply Permutation_swap.
Qed.
Lemma sort_by_perm (cmp : A → A → comparison) l : sort_by cmp l ≡ₚ l.
Proof using. induction l as [|x l IH]; [done|]. cbn. by rewrite insert_by_perm, IH. Qed.

Definition ordered : list A → Prop := StronglySorted (λ a b, key a ≤ key b).

Lemma insert_by_ordered x l : ordered l → ordered (insert_by by_key x l).
Proof using.
  unfold ordered. induction l as [|y l IH]; intros Hl; cbn [insert_by].
  { by repeat constructor. }
  apply StronglySorted_cons in Hl as [Hy Hl]. destruct (Z.compare_spec (key x) (key y)) as [He|He|He].
  1,2: apply StronglySorted_cons; split; [|by apply StronglySorted_cons].
  1,2: constructor; [lia|]; eapply Forall_impl; [exact Hy|]; intros z Hz; cbn beta in *; lia.
  apply StronglySorted_cons. split; [|by apply IH]. rewrite insert_by_perm. constructor; [lia|done].
Qed.
Lemma sort_by_ordered l : ordered (sort_by by_key l).
Proof using. induction l as [|x l IH]; [constructor|]. cbn. by apply insert_by_ordered. Qed.

(** Sorting by a comparison that agrees with the keys. *)
Lemma sort_by_map {B} (f : A → B) (cmp : B → B → comparison) l :
  (∀ x y, x ∈ l → y ∈ l → cmp (f x) (f y) = (key x ?= key y)) →
  sort_by cmp (f <$> l) = f <$> sort_by by_key l.
Proof using.
  induction l as [|x l IH]; intros Hc; [done|]. cbn. fold (sort_by by_key l). fold (sort_by cmp (f <$> l)).
  rewrite IH by (intros a b ? ?; apply Hc; by right).
  assert (∀ y, y ∈ sort_by by_key l → cmp (f x) (f y) = (key x ?= key y)) as Hx.
  { intros y Hy. apply Hc; [by left|]. right. by rewrite <- (sort_by_perm by_key l). }
  clear IH Hc. induction (sort_by by_key l) as [|y s IH]; [done|]. cbn [fmap list_fmap insert_by].
  rewrite (Hx y) by (by left). destruct (key x ?= key y); [done..|]. cbn [fmap list_fmap]. f_equal.
  apply IH. intros z Hz. apply Hx. by right.
Qed.
End sort.

(** ** Introspection *)

(** Rule, key, bucket as one number: the order in which cells are listed. *)
Definition entry_key (e : CellDumpEntry) : Z :=
  (cd_rule_fingerprint e * 2 ^ 128 + cd_key_hash e) * 2 ^ 32 + cd_bucket e.
Definition entry_typed (e : CellDumpEntry) : Prop :=
  uint 128 (cd_rule_fingerprint e) ∧ uint 128 (cd_key_hash e) ∧ uint 32 (cd_bucket e).

Lemma compare_digits m a b c d : 0 ≤ b < m → 0 ≤ d < m →
  (a * m + b ?= c * m + d) = match a ?= c with Eq => b ?= d | r => r end.
Proof.
  intros Hb Hd. destruct (Z.compare_spec a c) as [->|Hl|Hg].
  - destruct (Z.compare_spec b d); [apply Z.compare_eq_iff|apply Z.compare_lt_iff|apply Z.compare_gt_iff]; lia.
  - apply Z.compare_lt_iff. nia.
  - apply Z.compare_gt_iff. nia.
Qed.

Lemma cell_cmp_key a b : entry_typed a → entry_typed b →
  cell_cmp (introspection_cell a) (introspection_cell b) = (entry_key a ?= entry_key b).
Proof.
  intros (Ha1 & Ha2 & Ha3) (Hb1 & Hb2 & Hb3). unfold cell_cmp, introspection_cell, entry_key.
  cbn [ic_rule_fingerprint ic_key_hash ic_bucket]. rewrite !hex32_cmp by done. unfold uint in *.
  rewrite compare_digits by done. rewrite compare_digits by done.
  by destruct (cd_rule_fingerprint a ?= cd_rule_fingerprint b), (cd_key_hash a ?= cd_key_hash b).
Qed.

(** The cells of another node, as the contents name them. *)
Definition of_others (local : Z) (cell : CellName * Z) : Prop := cn_node cell.1 ≠ local.
#[export] Instance of_others_dec local cell : Decision (of_others local cell).
Proof. unfold of_others. apply _. Defined.

Lemma remote_cells_named local cells : Forall (λ e, is_Some (cd_origin_node_id e)) cells →
  dump_cell <$> List.filter (is_remote local) cells = filter (of_others local) (dump_cell <$> cells).
Proof.
  induction 1 as [|e cells [id Hid] _ IH]; [done|]. cbn [List.filter fmap list_fmap].
  assert (cn_node (dump_cell e).1 = id) as Hn by (cbn; by rewrite Hid).
  unfold is_remote at 1. rewrite filter_cons, Hid.
  case_decide as Hd; unfold of_others in Hd; rewrite Hn in Hd; destruct (id =? local) eqn:E; bool_solve; cbn [negb]; try done.
  cbn [fmap list_fmap]. by rewrite IH.
Qed.

(** The line [c] shows the cell [n] with its count. *)
Definition shows (c : IntrospectionCell) (n : CellName) (count : Z) : Prop :=
  radix_digits 16 0 (ic_rule_fingerprint c) = Some (cn_fingerprint n) ∧
  radix_digits 16 0 (ic_key_hash c) = Some (cn_key_hash n) ∧ ic_bucket c = cn_bucket n ∧ ic_count c = count ∧
  ∃ origin, ic_origin_node_id c = Some origin ∧ radix_digits 16 0 origin = Some (cn_node n).

(** An entry of the dump, printed. *)
Lemma entry_shows e : name_typed (dump_cell e).1 → is_Some (cd_origin_node_id e) →
  shows (introspection_cell e) (dump_cell e).1 (dump_cell e).2.
Proof.
  intros (H1 & H2 & H3 & H4 & H5) [o Horigin]. unfold dump_cell in *. cbn in *. rewrite Horigin in *. cbn in *.
  split_and!; try done; [by apply hex32_reads..|]. exists (hex32 o). cbn. rewrite Horigin. split; [done|by apply hex32_reads].
Qed.

(** C20: an introspection shows the store.  Asked while the store holds [V], it
    answers with cells of other nodes only, each at most once, with the rule, key
    and origin readable from the text, the bucket, the count that [V] has, and in
    the order of rule, key and bucket; there are as many as the cap allows, and when it allows
    all, they are exactly the cells of [V] whose origin is another node. *)
Theorem introspection_exact {C : Count} {CL : CountLaws C} hmac {S : Type} `{AggregateLaws S} L K
    (self : t S) V params reply :
  rt_inv hmac L K self V → 0 ≤ ip_max_cells params →
  let local := node_id (CellStore.local_identity (store self)) in
  let others := filter (of_others local) (map_to_list V) in
  ∃ dump resp shown,
    handle_admin_command self (CellDump reply) = Some [CellDumpReply reply dump] ∧
    introspection_handler params true (Some (GossipRuntime.admin_snapshot self)) true (Some dump) = Ok resp ∧
    ir_remote_cells resp = introspection_cell <$> shown ∧ ordered entry_key shown ∧ NoDup (dump_cell <$> shown) ∧
    (∀ e, e ∈ shown → ∃ n count, dump_cell e = (n, count) ∧ V !! n = Some count ∧ cn_node n ≠ local ∧
      shows (introspection_cell e) n count) ∧
    remote_active_cells (ir_gossip resp) = Z.min (ip_max_cells params) (zlen others) ∧
    (zlen others ≤ ip_max_cells params → dump_cell <$> shown ≡ₚ others).
Proof.
  intros Hi Hmax local others.
  destruct (admin_ok hmac L K self V (CellDump reply) Hi) as (effs & He & _ & dump & -> & Hp & Ho & _).
  pose proof (remote_cells_named local (cs_cells dump) Ho) as Hr.
  set (remote := List.filter (is_remote local) (cs_cells dump)) in *.
  assert (dump_cell <$> remote ≡ₚ others) as Hothers by (rewrite Hr; unfold others; by rewrite Hp).
  set (kept := take (Z.to_nat (ip_max_cells params)) remote).
  set (shown := sort_by (λ a b, entry_key a ?= entry_key b) kept).
  assert (kept ⊆+ remote) as Hsub by apply sublist_submseteq, sublist_take.
  assert (shown ≡ₚ kept) as Hshown by apply sort_by_perm.
  assert (∀ e, e ∈ kept → entry_typed e ∧ dump_cell e ∈ others) as Htyped.
  { intros e Hk. assert (dump_cell e ∈ others) as Hin.
    { rewrite <- Hothers. apply list_elem_of_fmap_2. by eapply elem_of_submseteq. }
    split; [|done]. apply list_elem_of_filter in Hin as [_ Hin]. unfold dump_cell in Hin. apply elem_of_map_to_list in Hin.
    apply (so_names _ _ _ _ (ri_store _ _ _ _ _ Hi)) in Hin as (H1 & H2 & H3 & _). done. }
  exists dump, {| ir_identity := identity_snapshot (as_local_identity (GossipRuntime.admin_snapshot self));
    ir_gossip := {| remote_active_cells := zlen (sort_by cell_cmp (introspection_cell <$> kept));
      decode_errors := as_decode_reject_count (GossipRuntime.admin_snapshot self);
      merge_cells := 0; send_bytes := 0; recv_bytes := 0; digest_mismatch := 0 |};
    ir_active_peers := peer_snapshot <$> take (Z.to_nat (ip_max_peers params)) (as_peers (GossipRuntime.admin_snapshot self));
    ir_remote_cells := sort_by cell_cmp (introspection_cell <$> kept) |}, shown.
  split; [done|]. split; [done|]. cbn [ir_remote_cells ir_gossip remote_active_cells].
  rewrite (sort_by_map entry_key introspection_cell cell_cmp kept).
  2:{ intros x y Hx Hy. apply cell_cmp_key; by apply Htyped. }
  fold shown. split; [done|]. split; [apply sort_by_ordered|].
  assert (NoDup others) as Hnd by apply NoDup_filter, NoDup_map_to_list.
  assert (NoDup (dump_cell <$> kept)) as Hkept.
  { rewrite <- Hothers in Hnd. rewrite <- (take_drop (Z.to_nat (ip_max_cells params)) remote), fmap_app in Hnd. by apply NoDup_app in Hnd as [? _]. }
  split; [by rewrite Hshown|].
  split.
  { intros e Hk. rewrite Hshown in Hk. destruct (Htyped e Hk) as [_ [Hof Hin]%list_elem_of_filter].
    rewrite (surjective_pairing (dump_cell e)) in Hin. apply elem_of_map_to_list in Hin.
    exists (dump_cell e).1, (dump_cell e).2. split; [by destruct (dump_cell e)|]. split; [done|]. split; [exact Hof|].
    apply entry_shows; [by eapply (so_names _ _ _ _ (ri_store _ _ _ _ _ Hi))|]. rewrite Forall_forall in Ho. apply Ho.
    apply elem_of_submseteq with (x := e) in Hsub; [|done]. unfold remote in Hsub.
    rewrite list_elem_of_In, filter_In, <- list_elem_of_In in Hsub. by destruct Hsub. }
  assert (zlen remote = zlen others) as Hlen by (unfold zlen; by rewrite <- (Permutation_length Hothers), length_fmap).
  assert (zlen shown = Z.min (ip_max_cells params) (zlen others)) as Hz.
  { rewrite <- Hlen. unfold zlen. rewrite (Permutation_length Hshown). unfold kept. rewrite length_take. lia. }
  split; [by rewrite zlen_fmap|]. intros Hall. rewrite Hshown. unfold kept. rewrite take_ge; [done|]. unfold zlen in *. lia.
Qed.

Lemma introspection_exact_witness :
  ∃ (rs : @RunState DashMapStore.t) (V : gmap CellName Z) dump resp shown,
    handle_admin_command (rs_self rs) (CellDump 7) = Some [CellDumpReply 7 dump] ∧
    introspection_handler (IntrospectionParams_of (Some 1) None) true
      (Some (GossipRuntime.admin_snapshot (rs_self rs))) true (Some dump) = Ok resp ∧
    ir_remote_cells resp = introspection_cell <$> shown ∧ ordered entry_key shown ∧
    (∀ e, e ∈ shown → ∃ n count, V !! n = Some count ∧ shows (introspection_cell e) n count).
Proof.
  destruct node_queued as (rs & V & [Hri _ _ _ _] & _ & _ & _).
  destruct (@introspection_exact Count_u16 _ sample_hmac DashMapStore.t _ _ _ _ (rs_self rs) V (IntrospectionParams_of (Some 1) None) 7 Hri)
    as (dump & resp & shown & H1 & H2 & H3 & H4 & _ & H5 & _); [cbn; lia|].
  exists rs, V, dump, resp, shown. split; [exact H1|]. split; [exact H2|]. split; [exact H3|]. split; [exact H4|].
  intros e He. destruct (H5 e He) as (n & count & _ & Hv & _ & Hs). exists n, count. split; [exact Hv|exact Hs].
Defined.
