(* ===== verification/Leader.v ===== *)
(** * The nginx leader

    [crates/nginx/src/leader.rs] and [identity.rs]: the settings a worker's
    leader thread runs with, the identity of a term, what a term sets up, the
    campaign for the lease with its back-off, and the loop that drains the
    shared queue into the event loop.  The wall clock, the monotonic clock, the
    socket and how a term ends are inputs. *)

From stdpp Require Import strings.
From S2P Require Import Prelude Types Hash Index Freelist Dictionary DirtyRing PeerFrontier IO CellStore Bytes Str Window Rules DashMap Mirror Limiter Queue Lease ShmTable NginxRules Access Shm WireHeader WireBody Wire Runtime NetAddr ServerConfig.

(** ** Identity *)

(** [SystemTime::now().duration_since(UNIX_EPOCH)], in nanoseconds; [None] is a
    clock before 1970. *)
Definition fresh_incarnation (since_epoch : option Z) : Z :=
  Z.max (match since_epoch with
         | Some d => let secs := d / NANOS_PER_SEC in if secs <=? U32_MAX then secs else U32_MAX
         | None => 1
         end) 1.

Definition random_seed (since_epoch : option Z) (pid : Z) : str :=
  lit "gabion-" ++ print_radix 16 33 (default 0 since_epoch) ++ lit "-" ++ print_radix 16 9 pid.

(** The seed: the first source that answers. *)
Definition derive_identity (xxh3 : list Z → Z) (seed_override hostname local_ip_seed : option str)
    (since_epoch : option Z) (pid : Z) : NodeIdentity :=
  let seed := match seed_override with
              | Some s => s
              | None => match hostname with
                        | Some s => s
                        | None => default (random_seed since_epoch pid) local_ip_seed
                        end
              end in
  {| node_id := xxh3 (str_bytes seed); ni_incarnation := fresh_incarnation since_epoch |}.

(** ** Settings *)
Definition DRAIN_BATCH : Z := 32.
Definition LEASE_TTL : Duration := 1 * NANOS_PER_SEC.
Definition LEASE_TTL_MILLIS : Z := LEASE_TTL / 1000000.
Definition MAX_RETRY_DELAY : Duration := 30 * NANOS_PER_SEC.
Definition LONE_NODE_BIND : SocketAddr := V4 2130706433 0.

Module Settings.
Record GossipSettings := {
  tick_interval : Duration;
  fanout : Z;
  max_payload_bytes : Z;
  max_cells_per_frame : Z;
  max_cells_per_tick : Z;
  send_queue_capacity : Z;
  cluster_id_hash : Z;
  target_err_bps : Z;
  min_emit_interval : Duration;
}.
Definition GossipSettings_default : GossipSettings := {|
  tick_interval := 500 * 1000000; fanout := 3; max_payload_bytes := 1400; max_cells_per_frame := 4096;
  max_cells_per_tick := 4096; send_queue_capacity := 128; cluster_id_hash := GOSSIP_CLUSTER_ID_HASH;
  target_err_bps := 100; min_emit_interval := 5 * 1000000 |}.

Definition into_runtime_config (self : GossipSettings) (identity : NodeIdentity) (rng_seed : Z) : GossipConfig := {|
  gc_local_identity := identity;
  gc_cluster_id_hash := cluster_id_hash self;
  gc_bootstrap_peers := [];
  gc_fanout := fanout self;
  gc_max_cells_per_tick := max_cells_per_tick self;
  gc_wire_limits := {| Wire.max_payload_bytes := max_payload_bytes self; max_cells := max_cells_per_frame self |};
  gc_send_queue_capacity := send_queue_capacity self;
  gc_limit_queue_capacity := DRAIN_BATCH;
  gc_tick_interval := tick_interval self;
  gc_auth_key := None;
  gc_rng_seed := rng_seed;
  gc_target_err_bps := target_err_bps self;
  gc_min_emit_interval := min_emit_interval self |}.
End Settings.

Definition production_cell_store_config : CellStoreConfig := {|
  cell_capacity := as_u32 STORAGE_MAX_CELLS; rule_dictionary_capacity := 64; node_dictionary_capacity := 1024;
  local_dirty_capacity := 65536; forwarded_dirty_capacity := 524288; peer_capacity := 256 |}.

Record LeaderConfig := {
  lc_worker_id : Z;
  lc_gossip_bind : option SocketAddr;
  lc_gossip : Settings.GossipSettings;
  lc_discovery : DiscoveryConfig;
  lc_cell_store : CellStoreConfig;
  lc_rng_seed : Z;
  lc_lease_tick : Duration;
}.

(** ** The zone *)
Record Zone := {
  z_layout : Layout.t;
  z_identity : NodeIdentityFields;
  z_lease : LeaderLease;
  z_queue : RequestQueue;
  z_region : Region;
  z_stats : Access.Stats;
}.
#[export] Instance eta_Zone : Eta Zone := λ x, {|
  z_layout := z_layout x; z_identity := z_identity x; z_lease := z_lease x; z_queue := z_queue x; z_region := z_region x;
  z_stats := z_stats x |}.

(** [ShmRegion::initialize] *)
Definition initialize (layout : Layout.t) : Zone := {|
  z_layout := layout;
  z_identity := NodeIdentityFields_default;
  z_lease := LeaderLease_default;
  z_queue := queue_new (Layout.queue_capacity layout);
  z_region := {| agg_slots := replicate (Z.to_nat (Layout.aggregate_capacity layout)) AggregateSlot_empty;
                 aggregate_write_seq := 2; aggregate_dropped := 0; lease_epoch := 0 |};
  z_stats := Access.Stats_default |}.

(** ** A term *)
Definition descriptor_of_spec (spec : RuleSpec) : RuleDescriptor := {|
  fingerprint := spec_fingerprint spec;
  window_millis := Z.min (spec_window_millis spec) U32_MAX;
  bucket_millis := Z.min (spec_bucket_millis spec) U32_MAX;
  Dictionary.limit := spec_limit spec;
  flags := 0;
  local_rule_id := spec_id spec |}.

(** A rule that does not fit the dictionary is left out. *)
Fixpoint register_rules (cell_store : CellStore.t) (rules : list CompiledRule) : option CellStore.t :=
  match rules with
  | [] => Some cell_store
  | compiled :: rules =>
    '(cell_store, _) ← CellStore.intern_rule cell_store (descriptor_of_spec (spec (cr_rule compiled)));
    register_rules cell_store rules
  end.

(** A fresh incarnation is stamped into the header. *)
Definition take_identity (header : NodeIdentityFields) (since_epoch : option Z) : NodeIdentityFields * NodeIdentity :=
  let new_incarnation := Z.max (fresh_incarnation since_epoch) (saturating_add 32 (load_incarnation header) 1) in
  let header := store_incarnation header new_incarnation in
  (header, {| node_id := load_node_id header; ni_incarnation := new_incarnation |}).

Record Term := {
  tm_config : GossipConfig;
  tm_store : CellStore.t;
  tm_bind : SocketAddr;
  tm_discovers : bool;
  tm_epoch : Z;
}.

(** [leader_main] up to the event loop; [bound] says whether the socket binds.
    The inner [None] is the error of a socket that does not. *)
Definition leader_main (config : LeaderConfig) (zone : Zone) (rules : list CompiledRule)
    (since_epoch : option Z) (bound : bool) : option (Zone * option Term) :=
  let '(header, identity) := take_identity (z_identity zone) since_epoch in
  let zone := zone <| z_identity := header |> in
  cell_store ← CellStore.new (lc_cell_store config) identity;
  cell_store ← register_rules cell_store rules;
  let gossip_cfg := Settings.into_runtime_config (lc_gossip config) identity (lc_rng_seed config) in
  let '(bind, discovers) := match lc_gossip_bind config with
                            | Some bind => (bind, true)
                            | None => (LONE_NODE_BIND, false)
                            end in
  if negb bound then Some (zone, None) else
  let '(region, epoch) := store_new (z_region zone <| lease_epoch := epoch (z_lease zone) |>) in
  Some (zone <| z_region := region |>,
        Some {| tm_config := gossip_cfg; tm_store := cell_store; tm_bind := bind; tm_discovers := discovers;
                tm_epoch := epoch |}).

(** ** Draining *)
Inductive DrainError := LostLease (worker : Z) | ShutDown.

(** [RecordPermit::record] of a drained event. *)
Definition request_of (ev : QueueEvent) : LimitRequest := {|
  lr_rule_fingerprint := ev_rule_fingerprint ev; lr_key_hash := ev_key_hash ev; lr_bucket := ev_bucket ev;
  lr_hits := ev_hits ev; lr_rule_limit := ev_rule_limit ev; lr_now_millis := ev_now_millis ev; lr_reply := None |}.

(** One pass of [drain_loop]; [permits] is whether the event loop still runs. *)
Definition drain_pass (zone : Zone) (worker_id now_millis : Z) (permits : bool) :
    option (Zone * (list LimitRequest + DrainError)) :=
  let '(lease, held) := try_acquire (z_lease zone) worker_id now_millis LEASE_TTL_MILLIS in
  let zone := zone <| z_lease := lease |> in
  if negb held then Some (zone, Err (LostLease worker_id)) else
  if negb permits then Some (zone, Err ShutDown) else
  '(queue, events) ← Queue.drain (z_queue zone) (Z.to_nat DRAIN_BATCH);
  let requests : list LimitRequest := request_of <$> (events : list QueueEvent) in
  let stats := Access.record_queue_drain (z_stats zone) (zlen requests) in
  Some (zone <| z_queue := queue |> <| z_stats := stats |>, Ok requests).

(** ** The campaign *)
Record Campaign := { retry_delay : Duration; announced_follower : bool; resigned : bool }.
#[export] Instance eta_Campaign : Eta Campaign := λ x, {|
  retry_delay := retry_delay x; announced_follower := announced_follower x; resigned := resigned x |}.
Definition Campaign_new : Campaign := {| retry_delay := LEASE_TTL; announced_follower := false; resigned := false |}.

(** What an iteration meets: a stop request, or a tick at which the lease is
    tried; a term, if one runs, leaves the zone as it does, lasts [led] and ends
    with or without an error. *)
Inductive Wake := StopRequested | LeaseTick (now_millis : Z) (term : Zone → Zone) (led : Duration) (failed : bool).

(** The state, the zone, and the delay the tick is reset to after a failure. *)
Definition campaign (worker_id : Z) (self : Campaign) (zone : Zone) (wake : Wake) : Campaign * Zone * option Duration :=
  if resigned self then (self, zone, None) else
  match wake with
  | StopRequested => (self <| resigned := true |>, zone, None)
  | LeaseTick now_millis term led failed =>
    let '(lease, won) := try_acquire (z_lease zone) worker_id now_millis LEASE_TTL_MILLIS in
    let zone := zone <| z_lease := lease |> in
    if negb won then (self <| announced_follower := true |>, zone, None) else
    let zone := term zone in
    let zone := zone <| z_lease := (release (z_lease zone) worker_id).1 |> in
    if negb failed then (self <| resigned := true |>, zone, None) else
    let delay := if MAX_RETRY_DELAY <=? led then LEASE_TTL else retry_delay self in
    (self <| retry_delay := Z.min (delay * 2) MAX_RETRY_DELAY |> <| announced_follower := false |>, zone, Some delay)
  end.
