(* ===== verification/LeaderSpec.v ===== *)
(** * What a leader promises

    Terms never reuse an identity, a term that cannot bind leaves the counts in
    force, a pass moves events from the shared queue to the event loop in order
    and only while the lease is held, and a failing leader backs off and gives
    the lease up. *)

From stdpp Require Import strings.
From S2P Require Import Prelude Types Hash Index Freelist Dictionary DirtyRing PeerFrontier IO CellStore CellSlots CellInv CellOps CellMerge CellExpire GossipFrame View CellTyped Bytes Str Window Rules DashMap Mirror Limiter Queue Lease ShmTable NginxRules Access Shm WireHeader WireBody Wire Runtime NetAddr ServerConfig Leader.
#[local] Existing Instances Count_u32.

(** ** Identities of successive terms *)
Fixpoint identities (header : NodeIdentityFields) (clocks : list (option Z)) : list NodeIdentity :=
  match clocks with
  | [] => []
  | c :: clocks => let '(header, id) := take_identity header c in id :: identities header clocks
  end.

Lemma take_identity_ok header c : 0 ≤ load_incarnation header ≤ U32_MAX → (∀ d, c = Some d → 0 ≤ d) →
  let '(header', id) := take_identity header c in
  node_id id = load_node_id header ∧ load_node_id header' = load_node_id header ∧
  load_incarnation header' = ni_incarnation id ∧ 1 ≤ ni_incarnation id ≤ U32_MAX ∧
  (load_incarnation header < U32_MAX → load_incarnation header < ni_incarnation id) ∧
  load_incarnation header ≤ ni_incarnation id.
Proof.
  intros Hi Hc. unfold take_identity, fresh_incarnation, saturating_add, load_incarnation, U32_MAX in *. cbn.
  split; [done|]. split; [done|]. split; [done|].
  assert (0 ≤ match c with Some d => if d / NANOS_PER_SEC <=? 4294967295 then d / NANOS_PER_SEC else 4294967295 | None => 1 end
    ≤ 4294967295) as Hm.
  { destruct c as [d|]; [|lia]. specialize (Hc d eq_refl).
    pose proof (Z.div_pos d NANOS_PER_SEC Hc ltac:(unfold NANOS_PER_SEC; lia)).
    destruct (d / NANOS_PER_SEC <=? 4294967295) eqn:E; lia. }
  lia.
Qed.

(** Later terms have larger incarnations, up to the largest. *)
Definition later (a b : NodeIdentity) : Prop :=
  node_id b = node_id a ∧ ni_incarnation a ≤ ni_incarnation b ∧
  (ni_incarnation a < U32_MAX → ni_incarnation a < ni_incarnation b).

Lemma identities_later clocks : ∀ header,
  0 ≤ load_incarnation header ≤ U32_MAX → Forall (λ c, ∀ d, c = Some d → 0 ≤ d) clocks →
  Forall (later {| node_id := load_node_id header; ni_incarnation := load_incarnation header |}) (identities header clocks) ∧
  ∀ i j a b, (i < j)%nat → identities header clocks !! i = Some a → identities header clocks !! j = Some b → later a b.
Proof.
  induction clocks as [|c clocks IH]; intros header Hi Hc; cbn [identities]; [by split; [constructor|]|].
  apply Forall_cons in Hc as [Hc Hcs]. pose proof (take_identity_ok header c Hi Hc) as Ht.
  destruct (take_identity header c) as [header' id]. destruct Ht as (Hn & Hn' & Hinc & Hr & Hlt & Hle).
  destruct (IH header') as [Hf Hij]; [rewrite Hinc; lia|done|]. rewrite Hinc, Hn', <- Hn in Hf.
  replace {| node_id := node_id id; ni_incarnation := ni_incarnation id |} with id in Hf by (by destruct id).
  split.
  - constructor; [by split|]. eapply Forall_impl; [exact Hf|]. intros x (H1 & H2 & H3).
    split; [cbn; congruence|]. cbn. split; [lia|]. intros. specialize (Hlt ltac:(lia)). lia.
  - intros [|i] [|j] a b Hlt' Ha Hb; [lia| |lia|by eapply (Hij i j); [lia|..]].
    injection Ha as <-. rewrite Forall_forall in Hf. apply Hf. by eapply list_elem_of_lookup_2.
Qed.

(** ** A term *)

(** The fingerprints that fit a dictionary of [cap] slots, first come first
    served. *)
Definition fits_one (cap : Z) (L : gset Z) (fp : Z) : gset Z :=
  if bool_decide (fp ∈ L) || (Z.of_nat (size L) <? cap) then {[ fp ]} ∪ L else L.
Definition fitting (cap : Z) (fps : list Z) : gset Z := foldl (fits_one cap) ∅ fps.

(** With room for all of them, they all fit. *)
Lemma fits_all cap fps : ∀ L, Z.of_nat (size (list_to_set fps ∪ L : gset Z)) ≤ cap →
  foldl (fits_one cap) L fps = list_to_set fps ∪ L.
Proof.
  induction fps as [|fp fps IH]; intros L Hs; cbn [foldl list_to_set] in *; [by rewrite union_empty_l_L|].
  assert (({[ fp ]} ∪ list_to_set fps ∪ L : gset Z) = list_to_set fps ∪ ({[ fp ]} ∪ L)) as Heq
    by (by rewrite (union_comm_L {[ fp ]} (list_to_set _)), union_assoc_L).
  assert (fits_one cap L fp = {[ fp ]} ∪ L) as ->; [|rewrite IH by (by rewrite <- Heq); done].
  unfold fits_one. destruct (bool_decide (fp ∈ L)) eqn:E; [done|]. apply bool_decide_eq_false in E. cbn [orb].
  assert (size ({[ fp ]} ∪ L) ≤ size ({[ fp ]} ∪ list_to_set fps ∪ L : gset Z))%nat as Hle.
  { rewrite Heq. apply subseteq_size. apply union_subseteq_r. }
  rewrite size_union in Hle by (intros x ->%elem_of_singleton; done). rewrite size_singleton in Hle.
  by rewrite (proj2 (Z.ltb_lt _ _)) by lia.
Qed.

Lemma registering_size self A Mr Mn pins L :
  inv_at self A Mr Mn pins ∅ → enforced (Some L) Mr pins → (∀ s d, Mr !! s = Some d → fingerprint d ∈ L) →
  size L = size Mr.
Proof.
  intros Hi [Hp _] Hm. pose proof (ti_rules _ _ _ _ _ (iv_dicts _ _ _ _ _ _ Hi)) as Hd.
  rewrite <- (dom_gset_to_gmap L tt), size_dom.
  assert (∀ fp, is_Some (gset_to_gmap tt L !! fp) ↔ fp ∈ L) as Hdom
    by (intros fp; by rewrite <- elem_of_dom, dom_gset_to_gmap).
  apply Nat.le_antisymm.
  - apply (size_le_rel (λ fp s, ∃ d, Mr !! s = Some d ∧ fingerprint d = fp)).
    + intros fp (s & d & _ & Hs & Hf)%Hdom%Hp. exists s. split; [by eexists|by exists d].
    + intros fp1 fp2 s _ _ (d1 & ? & <-) (d2 & ? & <-). congruence.
  - apply (size_le_rel (λ s fp, ∃ d, Mr !! s = Some d ∧ fingerprint d = fp)).
    + intros s [d Hs]. exists (fingerprint d). split; [apply Hdom; by eapply Hm|by exists d].
    + intros s1 s2 fp _ _ (d1 & ? & Hf) (d2 & ? & <-). by eapply (di_keys _ _ _ _ Hd).
Qed.

(** Registering never panics; the rules that fit are the ones enforced. *)
Lemma leader_register_ok rules : ∀ L self, registering L self →
  Forall (λ c, spec_id (spec (cr_rule c)) ≠ U32_MAX) rules →
  ∃ self', register_rules self rules = Some self' ∧ stable self self' ∧
    registering (foldl (fits_one (Dict.capacity (CellStore.rule_dictionary self))) L
      ((λ c, spec_fingerprint (spec (cr_rule c))) <$> rules)) self'.
Proof.
  induction rules as [|c rules IH]; intros L self Hr Hids; cbn [register_rules]; [by exists self|].
  apply Forall_cons in Hids as [Hid Hids]. set (d := descriptor_of_spec (spec (cr_rule c))).
  destruct Hr as (A & Mr & Mn & pins & Hi & Henf & Hmr). pose proof (registering_size _ _ _ _ _ _ Hi Henf Hmr) as Hsz.
  destruct (intern_rule_ok self A Mr Mn pins ∅ d Hi) as (self1 & r & Mr' & pins' & He & Hst & Hi' & Hpins & Hr).
  rewrite He. cbn [mbind option_bind].
  assert (registering (fits_one (Dict.capacity (CellStore.rule_dictionary self)) L (fingerprint d)) self1) as Hreg.
  { unfold fits_one. rewrite Hsz. destruct r as [slot|].
    - destruct Hr as (-> & Hnew & _ & Hroom & Huniq & Hold).
      assert (bool_decide (fingerprint d ∈ L) || (Z.of_nat (size Mr) <? Dict.capacity (CellStore.rule_dictionary self)) = true) as ->.
      { destruct (Mr !! slot) as [d'|] eqn:E; [|rewrite (proj2 (Z.ltb_lt _ _)) by auto; apply orb_true_r].
        rewrite bool_decide_true; [done|]. rewrite <- (Hold d' eq_refl). by eapply Hmr. }
      exists A, (<[slot := d]> Mr), Mn, pins'. split; [done|]. split.
      + eapply enforced_register; try done.
        * unfold applies_locally, d. cbn. apply negb_true_iff. apply Z.eqb_neq. exact Hid.
        * intros d' Hd'. split; [by apply Hold|]. rewrite <- (Hold d' Hd'). by eapply Hmr.
      + intros s d' [[_ <-]|[_ Hd']]%lookup_insert_Some; [by apply elem_of_union_l, elem_of_singleton|]. apply elem_of_union_r. by eapply Hmr.
    - destruct Hr as (_ & -> & Hfull & -> & Hnew).
      rewrite (di_len _ _ _ _ (ti_rules _ _ _ _ _ (iv_dicts _ _ _ _ _ _ Hi))) in Hfull.
      rewrite (proj2 (Z.ltb_ge _ _)) by lia. rewrite bool_decide_false; [cbn [orb]; by exists A, Mr, Mn, pins|].
      intros Hin. destruct Henf as [Hp _]. destruct (Hp _ Hin) as (s & d' & _ & Hs & Hf). by destruct (Hnew s d' Hs). }
  destruct (IH _ self1 Hreg Hids) as (self' & -> & Hst' & Hreg'). exists self'. split; [done|]. split; [by etrans|].
  rewrite (st_rule_cap _ _ Hst) in Hreg'. exact Hreg'.
Qed.

(** The zone as [initialize] and its users leave it. *)
Record zone_ok (zone : Zone) : Prop := {
  zo_slots : ∃ e, 1 ≤ e ≤ 63 ∧ zlen (agg_slots (z_region zone)) = 2 ^ e;
  zo_seq : 2 ≤ aggregate_write_seq (z_region zone) < 2 ^ 64;
  zo_even : Z.land (aggregate_write_seq (z_region zone)) 1 = 0;
  zo_incarnation : 0 ≤ load_incarnation (z_identity zone) ≤ U32_MAX;
}.

Lemma initialize_ok l : packed 0 (regions l) (Layout.total_bytes l) →
  (∃ e, 1 ≤ e ≤ 63 ∧ Layout.aggregate_capacity l = 2 ^ e) → zone_ok (initialize l).
Proof.
  intros _ (e & He & Hc). split; cbn; [|lia|done|unfold U32_MAX; lia].
  exists e. split; [done|]. rewrite zlen_replicate, Hc. apply Z2Nat.id. apply Z.pow_nonneg. lia.
Qed.

(** C10: a term starts afresh or not at all.  With store capacities the cell
    store supports ([CellOps.config_ok]; the directives do not ensure it),
    leading does not panic.  A term takes the node's identity with an incarnation
    above every earlier one (until the largest); if its socket does not bind, the
    counts in the shared table stay as they are; if it does, the table is empty,
    and the event loop starts from an empty store in which the configured rules
    are enforced: all of them when the rule dictionary has a slot for each
    fingerprint, else the first ones that fit.  There is nobody to discover
    exactly when no bind address is configured.  Queue and lease are left alone. *)
Theorem leader_term_starts xxh3 config zone rules since_epoch bound :
  zone_ok zone → (∀ d, since_epoch = Some d → 0 ≤ d) → CellOps.config_ok (lc_cell_store config) →
  Forall (λ c, spec_id (spec (cr_rule c)) ≠ U32_MAX) rules →
  ∃ zone' t, leader_main config zone rules since_epoch bound = Some (zone', t) ∧ zone_ok zone' ∧
    z_queue zone' = z_queue zone ∧ z_lease zone' = z_lease zone ∧
    load_node_id (z_identity zone') = load_node_id (z_identity zone) ∧
    (load_incarnation (z_identity zone) < U32_MAX →
     load_incarnation (z_identity zone) < load_incarnation (z_identity zone')) ∧
    match t with
    | None => bound = false ∧ z_region zone' = z_region zone
    | Some t => bound = true ∧ represents xxh3 (z_region zone') ∅ ∧ tm_epoch t = epoch (z_lease zone) ∧
        gc_local_identity (tm_config t) =
          {| node_id := load_node_id (z_identity zone); ni_incarnation := load_incarnation (z_identity zone') |} ∧
        CellStore.local_identity (tm_store t) = gc_local_identity (tm_config t) ∧
        (tm_discovers t = false ↔ lc_gossip_bind config = None) ∧
        let fps := (λ c, spec_fingerprint (spec (cr_rule c))) <$> rules in
        let cap := rule_dictionary_capacity (lc_cell_store config) in
        inv_on (Some (fitting cap fps)) (tm_store t) ∅ ∧
        (Z.of_nat (size (list_to_set fps : gset Z)) ≤ cap → inv_on (Some (list_to_set fps)) (tm_store t) ∅)
    end.
Proof.
  intros [Hs Hq Hev Hinc] Hclk Hcfg Hids. unfold leader_main.
  pose proof (take_identity_ok (z_identity zone) since_epoch Hinc Hclk) as Ht.
  destruct (take_identity (z_identity zone) since_epoch) as [header id]. destruct Ht as (Hn & Hn' & Hi & Hr & Hlt & Hle).
  destruct (store_new_ok (lc_cell_store config) id Hcfg) as (st0 & Mn & -> & Hinv & Hid & _ & Hrc & _). cbn [mbind option_bind].
  destruct (leader_register_ok rules ∅ st0) as (st & -> & Hst & Hreg); [|done|].
  { exists ∅, ∅, Mn, ∅. split; [done|]. split; [|by intros ? ? ?%lookup_empty_Some].
    split; [by intros fp ?%elem_of_empty|by intros ? ? ?%lookup_empty_Some]. }
  cbn [mbind option_bind].
  assert (id = {| node_id := load_node_id (z_identity zone); ni_incarnation := load_incarnation header |}) as Heq
    by (destruct id; cbn in *; congruence).
  set (bd := match lc_gossip_bind config with Some b => (b, true) | None => (LONE_NODE_BIND, false) end).
  assert (bd.2 = false ↔ lc_gossip_bind config = None) as Hbd by (unfold bd; by destruct (lc_gossip_bind config)).
  destruct bd as [bind discovers]. cbn [snd] in Hbd.
  destruct bound; cbn [negb store_new].
  - eexists _, (Some _). split; [done|]. split.
    { split; [by cbn; rewrite zlen_fmap|done|done|cbn; rewrite Hi; lia]. }
    split; [done|]. split; [done|]. split; [done|]. split; [cbn; intros; rewrite Hi; by apply Hlt|].
    split; [done|]. split; [by apply (shm_new_ok xxh3)|]. split; [done|]. split; [exact Heq|].
    split; [cbn; by rewrite (st_identity _ _ Hst)|]. split; [done|].
    rewrite Hrc in Hreg. apply registering_inv in Hreg. split; [exact Hreg|].
    intros Hsz. rewrite fits_all, union_empty_r_L in Hreg by (by rewrite union_empty_r_L). exact Hreg.
  - eexists _, None. split; [done|]. split; [split; [done|done|done|cbn; rewrite Hi; lia]|].
    split_and!; try done. cbn. intros. rewrite Hi. by apply Hlt.
Qed.

(** ** Draining *)

(** C11: a drain pass is exact.  While the queue holds [l], a worker that holds or
    wins the lease and whose event loop takes requests hands it the oldest 32
    events (all of them when there are fewer), each once, in order and with its
    fields, and leaves the rest; a worker that has lost the lease, or whose event
    loop has stopped, reports that and takes nothing off the queue. *)
Theorem drain_pass_exact k zone l worker_id now permits :
  1 ≤ k → Queue.contents k (z_queue zone) l → enqueue_pos (control (z_queue zone)) + 2 ^ k < 2 ^ 63 →
  let '(lease, held) := try_acquire (z_lease zone) worker_id now LEASE_TTL_MILLIS in
  let drains := held && permits in
  ∃ zone', drain_pass zone worker_id now permits =
      Some (zone', if negb held then Err (LostLease worker_id) else
                   if negb permits then Err ShutDown else Ok (request_of <$> take 32 l)) ∧
    z_lease zone' = lease ∧ z_region zone' = z_region zone ∧ z_identity zone' = z_identity zone ∧
    Queue.contents k (z_queue zone') (if drains then drop 32 l else l) ∧
    (drains = false → z_queue zone' = z_queue zone).
Proof.
  intros Hk Hc Hb. unfold drain_pass. destruct (try_acquire (z_lease zone) worker_id now LEASE_TTL_MILLIS) as [lease held].
  destruct held; cbn [negb andb]; [|by eexists]. destruct permits; cbn [negb andb]; [|by eexists].
  destruct (drain_contents k Hk (Z.to_nat DRAIN_BATCH) (z_queue zone) l Hc Hb) as (q' & Hd & Hc').
  cbn [z_queue set_field]. rewrite Hd. cbn [mbind option_bind]. by eexists.
Qed.

(** ** The campaign *)

(** [run_campaign] and the delays it asks for. *)
Fixpoint run_campaign (worker_id : Z) (self : Campaign) (zone : Zone) (wakes : list Wake) :
    Campaign * Zone * list Duration :=
  match wakes with
  | [] => (self, zone, [])
  | wake :: wakes =>
    let '(self, zone, delay) := campaign worker_id self zone wake in
    let '(self, zone, delays) := run_campaign worker_id self zone wakes in
    (self, zone, match delay with Some d => d :: delays | None => delays end)
  end.

Definition owner_of (lease : LeaderLease) : Z := (unpack (state lease)).1.

Lemma release_owner lease worker : truncate_owner worker ≠ 0 → owner_of (release lease worker).1 ≠ truncate_owner worker.
Proof.
  intros Hw. unfold release, owner_of. destruct (unpack (state lease)) as [owner e] eqn:E.
  destruct (owner =? truncate_owner worker) eqn:Eo; [change (0 ≠ truncate_owner worker); congruence|]. change ((unpack (state lease)).1 ≠ truncate_owner worker). rewrite E. cbn [fst]. bool_solve. lia.
Qed.

(** One iteration: the delay is in bounds, and after a term the lease is not ours. *)
Lemma campaign_ok worker self zone wake :
  LEASE_TTL ≤ retry_delay self ≤ MAX_RETRY_DELAY → truncate_owner worker ≠ 0 →
  let '(self', zone', delay) := campaign worker self zone wake in
  LEASE_TTL ≤ retry_delay self' ≤ MAX_RETRY_DELAY ∧
  (∀ d, delay = Some d → LEASE_TTL ≤ d ≤ MAX_RETRY_DELAY ∧ retry_delay self' = Z.min (2 * d) MAX_RETRY_DELAY ∧
    (d = LEASE_TTL ∨ d = retry_delay self)) ∧
  (resigned self = true → self' = self ∧ zone' = zone) ∧
  (delay ≠ None ∨ (resigned self' = true ∧ resigned self = false ∧ wake ≠ StopRequested) →
   owner_of (z_lease zone') ≠ truncate_owner worker).
Proof.
  intros Hd Hw. unfold campaign. destruct (resigned self) eqn:Er.
  { split; [done|]. split; [done|]. split; [done|]. intros [?|(? & ? & ?)]; done. }
  destruct wake as [|now term led failed].
  { split; [done|]. split; [done|]. split; [done|]. intros [?|(? & ? & ?)]; done. }
  destruct (try_acquire _ _ _ _) as [lease won]. unfold LEASE_TTL, MAX_RETRY_DELAY, NANOS_PER_SEC in *.
  destruct won; cbn [negb].
  2:{ split; [done|]. split; [done|]. split; [done|]. cbn. intros [?|(? & ? & ?)]; [done|congruence]. }
  destruct failed; cbn [negb].
  - cbn [retry_delay set_field resigned z_lease]. split; [destruct (_ <=? led); lia|].
    split; [|split; [done|intros _; by apply release_owner]].
    intros d [= <-]. destruct (_ <=? led); split_and!; try lia; auto.
  - split; [done|]. split; [done|]. split; [done|]. intros _. by apply release_owner.
Qed.

Lemma campaign_delay worker self zone wake :
  retry_delay (campaign worker self zone wake).1.1 = retry_delay self ∨ is_Some (campaign worker self zone wake).2.
Proof.
  unfold campaign. destruct (resigned self); [by left|]. destruct wake as [|now term led failed]; [by left|].
  destruct (try_acquire _ _ _ _) as [lease won]. destruct won; [|by left]. destruct failed; [by right|by left].
Qed.

(** Each delay is the lease's lifetime, after a term that lasted, or the last one
    doubled, up to the ceiling. *)
Fixpoint backoff (next : Duration) (delays : list Duration) : Prop :=
  match delays with
  | [] => True
  | d :: delays => (d = LEASE_TTL ∨ d = next) ∧ backoff (Z.min (2 * d) MAX_RETRY_DELAY) delays
  end.

(** Over any run of the campaign the delays asked for after failed terms double
    from the lease's lifetime up to thirty seconds, starting over after a term
    that lasted; a worker that was told to stop, or whose term ended without an
    error, never touches the zone again. *)
Theorem campaign_backs_off worker wakes : ∀ self zone,
  LEASE_TTL ≤ retry_delay self ≤ MAX_RETRY_DELAY → truncate_owner worker ≠ 0 →
  let '(self', zone', delays) := run_campaign worker self zone wakes in
  backoff (retry_delay self) delays ∧ LEASE_TTL ≤ retry_delay self' ≤ MAX_RETRY_DELAY ∧
  (resigned self = true → self' = self ∧ zone' = zone ∧ delays = []).
Proof.
  induction wakes as [|wake wakes IH]; intros self zone Hd Hw; cbn [run_campaign]; [done|].
  pose proof (campaign_ok worker self zone wake Hd Hw) as Hc.
  destruct (campaign worker self zone wake) as [[self1 zone1] delay] eqn:Ec. destruct Hc as (Hd1 & Hdel & Hres & _).
  specialize (IH self1 zone1 Hd1 Hw). destruct (run_campaign worker self1 zone1 wakes) as [[self2 zone2] delays].
  destruct IH as (Hf & Hd2 & Hres2). split_and!; [|lia|lia|].
  - destruct delay as [d|]; cbn [backoff].
    + destruct (Hdel d eq_refl) as (_ & Hdouble & Hfrom). by rewrite <- Hdouble.
    + destruct (campaign_delay worker self zone wake) as [Hk|Hk]; rewrite Ec in Hk; cbn in Hk; [by rewrite <- Hk|by destruct Hk].
  - intros Hr. destruct (Hres Hr) as [-> ->]. destruct (Hres2 Hr) as (-> & -> & ->).
    unfold campaign in Ec. rewrite Hr in Ec. by injection Ec as <-.
Qed.

(** ** A small zone *)
Definition tiny_layout : Layout.t := {|
  Layout.queue_capacity := 4; Layout.aggregate_capacity := 4; Layout.header_offset := 0; Layout.lease_offset := 128;
  Layout.queue_control_offset := 192; Layout.queue_slots_offset := 256; Layout.aggregate_slots_offset := 576;
  Layout.stats_offset := 832; Layout.total_bytes := 1472 |}.
Lemma tiny_layout_new : Layout.new 4 4 = Some (Some tiny_layout).
Proof. vm_compute. reflexivity. Qed.

Definition tiny_zone : Zone := initialize tiny_layout.
Lemma tiny_zone_ok : zone_ok tiny_zone.
Proof.
  split; [exists 2; vm_compute; split_and!; try done; discriminate|vm_compute; split; [discriminate|done]|done|vm_compute; split; discriminate].
Qed.

Definition tiny_leader : LeaderConfig := {|
  lc_worker_id := 7; lc_gossip_bind := None; lc_gossip := Settings.GossipSettings_default;
  lc_discovery := {| self_addr := None; namespace_allow := []; service_allow := [] |};
  lc_cell_store := {| cell_capacity := 4; rule_dictionary_capacity := 4; node_dictionary_capacity := 4;
                      local_dirty_capacity := 2; forwarded_dirty_capacity := 2; peer_capacity := 1 |};
  lc_rng_seed := 1; lc_lease_tick := 300 * 1000000 |}.

Lemma leader_term_starts_witness :
  ∃ zone' t, leader_main tiny_leader tiny_zone sample_rules (Some (5 * NANOS_PER_SEC)) true = Some (zone', Some t) ∧
    represents sample_hash (z_region zone') ∅ ∧ load_incarnation (z_identity zone') = 5.
Proof.
  destruct (leader_term_starts sample_hash tiny_leader tiny_zone sample_rules (Some (5 * NANOS_PER_SEC)) true tiny_zone_ok)
    as (zone' & t & Hm & _ & _ & _ & _ & _ & Ht).
  - intros d [= <-]. vm_compute. discriminate.
  - vm_compute. repeat split; (reflexivity || (let H := fresh in intros H; discriminate H)).
  - repeat (apply Forall_cons_2; [vm_compute; discriminate|]). constructor.
  - destruct t as [t|]; [|destruct Ht as [Hf _]; discriminate Hf]. exists zone', t. split; [exact Hm|]. split; [apply Ht|].
    assert (match leader_main tiny_leader tiny_zone sample_rules (Some (5 * NANOS_PER_SEC)) true with
            | Some (z, _) => load_incarnation (z_identity z) = 5 | None => False end) as H by (vm_compute; reflexivity).
    rewrite Hm in H. exact H.
Defined.

Lemma drain_pass_exact_witness :
  ∃ q, push (queue_new 4) (sample_event 1) = Some (q, true) ∧
  ∃ zone', drain_pass (tiny_zone <| z_queue := q |>) 7 100 true = Some (zone', Ok [request_of (sample_event 1)]) ∧
    Queue.contents 2 (z_queue zone') [].
Proof.
  destruct (push_contents 2 ltac:(lia) (queue_new 4) [] (sample_event 1) (new_contents 2 ltac:(lia)) (sample_event_ok 1)
    ltac:(reflexivity)) as (q & Hq & Hc & _). change (zlen [] <? 2 ^ 2) with true in Hq, Hc. cbv iota in Hc.
  exists q. split; [exact Hq|].
  assert (match push (queue_new 4) (sample_event 1) with
          | Some (q, _) => enqueue_pos (control q) = 1 | None => False end) as He by (vm_compute; reflexivity).
  rewrite Hq in He.
  destruct (drain_pass_exact 2 (tiny_zone <| z_queue := q |>) [sample_event 1] 7 100 true)
    as (zone' & Hr & _ & _ & _ & Hres & _); [lia|exact Hc|change (enqueue_pos (control q) + 2 ^ 2 < 2 ^ 63); rewrite He; reflexivity|].
  exists zone'. split; [exact Hr|exact Hres].
Defined.
