(* ===== verification/NginxModule.v ===== *)
(** * The nginx module

    [crates/nginx/src/module.rs]: the configuration the directives build, the
    inheritance between levels, the request handler and the worker hooks.  What
    nginx hands over is an argument: the tokens of a directive as bytes, its
    variables and templates, the page size, the request's marker slot.  [true]
    is [NGX_CONF_OK] or [NGX_OK]; diagnostics are not modelled. *)

From stdpp Require Import strings.
From S2P Require Import Prelude Types Bytes Str IO Window Rules DashMap Limiter Queue Lease ShmTable NginxRules Access Shm Runtime NetAddr ServerConfig Leader.

(** ** Configuration *)
Record StorageSettings := {
  ss_max_cells : Z;
  ss_rule_dictionary_capacity : Z;
  ss_node_dictionary_capacity : Z;
  ss_local_dirty_capacity : Z;
  ss_forwarded_dirty_capacity : Z;
  ss_peer_capacity : Z;
}.
#[export] Instance eta_StorageSettings : Eta StorageSettings := λ x, {|
  ss_max_cells := ss_max_cells x; ss_rule_dictionary_capacity := ss_rule_dictionary_capacity x;
  ss_node_dictionary_capacity := ss_node_dictionary_capacity x; ss_local_dirty_capacity := ss_local_dirty_capacity x;
  ss_forwarded_dirty_capacity := ss_forwarded_dirty_capacity x; ss_peer_capacity := ss_peer_capacity x |}.
Definition StorageSettings_default : StorageSettings := {|
  ss_max_cells := STORAGE_MAX_CELLS; ss_rule_dictionary_capacity := 64; ss_node_dictionary_capacity := 1024;
  ss_local_dirty_capacity := 65536; ss_forwarded_dirty_capacity := 524288; ss_peer_capacity := 256 |}.

Definition cell_store_config (self : StorageSettings) : CellStoreConfig := {|
  cell_capacity := as_u32 (Z.max (ss_max_cells self) 1);
  rule_dictionary_capacity := ss_rule_dictionary_capacity self;
  node_dictionary_capacity := ss_node_dictionary_capacity self;
  local_dirty_capacity := ss_local_dirty_capacity self;
  forwarded_dirty_capacity := ss_forwarded_dirty_capacity self;
  peer_capacity := ss_peer_capacity self |}.

(** A handle: where the zone is mapped, and its layout. *)
Record ShmRegion := { base : Z; region_layout : Layout.t }.

Record MainConfig := {
  layout : option Layout.t;
  region : option ShmRegion;
  rules : list RuleConfig;
  compiled : option (list CompiledRule);
  mc_discovery : DiscoveryConfig;
  mc_gossip : Settings.GossipSettings;
  mc_storage : StorageSettings;
  mc_cardinality : CardinalitySettings;
  gossip_bind : option SocketAddr;
  decided : option Z;
  identity_seed : option str;
  rng_seed : option Z;
}.
#[export] Instance eta_MainConfig : Eta MainConfig := λ x, {|
  layout := layout x; region := region x; rules := rules x; compiled := compiled x; mc_discovery := mc_discovery x;
  mc_gossip := mc_gossip x; mc_storage := mc_storage x; mc_cardinality := mc_cardinality x;
  gossip_bind := gossip_bind x; decided := decided x; identity_seed := identity_seed x; rng_seed := rng_seed x |}.
Definition MainConfig_default : MainConfig := {|
  layout := None; region := None; rules := []; compiled := None;
  mc_discovery := {| self_addr := None; namespace_allow := []; service_allow := [] |};
  mc_gossip := Settings.GossipSettings_default; mc_storage := StorageSettings_default;
  mc_cardinality := CardinalitySettings_default; gossip_bind := None; decided := None; identity_seed := None;
  rng_seed := None |}.

Definition active (self : MainConfig) : option (ShmRegion * list CompiledRule) :=
  region ← region self; compiled ← compiled self; Some (region, compiled).

#[export] Instance eta_Gossip : Eta Settings.GossipSettings := λ x, {|
  Settings.tick_interval := Settings.tick_interval x; Settings.fanout := Settings.fanout x;
  Settings.max_payload_bytes := Settings.max_payload_bytes x;
  Settings.max_cells_per_frame := Settings.max_cells_per_frame x;
  Settings.max_cells_per_tick := Settings.max_cells_per_tick x;
  Settings.send_queue_capacity := Settings.send_queue_capacity x;
  Settings.cluster_id_hash := Settings.cluster_id_hash x; Settings.target_err_bps := Settings.target_err_bps x;
  Settings.min_emit_interval := Settings.min_emit_interval x |}.
#[export] Instance eta_Cardinality : Eta CardinalitySettings := λ x, {|
  cs_max_descriptor_count := cs_max_descriptor_count x; cs_max_descriptor_bytes := cs_max_descriptor_bytes x;
  cs_max_key_bytes := cs_max_key_bytes x |}.
#[export] Instance eta_Discovery : Eta DiscoveryConfig := λ x, {|
  self_addr := self_addr x; namespace_allow := namespace_allow x; service_allow := service_allow x |}.

Record LocationConfig := { rule_indices : option (list Z); off : option bool }.
#[export] Instance eta_LocationConfig : Eta LocationConfig := λ x, {| rule_indices := rule_indices x; off := off x |}.
Definition LocationConfig_default : LocationConfig := {| rule_indices := None; off := None |}.

Definition merge (self previous : LocationConfig) : LocationConfig := {|
  rule_indices := match rule_indices self with None => rule_indices previous | Some l => Some l end;
  off := match off self with None => off previous | Some b => Some b end |}.

(** ** Arguments

    A directive's tokens, its name first; [to_str] is UTF-8 decoding. *)
Abbreviation Args := (list (list Z)).
Abbreviation to_str := from_utf8.

Definition single_arg (args : Args) : option str :=
  match args with [_; value] => to_str value | _ => None end.

Definition parse_size_bytes (input : str) : option Z :=
  let input := trim input in
  let fix split s := match s with
                     | c :: s' => if is_ascii_digit c then let '(n, u) := split s' in (c :: n, u) else ([], s)
                     | [] => ([], [])
                     end in
  let '(number, unit) := split input in
  value ← parse_u64 number;
  let unit := (λ c, if (65 <=? c) && (c <=? 90) then c + 32 else c) <$> trim unit in
  if bool_decide (unit = []) then Some value
  else if bool_decide (unit = lit "k") || bool_decide (unit = lit "kb") then checked 64 (value * 1024)
  else if bool_decide (unit = lit "m") || bool_decide (unit = lit "mb") then checked 64 (value * (1024 * 1024))
  else if bool_decide (unit = lit "g") || bool_decide (unit = lit "gb") then checked 64 (value * (1024 * 1024 * 1024))
  else None.

Fixpoint position_byte (b : Z) (l : list Z) : option nat :=
  match l with x :: l => if x =? b then Some O else S <$> position_byte b l | [] => None end.

(** Each round drops at least one byte, so the length of [args] bounds them. *)
Fixpoint find_query_arg_loop (fuel : nat) (rest name : list Z) : option (list Z) :=
  match fuel with
  | O => None
  | S fuel =>
    if bool_decide (rest = []) then None else
    let next := default (length rest) (position_byte 38 rest) in
    let pair := take next rest in
    match (eq ← position_byte 61 pair; if bool_decide (take eq pair = name) then Some (drop (eq + 1) pair) else None) with
    | Some value => Some value
    | None => if (next =? length rest)%nat then None else find_query_arg_loop fuel (drop (next + 1) rest) name
    end
  end.
Definition find_query_arg (args name : list Z) : option (list Z) := find_query_arg_loop (length args) args name.

Section directives.
Context (parse_duration : str → option Z).

(** ** [gabion_limit_rule] *)
Inductive RuleArg :=
  | ARate (count period : Z)
  | AWindow (d : Duration)
  | ABucket (d : Duration)
  | ADomain (d : str)
  | AMode (m : EnforcementMode)
  | ADryRunFlag
  | AExceptIf (v : str)
  | ABinding (b : DescriptorBinding)
  | AInvalid.

Definition parse_rule_arg (value : str) : RuleArg :=
  if bool_decide (value = lit "dry_run") then ADryRunFlag else
  match strip_prefix (lit "rate=") value with
  | Some rest => match parse_rate parse_duration rest with inl (count, period) => ARate count period | inr _ => AInvalid end
  | None =>
  match strip_prefix (lit "window=") value with
  | Some rest => match parse_duration rest with Some d => AWindow d | None => AInvalid end
  | None =>
  match strip_prefix (lit "bucket=") value with
  | Some rest => match parse_duration rest with Some d => ABucket d | None => AInvalid end
  | None =>
  match strip_prefix (lit "domain=") value with
  | Some rest => if negb (NginxRules.is_descriptor_key rest) then AInvalid else ADomain rest
  | None =>
  match strip_prefix (lit "mode=") value with
  | Some rest =>
    if bool_decide (rest = lit "enforce") then AMode Enforce
    else if bool_decide (rest = lit "dry_run") then AMode DryRun
    else if bool_decide (rest = lit "disabled") then AMode Disabled
    else AInvalid
  | None =>
  match strip_prefix (lit "except_if=") value with
  | Some rest =>
    let var := default rest (strip_prefix (lit "$") rest) in
    if bool_decide (var = []) || negb (is_single_ident var) then AInvalid else AExceptIf var
  | None => match parse_binding value with inl b => ABinding b | inr _ => AInvalid end
  end end end end end end.

(** The variables of [set_rule]'s loop. *)
Record RuleDraft := {
  dr_bucket : option Duration;
  dr_window : option Duration;
  dr_domain : str;
  dr_bindings : list DescriptorBinding;
  dr_mode : EnforcementMode;
  dr_mode_explicit : bool;
  dr_rate : option (Z * Duration);
  dr_except_if : option str;
}.
#[export] Instance eta_RuleDraft : Eta RuleDraft := λ x, {|
  dr_bucket := dr_bucket x; dr_window := dr_window x; dr_domain := dr_domain x; dr_bindings := dr_bindings x;
  dr_mode := dr_mode x; dr_mode_explicit := dr_mode_explicit x; dr_rate := dr_rate x; dr_except_if := dr_except_if x |}.
Definition DEFAULT_DOMAIN : str := lit "nginx".
Definition RuleDraft_new : RuleDraft := {|
  dr_bucket := None; dr_window := None; dr_domain := DEFAULT_DOMAIN; dr_bindings := []; dr_mode := Enforce;
  dr_mode_explicit := false; dr_rate := None; dr_except_if := None |}.

Definition take_rule_arg (d : RuleDraft) (arg : RuleArg) : option RuleDraft :=
  match arg with
  | ARate count period => Some (d <| dr_rate := Some (count, period) |>)
  | AWindow w => Some (d <| dr_window := Some w |>)
  | ABucket b => Some (d <| dr_bucket := Some b |>)
  | ADomain x => Some (d <| dr_domain := x |>)
  | AMode m => Some (d <| dr_mode := m |> <| dr_mode_explicit := true |>)
  | ADryRunFlag =>
    if dr_mode_explicit d && negb (bool_decide (dr_mode d = DryRun)) then None
    else Some (d <| dr_mode := DryRun |> <| dr_mode_explicit := true |>)
  | AExceptIf v => Some (d <| dr_except_if := Some v |>)
  | ABinding b => Some (d <| dr_bindings := dr_bindings d ++ [b] |>)
  | AInvalid => None
  end.

Fixpoint take_rule_args (d : RuleDraft) (args : Args) : option RuleDraft :=
  match args with
  | [] => Some d
  | arg :: args => value ← to_str arg; d ← take_rule_arg d (parse_rule_arg value); take_rule_args d args
  end.

Definition set_rule (main : MainConfig) (args : Args) : MainConfig * bool :=
  match args with
  | _ :: name :: rest =>
    match (name ← to_str name; d ← take_rule_args RuleDraft_new rest; rate ← dr_rate d; Some (name, d, rate)) with
    | None => (main, false)
    | Some (name, d, (rate_count, period)) =>
      if bool_decide (dr_bindings d = []) then (main, false)
      else if existsb (λ r, bool_decide (rcfg_name r = name)) (rules main) then (main, false)
      else
        match resolve_rate rate_count period (dr_window d) (dr_bucket d) with
        | inr _ => (main, false)
        | inl resolved =>
          (main <| rules := rules main ++ [{|
             rcfg_name := name; rcfg_domain := dr_domain d; rcfg_bindings := dr_bindings d; rcfg_limit := rr_limit resolved;
             rcfg_window := rr_window_millis resolved * 1000000; rcfg_bucket := rr_bucket_millis resolved * 1000000;
             rcfg_mode := dr_mode d; rcfg_except_if := dr_except_if d |}] |>, true)
        end
    end
  | _ => (main, false)
  end.

(** ** [gabion_limit_zone]

    [added] is whether nginx could register the zone. *)
Definition set_zone (page_bytes : Z) (added : bool) (main : MainConfig) (args : Args) : option (MainConfig * bool) :=
  match layout main with
  | Some _ => Some (main, false)
  | None =>
    match (arg ← single_arg args; rest ← strip_prefix (lit "zone=") arg; split_once (lit ":") rest) with
    | None => Some (main, false)
    | Some (name, size) =>
      if negb (is_zone_name name) then Some (main, false) else
      match parse_size_bytes size with
      | None => Some (main, false)
      | Some bytes =>
        l ← Layout.for_zone bytes page_bytes;
        match l with
        | None => Some (main, false)
        | Some l => if added then Some (main <| layout := Some l |>, true) else Some (main, false)
        end
      end
    end
  end.

(** ** [gabion_limit] and [gabion] *)
Fixpoint position_rule (i : Z) (rules : list RuleConfig) (name : str) : option Z :=
  match rules with
  | [] => None
  | r :: rules => if bool_decide (rcfg_name r = name) then Some i else position_rule (i + 1) rules name
  end.

Fixpoint add_limits (main : MainConfig) (indices : list Z) (names : Args) : list Z * bool :=
  match names with
  | [] => (indices, true)
  | name :: names =>
    match to_str name with
    | None => (indices, false)
    | Some name =>
      if bool_decide (name = lit "off") then (indices, false) else
      match position_rule 0 (rules main) name with
      | None => (indices, false)
      | Some index =>
        add_limits main (if bool_decide (index ∈ indices) then indices else indices ++ [index]) names
      end
    end
  end.

Definition set_limit (main : MainConfig) (location : LocationConfig) (args : Args) : LocationConfig * bool :=
  match args with
  | _ :: first :: rest =>
    match to_str first with
    | None => (location, false)
    | Some f =>
      if bool_decide (f = lit "off") then
        if bool_decide (rest = []) then (location <| rule_indices := Some [] |>, true) else (location, false)
      else
        let '(indices, ok) := add_limits main (default [] (rule_indices location)) (first :: rest) in
        (location <| rule_indices := Some indices |>, ok)
    end
  | _ => (location, false)
  end.

Definition set_gabion (location : LocationConfig) (args : Args) : LocationConfig * bool :=
  match single_arg args with
  | None => (location, false)
  | Some value =>
    if bool_decide (value = lit "on") then (location <| off := Some false |>, true)
    else if bool_decide (value = lit "off") then (location <| off := Some true |>, true)
    else (location, false)
  end.

(** ** Directives of one value *)
Definition set_scalar {T} (parse : str → option T) (apply : MainConfig → T → MainConfig) (main : MainConfig) (args : Args) :
    MainConfig * bool :=
  match single_arg args with
  | None => (main, false)
  | Some value => match parse value with Some parsed => (apply main parsed, true) | None => (main, false) end
  end.

(** [parse::<uN>]; a [usize] has 64 bits. *)
Definition parse_uint (bits : Z) (s : str) : option Z :=
  v ← parse_u64 s; if v <? 2 ^ bits then Some v else None.
Definition set_usize := set_scalar (parse_uint 64).
Definition set_u16 := set_scalar (parse_uint 16).
Definition set_u32 := set_scalar (parse_uint 32).
Definition set_u64 := set_scalar (parse_uint 64).
Definition set_duration := set_scalar parse_duration.

Definition set_gossip_bind := set_scalar parse_socket_addr (λ main addr, main <| gossip_bind := Some addr |>).
Definition on_gossip (f : Settings.GossipSettings → Settings.GossipSettings) (main : MainConfig) : MainConfig :=
  main <| mc_gossip := f (mc_gossip main) |>.
Definition on_storage (f : StorageSettings → StorageSettings) (main : MainConfig) : MainConfig :=
  main <| mc_storage := f (mc_storage main) |>.
Definition on_cardinality (f : CardinalitySettings → CardinalitySettings) (main : MainConfig) : MainConfig :=
  main <| mc_cardinality := f (mc_cardinality main) |>.
Definition on_discovery (f : DiscoveryConfig → DiscoveryConfig) (main : MainConfig) : MainConfig :=
  main <| mc_discovery := f (mc_discovery main) |>.

Definition set_gossip_fanout := set_usize (λ main v, on_gossip (λ g, g <| Settings.fanout := Z.max v 1 |>) main).
Definition set_gossip_cluster :=
  set_scalar parse_cluster_id (λ main v, on_gossip (λ g, g <| Settings.cluster_id_hash := v |>) main).
Definition set_gossip_tick_interval := set_duration (λ main v, on_gossip (λ g, g <| Settings.tick_interval := v |>) main).
Definition set_gossip_max_payload_bytes :=
  set_usize (λ main v, on_gossip (λ g, g <| Settings.max_payload_bytes := Z.max v 1 |>) main).
Definition set_gossip_max_cells_per_frame :=
  set_u32 (λ main v, on_gossip (λ g, g <| Settings.max_cells_per_frame := Z.max v 1 |>) main).
Definition set_gossip_max_cells_per_tick :=
  set_usize (λ main v, on_gossip (λ g, g <| Settings.max_cells_per_tick := Z.max v 1 |>) main).
Definition set_gossip_send_queue_capacity :=
  set_usize (λ main v, on_gossip (λ g, g <| Settings.send_queue_capacity := Z.max v 1 |>) main).
Definition set_gossip_target_err_bps := set_u32 (λ main v, on_gossip (λ g, g <| Settings.target_err_bps := v |>) main).
Definition set_gossip_min_emit_interval :=
  set_duration (λ main v, on_gossip (λ g, g <| Settings.min_emit_interval := v |>) main).

Definition set_storage_max_cells := set_usize (λ main v, on_storage (λ s, s <| ss_max_cells := Z.max v 1 |>) main).
Definition set_storage_rule_dictionary_capacity :=
  set_u16 (λ main v, on_storage (λ s, s <| ss_rule_dictionary_capacity := Z.max v 1 |>) main).
Definition set_storage_node_dictionary_capacity :=
  set_u16 (λ main v, on_storage (λ s, s <| ss_node_dictionary_capacity := Z.max v 1 |>) main).
Definition set_storage_local_dirty_capacity :=
  set_usize (λ main v, on_storage (λ s, s <| ss_local_dirty_capacity := Z.max v 1 |>) main).
Definition set_storage_forwarded_dirty_capacity :=
  set_usize (λ main v, on_storage (λ s, s <| ss_forwarded_dirty_capacity := Z.max v 1 |>) main).
Definition set_storage_peer_capacity :=
  set_u16 (λ main v, on_storage (λ s, s <| ss_peer_capacity := Z.max v 1 |>) main).
Definition set_storage_max_descriptor_count :=
  set_scalar (λ v, count ← parse_uint 64 v; if (count =? 0) || (MAX_DESCRIPTORS <? count) then None else Some count)
    (λ main v, on_cardinality (λ c, c <| cs_max_descriptor_count := v |>) main).
Definition set_storage_max_descriptor_bytes :=
  set_usize (λ main v, on_cardinality (λ c, c <| cs_max_descriptor_bytes := Z.max v 1 |>) main).
Definition set_storage_max_key_bytes :=
  set_usize (λ main v, on_cardinality (λ c, c <| cs_max_key_bytes := Z.max v 1 |>) main).

Definition set_runtime_rng_seed := set_u64 (λ main v, main <| rng_seed := Some v |>).
Definition set_identity_seed :=
  set_scalar (λ v, if bool_decide (v = []) then None else Some v) (λ main v, main <| identity_seed := Some v |>).

(** The index in [is_dns_label] is behind its check of the length. *)
Definition dns_label (v : str) : option str := b ← is_dns_label v; if (b : bool) then Some v else None.
Definition set_discovery_namespace :=
  set_scalar dns_label (λ main v, on_discovery (λ d, d <| namespace_allow := namespace_allow d ++ [v] |>) main).
Definition set_discovery_service :=
  set_scalar dns_label (λ main v, on_discovery (λ d, d <| service_allow := service_allow d ++ [v] |>) main).
Definition set_discovery_self_addr :=
  set_scalar parse_socket_addr (λ main v, on_discovery (λ d, d <| self_addr := Some v |>) main).

(** ** The table of commands

    Where a directive may appear, how many arguments it takes, and its handler. *)
Inductive ConfContext := MainConf | SrvConf | LocConf.
Inductive Arity := TAKE1 | ONE_MORE.
Inductive Setter :=
  | OnMain (set : MainConfig → Args → option (MainConfig * bool))
  | OnLocation (set : MainConfig → LocationConfig → Args → LocationConfig * bool).
Record Command := { cmd_name : str; cmd_contexts : list ConfContext; cmd_arity : Arity; cmd_set : Setter }.

Definition scalar_command (name : string) (set : MainConfig → Args → MainConfig * bool) : Command := {|
  cmd_name := lit name; cmd_contexts := [MainConf]; cmd_arity := TAKE1; cmd_set := OnMain (λ main args, Some (set main args)) |}.

Definition NGX_HTTP_GABION_COMMANDS (page_bytes : Z) (added : bool) : list Command := [
  {| cmd_name := lit "gabion_limit_zone"; cmd_contexts := [MainConf]; cmd_arity := TAKE1;
     cmd_set := OnMain (set_zone page_bytes added) |};
  {| cmd_name := lit "gabion_limit_rule"; cmd_contexts := [MainConf]; cmd_arity := ONE_MORE;
     cmd_set := OnMain (λ main args, Some (set_rule main args)) |};
  {| cmd_name := lit "gabion_limit"; cmd_contexts := [MainConf; SrvConf; LocConf]; cmd_arity := ONE_MORE;
     cmd_set := OnLocation set_limit |};
  {| cmd_name := lit "gabion"; cmd_contexts := [MainConf; SrvConf; LocConf]; cmd_arity := TAKE1;
     cmd_set := OnLocation (λ _, set_gabion) |};
  scalar_command "gabion_gossip_bind" set_gossip_bind;
  scalar_command "gabion_gossip_fanout" set_gossip_fanout;
  scalar_command "gabion_gossip_cluster" set_gossip_cluster;
  scalar_command "gabion_gossip_tick_interval" set_gossip_tick_interval;
  scalar_command "gabion_gossip_max_payload_bytes" set_gossip_max_payload_bytes;
  scalar_command "gabion_gossip_max_cells_per_frame" set_gossip_max_cells_per_frame;
  scalar_command "gabion_gossip_max_cells_per_tick" set_gossip_max_cells_per_tick;
  scalar_command "gabion_gossip_send_queue_capacity" set_gossip_send_queue_capacity;
  scalar_command "gabion_gossip_target_err_bps" set_gossip_target_err_bps;
  scalar_command "gabion_gossip_min_emit_interval" set_gossip_min_emit_interval;
  scalar_command "gabion_storage_max_cells" set_storage_max_cells;
  scalar_command "gabion_storage_rule_dictionary_capacity" set_storage_rule_dictionary_capacity;
  scalar_command "gabion_storage_node_dictionary_capacity" set_storage_node_dictionary_capacity;
  scalar_command "gabion_storage_local_dirty_capacity" set_storage_local_dirty_capacity;
  scalar_command "gabion_storage_forwarded_dirty_capacity" set_storage_forwarded_dirty_capacity;
  scalar_command "gabion_storage_peer_capacity" set_storage_peer_capacity;
  scalar_command "gabion_storage_max_descriptor_count" set_storage_max_descriptor_count;
  scalar_command "gabion_storage_max_descriptor_bytes" set_storage_max_descriptor_bytes;
  scalar_command "gabion_storage_max_key_bytes" set_storage_max_key_bytes;
  scalar_command "gabion_runtime_rng_seed" set_runtime_rng_seed;
  scalar_command "gabion_node_id_seed" set_identity_seed;
  scalar_command "gabion_discovery_namespace_allow" set_discovery_namespace;
  scalar_command "gabion_discovery_service_allow" set_discovery_service;
  scalar_command "gabion_discovery_self_addr" set_discovery_self_addr
].
End directives.

(** ** Compiling bindings

    nginx's variable index, its allocator and its template compiler answer as
    arguments; a compiled template is an address. *)
Inductive NgxBindingError := UnknownVariable (name : str) | ComplexCompile (source : str) | PoolAlloc (bytes : Z).

Section hooks.
Context (get_variable_index : str → option Z) (palloc : str → option Z) (compile_complex_value : str → bool) (cv_size : Z).

Definition NgxBindingCompiler (source : str) : BindingLookup + NgxBindingError :=
  match compile_inline source with
  | Some b => Ok b
  | None =>
    match (stripped ← strip_prefix (lit "$") source; if is_single_ident stripped then Some stripped else None) with
    | Some stripped =>
      match get_variable_index stripped with
      | None => Err (UnknownVariable stripped)
      | Some index => Ok (IndexedVariable stripped index)
      end
    | None =>
      match palloc source with
      | None => Err (PoolAlloc cv_size)
      | Some cv_ptr => if compile_complex_value source then Ok (ComplexValue source cv_ptr) else Err (ComplexCompile source)
      end
    end
  end.

(** ** Hooks of the configuration phase *)

(** [variable] is whether nginx added [$gabion_decided], [index] its slot. *)
Definition preconfiguration (variable : bool) (index : Z) (main : MainConfig) : MainConfig * bool :=
  if variable && (0 <=? index) then (main <| decided := Some index |>, true) else (main, false).

(** [slot] is whether nginx had room for the access handler. *)
Definition postconfiguration (xxh3 : list Z → Z) (show : NgxBindingError → str) (slot : bool) (main : MainConfig) :
    MainConfig * bool :=
  if negb slot then (main, false) else
  if bool_decide (rules main = []) then (main, true) else
  match layout main with
  | None => (main, false)
  | Some _ =>
    match compile_with xxh3 NgxBindingCompiler show (rules main) (mc_cardinality main) with
    | inl rules => (main <| compiled := Some rules |>, true)
    | inr _ => (main, false)
    end
  end.
End hooks.

(** ** The zone's memory

    The zones that are mapped, by address: configurations hold handles, and
    every worker and every configuration that shares a zone sees its writes. *)
Abbreviation Memory := (gmap Z Zone).

(** [alloc] is the block nginx's slab allocator gives. *)
Definition init_zone (identity : NodeIdentity) (leader_running : bool) (alloc : option Z) (mem : Memory)
    (main : MainConfig) (previous : option MainConfig) : option (Memory * MainConfig * bool) :=
  match layout main with
  | None => Some (mem, main, false)
  | Some layout =>
    match (match previous ≫= region with
           | Some region => Some (mem, region)
           | None =>
             if leader_running then None else
             base ← alloc;
             Some (<[base := initialize layout]> mem, {| base := base; region_layout := layout |})
           end) with
    | None => Some (mem, main, false)
    | Some (mem, handle) =>
      zone ← mem !! base handle;
      let zone := zone <| z_identity := store_node_id (z_identity zone) (node_id identity) |> in
      Some (<[base handle := zone]> mem, main <| region := Some handle |>, true)
    end
  end.

(** ** A request's variables *)
Record VariableValue := { not_found : bool; valid : bool; data : list Z }.
Record RawRequest := {
  rq_uri : list Z;
  rq_unparsed_uri : list Z;
  rq_args : list Z;
  rq_addr_text : option (list Z);
  rq_indexed : Z → option VariableValue;
  rq_complex : Z → option (list Z);
}.

Definition RequestVariables_lookup (raw : RawRequest) (binding : BindingLookup) : option (list Z) :=
  match binding with
  | Uri => Some (rq_uri raw)
  | RequestUri => Some (rq_unparsed_uri raw)
  | NginxRules.Args => Some (rq_args raw)
  | RemoteAddr => rq_addr_text raw
  | Arg name => find_query_arg (rq_args raw) (str_bytes name)
  | IndexedVariable _ index =>
    v ← rq_indexed raw index;
    if not_found v || negb (valid v) then None else Some (data v)
  | ComplexValue _ compiled_value => rq_complex raw compiled_value
  end.

(** ** The access handler *)
Inductive Status := NGX_DECLINED | TOO_MANY_REQUESTS | BAD_REQUEST.

(** What outlives a run of the handler in the request: the marker and the
    response's headers. *)
Record Request (H : Type) := { marked : bool; headers_out : H }.
Arguments marked {H} _.
Arguments headers_out {H} _.
#[export] Instance eta_Request H : Eta (Request H) := λ x, {| marked := marked x; headers_out := headers_out x |}.

Section handler.
(** The headers of a response, and nginx's call that adds one. *)
Context {H : Type} (add_header : H → str → list Z → H).

Definition add_header_out (request : Request H) (name : string) (value : list Z) : Request H :=
  request <| headers_out := add_header (headers_out request) (lit name) value |>.

Definition apply_admit_headers (request : Request H) (info : Access.AllowInfo) : Request H :=
  let headers := Access.build_for_allow info in
  let request := add_header_out request "X-RateLimit-Limit" (Access.h_limit headers) in
  let request := add_header_out request "X-RateLimit-Remaining" (Access.h_remaining headers) in
  add_header_out request "X-RateLimit-Reset" (Access.h_reset headers).

Definition apply_reject_headers (request : Request H) (info : Access.RejectInfo) : Request H :=
  let headers := Access.build_for_reject info in
  let request := add_header_out request "X-RateLimit-Limit" (Access.h_limit headers) in
  let request := add_header_out request "X-RateLimit-Remaining" (Access.h_remaining headers) in
  let request := add_header_out request "X-RateLimit-Reset" (Access.h_reset headers) in
  match Access.h_retry_after headers with
  | Some retry_after => add_header_out request "Retry-After" retry_after
  | None => request
  end.

(** [d.as_millis() as u64] of the time since the epoch. *)
Definition wall_millis (since_epoch : option Z) : Z :=
  match since_epoch with Some d => as_u64 (d / 1000000) | None => 0 end.

(** The configurations of the request's location and cycle; [None] is a panic of
    the decision. *)
Definition gabion_access_handler (xxh3 : list Z → Z) (location : option LocationConfig) (main : option MainConfig)
    (raw : RawRequest) (since_epoch : option Z) (mem : Memory) (request : Request H) :
    option (Memory * Request H * Status) :=
  let declined := Some (mem, request, NGX_DECLINED) in
  match location with None => declined | Some config =>
  if bool_decide (off config = Some true) then declined else
  match rule_indices config with None => declined | Some indices =>
  if bool_decide (indices = []) then declined else
  match main with None => declined | Some main =>
  match active main, decided main with
  | Some (handle, rules), Some _ =>
    if marked request then declined else
    zone ← mem !! base handle;
    '(queue, stats, outcome) ← Access.decide_all xxh3 rules DEFAULT_DOMAIN (mc_cardinality main)
        (RequestVariables_lookup raw) (agg_slots (z_region zone)) (z_queue zone) (z_stats zone) indices
        (wall_millis since_epoch);
    let mem := <[base handle := zone <| z_queue := queue |> <| z_stats := stats |>]> mem in
    let '(request, status, counted) :=
      match outcome with
      | Access.Allow (Some info) => (apply_admit_headers request info, NGX_DECLINED, true)
      | Access.Allow None | Access.Decline => (request, NGX_DECLINED, false)
      | Access.Reject info => (apply_reject_headers request info, TOO_MANY_REQUESTS, true)
      | Access.Cardinality => (request, BAD_REQUEST, true)
      end in
    Some (mem, if (counted : bool) then request <| marked := true |> else request, status)
  | _, _ => declined
  end end end end.

End handler.

(** ** Hooks of a worker *)
Definition DEFAULT_LEASE_TICK : Duration := 300 * 1000000.

(** The leader thread a worker starts with, if any; [drawn] is a random seed. *)
Definition gabion_init_process (main : option MainConfig) (worker_id : Z) (drawn : option Z) :
    option (ShmRegion * list CompiledRule * LeaderConfig) :=
  main ← main;
  '(handle, rules) ← active main;
  rng_seed ← (match rng_seed main with Some seed => Some seed | None => drawn end);
  Some (handle, rules, {|
    lc_worker_id := worker_id; lc_gossip_bind := gossip_bind main; lc_gossip := mc_gossip main;
    lc_discovery := mc_discovery main; lc_cell_store := cell_store_config (mc_storage main);
    lc_rng_seed := rng_seed; lc_lease_tick := DEFAULT_LEASE_TICK |}).

(** The leader thread has stopped by then. *)
Definition gabion_exit_process (main : option MainConfig) (pid : Z) (mem : Memory) : option Memory :=
  match main ≫= active with
  | None => Some mem
  | Some (handle, _) =>
    zone ← mem !! base handle;
    Some (<[base handle := zone <| z_lease := (release (z_lease zone) pid).1 |>]> mem)
  end.
