(* ===== verification/NginxModuleSpec.v ===== *)
(** * What the nginx module promises

    Directives keep the configuration well formed, the compiled rules are the
    configured ones, a reload keeps the zone, a request is decided as its
    location's rules say, and it is counted at most once however often nginx
    reruns the handler. *)

From stdpp Require Import strings.
From S2P Require Import Prelude Types Bytes Str IO Window Rules DashMap Limiter Queue Lease ShmTable NginxRules Access Shm Runtime NetAddr ServerConfig Leader NginxModule.

(** ** Well-formed configurations *)

(** At least one, and within an integer of [bits] bits. *)
Definition positive (bits v : Z) : Prop := 1 ≤ v < 2 ^ bits.

Record gossip_ok (g : Settings.GossipSettings) : Prop := {
  go_fanout : positive 64 (Settings.fanout g);
  go_payload : positive 64 (Settings.max_payload_bytes g);
  go_frame : positive 32 (Settings.max_cells_per_frame g);
  go_tick : positive 64 (Settings.max_cells_per_tick g);
  go_send : positive 64 (Settings.send_queue_capacity g);
  go_cluster : positive 128 (Settings.cluster_id_hash g);
  go_err : uint 32 (Settings.target_err_bps g);
}.
Record storage_ok (s : StorageSettings) : Prop := {
  so_cells : positive 64 (ss_max_cells s);
  so_rules : positive 16 (ss_rule_dictionary_capacity s);
  so_nodes : positive 16 (ss_node_dictionary_capacity s);
  so_local : positive 64 (ss_local_dirty_capacity s);
  so_forwarded : positive 64 (ss_forwarded_dirty_capacity s);
  so_peers : positive 16 (ss_peer_capacity s);
}.
Record cardinality_ok (c : CardinalitySettings) : Prop := {
  co_count : 1 ≤ cs_max_descriptor_count c ≤ MAX_DESCRIPTORS;
  co_bytes : positive 64 (cs_max_descriptor_bytes c);
  co_key : positive 64 (cs_max_key_bytes c);
}.
Definition discovery_ok (d : DiscoveryConfig) : Prop :=
  Forall (λ v, is_dns_label v = Some true) (namespace_allow d) ∧ Forall (λ v, is_dns_label v = Some true) (service_allow d).

(** A rule as [set_rule] writes it: window and bucket in whole milliseconds. *)
Record rule_config_ok (cfg : RuleConfig) : Prop := {
  rk_bindings : rcfg_bindings cfg ≠ [];
  rk_parsed : Forall (λ b, ∃ text, parse_binding text = Ok b) (rcfg_bindings cfg);
  rk_domain : NginxRules.is_descriptor_key (rcfg_domain cfg) = true;
  rk_limit : uint 64 (rcfg_limit cfg);
  rk_window : ∃ ms, uint 64 ms ∧ rcfg_window cfg = ms * 1000000;
  rk_bucket : ∃ ms, uint 64 ms ∧ rcfg_bucket cfg = ms * 1000000;
  rk_except : ∀ var, rcfg_except_if cfg = Some var → is_single_ident var = true;
}.

Record main_ok (main : MainConfig) : Prop := {
  mo_rules : Forall rule_config_ok (rules main);
  mo_names : NoDup (rcfg_name <$> rules main);
  mo_gossip : gossip_ok (mc_gossip main);
  mo_storage : storage_ok (mc_storage main);
  mo_cardinality : cardinality_ok (mc_cardinality main);
  mo_discovery : discovery_ok (mc_discovery main);
  mo_seed : ∀ s, identity_seed main = Some s → s ≠ [];
}.

(** The location's rules exist, each once. *)
Definition location_ok (main : MainConfig) (location : LocationConfig) : Prop :=
  ∀ indices, rule_indices location = Some indices →
    NoDup indices ∧ Forall (λ i, 0 ≤ i < zlen (rules main)) indices.

Lemma location_ok_mono main main' location :
  rules main `prefix_of` rules main' → location_ok main location → location_ok main' location.
Proof.
  intros [more Hm] Hl indices Hi. destruct (Hl indices Hi) as [Hnd Hf]. split; [done|].
  eapply Forall_impl; [exact Hf|]. intros i Hr. cbn beta in *. rewrite Hm, zlen_app. pose proof (zlen_nonneg more). lia.
Qed.

Lemma merge_location_ok main location previous :
  location_ok main location → location_ok main previous → location_ok main (merge location previous).
Proof. intros Hl Hp indices. cbn. destruct (rule_indices location) eqn:E; intros H; [apply Hl; congruence|by apply Hp]. Qed.

Lemma main_default_ok : main_ok MainConfig_default.
Proof.
  split; cbn; try done; try constructor; cbn; try done; try constructor; unfold positive, uint, MAX_DESCRIPTORS; cbn; try lia.
  all: vm_compute; split; congruence.
Qed.

(** ** Values *)
Lemma parse_uint_range bits s v : parse_uint bits s = Some v → 0 ≤ v < 2 ^ bits.
Proof.
  unfold parse_uint. destruct (parse_u64 s) as [n|] eqn:E; [|done]. cbn [mbind option_bind].
  destruct (n <? 2 ^ bits) eqn:El; intros [= <-]. apply parse_u64_range in E. lia.
Qed.

Lemma clamp_positive bits v : 1 ≤ bits → 0 ≤ v < 2 ^ bits → positive bits (Z.max v 1).
Proof.
  intros Hb Hv. unfold positive. pose proof (Z.pow_le_mono_r 2 1 bits ltac:(lia) ltac:(lia)). change (2 ^ 1) with 2 in *. lia.
Qed.

Lemma parse_cluster_positive s v : parse_cluster_id s = Some v → positive 128 v.
Proof.
  unfold parse_cluster_id.
  destruct (match strip_prefix (lit "0x") (trim s) with Some hex => _ | None => _ end) as [ds radix].
  unfold parse_radix. destruct ds as [|c ds]; [done|]. destruct (to_digit radix c); [|done].
  destruct (radix_digits radix 0 (c :: ds)) as [n|] eqn:E; [|done]. cbn [mbind option_bind].
  apply radix_digits_range in E; [|lia]. destruct (n =? 0) eqn:E0; intros [= <-]. unfold positive. lia.
Qed.

(** ** Directives of one value *)

(** The directive keeps the configuration well formed and its rules. *)
Definition safe_setter (set : MainConfig → Args → MainConfig * bool) : Prop :=
  ∀ main args, main_ok main → let main' := (set main args).1 in main_ok main' ∧ rules main `prefix_of` rules main'.

Lemma scalar_safe {T} (parse : str → option T) (apply : MainConfig → T → MainConfig) :
  (∀ s v main, parse s = Some v → main_ok main → main_ok (apply main v) ∧ rules (apply main v) = rules main) →
  safe_setter (set_scalar parse apply).
Proof.
  intros H main args Hm. unfold set_scalar. destruct (single_arg args) as [value|]; [|by split].
  destruct (parse value) as [v|] eqn:E; [|by split]. destruct (H value v main E Hm) as [Hok Hr]. cbn. by rewrite Hr.
Qed.

Lemma on_gossip_ok f main : main_ok main → gossip_ok (f (mc_gossip main)) →
  main_ok (on_gossip f main) ∧ rules (on_gossip f main) = rules main.
Proof. intros [] Hf. by split; [split|]. Qed.
Lemma on_storage_ok f main : main_ok main → storage_ok (f (mc_storage main)) →
  main_ok (on_storage f main) ∧ rules (on_storage f main) = rules main.
Proof. intros [] Hf. by split; [split|]. Qed.
Lemma on_cardinality_ok f main : main_ok main → cardinality_ok (f (mc_cardinality main)) →
  main_ok (on_cardinality f main) ∧ rules (on_cardinality f main) = rules main.
Proof. intros [] Hf. by split; [split|]. Qed.
Lemma on_discovery_ok f main : main_ok main → discovery_ok (f (mc_discovery main)) →
  main_ok (on_discovery f main) ∧ rules (on_discovery f main) = rules main.
Proof. intros [] Hf. by split; [split|]. Qed.

(** Numeric settings: what the parser gives is in range, and the clamp keeps it. *)
Ltac setting lem :=
  apply scalar_safe; intros s v main Hv Hm;
  first [apply parse_uint_range in Hv|apply parse_cluster_positive in Hv|idtac];
  apply lem; [exact Hm|];
  pose proof Hm as [_ _ [] [] [] _ _]; split; cbn; try assumption; try (by apply clamp_positive; [lia|]).

Lemma gossip_settings_safe parse_duration : Forall safe_setter [
  set_gossip_fanout; set_gossip_cluster; set_gossip_tick_interval parse_duration; set_gossip_max_payload_bytes;
  set_gossip_max_cells_per_frame; set_gossip_max_cells_per_tick; set_gossip_send_queue_capacity;
  set_gossip_target_err_bps; set_gossip_min_emit_interval parse_duration].
Proof. repeat (apply Forall_cons_2; [setting on_gossip_ok|]). apply Forall_nil_2. Qed.

Lemma storage_settings_safe : Forall safe_setter [
  set_storage_max_cells; set_storage_rule_dictionary_capacity; set_storage_node_dictionary_capacity;
  set_storage_local_dirty_capacity; set_storage_forwarded_dirty_capacity; set_storage_peer_capacity].
Proof. repeat (apply Forall_cons_2; [setting on_storage_ok|]). apply Forall_nil_2. Qed.

Lemma cardinality_settings_safe : Forall safe_setter [
  set_storage_max_descriptor_count; set_storage_max_descriptor_bytes; set_storage_max_key_bytes].
Proof.
  apply Forall_cons_2; [|repeat (apply Forall_cons_2; [setting on_cardinality_ok|]); apply Forall_nil_2].
  apply scalar_safe. intros s v main Hv Hm. apply on_cardinality_ok; [exact Hm|]. pose proof (mo_cardinality _ Hm) as [].
  destruct (parse_uint 64 s) as [n|] eqn:E; [|done]. cbn [mbind option_bind] in Hv. apply parse_uint_range in E.
  destruct ((n =? 0) || (MAX_DESCRIPTORS <? n)) eqn:Eb; [done|]. injection Hv as <-. apply orb_false_elim in Eb as [].
  split; cbn; try done. bool_solve. lia.
Qed.

Lemma dns_label_ok s v : dns_label s = Some v → is_dns_label v = Some true.
Proof. unfold dns_label. destruct (is_dns_label s) as [[]|] eqn:E; cbn; [|done..]. by intros [= <-]. Qed.

Lemma discovery_settings_safe : Forall safe_setter [set_discovery_namespace; set_discovery_service; set_discovery_self_addr].
Proof.
  repeat apply Forall_cons_2; [..|apply Forall_nil_2]; apply scalar_safe; intros s v main Hv Hm;
    apply on_discovery_ok; [exact Hm| |exact Hm| |exact Hm|]; destruct (mo_discovery _ Hm) as [Hn Hs]; split; cbn; try done.
  all: apply Forall_app_2; [done|]; apply Forall_singleton; by eapply dns_label_ok.
Qed.

Lemma identity_settings_safe : Forall safe_setter [set_gossip_bind; set_runtime_rng_seed; set_identity_seed].
Proof.
  repeat apply Forall_cons_2; [..|apply Forall_nil_2]; apply scalar_safe; intros s v main Hv []; (split; [|done]); split; try done.
  cbn. intros x [= <-]. case_bool_decide; [done|]. congruence.
Qed.

(** ** Rules *)
Section rule.
Context (parse_duration : str → option Z) (Hdur : ∀ s d, parse_duration s = Some d → 0 ≤ d).

Record draft_ok (d : RuleDraft) : Prop := {
  do_bindings : Forall (λ b, ∃ text, parse_binding text = Ok b) (dr_bindings d);
  do_domain : NginxRules.is_descriptor_key (dr_domain d) = true;
  do_window : ∀ w, dr_window d = Some w → 0 ≤ w;
  do_bucket : ∀ b, dr_bucket d = Some b → 0 ≤ b;
  do_rate : ∀ c p, dr_rate d = Some (c, p) → 0 ≤ p;
  do_except : ∀ v, dr_except_if d = Some v → is_single_ident v = true;
}.

Lemma parse_rate_period s c p : parse_rate parse_duration s = inl (c, p) → 0 ≤ p.
Proof using Hdur.
  unfold parse_rate. destruct (split_once _ _) as [[num per]|]; [|done]. destruct (parse_u64 num) as [n|]; [|done].
  destruct (n =? 0); [done|]. set (dur := if bool_decide (per = lit "s") then _ else _).
  assert (∀ d, dur = Some d → 0 ≤ d) as Hd.
  { intros d. unfold dur, NANOS_PER_SEC. repeat case_bool_decide; [intros [= <-]; lia..|]. apply Hdur. }
  destruct dur as [d|]; [|done]. specialize (Hd d eq_refl). destruct (d =? 0); [done|]. by intros [= <- <-].
Qed.

(** What an argument may be. *)
Definition arg_ok (a : RuleArg) : Prop :=
  match a with
  | ARate _ p => 0 ≤ p
  | AWindow d | ABucket d => 0 ≤ d
  | ADomain x => NginxRules.is_descriptor_key x = true
  | AExceptIf v => is_single_ident v = true
  | ABinding b => ∃ text, parse_binding text = Ok b
  | AMode _ | ADryRunFlag | AInvalid => True
  end.

Lemma parse_rule_arg_ok value : arg_ok (parse_rule_arg parse_duration value).
Proof using Hdur.
  unfold parse_rule_arg. case_bool_decide; [done|].
  destruct (strip_prefix (lit "rate=") value) as [s|].
  { destruct (parse_rate parse_duration s) as [[c p]|] eqn:E; [|done]. by apply parse_rate_period in E. }
  destruct (strip_prefix (lit "window=") value) as [s|]. { destruct (parse_duration s) eqn:E; [|done]. by apply Hdur in E. }
  destruct (strip_prefix (lit "bucket=") value) as [s|]. { destruct (parse_duration s) eqn:E; [|done]. by apply Hdur in E. }
  destruct (strip_prefix (lit "domain=") value) as [s|]. { by destruct (NginxRules.is_descriptor_key s) eqn:E. }
  destruct (strip_prefix (lit "mode=") value) as [s|]. { by repeat case_bool_decide. }
  destruct (strip_prefix (lit "except_if=") value) as [s|].
  { destruct (is_single_ident (default s (strip_prefix (lit "$") s))) eqn:E; [|by rewrite orb_true_r].
    rewrite orb_false_r. by case_bool_decide. }
  destruct (parse_binding value) as [b|] eqn:E; [|done]. by exists value.
Qed.

Lemma take_rule_arg_ok d a d' : draft_ok d → arg_ok a → take_rule_arg d a = Some d' → draft_ok d'.
Proof using.
  intros [] Ha. destruct a; cbn in *; try (intros [= <-]); try done; try (split; cbn; try done; congruence).
  - destruct (_ && _); intros [= <-]. by split.
  - split; cbn; try done. apply Forall_app_2; [done|]. by apply Forall_singleton.
Qed.

Lemma take_rule_args_ok args : ∀ d d', draft_ok d → take_rule_args parse_duration d args = Some d' → draft_ok d'.
Proof using Hdur.
  induction args as [|a args IH]; intros d d' Hd; cbn [take_rule_args]; [by intros [= <-]|].
  destruct (to_str a) as [v|]; cbn [mbind option_bind]; [|done].
  destruct (take_rule_arg d _) as [d1|] eqn:E; cbn [mbind option_bind]; [|done].
  apply IH. eapply take_rule_arg_ok; [done| |done]. apply parse_rule_arg_ok.
Qed.

Lemma draft_new_ok : draft_ok RuleDraft_new.
Proof using. split; cbn; try done. Qed.

Lemma div_range q k : 1 ≤ k → uint 64 q → uint 64 (q / k).
Proof using.
  unfold uint. intros Hk [Hq1 Hq2]. split; [apply Z.div_pos; lia|]. apply Z.div_lt_upper_bound; [lia|].
  pose proof (Z.le_mul_diag_r (2 ^ 64) k ltac:(lia)). lia.
Qed.

Lemma millis_range d : 0 ≤ d → uint 64 (duration_to_millis d).
Proof using. intros Hd. unfold uint, duration_to_millis, U64_MAX. pose proof (Z.div_pos d 1000000). lia. Qed.

Lemma resolve_rate_range n p w b r : 0 ≤ p → (∀ x, w = Some x → 0 ≤ x) → (∀ x, b = Some x → 0 ≤ x) →
  resolve_rate n p w b = inl r → uint 64 (rr_limit r) ∧ uint 64 (rr_window_millis r) ∧ uint 64 (rr_bucket_millis r).
Proof using.
  intros Hp Hw Hb. unfold resolve_rate. set (w' := default p w). set (b' := default w' b).
  assert (0 ≤ w') by (unfold w'; destruct w; cbn; auto). assert (0 ≤ b') by (unfold b'; destruct b; cbn; auto).
  destruct (w' =? 0); [done|]. destruct (w' <? p); [done|]. destruct (b' =? 0); [done|].
  destruct (checked 64 _) as [q|] eqn:E; [|done]. apply checked_Some in E as [Hq E]. intros [= <-].
  cbn [rr_limit rr_window_millis rr_bucket_millis]. split; [|by split; apply millis_range].
  apply div_range; [lia|]. rewrite Hq. exact E.
Qed.

Lemma existsb_name (l : list RuleConfig) name :
  existsb (λ r, bool_decide (rcfg_name r = name)) l = false → name ∉ rcfg_name <$> l.
Proof using.
  intros H (r & -> & Hr)%list_elem_of_fmap. apply not_true_iff_false in H. apply H. apply existsb_exists.
  exists r. split; [by apply list_elem_of_In|]. by apply bool_decide_eq_true.
Qed.

Lemma set_rule_safe : safe_setter (set_rule parse_duration).
Proof using Hdur.
  intros main args Hm. unfold set_rule. destruct args as [|a [|name args]]; [done..|].
  destruct (to_str name) as [nm|]; cbn [mbind option_bind]; [|done].
  destruct (take_rule_args parse_duration RuleDraft_new args) as [d|] eqn:Ed; cbn [mbind option_bind]; [|done].
  destruct (take_rule_args_ok args _ d draft_new_ok Ed) as [Hb Hdm Hw Hbk Hr He].
  destruct (dr_rate d) as [[n p]|] eqn:Er; cbn [mbind option_bind]; [|done].
  case_bool_decide as Hne; [done|]. destruct (existsb _ (rules main)) eqn:Ex; [done|].
  destruct (resolve_rate n p (dr_window d) (dr_bucket d)) as [r|] eqn:Es; [|done].
  destruct (resolve_rate_range n p _ _ r (Hr n p eq_refl) Hw Hbk Es) as (Hl & Hwm & Hbm).
  destruct Hm as [Hrs Hnm ? ? ? ? ?]. cbn. split; [|by eexists]. split; cbn; try done.
  - apply Forall_app_2; [done|]. apply Forall_singleton. split; cbn; try done; eauto.
  - rewrite fmap_app. cbn. apply NoDup_app. split; [done|]. split; [|apply NoDup_singleton].
    intros x Hx ->%list_elem_of_singleton. by eapply existsb_name.
Qed.
End rule.

(** ** Locations *)
Lemma position_rule_range l name : ∀ i j, position_rule i l name = Some j →
  i ≤ j < i + zlen l ∧ ∃ r, zget l (j - i) = Some r ∧ rcfg_name r = name.
Proof.
  induction l as [|r l IH]; intros i j; cbn [position_rule]; [done|].
  assert (zlen (r :: l) = 1 + zlen l) as Hl by apply (zlen_app [r] l). pose proof (zlen_nonneg l).
  case_bool_decide as Hn.
  - intros [= <-]. split; [lia|]. exists r. by rewrite Z.sub_diag.
  - intros [Hr (c & Hc & Hname)]%IH. split; [lia|]. exists c. split; [|done].
    rewrite <- Hc. unfold zget. replace (0 <=? j - i) with true by lia. replace (0 <=? j - (i + 1)) with true by lia.
    replace (Z.to_nat (j - i)) with (S (Z.to_nat (j - (i + 1)))) by lia. done.
Qed.

Lemma add_limits_ok main names : ∀ indices,
  NoDup indices → Forall (λ i, 0 ≤ i < zlen (rules main)) indices →
  NoDup (add_limits main indices names).1 ∧ Forall (λ i, 0 ≤ i < zlen (rules main)) (add_limits main indices names).1.
Proof.
  induction names as [|n names IH]; intros indices Hnd Hf; cbn [add_limits]; [done|].
  destruct (to_str n) as [name|]; [|done]. case_bool_decide; [done|].
  destruct (position_rule 0 (rules main) name) as [j|] eqn:E; [|done]. apply position_rule_range in E as [Hj _].
  apply IH; case_bool_decide as Hin; try done.
  - apply NoDup_app. split; [done|]. split; [|apply NoDup_singleton]. by intros x Hx ->%list_elem_of_singleton.
  - apply Forall_app_2; [done|]. apply Forall_singleton. lia.
Qed.

Lemma set_limit_safe main location args : location_ok main location → location_ok main (set_limit main location args).1.
Proof.
  intros Hl. unfold set_limit. destruct args as [|a [|first rest]]; [done..|]. destruct (to_str first); [|done].
  case_bool_decide.
  { case_bool_decide; [|done]. intros indices [= <-]. split; constructor. }
  destruct (add_limits main (default [] (rule_indices location)) (first :: rest)) as [indices ok] eqn:E.
  intros idx [= <-]. replace indices with (add_limits main (default [] (rule_indices location)) (first :: rest)).1 by by rewrite E.
  destruct (rule_indices location) as [idx|] eqn:Ei; cbn [default].
  - destruct (Hl idx Ei). by apply add_limits_ok.
  - apply add_limits_ok; constructor.
Qed.

Lemma set_gabion_safe main location args : location_ok main location → location_ok main (set_gabion location args).1.
Proof. intros Hl. unfold set_gabion. destruct (single_arg args); [|done]. repeat case_bool_decide; apply Hl. Qed.

(** ** Every command *)
Lemma set_zone_safe page added main args main' ok :
  main_ok main → set_zone page added main args = Some (main', ok) → main_ok main' ∧ rules main' = rules main.
Proof.
  intros Hm. unfold set_zone. destruct (layout main); [by intros [= <- _]|].
  destruct (_ ← single_arg args; _) as [[name size]|]; [|by intros [= <- _]].
  destruct (negb _); [by intros [= <- _]|]. destruct (parse_size_bytes size) as [bytes|]; [|by intros [= <- _]].
  destruct (Layout.for_zone bytes page) as [[l|]|]; cbn [mbind option_bind]; [|by intros [= <- _]|done].
  destruct added; intros [= <- _]; [|done]. destruct Hm. by split.
Qed.

(** What a command must keep. *)
Definition safe_command (c : Command) : Prop :=
  match cmd_set c with
  | OnMain set => ∀ main args main' ok, main_ok main → set main args = Some (main', ok) →
      main_ok main' ∧ ∀ location, location_ok main location → location_ok main' location
  | OnLocation set => ∀ main location args, main_ok main → location_ok main location →
      location_ok main (set main location args).1
  end.

Lemma safe_setter_command contexts arity name set : safe_setter set →
  safe_command {| cmd_name := name; cmd_contexts := contexts; cmd_arity := arity;
                  cmd_set := OnMain (λ main args, Some (set main args)) |}.
Proof.
  intros Hs main args main' ok Hm [= He]. destruct (Hs main args Hm) as [Hok Hp]. rewrite He in Hok, Hp.
  split; [done|]. intros location. by apply location_ok_mono.
Qed.

(** C12: directives keep the configuration well formed.  From the default
    configuration on, whatever directives run and whether or not nginx accepts
    them: every size is at least one and fits its integer, the cluster
    identifier is not zero, the descriptor cap is within the compiled-in one,
    allow lists hold DNS labels, rules have distinct names, parsed bindings, a
    domain and whole milliseconds, and every location, merged or not, refers
    to rules that exist, each once. *)
Theorem directives_keep_config parse_duration page added :
  (∀ s d, parse_duration s = Some d → 0 ≤ d) →
  main_ok MainConfig_default ∧ location_ok MainConfig_default LocationConfig_default ∧
  Forall safe_command (NGX_HTTP_GABION_COMMANDS parse_duration page added) ∧
  ∀ main location previous, location_ok main location → location_ok main previous →
    location_ok main (merge location previous).
Proof.
  intros Hdur. split; [apply main_default_ok|]. split; [by intros ?|]. split; [|apply merge_location_ok].
  pose proof (gossip_settings_safe parse_duration) as Hg. pose proof storage_settings_safe as Hs.
  pose proof cardinality_settings_safe as Hc. pose proof discovery_settings_safe as Hd.
  pose proof identity_settings_safe as Hi. 
  repeat match goal with H : Forall safe_setter (_ :: _) |- _ => apply Forall_cons in H as [? H] end.
  repeat apply Forall_cons_2; [..|apply Forall_nil_2]; try (by apply safe_setter_command).
  - intros main args main' ok Hm He. destruct (set_zone_safe _ _ _ _ _ _ Hm He) as [Hok Hr]. split; [done|].
    intros location. apply location_ok_mono. by rewrite Hr.
  - apply safe_setter_command. by apply set_rule_safe.
  - intros main location args _. apply set_limit_safe.
  - intros main location args _. apply set_gabion_safe.
Qed.

(** ** Counted at most once *)

(** Where the fold stands: a rule that has an opinion leaves a quota or a refusal. *)
Definition fold_sound (f : Access.Folded) : Prop :=
  Access.had_non_exempt_outcome f = true → Access.worst_reject f ≠ None ∨ Access.tightest_allow f ≠ None.

Lemma fold_outcome_sound f stats o f' stats' :
  fold_sound f → Access.fold_outcome f stats o = Some (f', stats') → fold_sound f'.
Proof.
  intros Hf. unfold fold_sound. destruct o; cbn [Access.fold_outcome].
  - cbn. destruct (Access.extend_events _ _ _). intros [= <- _] _. by right.
  - intros [= <- _] _. by left.
  - by intros [= <- _].
  - by intros [= <- _].
  - destruct (Access.record_exempt stats id); [|done]. by intros [= <- _].
Qed.

Lemma fold_rules_sound xxh3 rules domain card lookup aggregate now indices : ∀ f stats f' stats',
  fold_sound f → Access.fold_rules xxh3 rules domain card lookup aggregate now f stats indices = Some (f', stats') → fold_sound f'.
Proof.
  induction indices as [|i indices IH]; intros f stats f' stats' Hf; cbn [Access.fold_rules]; [by intros [= <- _]|].
  destruct (Access.decide_one _ _ _ _ _ _ _ _ _) as [[st o]|]; cbn [mbind option_bind]; [|done].
  destruct (Access.fold_outcome f st o) as [[f1 st1]|] eqn:E; cbn [mbind option_bind]; [|done].
  apply IH. by eapply fold_outcome_sound.
Qed.

(** A pass that ends with neither a quota nor a refusal pushed nothing. *)
Lemma uncounted_pushes_nothing xxh3 rules domain card lookup aggregate queue stats indices now queue' stats' out :
  Access.decide_all xxh3 rules domain card lookup aggregate queue stats indices now = Some (queue', stats', out) →
  out = Access.Allow None ∨ out = Access.Decline → queue' = queue.
Proof.
  unfold Access.decide_all.
  destruct (Access.fold_rules _ _ _ _ _ _ _ _ _ _) as [[f st]|] eqn:E; cbn [mbind option_bind]; [|done].
  apply fold_rules_sound in E; [|done]. unfold fold_sound in E.
  destruct (Access.worst_reject f) eqn:Ew; [intros [= _ _ <-]; by intros [?|?]|].
  destruct (Access.had_non_exempt_outcome f).
  - destruct (Access.tightest_allow f); [|by destruct E].
    destruct (Access.push_events _ _ _) as [[q' st']|]; cbn; [|done]. intros [= _ _ <-]. by intros [?|?].
  - destruct (Access.any_exempt f); [by intros [= -> _ _]|]. by destruct (Access.any_cardinality f); intros [= -> _ _].
Qed.

Section reruns.
Context {H : Type} (add_header : H → str → list Z → H) (xxh3 : list Z → Z).

(** One run of the handler for a request: the configurations nginx selects, what
    the variables read, the time, and what other processes have done to the
    zones since the previous run. *)
Record Run := {
  run_location : option LocationConfig;
  run_main : option MainConfig;
  run_raw : RawRequest;
  run_time : option Z;
  run_others : Memory → Memory;
}.
Record Effect := { e_before : Memory * Request H; e_after : Memory * Request H; e_status : Status }.

Fixpoint reruns (runs : list Run) (mem : Memory) (request : Request H) : option (list Effect) :=
  match runs with
  | [] => Some []
  | r :: runs =>
    let mem := run_others r mem in
    '(mem', request', status) ←
      gabion_access_handler add_header xxh3 (run_location r) (run_main r) (run_raw r) (run_time r) mem request;
    effects ← reruns runs mem' request';
    Some ({| e_before := (mem, request); e_after := (mem', request'); e_status := status |} :: effects)
  end.

(** The run counted nothing, answered nothing and wrote no header. *)
Definition quiet (e : Effect) : Prop :=
  e_status e = NGX_DECLINED ∧ headers_out (e_after e).2 = headers_out (e_before e).2 ∧
  ∀ b, z_queue <$> ((e_after e).1 !! b) = z_queue <$> ((e_before e).1 !! b).
(** It did nothing at all. *)
Definition idle (e : Effect) : Prop := e_status e = NGX_DECLINED ∧ e_after e = e_before e.

Lemma handler_step location main raw time mem request mem' request' status :
  gabion_access_handler add_header xxh3 location main raw time mem request = Some (mem', request', status) →
  let e := {| e_before := (mem, request); e_after := (mem', request'); e_status := status |} in
  (marked request = true → idle e) ∧ (marked request = true → marked request' = true) ∧
  (marked request' = false → quiet e).
Proof.
  intros He e. unfold gabion_access_handler in He.
  assert (Some (mem, request, NGX_DECLINED) = Some (mem', request', status) → (marked request = true → idle e) ∧
    (marked request = true → marked request' = true) ∧ (marked request' = false → quiet e)) as Hdec.
  { intros [= <- <- <-]. done. }
  destruct location as [config|]; [|by apply Hdec]. case_bool_decide; [by apply Hdec|].
  destruct (rule_indices config) as [indices|]; [|by apply Hdec]. case_bool_decide; [by apply Hdec|].
  destruct main as [main|]; [|by apply Hdec]. destruct (active main) as [[handle rs]|]; [|by apply Hdec].
  destruct (decided main); [|by apply Hdec]. destruct (marked request) eqn:Em; [by apply Hdec|].
  clear Hdec. split; [done|]. split; [done|]. intros Hm'.
  destruct (mem !! base handle) as [zone|] eqn:Ez; cbn [mbind option_bind] in He; [|done].
  destruct (Access.decide_all _ _ _ _ _ _ _ _ _ _) as [[[q st] out]|] eqn:Ed; cbn [mbind option_bind] in He; [|done].
  assert ((out = Access.Allow None ∨ out = Access.Decline) ∧ request' = request ∧ status = NGX_DECLINED ∧
    mem' = <[base handle := zone <| z_queue := q |> <| z_stats := st |>]> mem) as (Hout & -> & -> & ->).
  { destruct out as [[info|]|info| |]; injection He as <- <- <-; try done; [by split; [left|]|by split; [right|]]. }
  apply uncounted_pushes_nothing in Ed; [|done]. split; [done|]. split; [done|]. intros b. cbn.
  destruct (base.decide (b = base handle)) as [->|Hne]; [by rewrite lookup_insert_eq, Ez, Ed|by rewrite lookup_insert_ne].
Qed.

Lemma reruns_marked runs : ∀ mem request effects, marked request = true →
  reruns runs mem request = Some effects → Forall idle effects.
Proof.
  induction runs as [|r runs IH]; intros mem request effects Hm; cbn [reruns]; [intros [= <-]; constructor|].
  destruct (gabion_access_handler _ _ _ _ _ _ _ _) as [[[mem' request'] status]|] eqn:E; cbn [mbind option_bind]; [|done].
  apply handler_step in E as (Hi & Hm' & _). destruct (reruns runs mem' request') as [es|] eqn:Er; cbn [mbind option_bind]; [|done].
  intros [= <-]. constructor; [by apply Hi|]. eapply IH; [|done]. by apply Hm'.
Qed.
End reruns.

(** C9: a request is counted at most once.  nginx reruns the access handler on
    every internal redirect, perhaps in another location, and other processes
    change the shared memory in between.  Of all the runs for one request at
    most one pushes hits, writes headers or answers: every run before it leaves
    queue and headers alone and lets the request pass, and every run after it
    does nothing at all. *)
Theorem counted_at_most_once {H} (add_header : H → str → list Z → H) xxh3 runs mem request effects :
  reruns add_header xxh3 runs mem request = Some effects →
  Forall quiet effects ∨
  ∃ before counted after, effects = before ++ counted :: after ∧ Forall quiet before ∧ Forall idle after.
Proof.
  revert mem request effects. induction runs as [|r runs IH]; intros mem request effects; cbn [reruns].
  { intros [= <-]. left. constructor. }
  destruct (gabion_access_handler _ _ _ _ _ _ _ _) as [[[mem' request'] status]|] eqn:E; cbn [mbind option_bind]; [|done].
  apply handler_step in E as (_ & _ & Hq). destruct (reruns _ _ runs mem' request') as [es|] eqn:Er; cbn [mbind option_bind]; [|done].
  intros [= <-]. destruct (marked request') eqn:Em.
  - right. eexists [], _, es. split; [reflexivity|]. split; [constructor|]. by eapply reruns_marked.
  - specialize (Hq eq_refl). destruct (IH _ _ _ Er) as [Hall|(b & c & a & -> & Hb & Ha)]; [left; by constructor|].
    right. eexists (_ :: b), c, a. split; [reflexivity|]. split; [by constructor|done].
Qed.

(** ** From the configuration to the decision *)
Section configured.
Context (xxh3 : list Z → Z) (Hxxh3 : ∀ bs, uint 128 (xxh3 bs)).
Context (index : str → option Z) (palloc : str → option Z) (complex : str → bool) (cv_size : Z).
Context (show : NgxBindingError → str).
Abbreviation compiler := (NgxBindingCompiler index palloc complex cv_size).

(** The number of buckets of every rule fits the 32 bits it is kept in. *)
Definition buckets_fit (cfg : RuleConfig) : Prop :=
  div_ceil (duration_millis (rcfg_window cfg)) (duration_millis (rcfg_bucket cfg)) ≤ U32_MAX.

(** The compiled rules are the configured ones, position by position. *)
Definition compiled_rules (main : MainConfig) (compiled : list CompiledRule) : Prop :=
  zlen compiled = zlen (rules main) ∧
  ∀ i cfg c, zget (rules main) i = Some cfg → zget compiled i = Some c →
    compiled_as xxh3 compiler i cfg c ∧ rule_ok c ∧ 0 < limit (cr_rule c).

Lemma zget_found {A} (l : list A) i x : zget l i = Some x → 0 ≤ i < zlen l ∧ l !! Z.to_nat i = Some x.
Proof using.
  intros H. pose proof (zget_Some_range _ _ _ H). split; [lia|]. by rewrite <- zget_lookup by lia.
Qed.

Lemma postconfiguration_ok main main' :
  main_ok main → zlen (rules main) ≤ U32_MAX → Forall buckets_fit (rules main) →
  compiled main = None →
  postconfiguration index palloc complex cv_size xxh3 show true main = (main', true) →
  match compiled main' with
  | None => rules main = [] ∧ main' = main
  | Some rs => main' = main <| compiled := Some rs |> ∧ layout main ≠ None ∧ rules main ≠ [] ∧ compiled_rules main rs
  end.
Proof using Hxxh3.
  intros Hm Hlen Hfit Hnone. unfold postconfiguration. cbn [negb]. case_bool_decide as He; [intros [= <-]; by rewrite Hnone|].
  destruct (layout main) eqn:El; [|done]. unfold compile_with. case_bool_decide; [done|].
  destruct (compile_loop xxh3 compiler show (mc_cardinality main) 0 (rules main)) as [rs|e] eqn:Ec; [|done].
  intros [= <-]. cbn. split; [done|]. split; [done|]. split; [done|]. apply compile_loop_ok in Ec as [Hl Hk].
  split; [unfold zlen; lia|]. intros i cfg c [Hi Hcfg]%zget_found [_ Hc]%zget_found.
  destruct (Hk _ _ _ Hcfg Hc) as [Hok Has]. rewrite Z.add_0_l, Z2Nat.id in Has by lia. split; [done|].
  pose proof (mo_cardinality _ Hm) as [Hcount _ _]. rewrite Forall_forall in Hfit.
  destruct (compiled_rule_ok xxh3 _ compiler (mc_cardinality main) i cfg c) as [Hro Hlim]; try done; [lia|lia|..].
  { apply Hfit. by eapply list_elem_of_lookup_2. }
  split; [done|]. rewrite Hlim. pose proof (mo_rules _ Hm) as Hr. rewrite Forall_forall in Hr.
  destruct (Hr cfg) as [_ _ _ [Hge _] _ _ _]; [by eapply list_elem_of_lookup_2|].
  pose proof (cfg_limit _ _ Hok). lia.
Qed.
End configured.

(** What the client sees of an outcome. *)
Definition answered {H} (add_header : H → str → list Z → H) (request request' : Request H) (status : Status)
    (out : Access.AccessOutcome) : Prop :=
  match out with
  | Access.Reject info => status = TOO_MANY_REQUESTS ∧ marked request' = true ∧
      headers_out request' = headers_out (apply_reject_headers add_header request info)
  | Access.Allow (Some info) => status = NGX_DECLINED ∧ marked request' = true ∧
      headers_out request' = headers_out (apply_admit_headers add_header request info)
  | Access.Cardinality => status = BAD_REQUEST ∧ marked request' = true ∧ headers_out request' = headers_out request
  | Access.Allow None | Access.Decline => status = NGX_DECLINED ∧ request' = request
  end.

(** C8: requests are decided by the configured rules.  For a configuration that
    directives built and nginx accepted, and a location that limits by some of
    its rules: the handler does not panic; each named rule, compiled from its
    directive, says about the request what its counts in the zone and the
    request's variables determine; and the answer follows: 429 with the headers
    of the longest refusing window and nothing counted, or the request passes
    with the headers of the tightest quota and its hits queued, or 400 if only
    budgets were exceeded, or it passes unmarked.  Only the queue and the
    counters of the zone change. *)
Theorem configured_request_decided {H} (add_header : H → str → list Z → H) xxh3 index palloc complex cv_size show
    main main' location indices handle k zone M l mem raw time request :
  (∀ bs, uint 128 (xxh3 bs)) → 1 ≤ k →
  main_ok main → location_ok main location → compiled main = None →
  zlen (rules main) ≤ U32_MAX → Forall buckets_fit (rules main) →
  cs_max_descriptor_bytes (mc_cardinality main) < U64_MAX →
  postconfiguration index palloc complex cv_size xxh3 show true main = (main', true) →
  region main' = Some handle → decided main' ≠ None →
  off location ≠ Some true → rule_indices location = Some indices → indices ≠ [] →
  mem !! base handle = Some zone → represents xxh3 (z_region zone) M → totals_ok M →
  zlen (Access.st_exempted_per_rule (z_stats zone)) = Access.STATS_MAX_RULES →
  Queue.contents k (z_queue zone) l → zlen l ≤ 2 ^ k →
  enqueue_pos (control (z_queue zone)) + MAX_MATCHED_RULES + 2 ^ k < 2 ^ 63 →
  marked request = false →
  ∃ compiled queue' stats' request' status out os,
    gabion_access_handler add_header xxh3 (Some location) (Some main') raw time mem request =
      Some (<[base handle := zone <| z_queue := queue' |> <| z_stats := stats' |>]> mem, request', status) ∧
    compiled_rules xxh3 index palloc complex cv_size main compiled ∧
    Forall2 (says xxh3 DEFAULT_DOMAIN (mc_cardinality main) (RequestVariables_lookup raw) M compiled (wall_millis time)) indices os ∧
    concluded k (z_queue zone) queue' l (wall_millis time) os out ∧
    answered add_header request request' status out.
Proof.
  intros Hx Hk Hm Hloc Hnone Hlen Hfit Hbytes Hpost Hreg Hdec Hoff Hidx Hne Hz Hrep Htot Hst Hq Hl Hpos Hmark.
  pose proof (postconfiguration_ok xxh3 Hx index palloc complex cv_size show main main' Hm Hlen Hfit Hnone Hpost) as Hc.
  destruct (Hloc indices Hidx) as [_ Hrange].
  destruct (compiled main') as [rs|] eqn:Ers.
  2:{ destruct Hc as [Hr _]. rewrite Hr in Hrange. destruct indices; [done|]. apply Forall_cons in Hrange as [Hi _]. unfold zlen in Hi. cbn in Hi. lia. }
  destruct Hc as (-> & _ & _ & Hrs). cbn in Hreg, Hdec.
  destruct (access_decide_all_ok xxh3 Hx DEFAULT_DOMAIN (mc_cardinality main) (RequestVariables_lookup raw) Hbytes
    (z_region zone) M Hrep Htot k Hk rs (z_queue zone) (z_stats zone) l (wall_millis time) indices)
    as (q' & st' & out & os & He & Hos & Hcon); try done.
  { intros i c Hi Hc. rewrite Forall_forall in Hrange. specialize (Hrange i Hi). destruct Hrs as [_ Hrs].
    destruct (zget_in_range (rules main) i Hrange) as [cfg Hcfg]. destruct (Hrs i cfg c Hcfg Hc) as (_ & ? & ?). split; [done|lia]. }
  exists rs, q', st'. unfold gabion_access_handler. rewrite Hidx, !bool_decide_eq_false_2 by done.
  unfold active. cbn [region compiled decided mc_cardinality set_field]. rewrite Hreg. cbn [mbind option_bind].
  destruct (decided main) eqn:Ed; [|done]. rewrite Hmark, Hz. cbn [mbind option_bind]. rewrite He. cbn [mbind option_bind].
  destruct out as [[info|]|info| |]; eexists _, _, _, os; (split; [reflexivity|]); by split_and!.
Qed.

(** ** Reloads *)

(** A configuration that keeps the zone gets the previous one's handle, and of
    the zone only the node's name changes; otherwise a zone is carved at a fresh
    address and no other is touched. *)
Theorem reload_keeps_zone id running alloc mem main previous mem' main' :
  init_zone id running alloc mem main previous = Some (mem', main', true) →
  ∃ handle zone, main' = main <| region := Some handle |> ∧
    mem' = <[base handle := zone <| z_identity := store_node_id (z_identity zone) (node_id id) |>]> mem ∧
    match previous ≫= region with
    | Some r => handle = r ∧ mem !! base r = Some zone
    | None => running = false ∧ alloc = Some (base handle) ∧ layout main = Some (region_layout handle) ∧
        zone = initialize (region_layout handle)
    end.
Proof.
  unfold init_zone. destruct (layout main) as [l|] eqn:El; [|done].
  destruct (previous ≫= region) as [r|].
  - destruct (mem !! base r) as [zone|] eqn:Ez; cbn [mbind option_bind]; [|done]. intros [= <- <-]. by exists r, zone.
  - destruct running; [done|]. destruct alloc as [b|]; cbn [mbind option_bind]; [|done].
    cbn. rewrite lookup_insert_eq. cbn [mbind option_bind]. intros [= <- <-].
    exists {| base := b; region_layout := l |}, (initialize l). split; [done|]. split; [|done]. by rewrite insert_insert_eq.
Qed.

(** ** Query arguments *)

(** A query string of [name=value] pairs. *)
Fixpoint query (pairs : list (list Z * list Z)) : list Z :=
  match pairs with
  | [] => []
  | [(n, v)] => n ++ (61 :: v)
  | (n, v) :: pairs => n ++ (61 :: v) ++ (38 :: query pairs)
  end.
Definition pair_ok (p : list Z * list Z) : Prop := (38 ∉ p.1) ∧ (61 ∉ p.1) ∧ (38 ∉ p.2).

Lemma position_byte_app b l r : b ∉ l → position_byte b (l ++ (b :: r)) = Some (length l).
Proof.
  induction l as [|x l IH]; intros Hb; cbn; [by rewrite Z.eqb_refl|].
  rewrite not_elem_of_cons in Hb. destruct Hb as [Hx Hb]. replace (x =? b) with false by lia. by rewrite IH.
Qed.
Lemma position_byte_none b l : b ∉ l → position_byte b l = None.
Proof.
  induction l as [|x l IH]; intros Hb; cbn; [done|].
  rewrite not_elem_of_cons in Hb. destruct Hb as [Hx Hb]. replace (x =? b) with false by lia. by rewrite IH.
Qed.

Definition named (name : list Z) (p : list Z * list Z) : bool := bool_decide (p.1 = name).

Lemma find_pair name n v : 61 ∉ n →
  (eq ← position_byte 61 (n ++ (61 :: v)); if bool_decide (take eq (n ++ (61 :: v)) = name) then Some (drop (eq + 1) (n ++ (61 :: v))) else None) =
  if bool_decide (n = name) then Some v else None.
Proof.
  intros Hn. rewrite position_byte_app by done. cbn [mbind option_bind]. rewrite take_app_length.
  rewrite drop_app_ge by lia. by replace (length n + 1 - length n)%nat with 1%nat by lia.
Qed.

Lemma find_query_loop name pairs : Forall pair_ok pairs → ∀ fuel, (length (query pairs) ≤ fuel)%nat →
  find_query_arg_loop fuel (query pairs) name = snd <$> List.find (named name) pairs.
Proof.
  induction 1 as [|[n v] pairs (H1 & H2 & H3) Hps IH]; intros fuel Hf; cbn [fst snd] in *; [by destruct fuel|].
  assert (query ((n, v) :: pairs) = (n ++ (61 :: v)) ++ (if bool_decide (pairs = []) then [] else 38 :: query pairs)) as Hq.
  { destruct pairs; cbn; [by rewrite app_nil_r|]. by rewrite <- app_assoc. }
  rewrite Hq in *. set (pair := n ++ (61 :: v)) in *.
  assert (38 ∉ pair) as Hp by (unfold pair; rewrite elem_of_app, elem_of_cons; intros [?|[?|?]]; [done|lia|done]).
  assert (0 < length pair)%nat as Hlen by (unfold pair; rewrite length_app; cbn; lia).
  destruct fuel as [|fuel]; [rewrite length_app in Hf; lia|]. cbn [find_query_arg_loop List.find].
  rewrite bool_decide_eq_false_2 by (intros Hnil; apply app_eq_nil in Hnil as [Hn _]; rewrite Hn in Hlen; cbn in Hlen; lia).
  assert (named name (n, v) = bool_decide (n = name)) as -> by done.
  case_bool_decide as Hl.
  - rewrite app_nil_r in *. rewrite position_byte_none by done. cbn [from_option]; unfold id. rewrite take_ge by lia.
    unfold pair at 1. rewrite find_pair by done. subst pairs. case_bool_decide; [done|]. by rewrite Nat.eqb_refl.
  - rewrite position_byte_app by done. cbn [from_option]; unfold id. rewrite take_app_length. unfold pair at 1. rewrite find_pair by done.
    case_bool_decide; [done|]. rewrite length_app. cbn [length].
    replace (length pair =? length pair + S (length (query pairs)))%nat with false by (symmetry; apply Nat.eqb_neq; lia).
    rewrite drop_app_ge by lia. replace (length pair + 1 - length pair)%nat with 1%nat by lia. cbn [drop].
    apply IH. rewrite length_app in Hf. cbn in Hf. lia.
Qed.

(** [$arg_NAME] is the value of the first pair with that name. *)
Theorem find_query_arg_first name pairs : Forall pair_ok pairs →
  find_query_arg (query pairs) name = snd <$> List.find (named name) pairs.
Proof. intros H. by apply find_query_loop. Qed.

(** ** The mode of a rule depends on the order of its arguments *)
Theorem dry_run_order parse_duration d :
  dr_mode_explicit d = false →
  take_rule_args parse_duration d [lit "mode=enforce"; lit "dry_run"] = None ∧
  dr_mode <$> take_rule_args parse_duration d [lit "dry_run"; lit "mode=enforce"] = Some Enforce.
Proof.
  intros Hd. assert (parse_rule_arg parse_duration (lit "mode=enforce") = AMode Enforce) as Hm by reflexivity.
  assert (parse_rule_arg parse_duration (lit "dry_run") = ADryRunFlag) as Hf by reflexivity.
  cbn [take_rule_args]. change (to_str (lit "mode=enforce")) with (Some (lit "mode=enforce")).
  change (to_str (lit "dry_run")) with (Some (lit "dry_run")). cbn [mbind option_bind]. rewrite Hm, Hf. split; [done|].
  cbn [take_rule_arg]. by rewrite Hd.
Qed.

(** ** Witnesses *)
Definition sample_duration (s : str) : option Z := if bool_decide (s = lit "1s") then Some 1000000000 else None.
Definition sample_directive : Args := [lit "gabion_limit_rule"; lit "api"; lit "$remote_addr"; lit "rate=2r/s"].

Lemma directives_keep_config_witness :
  main_ok (set_rule sample_duration MainConfig_default sample_directive).1 ∧
  rcfg_limit <$> rules (set_rule sample_duration MainConfig_default sample_directive).1 = [2].
Proof.
  destruct (directives_keep_config sample_duration 4096 true) as (Hm & _ & Hall & _).
  - intros s d. unfold sample_duration. case_bool_decide; [|discriminate]. intros [= <-]. lia.
  - split; [|vm_compute; reflexivity]. rewrite Forall_lookup in Hall. specialize (Hall 1%nat _ eq_refl).
    destruct (set_rule sample_duration MainConfig_default sample_directive) as [main' ok] eqn:E.
    exact (proj1 (Hall _ sample_directive main' ok Hm (f_equal Some E))).
Defined.

Definition sample_handle : ShmRegion := {| base := 4096; region_layout := {|
  Layout.queue_capacity := 2; Layout.aggregate_capacity := 2; Layout.header_offset := 0; Layout.lease_offset := 128;
  Layout.queue_control_offset := 192; Layout.queue_slots_offset := 256; Layout.aggregate_slots_offset := 448;
  Layout.stats_offset := 576; Layout.total_bytes := 1216 |} |}.
Definition sample_zone : Zone := {|
  z_layout := region_layout sample_handle; z_identity := NodeIdentityFields_default; z_lease := LeaderLease_default;
  z_queue := queue_new (2 ^ 1); z_region := demo_filled; z_stats := Access.Stats_default |}.
Definition sample_raw : RawRequest := {|
  rq_uri := lit "/"; rq_unparsed_uri := lit "/"; rq_args := []; rq_addr_text := Some (lit "10.0.0.1");
  rq_indexed := λ _, None; rq_complex := λ _, None |}.
Definition sample_main : MainConfig :=
  (set_rule sample_duration MainConfig_default sample_directive).1
    <| layout := Some (region_layout sample_handle) |> <| region := Some sample_handle |> <| decided := Some 3 |>.
Definition sample_location : LocationConfig := {| rule_indices := Some [0]; off := None |}.
Definition sample_configured : MainConfig :=
  (postconfiguration (λ _, Some 5) (λ _, None) (λ _, true) 64 demo_hash (λ _, []) true sample_main).1.
Definition sample_request : Request (list (str * list Z)) := {| marked := false; headers_out := [] |}.
Definition append_header (h : list (str * list Z)) (name : str) (value : list Z) := h ++ [(name, value)].

Definition sample_run : Run := {|
  run_location := Some sample_location; run_main := Some sample_configured; run_raw := sample_raw;
  run_time := Some 5000000000; run_others := λ mem, mem |}.
Definition header_counts (es : list (@Effect (list (str * list Z)))) : list Z :=
  List.map (λ e, zlen (headers_out (e_after e).2)) es.

Lemma counted_at_most_once_witness :
  ∃ effects, reruns append_header demo_hash [sample_run; sample_run] {[ 4096 := sample_zone ]} sample_request = Some effects ∧
    header_counts effects = [3; 3] ∧
    (Forall quiet effects ∨
     ∃ before counted after, effects = before ++ counted :: after ∧ Forall quiet before ∧ Forall idle after).
Proof.
  destruct (reruns append_header demo_hash [sample_run; sample_run] {[ 4096 := sample_zone ]} sample_request) as [es|] eqn:E.
  2:{ assert (header_counts <$> reruns append_header demo_hash [sample_run; sample_run] {[ 4096 := sample_zone ]} sample_request = Some [3; 3])
        as Hv by (vm_compute; reflexivity). rewrite E in Hv. discriminate Hv. }
  exists es. split; [reflexivity|]. split; [|exact (counted_at_most_once append_header demo_hash _ _ _ es E)].
  assert (header_counts <$> reruns append_header demo_hash [sample_run; sample_run] {[ 4096 := sample_zone ]} sample_request = Some [3; 3])
    as Hv by (vm_compute; reflexivity).
  rewrite E in Hv. injection Hv as Hv. exact Hv.
Defined.

Lemma sample_duration_ok s d : sample_duration s = Some d → 0 ≤ d.
Proof. unfold sample_duration. case_bool_decide; [|done]. intros [= <-]. lia. Qed.

Lemma sample_main_ok : main_ok sample_main.
Proof.
  destruct (set_rule_safe sample_duration sample_duration_ok MainConfig_default sample_directive main_default_ok) as [[] _].
  by split.
Qed.

Lemma configured_request_decided_witness :
  ∃ mem' request', gabion_access_handler append_header demo_hash (Some sample_location) (Some sample_configured)
      sample_raw (Some 5000000000) {[ 4096 := sample_zone ]} sample_request = Some (mem', request', NGX_DECLINED) ∧
    marked request' = true.
Proof.
  destruct (configured_request_decided append_header demo_hash (λ _, Some 5) (λ _, None) (λ _, true) 64 (λ _, [])
    sample_main sample_configured sample_location [0] sample_handle 1 sample_zone demo_map [] {[ 4096 := sample_zone ]}
    sample_raw (Some 5000000000) sample_request) as (rs & q' & st' & r' & status & out & os & He & _ & _ & _ & Ha).
  - intros bs. unfold uint, demo_hash. lia.
  - lia.
  - exact sample_main_ok.
  - intros indices [= <-]. split; [apply NoDup_singleton|]. apply Forall_singleton. vm_compute. split; congruence.
  - reflexivity.
  - vm_compute. congruence.
  - apply Forall_singleton. vm_compute. congruence.
  - reflexivity.
  - vm_compute. reflexivity.
  - vm_compute. reflexivity.
  - vm_compute. discriminate.
  - discriminate.
  - reflexivity.
  - discriminate.
  - reflexivity.
  - exact (proj1 demo_filled_ok).
  - exact (proj2 demo_filled_ok).
  - reflexivity.
  - apply new_contents. lia.
  - vm_compute. congruence.
  - reflexivity.
  - reflexivity.
  - assert ((λ x : Memory * Request (list (str * list Z)) * Status, (marked x.1.2, x.2)) <$> gabion_access_handler append_header demo_hash
      (Some sample_location) (Some sample_configured) sample_raw (Some 5000000000) {[ 4096 := sample_zone ]} sample_request =
      Some (true, NGX_DECLINED)) as Hv by (vm_compute; reflexivity).
    rewrite He in Hv. injection Hv as Hm Hs. subst status. eexists _, r'. split; [exact He|exact Hm].
Defined.
