(* ===== verification/Engine.v ===== *)
(** * The visualizer's simulation engine

    [crates/gabion-wasm/src/]: [config.rs], [event.rs], [hex.rs], [clock.rs],
    [shims.rs] and [engine.rs].  A cluster of event loops ([Runtime]) on one
    simulated network ([Sim]), driven by commands.  Everything runs on one
    thread: while a command awaits, the tasks of the nodes take turns, and the
    sequence of turns is an argument.  A turn is one iteration of a node's
    loop; it names the arms whose futures may resolve in it, since a blocked
    transport and the executor's budget can make a ready arm wait.  [None] is a
    panic, or a sequence of turns that ends before what is awaited. *)

From stdpp Require Import strings.
From S2P Require Import Prelude Types Hash Index Freelist Dictionary DirtyRing PeerFrontier IO CellStore Bytes Str Window WireHeader WireBody Wire Rules DashMap Runtime NetAddr Sim ServerConfig Admin.

(** ** Identifiers as text *)
Definition u128_hex_serialize (value : Z) : str := hex32 value.

(** [u128::from_str_radix(_, 16)]: digits, after at most one plus sign. *)
Definition u128_from_hex (s : str) : option Z :=
  match s with
  | [] => None
  | c :: digits =>
    if c =? 43 then (if bool_decide (digits = []) then None else radix_digits 16 0 digits)
    else radix_digits 16 0 s
  end.
Definition u128_hex_deserialize (raw : str) : option Z :=
  u128_from_hex (default raw (strip_prefix (lit "0x") raw)).
Definition option_u128_hex_serialize (value : option Z) : option str := (λ v, hex32 v) <$> value.
(** The outer [option] is the error. *)
Definition option_u128_hex_deserialize (raw : option str) : option (option Z) :=
  match raw with
  | None => Some None
  | Some s => v ← u128_hex_deserialize s; Some (Some v)
  end.

(** ** Events *)
Inductive EventKind :=
  | EvTick (node : Z)
  | EvThresholdFire (node : Z)
  | PacketSent (src dst bytes : Z)
  | PacketDelivered (src dst bytes : Z)
  | PacketDropped (src dst bytes : Z)
  | CellCreated (node rule key bucket count : Z)
  | CellUpdated (node rule key bucket count : Z)
  | CellExpired (node rule key bucket : Z).
Record Event := { ev_tick : Z; ev_virtual_ms : Z; ev_kind : EventKind }.
Record EventBatch := { eb_events : list Event; eb_virtual_ms : Z; eb_tick : Z }.

Record CellView := {
  cv_rule : Z;
  cv_key : Z;
  cv_bucket : Z;
  cv_count : Z;
  cv_age_ms : Z;
  cv_origin : option Z;
  cv_is_local : bool;
}.
Record PeerView := { pv_id : option Z; pv_node_id : option Z }.
Record NodeState := {
  ns_id : Z;
  ns_node_id : Z;
  ns_incarnation : Z;
  ns_aggregate_total : Z;
  ns_ticks_total : Z;
  ns_threshold_fires : Z;
  ns_dirty_ticks : Z;
  ns_effective_fanout : Z;
  ns_peak_fanout : Z;
  ns_error_budget : Z;
  ns_local_dirty_len : Z;
  ns_forwarded_dirty_len : Z;
  ns_send_pending_depth : Z;
  ns_max_send_pending_depth : Z;
  ns_decode_reject_count : Z;
  ns_store_stats : CellStoreStats;
  ns_cells : list CellView;
  ns_peers : list PeerView;
}.
Definition StoreStats_default : CellStoreStats := {|
  active_cells := 0; cell_capacity_stat := 0; rule_slots_used := 0; rule_slots_capacity := 0; node_slots_used := 0;
  node_slots_capacity := 0; stat_cell_store_full_rejects := 0; stat_rule_dictionary_full_rejects := 0;
  stat_node_dictionary_full_rejects := 0 |}.
Record ClusterState := {
  cst_virtual_ms : Z;
  cst_tick : Z;
  cst_nodes : list NodeState;
  oracle_total : Z;
  bucket_epoch_now : Z;
}.

(** ** The store that reports *)

(** [es_log] is what the store pushed to the shared log in the current turn. *)
Record EventStore := { es_node : Z; es_inner : gmap CellIdentity Z; es_log : list EventKind }.
#[export] Instance eta_EventStore : Eta EventStore := λ x,
  {| es_node := es_node x; es_inner := es_inner x; es_log := es_log x |}.

Definition EventStore_new (node : Z) : EventStore := {| es_node := node; es_inner := ∅; es_log := [] |}.

Definition sum_u64 (l : list Z) : option Z := for_each l 0 (λ acc v, checked 64 (acc + v)).
Definition total (self : EventStore) : option Z := sum_u64 (map_to_list (es_inner self)).*2.
Definition total_for_rule (self : EventStore) (rule : Z) : option Z :=
  sum_u64 (List.filter (λ p, Types.rule_fingerprint p.1 =? rule) (map_to_list (es_inner self))).*2.

Definition apply_delta (deltas : DeltaSink.t) (self : EventStore) (i : Z) : option EventStore :=
  key ← zget (DeltaSink.keys deltas) i;
  delta ← zget (DeltaSink.deltas deltas) i;
  previous ← zget (DeltaSink.previous deltas) i;
  current ← zget (DeltaSink.current deltas) i;
  v ← checked 64 (default 0 (es_inner self !! key) + delta);
  let event := if previous =? 0
    then CellCreated (es_node self) (Types.rule_fingerprint key) (key_hash key) (bucket key) current
    else CellUpdated (es_node self) (Types.rule_fingerprint key) (key_hash key) (bucket key) current in
  Some (self <| es_inner := <[key := v]> (es_inner self) |> <| es_log := es_log self ++ [event] |>).

Definition apply_expiration (expirations : ExpirationSink.t) (self : EventStore) (i : Z) : option EventStore :=
  key ← zget (ExpirationSink.keys expirations) i;
  last ← zget (ExpirationSink.last_counts expirations) i;
  let entry := saturating_sub (default 0 (es_inner self !! key)) last in
  Some (self <| es_inner := if entry =? 0 then delete key (es_inner self) else <[key := entry]> (es_inner self) |>
             <| es_log := es_log self ++ [CellExpired (es_node self) (Types.rule_fingerprint key) (key_hash key) (bucket key)] |>).

Definition apply (self : EventStore) (deltas : DeltaSink.t) (expirations : ExpirationSink.t) : option EventStore :=
  self ← for_each (zrange 0 (DeltaSink.len deltas)) self (apply_delta deltas);
  for_each (zrange 0 (ExpirationSink.len expirations)) self (apply_expiration expirations).

#[export] Instance event_aggregate : AggregateStore EventStore :=
  { agg_apply := apply; agg_read := λ s cid, default 0 (es_inner s !! cid) }.

(** ** The transport that reports *)

(** [f64] in what the engine does with a loss: validation and the comparison. *)
Class Loss (F : Type) `{Probability F} := {
  within_unit : F → bool;
  is_positive : F → bool;
}.

Section engine.
Context {F : Type} `{!Probability F, !Loss F} `{C : Count} (hmac : list Z → list Z → list Z).
Abbreviation Router := (@SimRouter F).
Abbreviation AddressBook := (gmap SocketAddr Z).

(** The router's count for the destination moves just when the packet lands. *)
Definition logging_try_send_to (router : Router) (addresses : AddressBook) (src : Z) (inner : SimTransport)
    (buf : list Z) (dst : SocketAddr) : option (Router * SimTransport * (Z + IoError) * list EventKind) :=
  let before := received_count router dst in
  '(router, inner, result) ← Sim.try_send_to router inner buf dst;
  let events :=
    match result, addresses !! dst with
    | inl n, Some dst_id =>
      if before <? received_count router dst then [PacketSent src dst_id (as_u32 n)]
      else [PacketDropped src dst_id (as_u32 n)]
    | _, _ => []
    end in
  Some (router, inner, result, events).

Definition logging_recv_from (router : Router) (addresses : AddressBook) (dst : Z) (inner : SimTransport)
    (buf : list Z) : option (Router * Received * list EventKind) :=
  '(router, result) ← Sim.recv_from router inner buf;
  let events :=
    match result with
    | Got _ n src_addr =>
      match addresses !! src_addr with Some src_id => [PacketDelivered src_id dst (as_u32 n)] | None => [] end
    | _ => []
    end in
  Some (router, result, events).

(** ** Configuration *)
Definition MAX_NODES : Z := 256.
Record SimConfig := {
  sc_nodes : Z;
  sc_fanout : Z;
  sc_tick_interval_ms : Z;
  sc_target_err_bps : Z;
  sc_min_emit_interval_ms : Z;
  sc_rule_fingerprint : Z;
  sc_rule_limit : Z;
  sc_rule_window_ms : Z;
  sc_rule_bucket_ms : Z;
  sc_rng_seed : Z;
  sc_uniform_loss : F;
}.
(** [zero] is the literal [0.0]. *)
Definition SimConfig_default (zero : F) : SimConfig := {|
  sc_nodes := 12; sc_fanout := 3; sc_tick_interval_ms := 500; sc_target_err_bps := 100; sc_min_emit_interval_ms := 5;
  sc_rule_fingerprint := 911395883396678337622029; (* 0xC0FE_DEAD_BEEF_BABE_F00D *)
  sc_rule_limit := 1000; sc_rule_window_ms := 10000; sc_rule_bucket_ms := 1000; sc_rng_seed := 0; sc_uniform_loss := zero |}.

Inductive SimConfigError :=
  | NodeCountOutOfRange (got : Z)
  | WindowBucketMismatch (window_ms bucket_ms : Z)
  | LossOutOfRange (got : F).

Definition validate (self : SimConfig) : unit + SimConfigError :=
  if (sc_nodes self <? 1) || (MAX_NODES <? sc_nodes self) then Err (NodeCountOutOfRange (sc_nodes self)) else
  if (sc_rule_window_ms self =? 0) || (sc_rule_bucket_ms self =? 0) ||
     negb (sc_rule_window_ms self mod sc_rule_bucket_ms self =? 0)
  then Err (WindowBucketMismatch (sc_rule_window_ms self) (sc_rule_bucket_ms self)) else
  if negb (within_unit (sc_uniform_loss self)) then Err (LossOutOfRange (sc_uniform_loss self)) else Ok ().

Definition SLACK : Z := 2.
Definition sim_cell_store_config (live_buckets : Z) : option CellStoreConfig :=
  let ceiling := MAX_NODES in
  per_origin ← checked 32 (live_buckets + 1);
  let cross_node := Z.max (saturating_mul 32 (saturating_mul 32 ceiling per_origin) SLACK) SLACK in
  local ← checked 32 (per_origin * SLACK);
  Some {| cell_capacity := cross_node;
          rule_dictionary_capacity := 4;
          node_dictionary_capacity := as_u16 (Z.min (ceiling + SLACK) 65535);
          local_dirty_capacity := local;
          forwarded_dirty_capacity := cross_node;
          peer_capacity := as_u16 (Z.min (ceiling + SLACK) 65535) |}.

(** ** The engine's state *)
Definition BASE_PORT : Z := 40000.
Definition CLUSTER_ID_HASH : Z := 193.
Definition LOCAL_RULE_ID : Z := 0.
Definition VIZ_MAX_CELLS_PER_TICK : Z := 160.
Definition VIZ_SEND_QUEUE_CAPACITY : Z := 255.
Definition TICK_CHANNEL : Z := 256.

Inductive LinkPolicyKind := KPass | KBlock | KDropFirst (count : Z) | KDropProb (p : F).
Definition LinkPolicy_from (value : LinkPolicyKind) : @LinkPolicy F :=
  match value with
  | KPass => Pass
  | KBlock => Block
  | KDropFirst count => DropFirst count
  | KDropProb p => DropProb p
  end.

Inductive EngineError :=
  | ConfigRefused (e : SimConfigError)
  | UnknownNode (id : Z)
  | GossipFailed (node : Z) (source : GossipError).

(** A spawned event loop with the channels that lead to it: requests, admin
    commands, ticks (a count) and peer events. *)
Record NodeTask := {
  nt_run : @GossipRuntime.RunState EventStore;
  nt_transport : SimTransport;
  nt_requests : list Request;
  nt_admin : list AdminCommand;
  nt_ticks : Z;
  nt_peer_events : list PeerEvent;
  nt_stopped : bool;
}.
#[export] Instance eta_NodeTask : Eta NodeTask := λ x, {|
  nt_run := nt_run x; nt_transport := nt_transport x; nt_requests := nt_requests x; nt_admin := nt_admin x;
  nt_ticks := nt_ticks x; nt_peer_events := nt_peer_events x; nt_stopped := nt_stopped x |}.

Record NodeHandle := { nh_id : Z; nh_addr : SocketAddr; nh_identity : NodeIdentity; nh_task : NodeTask }.
#[export] Instance eta_NodeHandle : Eta NodeHandle := λ x, {|
  nh_id := nh_id x; nh_addr := nh_addr x; nh_identity := nh_identity x; nh_task := nh_task x |}.

Record EngineState := {
  es_config : SimConfig;
  es_router : Router;
  es_nodes : list NodeHandle;
  es_addresses : AddressBook;
  es_node_id_index : gmap Z Z;
  es_next_id : Z;
  es_events : list EventKind;
  es_now : Z;
  es_virtual_ms : Z;
}.
#[export] Instance eta_EngineState : Eta EngineState := λ x, {|
  es_config := es_config x; es_router := es_router x; es_nodes := es_nodes x; es_addresses := es_addresses x;
  es_node_id_index := es_node_id_index x; es_next_id := es_next_id x; es_events := es_events x; es_now := es_now x;
  es_virtual_ms := es_virtual_ms x |}.

(** ** One turn of a node's task *)
Record Turn := {
  tn_node : Z;
  tn_request : bool;
  tn_recv : bool;
  tn_writable : bool;
  tn_peer_event : bool;
  tn_admin : bool;
  tn_tick : bool;
}.

Definition position_of (self : EngineState) (id : Z) : option (nat * NodeHandle) :=
  list_find (λ h, nh_id h = id) (es_nodes self).

Definition nothing : GossipRuntime.Ready := {|
  GossipRuntime.rd_request := None; GossipRuntime.rd_recv := None; GossipRuntime.rd_writable := false;
  GossipRuntime.rd_peer_event := None; GossipRuntime.rd_admin := None; GossipRuntime.rd_tick := false |}.

(** The first arm that resolves takes its message; those after it are not
    polled.  A send is attempted when the writable arm resolves. *)
Definition take_ready (self : EngineState) (h : NodeHandle) (tn : Turn) :
    option (Router * NodeTask * GossipRuntime.Env * GossipRuntime.Ready * list EventKind) :=
  let router := es_router self in
  let task := nh_task h in
  let rs := nt_run task in
  let rt := GossipRuntime.rs_self rs in
  let env r := {| GossipRuntime.now_millis := es_now self; GossipRuntime.try_send_to := r |} in
  if GossipRuntime.want_immediate_flush rt then Some (router, task, env (Ok ()), nothing, []) else
  match (if tn_request tn then nt_requests task else []) with
  | r :: rest =>
    Some (router, task <| nt_requests := rest |>, env (Ok ()), nothing <| GossipRuntime.rd_request := Some (Some r) |>, [])
  | [] =>
    '(router, received, evs) ←
      (if tn_recv tn then logging_recv_from router (es_addresses self) (nh_id h) (nt_transport task) (GossipRuntime.recv_buf rt)
       else Some (router, Wait, []));
    match received with
    | Got buf n src => Some (router, task, env (Ok ()), nothing <| GossipRuntime.rd_recv := Some (Ok (buf, n, src)) |>, evs)
    | Eof => Some (router, task, env (Ok ()), nothing <| GossipRuntime.rd_recv := Some (Err OtherIo) |>, evs)
    | Wait =>
      match (if tn_writable tn then GossipRuntime.send_pending rt else []) with
      | (dst, slot) :: _ =>
        buf ← zget (GossipRuntime.send_pool rt) slot;
        '(router, transport, r, evs) ←
          logging_try_send_to router (es_addresses self) (nh_id h) (nt_transport task) (as_bytes buf) dst;
        Some (router, task <| nt_transport := transport |>,
              env (match r with inl _ => Ok () | inr e => Err e end), nothing <| GossipRuntime.rd_writable := true |>, evs)
      | [] =>
        match (if tn_peer_event tn && negb (GossipRuntime.peer_events_done rs) then nt_peer_events task else []) with
        | e :: rest =>
          Some (router, task <| nt_peer_events := rest |>, env (Ok ()), nothing <| GossipRuntime.rd_peer_event := Some (Some e) |>, [])
        | [] =>
          match (if tn_admin tn && GossipRuntime.admin_rx rt then nt_admin task else []) with
          | c :: rest =>
            Some (router, task <| nt_admin := rest |>, env (Ok ()), nothing <| GossipRuntime.rd_admin := Some (Some c) |>, [])
          | [] =>
            if tn_tick tn && (0 <? nt_ticks task)
            then Some (router, task <| nt_ticks := nt_ticks task - 1 |>, env (Ok ()), nothing <| GossipRuntime.rd_tick := true |>, [])
            else Some (router, task, env (Ok ()), nothing, [])
          end
        end
      end
    end
  end.

Definition set_task (self : EngineState) (pos : nat) (h : NodeHandle) (task : NodeTask) : EngineState :=
  self <| es_nodes := <[pos := h <| nh_task := task |>]> (es_nodes self) |>.

(** A loop that returned drops its transport. *)
Definition turn (self : EngineState) (tn : Turn) : option (EngineState * list GossipRuntime.Effect) :=
  match position_of self (tn_node tn) with
  | None => Some (self, [])
  | Some (pos, h) =>
    if nt_stopped (nh_task h) then Some (self, []) else
    '(router, task, env, rd, evs) ← take_ready self h tn;
    '(rs, effs, flow) ← GossipRuntime.iteration hmac (nt_run task) env rd;
    let rt := GossipRuntime.rs_self rs in
    let store := GossipRuntime.aggregates rt in
    let rs := {| GossipRuntime.rs_self := rt <| GossipRuntime.aggregates := store <| es_log := [] |> |>;
                 GossipRuntime.peer_events_done := GossipRuntime.peer_events_done rs |} in
    let '(router, stopped) :=
      match flow with
      | GossipRuntime.Continue => (router, false)
      | GossipRuntime.Return _ => (drop_transport router (nt_transport task), true)
      end in
    Some (set_task self pos h (task <| nt_run := rs |> <| nt_stopped := stopped |>)
            <| es_router := router |> <| es_events := es_events self ++ evs ++ es_log store |>, effs)
  end.

Fixpoint turns (self : EngineState) (l : list Turn) : option (EngineState * list GossipRuntime.Effect) :=
  match l with
  | [] => Some (self, [])
  | tn :: l =>
    '(self, effs) ← turn self tn;
    '(self, effs') ← turns self l;
    Some (self, effs ++ effs')
  end.

(** [yield_now] as often as the cluster is large: what the other tasks do
    meanwhile is [l]. *)
Definition drain_pending (self : EngineState) (l : list Turn) : option EngineState :=
  '(self, _) ← turns self l; Some self.

(** ** Asking a node *)
Definition stopped_at (self : EngineState) (id : Z) : bool :=
  match position_of self id with Some (_, h) => nt_stopped (nh_task h) | None => true end.

Definition is_snapshot (e : GossipRuntime.Effect) : option AdminSnapshot :=
  match e with GossipRuntime.SnapshotReply _ s => Some s | _ => None end.
Definition is_dump (e : GossipRuntime.Effect) : option CellDumpSnapshot :=
  match e with GossipRuntime.CellDumpReply _ s => Some s | _ => None end.

(** One command at a time is under way, so its reply is the first of its kind.
    The inner [None] is a runtime that has stopped. *)
Definition ask {A} (self : EngineState) (id : Z) (cmd : AdminCommand) (reply : GossipRuntime.Effect → option A)
    (l : list Turn) : option (EngineState * option A) :=
  match position_of self id with
  | None => Some (self, None)
  | Some (pos, h) =>
    if nt_stopped (nh_task h) then Some (self, None) else
    let self := set_task self pos h (nh_task h <| nt_admin := nt_admin (nh_task h) ++ [cmd] |>) in
    '(self, effs) ← turns self l;
    match head (omap reply effs) with
    | Some a => Some (self, Some a)
    | None => if stopped_at self id then Some (self, None) else None
    end
  end.
Definition admin_snapshot (self : EngineState) (id : Z) (l : list Turn) : option (EngineState * option AdminSnapshot) :=
  ask self id (Snapshot 0) is_snapshot l.
Definition cell_dump (self : EngineState) (id : Z) (l : list Turn) : option (EngineState * option CellDumpSnapshot) :=
  ask self id (CellDump 0) is_dump l.

(** ** Time and events *)
Definition current_tick (self : EngineState) : Z :=
  es_virtual_ms self / Z.max (sc_tick_interval_ms (es_config self)) 1.

Definition drain_log (self : EngineState) (events : list Event) : EngineState * list Event :=
  (self <| es_events := [] |>,
   events ++ ((λ kind, {| ev_tick := current_tick self; ev_virtual_ms := es_virtual_ms self; ev_kind := kind |}) <$> es_events self)).

Definition batch (self : EngineState) (events : list Event) : EventBatch :=
  {| eb_events := events; eb_virtual_ms := es_virtual_ms self; eb_tick := current_tick self |}.

(** ** Nodes *)
Definition rule_descriptor (self : EngineState) : RuleDescriptor := {|
  fingerprint := sc_rule_fingerprint (es_config self);
  window_millis := sc_rule_window_ms (es_config self);
  bucket_millis := sc_rule_bucket_ms (es_config self);
  Dictionary.limit := sc_rule_limit (es_config self);
  flags := 0;
  local_rule_id := LOCAL_RULE_ID |}.

(** A plain [+] on [u16], in a build without overflow checks. *)
Definition addr_of_id (id : Z) : SocketAddr := V4 2130706433 (wrapping_add 16 BASE_PORT (as_u16 id)).

Definition identity_of (id : Z) : NodeIdentity := {| node_id := id * 256 + 1; ni_incarnation := 1 |}.

Definition viz_gossip_config (self : EngineState) (store_config : CellStoreConfig) (id : Z) (bootstrap_peers : list SocketAddr) :
    GossipConfig := {|
  gc_local_identity := identity_of id;
  gc_cluster_id_hash := CLUSTER_ID_HASH;
  gc_bootstrap_peers := bootstrap_peers;
  gc_fanout := sc_fanout (es_config self);
  gc_max_cells_per_tick := Z.min VIZ_MAX_CELLS_PER_TICK (cell_capacity store_config);
  gc_wire_limits := {| max_payload_bytes := 1400; max_cells := cell_capacity store_config |};
  gc_send_queue_capacity := VIZ_SEND_QUEUE_CAPACITY;
  gc_limit_queue_capacity := 8192;
  gc_tick_interval := sc_tick_interval_ms (es_config self) * 1000000;
  gc_auth_key := None;
  gc_rng_seed := wrapping_add 64 (sc_rng_seed (es_config self)) id;
  gc_target_err_bps := sc_target_err_bps (es_config self);
  gc_min_emit_interval := sc_min_emit_interval_ms (es_config self) * 1000000 |}.

Definition spawn_node (self : EngineState) (id : Z) (bootstrap : list SocketAddr) : option EngineState :=
  let a := addr_of_id id in
  let identity := identity_of id in
  store_config ← sim_cell_store_config (live_buckets (rule_descriptor self));
  store ← CellStore.new store_config identity;
  '(store, _) ← CellStore.intern_rule store (rule_descriptor self);
  let bootstrap_peers := List.filter (λ b, negb (bool_decide (b = a))) bootstrap in
  '(router, transport) ← Sim.bind (es_router self) a;
  let runtime := GossipRuntime.from_parts_with_admin (viz_gossip_config self store_config id bootstrap_peers) store
                   (EventStore_new id) true in
  let task := {| nt_run := {| GossipRuntime.rs_self := runtime; GossipRuntime.peer_events_done := false |};
                 nt_transport := transport; nt_requests := []; nt_admin := []; nt_ticks := 0; nt_peer_events := [];
                 nt_stopped := false |} in
  Some (self <| es_router := router |>
             <| es_node_id_index := <[node_id identity := id]> (es_node_id_index self) |>
             <| es_addresses := <[a := id]> (es_addresses self) |>
             <| es_nodes := es_nodes self ++ [{| nh_id := id; nh_addr := a; nh_identity := identity; nh_task := task |}] |>).

(** [id = next_id; next_id += 1]. *)
Definition take_id (self : EngineState) : option (EngineState * Z) :=
  next ← checked 32 (es_next_id self + 1);
  Some (self <| es_next_id := next |>, es_next_id self).

(** The directed links between different addresses. *)
Definition links (addrs : list SocketAddr) : list (SocketAddr * SocketAddr) :=
  src ← addrs; dst ← addrs; if decide (src = dst) then [] else [(src, dst)].
Definition set_links (router : Router) (addrs : list SocketAddr) (policy : LinkPolicy) : Router :=
  foldl (λ r '(src, dst), Sim.set_link_policy r src dst policy) router (links addrs).

Definition build (config : SimConfig) : option EngineState :=
  let self := {|
    es_config := config; es_router := with_channel_capacity VIZ_SEND_QUEUE_CAPACITY; es_nodes := []; es_addresses := ∅;
    es_node_id_index := ∅; es_next_id := 0; es_events := []; es_now := 0; es_virtual_ms := 0 |} in
  let addrs := addr_of_id <$> zrange 0 (sc_nodes config) in
  self ← for_each (zrange 0 (sc_nodes config)) self (λ self _, '(self, id) ← take_id self; spawn_node self id addrs);
  Some (if is_positive (sc_uniform_loss config)
        then self <| es_router := set_links (es_router self) addrs (DropProb (sc_uniform_loss config)) |>
        else self).

(** ** Commands *)
Definition submit_request (self : EngineState) (node key hits : Z) (l : list Turn) :
    option (EngineState * (EventBatch + EngineError)) :=
  match position_of self node with
  | None => Some (self, Err (UnknownNode node))
  | Some (pos, h) =>
    let failed := Err (GossipFailed node RuntimeShutDown) in
    if nt_stopped (nh_task h) then Some (self, failed) else
    let bucket := current_epoch (rule_descriptor self) (es_virtual_ms self) in
    let request := record (sc_rule_fingerprint (es_config self)) key bucket hits (sc_rule_limit (es_config self))
                     (es_virtual_ms self) (Some 0) in
    let self := set_task self pos h (nh_task h <| nt_requests := nt_requests (nh_task h) ++ [request] |>) in
    '(self, effs) ← turns self l;
    if existsb (λ e, match e with GossipRuntime.Ack _ => true | _ => false end) effs then
      let '(self, events) := drain_log self [] in Some (self, Ok (batch self events))
    else if stopped_at self node then Some (self, failed) else None
  end.

Definition set_link_policy (self : EngineState) (src dst : Z) (policy : LinkPolicyKind) :
    option (EngineState * (unit + EngineError)) :=
  if bool_decide (position_of self src = None) then Some (self, Err (UnknownNode src)) else
  if bool_decide (position_of self dst = None) then Some (self, Err (UnknownNode dst)) else
  Some (self <| es_router := Sim.set_link_policy (es_router self) (addr_of_id src) (addr_of_id dst) (LinkPolicy_from policy) |>, Ok ()).

Definition heal (self : EngineState) : EngineState :=
  self <| es_router := set_links (es_router self) (nh_addr <$> es_nodes self) Pass |>.

(** [peer_tx.unbounded_send]: to a stopped loop it is lost. *)
Definition tell (evt : PeerEvent) (h : NodeHandle) : NodeHandle :=
  if nt_stopped (nh_task h) then h
  else h <| nh_task := nh_task h <| nt_peer_events := nt_peer_events (nh_task h) ++ [evt] |> |>.

Definition add_node (self : EngineState) (l : list Turn) : option (EngineState * EventBatch) :=
  '(self, id) ← take_id self;
  let newcomer_addr := addr_of_id id in
  self ← spawn_node self id (nh_addr <$> es_nodes self);
  let self := self <| es_nodes := (λ h, if nh_id h =? id then h else tell (Added newcomer_addr) h) <$> es_nodes self |> in
  self ← drain_pending self l;
  let '(self, events) := drain_log self [] in
  Some (self, batch self events).

(** Aborting the task drops its transport. *)
Definition remove_node (self : EngineState) (id : Z) (l : list Turn) : option (EngineState * (EventBatch + EngineError)) :=
  match position_of self id with
  | None => Some (self, Err (UnknownNode id))
  | Some (pos, h) =>
    let a := nh_addr h in
    let router := drop_transport (es_router self) (nt_transport (nh_task h)) in
    let self := self <| es_nodes := tell (Removed a) <$> delete pos (es_nodes self) |>
                     <| es_router := (unbind router a).1 |>
                     <| es_addresses := delete a (es_addresses self) |>
                     <| es_node_id_index := delete (node_id (nh_identity h)) (es_node_id_index self) |> in
    self ← drain_pending self l;
    let '(self, events) := drain_log self [] in
    Some (self, Ok (batch self events))
  end.

(** The channel of a live loop has room in the rounds of [step]; [None] waits. *)
Definition fire_one (h : NodeHandle) : option NodeHandle :=
  if nt_stopped (nh_task h) then Some h else
  assert_ (nt_ticks (nh_task h) <? TICK_CHANNEL);;
  Some (h <| nh_task := nh_task h <| nt_ticks := nt_ticks (nh_task h) + 1 |> |>).
Definition fire_tick (self : EngineState) : option EngineState :=
  nodes ← mapM fire_one (es_nodes self);
  Some (self <| es_nodes := nodes |>).

Fixpoint admin_counters_loop (self : EngineState) (ids : list Z) (ls : list (list Turn)) :
    option (EngineState * list (Z * Z)) :=
  match ids with
  | [] => Some (self, [])
  | id :: ids =>
    '(self, snap) ← admin_snapshot self id (default [] (head ls));
    '(self, out) ← admin_counters_loop self ids (tail ls);
    Some (self, (match snap with Some s => (as_ticks_total s, as_threshold_fires s) | None => (0, 0) end) :: out)
  end.
Definition admin_counters (self : EngineState) (ls : list (list Turn)) : option (EngineState * list (Z * Z)) :=
  admin_counters_loop self (nh_id <$> es_nodes self) ls.

(** The events of one node in one round. *)
Definition node_tick_events (node : Z) (before after : Z * Z) : list EventKind :=
  let total_delta := saturating_sub after.1 before.1 in
  let threshold_delta := saturating_sub after.2 before.2 in
  let heartbeat_delta := saturating_sub total_delta threshold_delta in
  replicate (Z.to_nat heartbeat_delta) (EvTick node) ++ replicate (Z.to_nat threshold_delta) (EvThresholdFire node).
Definition push_tick_events (self : EngineState) (prev now : list (Z * Z)) (events : list Event) : list Event :=
  let kinds := concat (zip_with (λ h '(before, after), node_tick_events (nh_id h) before after) (es_nodes self) (zip prev now)) in
  events ++ ((λ kind, {| ev_tick := current_tick self; ev_virtual_ms := es_virtual_ms self; ev_kind := kind |}) <$> kinds).

(** What the tasks do in one round: while it sends, while it merges, and while
    the counters are read. *)
Record Round := { rd_sending : list Turn; rd_merging : list Turn; rd_counting : list (list Turn) }.

(** The loop of [step]; a round is left unused once the next tick lies beyond
    [target]. *)
Fixpoint step_loop (self : EngineState) (target : Z) (prev : list (Z * Z)) (events : list Event) (rounds : list Round) :
    option (EngineState * list Event) :=
  let tick_ms := Z.max (sc_tick_interval_ms (es_config self)) 1 in
  let next_tick := saturating_mul 64 (es_virtual_ms self / tick_ms + 1) tick_ms in
  if target <? next_tick then Some (self, events) else
  match rounds with
  | [] => None
  | r :: rounds =>
    let self := self <| es_virtual_ms := next_tick |> <| es_now := next_tick |>
                     <| es_router := begin_deferred (es_router self) |> in
    self ← fire_tick self;
    self ← drain_pending self (rd_sending r);
    router ← release_deferred (es_router self);
    self ← drain_pending (self <| es_router := router |>) (rd_merging r);
    let '(self, events) := drain_log self events in
    '(self, now) ← admin_counters self (rd_counting r);
    step_loop self target now (push_tick_events self prev now events) rounds
  end.

Definition step (self : EngineState) (delta_ms : Z) (counting : list (list Turn)) (rounds : list Round) :
    option (EngineState * EventBatch) :=
  let target := saturating_add 64 (es_virtual_ms self) delta_ms in
  '(self, prev) ← admin_counters self counting;
  '(self, events) ← step_loop self target prev [] rounds;
  let '(self, events) :=
    if es_virtual_ms self <? target
    then drain_log (self <| es_virtual_ms := target |> <| es_now := target |>) events
    else (self, events) in
  Some (self, batch self events).

(** ** Snapshots *)
Definition cells_from_dump (self : EngineState) (identity : NodeIdentity) (dump : CellDumpSnapshot) : list CellView :=
  (λ cell, {| cv_rule := cd_rule_fingerprint cell; cv_key := cd_key_hash cell; cv_bucket := cd_bucket cell;
              cv_count := cd_count cell;
              cv_age_ms := saturating_sub (es_virtual_ms self) (cd_last_update_millis cell);
              cv_origin := (id ← cd_origin_node_id cell; es_node_id_index self !! id);
              cv_is_local := bool_decide (cd_origin_node_id cell = Some (node_id identity)) |}) <$> cs_cells dump.

Definition peers_from_snapshot (self : EngineState) (snap : AdminSnapshot) : list PeerView :=
  (λ peer, {| pv_id := es_addresses self !! pe_addr peer; pv_node_id := pe_node_id peer |}) <$> as_peers snap.

Definition node_state (self : EngineState) (h : NodeHandle) (aggregate_total : Z) (dump : option CellDumpSnapshot)
    (snap : option AdminSnapshot) : NodeState :=
  let get {A} (zero : A) (f : AdminSnapshot → A) := match snap with Some s => f s | None => zero end in
  {| ns_id := nh_id h;
     ns_node_id := node_id (nh_identity h);
     ns_incarnation := ni_incarnation (nh_identity h);
     ns_aggregate_total := aggregate_total;
     ns_ticks_total := get 0 as_ticks_total;
     ns_threshold_fires := get 0 as_threshold_fires;
     ns_dirty_ticks := get 0 as_dirty_ticks;
     ns_effective_fanout := get 0 (λ s, as_u32 (as_last_effective_fanout s));
     ns_peak_fanout := get 0 (λ s, as_u32 (as_peak_effective_fanout s));
     ns_error_budget := get 0 as_last_error_budget;
     ns_local_dirty_len := get 0 as_local_dirty_len;
     ns_forwarded_dirty_len := get 0 as_forwarded_dirty_len;
     ns_send_pending_depth := get 0 as_send_pending_depth;
     ns_max_send_pending_depth := get 0 as_max_send_pending_depth;
     ns_decode_reject_count := get 0 as_decode_reject_count;
     ns_store_stats := get StoreStats_default as_store_stats;
     ns_cells := match dump with Some d => cells_from_dump self (nh_identity h) d | None => [] end;
     ns_peers := get [] (peers_from_snapshot self) |}.

(** The total is read from the shared store after both replies. *)
Definition aggregate_of (self : EngineState) (id : Z) : option Z :=
  '(_, h) ← position_of self id;
  total (GossipRuntime.aggregates (GossipRuntime.rs_self (nt_run (nh_task h)))).

Fixpoint snapshot_loop (self : EngineState) (handles : list NodeHandle) (ls : list (list Turn * list Turn)) :
    option (EngineState * list NodeState) :=
  match handles with
  | [] => Some (self, [])
  | h :: handles =>
    let '(l1, l2) := default ([], []) (head ls) in
    '(self, dump) ← cell_dump self (nh_id h) l1;
    '(self, snap) ← admin_snapshot self (nh_id h) l2;
    aggregate_total ← aggregate_of self (nh_id h);
    let node := node_state self h aggregate_total dump snap in
    '(self, nodes) ← snapshot_loop self handles (tail ls);
    Some (self, node :: nodes)
  end.

Definition counts_locally (fp : Z) (cell : CellView) : bool := cv_is_local cell && (cv_rule cell =? fp).
Definition oracle (fp : Z) (nodes : list NodeState) : option Z :=
  sum_u64 (cv_count <$> List.filter (counts_locally fp) (concat (ns_cells <$> nodes))).

Definition snapshot (self : EngineState) (ls : list (list Turn * list Turn)) : option (EngineState * ClusterState) :=
  '(self, nodes) ← snapshot_loop self (es_nodes self) ls;
  t ← oracle (sc_rule_fingerprint (es_config self)) nodes;
  Some (self, {| cst_virtual_ms := es_virtual_ms self; cst_tick := current_tick self; cst_nodes := nodes; oracle_total := t;
                 bucket_epoch_now := current_epoch (rule_descriptor self) (es_virtual_ms self) |}).

(** ** The command loop *)
Definition ask_shutdown (h : NodeHandle) : NodeHandle :=
  if nt_stopped (nh_task h) then h
  else h <| nh_task := nh_task h <| nt_requests := nt_requests (nh_task h) ++ [Shutdown] |> |>.
Definition shutdown (self : EngineState) (l : list Turn) : option EngineState :=
  self ← drain_pending (self <| es_nodes := ask_shutdown <$> es_nodes self |>) l;
  assert_ (forallb (λ h, nt_stopped (nh_task h)) (es_nodes self));;
  Some self.

(** A command with what the tasks do while it is under way. *)
Inductive Command :=
  | SubmitRequest (node key hits : Z) (l : list Turn)
  | SetLinkPolicy (src dst : Z) (policy : LinkPolicyKind)
  | Heal
  | AddNode (l : list Turn)
  | RemoveNode (id : Z) (l : list Turn)
  | Step (delta_ms : Z) (counting : list (list Turn)) (rounds : list Round)
  | StepTo (virtual_ms : Z) (counting : list (list Turn)) (rounds : list Round)
  | TakeSnapshot (ls : list (list Turn * list Turn))
  | Idle (l : list Turn).
Inductive Reply :=
  | Batch (b : EventBatch)
  | State (s : ClusterState)
  | Done
  | Failed (e : EngineError).

Definition reply_of (r : EventBatch + EngineError) : Reply :=
  match r with inl b => Batch b | inr e => Failed e end.

Definition handle (self : EngineState) (cmd : Command) : option (EngineState * Reply) :=
  match cmd with
  | SubmitRequest node key hits l => '(self, r) ← submit_request self node key hits l; Some (self, reply_of r)
  | SetLinkPolicy src dst policy =>
    '(self, r) ← set_link_policy self src dst policy; Some (self, match r with inl _ => Done | inr e => Failed e end)
  | Heal => Some (heal self, Done)
  | AddNode l => '(self, b) ← add_node self l; Some (self, Batch b)
  | RemoveNode id l => '(self, r) ← remove_node self id l; Some (self, reply_of r)
  | Step delta_ms counting rounds => '(self, b) ← step self delta_ms counting rounds; Some (self, Batch b)
  | StepTo virtual_ms counting rounds =>
    '(self, b) ← step self (saturating_sub virtual_ms (es_virtual_ms self)) counting rounds; Some (self, Batch b)
  | TakeSnapshot ls => '(self, s) ← snapshot self ls; Some (self, State s)
  | Idle l => self ← drain_pending self l; Some (self, Done)
  end.

Fixpoint commands (self : EngineState) (cmds : list Command) : option (EngineState * list Reply) :=
  match cmds with
  | [] => Some (self, [])
  | cmd :: cmds =>
    '(self, r) ← handle self cmd;
    '(self, rs) ← commands self cmds;
    Some (self, r :: rs)
  end.

(** The session until its last command; [shutdown] ends it. *)
Definition run_engine (config : SimConfig) (cmds : list Command) : option ((EngineState * list Reply) + EngineError) :=
  match validate config with
  | inr e => Some (Err (ConfigRefused e))
  | inl _ => self ← build config; r ← commands self cmds; Some (Ok r)
  end.
End engine.
