(* ===== verification/EngineSpec.v ===== *)
(** * What the simulation engine keeps

    Whatever the tasks of the nodes do in between, the engine's books agree with
    the live nodes: identifiers are never reused, the address book and the
    reverse index list exactly the members, each member's receiver is the one
    bound at its address, and each node's peers, once it has read its pending
    membership events, are exactly the other members. *)

From stdpp Require Import strings.
From S2P Require Import Prelude Types Hash Index Freelist Dictionary DirtyRing PeerFrontier IO CellStore CellSlots CellInv CellOps CellMerge CellExpire GossipFrame CellTyped StoreSpec Bytes Str Window WireHeader WireBody WirePlan WireCodec Wire WireTyped Exchange Rules DashMap Mirror Runtime RuntimeSend RuntimeAdmin RuntimeInv RuntimeStep RuntimeLoop RuntimeView RuntimeSpec RuntimeNet NetAddr Sim ServerConfig Admin AdminSpec Engine.
Import GossipRuntime.

(** ** What an iteration does to the peers *)
Section peers.
Context {C : Count} (hmac : list Z → list Z → list Z) {S : Type} `{AggregateStore S}.
Implicit Types (self : t S).





End peers.

Section iterations.
Context {C : Count} (hmac : list Z → list Z → list Z) {S : Type} `{AggregateStore S}.

Abbreviation addresses_of rs := (Runtime.addr <$> peers (rs_self rs)).



End iterations.

(** ** The network keeps who is bound *)
Section network.
Context {F : Type} `{!Probability F}.
Implicit Types router : @SimRouter F.







End network.

(** ** The members *)
Section members.
Context {F : Type} `{!Probability F, !Loss F} {C : Count} (hmac : list Z → list Z → list Z).
Abbreviation Engine := (@EngineState F).

Definition known_peers (h : NodeHandle) : list SocketAddr := Runtime.addr <$> peers (rs_self (nt_run (nh_task h))).

(** A running node's peers, once it has read its pending events, are the
    addresses of [roster] but its own. *)
Definition peers_ok (roster : list SocketAddr) (h : NodeHandle) : Prop :=
  nt_stopped (nh_task h) = false →
  NoDup (known_peers h) ∧
  ∀ a, member a (bool_decide (a ∈ known_peers h)) (nt_peer_events (nh_task h)) = bool_decide (a ∈ roster ∧ a ≠ nh_addr h).


(** What the tasks cannot change. *)
Definition node_kept (h h' : NodeHandle) : Prop :=
  nh_id h' = nh_id h ∧ nh_addr h' = nh_addr h ∧ nh_identity h' = nh_identity h ∧
  inbound_rx (nt_transport (nh_task h')) = inbound_rx (nt_transport (nh_task h)) ∧
  ∀ roster, peers_ok roster h → peers_ok roster h'.
Record kept (self self' : Engine) : Prop := {
  k_config : es_config self' = es_config self;
  k_next : es_next_id self' = es_next_id self;
  k_book : es_addresses self' = es_addresses self;
  k_index : es_node_id_index self' = es_node_id_index self;
  k_nodes : Forall2 node_kept (es_nodes self) (es_nodes self');
  k_senders : senders (es_router self') = senders (es_router self);
}.
(** ... and time stands still. *)
Definition paused (self self' : Engine) : Prop :=
  kept self self' ∧ es_now self' = es_now self ∧ es_virtual_ms self' = es_virtual_ms self.

#[local] Instance node_kept_preorder : PreOrder node_kept.
Proof using. split; [done|]. intros h1 h2 h3 (? & ? & ? & ? & Hp1) (? & ? & ? & ? & Hp2). split_and!; try congruence. eauto. Qed.
#[local] Instance kept_preorder : PreOrder kept.
Proof using.
  split; [intros s; by split|]. intros s1 s2 s3 [????? ?] [?????]. split; try congruence. by etrans.
Qed.
#[local] Instance paused_preorder : PreOrder paused.
Proof using.
  split; [intros s; by split_and!|]. intros s1 s2 s3 (? & ? & ?) (? & ? & ?). split_and!; [by etrans|congruence..].
Qed.



























(** The invariant between commands: the roster is the live nodes', the nodes'
    clock is the engine's, and [spare] more nodes can have addresses of their
    own. *)
Definition roster (self : Engine) : list SocketAddr := nh_addr <$> es_nodes self.















End members.


(** ** What the observers report *)

(** A send is reported as sent just when the packet is queued or held. *)
Lemma send_event_truthful {F} `{!Probability F} (router router' : @SimRouter F) book src tr tr' buf dst i n evs :
  logging_try_send_to router book src tr buf dst = Some (router', tr', Ok n, evs) → book !! dst = Some i →
  let packet := {| pk_src := Sim.addr tr; pk_bytes := buf |} in
  (evs = [PacketSent src i (as_u32 n)] ∧
    (held router' = held router ++ [(dst, packet)] ∨
     ∃ id c, channels router !! id = Some c ∧
       channels router' !! id = Some {| ch_queue := ch_queue c ++ [packet]; ch_receiver := true |})) ∨
  (evs = [PacketDropped src i (as_u32 n)] ∧ channels router' = channels router ∧ held router' = held router).
Proof.
  intros He Hb packet. unfold logging_try_send_to, Sim.try_send_to in He. fold packet in He.
  assert (∀ r1 d, should_drop router (Sim.addr tr) dst = (r1, d) →
    channels r1 = channels router ∧ held r1 = held router ∧ received_counts r1 = received_counts router) as Hd.
  { unfold should_drop. intros r1 d Hs. repeat case_match; simplify_eq/=; done. }
  destruct (should_drop router (Sim.addr tr) dst) as [r1 d]. destruct (Hd r1 d eq_refl) as (Hc & Hh & Hr). clear Hd.
  assert (∀ r2 : @SimRouter F, received_counts r2 = received_counts router → (received_count router dst <? received_count r2 dst) = false) as Hsame.
  { intros r2 E. unfold received_count. rewrite E. apply Z.ltb_irrefl. }
  assert (∀ r2 r3 : @SimRouter F, record_delivery r2 dst = Some r3 → received_counts r2 = received_counts router →
    (received_count router dst <? received_count r3 dst) = true ∧ channels r3 = channels r2 ∧ held r3 = held r2) as Hmore.
  { intros r2 r3 Hrd E. unfold record_delivery in Hrd. opened Hrd. injection Hrd as <-. split_and!; [|done..].
    unfold checked in *. destruct (_ && _) in *; simplify_eq/=. unfold received_count in *. cbn. rewrite lookup_insert_eq, E. cbn. lia. }
  opened He. injection He as <- <- -> <-. rewrite Hb.
  destruct d; [injection E as <- _ _; right; by rewrite Hsame|].
  destruct (sender_for r1 dst) as [id|]; [|injection E as <- _ _; right; by rewrite Hsame].
  destruct (deferring r1); opened E.
  - injection E as <- _ _. destruct (Hmore _ _ E0 Hr) as (-> & _ & Hh').
    left. split; [done|]. left. rewrite Hh'. cbn. by rewrite Hh.
  - unfold try_send in E0. opened E0. destruct (negb _); [injection E0 as <- <-; injection E as <- _ _; right; by rewrite Hsame|].
    destruct (_ <=? _); injection E0 as <- <-; [done|]. opened E. injection E as <- _ _.
    match goal with Hk : record_delivery _ _ = Some _ |- _ => destruct (Hmore _ _ Hk Hr) as (-> & Hc' & _) end.
    left. split; [done|]. right. exists id, x. rewrite <- Hc. split; [done|]. rewrite Hc'. apply lookup_insert_eq.
Qed.

(** Identifiers survive the text form. *)
Lemma hexw_digits width : ∀ n, Forall (λ c, c ≠ 43 ∧ c ≠ 120) (hexw width n).
Proof.
  induction width as [|w IH]; intros n; [constructor|]. cbn [hexw]. apply Forall_app. split; [apply IH|]. apply Forall_singleton.
  pose proof (Z.mod_pos_bound n 16 ltac:(lia)). unfold digit_char. destruct (_ <? _) eqn:E; bool_solve; lia.
Qed.
Lemma u128_hex_roundtrip n : uint 128 n → u128_hex_deserialize (u128_hex_serialize n) = Some n.
Proof.
  intros Hn. pose proof (hex32_reads n Hn) as Hr. unfold u128_hex_deserialize, u128_hex_serialize.
  pose proof (hexw_digits 32 n) as Hd. pose proof (hexw_length 32 n) as Hl. rewrite hex32_fixed in * by done.
  destruct (hexw 32 n) as [|c1 [|c2 rest]]; try done. apply Forall_cons in Hd as [[H1 _] [[_ H2] _]%Forall_cons].
  assert (strip_prefix (lit "0x") (c1 :: c2 :: rest) = None) as ->.
  { change (lit "0x") with [48; 120]. cbn [strip_prefix]. destruct (48 =? c1); [|done]. by replace (120 =? c2) with false by lia. }
  cbn [default]. unfold u128_from_hex. by replace (c1 =? 43) with false by lia.
Qed.

(** ** A small session *)
Definition loss_flag : Probability bool := {| at_most_zero := negb; at_least_one := λ b, b; threshold := λ _, 0 |}.
#[local] Existing Instance loss_flag.
Definition loss_flag_range : Loss bool := {| within_unit := λ _, true; is_positive := λ b, b |}.
#[local] Existing Instance loss_flag_range.
#[local] Existing Instance Count_u32.

Definition pair_config : @SimConfig bool := {|
  sc_nodes := 2; sc_fanout := 3; sc_tick_interval_ms := 500; sc_target_err_bps := 100; sc_min_emit_interval_ms := 5;
  sc_rule_fingerprint := 77; sc_rule_limit := 1000; sc_rule_window_ms := 1000; sc_rule_bucket_ms := 1000; sc_rng_seed := 0;
  sc_uniform_loss := false |}.
Definition any_arm (id : Z) : Turn := {|
  tn_node := id; tn_request := true; tn_recv := true; tn_writable := true; tn_peer_event := true; tn_admin := true; tn_tick := true |}.
Definition around : list Turn := concat (replicate 6 (any_arm <$> [0; 1; 2])).
Definition asked : list (list Turn) := replicate 3 around.
Definition one_round : Round := {| rd_sending := around; rd_merging := around; rd_counting := asked |}.
Definition plain_tag : list Z → list Z → list Z := λ _ _, replicate 32 0.

(** Three hits at one node, one tick, and both nodes count three. *)
Example one_round_spreads :
  match run_engine plain_tag pair_config
          [SubmitRequest 0 5 3 around; Step 500 asked [one_round]; TakeSnapshot (replicate 2 (around, around))] with
  | Some (inl (_, [Batch hit; Batch round; State s])) =>
    (ev_kind <$> eb_events hit, ev_kind <$> eb_events round, ns_aggregate_total <$> cst_nodes s, oracle_total s)
  | _ => ([], [], [], 0)
  end = ([CellCreated 0 77 5 0 3],
         [PacketSent 0 1 152; PacketDelivered 0 1 152; CellCreated 1 77 5 0 3; EvTick 0; EvTick 1], [3; 3], 3).
Proof. vm_compute. reflexivity. Qed.


